(* ===== verification/_CoqProject ===== *)
-Q . S2P
Prelude.v
JsText.v
JsNumber.v
JsInteger.v
JsDate.v
JsIso.v
Stamp.v
JsValue.v
JsBytes.v
JsJson.v
JsonText.v
Template.v
ColumnTransforms.v
RedisTarget.v
Schedule.v
BridgeConfig.v
TypeMap.v
ValueMap.v
RowCompare.v
Decimal.v
RowSame.v
Volatile.v
Bridge.v
RowCodec.v
FilterMatch.v
SchemaDrift.v
PgLsn.v
Isolate.v
Async.v
CdcState.v
SpoolCodec.v
TableReader.v
SinkRows.v
DbSink.v
SinkOnce.v
Ledger.v
Cdc.v
CdcSystem.v
CdcSafety.v
CdcWorker.v
CdcChain.v
CdcTheorems.v
CdcRun.v
Snapshot.v
HeldChanges.v
SnapshotCopy.v
Shaping.v
Verify.v
VerifyKeys.v
VerifyExact.v
VerifySample.v
UrlGuard.v
Http.v
HttpEnds.v
BridgeSink.v
Crypto.v
EchoGuard.v
EchoLoop.v
StatementSafety.v
StatementWords.v
StatementReads.v
Watch.v
WatchOnce.v
WatchStill.v
WatchPages.v
WatchPoll.v
WatchLive.v
WatchStall.v
Replay.v
ReplaySafety.v
ReplayAttempt.v
ReplayWorker.v
ReplaySystem.v
ReplaySource.v
ReplaySample.v
CdcProgress.v
CdcExec.v
CdcClaims.v
CdcSpool.v
PgCdc.v
