(* ===== verification/Prelude.v ===== *)
(** * Syncle: a verification library

    Syncle copies data between databases and to HTTP endpoints. A *bridge* reads
    a table (or a query), transforms its rows and writes them somewhere else; a
    *live* bridge follows the table's changes. This library models the part of
    the program on which the data depends, and proves what makes it correct.

    ** The program's parts, and the files that model them

    Paths are below [src/]. The code of the shared package is in
    [packages/core/src/bridges], the server's in [apps/api/src/bridges].

    - The language. [JsText], [JsNumber], [JsInteger], [JsDate], [JsIso], [JsValue],
      [JsBytes], [JsJson], [JsonText]: what the source uses of JavaScript's strings,
      numbers, dates, objects, buffers and of [JSON.stringify] and [JSON.parse].
      Strings are sequences of 8-bit code units. [JsInteger] proves that a safe
      integer is printed by its digits, [JsIso] that an ISO text names the
      millisecond it was made from, [JsonText] that plain values survive the trip
      through text. How a number is printed and a date parsed is the platform's,
      and is a class ([JsPrint], [JsHost]) with the laws the code relies on, which
      [JsIso] and [JsonText] show can be met.
    - Bridge configuration (core). [BridgeConfig]: the schemas of
      [bridge-config.ts], as checking functions on JSON values. [Template]:
      [transform.ts], payload templates. [ColumnTransforms]:
      [column-transforms.ts], masks, casts, renames and computed columns.
      [RedisTarget]: [redis-target.ts]. [Schedule]: [schedule.ts]. [TypeMap]:
      [type-map.ts], column types between engines. [Bridge]: [bridge.ts], row
      mapping and table plans. [SchemaDrift]: [schema-drift.ts].
    - Values (core). [Stamp]: the two patterns the source reads a timestamp with.
      [ValueMap]: [value-map.ts], values between engines. [RowCompare]:
      [row-compare.ts], whether two drivers' readings are the same value, the
      spelling of a key, the differences of two rows; [Decimal], [RowSame] and
      [Volatile] hold its theorems.
    - Rows of a stream (server). [FilterMatch]: [cdc/filter-match.ts], filters in
      process. [PgLsn]: [cdc/providers/postgres-lsn.ts], positions in
      PostgreSQL's log and the row images it sends. [PgCdc]: the order of that
      provider's cursors as an instance of the interface below.
      [Isolate]: [cdc/isolate-failures.ts], the search for the rows of a failed
      batch that cannot be written.
    - Reading and copying tables (server). [TableReader]: [table-reader.service.ts],
      the order a table is read in and its pages. [Snapshot], [HeldChanges],
      [SnapshotCopy]: [cdc/snapshot-provider.ts], the copy of a table before its
      changes are followed: its positions, what is held back meanwhile, the copy.
    - Writing to databases (server), [database-sink.service.ts]. [SinkRows]: what a
      target receives of a row, the kinds of its columns, the table made for it.
      [DbSink]: a delivery to every target, the calls of adapters and of the echo
      guard through the class [Adapters]. [SinkOnce] holds its theorems. [Shaping]:
      [row-shaping.ts], the transforms of a delivery's rows.
    - Verification (server), [bridge-verify.service.ts]. [Verify]: both passes over
      the targets, second looks, repairs, the report. [Async.yields]: total
      correctness of programs that run alone; [VerifyKeys], [VerifyExact]: the theorem;
      [VerifySample]: two small tables.
    - Watches (server), [bridge-watch.service.ts]. [Watch]: one poll of a table
      by a column that only grows — the window, the rows already seen at its edge,
      the cursor. [WatchPages], [WatchPoll]: the service's poll as a program
      ([Async]) over the instance's row, the read in pages, the delivery, setting a
      page aside as a dead letter, the interval's adaptation, start and stop.
      [WatchOnce], [WatchStill], [WatchLive]: the theorems; [WatchStall]: small tables, and one that never ends.
    - Replays (server). [Replay]: [bridge-job.processor.ts] and what it calls of
      [bridge-job.service.ts], one entry of the queue as a program over the job's row
      and cells, streaming the source or sending again what was captured; cancel,
      skip, resume, retry. [ReplaySafety], [ReplayAttempt], [ReplayWorker]: what an
      attempt keeps, wherever it is killed; [ReplaySystem]: the worker and the queue
      as a step relation, and the theorems; [ReplaySource]: the reader of tables
      discharges the interface they are proved against; [ReplaySample]: small tables.
    - Loops between bridges (server). [EchoGuard]: [echo-guard.service.ts], which
      tables some bridge reads and some writes, what is remembered of a write, and
      what is looked up of a change that is read. [EchoLoop]: its theorems, about
      one write and about bridges that write what others read.
    - Secrets (server). [Crypto]: [common/crypto.service.ts], keys, encryption under
      the current key, reading under earlier ones, signed tokens.
    - Statements typed into the editor. [StatementSafety]: core's
      [statement-safety.ts], with [statement-guard.ts] and the check of a read-only
      connection; [StatementWords]: what masking leaves of a text, word by word;
      [StatementReads]: what passes for a read.
    - Destinations (server). [UrlGuard]: [url-guard.ts], the addresses a request
      may go to. [Http], [HttpEnds]: [delivery.service.ts], a request, its
      retries, its redirects. [BridgeSink]:
      [bridge-sink.service.ts], the choice of a sink and what each is given.
    - What is stored (server). [RowCodec]: [row-codec.ts], rows as text.
      [SpoolCodec]: the entries of [cdc/cdc-spool.service.ts].
    - The change pipeline (server), [bridge-cdc.service.ts]. [Async]: a method as
      a tree of atomic actions, one per stretch between two awaits, each with a
      guard for what it waits on; its triples and its executions. [CdcState]: the
      stream, the job's row, the spool, the dead letters, the saved positions,
      and the answers of everything outside ([Outside]). [Ledger]: the cells and
      counters of [bridge-job.service.ts]. [Cdc]: one definition per method.
      [CdcSystem]: processes and the step relation — the promise chain, the
      delivery that runs beside it, timers, retries of dead letters, teardown and
      restart, after a crash at any point included. [CdcRun]: an executable
      scheduler whose runs are reachable processes, and a small bridge.

    How they interact: a provider hands changes to [accept] ([Cdc]), which filters
    them ([FilterMatch]), watches their columns ([SchemaDrift] is the comparison
    behind that check) and collects them into a batch. [flush] puts a batch in
    flight; [deliverBatch] gives it to the sink, isolates what fails ([Isolate]),
    records it ([Ledger]) and saves the position ([CdcState]). With a spool, the
    batch goes to the spool first and a consumer delivers it from there. What a
    sink writes of a row is decided by [ColumnTransforms], [Bridge], [Template]
    and [RedisTarget].

    ** What the theorems show

    - The pipeline loses nothing. [CdcSafety] states the invariant of a process,
      [CdcWorker] proves it of the delivery, [CdcChain] of the chain's handlers,
      [CdcTheorems] of every step. [CdcClaims] draws the conclusions: no saved or
      acknowledged position passes a change that is not settled, a handled change
      is never forgotten, a batch is one delivery, the dead-letter queue respects
      its limit, all as long as no handler has thrown ([CdcSystem.unbroken]); and
      the one thing a handler throws is a failed look at the table's columns
      ([CdcClaims.what_is_thrown]). The client's theorems are proved against the
      class [CursorOrder] ([CdcSafety]), which says a provider's cursors order
      its log; [PgCdc] discharges it for PostgreSQL.
    - The pipeline ends what it starts. [CdcProgress]: chain and delivery take
      finitely many turns and never wait for each other for ever. [CdcExec] and
      [CdcClaims]: what one delivery does when the sink takes the batch, when it
      fails and the bridge aborts, and when the metadata store is down.
    - The spool. [CdcSpool]: the split into runs, the queue, and that an entry
      leaves it only when it is settled.
    - What is stored can be read: positions ([CdcState]), PostgreSQL cursors
      ([PgLsn]); and the ledger's counters are the sums of its cells ([Ledger]).
    - Reading a table by key hands over every row that stayed, once and in order,
      while the table changes, and ends ([TableReader]); a copy that fails and is
      started again is one copy up to the positions that were saved, behind which
      rows are handed over again ([SnapshotCopy]); of what arrives meanwhile the
      newest change of each key is handed over last ([HeldChanges]).
    - Rows and spooled entries read back as they were stored ([RowCodec],
      [SpoolCodec]); what a text or a date tells of an instant, told apart from how the
      code reads it ([ValueMap.tells]), is told by what is written for another
      engine; numbers are compared exactly ([Decimal]), what was sent is
      recognised in what is stored ([RowSame]), and a column that is compared does
      not depend on the time of delivery ([Volatile]).
    - A delivery of inserts that is tried again writes to each target once ([SinkOnce]). A
      verification of tables that hold still ends, and says "in sync" exactly when
      they are, in what is compared and looked for ([VerifyExact]).
    - A watch emits every change of a table once, while it changes ([WatchOnce]);
      over a table that holds still every row is delivered, once and in order, after
      at most as many polls as there are rows ([WatchLive]).
    - A replay killed at any call, resumed and retried any number of times sends
      exactly the batches of its table under their own keys; a batch that is recorded
      delivered was taken and is not sent again; a job that completed has every batch
      accounted for ([ReplaySystem]).
    - A SQL text passes for a read exactly when each statement does, in its own words,
      whatever its comments and quotes hold ([StatementReads]).
    - An IPv4 destination, also as an IPv6 address in dotted form, is refused exactly
      when it is a metadata service or, where they are blocked, private ([UrlGuard]);
      a delivery over HTTP ends within its attempts and succeeds exactly when its
      last request does ([HttpEnds]).
    - A write of this instance is recognised when it comes back, and a row that
      bridges with one target each send on to one another comes to rest
      ([EchoLoop]). A secret survives a change of the key, a token is read as it was
      signed ([Crypto]).
    - Isolation ends within its budget, accounts for every row once, pins one bad
      row down in logarithmically many attempts, and recognises a dead
      destination ([Isolate]).
    - Rows and types. Mapping, transforms, masks, templates, keys, filters and type
      translation do to a row what they say, on every branch, and report what
      they lose.
    - Defects that came to light are [Example]s beside the theorem whose
      assumption they violate: [CdcClaims.drift_failure_loses_a_row],
      [CdcSpool.trimmed_before_saved], [Ledger.recount_is_off],
      [ColumnTransforms.computed_column_is_skipped], [TypeMap.negative_scale],
      [TypeMap.element_note_is_lost], [TableReader.null_keys_are_read_for_ever],
      [ValueMap.early_year_moves], [ValueMap.offset_seconds_are_lost],
      [SinkOnce.second_target_on_a_table_is_skipped],
      [SinkOnce.conversion_is_lost_for_good],
      [VerifySample.last_look_is_not_counted], [VerifySample.failed_cast_is_written],
      [WatchStall.bulk_load_stalls], [UrlGuard.hex_mapped_metadata_passes],
      [HttpEnds.content_type_is_sent_twice], [ReplaySample.larger_batches_are_skipped],
      [ReplaySample.retry_passes_a_failed_row], [ReplaySample.unasked_key_leaves_it_running],
      [EchoLoop.second_targets_go_round], [Crypto.accented_cookie_throws],
      [HttpEnds.unserializable_body_throws], [WatchOnce.untimed_rows_are_emitted_again],
      [Volatile.dollar_column_is_not_seen], [ColumnTransforms.default_is_not_planned],
      and the last five of [StatementSafety].

    ** Bounds and fuel

    [isolateFailures] runs with fuel twice the number of rows; [Isolate] proves it
    never runs out. [parse] functions over text take fuel from the text's length.
    Retries have the source's own bounds (3 attempts to settle, 3 to append, 3 to
    read a row back). [Async.exec] takes none: a method is a finite tree, and
    [Async.exec_total] says it returns unless it waits. The loops of [Verify] take
    fuel and give no answer without; more fuel than rows is enough. A poll of a watch
    reads at most 50 pages, as the source does ([SCAN_PAGES_PER_POLL]). Numbers of the source are
    [Z], or [JsNumber.num] where fractions or NaN matter; sequences and row counts
    are [nat].

    ** Assumptions

    [Setup] ([CdcClaims]) lists what the pipeline's theorems ask: the bridge reads a
    table and delivers without the spool; rows name no column twice; the provider's cursors order its log and a reader
    resumes no later than behind the saved position, at the log's start when there
    is none. Every call of a store, the sink or the source may fail, at any
    moment, in any pattern: [Outside] gives the answers by the number of the call.
    What follows a handler that threw is outside the theorems (an [Example] shows a row
    lost).
    [StillSource] ([ReplaySafety]) is what the theorems of a replay ask of its table and
    bridge: that they hold still, the size of its batches included; what happens otherwise is an [Example]. [WatchLive]
    asks for a calm period: the table is not written, the clock is not put
    back, calls are answered, and no window holds more rows than a poll can read.

    ** Not modelled

    A call of a store that is carried out and whose answer is then lost (an append to the
    spool apart, which may be carried out in part); characters as code points, where the
    source splits a text into them (a mask works on 8-bit units); what the echo guard
    caches, the counter it keeps for itself and what is shown of it.
    The replication connections of the change providers, the SQL of the database
    adapters and the HTTP client (their answers are arguments); the Redis and PostgreSQL stores as such; the resumption of watches when the server starts; the plan of a draft, the retry of one
    delivery and the pauses of a replay; how an engine reads the text of a statement; presentation of
    deliveries (bodies, durations); the web applications; authentication, audit,
    alerts, settings, workspaces and connection pools, which are outside the path
    of the data. *)

From Stdlib Require Export ZArith Lia.
From stdpp Require Export base tactics option list strings gmap.

(** ** Automation shared by every component *)

Create HintDb syncle.
Create Rewrite HintDb syncle_rw.

(** Case analysis on every boolean or option a hypothesis or the goal scrutinises. *)
Ltac case_if :=
  match goal with
  | |- context [if ?b then _ else _] => destruct b eqn:?
  | H : context [if ?b then _ else _] |- _ => destruct b eqn:?
  end.

(** Turn boolean facts into propositions. *)
Ltac bool_to_prop :=
  repeat match goal with
  | H : _ && _ = true |- _ => apply andb_true_iff in H; destruct H
  | H : _ || _ = false |- _ => apply orb_false_iff in H; destruct H
  | H : negb _ = true |- _ => apply negb_true_iff in H
  | H : negb _ = false |- _ => apply negb_false_iff in H
  | H : bool_decide _ = true |- _ => apply bool_decide_eq_true in H
  | H : bool_decide _ = false |- _ => apply bool_decide_eq_false in H
  | H : Nat.leb _ _ = true |- _ => apply Nat.leb_le in H
  | H : Nat.leb _ _ = false |- _ => apply Nat.leb_gt in H
  | H : Nat.ltb _ _ = true |- _ => apply Nat.ltb_lt in H
  | H : Nat.ltb _ _ = false |- _ => apply Nat.ltb_ge in H
  | H : Nat.eqb _ _ = true |- _ => apply Nat.eqb_eq in H
  | H : Nat.eqb _ _ = false |- _ => apply Nat.eqb_neq in H
  | H : Z.leb _ _ = true |- _ => apply Z.leb_le in H
  | H : Z.leb _ _ = false |- _ => apply Z.leb_gt in H
  | H : Z.ltb _ _ = true |- _ => apply Z.ltb_lt in H
  | H : Z.ltb _ _ = false |- _ => apply Z.ltb_ge in H
  | H : Z.eqb _ _ = true |- _ => apply Z.eqb_eq in H
  | H : Z.eqb _ _ = false |- _ => apply Z.eqb_neq in H
  end.

Lemma Forall_kept {A} (P Q : A → Prop) `{∀ a, Decision (Q a)} (l : list A) :
  Forall P l → Forall P (filter Q l).
Proof.
  rewrite !Forall_forall. intros Hl a [_ Ha]%list_elem_of_filter. by apply Hl.
Qed.

(** ** Insertion-ordered sets

    A JavaScript [Set] iterates in insertion order, and the program spreads
    sets back into arrays; so a set is the list of its elements, without
    duplicates, in the order they were first added. *)

Section ordered_set.
Context {A : Type} `{EqDecision A}.

Definition set_add (s : list A) (x : A) : list A :=
  if decide (x ∈ s) then s else s ++ [x].

Definition set_addl (s xs : list A) : list A := foldl set_add s xs.

Definition set_of (xs : list A) : list A := set_addl [] xs.

Lemma elem_of_set_add s x y : y ∈ set_add s x ↔ y ∈ s ∨ y = x.
Proof. unfold set_add. case_decide; set_solver. Qed.

Lemma elem_of_set_addl xs s y : y ∈ set_addl s xs ↔ y ∈ s ∨ y ∈ xs.
Proof.
  revert s. induction xs as [|x xs IH]; intros s; simpl; [set_solver|].
  unfold set_addl in *. simpl. rewrite IH, elem_of_set_add. set_solver.
Qed.

Lemma elem_of_set_of xs y : y ∈ set_of xs ↔ y ∈ xs.
Proof. unfold set_of. rewrite elem_of_set_addl. set_solver. Qed.

Lemma NoDup_set_add s x : NoDup s → NoDup (set_add s x).
Proof.
  unfold set_add. intros Hs. case_decide; [done|].
  apply NoDup_app. repeat split; [done| |apply NoDup_singleton].
  intros y Hy. set_solver.
Qed.

Lemma NoDup_set_addl xs s : NoDup s → NoDup (set_addl s xs).
Proof.
  revert s. induction xs as [|x xs IH]; intros s Hs; simpl; [done|].
  apply IH, NoDup_set_add, Hs.
Qed.

Lemma NoDup_set_of xs : NoDup (set_of xs).
Proof. apply NoDup_set_addl, NoDup_nil_2. Qed.

(** adding what is already there changes nothing *)
Lemma set_addl_incl xs s : xs ⊆ s → set_addl s xs = s.
Proof.
  revert s. induction xs as [|x xs IH]; intros s Hs; simpl; [done|].
  unfold set_addl in *. simpl. unfold set_add at 2.
  rewrite decide_True by set_solver. apply IH. set_solver.
Qed.
End ordered_set.

#[export] Hint Resolve NoDup_set_add NoDup_set_addl NoDup_set_of : syncle.
#[export] Hint Rewrite @elem_of_set_add @elem_of_set_addl @elem_of_set_of : syncle_rw.
