(* ===== verification/JsText.v ===== *)
(** JavaScript strings, as the program uses them.

    A string is a sequence of 8-bit code units (the Latin-1 part of UTF-16,
    where a code unit, a code point and a character are the same thing); case
    mapping is the ASCII one.  Nothing here models code of the repository: these
    are the methods of [String.prototype] the modelled code calls. *)
From S2P Require Import Prelude.
From Stdlib Require Export Ascii.
From stdpp Require Export pretty.

Definition chars : string → list ascii := String.list_ascii_of_string.
Definition of_chars : list ascii → string := String.string_of_list_ascii.

Lemma of_chars_chars s : of_chars (chars s) = s.
Proof. apply String.string_of_list_ascii_of_string. Qed.

Lemma chars_of_chars l : chars (of_chars l) = l.
Proof. apply String.list_ascii_of_string_of_list_ascii. Qed.

#[export] Hint Rewrite of_chars_chars chars_of_chars : syncle_rw.

(** ** Character classes *)

Definition code (c : ascii) : N := N_of_ascii c.
Definition in_range (lo hi : N) (c : ascii) : bool :=
  (lo <=? code c)%N && (code c <=? hi)%N.

(** [\d], [[a-z]], [[A-Z]] *)
Definition is_digit : ascii → bool := in_range 48 57.
Definition is_lower : ascii → bool := in_range 97 122.
Definition is_upper : ascii → bool := in_range 65 90.
Definition is_alpha (c : ascii) : bool := is_lower c || is_upper c.

(** [\w]: a letter, a digit or an underscore *)
Definition is_word (c : ascii) : bool :=
  is_alpha c || is_digit c || (code c =? 95)%N.

(** [\s], and what [trim] removes *)
Definition is_space (c : ascii) : bool :=
  in_range 9 13 c || (code c =? 32)%N || (code c =? 160)%N.

Definition is_hex_digit (c : ascii) : bool :=
  is_digit c || in_range 97 102 c || in_range 65 70 c.

Definition digit_value (c : ascii) : Z := Z.of_N (code c) - 48.

Definition hex_value (c : ascii) : Z :=
  if is_digit c then digit_value c
  else if is_lower c then Z.of_N (code c) - 87 else Z.of_N (code c) - 55.

Definition lower_char (c : ascii) : ascii :=
  if is_upper c then ascii_of_N (code c + 32) else c.
Definition upper_char (c : ascii) : ascii :=
  if is_lower c then ascii_of_N (code c - 32) else c.

(** ** Methods *)

Definition map_chars (f : ascii → ascii) (s : string) : string :=
  of_chars (f <$> chars s).

Definition toLowerCase : string → string := map_chars lower_char.
Definition toUpperCase : string → string := map_chars upper_char.

Fixpoint drop_while (p : ascii → bool) (l : list ascii) : list ascii :=
  match l with
  | [] => []
  | c :: l' => if p c then drop_while p l' else l
  end.

Fixpoint take_while (p : ascii → bool) (l : list ascii) : list ascii :=
  match l with
  | [] => []
  | c :: l' => if p c then c :: take_while p l' else []
  end.

Definition trimStart (s : string) : string := of_chars (drop_while is_space (chars s)).
Definition trimEnd (s : string) : string :=
  of_chars (reverse (drop_while is_space (reverse (chars s)))).
Definition trim (s : string) : string := trimEnd (trimStart s).

Definition str_length : string → nat := String.length.

(** [s.slice(i)], [s.slice(i, j)] for indices that are not negative *)
Definition slice_from (i : nat) (s : string) : string := of_chars (drop i (chars s)).
Definition slice (i j : nat) (s : string) : string := of_chars (take (j - i) (drop i (chars s))).

Fixpoint is_prefix (p s : list ascii) : bool :=
  match p, s with
  | [], _ => true
  | a :: p', b :: s' => (a =? b)%char && is_prefix p' s'
  | _ :: _, [] => false
  end.

Definition startsWith (p s : string) : bool := is_prefix (chars p) (chars s).
Definition endsWith (p s : string) : bool :=
  is_prefix (reverse (chars p)) (reverse (chars s)).

(** the first position at which [p] occurs in the list, counted from [k] *)
Fixpoint find_at (p s : list ascii) (k : nat) : option nat :=
  if is_prefix p s then Some k
  else match s with [] => None | _ :: s' => find_at p s' (S k) end.

(** [s.indexOf(p)]; [None] is [-1] *)
Definition indexOf (p s : string) : option nat := find_at (chars p) (chars s) 0.
(** [s.indexOf(p, from)] *)
Definition indexOf_from (p s : string) (from : nat) : option nat :=
  find_at (chars p) (drop from (chars s)) from.
Definition includes (p s : string) : bool := bool_decide (is_Some (indexOf p s)).

(** [s.lastIndexOf(c)] for a single character *)
Definition lastIndexOf (c : ascii) (s : string) : option nat :=
  foldl (λ acc '(k, d), if (c =? d)%char then Some k else acc) None
        (imap pair (chars s)).

Fixpoint split_list (c : ascii) (acc l : list ascii) : list (list ascii) :=
  match l with
  | [] => [reverse acc]
  | d :: l' => if (d =? c)%char then reverse acc :: split_list c [] l'
               else split_list c (d :: acc) l'
  end.

(** [s.split(c)] for a single character *)
Definition split_on (c : ascii) (s : string) : list string :=
  of_chars <$> split_list c [] (chars s).

(** [xs.join(sep)] *)
Fixpoint join (sep : string) (xs : list string) : string :=
  match xs with
  | [] => EmptyString
  | [x] => x
  | x :: xs' => x +:+ sep +:+ join sep xs'
  end.

(** [s.repeat(n)] *)
Fixpoint repeat_str (n : nat) (s : string) : string :=
  match n with 0 => EmptyString | S n' => s +:+ repeat_str n' s end.

(** [s.padStart(n, c)] for a single character *)
Definition padStart (n : nat) (c : ascii) (s : string) : string :=
  of_chars (replicate (n - str_length s) c) +:+ s.

(** [s.padEnd(n, c)] for a single character *)
Definition padEnd (n : nat) (c : ascii) (s : string) : string :=
  s +:+ of_chars (replicate (n - str_length s) c).

(** splitting on runs of white space, without the empty pieces:
    [s.split(/\s+/).filter(Boolean)] *)
Fixpoint words_list (acc l : list ascii) : list (list ascii) :=
  match l with
  | [] => match acc with [] => [] | _ => [reverse acc] end
  | c :: l' =>
      if is_space c
      then match acc with [] => words_list [] l' | _ => reverse acc :: words_list [] l' end
      else words_list (c :: acc) l'
  end.

Definition words (s : string) : list string := of_chars <$> words_list [] (chars s).

(** [a < b] on strings: lexicographic on code units *)
Fixpoint chars_compare (a b : list ascii) : comparison :=
  match a, b with
  | [], [] => Eq
  | [], _ :: _ => Lt
  | _ :: _, [] => Gt
  | x :: a', y :: b' =>
      match (code x ?= code y)%N with Eq => chars_compare a' b' | c => c end
  end.

Definition str_compare (a b : string) : comparison := chars_compare (chars a) (chars b).
Definition str_lt (a b : string) : bool :=
  match str_compare a b with Lt => true | _ => false end.

(** the order of [sort()] *)
Definition str_le (a b : string) : Prop := str_compare a b ≠ Gt.
#[export] Instance str_le_dec : RelDecision str_le.
Proof. intros a b. unfold str_le. solve_decision. Defined.

(** a double quote, which is hard to write in a text; [dq] makes one of every
    single quote of a literal *)
Definition dquote : ascii := ascii_of_N 34.
Definition dq (s : string) : string := map_chars (λ c, if (c =? "'")%char then dquote else c) s.
Definition in_quotes (s : string) : string := of_chars (dquote :: chars s ++ [dquote]).

(** [s.replace(/\s+/g, ' ')] *)
Fixpoint collapse_list (in_space : bool) (l : list ascii) : list ascii :=
  match l with
  | [] => []
  | c :: l' => if is_space c
               then if in_space then collapse_list true l' else " "%char :: collapse_list true l'
               else c :: collapse_list false l'
  end.

Definition collapse (s : string) : string := of_chars (collapse_list false (chars s)).

(** ** Facts *)

Lemma code_inj c d : code c = code d → c = d.
Proof. unfold code. intros H. by rewrite <- (ascii_N_embedding c), H, ascii_N_embedding. Qed.

Lemma chars_inj s t : chars s = chars t → s = t.
Proof. intros H. by rewrite <- (of_chars_chars s), H, of_chars_chars. Qed.

Lemma chars_app s t : chars (s +:+ t) = chars s ++ chars t.
Proof.
  induction s as [|c s IH]; [done|].
  change (c :: chars (s +:+ t) = c :: (chars s ++ chars t)). by rewrite IH.
Qed.

Lemma length_chars s : length (chars s) = str_length s.
Proof. induction s as [|c s IH]; [done|]. cbn. by f_equal. Qed.

#[export] Hint Rewrite chars_app length_chars : syncle_rw.

Lemma is_prefix_spec p s : is_prefix p s = true ↔ ∃ r, s = p ++ r.
Proof.
  revert s. induction p as [|a p IH]; intros [|b s]; cbn.
  - split; [intros _; by exists []|done].
  - split; [intros _; by eexists|done].
  - split; [done|]. by intros [r ?].
  - rewrite andb_true_iff, IH. split.
    + intros [->%Ascii.eqb_eq [r ->]]. by exists r.
    + intros [r [= -> ->]]. split; [apply Ascii.eqb_refl|by exists r].
Qed.

Lemma startsWith_spec p s : startsWith p s = true ↔ ∃ r, s = p +:+ r.
Proof.
  unfold startsWith. rewrite is_prefix_spec. split.
  - intros [r Hr]. exists (of_chars r). apply chars_inj.
    by rewrite chars_app, chars_of_chars.
  - intros [r ->]. exists (chars r). apply chars_app.
Qed.

Lemma chars_compare_eq a b : chars_compare a b = Eq ↔ a = b.
Proof.
  revert b. induction a as [|x a IH]; intros [|y b]; cbn; try done.
  destruct (N.compare_spec (code x) (code y)) as [H|H|H].
  - apply code_inj in H as ->. rewrite IH. split; congruence.
  - split; [done|]. intros [= -> ->]. lia.
  - split; [done|]. intros [= -> ->]. lia.
Qed.

Lemma str_compare_eq a b : str_compare a b = Eq ↔ a = b.
Proof.
  unfold str_compare. rewrite chars_compare_eq. split; [apply chars_inj|by intros ->].
Qed.

Lemma chars_compare_antisym a b : chars_compare b a = CompOpp (chars_compare a b).
Proof.
  revert b. induction a as [|x a IH]; intros [|y b]; cbn; try done.
  rewrite (N.compare_antisym (code x)).
  destruct (code x ?= code y)%N; cbn; [apply IH|done|done].
Qed.

Lemma chars_compare_trans a b c :
  chars_compare a b = Lt → chars_compare b c = Lt → chars_compare a c = Lt.
Proof.
  revert b c. induction a as [|x a IH]; intros [|y b] [|z c]; cbn; try done.
  destruct (N.compare_spec (code x) (code y)) as [H|H|H];
    destruct (N.compare_spec (code y) (code z)) as [H'|H'|H']; try done.
  - intros H1 H2. rewrite H, H', N.compare_refl. by eapply IH.
  - intros H1 _. rewrite H. by rewrite (proj2 (N.compare_lt_iff _ _) H').
  - intros _ H2. rewrite <- H'. by rewrite (proj2 (N.compare_lt_iff _ _) H).
  - intros _ _. assert (code x < code z)%N as Hlt by lia.
    by rewrite (proj2 (N.compare_lt_iff _ _) Hlt).
Qed.

Lemma str_compare_antisym a b : str_compare b a = CompOpp (str_compare a b).
Proof. apply chars_compare_antisym. Qed.

(** joining the pieces of a split gives the string back *)
Lemma split_list_join c l acc :
  concat (imap (λ i p, match i with 0 => p | _ => c :: p end) (split_list c acc l))
  = reverse acc ++ l.
Proof.
  revert acc. induction l as [|d l IH]; intros acc; cbn.
  - by rewrite app_nil_r.
  - destruct (Ascii.eqb_spec d c) as [->|Hne]; cbn.
    + f_equal. specialize (IH []). cbn in IH.
      destruct (split_list c [] l) as [|p ps] eqn:Hs; cbn in *.
      * destruct l; cbn in Hs; [done|]. by case_match.
      * f_equal. rewrite <- IH. done.
    + rewrite IH. by rewrite reverse_cons, <- app_assoc.
Qed.

(** splitting and joining are inverse *)
Fixpoint join_list (c : ascii) (ps : list (list ascii)) : list ascii :=
  match ps with
  | [] => []
  | [p] => p
  | p :: ps' => p ++ c :: join_list c ps'
  end.

Lemma split_list_spec c l acc :
  c ∉ acc →
  join_list c (split_list c acc l) = reverse acc ++ l ∧
  Forall (λ p, c ∉ p) (split_list c acc l) ∧ split_list c acc l ≠ [].
Proof.
  revert acc. induction l as [|d l IH]; intros acc Hacc; cbn.
  - rewrite app_nil_r. split; [done|]. split; [|done].
    repeat constructor. by rewrite elem_of_reverse.
  - destruct (Ascii.eqb_spec d c) as [->|Hne].
    + destruct (IH []) as (H1 & H2 & H3); [apply not_elem_of_nil|].
      split; [|split; [constructor; [by rewrite elem_of_reverse|done]|done]].
      cbn. destruct (split_list c [] l) as [|p ps]; [done|]. by rewrite H1.
    + destruct (IH (d :: acc)) as (H1 & H2 & H3); [by apply not_elem_of_cons|].
      split_and!; [|done|done]. rewrite H1, reverse_cons, <- app_assoc. done.
Qed.

Lemma split_list_join_list c acc ps :
  ps ≠ [] → Forall (λ p, c ∉ p) ps → c ∉ acc →
  split_list c acc (join_list c ps) =
  match ps with p :: ps' => (reverse acc ++ p) :: ps' | [] => [] end.
Proof.
  revert acc. induction ps as [|p ps IH]; intros acc Hne Hf Hacc; [done|].
  inversion_clear Hf as [|? ? Hp Hps]. clear Hne.
  revert acc Hacc. induction p as [|d p IHp]; intros acc Hacc.
  - destruct ps as [|p' ps']; cbn; [by rewrite app_nil_r|].
    rewrite Ascii.eqb_refl, app_nil_r. f_equal. rewrite IH; [done..|apply not_elem_of_nil].
  - apply not_elem_of_cons in Hp as [Hd Hp].
    assert (join_list c ((d :: p) :: ps) = d :: join_list c (p :: ps)) as -> by (by destruct ps).
    cbn [split_list]. destruct (Ascii.eqb_spec d c) as [->|_]; [done|].
    rewrite IHp; [|done|by apply not_elem_of_cons].
    rewrite reverse_cons, <- app_assoc. done.
Qed.

Lemma split_on_spec c s : ∃ ps, split_on c s = of_chars <$> ps ∧ ps ≠ [] ∧
  chars s = join_list c ps ∧ Forall (λ p, c ∉ p) ps.
Proof.
  exists (split_list c [] (chars s)).
  destruct (split_list_spec c (chars s) []) as (H1 & H2 & H3); [apply not_elem_of_nil|].
  done.
Qed.

(** the pieces are the only ones without the separator that join to the text *)
Lemma split_on_unique c s ps :
  ps ≠ [] → Forall (λ p, c ∉ p) ps → chars s = join_list c ps →
  split_on c s = of_chars <$> ps.
Proof.
  intros Hne Hf Hs. unfold split_on. rewrite Hs, split_list_join_list;
    [|done|done|apply not_elem_of_nil]. by destruct ps.
Qed.

(** ** Words *)

Fixpoint join_words (ws : list (list ascii)) : list ascii :=
  match ws with
  | [] => []
  | [w] => w
  | w :: ws' => w ++ " "%char :: join_words ws'
  end.

Lemma words_list_spec l acc :
  Forall (λ c, is_space c = false) acc →
  Forall (λ w, w ≠ [] ∧ Forall (λ c, is_space c = false) w) (words_list acc l).
Proof.
  revert acc. induction l as [|c l IH]; intros acc Hacc; cbn.
  - destruct acc as [|a acc]; constructor; [|constructor]. split.
    + rewrite reverse_cons. by destruct (reverse acc).
    + by apply Forall_reverse.
  - destruct (is_space c) eqn:Hc.
    + destruct acc as [|a acc]; [by apply IH|]. constructor; [|by apply IH]. split.
      * rewrite reverse_cons. by destruct (reverse acc).
      * by apply Forall_reverse.
    + apply IH. by constructor.
Qed.

Lemma words_list_word w acc rest :
  Forall (λ c, is_space c = false) w →
  words_list acc (w ++ rest) = words_list (reverse w ++ acc) rest.
Proof.
  revert acc. induction w as [|c w IH]; intros acc Hw; cbn [words_list app]; [done|].
  inversion_clear Hw as [|? ? Hc Hw']. rewrite Hc, IH by done.
  by rewrite reverse_cons, <- app_assoc.
Qed.

Lemma words_list_end acc : acc ≠ [] → words_list acc [] = [reverse acc].
Proof. by destruct acc. Qed.

Lemma words_list_space acc l :
  acc ≠ [] → words_list acc (" "%char :: l) = reverse acc :: words_list [] l.
Proof. by destruct acc. Qed.

Lemma reverse_not_nil {A} (l : list A) : l ≠ [] → reverse l ≠ [].
Proof. destruct l as [|x l]; [done|]. rewrite reverse_cons. by destruct (reverse l). Qed.

(** the words of the words joined with single blanks are the words *)
Lemma words_list_join ws :
  Forall (λ w, w ≠ [] ∧ Forall (λ c, is_space c = false) w) ws →
  words_list [] (join_words ws) = ws.
Proof.
  induction ws as [|w ws IH]; intros Hf; [done|].
  inversion_clear Hf as [|? ? [Hne Hw] Hws]. pose proof (reverse_not_nil w Hne) as Hr.
  destruct ws as [|w' ws'].
  - cbn [join_words]. rewrite <- (app_nil_r w) at 1.
    rewrite words_list_word, app_nil_r, words_list_end by done. by rewrite reverse_involutive.
  - change (join_words (w :: w' :: ws')) with (w ++ " "%char :: join_words (w' :: ws')).
    rewrite words_list_word, app_nil_r, words_list_space by done.
    by rewrite reverse_involutive, IH.
Qed.

Lemma chars_join_blank ws : chars (join " " (of_chars <$> ws)) = join_words ws.
Proof.
  induction ws as [|w [|w' ws] IH]; [done|apply chars_of_chars|].
  change (chars (of_chars w +:+ " " +:+ join " " (of_chars <$> (w' :: ws))) =
          w ++ " "%char :: join_words (w' :: ws)).
  by rewrite !chars_app, IH, chars_of_chars.
Qed.

Lemma words_join s : words (join " " (words s)) = words s.
Proof.
  unfold words. rewrite chars_join_blank, words_list_join; [done|].
  apply words_list_spec. constructor.
Qed.

(** ** Finding a single character *)

Lemma str_length_app s t : str_length (s +:+ t) = str_length s + str_length t.
Proof. by rewrite <- !length_chars, chars_app, length_app. Qed.

Lemma find_at_char c l r k :
  c ∉ l → find_at [c] (l ++ c :: r) k = Some (k + length l).
Proof.
  revert k. induction l as [|d l IH]; intros k Hl; cbn.
  - rewrite Ascii.eqb_refl. cbn. f_equal. lia.
  - apply not_elem_of_cons in Hl as [Hd Hl].
    destruct (Ascii.eqb_spec c d) as [->|_]; [done|]. cbn. rewrite IH by done. f_equal. lia.
Qed.

Lemma find_at_none c l k : c ∉ l → find_at [c] l k = None.
Proof.
  revert k. induction l as [|d l IH]; intros k Hl; cbn; [done|].
  apply not_elem_of_cons in Hl as [Hd Hl].
  destruct (Ascii.eqb_spec c d) as [->|_]; [done|]. by apply IH.
Qed.

Lemma indexOf_char c a b :
  c ∉ chars a → indexOf (String c EmptyString) (a +:+ String c EmptyString +:+ b) = Some (str_length a).
Proof.
  intros Ha. unfold indexOf. rewrite !chars_app.
  change (chars (String c EmptyString)) with [c].
  change ([c] ++ chars b) with (c :: chars b).
  rewrite find_at_char by done. by rewrite length_chars.
Qed.

Lemma indexOf_none c s : c ∉ chars s → indexOf (String c EmptyString) s = None.
Proof. apply find_at_none. Qed.

Lemma slice_0_app a b : slice 0 (str_length a) (a +:+ b) = a.
Proof.
  unfold slice. rewrite chars_app, Nat.sub_0_r, drop_0, take_app_length'.
  - apply of_chars_chars.
  - by rewrite length_chars.
Qed.

Lemma slice_from_app a b : slice_from (str_length a) (a +:+ b) = b.
Proof.
  unfold slice_from. rewrite chars_app, drop_app_length'.
  - apply of_chars_chars.
  - by rewrite length_chars.
Qed.

Lemma slice_from_app_S c a b :
  slice_from (S (str_length a)) (a +:+ String c EmptyString +:+ b) = b.
Proof.
  unfold slice_from. rewrite !chars_app, <- length_chars.
  change (chars (String c EmptyString)) with [c].
  rewrite (app_assoc (chars a) [c]), drop_app_length'; [apply of_chars_chars|].
  rewrite length_app. cbn. lia.
Qed.

Lemma last_fold_none (c : ascii) k0 l f (acc : option nat) :
  c ∉ l →
  foldl (λ acc '(k, d), if (c =? d)%char then Some k else acc) acc
        (imap (λ i d, (k0 + f i, d)) l) = acc.
Proof.
  revert k0 f acc. induction l as [|d l IH]; intros k0 f acc Hl; [done|].
  apply not_elem_of_cons in Hl as [Hd Hl]. cbn.
  destruct (Ascii.eqb_spec c d) as [->|_]; [done|].
  apply (IH k0 (f ∘ S) acc Hl).
Qed.

Lemma lastIndexOf_char c a b :
  c ∉ chars b → lastIndexOf c (a +:+ String c EmptyString +:+ b) = Some (str_length a).
Proof.
  intros Hb. unfold lastIndexOf. rewrite !chars_app.
  change (chars (String c EmptyString)) with [c].
  change ([c] ++ chars b) with (c :: chars b).
  rewrite imap_app, foldl_app. cbn [imap foldl]. rewrite Ascii.eqb_refl.
  rewrite <- length_chars, Nat.add_0_r.
  apply (last_fold_none c (length (chars a)) (chars b) S (Some (length (chars a))) Hb).
Qed.
