(* ===== verification/JsNumber.v ===== *)
(** JavaScript numbers: IEEE 754 binary64.

    A number is a [spec_float] of the Standard Library at precision 53 and
    maximal exponent 1024, so comparison, addition and rounding are the ones of
    the language.  [num_of_decimal] rounds a decimal correctly, [string_to_num]
    is [Number(text)] and [num_to_string] is [String(n)]. *)
From S2P Require Import Prelude JsText.
From Stdlib Require Export SpecFloat.

Definition prec : Z := 53.
Definition emax : Z := 1024.

Definition num := spec_float.

#[export] Instance spec_float_eq_dec : EqDecision spec_float.
Proof. solve_decision. Defined.

Definition NaN : num := S754_nan.
Definition Infinity : num := S754_infinity false.

(** the number nearest to an integer *)
Definition num_of_Z (z : Z) : num := binary_normalize prec emax z 0 false.

(** the number nearest to [m * 10 ^ e] *)
Definition num_of_decimal (m e : Z) : num :=
  if (m =? 0)%Z then S754_zero false
  else if (0 <=? e)%Z then num_of_Z (m * 10 ^ e)
  else let '(q, ex, l) := SFdiv_core_binary prec emax (Z.abs m) 0 (10 ^ (- e)) 0 in
       binary_round_aux prec emax (m <? 0)%Z q ex l.

(** ** Comparisons and arithmetic *)

Definition num_is_nan (n : num) : bool := match n with S754_nan => true | _ => false end.
(** [Number.isFinite] *)
Definition is_finite (n : num) : bool :=
  match n with S754_nan | S754_infinity _ => false | _ => true end.

(** [a === b], [a < b], [a <= b], [a > b] *)
Definition num_eq (a b : num) : bool := SFeqb a b.
Definition num_lt (a b : num) : bool := SFltb a b.
Definition num_le (a b : num) : bool := SFleb a b.
Definition num_gt (a b : num) : bool := SFltb b a.

Definition num_add : num → num → num := SFadd prec emax.
Definition num_sub : num → num → num := SFsub prec emax.
Definition num_mul : num → num → num := SFmul prec emax.
Definition num_abs : num → num := SFabs.

(** the integer part, of a finite number ([Math.trunc]) *)
Definition trunc_Z (n : num) : Z :=
  match n with
  | S754_finite s m e =>
      let a := if (0 <=? e)%Z then (Zpos m * 2 ^ e)%Z else (Zpos m / 2 ^ (- e))%Z in
      if s then (- a)%Z else a
  | _ => 0%Z
  end.

(** [Number.isInteger] *)
Definition is_integer (n : num) : bool :=
  match n with
  | S754_zero _ => true
  | S754_finite _ m e => (0 <=? e)%Z || (Zpos m mod 2 ^ (- e) =? 0)%Z
  | _ => false
  end.

(** [Math.trunc], as a number: a zero keeps the sign *)
Definition num_trunc (n : num) : num :=
  match n with
  | S754_finite s _ _ => if (trunc_Z n =? 0)%Z then S754_zero s else num_of_Z (trunc_Z n)
  | _ => n
  end.

(** ** Decimal text of an integer *)

Definition digits_of_N (n : N) : string := pretty n.
Definition Z_to_string (z : Z) : string := pretty z.

(** ** [String(n)] *)

(** the exponent [n] with [10 ^ (n - 1) <= x < 10 ^ n], for a fraction below one *)
Fixpoint below_one (fuel : nat) (num den : Z) (j : Z) : Z :=
  match fuel with
  | 0 => 1 - j
  | S fuel => if (den <=? num)%Z then 1 - j else below_one fuel (num * 10) den (j + 1)
  end.

Definition decimal_digits (z : Z) : Z := Z.of_nat (str_length (Z_to_string z)).

(** a positive number as an exact fraction *)
Definition fraction (m : positive) (e : Z) : Z * Z :=
  if (0 <=? e)%Z then ((Zpos m * 2 ^ e)%Z, 1%Z) else (Zpos m, (2 ^ (- e))%Z).

Definition magnitude (m : positive) (e : Z) : Z :=
  let '(a, b) := fraction m e in
  let q := (a / b)%Z in
  if (0 <? q)%Z then decimal_digits q else below_one 400 a b 0.

(** the closest [k]-digit decimal that reads back as the number, if any; a
    carry may make it [10 ^ k], which is one digit at the next position *)
Definition digits_at (m : positive) (e : Z) (n k : Z) : option Z :=
  let '(a, b) := fraction m e in
  let '(a', b') := if (n <=? k)%Z then ((a * 10 ^ (k - n))%Z, b) else (a, (b * 10 ^ (n - k))%Z) in
  let lo := (a' / b')%Z in
  let good s := (10 ^ (k - 1) <=? s)%Z && (s <=? 10 ^ k)%Z &&
                num_eq (num_of_decimal s (n - k)) (S754_finite false m e) in
  let near_lo := (2 * (a' - lo * b') <=? b')%Z in
  match good lo, good (lo + 1)%Z with
  | true, true => Some (if near_lo then lo else (lo + 1)%Z)
  | true, false => Some lo
  | false, true => Some (lo + 1)%Z
  | false, false => None
  end.

Fixpoint shortest (fuel : nat) (m : positive) (e : Z) (n k : Z) : Z * Z * Z :=
  match fuel with
  | 0 => (0%Z, k, n)
  | S fuel => match digits_at m e n k with
              | Some s => if (s =? 10 ^ k)%Z then ((s / 10)%Z, k, (n + 1)%Z) else (s, k, n)
              | None => shortest fuel m e n (k + 1)
              end
  end.

Definition zeros (n : Z) : string := repeat_str (Z.to_nat n) "0".

(** Number::toString of the language: [n] is the position of the decimal point *)
Definition format_digits (s k n : Z) : string :=
  let ds := Z_to_string s in
  if (k <=? n)%Z && (n <=? 21)%Z then ds +:+ zeros (n - k)
  else if (0 <? n)%Z && (n <=? 21)%Z then
    slice 0 (Z.to_nat n) ds +:+ "." +:+ slice_from (Z.to_nat n) ds
  else if (-6 <? n)%Z && (n <=? 0)%Z then "0." +:+ zeros (- n) +:+ ds
  else
    let ex := (if (0 <? n)%Z then "e+" else "e-") +:+ Z_to_string (Z.abs (n - 1)) in
    if (k =? 1)%Z then ds +:+ ex
    else slice 0 1 ds +:+ "." +:+ slice_from 1 ds +:+ ex.

Definition num_to_string (x : num) : string :=
  match x with
  | S754_nan => "NaN"
  | S754_zero _ => "0"
  | S754_infinity s => if s then "-Infinity" else "Infinity"
  | S754_finite s m e =>
      let '(d, k, n) := shortest 17 m e (magnitude m e) 1 in
      (if s then "-" else EmptyString) +:+ format_digits d k n
  end.

(** ** [Number(text)] *)

(** the integer a run of digits stands for *)
Definition digits_value (l : list ascii) : Z :=
  foldl (λ acc c, (acc * 10 + digit_value c)%Z) 0%Z l.
Definition hex_digits_value (l : list ascii) : Z :=
  foldl (λ acc c, (acc * 16 + hex_value c)%Z) 0%Z l.
Definition radix_digits_value (r : Z) (l : list ascii) : Z :=
  foldl (λ acc c, (acc * r + digit_value c)%Z) 0%Z l.

(** [m * 10 ^ e] where the exponent may be far out of range *)
Definition num_of_scientific (m e : Z) : num :=
  if (m =? 0)%Z then S754_zero false
  else let top := (decimal_digits m + e)%Z in
       if (400 <? top)%Z then Infinity
       else if (top <? -400)%Z then S754_zero false
       else num_of_decimal m e.

(** [e+12], [E-3], [e7]: the exponent, or [None] when the rest is not one *)
Definition exponent_part (l : list ascii) : option Z :=
  match l with
  | [] => Some 0%Z
  | c :: l' =>
      if (code c =? 101)%N || (code c =? 69)%N then
        let '(neg, ds) := match l' with
                          | s :: ds => if (code s =? 45)%N then (true, ds)
                                       else if (code s =? 43)%N then (false, ds)
                                       else (false, l')
                          | [] => (false, [])
                          end in
        match ds with
        | [] => None
        | _ => if forallb is_digit ds
               then Some (if neg : bool then (- digits_value ds)%Z else digits_value ds)
               else None
        end
      else None
  end.

(** an unsigned decimal literal *)
Definition unsigned_decimal (l : list ascii) : option num :=
  let whole := take_while is_digit l in
  let rest := drop_while is_digit l in
  let '(frac, rest') :=
    match rest with
    | c :: r => if (code c =? 46)%N then (take_while is_digit r, drop_while is_digit r)
                else ([], rest)
    | [] => ([], [])
    end in
  match whole ++ frac with
  | [] => None
  | ds => match exponent_part rest' with
          | Some e => Some (num_of_scientific (digits_value ds)
                              (e - Z.of_nat (length frac)))
          | None => None
          end
  end.

Definition num_opp : num → num := SFopp.

Definition string_to_num (text : string) : num :=
  match chars (trim text) with
  | [] => S754_zero false
  | l =>
      let radix p := match l with
                     | z :: x :: ds => if (code z =? 48)%N &&
                         ((code x =? p)%N || (code x =? p - 32)%N) then Some ds else None
                     | _ => None
                     end in
      let read ok val ds := match ds with
                            | [] => NaN
                            | _ => if forallb ok ds then num_of_Z (val ds) else NaN
                            end in
      match radix 120%N, radix 111%N, radix 98%N with
      | Some ds, _, _ => read is_hex_digit hex_digits_value ds
      | _, Some ds, _ => read (in_range 48 55) (radix_digits_value 8) ds
      | _, _, Some ds => read (in_range 48 49) (radix_digits_value 2) ds
      | None, None, None =>
          let '(neg, body) := match l with
                              | s :: r => if (code s =? 45)%N then (true, r)
                                          else if (code s =? 43)%N then (false, r)
                                          else (false, l)
                              | [] => (false, [])
                              end in
          let v := if decide (of_chars body = "Infinity") then Infinity
                   else default NaN (unsigned_decimal body) in
          if neg : bool then num_opp v else v
      end
  end.

(** ** Checks against the language *)

Example to_string_checks :
  num_to_string <$> [num_of_Z 0; num_of_Z 42; num_of_Z (-7); num_of_decimal 1 (-1);
    num_of_decimal 15 (-1); num_of_decimal 1 21; num_of_decimal 1 20;
    num_of_decimal 1 (-7); num_of_decimal 123456 (-8); num_of_decimal 5 (-324);
    num_of_Z 9007199254740993; num_of_decimal 17976931348623157 292; NaN]
  = ["0"; "42"; "-7"; "0.1"; "1.5"; "1e+21"; "100000000000000000000"; "1e-7";
     "0.00123456"; "5e-324"; "9007199254740992"; "1.7976931348623157e+308"; "NaN"].
Proof. vm_compute. reflexivity. Qed.

Example to_num_checks :
  (num_to_string ∘ string_to_num) <$> ["  12 "; EmptyString; "0x1F"; "1e3"; "-.5"; "5."; "."; "1_0";
    "Infinity"; "-Infinity"; "abc"; "1e400"; "0b101"; "+7"; "1e"]
  = ["12"; "0"; "31"; "1000"; "-0.5"; "5"; "NaN"; "NaN"; "Infinity"; "-Infinity"; "NaN";
     "Infinity"; "5"; "7"; "NaN"].
Proof. vm_compute. reflexivity. Qed.

(** ** Order *)

Lemma pos_compare_cont_Eq a b : Pos.compare_cont Eq a b = (a ?= b)%positive.
Proof. done. Qed.

(** a finite number's place in the order of the representations *)
Definition num_key (n : num) : option (Z * Z) :=
  match n with
  | S754_nan => None
  | S754_infinity s => Some (if s then (-2, 0) else (2, 0))%Z
  | S754_zero _ => Some (0, 0)%Z
  | S754_finite s m e => Some (if s then (-1, 0) else (1, 0))%Z
  end.

Lemma SFcompare_refl n : num_is_nan n = false → SFcompare n n = Some Eq.
Proof.
  destruct n as [s|s| |s m e]; try done; [by destruct s|]. intros _. cbn.
  rewrite Z.compare_refl, pos_compare_cont_Eq, Pos.compare_refl. by destruct s.
Qed.

Lemma SFcompare_antisym a b : SFcompare b a = CompOpp <$> SFcompare a b.
Proof.
  destruct a as [s|s| |s m e], b as [s'|s'| |s' m' e']; try done; try (by destruct s);
    try (by destruct s'); try (by destruct s, s').
  cbn. rewrite (Z.compare_antisym e e').
  change (Pos.compare_cont Eq m m') with (m ?= m')%positive.
  change (Pos.compare_cont Eq m' m) with (m' ?= m)%positive.
  rewrite (Pos.compare_antisym m m').
  destruct s, s'; try done; destruct (e ?= e')%Z; cbn; try done;
    by rewrite ?CompOpp_involutive.
Qed.

Ltac cmp_norm :=
  repeat match goal with
  | |- context [Pos.compare_cont Eq ?a ?b] =>
      change (Pos.compare_cont Eq a b) with (a ?= b)%positive
  end;
  repeat match goal with
  | |- context [(?a ?= ?b)%Z] => destruct (Z.compare_spec a b)
  | |- context [(?a ?= ?b)%positive] => destruct (Pos.compare_spec a b)
  end; subst; cbn; try done; try lia.

Lemma num_lt_trans a b c : num_lt a b = true → num_lt b c = true → num_lt a c = true.
Proof.
  unfold num_lt, SFltb.
  destruct a as [s|s| |s m e], b as [s'|s'| |s' m' e'], c as [s''|s''| |s'' m'' e''];
    cbn; try done; try (destruct s; done); try (destruct s'; done); try (destruct s''; done);
    try (destruct s, s'; done); try (destruct s', s''; done); try (destruct s, s''; done);
    try (destruct s, s', s''; done).
  destruct s, s', s''; try done; cmp_norm.
Qed.

Lemma num_lt_irrefl a : num_lt a a = false.
Proof.
  unfold num_lt, SFltb. destruct (num_is_nan a) eqn:Hn; [by destruct a|].
  by rewrite SFcompare_refl.
Qed.

Lemma num_trichotomy a b :
  num_is_nan a = false → num_is_nan b = false →
  num_lt a b = true ∨ num_eq a b = true ∨ num_lt b a = true.
Proof.
  unfold num_lt, num_eq, SFltb, SFeqb. intros Ha Hb. rewrite (SFcompare_antisym a b).
  assert (is_Some (SFcompare a b)) as [[] ->]; [|by right; left|by left|by right; right].
  destruct a, b; try done; eexists; done.
Qed.

(** ** Small integers are exact *)

Local Open Scope Z_scope.

Lemma iter_xO_value p k : Zpos (Pos.iter xO p k) = Zpos p * 2 ^ Zpos k.
Proof.
  induction k as [|k IH] using Pos.peano_ind; [cbn; lia|].
  rewrite Pos.iter_succ, Pos2Z.inj_xO, IH, Pos2Z.inj_succ, Z.pow_succ_r by lia. lia.
Qed.

Lemma iter_xO_digits p k :
  Zpos (digits2_pos (Pos.iter xO p k)) = Zpos (digits2_pos p) + Zpos k.
Proof.
  induction k as [|k IH] using Pos.peano_ind; [cbn; lia|].
  rewrite Pos.iter_succ. cbn [digits2_pos]. rewrite Pos2Z.inj_succ, IH. lia.
Qed.

Lemma digits2_bounds p :
  2 ^ (Zpos (digits2_pos p) - 1) <= Zpos p < 2 ^ Zpos (digits2_pos p).
Proof.
  induction p as [p IH|p IH|]; [| |cbn; lia]; cbn [digits2_pos];
    rewrite Pos2Z.inj_succ; (replace (Z.succ (Zpos (digits2_pos p)) - 1)
      with (Z.succ (Zpos (digits2_pos p) - 1)) by lia);
    rewrite !Z.pow_succ_r by lia; lia.
Qed.

Lemma round_aux_exact m e :
  fexp prec emax (Zdigits2 (Zpos m) + e) = e → e <= emax - prec →
  binary_round_aux prec emax false (Zpos m) e loc_Exact = S754_finite false m e.
Proof.
  intros Hf He. unfold binary_round_aux, shr_fexp. rewrite Hf, Z.sub_diag. cbn.
  cbn in Hf. rewrite Hf, Z.sub_diag. cbn -[prec emax]. by rewrite (proj2 (Z.leb_le e (emax - prec)) He).
Qed.

(** an integer below [2 ^ 53] is represented exactly *)
Lemma num_of_Z_exact z : 0 < z < 2 ^ 53 →
  ∃ m e, num_of_Z z = S754_finite false m e ∧ e <= 0 ∧ Zpos m = z * 2 ^ (- e) ∧
         e = Zdigits2 z - 53.
Proof.
  intros Hz. destruct z as [|p|p]; try lia.
  pose proof (digits2_bounds p) as [Hlo _].
  assert (Zpos (digits2_pos p) <= 53) as Hd.
  { destruct (Z.le_gt_cases (Zpos (digits2_pos p)) 53) as [|Hgt]; [done|].
    assert (2 ^ 53 <= 2 ^ (Zpos (digits2_pos p) - 1)) by (apply Z.pow_le_mono_r; lia). lia. }
  set (d := Zpos (digits2_pos p)) in *.
  assert (fexp prec emax (d + 0) = d - 53) as Hf by (unfold fexp, emin, prec, emax; lia).
  unfold num_of_Z, binary_normalize, binary_round. fold d. rewrite Hf.
  unfold shl_align. rewrite Z.sub_0_r. destruct (d - 53) as [|k|k] eqn:Hk; [| lia |].
  - exists p, 0. rewrite round_aux_exact.
    + split_and!; [done|lia|change (2 ^ (- 0)) with 1; lia|]. cbn [Zdigits2]. fold d. lia.
    + cbn [Zdigits2]. fold d. unfold fexp, emin, prec, emax. lia.
    + unfold emax, prec. lia.
  - exists (Pos.iter xO p k), (Zneg k).
    rewrite round_aux_exact.
    + split_and!; [done|lia| |cbn [Zdigits2]; fold d; lia].
      rewrite iter_xO_value. f_equal.
    + cbn [Zdigits2]. rewrite iter_xO_digits. fold d. unfold fexp, emin, prec, emax. lia.
    + unfold emax, prec. lia.
Qed.

Lemma num_of_Z_integer z : 0 <= z < 2 ^ 53 →
  is_integer (num_of_Z z) = true ∧ num_lt (num_of_Z z) (num_of_Z 0) = false ∧
  is_finite (num_of_Z z) = true ∧ trunc_Z (num_of_Z z) = z.
Proof.
  intros Hz. destruct (Z.eq_dec z 0) as [->|Hne]; [done|].
  destruct (num_of_Z_exact z) as (m & e & -> & He & Hm & _); [lia|].
  assert (0 < 2 ^ (- e)) as Hp by (apply Z.pow_pos_nonneg; lia).
  split_and!; [| |done|].
  - cbn [is_integer]. rewrite Hm, Z.mod_mul by lia. by rewrite orb_true_r.
  - done.
  - cbn [trunc_Z]. destruct (0 <=? e) eqn:H0; bool_to_prop.
    + assert (e = 0) as -> by lia. change (2 ^ (- 0)) with 1 in Hm. change (2 ^ 0) with 1. lia.
    + rewrite Hm. by apply Z.div_mul; lia.
Qed.

Lemma digits_mono a b : 0 < a <= b → Zdigits2 a <= Zdigits2 b.
Proof.
  intros Hab. destruct a as [|a|a]; try lia. destruct b as [|b|b]; try lia. cbn.
  pose proof (digits2_bounds a) as [Ha _]. pose proof (digits2_bounds b) as [_ Hb].
  destruct (Z.le_gt_cases (Zpos (digits2_pos a)) (Zpos (digits2_pos b))) as [|Hgt]; [done|].
  assert (2 ^ Zpos (digits2_pos b) <= 2 ^ (Zpos (digits2_pos a) - 1))
    by (apply Z.pow_le_mono_r; lia). lia.
Qed.

(** comparing small integers as numbers is comparing them *)
Lemma num_lt_Z a b : 0 <= a < 2 ^ 53 → 0 <= b < 2 ^ 53 →
  num_lt (num_of_Z a) (num_of_Z b) = (a <? b).
Proof.
  assert (∀ x y, 0 <= x < 2 ^ 53 → 0 <= y < 2 ^ 53 → x < y →
            num_lt (num_of_Z x) (num_of_Z y) = true) as Hlt.
  { intros x y Hx Hy Hxy. destruct (num_of_Z_exact y) as (m2 & e2 & -> & He2 & Hm2 & Hd2); [lia|].
    destruct (Z.eq_dec x 0) as [->|Hx0]; [done|].
    destruct (num_of_Z_exact x) as (m1 & e1 & -> & He1 & Hm1 & Hd1); [lia|].
    unfold num_lt, SFltb. cbn. rewrite pos_compare_cont_Eq.
    pose proof (digits_mono x y ltac:(lia)).
    destruct (Z.compare_spec e1 e2) as [He|He|He]; [|done|lia].
    destruct (Pos.compare_spec m1 m2) as [Heq|Hl|Hg]; [|done|]; exfalso;
      rewrite <- He in Hm2; assert (0 < 2 ^ (- e1)) by (apply Z.pow_pos_nonneg; lia).
    - rewrite Heq in Hm1. nia.
    - apply Pos2Z.pos_lt_pos in Hg. nia. }
  intros Ha Hb. destruct (a <? b) eqn:Hab; bool_to_prop; [by apply Hlt|].
  destruct (Z.eq_dec a b) as [->|Hne]; [apply num_lt_irrefl|].
  destruct (num_lt (num_of_Z a) (num_of_Z b)) eqn:H; [|done].
  assert (num_lt (num_of_Z b) (num_of_Z a) = true) as H' by (apply Hlt; lia).
  pose proof (num_lt_trans _ _ _ H H') as Hc. by rewrite num_lt_irrefl in Hc.
Qed.

(** ** [Number(String(n))] of a natural number *)

Lemma pretty_char_digit n : (n < 10)%N →
  is_digit (pretty_N_char n) = true ∧ digit_value (pretty_N_char n) = Z.of_N n.
Proof.
  intros Hn.
  assert (forallb (λ n, is_digit (pretty_N_char n) && (digit_value (pretty_N_char n) =? Z.of_N n))
            (N.of_nat <$> seq 0 10) = true) as Hall by (vm_compute; reflexivity).
  rewrite forallb_forall in Hall. specialize (Hall n).
  assert (is_digit (pretty_N_char n) && (digit_value (pretty_N_char n) =? Z.of_N n) = true) as H.
  { apply Hall, list_elem_of_In, list_elem_of_fmap. exists (N.to_nat n).
    split; [lia|]. apply elem_of_seq. lia. }
  apply andb_true_iff in H as [H1 H2]. by apply Z.eqb_eq in H2.
Qed.

Definition digits_ok (l : list ascii) (n : Z) : Prop :=
  Forall (λ c, is_digit c = true) l ∧ digits_value l = n ∧ l ≠ [].

Lemma digits_value_fold acc l :
  foldl (λ a c, a * 10 + digit_value c) acc l = acc * 10 ^ Z.of_nat (length l) + digits_value l.
Proof.
  unfold digits_value. revert acc. induction l as [|c l IH]; intros acc; cbn -[Z.of_nat Z.mul].
  - change (10 ^ Z.of_nat 0) with 1. lia.
  - rewrite IH, (IH (0 * 10 + digit_value c)).
    rewrite Nat2Z.inj_succ, Z.pow_succ_r by lia. lia.
Qed.

Lemma pretty_go_spec n s : (0 < n)%N →
  ∃ l, chars (pretty_N_go n s) = l ++ chars s ∧ digits_ok l (Z.of_N n) ∧
       ∀ k, Z.of_N n < 10 ^ Z.of_nat k → (length l <= k)%nat.
Proof.
  revert s. induction (N.lt_wf_0 n) as [n _ IH]. intros s Hn.
  rewrite pretty_N_go_step by done.
  destruct (pretty_char_digit (n mod 10)) as [Hd Hv]; [by apply N.mod_upper_bound|].
  pose proof (N.div_mod n 10 ltac:(lia)) as Hdm.
  pose proof (N.div_lt n 10 Hn ltac:(lia)) as Hlt.
  set (q := (n / 10)%N) in *. set (r := (n `mod` 10)%N) in *. clearbody q r.
  destruct (N.eq_dec q 0%N) as [Hz|Hz].
  - rewrite Hz. change (pretty_N_go 0 ?s) with s. exists [pretty_N_char r].
    split; [done|]. split; [split; [by repeat constructor|split; [|done]]|].
    + unfold digits_value. cbn -[Z.mul]. rewrite Hv. lia.
    + intros [|k] Hk; [|cbn; lia]. change (10 ^ Z.of_nat 0) with 1 in Hk. lia.
  - destruct (IH q) with (s := String (pretty_N_char r) s)
      as (l & Hl & (Hl1 & Hl2 & Hl3) & Hb); [done|lia|].
    exists (l ++ [pretty_N_char r]). rewrite Hl, <- app_assoc. split; [done|].
    split; [split; [apply Forall_app; by repeat constructor|split; [|by destruct l]]|].
    + unfold digits_value. rewrite foldl_app. fold (digits_value l). cbn -[Z.mul].
      rewrite Hl2, Hv. lia.
    + intros [|k] Hk; [change (10 ^ Z.of_nat 0) with 1 in Hk; lia|].
      rewrite Nat2Z.inj_succ, Z.pow_succ_r in Hk by lia.
      rewrite length_app. cbn. enough (length l <= k)%nat by lia. apply Hb.
      lia.
Qed.

Lemma pretty_spec n :
  digits_ok (chars (pretty n)) (Z.of_N n) ∧
  ∀ k, (0 < k)%nat → Z.of_N n < 10 ^ Z.of_nat k → (length (chars (pretty n)) <= k)%nat.
Proof.
  unfold pretty, pretty_N. destruct (decide (n = 0%N)) as [->|Hn].
  - split; [by repeat constructor|]. intros k Hk _. cbn. lia.
  - destruct (pretty_go_spec n EmptyString) as (l & Hl & Hok & Hb); [lia|].
    change (chars EmptyString) with (@nil ascii) in Hl. rewrite app_nil_r in Hl.
    rewrite Hl. split; [done|]. intros k _. apply Hb.
Qed.

Lemma digit_facts c : is_digit c = true →
  is_space c = false ∧ (48 <= code c)%N ∧ (code c <= 57)%N.
Proof.
  unfold is_space, is_digit, in_range. intros H. bool_to_prop.
  apply N.leb_le in H, H0. split; [|done].
  rewrite !orb_false_iff, andb_false_iff, !N.leb_gt, !N.eqb_neq. lia.
Qed.

Lemma drop_while_none p l : Forall (λ c, p c = false) l → drop_while p l = l.
Proof. destruct 1 as [|c l Hc _]; [done|]. cbn. by rewrite Hc. Qed.

Lemma trim_none s : Forall (λ c, is_space c = false) (chars s) → trim s = s.
Proof.
  intros Hs. unfold trim, trimStart, trimEnd.
  rewrite (drop_while_none is_space (chars s) Hs), chars_of_chars.
  rewrite (drop_while_none is_space (reverse (chars s))); [|by apply Forall_reverse].
  rewrite reverse_involutive. apply of_chars_chars.
Qed.

Lemma take_while_all p l : Forall (λ c, p c = true) l → take_while p l = l ∧ drop_while p l = [].
Proof.
  induction 1 as [|c l Hc _ [IH1 IH2]]; [done|]. cbn. rewrite Hc, IH1, IH2. done.
Qed.

Lemma Z_to_string_of_N n : Z_to_string (Z.of_N n) = pretty n.
Proof. by destruct n. Qed.

Lemma not_prefixed p z l :
  Forall (λ c, is_digit c = true) (z :: l) → (p = 120 ∨ p = 111 ∨ p = 98)%N →
  (match z :: l with
   | z :: x :: ds => if (code z =? 48)%N && ((code x =? p)%N || (code x =? p - 32)%N)
                     then Some ds else None
   | _ => None
   end) = None.
Proof.
  intros Hf Hp. destruct l as [|x l]; [done|].
  inversion_clear Hf as [|? ? _ Hf']. inversion_clear Hf' as [|? ? Hx _].
  destruct (digit_facts _ Hx) as (_ & H1 & H2).
  rewrite (proj2 (N.eqb_neq (code x) p)), (proj2 (N.eqb_neq (code x) (p - 32)%N)) by lia.
  by rewrite andb_false_r.
Qed.

Lemma decimal_digits_nonneg z : 0 <= decimal_digits z.
Proof. apply Nat2Z.is_nonneg. Qed.

(** a run of at most 400 digits reads as the number it spells *)
Lemma string_to_num_digits s :
  Forall (λ c, is_digit c = true) (chars s) → chars s ≠ [] →
  decimal_digits (digits_value (chars s)) <= 400 →
  string_to_num s = num_of_Z (digits_value (chars s)).
Proof.
  intros Hd Hne Hlen. unfold string_to_num.
  rewrite trim_none.
  2: { eapply Forall_impl; [exact Hd|]. intros c Hc. by apply digit_facts. }
  destruct (chars s) as [|z l] eqn:Hs; [done|]. cbv zeta.
  rewrite !not_prefixed by auto. inversion_clear Hd as [|? ? Hz Hl].
  destruct (digit_facts _ Hz) as (_ & H1 & H2).
  rewrite (proj2 (N.eqb_neq (code z) 45)), (proj2 (N.eqb_neq (code z) 43)) by lia.
  rewrite decide_False.
  2: { intros H%(f_equal chars). rewrite chars_of_chars in H.
       cbn in H. injection H as -> _. vm_compute in Hz. discriminate Hz. }
  unfold unsigned_decimal.
  destruct (take_while_all is_digit (z :: l)) as [-> ->]; [by constructor|].
  cbn [app]. rewrite app_nil_r. cbn [exponent_part default].
  unfold num_of_scientific. change (0 - Z.of_nat (length [])) with 0.
  destruct (digits_value (z :: l) =? 0) eqn:H0; bool_to_prop; [by rewrite H0|].
  rewrite !Z.add_0_r. rewrite (proj2 (Z.ltb_ge 400 _)) by done.
  rewrite (proj2 (Z.ltb_ge (decimal_digits (digits_value (z :: l))) (-400)))
    by (pose proof (decimal_digits_nonneg (digits_value (z :: l))); lia).
  unfold num_of_decimal. rewrite (proj2 (Z.eqb_neq _ 0)) by done. cbn [Z.leb Z.compare].
  change (10 ^ 0) with 1. by rewrite Z.mul_1_r.
Qed.

(** what [String(n)] of a natural number spells is read back as that number *)
Lemma string_to_num_pretty n :
  Z.of_N n < 10 ^ 300 → string_to_num (pretty n) = num_of_Z (Z.of_N n).
Proof.
  intros Hn. destruct (pretty_spec n) as [(H1 & H2 & H3) Hlen].
  rewrite string_to_num_digits; [by rewrite H2|done|done|].
  rewrite H2. unfold decimal_digits. rewrite Z_to_string_of_N, <- length_chars.
  assert (length (chars (pretty n)) <= 300)%nat by (apply Hlen; [lia|done]). lia.
Qed.

(** ** [BigInt(text)]; [None] where it throws *)

Definition string_to_big (text : string) : option Z :=
  match chars (trim text) with
  | [] => Some 0
  | l =>
      let radix p := match l with
                     | z :: x :: ds => if (code z =? 48)%N &&
                         ((code x =? p)%N || (code x =? p - 32)%N) then Some ds else None
                     | _ => None
                     end in
      let read ok val ds := match ds with
                            | [] => None
                            | _ => if forallb ok ds then Some (val ds) else None
                            end in
      match radix 120%N, radix 111%N, radix 98%N with
      | Some ds, _, _ => read is_hex_digit hex_digits_value ds
      | _, Some ds, _ => read (in_range 48 55) (radix_digits_value 8) ds
      | _, _, Some ds => read (in_range 48 49) (radix_digits_value 2) ds
      | None, None, None =>
          match l with
          | s :: r => if (code s =? 45)%N then Z.opp <$> read is_digit digits_value r
                      else if (code s =? 43)%N then read is_digit digits_value r
                      else read is_digit digits_value l
          | [] => None
          end
      end
  end.

Lemma string_to_big_digits s :
  Forall (λ c, is_digit c = true) (chars s) → chars s ≠ [] →
  string_to_big s = Some (digits_value (chars s)) ∧
  string_to_big ("-" +:+ s) = Some (- digits_value (chars s)).
Proof.
  intros Hd Hne.
  assert (Hsp : Forall (λ c, is_space c = false) (chars s)).
  { eapply Forall_impl; [exact Hd|]. intros c Hc. by apply digit_facts. }
  assert (Hall : forallb is_digit (chars s) = true).
  { apply forallb_forall. intros c Hc%list_elem_of_In. by eapply Forall_forall in Hd. }
  unfold string_to_big. rewrite !trim_none by (rewrite ?chars_app; by repeat constructor).
  rewrite chars_app. change (chars "-") with ["-"%char]. cbn [app].
  destruct (chars s) as [|z l] eqn:Hs; [done|]. split.
  - cbv zeta. rewrite !not_prefixed by auto. inversion_clear Hd as [|? ? Hz Hl].
    destruct (digit_facts _ Hz) as (_ & H1 & H2).
    rewrite (proj2 (N.eqb_neq (code z) 45)), (proj2 (N.eqb_neq (code z) 43)) by lia.
    by rewrite Hall.
  - cbn -[forallb digits_value]. by rewrite Hall.
Qed.

(** what [String(n)] of a big integer spells is read back as that integer *)
Lemma string_to_big_pretty z : string_to_big (Z_to_string z) = Some z.
Proof.
  destruct z as [|p|p]; [done|..]; destruct (pretty_spec (Npos p)) as [(H1 & H2 & H3) _].
  - change (Z_to_string (Zpos p)) with (pretty (Npos p)).
    destruct (string_to_big_digits (pretty (Npos p))) as [-> _]; [done..|]. by rewrite H2.
  - change (Z_to_string (Zneg p)) with ("-" +:+ pretty (Npos p)).
    destruct (string_to_big_digits (pretty (Npos p))) as [_ ->]; [done..|]. by rewrite H2.
Qed.
