(* ===== verification/JsInteger.v ===== *)
(** [String(n)] of an integer: every integer below [2 ^ 53] is printed as its
    decimal digits, and so is read back. *)
From S2P Require Import Prelude JsText JsNumber.

Local Open Scope Z_scope.

(** ** Large integers are other numbers *)

Lemma shr_exponent mrs e n : 0 <= n → (shr mrs e n).2 = e + n.
Proof. intros Hn. destruct n as [|p|p]; cbn; lia. Qed.

Lemma shr_fexp_exponent m e l : e <= (shr_fexp prec emax m e l).2 ∧
  fexp prec emax (Zdigits2 m + e) <= (shr_fexp prec emax m e l).2.
Proof.
  unfold shr_fexp. destruct (Z.le_gt_cases 0 (fexp prec emax (Zdigits2 m + e) - e)) as [H|H].
  - rewrite shr_exponent by done. lia.
  - destruct (fexp prec emax (Zdigits2 m + e) - e) as [|p|p] eqn:Hp; try lia. cbn. lia.
Qed.

Lemma round_aux_exponent m e l :
  match binary_round_aux prec emax false m e l with
  | S754_finite _ _ e' => fexp prec emax (Zdigits2 m + e) <= e'
  | S754_zero _ => True | S754_infinity _ => True | S754_nan => True
  end.
Proof.
  unfold binary_round_aux. destruct (shr_fexp prec emax m e l) as [mrs e1] eqn:H1.
  pose proof (shr_fexp_exponent m e l) as [_ Hf]. rewrite H1 in Hf. cbn in Hf.
  destruct (shr_fexp _ _ _ e1 _) as [mrs2 e2] eqn:H2. 
  match type of H2 with shr_fexp _ _ ?m2 _ ?l2 = _ => pose proof (shr_fexp_exponent m2 e1 l2) as [He _] end.
  rewrite H2 in He. cbn in He. destruct (shr_m mrs2); try done. destruct (e2 <=? emax - prec); [lia|done].
Qed.

Lemma digits2_large p : 2 ^ 53 <= Zpos p → 54 <= Zpos (digits2_pos p).
Proof.
  intros Hp. pose proof (digits2_bounds p) as [_ Hb].
  destruct (Z.le_gt_cases 54 (Zpos (digits2_pos p))) as [|H]; [done|].
  assert (2 ^ Zpos (digits2_pos p) <= 2 ^ 53) by (apply Z.pow_le_mono_r; lia). lia.
Qed.

Lemma num_of_Z_large w : 2 ^ 53 <= w →
  match num_of_Z w with
  | S754_finite _ _ e => 1 <= e
  | S754_zero _ => True | S754_infinity _ => True | S754_nan => True
  end.
Proof.
  intros Hw. destruct w as [|p|p]; try lia. pose proof (digits2_large p Hw) as Hd.
  assert (Hf : fexp prec emax (Zpos (digits2_pos p) + 0) = Zpos (digits2_pos p) - 53)
    by (unfold fexp, emin, prec, emax; lia).
  unfold num_of_Z, binary_normalize, binary_round. rewrite Hf.
  unfold shl_align. rewrite Z.sub_0_r.
  destruct (Zpos (digits2_pos p) - 53) as [|k|k] eqn:Hk; try lia.
  pose proof (round_aux_exponent (Zpos p) 0 loc_Exact) as Hr. cbn [Zdigits2] in Hr.
  destruct (binary_round_aux _ _ _ _ _ _); try done. rewrite Hf in Hr. lia.
Qed.

(** two integers, one below [2 ^ 53], are the same number only if they are the same *)
Lemma num_eq_Z a b : 0 <= a → 0 < b < 2 ^ 53 →
  num_eq (num_of_Z a) (num_of_Z b) = true → a = b.
Proof.
  intros Ha Hb Heq. destruct (Z.lt_ge_cases a (2 ^ 53)) as [Hlt|Hge].
  - assert (num_lt (num_of_Z a) (num_of_Z b) = false ∧ num_lt (num_of_Z b) (num_of_Z a) = false)
      as [H1 H2].
    { unfold num_eq, num_lt, SFeqb, SFltb in *. rewrite (SFcompare_antisym (num_of_Z a) (num_of_Z b)).
      destruct (SFcompare (num_of_Z a) (num_of_Z b)) as [[]|]; done. }
    rewrite num_lt_Z in H1, H2 by lia. bool_to_prop. lia.
  - pose proof (num_of_Z_large a Hge) as Hl.
    destruct (num_of_Z_exact b) as (m & e & Hbe & He & _ & _); [lia|]. rewrite Hbe in Heq.
    unfold num_eq, SFeqb in Heq. destruct (num_of_Z a) as [s| [] | |[] m' e']; try done.
    cbn in Heq. destruct (Z.compare_spec e' e); try done. lia.
Qed.

(** ** Decimal digits *)

Lemma digits_value_bound l : Forall (λ c, is_digit c = true) l →
  0 <= digits_value l < 10 ^ Z.of_nat (List.length l).
Proof.
  induction l as [|c l IH] using rev_ind; [done|]. intros Hl.
  apply Forall_app in Hl as [Hl Hc]. inversion_clear Hc as [|? ? Hd _].
  destruct (digit_facts c Hd) as (_ & H1 & H2). specialize (IH Hl).
  assert (Hsnoc : digits_value (l ++ [c]) = digits_value l * 10 + digit_value c)
    by (unfold digits_value; by rewrite foldl_app).
  rewrite Hsnoc, length_app. cbn [List.length]. rewrite Nat.add_1_r, Nat2Z.inj_succ, Z.pow_succ_r by lia.
  unfold digit_value. lia.
Qed.

Lemma pow10_pos n : 0 < 10 ^ Z.of_nat n.
Proof. apply Z.pow_pos_nonneg; lia. Qed.

(** the number of digits of a positive integer *)
Lemma decimal_digits_spec z : 0 < z →
  1 <= decimal_digits z ∧ 10 ^ (decimal_digits z - 1) <= z < 10 ^ decimal_digits z.
Proof.
  intros Hz. unfold decimal_digits.
  replace (Z_to_string z) with (pretty (Z.to_N z)) by (rewrite <- Z_to_string_of_N; f_equal; lia).
  destruct (pretty_spec (Z.to_N z)) as [(Hd & Hv & Hne) Hl]. rewrite <- length_chars.
  pose proof (digits_value_bound _ Hd) as Hb. rewrite Hv in Hb.
  set (n := List.length (chars (pretty (Z.to_N z)))) in *.
  assert (1 <= Z.of_nat n) as Hn by (subst n; destruct (chars _); [done|cbn; lia]).
  split; [done|]. split; [|lia].
  destruct (Nat.eq_dec n 1%nat) as [->|Hn1]; [change (10 ^ (Z.of_nat 1 - 1)) with 1; lia|].
  destruct (Z.le_gt_cases (10 ^ (Z.of_nat n - 1)) z) as [|Hlt]; [done|].
  exfalso. assert (n <= n - 1)%nat; [|lia]. apply Hl; [lia|].
  rewrite Nat2Z.inj_sub by lia. change (Z.of_nat 1) with 1. lia.
Qed.

(** ** A decimal with zeros behind it *)

Lemma pretty_go_app n s t : pretty_N_go n (s +:+ t) = pretty_N_go n s +:+ t.
Proof.
  revert s. induction (N.lt_wf_0 n) as [n _ IH]. intros s.
  destruct (N.eq_dec n 0%N) as [->|Hn]; [by rewrite !pretty_N_go_0|].
  rewrite !(pretty_N_go_step n) by lia.
  apply (IH (n / 10)%N (N.div_lt n 10 ltac:(lia) ltac:(lia)) (String _ s)).
Qed.

Lemma pretty_ten n : (0 < n)%N → pretty (n * 10)%N = pretty n +:+ "0".
Proof.
  intros Hn. unfold pretty, pretty_N. rewrite !decide_False by lia.
  rewrite pretty_N_go_step by lia. rewrite N.div_mul, N.Div0.mod_mul by done.
  apply (pretty_go_app n EmptyString "0").
Qed.

Lemma append_empty s : s +:+ EmptyString = s.
Proof. induction s as [|c s IH]; [done|]. exact (f_equal (String c) IH). Qed.

Lemma append_assoc s t u : (s +:+ t) +:+ u = s +:+ (t +:+ u).
Proof. induction s as [|c s IH]; [done|]. exact (f_equal (String c) IH). Qed.

Lemma pretty_zeros n k : (0 < n)%N →
  pretty (n * 10 ^ N.of_nat k)%N = pretty n +:+ repeat_str k "0".
Proof.
  revert n. induction k as [|k IH]; intros n Hn.
  - change (10 ^ N.of_nat 0)%N with 1%N. rewrite N.mul_1_r. symmetry. apply append_empty.
  - rewrite Nat2N.inj_succ, N.pow_succ_r by lia. rewrite N.mul_assoc, IH by lia.
    by rewrite pretty_ten, append_assoc.
Qed.

Lemma few_digits z : 0 < z < 2 ^ 53 → decimal_digits z <= 16.
Proof.
  intros Hz. set (n := decimal_digits z).
  destruct (decimal_digits_spec z ltac:(lia)) as (_ & Hlo & _). fold n in Hlo.
  destruct (Z.le_gt_cases n 16) as [|H]; [done|].
  assert (10 ^ 16 <= 10 ^ (n - 1)) by (apply Z.pow_le_mono_r; lia).
  change (10 ^ 16) with 10000000000000000 in *. change (2 ^ 53) with 9007199254740992 in *. lia.
Qed.

Lemma format_integer z s j : 0 < z < 2 ^ 53 → let n := decimal_digits z in
  1 <= j <= n → s * 10 ^ (n - j) = z → 0 < s → format_digits s j n = Z_to_string z.
Proof.
  intros Hz n Hj Hs Hpos. pose proof (few_digits z Hz) as Hfew. fold n in Hfew. unfold format_digits.
  rewrite (proj2 (Z.leb_le j n)), (proj2 (Z.leb_le n 21)) by lia. cbn [andb].
  unfold zeros. replace s with (Z.of_N (Z.to_N s)) by lia. rewrite Z_to_string_of_N.
  rewrite <- pretty_zeros by lia. rewrite <- Z_to_string_of_N. f_equal.
  rewrite N2Z.inj_mul, N2Z.inj_pow. rewrite Z2N.id by lia.
  replace (Z.of_N (N.of_nat (Z.to_nat (n - j)))) with (n - j) by lia. done.
Qed.
(** ** The shortest digits of an integer *)

Section shortest.
Context (z : Z) (Hz : 0 < z < 2 ^ 53) (m : positive) (e : Z).
Context (Hnum : num_of_Z z = S754_finite false m e) (He : e <= 0) (Hm : Zpos m = z * 2 ^ (- e)).

Lemma fraction_integer : ∃ b, 0 < b ∧ fraction m e = (z * b, b).
Proof.
  unfold fraction. destruct (0 <=? e) eqn:H0; bool_to_prop.
  - assert (e = 0) as -> by lia. exists 1. split; [lia|]. f_equal. rewrite Hm.
    change (2 ^ 0) with 1. change (2 ^ (- 0)) with 1. lia.
  - exists (2 ^ (- e)). split; [apply Z.pow_pos_nonneg; lia|]. by rewrite Hm.
Qed.

Lemma magnitude_integer : magnitude m e = decimal_digits z.
Proof.
  unfold magnitude. destruct fraction_integer as (b & Hb & ->). rewrite Z.div_mul by lia.
  by rewrite (proj2 (Z.ltb_lt 0 z)) by lia.
Qed.

Abbreviation n := (decimal_digits z).

Definition good (k s : Z) : bool :=
  (10 ^ (k - 1) <=? s) && (s <=? 10 ^ k) &&
  num_eq (num_of_decimal s (n - k)) (S754_finite false m e).

Lemma good_exact k s : 1 <= k <= n → good k s = true → s * 10 ^ (n - k) = z ∧ 0 < s.
Proof.
  intros Hk Hg. unfold good in Hg. bool_to_prop.
  assert (0 < 10 ^ (k - 1)) by (apply Z.pow_pos_nonneg; lia).
  assert (0 <= 10 ^ (n - k)) by (apply Z.pow_nonneg; lia).
  split; [|lia]. apply num_eq_Z; [apply Z.mul_nonneg_nonneg; lia|done|]. rewrite Hnum.
  match goal with H : num_eq _ _ = true |- _ => rename H into Hq end. unfold num_of_decimal in Hq.
  rewrite (proj2 (Z.eqb_neq s 0)) in Hq by lia.
  by rewrite (proj2 (Z.leb_le 0 (n - k))) in Hq by lia.
Qed.

Lemma digits_at_integer k : 1 <= k <= n →
  match digits_at m e n k with
  | Some s => s * 10 ^ (n - k) = z ∧ 0 < s
  | None => k < n
  end.
Proof.
  intros Hk. unfold digits_at. destruct fraction_integer as (b & Hb & ->).
  set (p := if n <=? k then _ else _).
  assert (p = (z * b, b * 10 ^ (n - k))) as ->.
  { subst p. destruct (n <=? k) eqn:H; bool_to_prop; [|done].
    assert (k = n) as -> by lia. rewrite Z.sub_diag. f_equal; change (10 ^ 0) with 1; lia. }
  cbv zeta beta iota. fold (good k (z * b / (b * 10 ^ (n - k)))).
  fold (good k (z * b / (b * 10 ^ (n - k)) + 1)).
  set (lo := z * b / (b * 10 ^ (n - k))).
  destruct (good k lo) eqn:H1, (good k (lo + 1)) eqn:H2.
  - case_match; by apply good_exact.
  - by apply good_exact.
  - by apply good_exact.
  - destruct (Z.le_gt_cases n k) as [Hn|]; [|done]. exfalso.
    assert (k = n) as -> by lia. subst lo. rewrite Z.sub_diag in H1. change (10 ^ 0) with 1 in H1.
    rewrite Z.mul_1_r, Z.div_mul in H1 by lia.
    destruct (decimal_digits_spec z ltac:(lia)) as (_ & Hlo & Hhi).
    unfold good in H1. rewrite (proj2 (Z.leb_le _ _) Hlo), (proj2 (Z.leb_le z (10 ^ n))) in H1 by lia.
    cbn [andb] in H1. rewrite Z.sub_diag in H1. unfold num_of_decimal in H1.
    rewrite (proj2 (Z.eqb_neq z 0)) in H1 by lia. change (0 <=? 0) with true in H1. cbv iota in H1.
    change (10 ^ 0) with 1 in H1. rewrite Z.mul_1_r, Hnum in H1.
    unfold num_eq, SFeqb in H1. rewrite SFcompare_refl in H1; done.
Qed.

Lemma shortest_integer fuel k :
  1 <= k <= n → n - k < Z.of_nat fuel →
  ∃ s j, shortest fuel m e n k = (s, j, n) ∧ 1 <= j <= n ∧ s * 10 ^ (n - j) = z ∧ 0 < s.
Proof.
  revert k. induction fuel as [|fuel IH]; intros k Hk Hf; [lia|]. cbn [shortest].
  pose proof (digits_at_integer k Hk) as Hd. destruct (digits_at m e n k) as [s|].
  - destruct Hd as [Hs Hpos]. destruct (s =? 10 ^ k) eqn:Hs10; bool_to_prop.
    + exfalso. destruct (decimal_digits_spec z ltac:(lia)) as (_ & _ & Hhi).
      assert (10 ^ k * 10 ^ (n - k) = 10 ^ n) by (rewrite <- Z.pow_add_r by lia; f_equal; lia).
      subst s. lia.
    + exists s, k. done.
  - apply IH; lia.
Qed.

End shortest.

(** an integer below [2 ^ 53] is printed as its digits *)
Lemma num_to_string_integer z : 0 <= z < 2 ^ 53 → num_to_string (num_of_Z z) = Z_to_string z.
Proof.
  intros Hz. destruct (Z.eq_dec z 0) as [->|Hne]; [done|].
  destruct (num_of_Z_exact z) as (m & e & Hnum & He & Hm & _); [lia|]. rewrite Hnum.
  cbn [num_to_string]. rewrite (magnitude_integer z ltac:(lia) m e) by done.
  destruct (decimal_digits_spec z ltac:(lia)) as [Hn _].
  pose proof (few_digits z ltac:(lia)).
  destruct (shortest_integer z ltac:(lia) m e Hnum He Hm 17 1) as (s & j & -> & Hj & Hs & Hp);
    [lia|lia|]. change (EmptyString +:+ ?t) with t. apply (format_integer z); [lia|done..].
Qed.

(** so it is read back, as text and as JSON *)
Lemma string_to_num_integer z : 0 <= z < 2 ^ 53 →
  string_to_num (num_to_string (num_of_Z z)) = num_of_Z z.
Proof.
  intros Hz. rewrite num_to_string_integer by done.
  replace (Z_to_string z) with (pretty (Z.to_N z)) by (rewrite <- Z_to_string_of_N; f_equal; lia).
  rewrite string_to_num_pretty by lia. f_equal. lia.
Qed.


(** ** Adding one *)

Definition exact (x : Z) : shr_record := {| shr_m := x; shr_r := false; shr_s := false |}.

Lemma shr_1_double x : 0 < x → shr_1 (exact (2 * x)) = exact x.
Proof. destruct x; try lia. done. Qed.

Lemma shr_zeros n x : 0 < x → SpecFloat.iter_pos shr_1 n (exact (x * 2 ^ Zpos n)) = exact x.
Proof.
  revert x. induction n as [n IH|n IH|]; intros x Hx; cbn [SpecFloat.iter_pos].
  - rewrite (Pos2Z.inj_xI n), Z.pow_add_r, Z.pow_mul_r by lia. change (2 ^ 1) with 2.
    replace (x * ((2 ^ 2) ^ Zpos n * 2)) with (2 * (x * 2 ^ Zpos n * 2 ^ Zpos n)).
    + assert (0 < 2 ^ Zpos n) by (apply Z.pow_pos_nonneg; lia).
      rewrite shr_1_double by (repeat apply Z.mul_pos_pos; lia).
      rewrite !IH by (repeat apply Z.mul_pos_pos; lia). done.
    + change (2 ^ 2) with (2 * 2). rewrite Z.pow_mul_l. lia.
  - assert (0 < 2 ^ Zpos n) by (apply Z.pow_pos_nonneg; lia).
    rewrite (Pos2Z.inj_xO n). replace (2 * Zpos n) with (Zpos n + Zpos n) by lia.
    rewrite Z.pow_add_r, Z.mul_assoc by lia.
    rewrite !IH by (repeat apply Z.mul_pos_pos; lia). done.
  - change (2 ^ 1) with 2. rewrite Z.mul_comm. by apply shr_1_double.
Qed.


Lemma Zdigits2_shifted w k : 0 < w → 0 <= k → Zdigits2 (w * 2 ^ k) = Zdigits2 w + k.
Proof.
  intros Hw Hk. destruct w as [|p|p]; try lia. destruct k as [|k|k]; try lia.
  - change (2 ^ 0) with 1. rewrite Z.mul_1_r. cbn. lia.
  - rewrite <- iter_xO_value. cbn [Zdigits2]. apply iter_xO_digits.
Qed.

Lemma Zdigits2_small w : 0 < w < 2 ^ 53 → 1 <= Zdigits2 w <= 53.
Proof.
  intros Hw. destruct w as [|p|p]; try lia. cbn [Zdigits2].
  pose proof (digits2_bounds p) as [Hlo _]. split; [lia|].
  destruct (Z.le_gt_cases (Zpos (digits2_pos p)) 53) as [|Hgt]; [done|].
  assert (2 ^ 53 <= 2 ^ (Zpos (digits2_pos p) - 1)) by (apply Z.pow_le_mono_r; lia). lia.
Qed.

(** an integer is the same number at every exponent that holds it *)
Lemma num_of_Z_shifted w : 0 < w < 2 ^ 53 →
  binary_normalize prec emax (w * 2 ^ 52) (-52) false = num_of_Z w.
Proof.
  intros Hw. pose proof (Zdigits2_small w Hw) as Hd. pose proof (Zdigits2_shifted w 52) as Hs.
  destruct (num_of_Z_exact w Hw) as (m & e & -> & He & Hm & Hde).
  assert (Hmd : Zdigits2 (Zpos m) = 53) by (rewrite Hm, Zdigits2_shifted; lia).
  destruct (w * 2 ^ 52) as [|q|q] eqn:Hq; try lia.
  assert (Hf : fexp prec emax (Zdigits2 (Zpos q) + -52) = e)
    by (rewrite Hs by lia; unfold fexp, emin, prec, emax; lia).
  unfold binary_normalize, binary_round. cbn [Zdigits2] in Hf. rewrite Hf.
  unfold shl_align. destruct (e - -52) as [|n|n] eqn:Hn; try lia.
  - assert (e = -52) as -> by lia. assert (q = m) as ->.
    { apply Pos2Z.inj. rewrite Hm, <- Hq. f_equal. }
    apply round_aux_exact; [|unfold emax, prec; lia]. exact Hf.
  - unfold binary_round_aux, shr_fexp. cbn [Zdigits2]. rewrite Hf, Hn.
    assert (Hqm : Zpos q = Zpos m * 2 ^ Zpos n).
    { rewrite Hm, <- Hq, <- Z.mul_assoc, <- Z.pow_add_r by lia. do 2 f_equal. lia. }
    unfold shr at 1. cbn [shr_record_of_loc].
    change {| shr_m := Zpos q; shr_r := false; shr_s := false |} with (exact (Zpos q)).
    rewrite Hqm, shr_zeros by lia. replace (-52 + Zpos n) with e by lia.
    cbn [exact shr_m shr_r shr_s loc_of_shr_record round_nearest_even]. rewrite Hmd.
    assert (fexp prec emax (53 + e) - e = 0) as -> by (unfold fexp, emin, prec, emax; lia).
    cbn [shr shr_m]. rewrite (proj2 (Z.leb_le e (emax - prec))); [done|unfold emax, prec; lia].
Qed.

(** adding one to an integer below [2 ^ 53 - 1] is exact *)
Lemma num_add_one z : 0 <= z < 2 ^ 53 - 1 → num_add (num_of_Z z) (num_of_Z 1) = num_of_Z (z + 1).
Proof.
  intros Hz. destruct (Z.eq_dec z 0) as [->|Hne]; [done|].
  destruct (num_of_Z_exact z) as (m & e & Hn & He & Hm & Hd); [lia|]. rewrite Hn.
  pose proof (Zdigits2_small z ltac:(lia)).
  change (num_of_Z 1) with (S754_finite false (2 ^ 52) (-52)).
  unfold num_add, SFadd. rewrite Z.min_r by lia. cbn [cond_Zopp].
  rewrite <- num_of_Z_shifted by lia. f_equal.
  rewrite Z.mul_add_distr_r, Z.mul_1_l. f_equal.
  unfold shl_align. destruct (-52 - e) as [|k|k] eqn:Hk; try lia; cbn [fst].
  - assert (e = -52) as -> by lia. exact Hm.
  - rewrite iter_xO_value, Hm, <- Z.mul_assoc, <- Z.pow_add_r by lia. do 2 f_equal. lia.
Qed.
