(* ===== verification/JsDate.v ===== *)
(** JavaScript dates: time values, the proleptic Gregorian calendar, ISO text.

    A [Date] holds a time value, a number of milliseconds since the epoch within
    [8.64e15], or nothing ([Invalid Date]).  What the language leaves to the
    host, the reading of a date text and the local time zone, is the class
    [JsHost]. *)
From S2P Require Import Prelude JsText JsNumber.

Local Open Scope Z_scope.

(** ** The calendar *)

Definition days_from_civil (y m d : Z) : Z :=
  let y' := if m <=? 2 then y - 1 else y in
  let era := y' / 400 in
  let yoe := y' mod 400 in
  let doy := (153 * (m + (if 2 <? m then -3 else 9)) + 2) / 5 + d - 1 in
  let doe := yoe * 365 + yoe / 4 - yoe / 100 + doy in
  era * 146097 + doe - 719468.

(** the year of the era, counted from March, of a day of an era *)
Definition year_of_era (doe : Z) : Z :=
  (doe - doe / 1460 + doe / 36524 - doe / 146096) / 365.

(** the day within that year, from zero *)
Definition day_of_year (doe : Z) : Z :=
  let yoe := year_of_era doe in doe - (365 * yoe + yoe / 4 - yoe / 100).

Definition civil_from_days (z : Z) : Z * Z * Z :=
  let era := (z + 719468) / 146097 in
  let doe := (z + 719468) mod 146097 in
  let y := year_of_era doe + era * 400 in
  let doy := day_of_year doe in
  let mp := (5 * doy + 2) / 153 in
  let d := doy - (153 * mp + 2) / 5 + 1 in
  let m := if mp <? 10 then mp + 3 else mp - 9 in
  (if m <=? 2 then y + 1 else y, m, d).

Lemma year_of_era_range doe :
  0 <= doe < 146097 →
  0 <= (doe - doe / 1460 + doe / 36524 - doe / 146096) / 365 < 400.
Proof. intros. Z.to_euclidean_division_equations. lia. Qed.

Lemma day_of_year_range doe :
  0 <= doe < 146097 →
  let yoe := (doe - doe / 1460 + doe / 36524 - doe / 146096) / 365 in
  0 <= doe - (365 * yoe + yoe / 4 - yoe / 100) <= 365.
Proof.
  intros H yoe.
  assert (0 <= doe / 36524 <= 4) as Hb by (Z.to_euclidean_division_equations; lia).
  assert (0 <= yoe / 100 <= 4 ) as Hy.
  { subst yoe. clear Hb. Z.to_euclidean_division_equations. lia. }
  subst yoe.
  set (b := doe / 36524) in *. 
  assert (doe / 146096 = 0 /\ doe < 146096 \/ doe = 146096 /\ doe/146096 = 1) as Hc.
  { clear Hy Hb. clear b. Z.to_euclidean_division_equations. lia. }
  pose proof (Z.div_mod doe 36524 ltac:(lia)). pose proof (Z.mod_pos_bound doe 36524 ltac:(lia)).
  fold b in H0.
  set (y := (doe - doe / 1460 + b - doe / 146096) / 365) in *.
  set (c := doe / 146096) in *. clearbody c.
  pose proof (Z.div_mod doe 1460 ltac:(lia)). pose proof (Z.mod_pos_bound doe 1460 ltac:(lia)).
  pose proof (Z.div_mod (doe - doe / 1460 + b - c) 365 ltac:(lia)). pose proof (Z.mod_pos_bound (doe - doe / 1460 + b - c) 365 ltac:(lia)).
  fold y in H4.
  pose proof (Z.div_mod y 100 ltac:(lia)). pose proof (Z.mod_pos_bound y 100 ltac:(lia)).
  pose proof (Z.div_mod y 4 ltac:(lia)). pose proof (Z.mod_pos_bound y 4 ltac:(lia)).
  clearbody y b.
  set (r := (doe - doe / 1460 + b - c) mod 365) in *. clearbody r.
  set (a := doe/1460) in *. clearbody a. set (r' := doe mod 1460) in *. clearbody r'.
  set (y100 := y/100) in *. clearbody y100. set (y4 := y/4) in *. clearbody y4.
  set (m100 := y mod 100) in *. clearbody m100. set (m4 := y mod 4) in *. clearbody m4.
  assert (y100 = 0 \/ y100 = 1 \/ y100 = 2 \/ y100 = 3 \/ y100 = 4) by lia.
  assert (b = 0 \/ b = 1 \/ b = 2 \/ b = 3 \/ b = 4) by lia.
  repeat match goal with H : _ \/ _ |- _ => destruct H end; subst; lia.
Qed.

Lemma year_of_era_bounds doe :
  0 <= doe < 146097 → 0 <= year_of_era doe < 400 ∧ 0 <= day_of_year doe <= 365.
Proof. intros H. split; [by apply year_of_era_range|by apply day_of_year_range]. Qed.

(** a day of the year, as a month counted from March and a day of the month *)
Lemma month_day_bounds doy :
  0 <= doy <= 365 →
  let mp := (5 * doy + 2) / 153 in
  0 <= mp <= 11 ∧ 1 <= doy - (153 * mp + 2) / 5 + 1 <= 31.
Proof.
  intros H mp.
  pose proof (Z.div_mod (5 * doy + 2) 153 ltac:(lia)) as Hd.
  pose proof (Z.mod_pos_bound (5 * doy + 2) 153 ltac:(lia)) as Hm.
  fold mp in Hd. assert (0 <= mp <= 11) as Hmp by lia. split; [done|].
  clearbody mp. set (r := (5 * doy + 2) mod 153) in *. clearbody r.
  assert (mp = 0 ∨ mp = 1 ∨ mp = 2 ∨ mp = 3 ∨ mp = 4 ∨ mp = 5 ∨ mp = 6 ∨ mp = 7 ∨
          mp = 8 ∨ mp = 9 ∨ mp = 10 ∨ mp = 11) as Hc by lia.
  repeat destruct Hc as [->|Hc]; subst; Z.to_euclidean_division_equations; lia.
Qed.

Lemma civil_from_days_spec z :
  let '(y, m, d) := civil_from_days z in
  days_from_civil y m d = z ∧ 1 <= m <= 12 ∧ 1 <= d <= 31.
Proof.
  unfold civil_from_days. set (w := z + 719468).
  pose proof (Z.div_mod w 146097 ltac:(lia)) as Hdm.
  assert (0 <= w mod 146097 < 146097) as Hr by (apply Z.mod_pos_bound; lia).
  destruct (year_of_era_bounds _ Hr) as [Hy Hdoy].
  unfold day_of_year in *. cbv zeta in *.
  set (doe := w mod 146097) in *. set (q := w / 146097) in *.
  set (yoe := year_of_era doe) in *. clearbody yoe.
  set (doy := doe - (365 * yoe + yoe / 4 - yoe / 100)) in *.
  pose proof (month_day_bounds doy Hdoy) as [Hmp Hd].
  set (mp := (5 * doy + 2) / 153) in *. clearbody mp.
  assert ((yoe + q * 400) / 400 = q ∧ (yoe + q * 400) mod 400 = yoe) as [Hq1 Hq2].
  { rewrite Z.div_add, Z.mod_add, Z.div_small, Z.mod_small by lia. lia. }
  unfold days_from_civil.
  destruct (mp <? 10) eqn:Hm; bool_to_prop.
  - rewrite !(proj2 (Z.leb_gt (mp + 3) 2)) by lia.
    rewrite (proj2 (Z.ltb_lt 2 (mp + 3))) by lia.
    rewrite Hq1, Hq2. replace (mp + 3 + -3) with mp by lia. lia.
  - rewrite !(proj2 (Z.leb_le (mp - 9) 2)) by lia.
    rewrite (proj2 (Z.ltb_ge 2 (mp - 9))) by lia.
    replace (yoe + q * 400 + 1 - 1) with (yoe + q * 400) by lia.
    rewrite Hq1, Hq2. replace (mp - 9 + 9) with mp by lia. lia.
Qed.

(** ** Time values *)

Definition ms_per_day : Z := 86400000.
Definition max_time : Z := 8640000000000000.

(** TimeClip: outside the range a date is invalid *)
Definition time_clip (t : Z) : option Z :=
  if (Z.abs t <=? max_time) then Some t else None.

(** [Date.UTC(y, month, d, h, mi, s)]: [month] counts from zero and may overflow,
    and a year of one or two digits is one of the twentieth century *)
Definition date_UTC (y month d h mi s : Z) : option Z :=
  let y := if (0 <=? y) && (y <=? 99) then 1900 + y else y in
  let ym := y + month / 12 in
  let mn := month mod 12 in
  time_clip ((days_from_civil ym (mn + 1) 1 + d - 1) * ms_per_day
             + h * 3600000 + mi * 60000 + s * 1000).

Record DateFields := {
  year : Z; month : Z; day : Z; hours : Z; minutes : Z; seconds : Z; millis : Z
}.

(** the fields of a time value, as [getUTCFullYear] and the others read them *)
Definition fields_of (t : Z) : DateFields :=
  let '(y, m, d) := civil_from_days (t / ms_per_day) in
  let r := t mod ms_per_day in
  {| year := y; month := m; day := d; hours := r / 3600000;
     minutes := r / 60000 mod 60; seconds := r / 1000 mod 60; millis := r mod 1000 |}.

Definition pad (n : nat) (z : Z) : string := padStart n "0" (Z_to_string z).

Definition iso_year (y : Z) : string :=
  if (0 <=? y) && (y <=? 9999) then pad 4 y
  else (if y <? 0 then "-" else "+") +:+ pad 6 (Z.abs y).

(** [date.toISOString()], for a valid date *)
Definition toISOString (t : Z) : string :=
  let f := fields_of t in
  iso_year (year f) +:+ "-" +:+ pad 2 (month f) +:+ "-" +:+ pad 2 (day f) +:+ "T" +:+
  pad 2 (hours f) +:+ ":" +:+ pad 2 (minutes f) +:+ ":" +:+ pad 2 (seconds f) +:+ "." +:+
  pad 3 (millis f) +:+ "Z".

(** ** What the language leaves to the host *)

Class JsHost := {
  (** [Date.parse(text)]; [None] is [NaN] *)
  date_parse : string → option Z;
  (** the offset of the local zone at an instant, in milliseconds *)
  local_offset : Z → Z
}.

(** the host's documented reading of the ISO form: what [toISOString] writes
    reads back as the same instant *)
Class JsHostLaws (H : JsHost) : Prop := {
  date_parse_iso : ∀ t, Z.abs t <= max_time → date_parse (toISOString t) = Some t;
  date_parse_range : ∀ s t, date_parse s = Some t → Z.abs t <= max_time
}.

(** the fields of a time value in local time *)
Definition local_fields `{JsHost} (t : Z) : DateFields := fields_of (t + local_offset t).

Example iso_epoch : toISOString 0 = "1970-01-01T00:00:00.000Z".
Proof. vm_compute. reflexivity. Qed.
Example iso_sample : toISOString 1772600767891 = "2026-03-04T05:06:07.891Z".
Proof. vm_compute. reflexivity. Qed.
Example iso_before : toISOString (-1) = "1969-12-31T23:59:59.999Z".
Proof. vm_compute. reflexivity. Qed.
Example utc_sample : date_UTC 2026 2 4 5 6 7 = Some 1772600767000.
Proof. vm_compute. reflexivity. Qed.
