(* ===== verification/JsIso.v ===== *)
(** A host that reads the ISO form of a date and nothing else: it shows that the
    laws asked of a host ([JsHostLaws]) can be met. *)
From S2P Require Import Prelude JsText JsNumber JsDate.

Local Open Scope Z_scope.

(** ** Padded numbers *)

Lemma digits_value_replicate n l :
  digits_value (replicate n "0"%char ++ l) = digits_value l.
Proof.
  unfold digits_value. induction n as [|n IH]; [done|]. cbn [replicate app foldl].
  change (0 * 10 + digit_value "0"%char) with 0. apply IH.
Qed.

(** a number that fits is printed in exactly [n] digits, which spell it *)
Lemma pad_spec n z : (0 < n)%nat → 0 <= z < 10 ^ Z.of_nat n →
  List.length (chars (pad n z)) = n ∧ digits_value (chars (pad n z)) = z.
Proof.
  intros Hn Hz. unfold pad, padStart. rewrite chars_app, chars_of_chars.
  replace (Z_to_string z) with (pretty (Z.to_N z)) by (rewrite <- Z_to_string_of_N; f_equal; lia).
  destruct (pretty_spec (Z.to_N z)) as [(_ & Hv & _) Hl].
  assert (List.length (chars (pretty (Z.to_N z))) <= n)%nat by (apply Hl; lia).
  rewrite length_app, length_replicate, digits_value_replicate, Hv, <- length_chars. lia.
Qed.

(** ** Reading an ISO text *)

Definition two_digits (a b : ascii) : Z := digits_value [a; b].

Definition iso_rest (y : Z) (l : list ascii) : option Z :=
  match l with
  | [_; m1; m2; _; d1; d2; _; h1; h2; _; i1; i2; _; s1; s2; _; a; b; c; _] =>
      Some (days_from_civil y (two_digits m1 m2) (two_digits d1 d2) * ms_per_day
            + two_digits h1 h2 * 3600000 + two_digits i1 i2 * 60000
            + two_digits s1 s2 * 1000 + digits_value [a; b; c])
  | _ => None
  end.

Definition iso_parse (s : string) : option Z :=
  let read n l := iso_rest (digits_value (take n l)) (drop n l) in
  let t := match chars s with
           | c :: l => if (c =? "-")%char then iso_rest (- digits_value (take 6 l)) (drop 6 l)
                       else if (c =? "+")%char then read 6%nat l
                       else read 4%nat (c :: l)
           | [] => None
           end in
  t ≫= time_clip.

(** ** The fields of a time value *)

Lemma fields_bounds t : Z.abs t <= max_time →
  let f := fields_of t in
  -999999 <= year f <= 999999 ∧ 0 <= month f < 100 ∧ 0 <= day f < 100 ∧ 0 <= hours f < 100 ∧
  0 <= minutes f < 100 ∧ 0 <= seconds f < 100 ∧ 0 <= millis f < 1000.
Proof.
  unfold max_time. intros Ht. unfold fields_of.
  set (z := t / ms_per_day). assert (Hz : -100000001 <= z <= 100000001).
  { subst z. unfold ms_per_day. Z.to_euclidean_division_equations. lia. }
  pose proof (civil_from_days_spec z) as Hc. unfold civil_from_days in *.
  set (w := z + 719468) in *.
  assert (0 <= w mod 146097 < 146097) as Hr by (apply Z.mod_pos_bound; lia).
  destruct (year_of_era_bounds _ Hr) as [Hy _].
  assert (-700 <= w / 146097 <= 700) as Hq by (subst w; Z.to_euclidean_division_equations; lia).
  destruct Hc as (_ & Hm & Hd). cbn [year month day hours minutes seconds millis].
  assert (Hrm : 0 <= t mod ms_per_day < 86400000) by (apply Z.mod_pos_bound; done).
  set (r := t mod ms_per_day) in *. clearbody r.
  split_and!; try lia; try (Z.to_euclidean_division_equations; lia).
  all: repeat case_match; lia.
Qed.

Lemma fields_recombine t :
  let f := fields_of t in
  days_from_civil (year f) (month f) (day f) * ms_per_day + hours f * 3600000
  + minutes f * 60000 + seconds f * 1000 + millis f = t.
Proof.
  unfold fields_of. pose proof (civil_from_days_spec (t / ms_per_day)) as Hc.
  destruct (civil_from_days (t / ms_per_day)) as [[y m] d]. destruct Hc as (Hd & _ & _).
  cbn [year month day hours minutes seconds millis]. rewrite Hd. unfold ms_per_day.
  Z.to_euclidean_division_equations. lia.
Qed.

Lemma chars_of_length_2 l : List.length l = 2%nat → ∃ a b : ascii, l = [a; b].
Proof. destruct l as [|a [|b [|]]]; try done. by exists a, b. Qed.

Lemma chars_of_length_3 l : List.length l = 3%nat → ∃ a b c : ascii, l = [a; b; c].
Proof. destruct l as [|a [|b [|c [|]]]]; try done. by exists a, b, c. Qed.

(** what follows the year of an ISO text *)
Definition iso_tail (f : DateFields) : string :=
  "-" +:+ pad 2 (month f) +:+ "-" +:+ pad 2 (day f) +:+ "T" +:+ pad 2 (hours f) +:+ ":" +:+
  pad 2 (minutes f) +:+ ":" +:+ pad 2 (seconds f) +:+ "." +:+ pad 3 (millis f) +:+ "Z".

Lemma iso_rest_tail t : Z.abs t <= max_time →
  iso_rest (year (fields_of t)) (chars (iso_tail (fields_of t))) = Some t.
Proof.
  intros Ht. pose proof (fields_bounds t Ht) as Hb. pose proof (fields_recombine t) as Hf.
  cbv zeta in *. destruct (fields_of t) as [y mo d h mi s ms]. cbn [year month day hours minutes seconds millis] in *.
  destruct Hb as (_ & Hmo & Hd & Hh & Hmi & Hs & Hms). unfold iso_tail.
  cbn [month day hours minutes seconds millis]. rewrite !chars_app.
  assert (Hp : ∀ z, 0 <= z < 100 → ∃ a b, chars (pad 2 z) = [a; b] ∧ two_digits a b = z).
  { intros z Hz. destruct (pad_spec 2 z) as [Hl Hv]; [lia|done|].
    destruct (chars_of_length_2 _ Hl) as (a & b & Hab). exists a, b. split; [done|].
    unfold two_digits. by rewrite <- Hab. }
  destruct (Hp mo Hmo) as (? & ? & -> & E1), (Hp d Hd) as (? & ? & -> & E2),
    (Hp h Hh) as (? & ? & -> & E3), (Hp mi Hmi) as (? & ? & -> & E4), (Hp s Hs) as (? & ? & -> & E5).
  destruct (pad_spec 3 ms) as [Hl Hv]; [lia|done|].
  destruct (chars_of_length_3 _ Hl) as (a & b & c & Habc). rewrite Habc in *.
  cbn -[two_digits digits_value days_from_civil Z.mul Z.add]. by rewrite E1, E2, E3, E4, E5, Hv, Hf.
Qed.

Lemma pad_first n z : (0 < n)%nat → 0 <= z < 10 ^ Z.of_nat n →
  ∃ c r, chars (pad n z) = c :: r ∧ (c =? "-")%char = false ∧ (c =? "+")%char = false.
Proof.
  intros Hn Hz. destruct (pad_spec n z Hn Hz) as [Hl _].
  assert (Hd : Forall (λ c, is_digit c = true) (chars (pad n z))).
  { unfold pad, padStart. rewrite chars_app, chars_of_chars.
    replace (Z_to_string z) with (pretty (Z.to_N z)) by (rewrite <- Z_to_string_of_N; f_equal; lia).
    apply Forall_app. split; [by apply Forall_replicate|].
    destruct (pretty_spec (Z.to_N z)) as [(H & _ & _) _]. exact H. }
  destruct Hd as [|c r Hc _]; [cbn in Hl; lia|]. exists c, r. split; [done|].
  destruct c as [[] [] [] [] [] [] [] []]; try discriminate Hc; done.
Qed.

Ltac pow10 := change (10 ^ Z.of_nat 4) with 10000; change (10 ^ Z.of_nat 6) with 1000000.

Lemma iso_parse_iso t : Z.abs t <= max_time → iso_parse (toISOString t) = Some t.
Proof.
  intros Ht. pose proof (iso_rest_tail t Ht) as Htail. pose proof (fields_bounds t Ht) as [Hy _].
  set (y := year (fields_of t)) in *.
  assert (Hiso : chars (toISOString t) = chars (iso_year y) ++ chars (iso_tail (fields_of t)))
    by apply chars_app.
  assert (Hclip : time_clip t = Some t) by (unfold time_clip; by rewrite (proj2 (Z.leb_le _ _) Ht)).
  unfold iso_parse. rewrite Hiso. unfold iso_year. destruct ((0 <=? y) && (y <=? 9999)) eqn:Hr.
  - bool_to_prop. destruct (pad_spec 4 y) as [Hl Hv]; [lia|pow10; lia|].
    destruct (pad_first 4 y) as (c & r & Hc & Hm & Hp); [lia|pow10; lia|].
    rewrite Hc. cbn [app]. rewrite Hm, Hp, app_comm_cons, <- Hc.
    rewrite take_app_length', drop_app_length', Hv by done. by rewrite Htail.
  - rewrite chars_app. destruct (pad_spec 6 (Z.abs y)) as [Hl Hv]; [lia|pow10; lia|].
    destruct (y <? 0) eqn:Hneg; bool_to_prop.
    + change (chars "-") with ["-"%char]. cbn [app].
      change (("-" =? "-")%char) with true. cbv iota.
      rewrite take_app_length', drop_app_length', Hv by done.
      replace (- Z.abs y) with y by lia. by rewrite Htail.
    + change (chars "+") with ["+"%char]. cbn [app].
      change (("+" =? "-")%char) with false. change (("+" =? "+")%char) with true. cbv iota zeta.
      rewrite take_app_length', drop_app_length', Hv by done.
      replace (Z.abs y) with y by lia. by rewrite Htail.
Qed.

#[export] Instance iso_host : JsHost := {| date_parse := iso_parse; local_offset _ := 0 |}.

#[export] Instance iso_host_laws : JsHostLaws iso_host.
Proof.
  split; [apply iso_parse_iso|]. intros s t. cbn. unfold iso_parse.
  intros (u & _ & Hu)%bind_Some. unfold time_clip in Hu.
  destruct (Z.abs u <=? max_time) eqn:H; [|done]. injection Hu as ->. by apply Z.leb_le.
Qed.
