(* ===== verification/Stamp.v ===== *)
(** Timestamps as texts: the two patterns of
    [packages/core/src/bridges/value-map.ts] ([TS]) and
    [packages/core/src/bridges/row-compare.ts] ([STAMP]), each as a reader that
    goes through the text once, and the instant they stand for. *)
From S2P Require Import Prelude JsText JsNumber JsInteger JsDate JsIso.

Local Open Scope Z_scope.

(** ** The pieces *)

Definition number_of (s : string) : Z := digits_value (chars s).

(** [\d\d] *)
Definition two (l : list ascii) : option (string * list ascii) :=
  match l with
  | a :: b :: r => if is_digit a && is_digit b then Some (of_chars [a; b], r) else None
  | _ => None
  end.

Definition one_of (cs : list ascii) (l : list ascii) : option (list ascii) :=
  match l with
  | c :: r => if bool_decide (c ∈ cs) then Some r else None
  | [] => None
  end.

Inductive Zone :=
| Zulu
| Offset (west : bool) (hh : string) (mm : option string).

Record StampText := {
  tyear : string;
  tmonth : string;
  tday : string;
  thour : option string;
  tminute : option string;
  tsecond : option string;
  tfraction : string;
  tzone : option Zone
}.

(** [(\d{4,})-(\d\d)-(\d\d)] *)
Definition date_part (l : list ascii) : option (string * string * string * list ascii) :=
  let y := take_while is_digit l in
  if (List.length y <? 4)%nat then None else
  r ← one_of ["-"%char] (drop_while is_digit l);
  '(mo, r) ← two r;
  r ← one_of ["-"%char] r;
  '(d, r) ← two r;
  Some (of_chars y, mo, d, r).

(** [(?:\.(\d{1,9}))?] *)
Definition fraction_part (l : list ascii) : string * list ascii :=
  match l with
  | c :: r =>
      let ds := take_while is_digit r in
      if (c =? ".")%char && (1 <=? List.length ds)%nat && (List.length ds <=? 9)%nat
      then (of_chars ds, drop_while is_digit r) else (EmptyString, l)
  | [] => (EmptyString, [])
  end.

(** [(?::?\d\d)?] *)
Definition minute_part (l : list ascii) : option string * list ascii :=
  match two (default l (one_of [":"%char] l)) with
  | Some (m, r) => (Some m, r)
  | None => (None, l)
  end.

(** [\s*(Z|[+-]\d\d(?::?\d\d)?)?$], with [(?::\d\d)?] behind it for [secs] *)
Definition zone_part (secs : bool) (l : list ascii) : option (option Zone) :=
  match drop_while is_space l with
  | [] => Some None
  | c :: r =>
      if bool_decide (c ∈ ["Z"; "z"]%char) then
        match r with [] => Some (Some Zulu) | _ => None end
      else if bool_decide (c ∈ ["+"; "-"]%char) then
        '(hh, r) ← two r;
        let (mm, r) := minute_part r in
        let r := if secs then match one_of [":"%char] r ≫= two with
                              | Some (_, r') => r'
                              | None => r
                              end else r in
        match r with [] => Some (Some (Offset (c =? "-")%char hh mm)) | _ => None end
      else None
  end.

(** ** The patterns *)

(** [TS]: the time of day is there, to the second *)
Definition read_TS (text : string) : option StampText :=
  '(y, mo, d, r) ← date_part (chars text);
  r ← one_of [" "; "T"; "t"]%char r;
  '(h, r) ← two r;
  r ← one_of [":"%char] r;
  '(mi, r) ← two r;
  r ← one_of [":"%char] r;
  '(s, r) ← two r;
  let (f, r) := fraction_part r in
  z ← zone_part true r;
  Some {| tyear := y; tmonth := mo; tday := d; thour := Some h; tminute := Some mi;
          tsecond := Some s; tfraction := f; tzone := z |}.

(** the time of day of [STAMP], which may be missing, and its seconds too *)
Definition clock_part (l : list ascii)
  : option (string * string * option string * string * list ascii) :=
  r ← one_of [" "; "T"; "t"]%char l;
  '(h, r) ← two r;
  r ← one_of [":"%char] r;
  '(mi, r) ← two r;
  match one_of [":"%char] r ≫= two with
  | Some (s, r') => let (f, r') := fraction_part r' in Some (h, mi, Some s, f, r')
  | None => Some (h, mi, None, EmptyString, r)
  end.

Definition read_STAMP (text : string) : option StampText :=
  '(y, mo, d, r) ← date_part (chars text);
  match clock_part r with
  | Some (h, mi, s, f, r) =>
      z ← zone_part false r;
      Some {| tyear := y; tmonth := mo; tday := d; thour := Some h; tminute := Some mi;
              tsecond := s; tfraction := f; tzone := z |}
  | None =>
      z ← zone_part false r;
      Some {| tyear := y; tmonth := mo; tday := d; thour := None; tminute := None;
              tsecond := None; tfraction := EmptyString; tzone := z |}
  end.

(** minutes east of UTC *)
Definition offset_minutes (z : option Zone) : Z :=
  match z with
  | Some (Offset west hh mm) =>
      (number_of hh * 60 + default 0 (number_of <$> mm)) * (if west then -1 else 1)
  | _ => 0
  end.

(** [Date.UTC(...)] of the whole second, less the zone's offset; [None] is [NaN] *)
Definition second_of (t : StampText) : option Z :=
  u ← date_UTC (number_of (tyear t)) (number_of (tmonth t) - 1) (number_of (tday t))
        (default 0 (number_of <$> thour t)) (default 0 (number_of <$> tminute t))
        (default 0 (number_of <$> tsecond t));
  Some (u - offset_minutes (tzone t) * 60000).

(** ** What the language prints is read *)

Lemma pad_digits n z : 0 <= z →
  Forall (λ c, is_digit c = true) (chars (pad n z)) ∧ (n <= List.length (chars (pad n z)))%nat ∧
  digits_value (chars (pad n z)) = z.
Proof.
  intros Hz. unfold pad, padStart. rewrite chars_app, chars_of_chars.
  replace (Z_to_string z) with (pretty (Z.to_N z)) by (rewrite <- Z_to_string_of_N; f_equal; lia).
  destruct (pretty_spec (Z.to_N z)) as [(Hd & Hv & _) _]. split_and!.
  - apply Forall_app. split; [|done]. by apply Forall_replicate.
  - rewrite length_app, length_replicate, length_chars. lia.
  - rewrite digits_value_replicate, Hv. lia.
Qed.

Lemma while_digits l r :
  Forall (λ c, is_digit c = true) l → match r with c :: _ => is_digit c = false | [] => True end →
  take_while is_digit (l ++ r) = l ∧ drop_while is_digit (l ++ r) = r.
Proof.
  intros Hl Hr. induction Hl as [|c l Hc _ [IH1 IH2]]; cbn.
  - destruct r as [|c r]; [done|]. cbn. by rewrite Hr.
  - by rewrite Hc, IH1, IH2.
Qed.

Lemma two_pad z r : 0 <= z < 100 → two (chars (pad 2 z) ++ r) = Some (pad 2 z, r).
Proof.
  intros Hz. destruct (pad_spec 2 z) as [Hl _]; [lia|done|].
  destruct (pad_digits 2 z) as (Hd & _ & _); [lia|].
  destruct (chars_of_length_2 _ Hl) as (a & b & Hab). rewrite Hab in *.
  inversion_clear Hd as [|? ? Ha Hd']. inversion_clear Hd' as [|? ? Hb _].
  unfold two. cbn [app]. rewrite Ha, Hb. cbn [andb].
  by rewrite <- Hab, of_chars_chars.
Qed.

Lemma number_of_pad n z : 0 <= z → number_of (pad n z) = z.
Proof. intros Hz. unfold number_of. by destruct (pad_digits n z Hz) as (_ & _ & ->). Qed.

Lemma one_of_here c cs r : c ∈ cs → one_of cs (c :: r) = Some r.
Proof. intros Hc. unfold one_of. by rewrite bool_decide_eq_true_2. Qed.

Lemma date_part_pads y m d r : 0 <= y → 0 <= m < 100 → 0 <= d < 100 →
  date_part (chars (pad 4 y) ++ "-"%char :: chars (pad 2 m) ++ "-"%char :: chars (pad 2 d) ++ r) =
  Some (pad 4 y, pad 2 m, pad 2 d, r).
Proof.
  intros Hy Hm Hd. destruct (pad_digits 4 y Hy) as (Hall & Hlen & _). unfold date_part.
  match goal with |- context [take_while is_digit (?l ++ ?r')] =>
    destruct (while_digits l r' Hall eq_refl) as [-> ->] end.
  rewrite (proj2 (Nat.ltb_ge _ _) Hlen), one_of_here by (by left). cbn [mbind option_bind].
  rewrite two_pad by done. cbn [mbind option_bind]. rewrite one_of_here by (by left).
  cbn [mbind option_bind]. rewrite two_pad by done. cbn [mbind option_bind]. by rewrite of_chars_chars.
Qed.

Lemma fraction_part_digits f r :
  Forall (λ c, is_digit c = true) (chars f) → (1 <= List.length (chars f) <= 9)%nat →
  match r with c :: _ => is_digit c = false | [] => True end →
  fraction_part ("."%char :: chars f ++ r) = (f, r).
Proof.
  intros Hf Hl Hr. unfold fraction_part. destruct (while_digits (chars f) r Hf Hr) as [-> ->].
  rewrite (proj2 (Nat.leb_le 1 _)), (proj2 (Nat.leb_le _ 9)) by lia. cbn.
  by rewrite of_chars_chars.
Qed.

(** from the year 100 on, [Date.UTC] of a date's own fields is that date *)
Lemma date_UTC_fields t : Z.abs t <= max_time → t mod 1000 = 0 → 100 <= year (fields_of t) →
  date_UTC (year (fields_of t)) (month (fields_of t) - 1) (day (fields_of t))
    (hours (fields_of t)) (minutes (fields_of t)) (seconds (fields_of t)) = Some t.
Proof.
  intros Ht Hms Hy. pose proof (fields_recombine t) as Hr. cbv zeta in Hr.
  assert (Hm : 1 <= month (fields_of t) <= 12).
  { unfold fields_of. pose proof (civil_from_days_spec (t / ms_per_day)) as Hc.
    destruct (civil_from_days _) as [[y m] d]. apply Hc. }
  assert (Hmillis : millis (fields_of t) = 0).
  { unfold fields_of. destruct (civil_from_days _) as [[y m] d]. cbn. unfold ms_per_day.
    Z.to_euclidean_division_equations. lia. }
  set (f := fields_of t) in *. unfold date_UTC.
  assert (H1 : (month f - 1) / 12 = 0) by (apply Z.div_small; lia).
  assert (H2 : (month f - 1) mod 12 = month f - 1) by (apply Z.mod_small; lia).
  rewrite H1, H2. rewrite (proj2 (Z.leb_gt (year f) 99)) by lia. rewrite andb_false_r.
  replace (year f + 0) with (year f) by lia. replace (month f - 1 + 1) with (month f) by lia.
  assert (Hd : days_from_civil (year f) (month f) 1 + day f - 1 =
               days_from_civil (year f) (month f) (day f)) by (unfold days_from_civil; lia).
  rewrite Hd. rewrite Hmillis in Hr.
  replace (days_from_civil (year f) (month f) (day f) * ms_per_day + hours f * 3600000 +
           minutes f * 60000 + seconds f * 1000) with t by lia.
  unfold time_clip. by rewrite (proj2 (Z.leb_le _ _) Ht).
Qed.

(** a text that neither starts nor ends in white space *)
Lemma trim_inner c l d : is_space c = false → is_space d = false →
  trim (of_chars (c :: l ++ [d])) = of_chars (c :: l ++ [d]).
Proof.
  intros Hc Hd. unfold trim, trimStart, trimEnd. rewrite chars_of_chars.
  assert (Hstart : drop_while is_space (c :: l ++ [d]) = (c :: l) ++ [d]) by (cbn; by rewrite Hc).
  rewrite chars_of_chars, Hstart, reverse_snoc.
  assert (Hend : drop_while is_space (d :: reverse (c :: l)) = d :: reverse (c :: l)) by (cbn; by rewrite Hd).
  by rewrite Hend, reverse_cons, reverse_involutive.
Qed.

Lemma take_while_digits l : Forall (λ c, is_digit c = true) (take_while is_digit l).
Proof. induction l as [|c l IH]; cbn; [done|]. destruct (is_digit c) eqn:Hc; by constructor. Qed.

Lemma fraction_part_is_digits l f r : fraction_part l = (f, r) →
  Forall (λ c, is_digit c = true) (chars f).
Proof.
  unfold fraction_part. destruct l as [|c l]; [by intros [= <- _]|].
  destruct (_ && _); intros [= <- _]; [|done]. rewrite chars_of_chars. apply take_while_digits.
Qed.

Lemma read_TS_fraction s t : read_TS s = Some t → Forall (λ c, is_digit c = true) (chars (tfraction t)).
Proof.
  unfold read_TS. intros H.
  repeat first [apply bind_Some in H as (? & _ & H)
               |match type of H with context [match ?p with (_, _) => _ end] => destruct p as [??] eqn:? end].
  injection H as <-. by eapply fraction_part_is_digits.
Qed.

Lemma date_UTC_whole y m d h mi s t : date_UTC y m d h mi s = Some t → t mod 1000 = 0.
Proof.
  unfold date_UTC, time_clip. cbv zeta. generalize (days_from_civil
    ((if (0 <=? y) && (y <=? 99) then 1900 + y else y) + m / 12) (m mod 12 + 1) 1). intros D.
  destruct (_ <=? _); [|done]. intros [= <-]. unfold ms_per_day.
  replace ((D + d - 1) * 86400000 + h * 3600000 + mi * 60000 + s * 1000)
    with (((D + d - 1) * 86400 + h * 3600 + mi * 60 + s) * 1000) by ring.
  by rewrite Z.mod_mul.
Qed.

Lemma second_of_whole t s : second_of t = Some s → s mod 1000 = 0.
Proof.
  unfold second_of. intros (u & Hu & [= <-])%bind_Some. apply date_UTC_whole in Hu.
  generalize (offset_minutes (tzone t)). intros o. rewrite Zminus_mod, Hu.
  replace (o * 60000) with (o * 60 * 1000) by ring. by rewrite Z.mod_mul.
Qed.

(** digits are told by their number and their value *)
Lemma digits_value_snoc l c : digits_value (l ++ [c]) = digits_value l * 10 + digit_value c.
Proof. unfold digits_value. by rewrite foldl_app. Qed.

Lemma digit_value_range c : is_digit c = true → 0 <= digit_value c < 10.
Proof. destruct c as [[] [] [] [] [] [] [] []]; done. Qed.

Lemma digit_value_inj a b : is_digit a = true → is_digit b = true → digit_value a = digit_value b → a = b.
Proof.
  unfold digit_value. intros _ _ H. apply code_inj. lia.
Qed.

Lemma digits_value_inj l l' :
  Forall (λ c, is_digit c = true) l → Forall (λ c, is_digit c = true) l' →
  List.length l = List.length l' → digits_value l = digits_value l' → l = l'.
Proof.
  revert l'. induction l as [|a l IH] using rev_ind; intros l' Hl Hl' Hlen Hv.
  { by destruct l'. }
  destruct l' as [|b l' _] using rev_ind; [rewrite length_app in Hlen; cbn in Hlen; lia|].
  rewrite !length_app in Hlen. rewrite !digits_value_snoc in Hv.
  apply Forall_app in Hl as [Hl Ha], Hl' as [Hl' Hb].
  inversion_clear Ha as [|? ? Ha' _]. inversion_clear Hb as [|? ? Hb' _].
  pose proof (digit_value_range _ Ha'). pose proof (digit_value_range _ Hb').
  f_equal; [apply IH; try done; [cbn in Hlen|]; lia|]. f_equal. apply digit_value_inj; try done. lia.
Qed.

(** a padded number is the digits it was read from *)
Lemma pad_digits_value n l : (0 < n)%nat → Forall (λ c, is_digit c = true) l → List.length l = n →
  chars (pad n (digits_value l)) = l.
Proof.
  intros Hn Hd Hl. pose proof (digits_value_bound l Hd) as Hb. rewrite Hl in Hb.
  destruct (pad_spec n (digits_value l) Hn Hb) as [Hlen Hv].
  destruct (pad_digits n (digits_value l)) as (Hall & _ & _); [lia|].
  apply digits_value_inj; [done|done|by rewrite Hlen|done].
Qed.
