(* ===== verification/JsValue.v ===== *)
(** JavaScript values, as rows and configurations hold them.

    A value is a tree.  Objects are association lists in own-property order
    (array-index keys first, in numeric order, then the others as they were
    added), a byte value is a Node [Buffer], and a symbol is told by its
    description.  Values of reference types that are compared with [===] in the
    program come from separately decoded messages or separate queries, so they
    are never the same object: [strict_eq] says no for them. *)
From S2P Require Import Prelude JsText JsNumber JsDate.

Inductive jsval :=
| VUndef
| VNull
| VBool (b : bool)
| VNum (n : num)
| VBig (z : Z)
| VStr (s : string)
| VSym (description : string)
| VDate (t : option Z)
| VBytes (b : list Z)
| VArr (l : list jsval)
| VObj (fields : list (string * jsval)).

Abbreviation obj := (list (string * jsval)).

(** the induction principle that reaches into arrays and objects *)
Section jsval_rect.
Variable P : jsval → Prop.
Hypothesis Hundef : P VUndef.
Hypothesis Hnull : P VNull.
Hypothesis Hbool : ∀ b, P (VBool b).
Hypothesis Hnum : ∀ n, P (VNum n).
Hypothesis Hbig : ∀ z, P (VBig z).
Hypothesis Hstr : ∀ s, P (VStr s).
Hypothesis Hsym : ∀ s, P (VSym s).
Hypothesis Hdate : ∀ t, P (VDate t).
Hypothesis Hbytes : ∀ b, P (VBytes b).
Hypothesis Harr : ∀ l, Forall P l → P (VArr l).
Hypothesis Hobj : ∀ o : obj, Forall (λ kv, P kv.2) o → P (VObj o).

Fixpoint jsval_nested_ind (v : jsval) : P v :=
  match v with
  | VUndef => Hundef
  | VNull => Hnull
  | VBool b => Hbool b
  | VNum n => Hnum n
  | VBig z => Hbig z
  | VStr s => Hstr s
  | VSym s => Hsym s
  | VDate t => Hdate t
  | VBytes b => Hbytes b
  | VArr l => Harr l ((fix go l : Forall P l :=
      match l with
      | [] => Forall_nil_2 _
      | x :: l' => Forall_cons_2 _ _ _ (jsval_nested_ind x) (go l')
      end) l)
  | VObj o => Hobj o ((fix go (o : obj) : Forall (λ kv, P kv.2) o :=
      match o with
      | [] => Forall_nil_2 _
      | kv :: o' => Forall_cons_2 _ _ _ (jsval_nested_ind kv.2) (go o')
      end) o)
  end.
End jsval_rect.

(** ** Objects *)

(** a canonical array index: its decimal spelling, below [2 ^ 32 - 1] *)
Definition array_index (k : string) : option N :=
  let l := chars k in
  if forallb is_digit l && negb (bool_decide (l = [])) then
    let n := Z.to_N (digits_value l) in
    if bool_decide (pretty n = k) && (n <? 4294967295)%N then Some n else None
  else None.

Definition obj_keys (o : obj) : list string := o.*1.

(** the first binding is the property's *)
Fixpoint obj_find (o : obj) (k : string) : option jsval :=
  match o with
  | [] => None
  | (k', v) :: o' => if decide (k = k') then Some v else obj_find o' k
  end.

(** [Object.hasOwn(o, k)] *)
Definition has_own (o : obj) (k : string) : bool := bool_decide (is_Some (obj_find o k)).

(** [o[k]], for a name that [Object.prototype] does not define *)
Definition obj_get (o : obj) (k : string) : jsval := default VUndef (obj_find o k).

Definition obj_replace (o : obj) (k : string) (v : jsval) : obj :=
  (λ kv, if decide (kv.1 = k) then (k, v) else kv) <$> o.

(** where a new array index goes: before the first key that is not a smaller index *)
Fixpoint insert_index (n : N) (k : string) (v : jsval) (o : obj) : obj :=
  match o with
  | [] => [(k, v)]
  | (k', v') :: o' =>
      match array_index k' with
      | Some n' => if (n' <? n)%N then (k', v') :: insert_index n k v o'
                   else (k, v) :: o
      | None => (k, v) :: o
      end
  end.

(** defining a property: [{ ...o, [k]: v }] *)
Definition obj_define (o : obj) (k : string) (v : jsval) : obj :=
  if has_own o k then obj_replace o k v
  else match array_index k with
       | Some n => insert_index n k v o
       | None => o ++ [(k, v)]
       end.

(** assigning one: [o[k] = v]. an own property is replaced; otherwise
    [__proto__] is the prototype's accessor and creates no property *)
Definition obj_set (o : obj) (k : string) (v : jsval) : obj :=
  if has_own o k then obj_replace o k v
  else if decide (k = "__proto__") then o
  else obj_define o k v.

Definition obj_delete (o : obj) (k : string) : obj :=
  filter (λ kv, kv.1 ≠ k) o.

(** [{ ...a, ...b }] *)
Definition obj_spread (a b : obj) : obj := foldl (λ o kv, obj_define o kv.1 kv.2) a b.

(** ** Tests *)

(** [typeof v === 'symbol'], and the others the program asks for *)
Definition is_sym (v : jsval) : bool := match v with VSym _ => true | _ => false end.
Definition is_str (v : jsval) : bool := match v with VStr _ => true | _ => false end.
Definition is_nil (v : jsval) : bool :=
  match v with VUndef | VNull => true | _ => false end.
Definition is_undef (v : jsval) : bool := match v with VUndef => true | _ => false end.
(** [typeof v === 'object'], which [null] is too *)
Definition is_object (v : jsval) : bool :=
  match v with VNull | VDate _ | VBytes _ | VArr _ | VObj _ => true | _ => false end.
Definition is_date (v : jsval) : bool := match v with VDate _ => true | _ => false end.

Definition truthy (v : jsval) : bool :=
  match v with
  | VUndef | VNull => false
  | VBool b => b
  | VNum n => negb (num_is_nan n) && negb (num_eq n (S754_zero false))
  | VBig z => negb (z =? 0)%Z
  | VStr s => negb (bool_decide (s = EmptyString))
  | _ => true
  end.

(** [a === b]; see the note on references above *)
Definition strict_eq (a b : jsval) : bool :=
  match a, b with
  | VUndef, VUndef | VNull, VNull => true
  | VBool x, VBool y => Bool.eqb x y
  | VNum x, VNum y => num_eq x y
  | VBig x, VBig y => (x =? y)%Z
  | VStr x, VStr y => bool_decide (x = y)
  | VSym x, VSym y => bool_decide (x = y)
  | _, _ => false
  end.

(** ** JSON text *)

Definition hex_char (n : Z) : ascii :=
  ascii_of_N (Z.to_N (if (n <? 10)%Z then 48 + n else 87 + n)).
Definition hex2 (n : Z) : string := of_chars [hex_char (n / 16); hex_char (n mod 16)].

Definition backslash : ascii := ascii_of_N 92.

Definition escape_char (c : ascii) : list ascii :=
  let n := code c in
  if (n =? 34)%N || (n =? 92)%N then [backslash; c]
  else if (n =? 8)%N then [backslash; "b"%char]
  else if (n =? 9)%N then [backslash; "t"%char]
  else if (n =? 10)%N then [backslash; "n"%char]
  else if (n =? 12)%N then [backslash; "f"%char]
  else if (n =? 13)%N then [backslash; "r"%char]
  else if (n <? 32)%N then backslash :: chars ("u00" +:+ hex2 (Z.of_N n))
  else [c].

Definition json_quote (s : string) : string :=
  of_chars (dquote :: (chars s ≫= escape_char) ++ [dquote]).

(** what [JSON.stringify] returns or does *)
Inductive json_out :=
| JText (s : string)
| JUndefined
| JThrows.

Definition json_field (k : string) (j : json_out) (rest : option (list string)) : option (list string) :=
  match j, rest with
  | JThrows, _ | _, None => None
  | JUndefined, Some l => Some l
  | JText s, Some l => Some ((json_quote k +:+ ":" +:+ s) :: l)
  end.

Definition json_elem (j : json_out) (rest : option (list string)) : option (list string) :=
  match j, rest with
  | JThrows, _ | _, None => None
  | JUndefined, Some l => Some ("null" :: l)
  | JText s, Some l => Some (s :: l)
  end.

Definition json_wrap (l r : string) (parts : option (list string)) : json_out :=
  match parts with
  | None => JThrows
  | Some ps => JText (l +:+ join "," ps +:+ r)
  end.

(** [JSON.stringify(v)]: a [bigint] throws, [undefined] and symbols vanish *)
Fixpoint stringify (v : jsval) : json_out :=
  match v with
  | VUndef | VSym _ => JUndefined
  | VNull => JText "null"
  | VBool b => JText (if b then "true" else "false")
  | VNum n => JText (if is_finite n then num_to_string n else "null")
  | VBig _ => JThrows
  | VStr s => JText (json_quote s)
  | VDate (Some t) => JText (json_quote (toISOString t))
  | VDate None => JText "null"
  | VBytes b => JText ("{" +:+ json_quote "type" +:+ ":" +:+ json_quote "Buffer" +:+ ","
                       +:+ json_quote "data" +:+ ":[" +:+ join "," (Z_to_string <$> b) +:+ "]}")
  | VArr l => json_wrap "[" "]" (foldr (λ x acc, json_elem (stringify x) acc) (Some []) l)
  | VObj o => json_wrap "{" "}"
      (foldr (λ kv acc, json_field kv.1 (stringify kv.2) acc) (Some []) o)
  end.

(** ** [String(v)] *)

(** of a value that is not an object *)
Definition prim_text (v : jsval) : string :=
  match v with
  | VUndef => "undefined"
  | VNull => "null"
  | VBool b => if b then "true" else "false"
  | VNum n => num_to_string n
  | VBig z => Z_to_string z
  | VStr s => s
  | VSym d => "Symbol(" +:+ d +:+ ")"
  | _ => "[object Object]"
  end.

(** what the host decides: the text of a date in the local zone, and the text
    of bytes read as UTF-8 *)
Class JsPrint := {
  date_text : option Z → string;
  bytes_text : list Z → string
}.

Section text.
Context `{JsPrint}.

Fixpoint to_string (v : jsval) : string :=
  match v with
  | VDate t => date_text t
  | VBytes b => bytes_text b
  | VArr l => join "," ((λ x, if is_nil x then EmptyString else to_string x) <$> l)
  | _ => prim_text v
  end.
End text.

(** ** Facts about objects *)

Lemma obj_replace_cons k1 v1 o k v :
  obj_replace ((k1, v1) :: o) k v =
  (if decide (k1 = k) then (k, v) else (k1, v1)) :: obj_replace o k v.
Proof. done. Qed.

Lemma obj_find_replace o k v k' :
  obj_find (obj_replace o k v) k' =
  if decide (k' = k) then (λ _, v) <$> obj_find o k else obj_find o k'.
Proof.
  induction o as [|[k1 v1] o IH]; [by case_decide|].
  rewrite obj_replace_cons. cbn [obj_find].
  destruct (decide (k1 = k)) as [->|Hne]; cbn [obj_find].
  - destruct (decide (k' = k)) as [->|Hne'].
    + by rewrite decide_True.
    + done.
  - rewrite IH. destruct (decide (k' = k1)) as [->|Hne1].
    + by rewrite (decide_False (P := k1 = k)).
    + case_decide; [|done]. by rewrite (decide_False (P := k = k1)).
Qed.

Lemma obj_find_app o1 o2 k :
  obj_find (o1 ++ o2) k = match obj_find o1 k with Some v => Some v | None => obj_find o2 k end.
Proof. induction o1 as [|[k1 v1] o1 IH]; cbn; [done|]. by case_decide. Qed.

Lemma obj_find_insert_index n k v o k' :
  obj_find o k = None →
  obj_find (insert_index n k v o) k' = if decide (k' = k) then Some v else obj_find o k'.
Proof.
  induction o as [|[k1 v1] o IH]; cbn; intros Ho; [by case_decide|].
  destruct (decide (k = k1)) as [|Hne]; [done|].
  destruct (array_index k1) as [n1|]; [|cbn; by case_decide].
  destruct (n1 <? n)%N; [|cbn; by case_decide].
  cbn. rewrite IH by done. destruct (decide (k' = k1)) as [->|]; [|done].
  by rewrite decide_False.
Qed.

Lemma obj_find_define o k v k' :
  obj_find (obj_define o k v) k' = if decide (k' = k) then Some v else obj_find o k'.
Proof.
  unfold obj_define, has_own. case_bool_decide as Hk.
  - rewrite obj_find_replace. destruct Hk as [v0 Hv0].
    case_decide; [|done]. by rewrite Hv0.
  - apply eq_None_not_Some in Hk. destruct (array_index k) as [n|].
    + by apply obj_find_insert_index.
    + rewrite obj_find_app. cbn. destruct (decide (k' = k)) as [->|].
      * by rewrite Hk.
      * by destruct (obj_find o k').
Qed.

Lemma obj_find_set o k v k' :
  k ≠ "__proto__" →
  obj_find (obj_set o k v) k' = if decide (k' = k) then Some v else obj_find o k'.
Proof.
  intros Hk. unfold obj_set. destruct (has_own o k) eqn:Hown.
  - rewrite obj_find_replace. apply bool_decide_eq_true in Hown as [v0 Hv0].
    case_decide; [|done]. by rewrite Hv0.
  - rewrite decide_False by done. apply obj_find_define.
Qed.

Lemma obj_find_set_ne o k v k' : k' ≠ k → obj_find (obj_set o k v) k' = obj_find o k'.
Proof.
  intros Hk. unfold obj_set. destruct (has_own o k) eqn:Hown.
  - rewrite obj_find_replace. by rewrite decide_False.
  - case_decide; [done|]. rewrite obj_find_define. by rewrite decide_False.
Qed.

(** what is set can be read back, when the property is there already *)
Lemma obj_find_set_own o k v :
  has_own o k = true → obj_find (obj_set o k v) k = Some v.
Proof.
  intros Ho. unfold obj_set. rewrite Ho, obj_find_replace, decide_True by done.
  apply bool_decide_eq_true in Ho as [v0 Hv0]. by rewrite Hv0.
Qed.

Lemma obj_keys_replace o k v : obj_keys (obj_replace o k v) = obj_keys o.
Proof.
  unfold obj_keys, obj_replace. rewrite <- list_fmap_compose. apply list_fmap_ext.
  intros i [k1 v1] _. cbn. by case_decide; subst.
Qed.

Lemma obj_find_elem o k : obj_find o k = None ↔ k ∉ obj_keys o.
Proof.
  unfold obj_keys. induction o as [|[k1 v1] o IH]; cbn.
  - split; [intros _; apply not_elem_of_nil|done].
  - rewrite not_elem_of_cons. case_decide as Hd; [|rewrite IH; tauto].
    split; [done|tauto].
Qed.

Lemma has_own_elem o k : has_own o k = true ↔ k ∈ obj_keys o.
Proof.
  unfold has_own. rewrite bool_decide_eq_true, <- not_eq_None_Some, obj_find_elem.
  split; [apply dec_stable|tauto].
Qed.

Lemma obj_keys_set_own o k v : has_own o k = true → obj_keys (obj_set o k v) = obj_keys o.
Proof. intros Ho. unfold obj_set. rewrite Ho. apply obj_keys_replace. Qed.

#[export] Hint Rewrite obj_find_define obj_find_replace obj_keys_replace : syncle_rw.

(** a stringified key list is never [undefined] and never throws *)
Lemma stringify_str s : stringify (VStr s) = JText (json_quote s).
Proof. done. Qed.

Example stringify_sample :
  stringify (VObj [("a", VNum (num_of_Z 1)); ("b", VUndef); ("c", VArr [VUndef; VStr "x"]);
                   ("d", VDate (Some 0%Z)); ("e", VNum NaN)])
  = JText (of_chars (flat_map (λ c, if (c =? "'")%char then [dquote] else [c])
      (chars "{'a':1,'c':[null,'x'],'d':'1970-01-01T00:00:00.000Z','e':null}"))).
Proof. vm_compute. reflexivity. Qed.

Example define_order :
  obj_keys (obj_spread [] [("b", VNull); ("10", VNull); ("2", VNull); ("a", VNull); ("02", VNull)])
  = ["2"; "10"; "b"; "a"; "02"].
Proof. vm_compute. reflexivity. Qed.

Lemma obj_find_set_Some o k v k' :
  is_Some (obj_find (obj_set o k v) k') → is_Some (obj_find o k') ∨ k' = k.
Proof.
  destruct (decide (k' = k)); [by right|]. rewrite obj_find_set_ne by done. by left.
Qed.

Lemma obj_find_set_mono o k v k' :
  is_Some (obj_find o k') → is_Some (obj_find (obj_set o k v) k').
Proof.
  intros Ho. destruct (decide (k' = k)) as [->|].
  - rewrite obj_find_set_own; [done|]. by apply bool_decide_eq_true.
  - by rewrite obj_find_set_ne.
Qed.

Lemma has_own_Some o k : has_own o k = true ↔ is_Some (obj_find o k).
Proof. apply bool_decide_eq_true. Qed.

Lemma obj_find_NoDup o k v : NoDup (obj_keys o) → (k, v) ∈ o → obj_find o k = Some v.
Proof.
  intros Hnd Hin. induction o as [|[k' v'] o IH]; [by apply elem_of_nil in Hin|].
  cbn in Hnd |- *. apply NoDup_cons in Hnd as [Hk Hnd]. apply elem_of_cons in Hin as [Hin|Hin].
  - simplify_eq. by rewrite decide_True.
  - case_decide as Hd; [|auto]. subst. destruct Hk. apply list_elem_of_fmap. by exists (k', v).
Qed.
