(* ===== verification/JsBytes.v ===== *)
(** Bytes as text: hexadecimal and base64, as Node's [Buffer] writes and reads them. *)
From S2P Require Import Prelude JsText JsNumber JsDate JsValue.

Local Open Scope Z_scope.

Definition is_byte (b : Z) : Prop := 0 <= b < 256.

(** two hexadecimal digits per byte *)
Definition hex_text (bytes : list Z) : string :=
  of_chars (bytes ≫= λ b, [hex_char (b / 16); hex_char (b mod 16)]).

(** ** Base64 *)

Definition b64_char (n : Z) : ascii :=
  ascii_of_N (Z.to_N (if n <? 26 then 65 + n else if n <? 52 then 71 + n
                      else if n <? 62 then n - 4 else if n =? 62 then 43 else 47)).

(** both alphabets are read: [-] and [_] are the URL-safe [+] and [/] *)
Definition b64_value (c : ascii) : option Z :=
  let n := Z.of_N (code c) in
  if is_upper c then Some (n - 65) else if is_lower c then Some (n - 71)
  else if is_digit c then Some (n + 4)
  else if (n =? 43) || (n =? 45) then Some 62
  else if (n =? 47) || (n =? 95) then Some 63 else None.

Fixpoint b64_chars (bs : list Z) : list ascii :=
  match bs with
  | [] => []
  | [a] => [b64_char (a / 4); b64_char (a mod 4 * 16); "="%char; "="%char]
  | [a; b] => [b64_char (a / 4); b64_char (a mod 4 * 16 + b / 16);
               b64_char (b mod 16 * 4); "="%char]
  | a :: b :: c :: r =>
      b64_char (a / 4) :: b64_char (a mod 4 * 16 + b / 16) ::
      b64_char (b mod 16 * 4 + c / 64) :: b64_char (c mod 64) :: b64_chars r
  end.

Definition base64 (bs : list Z) : string := of_chars (b64_chars bs).

(** the values of the characters, up to the padding; others are skipped *)
Fixpoint b64_values (l : list ascii) : list Z :=
  match l with
  | [] => []
  | c :: l' => if (c =? "=")%char then []
               else match b64_value c with
                    | Some v => v :: b64_values l'
                    | None => b64_values l'
                    end
  end.

Fixpoint b64_bytes (vs : list Z) : list Z :=
  match vs with
  | a :: b :: c :: d :: r =>
      (a * 4 + b / 16) :: (b mod 16 * 16 + c / 4) :: (c mod 4 * 64 + d) :: b64_bytes r
  | [a; b; c] => [a * 4 + b / 16; b mod 16 * 16 + c / 4]
  | [a; b] => [a * 4 + b / 16]
  | _ => []
  end.

(** [Buffer.from(text, 'base64')] *)
Definition base64_decode (s : string) : list Z := b64_bytes (b64_values (chars s)).

Definition b64_digits : list Z := Z.of_nat <$> seq 0 64.

Lemma b64_char_value n : 0 <= n < 64 →
  (b64_char n =? "=")%char = false ∧ b64_value (b64_char n) = Some n.
Proof.
  assert (Forall (λ n, (b64_char n =? "=")%char = false ∧ b64_value (b64_char n) = Some n)
            b64_digits) as Hall.
  { vm_compute. repeat constructor. }
  intros Hn. rewrite Forall_forall in Hall. apply Hall.
  apply list_elem_of_fmap. exists (Z.to_nat n). split; [lia|]. apply elem_of_seq. lia.
Qed.

Lemma b64_values_char n l : 0 <= n < 64 → b64_values (b64_char n :: l) = n :: b64_values l.
Proof. intros Hn. cbn [b64_values]. destruct (b64_char_value n Hn) as [-> ->]. done. Qed.

Lemma b64_values_pad l : b64_values ("="%char :: l) = [].
Proof. done. Qed.

Ltac byte_arith := unfold is_byte in *; Z.to_euclidean_division_equations; lia.

Lemma b64_bytes_values bs : Forall is_byte bs → b64_bytes (b64_values (b64_chars bs)) = bs.
Proof.
  remember (length bs) as n eqn:Hn. revert bs Hn.
  induction n as [n IH] using lt_wf_ind. intros bs -> Hb.
  destruct bs as [|a [|b [|c r]]]; [done|..]; cbn [b64_chars].
  - inversion_clear Hb. rewrite !b64_values_char by byte_arith. rewrite b64_values_pad.
    cbn [b64_bytes]. f_equal. byte_arith.
  - inversion_clear Hb as [|? ? ? Hb']. inversion_clear Hb'.
    rewrite !b64_values_char by byte_arith. rewrite b64_values_pad.
    cbn [b64_bytes]. f_equal; [|f_equal]; byte_arith.
  - inversion_clear Hb as [|? ? Ha Hb']. inversion_clear Hb' as [|? ? Hb2 Hb''].
    inversion_clear Hb'' as [|? ? Hc Hr].
    rewrite !b64_values_char by byte_arith. cbn [b64_bytes].
    rewrite (IH (length r)) by (done || (cbn; lia)). f_equal; [|f_equal; [|f_equal]]; byte_arith.
Qed.

Lemma base64_round_trip bs : Forall is_byte bs → base64_decode (base64 bs) = bs.
Proof. intros Hb. unfold base64_decode, base64. rewrite chars_of_chars. by apply b64_bytes_values. Qed.

Example base64_sample : base64 [83; 121; 110; 99; 108; 101; 33] = "U3luY2xlIQ==".
Proof. vm_compute. reflexivity. Qed.
