(* ===== verification/JsJson.v ===== *)
(** [JSON.parse]: a recursive-descent reader over the grammar of JSON.

    Every call consumes at least one character, so the length of the text is
    enough fuel.  Strings here hold 8-bit code units: an escape above [u00ff]
    is outside what the model can hold, and is refused. *)
From S2P Require Import Prelude JsText JsNumber JsDate JsValue.

Definition json_space (c : ascii) : bool :=
  let n := code c in (n =? 32)%N || (n =? 9)%N || (n =? 10)%N || (n =? 13)%N.

Definition skip_space : list ascii → list ascii := drop_while json_space.

(** the characters of a string up to its closing quote *)
Fixpoint json_string (fuel : nat) (acc l : list ascii) : option (string * list ascii) :=
  match fuel, l with
  | 0, _ | _, [] => None
  | S fuel, c :: l' =>
      let n := code c in
      if (n =? 34)%N then Some (of_chars (reverse acc), l')
      else if (n =? 92)%N then
        match l' with
        | [] => None
        | e :: l'' =>
            let put d := json_string fuel (ascii_of_N d :: acc) l'' in
            match code e with
            | 34%N | 92%N | 47%N => put (code e)
            | 98%N => put 8%N
            | 102%N => put 12%N
            | 110%N => put 10%N
            | 114%N => put 13%N
            | 116%N => put 9%N
            | 117%N =>
                match l'' with
                | a :: b :: x :: y :: rest =>
                    if forallb is_hex_digit [a; b; x; y] then
                      let v := hex_digits_value [a; b; x; y] in
                      if (v <? 256)%Z
                      then json_string fuel (ascii_of_N (Z.to_N v) :: acc) rest
                      else None
                    else None
                | _ => None
                end
            | _ => None
            end
        end
      else if (n <? 32)%N then None
      else json_string fuel (c :: acc) l'
  end.

(** the longest prefix that is a JSON number *)
Definition json_number (l : list ascii) : option (num * list ascii) :=
  let '(sign, l1) := match l with
                     | c :: r => if (code c =? 45)%N then ([c], r) else ([], l)
                     | [] => ([], [])
                     end in
  let whole := take_while is_digit l1 in
  let l2 := drop_while is_digit l1 in
  let leading_ok := match whole with
                    | [] => false
                    | [_] => true
                    | z :: _ => negb (code z =? 48)%N
                    end in
  if negb leading_ok then None
  else
    let frac := match l2 with
                | c :: r => if (code c =? 46)%N
                            then match take_while is_digit r with
                                 | [] => None
                                 | ds => Some (c :: ds, drop_while is_digit r)
                                 end
                            else Some ([], l2)
                | [] => Some ([], [])
                end in
    match frac with
    | None => None
    | Some (fr, l3) =>
        let ex := match l3 with
                  | c :: r =>
                      if (code c =? 101)%N || (code c =? 69)%N then
                        let '(sg, r') := match r with
                                         | s :: r' => if (code s =? 43)%N || (code s =? 45)%N
                                                      then ([s], r') else ([], r)
                                         | [] => ([], [])
                                         end in
                        match take_while is_digit r' with
                        | [] => None
                        | ds => Some (c :: sg ++ ds, drop_while is_digit r')
                        end
                      else Some ([], l3)
                  | [] => Some ([], [])
                  end in
        match ex with
        | None => None
        | Some (e, l4) => Some (string_to_num (of_chars (sign ++ whole ++ fr ++ e)), l4)
        end
    end.

Definition keyword (w : string) (v : jsval) (l : list ascii) : option (jsval * list ascii) :=
  if is_prefix (chars w) l then Some (v, drop (str_length w) l) else None.

Fixpoint json_value (fuel : nat) (l : list ascii) : option (jsval * list ascii) :=
  match fuel with
  | 0 => None
  | S fuel =>
      match skip_space l with
      | [] => None
      | c :: r =>
          match code c with
          | 110%N => keyword "null" VNull (c :: r)
          | 116%N => keyword "true" (VBool true) (c :: r)
          | 102%N => keyword "false" (VBool false) (c :: r)
          | 34%N => match json_string (S (length r)) [] r with
                    | Some (s, r') => Some (VStr s, r')
                    | None => None
                    end
          | 91%N =>
              match skip_space r with
              | d :: r' => if (code d =? 93)%N then Some (VArr [], r')
                           else json_elements fuel [] r
              | [] => None
              end
          | 123%N =>
              match skip_space r with
              | d :: r' => if (code d =? 125)%N then Some (VObj [], r')
                           else json_members fuel [] r
              | [] => None
              end
          | _ => match json_number (c :: r) with
                 | Some (n, r') => Some (VNum n, r')
                 | None => None
                 end
          end
      end
  end
with json_elements (fuel : nat) (acc : list jsval) (l : list ascii)
  : option (jsval * list ascii) :=
  match fuel with
  | 0 => None
  | S fuel =>
      match json_value fuel l with
      | None => None
      | Some (v, r) =>
          match skip_space r with
          | d :: r' => if (code d =? 44)%N then json_elements fuel (v :: acc) r'
                       else if (code d =? 93)%N then Some (VArr (reverse (v :: acc)), r')
                       else None
          | [] => None
          end
      end
  end
with json_members (fuel : nat) (acc : obj) (l : list ascii)
  : option (jsval * list ascii) :=
  match fuel with
  | 0 => None
  | S fuel =>
      match skip_space l with
      | q :: r =>
          if negb (code q =? 34)%N then None else
          match json_string (S (length r)) [] r with
          | None => None
          | Some (k, r1) =>
              match skip_space r1 with
              | d :: r2 =>
                  if negb (code d =? 58)%N then None else
                  match json_value fuel r2 with
                  | None => None
                  | Some (v, r3) =>
                      let acc := obj_define acc k v in
                      match skip_space r3 with
                      | e :: r4 => if (code e =? 44)%N then json_members fuel acc r4
                                   else if (code e =? 125)%N then Some (VObj acc, r4)
                                   else None
                      | [] => None
                      end
                  end
              | [] => None
              end
          end
      | [] => None
      end
  end.

(** [JSON.parse(text)]; [None] where it throws *)
Definition json_parse (text : string) : option jsval :=
  let l := chars text in
  match json_value (2 * length l + 2) l with
  | Some (v, r) => match skip_space r with [] => Some v | _ => None end
  | None => None
  end.

(** reading back what was written, on a sample with every form *)
Definition json_sample : jsval :=
  VObj [("a", VArr [VNum (num_of_Z (-12)); VNum (num_of_decimal 25 (-3)); VNull; VBool true]);
        ("b", VObj [("x y", VStr (of_chars [dquote; backslash; ascii_of_N 10; "z"%char; ascii_of_N 1]))]);
        ("c", VArr []); ("d", VObj [])].

Example json_sample_round_trip :
  match stringify json_sample with JText s => json_parse s | _ => None end = Some json_sample.
Proof. vm_compute. reflexivity. Qed.

Example json_refusals :
  json_parse <$> ["01"; "1."; "[1,]"; "{}x"; "nul"; "- 1"] = [None; None; None; None; None; None].
Proof. vm_compute. reflexivity. Qed.

(** ** Reading back what was written *)

(** one character, escaped or not, is read back *)
Lemma json_string_char f acc c rest :
  json_string (S f) acc (escape_char c ++ rest) = json_string f (c :: acc) rest.
Proof. destruct c as [[] [] [] [] [] [] [] []]; reflexivity. Qed.

Lemma json_string_chars cs f acc rest :
  length cs < f →
  json_string f acc ((cs ≫= escape_char) ++ dquote :: rest) =
  Some (of_chars (reverse acc ++ cs), rest).
Proof.
  revert f acc. induction cs as [|c cs IH]; intros [|f] acc Hf; try (cbn [length] in Hf; lia).
  - cbn [mbind list_bind app]. rewrite app_nil_r. reflexivity.
  - cbn [mbind list_bind]. rewrite <- app_assoc, json_string_char.
    rewrite IH by (cbn [length] in Hf; lia). by rewrite reverse_cons, <- app_assoc.
Qed.

Lemma escape_char_length c : 1 ≤ length (escape_char c).
Proof. apply Nat.leb_le. by destruct c as [[] [] [] [] [] [] [] []]. Qed.

Lemma escape_length cs : length cs ≤ length (cs ≫= escape_char).
Proof.
  induction cs as [|c cs IH]; cbn [mbind list_bind]; [done|].
  rewrite length_app. pose proof (escape_char_length c). cbn [length]. lia.
Qed.

(** a quoted string, wherever it stands, is read back as it was *)
Lemma json_string_quote s acc rest :
  json_string (S (length ((chars s ≫= escape_char) ++ dquote :: rest))) acc
    ((chars s ≫= escape_char) ++ dquote :: rest) =
  Some (of_chars (reverse acc ++ chars s), rest).
Proof.
  apply json_string_chars. rewrite length_app.
  pose proof (escape_length (chars s)). cbn [length]. lia.
Qed.

Lemma chars_json_quote s :
  chars (json_quote s) = dquote :: (chars s ≫= escape_char) ++ [dquote].
Proof. unfold json_quote. by rewrite chars_of_chars. Qed.

Lemma json_value_dquote f r :
  json_value (S f) (dquote :: r) =
  match json_string (S (length r)) [] r with
  | Some (s, r') => Some (VStr s, r')
  | None => None
  end.
Proof. reflexivity. Qed.

Lemma json_value_quote f s rest :
  json_value (S f) (chars (json_quote s) ++ rest) = Some (VStr s, rest).
Proof.
  rewrite chars_json_quote. rewrite <- app_comm_cons, <- app_assoc, json_value_dquote.
  cbn [app]. rewrite json_string_quote. by rewrite reverse_nil, app_nil_l, of_chars_chars.
Qed.

Lemma json_members_dquote f acc r :
  json_members (S f) acc (dquote :: r) =
  match json_string (S (length r)) [] r with
  | None => None
  | Some (k, r1) =>
      match skip_space r1 with
      | d :: r2 =>
          if negb (code d =? 58)%N then None else
          match json_value f r2 with
          | None => None
          | Some (v, r3) =>
              match skip_space r3 with
              | e :: r4 => if (code e =? 44)%N then json_members f (obj_define acc k v) r4
                           else if (code e =? 125)%N then Some (VObj (obj_define acc k v), r4)
                           else None
              | [] => None
              end
          end
      | [] => None
      end
  end.
Proof. reflexivity. Qed.

(** a member of an object, with what is behind it *)
Lemma json_members_quote f acc k v r rest :
  json_value f r = Some (v, rest) →
  json_members (S f) acc (chars (json_quote k) ++ ":"%char :: r) =
  match skip_space rest with
  | e :: r => if (code e =? 44)%N then json_members f (obj_define acc k v) r
              else if (code e =? 125)%N then Some (VObj (obj_define acc k v), r)
              else None
  | [] => None
  end.
Proof.
  intros Hr. rewrite chars_json_quote, <- app_comm_cons, <- app_assoc, json_members_dquote.
  cbn [app]. rewrite json_string_quote, reverse_nil, app_nil_l, of_chars_chars.
  change (skip_space (":"%char :: r)) with (":"%char :: r). cbn -[json_value obj_define].
  by rewrite Hr.
Qed.
