(* ===== verification/JsonText.v ===== *)
(** What [JSON.stringify] writes, [JSON.parse] reads: for the values that have a
    JSON form of their own, the two are inverse to each other. *)
From S2P Require Import Prelude JsText JsNumber JsInteger JsDate JsValue JsJson.

(** ** The values with a JSON form *)

(** a number whose text is read back as the number: every one but [NaN], the
    infinities and the negative zero, of which [reads_back] decides it *)
Definition reads_back (n : num) : bool :=
  is_finite n && bool_decide (json_number (chars (num_to_string n)) = Some (n, [])).

(** defining [k] on an object with the keys [ks] adds it at the end *)
Definition appends (ks : list string) (k : string) : bool :=
  negb (bool_decide (k ∈ ks)) &&
  match array_index k with
  | Some n => forallb (λ k', match array_index k' with Some n' => (n' <? n)%N | None => false end) ks
  | None => true
  end.

Fixpoint in_order (before ks : list string) : bool :=
  match ks with
  | [] => true
  | k :: ks => appends before k && in_order (before ++ [k]) ks
  end.

(** the keys of an object as the language orders them *)
Definition own_order (o : obj) : bool := in_order [] (obj_keys o).

Fixpoint json_plain (v : jsval) : bool :=
  match v with
  | VNull | VBool _ | VStr _ => true
  | VNum n => reads_back n
  | VArr l => forallb json_plain l
  | VObj o => own_order o && forallb (λ kv, json_plain kv.2) o
  | _ => false
  end.

(** ** Defining properties in order *)

Lemma insert_index_last n k v o :
  forallb (λ k', match array_index k' with Some n' => (n' <? n)%N | None => false end) (obj_keys o)
    = true →
  insert_index n k v o = o ++ [(k, v)].
Proof.
  induction o as [|[k' v'] o IH]; cbn; [done|]. destruct (array_index k') as [n'|]; [|done].
  destruct (n' <? n)%N; [|done]. cbn. intros Ho. by rewrite IH.
Qed.

Lemma obj_define_last o k v : appends (obj_keys o) k = true → obj_define o k v = o ++ [(k, v)].
Proof.
  unfold appends, obj_define. intros [Hk Hn]%andb_true_iff.
  apply negb_true_iff, bool_decide_eq_false in Hk.
  destruct (has_own o k) eqn:Ho; [by apply has_own_elem in Ho|].
  destruct (array_index k); [by apply insert_index_last|done].
Qed.

(** ** Numbers *)

(** what may follow a value inside a text *)
Definition closes (rest : list ascii) : Prop :=
  match rest with [] => True | c :: _ => c = ","%char ∨ c = "]"%char ∨ c = "}"%char end.

Lemma while_app (rest l : list ascii) : closes rest →
  take_while is_digit (l ++ rest) = take_while is_digit l ∧
  drop_while is_digit (l ++ rest) = drop_while is_digit l ++ rest.
Proof.
  intros Hr. induction l as [|c l [IH1 IH2]]; cbn.
  - destruct rest as [|c r]; [done|]. by destruct Hr as [->|[->| ->]].
  - destruct (is_digit c); [by rewrite IH1, IH2|done].
Qed.

(** the three stages of [json_number] *)
Definition number_sign (l : list ascii) : list ascii * list ascii :=
  match l with
  | c :: r => if (code c =? 45)%N then ([c], r) else ([], l)
  | [] => ([], [])
  end.

Definition number_fraction (l : list ascii) : option (list ascii * list ascii) :=
  match l with
  | c :: r => if (code c =? 46)%N
              then match take_while is_digit r with
                   | [] => None
                   | ds => Some (c :: ds, drop_while is_digit r)
                   end
              else Some ([], l)
  | [] => Some ([], [])
  end.

Definition number_exponent (l : list ascii) : option (list ascii * list ascii) :=
  match l with
  | c :: r =>
      if (code c =? 101)%N || (code c =? 69)%N then
        let '(sg, r') := match r with
                         | s :: r' => if (code s =? 43)%N || (code s =? 45)%N
                                      then ([s], r') else ([], r)
                         | [] => ([], [])
                         end in
        match take_while is_digit r' with
        | [] => None
        | ds => Some (c :: sg ++ ds, drop_while is_digit r')
        end
      else Some ([], l)
  | [] => Some ([], [])
  end.

Definition leading_ok (whole : list ascii) : bool :=
  match whole with
  | [] => false
  | [_] => true
  | z :: _ => negb (code z =? 48)%N
  end.

Lemma json_number_stages l :
  json_number l =
  let '(sign, l1) := number_sign l in
  if negb (leading_ok (take_while is_digit l1)) then None
  else match number_fraction (drop_while is_digit l1) with
       | None => None
       | Some (fr, l3) =>
           match number_exponent l3 with
           | None => None
           | Some (e, l4) =>
               Some (string_to_num (of_chars (sign ++ take_while is_digit l1 ++ fr ++ e)), l4)
           end
       end.
Proof. reflexivity. Qed.

Lemma number_fraction_app l rest fr r : closes rest →
  number_fraction l = Some (fr, r) → number_fraction (l ++ rest) = Some (fr, r ++ rest).
Proof.
  intros Hr. destruct l as [|c l]; cbn [number_fraction app].
  - intros [= <- <-]. destruct rest as [|c r']; [done|]. by destruct Hr as [->|[->| ->]].
  - destruct (code c =? 46)%N; [|by intros [= <- <-]].
    destruct (while_app rest l Hr) as [-> ->].
    destruct (take_while is_digit l) as [|d ds]; [done|]. by intros [= <- <-].
Qed.

Lemma number_exponent_app l rest e r : closes rest →
  number_exponent l = Some (e, r) → number_exponent (l ++ rest) = Some (e, r ++ rest).
Proof.
  intros Hr. destruct l as [|c l]; cbn [number_exponent app].
  - intros [= <- <-]. destruct rest as [|c r']; [done|]. by destruct Hr as [->|[->| ->]].
  - destruct ((code c =? 101)%N || (code c =? 69)%N); [|by intros [= <- <-]].
    destruct l as [|s l]; [done|]. cbn [app].
    destruct ((code s =? 43)%N || (code s =? 45)%N).
    + destruct (while_app rest l Hr) as [-> ->].
      destruct (take_while is_digit l) as [|d ds]; [done|]. by intros [= <- <-].
    + change (s :: l ++ rest) with ((s :: l) ++ rest).
      destruct (while_app rest (s :: l) Hr) as [-> ->].
      destruct (take_while is_digit (s :: l)) as [|d ds]; [done|]. by intros [= <- <-].
Qed.

Lemma json_number_app l rest n r : closes rest →
  json_number l = Some (n, r) → json_number (l ++ rest) = Some (n, r ++ rest).
Proof.
  intros Hr. rewrite !json_number_stages. destruct l as [|c l]; [done|].
  assert (Hs : number_sign ((c :: l) ++ rest) =
               let '(s, r) := number_sign (c :: l) in (s, r ++ rest)).
  { cbn [number_sign app]. by destruct (code c =? 45)%N. }
  rewrite Hs. destruct (number_sign (c :: l)) as [sign l1].
  destruct (while_app rest l1 Hr) as [-> ->].
  destruct (leading_ok (take_while is_digit l1)); [|done]. cbn [negb].
  destruct (number_fraction (drop_while is_digit l1)) as [[fr l3]|] eqn:Hf; [|done].
  rewrite (number_fraction_app _ _ _ _ Hr Hf).
  destruct (number_exponent l3) as [[e l4]|] eqn:He; [|done].
  rewrite (number_exponent_app _ _ _ _ Hr He). by intros [= <- <-].
Qed.

(** ** Reading a value back *)

(** [t] is read back as [v], wherever it stands *)
Record reads_as (t : string) (v : jsval) : Prop := {
  first_char : ∃ c r, chars t = c :: r ∧ json_space c = false ∧ c ≠ "]"%char;
  reads_value f rest : List.length (chars t) < f → closes rest →
    json_value f (chars t ++ rest) = Some (v, rest)
}.

Lemma json_value_number f c r :
  (is_digit c || (code c =? 45)%N) = true →
  json_value (S f) (c :: r) =
  match json_number (c :: r) with Some (n, r') => Some (VNum n, r') | None => None end.
Proof. destruct c as [[] [] [] [] [] [] [] []]; try discriminate; reflexivity. Qed.

Lemma json_number_first l n r :
  json_number l = Some (n, r) →
  ∃ c l', l = c :: l' ∧ (is_digit c || (code c =? 45)%N) = true.
Proof.
  rewrite json_number_stages. destruct l as [|c l]; [done|]. exists c, l. split; [done|].
  cbn [number_sign] in *. destruct (code c =? 45)%N; [by rewrite orb_true_r|].
  cbn [take_while] in *. by destruct (is_digit c).
Qed.

Lemma number_char c : (is_digit c || (code c =? 45)%N) = true →
  json_space c = false ∧ c ≠ "]"%char.
Proof. destruct c as [[] [] [] [] [] [] [] []]; try discriminate; done. Qed.

Lemma reads_number n : reads_back n = true → reads_as (num_to_string n) (VNum n).
Proof.
  unfold reads_back. intros [_ Hn%bool_decide_eq_true]%andb_true_iff.
  destruct (json_number_first _ _ _ Hn) as (c & l & Hl & Hc).
  destruct (number_char c Hc) as [Hsp Hb]. split; [by exists c, l|].
  intros [|f] rest Hf Hr; [lia|]. rewrite Hl, <- app_comm_cons, json_value_number by done.
  rewrite app_comm_cons, <- Hl. by rewrite (json_number_app _ _ n [] Hr Hn).
Qed.

Lemma reads_quote s : reads_as (json_quote s) (VStr s).
Proof.
  split; [rewrite chars_json_quote; by eexists _, _|].
  intros [|f] rest Hf _; [lia|]. apply json_value_quote.
Qed.

Lemma skip_space_first c l : json_space c = false → skip_space (c :: l) = c :: l.
Proof. unfold skip_space. cbn. by intros ->. Qed.

Lemma chars_join t ts :
  chars (join "," (t :: ts)) = chars t ++ (ts ≫= λ t, ","%char :: chars t).
Proof.
  revert t. induction ts as [|t' ts IH]; intros t; [by rewrite app_nil_r|].
  change (join "," (t :: t' :: ts)) with (t +:+ "," +:+ join "," (t' :: ts)).
  by rewrite !chars_app, IH.
Qed.

(** the elements of an array, up to and with its closing bracket *)
Lemma json_elements_reads ts l t v f acc rest :
  reads_as t v → Forall2 reads_as ts l →
  List.length (chars t ++ (ts ≫= λ t, ","%char :: chars t)) + 1 < f →
  json_elements f acc (chars t ++ (ts ≫= λ t, ","%char :: chars t) ++ "]"%char :: rest) =
  Some (VArr (reverse acc ++ v :: l), rest).
Proof.
  intros Ht Hts. revert t v f acc Ht.
  induction Hts as [|t' v' ts l Ht' _ IH]; intros t v [|f] acc Ht Hf; try lia;
    cbn [json_elements mbind list_bind]; rewrite length_app in Hf.
  - rewrite (reads_value t v) by (done || cbn in Hf; lia || by right; left).
    cbn -[reverse]. by rewrite reverse_cons.
  - cbn [mbind list_bind List.length] in Hf. rewrite length_app in Hf.
    cbn [app]. rewrite (reads_value t v) by (done || lia || by left).
    rewrite skip_space_first by done. cbn -[json_elements reverse].
    rewrite <- app_assoc, (IH t' v') by (done || rewrite length_app; cbn in *; lia).
    by rewrite reverse_cons, <- app_assoc.
Qed.

(** the members of an object, up to and with its closing brace *)
Definition member_text (k t : string) : string := json_quote k +:+ ":" +:+ t.

Lemma chars_member k t rest :
  chars (member_text k t) ++ rest = chars (json_quote k) ++ ":"%char :: chars t ++ rest.
Proof. unfold member_text. by rewrite !chars_app, <- !app_assoc. Qed.

Lemma length_member k t : List.length (chars t) + 2 ≤ List.length (chars (member_text k t)).
Proof.
  unfold member_text. rewrite !chars_app, !length_app, chars_json_quote. cbn. lia.
Qed.

Lemma json_members_reads ks ts k t (v : jsval) vs f acc rest :
  reads_as t v → Forall2 reads_as ts vs → List.length ks = List.length vs →
  in_order (obj_keys acc) (k :: ks) = true →
  List.length (chars (member_text k t) ++
               (zip_with member_text ks ts ≫= λ t, ","%char :: chars t)) < f →
  json_members f acc (chars (member_text k t) ++
    (zip_with member_text ks ts ≫= λ t, ","%char :: chars t) ++ "}"%char :: rest) =
  Some (VObj (acc ++ (k, v) :: zip ks vs), rest).
Proof.
  intros Ht Hts. revert ks k t v f acc Ht.
  induction Hts as [|t' v' ts vs Ht' _ IH]; intros ks k t v [|f] acc Ht Hlen Hord Hf; try lia;
    destruct ks as [|k' ks]; try done; cbn [zip_with] in *;
    cbn [in_order] in Hord; apply andb_true_iff in Hord as [Hk Hord];
    rewrite length_app in Hf; pose proof (length_member k t) as Hm; rewrite chars_member.
  - erewrite json_members_quote by (apply (reads_value t v); [done|lia|by right; right]).
    cbn -[obj_define]. by rewrite obj_define_last.
  - cbn [mbind list_bind List.length] in Hf |- *. rewrite length_app in Hf.
    erewrite json_members_quote by (apply (reads_value t v); [done|lia|by left]).
    cbn [app]. rewrite skip_space_first by done.
    cbn -[json_members obj_define member_text mbind].
    rewrite obj_define_last by done.
    rewrite <- app_assoc, (IH ks k' t' v').
    + by rewrite <- app_assoc.
    + done.
    + cbn in Hlen. lia.
    + unfold obj_keys in *. by rewrite fmap_app.
    + rewrite length_app. cbn in *. lia.
Qed.

(** ** The round trip *)

Lemma stringify_reads_list l :
  Forall (λ v, ∃ t, stringify v = JText t ∧ reads_as t v) l →
  ∃ ts, foldr (λ x acc, json_elem (stringify x) acc) (Some []) l = Some ts ∧ Forall2 reads_as ts l.
Proof.
  induction 1 as [|v l (t & Ht & Hr) _ (ts & Hts & Hall)]; cbn; [by exists []|].
  rewrite Ht, Hts. exists (t :: ts). by split; [|constructor].
Qed.

Lemma stringify_reads_fields (o : obj) :
  Forall (λ kv, ∃ t, stringify kv.2 = JText t ∧ reads_as t kv.2) o →
  ∃ ts, foldr (λ kv acc, json_field kv.1 (stringify kv.2) acc) (Some []) o =
        Some (zip_with member_text o.*1 ts) ∧ Forall2 reads_as ts o.*2.
Proof.
  induction 1 as [|[k v] o (t & Ht & Hr) _ (ts & Hts & Hall)]; cbn; [by exists []|].
  cbn in Ht. rewrite Ht, Hts. exists (t :: ts). by split; [|constructor].
Qed.

Lemma reads_brackets ts l : Forall2 reads_as ts l → reads_as ("[" +:+ join "," ts +:+ "]") (VArr l).
Proof.
  intros Hts. split; [rewrite chars_app; by eexists _, _|].
  intros [|f] rest Hf Hr; [lia|]. rewrite !chars_app, !length_app in Hf.
  rewrite !chars_app, <- !app_assoc. change (chars "[") with ["["%char] in *.
  change (chars "]") with ["]"%char] in *. cbn [app List.length] in *.
  destruct Hts as [|t v ts l Ht Hts]; [reflexivity|].
  rewrite chars_join, <- app_assoc in *. destruct (first_char t v Ht) as (c & r & Hc & Hsp & Hne).
  assert (Hstart : ∀ k, json_value (S f) ("["%char :: chars t ++ k) = json_elements f [] (chars t ++ k)).
  { intros k. rewrite Hc. cbn [json_value app]. rewrite skip_space_first by done.
    cbn -[json_elements skip_space]. rewrite skip_space_first by done.
    destruct (code c =? 93)%N eqn:Hcode; [|done]. apply N.eqb_eq in Hcode.
    exfalso. apply Hne. rewrite <- (ascii_N_embedding c). unfold code in Hcode. by rewrite Hcode. }
  rewrite Hstart. rewrite (json_elements_reads ts l t v); [done|done|done|]. lia.
Qed.

Lemma reads_braces (ks : list string) ts vs :
  Forall2 reads_as ts vs → List.length ks = List.length vs → in_order [] ks = true →
  reads_as ("{" +:+ join "," (zip_with member_text ks ts) +:+ "}") (VObj (zip ks vs)).
Proof.
  intros Hts Hlen Hord. split; [rewrite chars_app; by eexists _, _|].
  intros [|f] rest Hf Hr; [lia|]. rewrite !chars_app, !length_app in Hf.
  rewrite !chars_app, <- !app_assoc. change (chars "{") with ["{"%char] in *.
  change (chars "}") with ["}"%char] in *. cbn [app List.length] in *.
  destruct Hts as [|t v ts vs Ht Hts]; destruct ks as [|k ks]; try done. cbn [zip_with] in *.
  rewrite chars_join, <- app_assoc in *.
  assert (Hstart : ∀ r, json_value (S f) ("{"%char :: chars (member_text k t) ++ r) =
                        json_members f [] (chars (member_text k t) ++ r)).
  { intros r. by rewrite chars_member, chars_json_quote. }
  rewrite Hstart. rewrite (json_members_reads ks ts k t v vs); [done|done|done| |done|].
  - cbn in Hlen. lia.
  - lia.
Qed.

Lemma stringify_reads v : json_plain v = true → ∃ t, stringify v = JText t ∧ reads_as t v.
Proof.
  induction v using jsval_nested_ind; cbn [json_plain]; intros Hv; try done.
  - exists "null". split; [done|]. split; [by eexists _, _|]. by intros [|f] rest Hf; [cbn in Hf; lia|].
  - exists (if b then "true" else "false"). split; [done|].
    split; [destruct b; by eexists _, _|]. intros [|f] rest Hf; [destruct b; cbn in Hf; lia|].
    by destruct b.
  - exists (num_to_string n). split; [|by apply reads_number].
    unfold reads_back in Hv. apply andb_true_iff in Hv as [Hf _]. cbn. by rewrite Hf.
  - exists (json_quote s). split; [done|apply reads_quote].
  - destruct (stringify_reads_list l) as (ts & Hts & Hall).
    { rewrite Forall_forall in *. intros x Hx. apply H; [done|].
      rewrite forallb_forall in Hv. by apply Hv, list_elem_of_In. }
    cbn. rewrite Hts. eexists. split; [done|]. by apply reads_brackets.
  - apply andb_true_iff in Hv as [Ho Hv]. destruct (stringify_reads_fields o) as (ts & Hts & Hall).
    { rewrite Forall_forall in *. intros x Hx. apply H; [done|].
      rewrite forallb_forall in Hv. by apply (Hv x), list_elem_of_In. }
    cbn. rewrite Hts. eexists. split; [done|].
    replace o with (zip o.*1 o.*2) at 2 by apply zip_fst_snd.
    apply reads_braces; [done|by rewrite !length_fmap|done].
Qed.

Lemma json_round_trip v :
  json_plain v = true → ∃ t, stringify v = JText t ∧ json_parse t = Some v.
Proof.
  intros Hv. destruct (stringify_reads v Hv) as (t & Ht & Hr). exists t. split; [done|].
  unfold json_parse. pose proof (reads_value t v Hr (2 * List.length (chars t) + 2) []) as H.
  rewrite app_nil_r in H. rewrite H by (done || lia). done.
Qed.

(** ** Integers *)

Lemma pretty_no_zero n l : (0 < n)%N → chars (pretty n) ≠ "0"%char :: l.
Proof.
  intros Hn Hl. destruct (pretty_spec n) as [(Hd & Hv & _) _]. rewrite Hl in Hd, Hv.
  inversion_clear Hd as [|? ? _ Hd'].
  pose proof (digits_value_bound l Hd') as Hb.
  destruct (decimal_digits_spec (Z.of_N n) ltac:(lia)) as (_ & Hlo & _).
  unfold decimal_digits in Hlo. rewrite Z_to_string_of_N, <- length_chars, Hl in Hlo.
  cbn [List.length] in Hlo. rewrite Nat2Z.inj_succ in Hlo.
  replace (Z.succ (Z.of_nat (List.length l)) - 1)%Z with (Z.of_nat (List.length l)) in Hlo by lia.
  assert (digits_value ("0"%char :: l) = digits_value l) as H0 by done. lia.
Qed.

Lemma json_number_digits l :
  Forall (λ c, is_digit c = true) l → leading_ok l = true →
  json_number l = Some (string_to_num (of_chars l), []).
Proof.
  intros Hd Hl. rewrite json_number_stages. destruct l as [|c l]; [done|].
  assert (Hs : number_sign (c :: l) = ([], c :: l)).
  { inversion_clear Hd as [|? ? Hc _]. destruct (digit_facts c Hc) as (_ & H1 & H2).
    cbn [number_sign]. by rewrite (proj2 (N.eqb_neq (code c) 45)) by lia. }
  rewrite Hs. destruct (take_while_all is_digit (c :: l) Hd) as [-> ->]. rewrite Hl.
  cbn [negb number_fraction number_exponent app]. by rewrite app_nil_r.
Qed.

(** every integer below [2 ^ 53] is read back *)
Lemma reads_back_integer z : (0 <= z < 2 ^ 53)%Z → reads_back (num_of_Z z) = true.
Proof.
  intros Hz. unfold reads_back. destruct (num_of_Z_integer z Hz) as (_ & _ & -> & _).
  apply bool_decide_eq_true. pose proof (string_to_num_integer z Hz) as Hs.
  rewrite num_to_string_integer in * by done.
  replace (Z_to_string z) with (pretty (Z.to_N z)) in * by (rewrite <- Z_to_string_of_N; f_equal; lia).
  destruct (pretty_spec (Z.to_N z)) as [(Hd & _ & Hne) _].
  rewrite json_number_digits; [by rewrite of_chars_chars, Hs|done|].
  destruct (Z.eq_dec z 0%Z) as [->|Hz0]; [done|].
  destruct (chars (pretty (Z.to_N z))) as [|c l] eqn:Hc; [done|].
  destruct l as [|d l]; [done|]. cbn [leading_ok]. apply negb_true_iff, N.eqb_neq. intros Hcode.
  apply (pretty_no_zero (Z.to_N z) (d :: l)); [lia|]. rewrite Hc. f_equal.
  rewrite <- (ascii_N_embedding c). unfold code in Hcode. by rewrite Hcode.
Qed.
