(* ===== verification/Template.v ===== *)
(** Payload templates: [packages/core/src/bridges/transform.ts], and the two
    kinds of [{{token}}] that templates of the program are made of.

    A template is scanned once into literal characters and tokens; what is put in
    a token's place is never scanned again. *)
From S2P Require Import Prelude JsText JsNumber JsDate JsValue JsJson.

(** ** Tokens *)

Inductive piece :=
| Lit (c : ascii)
| Tok (name : string).

(** [[\w$]] *)
Definition token_char (c : ascii) : bool := is_word c || (code c =? 36)%N.

Definition open_braces (l : list ascii) : option (list ascii) :=
  match l with
  | a :: b :: r => if (code a =? 123)%N && (code b =? 123)%N then Some r else None
  | _ => None
  end.

Definition close_braces (l : list ascii) : option (list ascii) :=
  match l with
  | a :: b :: r => if (code a =? 125)%N && (code b =? 125)%N then Some r else None
  | _ => None
  end.

(** a match of [ANY_TOKEN], [{{\s*([\w$]+)\s*}}], at the head: the name and the rest *)
Definition any_token (l : list ascii) : option (string * list ascii) :=
  r ← open_braces l;
  let r := drop_while is_space r in
  match take_while token_char r with
  | [] => None
  | name =>
      rest ← close_braces (drop_while is_space (drop_while token_char r));
      Some (of_chars name, rest)
  end.

Definition not_brace (c : ascii) : bool :=
  negb ((code c =? 123)%N || (code c =? 125)%N).

(** a match of the Redis key's token, [{{\s*([^{}]*?)\s*}}], at the head *)
Definition key_token (l : list ascii) : option (string * list ascii) :=
  r ← open_braces l;
  rest ← close_braces (drop_while not_brace r);
  Some (trim (of_chars (take_while not_brace r)), rest).

(** every match, left to right; the length of the text is enough fuel *)
Fixpoint scan (tok : list ascii → option (string * list ascii)) (fuel : nat)
    (l : list ascii) : list piece :=
  match fuel, l with
  | S fuel, c :: l' =>
      match tok l with
      | Some (name, rest) => Tok name :: scan tok fuel rest
      | None => Lit c :: scan tok fuel l'
      end
  | _, _ => []
  end.

Definition pieces tok (s : string) : list piece := scan tok (str_length s) (chars s).

Definition token_name (p : piece) : option string :=
  match p with Tok n => Some n | Lit _ => None end.

(** the names in the text, in order: what [matchAll] yields *)
Definition token_names tok (s : string) : list string := omap token_name (pieces tok s).

(** [/^…$/]: the text is one token and nothing else *)
Definition whole_token (s : string) : option string :=
  match any_token (chars s) with
  | Some (name, []) => Some name
  | _ => None
  end.

(** ** [templateColumns] *)

(** the source columns a template names, without the [$] built-ins *)
Definition templateColumns (template : option string) : list string :=
  set_of (filter (λ n, negb (startsWith "$" n)) (token_names any_token (default EmptyString template))).

(** ** Rendering *)

Record TransformContext := {
  table : string;
  now : string;
  index : Z
}.

Record TransformConfig := {
  template : string;
  fields : option (list string);
  rename : option (list (string * string));
  wrapKey : option string
}.

Record RenderResult := {
  body : jsval;
  warnings : list string
}.

Definition rename_key (r : list (string * string)) (k : string) : string :=
  match list_find (λ kv, kv.1 = k) r with
  | Some (_, kv) => kv.2
  | None => k
  end.

(** [Object.fromEntries] *)
Definition fromEntries (o : obj) : obj := obj_spread [] o.

Definition projectRow (row : obj) (cfg : TransformConfig) : obj :=
  let entries := match fields cfg with
                 | Some ((_ :: _) as keep) => filter (λ kv, kv.1 ∈ keep) row
                 | _ => row
                 end in
  let entries := match rename cfg with
                 | Some r => (λ kv, (rename_key r kv.1, kv.2)) <$> entries
                 | None => entries
                 end in
  fromEntries entries.

Definition buildScope (row : obj) (cfg : TransformConfig) (ctx : TransformContext) : obj :=
  let s := obj_define row "$row" (VObj (projectRow row cfg)) in
  let s := obj_define s "$table" (VStr (table ctx)) in
  let s := obj_define s "$now" (VStr (now ctx)) in
  obj_define s "$index" (VNum (num_of_Z (index ctx))).

(** a value inside a string; [None] where [JSON.stringify] throws *)
Definition token_text (v : jsval) : option string :=
  match v with
  | VUndef | VNull => Some EmptyString
  | VStr s => Some s
  | _ => if is_object v then
           match stringify v with JText s => Some s | _ => None end
         else Some (prim_text v)
  end.

Definition FORBIDDEN_KEYS : list string := ["__proto__"; "constructor"; "prototype"].

(** a computation that may throw and that notes tokens it could not resolve *)
Definition noting (A : Type) : Type := option (A * list string).
Definition note_ret {A} (x : A) : noting A := Some (x, []).
Definition note_bind {A B} (m : noting A) (f : A → noting B) : noting B :=
  match m with
  | None => None
  | Some (x, w) => match f x with Some (y, w') => Some (y, w ++ w') | None => None end
  end.
Notation "'let*' x := m 'in' k" := (note_bind m (λ x, k))
  (at level 10, x pattern, m at level 100, k at level 200).

Fixpoint render_pieces (scope : obj) (ps : list piece) : noting (list ascii) :=
  match ps with
  | [] => note_ret []
  | Lit c :: ps' => let* r := render_pieces scope ps' in note_ret (c :: r)
  | Tok name :: ps' =>
      let* t := match obj_find scope name with
                | Some v => match token_text v with Some s => note_ret s | None => None end
                | None => Some (EmptyString, [name])
                end in
      let* r := render_pieces scope ps' in
      note_ret (chars t ++ r)
  end.

(** [text.replace(ANY_TOKEN, …)] *)
Definition render_text (scope : obj) (text : string) : noting string :=
  let* r := render_pieces scope (pieces any_token text) in note_ret (of_chars r).

Fixpoint substitute (scope : obj) (node : jsval) : noting jsval :=
  match node with
  | VStr s =>
      match whole_token s with
      | Some name =>
          match obj_find scope name with
          | Some v => note_ret v
          | None => Some (VNull, [name])
          end
      | None => let* r := render_text scope s in note_ret (VStr r)
      end
  | VArr l =>
      let* l' := (fix go (l : list jsval) : noting (list jsval) :=
        match l with
        | [] => note_ret []
        | x :: l' => let* y := substitute scope x in
                     let* ys := go l' in note_ret (y :: ys)
        end) l in
      note_ret (VArr l')
  | VObj o =>
      let* o' := (fix go (out : obj) (o : obj) : noting obj :=
        match o with
        | [] => note_ret out
        | (k, v) :: o' =>
            let* renderedKey := render_text scope k in
            if bool_decide (renderedKey ∈ FORBIDDEN_KEYS) then go out o'
            else let* y := substitute scope v in go (obj_set out renderedKey y) o'
        end) [] o in
      note_ret (VObj o')
  | _ => note_ret node
  end.

(** [None] is the [BadRequestError] *)
Definition parseTemplate (tpl : string) : option jsval :=
  let trimmed := trim tpl in
  match whole_token trimmed with
  | Some _ => Some (VStr trimmed)
  | None => json_parse tpl
  end.

Definition wrap (b : jsval) (cfg : TransformConfig) : jsval :=
  match wrapKey cfg with
  | Some k => if decide (k = EmptyString) then b else VObj [(k, b)]
  | None => b
  end.

Definition renderRow (row : obj) (cfg : TransformConfig) (ctx : TransformContext)
  : option RenderResult :=
  tree ← parseTemplate (template cfg);
  '(rendered, w) ← substitute (buildScope row cfg ctx) tree;
  Some {| body := wrap rendered cfg; warnings := set_of w |}.

Fixpoint render_items (cfg : TransformConfig) (tree : jsval) (ctx : TransformContext)
    (i : Z) (rows : list obj) : noting (list jsval) :=
  match rows with
  | [] => note_ret []
  | row :: rows' =>
      let* y := substitute (buildScope row cfg
                  {| table := table ctx; now := now ctx; index := i |}) tree in
      let* ys := render_items cfg tree ctx (i + 1) rows' in
      note_ret (y :: ys)
  end.

(** [ctx] without its index: the field is not read *)
Definition renderBatch (rows : list obj) (cfg : TransformConfig) (startIndex : Z)
    (ctx : TransformContext) : option RenderResult :=
  tree ← parseTemplate (template cfg);
  '(items, w) ← render_items cfg tree ctx startIndex rows;
  Some {| body := wrap (VArr items) cfg; warnings := set_of w |}.

(** ** What a template depends on *)

(** the names of the tokens anywhere in a parsed template *)
Fixpoint tree_names (node : jsval) : list string :=
  match node with
  | VStr s => token_names any_token s
  | VArr l => concat (tree_names <$> l)
  | VObj o => concat ((λ kv, token_names any_token kv.1 ++ tree_names kv.2) <$> o)
  | _ => []
  end.

Lemma whole_token_names s name : whole_token s = Some name → name ∈ token_names any_token s.
Proof.
  unfold whole_token, token_names, pieces.
  destruct (any_token (chars s)) as [[n [|]]|] eqn:Ht; [|done|done].
  intros [= ->]. rewrite <- length_chars.
  destruct (chars s) as [|c l] eqn:Hs; [by vm_compute in Ht|].
  cbn [length scan]. rewrite Ht. cbn. destruct (length l); apply list_elem_of_here.
Qed.

Definition agree (names : list string) (s1 s2 : obj) : Prop :=
  ∀ n, n ∈ names → obj_find s1 n = obj_find s2 n.

Lemma agree_app l1 l2 s1 s2 : agree (l1 ++ l2) s1 s2 ↔ agree l1 s1 s2 ∧ agree l2 s1 s2.
Proof. unfold agree. setoid_rewrite elem_of_app. naive_solver. Qed.

Lemma render_pieces_agree s1 s2 ps :
  agree (omap token_name ps) s1 s2 → render_pieces s1 ps = render_pieces s2 ps.
Proof.
  induction ps as [|[c|n] ps IH]; cbn; intros Ha; [done|by rewrite IH|].
  rewrite (Ha n) by apply list_elem_of_here. rewrite IH; [done|].
  intros m Hm. apply Ha. by apply list_elem_of_further.
Qed.

Lemma render_text_agree s1 s2 t :
  agree (token_names any_token t) s1 s2 → render_text s1 t = render_text s2 t.
Proof. intros Ha. unfold render_text. by rewrite (render_pieces_agree s1 s2). Qed.

Lemma substitute_agree s1 s2 node :
  agree (tree_names node) s1 s2 → substitute s1 node = substitute s2 node.
Proof.
  induction node as [| | | | |s| | | |l IH|o IH] using jsval_nested_ind; try done; intros Ha; cbn.
  - destruct (whole_token s) as [n|] eqn:Hw.
    + by rewrite (Ha n) by (by apply whole_token_names).
    + by rewrite (render_text_agree s1 s2).
  - cbn in Ha. f_equal. revert Ha. induction IH as [|x l Hx _ IH]; cbn; intros Ha; [done|].
    apply agree_app in Ha as [Ha1 Ha2]. by rewrite Hx, IH.
  - cbn in Ha. f_equal. revert Ha. generalize ([] : obj) as out.
    induction IH as [|[k v] o Hx _ IH]; cbn in *; intros out Ha; [done|].
    apply agree_app in Ha as [[Hk Hv]%agree_app Ho].
    rewrite (render_text_agree s1 s2) by done. rewrite Hx by done.
    destruct (render_text s2 k) as [[k' w]|]; cbn; [|done].
    rewrite IH by done. destruct (bool_decide _); [done|].
    destruct (substitute s2 v) as [[y w']|]; cbn; [|done]. by rewrite IH.
Qed.

(** what a token of a scope resolves to: the row's column, or a built-in *)
Lemma find_scope row cfg ctx n :
  obj_find (buildScope row cfg ctx) n =
  if decide (n = "$index") then Some (VNum (num_of_Z (index ctx)))
  else if decide (n = "$now") then Some (VStr (now ctx))
  else if decide (n = "$table") then Some (VStr (table ctx))
  else if decide (n = "$row") then Some (VObj (projectRow row cfg))
  else obj_find row n.
Proof. unfold buildScope. by rewrite !obj_find_define. Qed.

(** A payload depends on a source row only through the columns its template
    names: rows that agree on those render to the same request body, whatever
    else they hold, unless the template asks for the whole row. *)
Theorem renderRow_depends_on_named_columns row1 row2 cfg ctx tree :
  parseTemplate (template cfg) = Some tree →
  "$row" ∉ tree_names tree →
  agree (tree_names tree) row1 row2 →
  renderRow row1 cfg ctx = renderRow row2 cfg ctx.
Proof.
  intros Ht Hrow Ha. unfold renderRow. rewrite Ht. cbn.
  rewrite (substitute_agree (buildScope row1 cfg ctx) (buildScope row2 cfg ctx)); [done|].
  intros n Hn. rewrite !find_scope. repeat case_decide; try done; [by subst|by apply Ha].
Qed.

(** ** What a template reports *)

Lemma note_bind_inv {A B} (m : noting A) (f : A → noting B) y w :
  note_bind m f = Some (y, w) →
  ∃ x w1 w2, m = Some (x, w1) ∧ f x = Some (y, w2) ∧ w = w1 ++ w2.
Proof.
  unfold note_bind. destruct m as [[x w1]|]; [|done].
  destruct (f x) as [[y' w2]|] eqn:Hf; [|done]. intros [= -> <-]. eauto 10.
Qed.

Ltac note_inv :=
  repeat match goal with
  | H : note_bind _ _ = Some _ |- _ =>
      apply note_bind_inv in H as (? & ? & ? & ? & ? & ->)
  | H : note_ret _ = Some _ |- _ => unfold note_ret in H; simplify_eq
  | H : Some _ = Some _ |- _ => simplify_eq
  end.

(** a name that no scope resolves, of a template that has it *)
Definition unresolved (scope : obj) (names : list string) (n : string) : Prop :=
  n ∈ names ∧ obj_find scope n = None.

Lemma render_pieces_notes scope ps r w n :
  render_pieces scope ps = Some (r, w) → n ∈ w → unresolved scope (omap token_name ps) n.
Proof.
  unfold unresolved. revert r w. induction ps as [|[c|m] ps IH]; cbn; intros r w Hr Hn.
  - note_inv. by apply elem_of_nil in Hn.
  - note_inv. rewrite app_nil_r in Hn. eauto.
  - note_inv. rewrite app_nil_r, elem_of_app, elem_of_cons in *.
    destruct Hn as [Hn|Hn]; [|destruct (IH _ _ ltac:(eassumption) Hn); tauto].
    destruct (obj_find scope m) as [v|] eqn:Hm; [destruct (token_text v)|]; note_inv;
      set_solver.
Qed.

Lemma render_text_notes scope t r w n :
  render_text scope t = Some (r, w) → n ∈ w → unresolved scope (token_names any_token t) n.
Proof.
  unfold render_text. intros Hr Hn. note_inv. rewrite app_nil_r in Hn.
  by eapply render_pieces_notes.
Qed.

(** The warnings of a preview are exact: every name reported is a token of
    the template that neither the row nor a built-in resolves. *)
Theorem substitute_warnings scope node v w n :
  substitute scope node = Some (v, w) → n ∈ w → unresolved scope (tree_names node) n.
Proof.
  revert v w.
  induction node as [| | | | |s| | | |l IH|o IH] using jsval_nested_ind;
    intros v0 w0 Hs Hn; cbn in Hs; note_inv; try by apply elem_of_nil in Hn.
  - destruct (whole_token s) as [m|] eqn:Hw.
    + destruct (obj_find scope m) eqn:Hm; note_inv; [by apply elem_of_nil in Hn|].
      apply list_elem_of_singleton in Hn as ->. split; [by apply whole_token_names|done].
    + note_inv. rewrite app_nil_r in Hn. by eapply render_text_notes.
  - rewrite app_nil_r in Hn. rename H into Hs. unfold unresolved in *. cbn.
    revert x x0 Hs Hn. induction IH as [|y l Hy _ IH]; cbn; intros; note_inv.
    + by apply elem_of_nil in Hn.
    + rewrite !app_nil_r, !elem_of_app in *. destruct Hn as [Hn|Hn].
      * destruct (Hy _ _ ltac:(eassumption) Hn); tauto.
      * edestruct IH; [eassumption|done|tauto].
  - rewrite app_nil_r in Hn. rename H into Hs. unfold unresolved in *. cbn.
    revert x x0 Hs Hn. generalize ([] : obj) as out.
    induction IH as [|[k y] o Hy _ IH]; cbn; intros; note_inv.
    + by apply elem_of_nil in Hn.
    + rewrite !elem_of_app in *. destruct Hn as [Hn|Hn].
      * edestruct render_text_notes; [eassumption..|]. tauto.
      * destruct (bool_decide _).
        -- edestruct IH; [eassumption|done|tauto].
        -- note_inv. rewrite elem_of_app in Hn. destruct Hn as [Hn|Hn].
           ++ edestruct Hy; [eassumption|done|tauto].
           ++ edestruct IH; [eassumption|done|tauto].
Qed.

(** ** A concrete template *)

Definition sample_config : TransformConfig :=
  {| template := dq "{'id':'{{id}}','to':'<{{ name }}>','at':'{{$now}}','x':'{{gone}}'}";
     fields := None; rename := None; wrapKey := Some "data" |}.
Definition sample_context : TransformContext :=
  {| table := "users"; now := "2026-01-01T00:00:00.000Z"; index := 0 |}.
Definition sample_row (secret : string) : obj :=
  [("id", VNum (num_of_Z 7)); ("name", VStr (dq "O'{{id}}")); ("secret", VStr secret)].

Example sample_render :
  renderRow (sample_row "s") sample_config sample_context =
  Some {| body := VObj [("data", VObj
            [("id", VNum (num_of_Z 7)); ("to", VStr (dq "<O'{{id}}>"));
             ("at", VStr "2026-01-01T00:00:00.000Z"); ("x", VNull)])];
          warnings := ["gone"] |}.
Proof. vm_compute. reflexivity. Qed.

Definition sample_tree : jsval :=
  VObj [("id", VStr "{{id}}"); ("to", VStr "<{{ name }}>"); ("at", VStr "{{$now}}");
        ("x", VStr "{{gone}}")].

Lemma sample_tree_names : tree_names sample_tree = ["id"; "name"; "$now"; "gone"].
Proof. vm_compute. reflexivity. Qed.

Lemma renderRow_depends_on_named_columns_witness :
  renderRow (sample_row "a") sample_config sample_context =
  renderRow (sample_row "b") sample_config sample_context.
Proof.
  apply (renderRow_depends_on_named_columns _ _ _ _ sample_tree).
  - vm_compute. reflexivity.
  - rewrite sample_tree_names, !elem_of_cons, elem_of_nil. naive_solver.
  - intros n. rewrite sample_tree_names, !elem_of_cons, elem_of_nil. intros [->|[->|[->|[->|[]]]]]; reflexivity.
Defined.

Lemma substitute_warnings_witness :
  unresolved (buildScope (sample_row "a") sample_config sample_context)
    (tree_names sample_tree) "gone".
Proof.
  eapply (substitute_warnings _ sample_tree _ ["gone"]).
  - vm_compute. reflexivity.
  - apply list_elem_of_here.
Defined.
