(* ===== verification/ColumnTransforms.v ===== *)
(** Column transforms: [packages/core/src/bridges/column-transforms.ts].

    A row is an object of [JsValue]; a step that throws (an invalid date's
    [toISOString], a [bigint] inside [JSON.stringify]) makes the result [None]. *)
From S2P Require Import Prelude JsText JsNumber JsDate JsValue JsJson Template.

(** ** Configuration *)

Inductive mask_mode := redact | partial | hash_mode | null_mode.
Inductive cast_to := to_text | to_number | to_integer | to_boolean | to_date | to_json.
Inductive on_error := on_error_fail | on_error_null | on_error_keep.
Inductive text_op := op_trim | op_lower | op_upper.

Inductive ColumnTransform :=
| Mask (column : string) (mode : mask_mode) (keepStart keepEnd : nat) (fill : string)
    (salt : option string)
| Cast (column : string) (to : cast_to) (onError : on_error)
| Text (column : string) (op : text_op)
| Default (column : string) (value : jsval)
| SetCol (column : string) (template : string).

Definition column (t : ColumnTransform) : string :=
  match t with
  | Mask c _ _ _ _ _ | Cast c _ _ | Text c _ | Default c _ | SetCol c _ => c
  end.

(** what [columnTransformSchema] accepts *)
Definition len_between (lo hi : nat) (s : string) : bool :=
  (lo <=? str_length s) && (str_length s <=? hi).

Definition columnTransformSchema (t : ColumnTransform) : bool :=
  len_between 1 200 (column t) &&
  match t with
  | Mask _ _ ks ke fill salt =>
      (ks <=? 64) && (ke <=? 64) && len_between 1 8 fill &&
      match salt with Some s => str_length s <=? 200 | None => true end
  | Cast _ _ _ | Text _ _ => true
  | Default _ v => match v with VStr _ | VNum _ | VBool _ | VNull => true | _ => false end
  | SetCol _ tpl => str_length tpl <=? 2000
  end.

Record ColumnTransformContext := {
  ctable : string;
  cnow : string;
  hash : string → string;
  keysOnly : bool
}.

Record ColumnTransformResult := {
  row : obj;
  cwarnings : list string;
  errors : list string
}.

Section transforms.
Context `{JsHost}.

Definition isMarker : jsval → bool := is_sym.

(** [None] where it throws *)
Definition text (value : jsval) : option string :=
  match value with
  | VUndef | VNull => Some EmptyString
  | VStr s => Some s
  | VDate t => toISOString <$> t
  | _ => if is_object value then
           match stringify value with JText s => Some s | _ => None end
         else Some (prim_text value)
  end.

(** [fill.repeat(n).slice(0, n)] *)
Definition filled (fill : string) (n : nat) : list ascii :=
  take n (chars (repeat_str n fill)).

Definition partial_mask (keepStart keepEnd : nat) (fill : string) (cs : list ascii) : list ascii :=
  let keep := keepStart + keepEnd in
  if length cs <=? keep then filled fill (Nat.max 1 (length cs))
  else take keepStart cs ++ filled fill (length cs - keep) ++
       drop (length cs - keepEnd) cs.

Definition mask (ctx : ColumnTransformContext) (mode : mask_mode) (keepStart keepEnd : nat)
    (fill : string) (salt : option string) (value : jsval) : option jsval :=
  if is_nil value then Some value else
  match mode with
  | null_mode => Some VNull
  | _ =>
      s ← text value;
      Some (VStr (match mode with
                  | hash_mode => hash ctx (default EmptyString salt +:+ s)
                  | redact => of_chars (filled fill 8)
                  | _ => of_chars (partial_mask keepStart keepEnd fill (chars s))
                  end))
  end.

Definition TRUE : list string := ["true"; "t"; "yes"; "y"; "1"; "on"].
Definition FALSE : list string := ["false"; "f"; "no"; "n"; "0"; "off"; EmptyString].

(** the outer [option]: it may throw; the inner one: [ok] or not *)
Definition cast (to : cast_to) (value : jsval) : option (option jsval) :=
  if is_nil value then Some (Some value) else
  match to with
  | to_text => s ← text value; Some (Some (VStr s))
  | to_number | to_integer =>
      match value with
      | VBool b => Some (Some (VNum (num_of_Z (if b then 1 else 0))))
      | VBig _ => Some (Some value)
      | _ =>
          s ← text value;
          let n := match value with VNum n => n | _ => string_to_num (trim s) end in
          if bool_decide (trim s = EmptyString) || negb (is_finite n) then Some None
          else Some (Some (VNum (match to with to_integer => num_trunc n | _ => n end)))
      end
  | to_boolean =>
      match value with
      | VBool _ => Some (Some value)
      | VNum n => Some (Some (VBool (negb (num_eq n (S754_zero false)))))
      | _ =>
          s ← text value;
          let s := toLowerCase (trim s) in
          if bool_decide (s ∈ TRUE) then Some (Some (VBool true))
          else if bool_decide (s ∈ FALSE) then Some (Some (VBool false))
          else Some None
      end
  | to_date =>
      match value with
      | VDate t => Some ((λ t, VStr (toISOString t)) <$> t)
      | VNum n =>
          let raw := if num_lt (num_abs n) (num_of_Z 100000000000)
                     then num_mul n (num_of_Z 1000) else n in
          Some (if is_finite raw then (λ t, VStr (toISOString t)) <$> time_clip (trunc_Z raw)
                else None)
      | _ =>
          s ← text value;
          Some ((λ t, VStr (toISOString t)) <$> date_parse (trim s))
      end
  | to_json =>
      match value with
      | VStr s => Some (json_parse s)
      | _ => Some (Some value)
      end
  end.

Definition FORBIDDEN : list string := FORBIDDEN_KEYS.

Definition cast_name (to : cast_to) : string :=
  match to with
  | to_text => "string" | to_number => "number" | to_integer => "integer"
  | to_boolean => "boolean" | to_date => "date" | to_json => "json"
  end.

(** the message of a cast that could not be done *)
Definition cast_problem (c : string) (to : cast_to) (shown : string) : string :=
  "cast " +:+ c +:+ ": " +:+ json_quote (slice 0 40 shown) +:+ " is not a " +:+ cast_name to.

(** a resolved token of a [set] template: a marker counts as missing *)
Definition scope_value (scope : obj) (name : string) : option jsval :=
  match obj_find scope name with
  | Some v => if isMarker v then None else Some v
  | None => None
  end.

Fixpoint set_pieces (c : string) (scope : obj) (ps : list piece)
  : option (list ascii * list string) :=
  match ps with
  | [] => Some ([], [])
  | Lit x :: ps' =>
      '(r, w) ← set_pieces c scope ps'; Some (x :: r, w)
  | Tok name :: ps' =>
      '(t, w1) ← match scope_value scope name with
                 | Some v => t ← text v; Some (t, [])
                 | None => Some (EmptyString,
                     ["set " +:+ c +:+ ": no column " +:+ of_chars [dquote] +:+ name +:+ of_chars [dquote]])
                 end;
      '(r, w2) ← set_pieces c scope ps'; Some (chars t ++ r, w1 ++ w2)
  end.

(** one pass of the loop over the steps *)
Definition apply_step (ctx : ColumnTransformContext) (t : ColumnTransform)
    (st : ColumnTransformResult) : option ColumnTransformResult :=
  let out := row st in
  let c := column t in
  let has := has_own out c in
  let v := obj_get out c in
  let put x := {| row := obj_set out c x; cwarnings := cwarnings st; errors := errors st |} in
  if has && isMarker v then Some st else
  match t with
  | Mask _ mode ks ke fill salt =>
      if has then x ← mask ctx mode ks ke fill salt v; Some (put x) else Some st
  | Text _ op =>
      match v with
      | VStr s => Some (if has then put (VStr (match op with
                                                | op_trim => trim s
                                                | op_lower => toLowerCase s
                                                | op_upper => toUpperCase s
                                                end)) else st)
      | _ => Some st
      end
  | Cast _ to onError =>
      if negb has then Some st else
      result ← cast to v;
      match result with
      | Some x => Some (put x)
      | None =>
          shown ← text v;
          let problem := cast_problem c to shown in
          Some (match onError with
                | on_error_fail =>
                    {| row := out; cwarnings := cwarnings st; errors := errors st ++ [problem] |}
                | on_error_null =>
                    {| row := obj_set out c VNull;
                       cwarnings := cwarnings st ++ [problem +:+ "; written as NULL"];
                       errors := errors st |}
                | on_error_keep =>
                    {| row := out; cwarnings := cwarnings st ++ [problem +:+ "; left as it was"];
                       errors := errors st |}
                end)
      end
  | Default _ value =>
      if keysOnly ctx then Some st
      else if negb has || is_nil v then Some (put value) else Some st
  | SetCol _ tpl =>
      if keysOnly ctx then Some st
      else if bool_decide (c ∈ FORBIDDEN) then Some st
      else
        let scope := obj_define (obj_define out "$now" (VStr (cnow ctx)))
                                "$table" (VStr (ctable ctx)) in
        match whole_token tpl ≫= scope_value scope with
        | Some x => Some (put x)
        | None =>
            '(r, w) ← set_pieces c scope (pieces any_token tpl);
            Some {| row := obj_set out c (VStr (of_chars r)); cwarnings := cwarnings st ++ w;
                    errors := errors st |}
        end
  end.

Fixpoint apply_steps ctx (ts : list ColumnTransform) (st : ColumnTransformResult)
  : option ColumnTransformResult :=
  match ts with
  | [] => Some st
  | t :: ts' => st' ← apply_step ctx t st; apply_steps ctx ts' st'
  end.

Definition applyColumnTransforms (r : obj) (transforms : option (list ColumnTransform))
    (ctx : ColumnTransformContext) : option ColumnTransformResult :=
  apply_steps ctx (default [] transforms) {| row := r; cwarnings := []; errors := [] |}.

End transforms.

(** ** What a set of steps reads, adds and makes of a type *)

Definition template_reads (tpl : string) : list string :=
  filter (λ n, negb (startsWith "$" n)) (token_names any_token tpl).

Definition columnsRead (transforms : option (list ColumnTransform)) : list string :=
  set_of (default [] transforms ≫= λ t,
    match t with SetCol _ tpl => template_reads tpl | _ => [column t] end).

Definition adds (t : ColumnTransform) : bool :=
  match t with SetCol _ _ | Default _ _ => true | _ => false end.

Definition columnsAdded (transforms : option (list ColumnTransform)) (sourceColumns : list string)
  : list string :=
  (foldl (λ '(known, added) t,
     if adds t && bool_decide (column t ∉ known)
     then (known ++ [column t], added ++ [column t]) else (known, added))
   (sourceColumns, []) (default [] transforms)).2.

Inductive Planned := PType (type : string) | CopyOf (origin : string).

Definition CAST_TYPES (to : cast_to) : string :=
  match to with
  | to_text => "text" | to_number => "double precision" | to_integer => "bigint"
  | to_boolean => "boolean" | to_date => "timestamptz" | to_json => "jsonb"
  end.

Definition plan_step (planned : gmap string Planned) (t : ColumnTransform) : gmap string Planned :=
  match t with
  | Mask c mode _ _ _ _ =>
      match mode with null_mode => planned | _ => <[c := PType "text"]> planned end
  | Cast c to _ => <[c := PType (CAST_TYPES to)]> planned
  | SetCol c tpl =>
      match whole_token tpl with
      | None => <[c := PType "text"]> planned
      | Some origin =>
          if startsWith "$" origin then <[c := PType "text"]> planned
          else <[c := default (CopyOf origin) (planned !! origin)]> planned
      end
  | Default _ _ | Text _ _ => planned
  end.

Definition plan (transforms : option (list ColumnTransform)) : gmap string Planned :=
  foldl plan_step ∅ (default [] transforms).

Definition transformedType (transforms : option (list ColumnTransform)) (c : string) : option string :=
  match plan transforms !! c with Some (PType ty) => Some ty | _ => None end.

Definition copiedColumn (transforms : option (list ColumnTransform)) (c : string) : option string :=
  match plan transforms !! c with Some (CopyOf o) => Some o | _ => None end.

Definition canBecomeNull (transforms : option (list ColumnTransform)) (c : string) : bool :=
  existsb (λ t, bool_decide (column t = c) &&
    match t with
    | Mask _ null_mode _ _ _ _ => true
    | Cast _ _ on_error_null => true
    | _ => false
    end) (default [] transforms).

(** ** Facts about one step *)

Section facts.
Context `{JsHost}.

Ltac step_cases H :=
  unfold apply_step in H; repeat (case_match; simplify_option_eq; try done).

(** a step rewrites at most its own column, and adds it only where it says so *)
Lemma apply_step_effect ctx t st st' :
  apply_step ctx t st = Some st' →
  row st' = row st ∨
  ∃ x, row st' = obj_set (row st) (column t) x ∧
       (has_own (row st) (column t) = true ∨ (adds t = true ∧ keysOnly ctx = false)).
Proof.
  unfold apply_step. intros Hs.
  destruct (has_own (row st) (column t)) eqn:Hown;
  destruct t; cbn in *; repeat (case_match; simplify_option_eq); simplify_eq; eauto 10.
Qed.

Lemma apply_step_marker ctx t st st' c d :
  apply_step ctx t st = Some st' →
  obj_find (row st) c = Some (VSym d) → obj_find (row st') c = Some (VSym d).
Proof.
  intros Hs Hc. destruct (decide (c = column t)) as [->|Hne].
  - unfold apply_step in Hs. unfold has_own, obj_get in Hs. rewrite Hc in Hs.
    cbn in Hs. by simplify_eq.
  - apply apply_step_effect in Hs as [->|(x & -> & _)]; [done|].
    by rewrite obj_find_set_ne.
Qed.

Lemma apply_steps_marker ctx ts st st' c d :
  apply_steps ctx ts st = Some st' →
  obj_find (row st) c = Some (VSym d) → obj_find (row st') c = Some (VSym d).
Proof.
  revert st. induction ts as [|t ts IH]; cbn; intros st Hs Hc; [by simplify_eq|].
  simplify_option_eq. eauto using apply_step_marker.
Qed.

(** A column the change did not carry stays marked so: no step makes a value
    of it, whatever the steps are. *)
Theorem apply_keeps_markers r ts ctx res c d :
  applyColumnTransforms r ts ctx = Some res →
  obj_find r c = Some (VSym d) → obj_find (row res) c = Some (VSym d).
Proof. apply apply_steps_marker. Qed.

(** ** Columns added *)

Definition add_column : list string * list string → ColumnTransform → list string * list string :=
  λ '(known, added) t,
    if adds t && bool_decide (column t ∉ known)
    then (known ++ [column t], added ++ [column t]) else (known, added).

Lemma apply_step_keys ctx t st st' known added :
  apply_step ctx t st = Some st' →
  obj_keys (row st) ⊆ known →
  obj_keys (row st') ⊆ (add_column (known, added) t).1.
Proof.
  intros Hs Hk k Hk'. cbn.
  assert (k ∈ known ∨ (k = column t ∧ adds t = true)) as [Hin|[-> Ha]].
  { apply apply_step_effect in Hs as [Hr|(x & Hr & Hor)];
      rewrite Hr in Hk'; [left; by apply Hk|].
    apply has_own_elem, has_own_Some, obj_find_set_Some in Hk' as [Hin| ->].
    - left. by apply Hk, has_own_elem, has_own_Some.
    - destruct Hor as [Hown|(Ha & _)]; [left; by apply Hk, has_own_elem|by right]. }
  - case_match; cbn; set_solver.
  - rewrite Ha. cbn. case_bool_decide as Hin; cbn; [set_solver|done].
Qed.

Lemma add_columns_split ts known added :
  (foldl add_column (known, added) ts).1 ⊆ known ++ (foldl add_column (known, []) ts).2 ∧
  (foldl add_column (known, added) ts).2 = added ++ (foldl add_column (known, []) ts).2 ∧
  (foldl add_column (known, added) ts).1 = (foldl add_column (known, []) ts).1.
Proof.
  revert known added. induction ts as [|t ts IH]; intros known added; cbn.
  - rewrite !app_nil_r. by split_and!.
  - destruct (adds t && bool_decide (column t ∉ known)); cbn; [|apply IH].
    destruct (IH (known ++ [column t]) (added ++ [column t])) as (H1 & H2 & H3).
    destruct (IH (known ++ [column t]) [column t]) as (_ & H2' & H3').
    rewrite H2, H2', H3, H3'. split_and!; [|by rewrite <- app_assoc|done].
    rewrite H3 in H1. set_solver.
Qed.

Lemma apply_steps_keys ctx ts st st' known :
  apply_steps ctx ts st = Some st' → obj_keys (row st) ⊆ known →
  obj_keys (row st') ⊆ (foldl add_column (known, []) ts).1.
Proof.
  revert st known. induction ts as [|t ts IH]; intros st known; cbn.
  - intros [= <-]. done.
  - intros Hs Hk. destruct (apply_step ctx t st) as [st1|] eqn:H1; [|done]. cbn in Hs.
    pose proof (apply_step_keys _ _ _ _ _ [] H1 Hk) as Hk1. cbn in Hk1.
    specialize (IH _ _ Hs Hk1).
    destruct (adds t && bool_decide (column t ∉ known)); cbn in *; [|done].
    destruct (add_columns_split ts (known ++ [column t]) [column t]) as (_ & _ & Heq).
    by rewrite Heq.
Qed.

Lemma apply_steps_keeps_keys ctx ts st st' :
  apply_steps ctx ts st = Some st' → obj_keys (row st) ⊆ obj_keys (row st').
Proof.
  revert st. induction ts as [|t ts IH]; intros st; cbn; [by intros [= <-]|].
  intros Hs. destruct (apply_step ctx t st) as [st1|] eqn:H1; [|done]. cbn in Hs.
  etrans; [|by eapply IH]. intros k Hk.
  apply apply_step_effect in H1 as [->|(x & -> & _)]; [done|].
  by apply has_own_elem, has_own_Some, obj_find_set_mono, has_own_Some, has_own_elem.
Qed.

(** The columns a table is planned with cover the rows: a transformed row has
    every column of the row and beyond those only the ones [columnsAdded] lists. *)
Theorem apply_columns r ts ctx res :
  applyColumnTransforms r ts ctx = Some res →
  obj_keys r ⊆ obj_keys (row res) ∧
  obj_keys (row res) ⊆ obj_keys r ++ columnsAdded ts (obj_keys r).
Proof.
  unfold applyColumnTransforms. intros Hs.
  split; [by eapply (apply_steps_keeps_keys _ _ {| row := r |})|].
  eapply (apply_steps_keys _ _ _ _ (obj_keys r)) in Hs; [|done].
  etrans; [exact Hs|]. apply add_columns_split.
Qed.
End facts.

(** ** Masks *)

Lemma length_filled fill n : 1 ≤ str_length fill → length (filled fill n) = n.
Proof.
  intros Hf. unfold filled. rewrite length_take, length_chars.
  assert (n ≤ str_length (repeat_str n fill)); [|lia].
  induction n as [|n IH]; [lia|]. cbn [repeat_str].
  rewrite <- length_chars, chars_app, length_app, !length_chars. lia.
Qed.

(** C39. A partial mask hides everything between the ends it keeps: the result has
    the length of the value, and two values of one length that share those ends
    cannot be told apart; of a value too short to keep anything, only the length
    is left. *)
Theorem partial_mask_hides ks ke fill a b :
  1 ≤ str_length fill → length a = length b →
  (ks + ke < length a → take ks a = take ks b ∧ drop (length a - ke) a = drop (length b - ke) b) →
  partial_mask ks ke fill a = partial_mask ks ke fill b ∧
  length (partial_mask ks ke fill a) = Nat.max 1 (length a).
Proof.
  intros Hf Hl He. unfold partial_mask. rewrite <- Hl.
  destruct (length a <=? ks + ke) eqn:Hk; bool_to_prop.
  - split; [done|]. by apply length_filled.
  - destruct (He Hk) as [Ht Hd]. rewrite <- Hl in Hd. rewrite Ht, Hd. split; [done|].
    rewrite !length_app, length_take, length_filled, length_drop by done. lia.
Qed.

(** ** Casts *)

Section typing.
Context `{JsHost}.

(** a value of the type a cast promises; what is not there stays not there *)
Definition of_type (ty : string) (v : jsval) : bool :=
  match v with
  | VUndef | VNull | VSym _ => true
  | VStr _ => bool_decide (ty ∈ ["text"; "timestamptz"; "jsonb"])
  | VNum _ | VBig _ => bool_decide (ty ∈ ["double precision"; "bigint"; "jsonb"])
  | VBool _ => bool_decide (ty ∈ ["boolean"; "jsonb"])
  | _ => bool_decide (ty = "jsonb")
  end.

Lemma of_type_jsonb v : of_type "jsonb" v = true.
Proof. by destruct v. Qed.

(** the numeric casts of what is neither a boolean nor a big integer *)
Lemma cast_number_typed to (n : num) s x :
  (if bool_decide (trim s = EmptyString) || negb (is_finite n) then Some None
   else Some (Some (VNum (match to with to_integer => num_trunc n | _ => n end))))
  = Some (Some x) →
  ∃ m, x = VNum m ∧ (to = to_number → is_finite m = true).
Proof.
  case_match eqn:Hb; [done|]. bool_to_prop. intros [= <-].
  eexists. split; [done|]. by intros ->.
Qed.

(** A cast that succeeds delivers the type an auto-created column is given
    for it, and a number it delivers is finite. *)
Theorem cast_typed to v x :
  cast to v = Some (Some x) → is_nil v = false →
  of_type (CAST_TYPES to) x = true ∧ (∀ n, x = VNum n → to = to_number → is_finite n = true).
Proof.
  intros Hc Hv. unfold cast in Hc. rewrite Hv in Hc. destruct to; cbn [CAST_TYPES].
  - destruct (text v); simplify_option_eq. done.
  - destruct v; try discriminate Hv.
    all: try (destruct (text _) as [tx|]; cbn [mbind option_bind] in Hc; [|done];
      apply (cast_number_typed to_number) in Hc as (m & -> & Hm)).
    all: simplify_eq; (split; [done|]); intros n' Hn _; simplify_eq; auto.
    by destruct b.
  - destruct v; try discriminate Hv.
    all: try (destruct (text _) as [tx|]; cbn [mbind option_bind] in Hc; [|done];
      apply (cast_number_typed to_integer) in Hc as (m & -> & Hm)).
    all: by simplify_eq.
  - destruct v; try discriminate Hv.
    all: try (destruct (text _) as [tx|]; cbn [mbind option_bind] in Hc; [|done]).
    all: repeat case_match; by simplify_eq.
  - destruct v; try discriminate Hv.
    all: try (destruct (text _) as [tx|]; cbn [mbind option_bind] in Hc; [|done]).
    all: repeat case_match; simplify_option_eq; done.
  - split; [apply of_type_jsonb|done].
Qed.
End typing.

(** ** The planned types are right *)

Section planning.
Context `{JsHost}.

Definition type_tag (v : jsval) : string :=
  match v with
  | VUndef => "undefined" | VNull => "null" | VBool _ => "boolean" | VNum _ => "number"
  | VBig _ => "bigint" | VStr _ => "string" | VSym _ => "symbol" | VDate _ => "date"
  | VBytes _ => "bytes" | VArr _ => "array" | VObj _ => "object"
  end.

(** nothing, a marker, a value of the planned type, or one of the origin's type *)
Definition fits (source : obj) (p : Planned) (v : jsval) : Prop :=
  is_nil v = true ∨ is_sym v = true ∨
  match p with
  | PType ty => of_type ty v = true
  | CopyOf o => type_tag v = type_tag (obj_get source o)
  end.

(** a column no step has typed is a copy of itself *)
Definition planned_at (m : gmap string Planned) (c : string) : Planned :=
  default (CopyOf c) (m !! c).

Definition plain_name (c : string) : bool :=
  negb (startsWith "$" c) && bool_decide (c ∉ FORBIDDEN).

(** a step that names an ordinary column and is not a default *)
Definition plain_step (t : ColumnTransform) : bool :=
  plain_name (column t) && match t with Default _ _ => false | _ => true end.

Definition quiet (st : ColumnTransformResult) : Prop := cwarnings st = [] ∧ errors st = [].

Lemma apply_step_quiet ctx t st st' :
  apply_step ctx t st = Some st' → quiet st' → quiet st.
Proof.
  unfold apply_step, quiet. intros Hs [Hw He].
  destruct t; cbn in *; repeat (case_match; simplify_option_eq); simplify_eq; cbn in *;
    repeat match goal with H : _ ++ _ = [] |- _ => apply app_eq_nil in H as [? ?] end; done.
Qed.

Lemma apply_steps_quiet ctx ts st st' :
  apply_steps ctx ts st = Some st' → quiet st' → quiet st.
Proof.
  revert st. induction ts as [|t ts IH]; cbn; intros st Hs Hq; [by simplify_eq|].
  destruct (apply_step ctx t st) as [st1|] eqn:H1; [|done]. eauto using apply_step_quiet.
Qed.

Lemma obj_get_set o c x : c ≠ "__proto__" → obj_get (obj_set o c x) c = x.
Proof. intros Hc. unfold obj_get. by rewrite obj_find_set, decide_True. Qed.

Lemma plain_not_proto c : plain_name c = true → c ≠ "__proto__".
Proof. unfold plain_name. intros Hp ->. by vm_compute in Hp. Qed.

Lemma cast_nil to v x : is_nil v = true → cast to v = Some (Some x) → x = v.
Proof. unfold cast. intros ->. by intros [= <-]. Qed.

Lemma mask_text ctx mode ks ke fill salt v x :
  mask ctx mode ks ke fill salt v = Some x → is_nil x = true ∨ mode ≠ null_mode ∧ is_str x = true.
Proof.
  unfold mask. destruct (is_nil v) eqn:Hv; [intros [= <-]; by left|].
  destruct mode; intros Hm; simplify_option_eq; auto; by right.
Qed.

(** without a warning, every token of a template that is set resolved *)
Lemma set_pieces_quiet c scope ps r :
  set_pieces c scope ps = Some (r, []) →
  Forall (λ n, is_Some (scope_value scope n)) (omap token_name ps).
Proof.
  revert r. induction ps as [|[x|n] ps IH]; cbn; intros r Hr; [constructor| |].
  - destruct (set_pieces c scope ps) as [[r' w]|]; simplify_option_eq. eauto.
  - destruct (scope_value scope n) as [v|] eqn:Hn; cbn in Hr.
    + destruct (text v); [|done]. cbn in Hr.
      destruct (set_pieces c scope ps) as [[r' w]|]; simplify_option_eq.
      constructor; [done|eauto].
    + destruct (set_pieces c scope ps) as [[r' w]|]; by simplify_option_eq.
Qed.

Lemma scope_value_spec out a b n v :
  scope_value (obj_define (obj_define out "$now" (VStr a)) "$table" (VStr b)) n = Some v →
  if startsWith "$" n then is_str v = true ∨ obj_find out n = Some v
  else obj_find out n = Some v.
Proof.
  unfold scope_value. rewrite !obj_find_define. intros Hv.
  destruct (decide (n = "$table")) as [->|]; [cbn in *; simplify_eq; by left|].
  destruct (decide (n = "$now")) as [->|]; [cbn in *; simplify_eq; by left|].
  destruct (obj_find out n) as [v'|]; [|done]. destruct (isMarker v'); [done|].
  simplify_eq. case_match; [by right|done].
Qed.

Variable source : obj.

Definition plan_holds (m : gmap string Planned) (out : obj) : Prop :=
  ∀ c, fits source (planned_at m c) (obj_get out c).

Definition no_dollar (out : obj) : Prop :=
  ∀ k, startsWith "$" k = true → obj_find out k = None.

Lemma fits_str m c ty v :
  is_str v = true → of_type ty (VStr EmptyString) = true →
  fits source (planned_at (<[c := PType ty]> m) c) v.
Proof.
  intros Hs Ht. right. right. unfold planned_at. rewrite lookup_insert_eq. by destruct v.
Qed.

Lemma fits_nil p v : is_nil v = true → fits source p v.
Proof. by left. Qed.

Lemma fits_missing p o c : has_own o c = false → fits source p (obj_get o c).
Proof.
  intros Ho. apply fits_nil. unfold obj_get, has_own in *.
  destruct (obj_find o c); [|done]. apply bool_decide_eq_false in Ho. by destruct Ho.
Qed.

Lemma mask_fits ctx m c mode ks ke fill salt v x :
  mask ctx mode ks ke fill salt v = Some x →
  fits source (planned_at (plan_step m (Mask c mode ks ke fill salt)) c) x.
Proof.
  intros [Hx|[Hm Hx]]%mask_text; [by apply fits_nil|]. cbn.
  destruct mode; try done; by apply fits_str.
Qed.

Lemma cast_fits m c to oe v x :
  cast to v = Some (Some x) → fits source (planned_at (plan_step m (Cast c to oe)) c) x.
Proof.
  intros Hc. destruct (is_nil v) eqn:Hv.
  - apply fits_nil. by rewrite (cast_nil _ _ _ Hv Hc).
  - right. right. unfold planned_at. cbn. rewrite lookup_insert_eq. cbn.
    by apply cast_typed in Hc as [? _].
Qed.

Lemma set_fits ctx m c tpl out x :
  no_dollar out → plan_holds m out →
  whole_token tpl ≫= scope_value (obj_define (obj_define out "$now" (VStr (cnow ctx)))
                                             "$table" (VStr (ctable ctx))) = Some x →
  fits source (planned_at (plan_step m (SetCol c tpl)) c) x.
Proof.
  intros Hd Hp Hx. unfold plan_step.
  destruct (whole_token tpl) as [o|]; [|done]. cbn [mbind option_bind] in Hx.
  apply scope_value_spec in Hx. destruct (startsWith "$" o) eqn:Ho.
  - destruct Hx as [Hx|Hx]; [by apply fits_str|]. by rewrite Hd in Hx.
  - unfold planned_at at 1. rewrite lookup_insert_eq. cbn.
    replace x with (obj_get out o); [apply Hp|]. unfold obj_get. by rewrite Hx.
Qed.

Lemma set_text_fits ctx m c tpl out r w :
  let scope := obj_define (obj_define out "$now" (VStr (cnow ctx))) "$table" (VStr (ctable ctx)) in
  whole_token tpl ≫= scope_value scope = None →
  set_pieces c scope (pieces any_token tpl) = Some (r, w) → w = [] →
  fits source (planned_at (plan_step m (SetCol c tpl)) c) (VStr (of_chars r)).
Proof.
  intros scope Hx Hs ->. unfold plan_step.
  destruct (whole_token tpl) as [o|] eqn:Hw; [|by apply fits_str].
  apply set_pieces_quiet in Hs. rewrite Forall_forall in Hs.
  destruct (Hs o (whole_token_names _ _ Hw)) as [v Hv]. cbn in Hx. congruence.
Qed.

Lemma text_op_fits p op s :
  fits source p (VStr s) →
  fits source p (VStr (match op with op_trim => trim s | op_lower => toLowerCase s
                                   | op_upper => toUpperCase s end)).
Proof. intros [Hf|[Hf|Hf]]; [done|done|]. by right; right. Qed.

Lemma set_step_own ctx m c tpl st st' :
  plain_name c = true → keysOnly ctx = false → no_dollar (row st) →
  apply_step ctx (SetCol c tpl) st = Some st' → quiet st' → plan_holds m (row st) →
  fits source (planned_at (plan_step m (SetCol c tpl)) c) (obj_get (row st') c).
Proof.
  intros Hpl Hk Hd Hs [Hqw Hqe] Hp. pose proof (plain_not_proto _ Hpl) as Hproto.
  unfold apply_step in Hs. cbn [column] in Hs. rewrite Hk in Hs.
  destruct (has_own (row st) c && isMarker (obj_get (row st) c)) eqn:Hmk.
  { simplify_eq. bool_to_prop. right. by left. }
  case_bool_decide as Hf; [unfold plain_name in *; bool_to_prop; done|].
  destruct (whole_token tpl ≫= _) as [x|] eqn:Hx; simplify_eq.
  - cbn [row]. rewrite obj_get_set by done. by eapply set_fits.
  - destruct (set_pieces _ _ _) as [[r w]|] eqn:Hsp; cbn in Hs; simplify_eq.
    apply app_eq_nil in Hqw as [_ ->].
    cbn [row]. rewrite obj_get_set by done. by eapply set_text_fits.
Qed.

(** a step's own column, once the step has run without a complaint *)
Lemma plan_step_own ctx m t st st' :
  plain_step t = true → keysOnly ctx = false → no_dollar (row st) →
  apply_step ctx t st = Some st' → quiet st' → plan_holds m (row st) →
  fits source (planned_at (plan_step m t) (column t)) (obj_get (row st') (column t)).
Proof.
  intros Hpl Hk Hd Hs Hq Hp. unfold plain_step in Hpl. bool_to_prop.
  pose proof (plain_not_proto _ ltac:(eassumption)) as Hproto.
  destruct t as [c mode ks ke fill salt|c to oe|c op|c v|c tpl]; cbn [column] in *;
    [| | |done|by eapply set_step_own].
  all: unfold apply_step in Hs; cbn [column] in Hs; destruct Hq as [Hqw Hqe];
    destruct (has_own (row st) c && isMarker (obj_get (row st) c)) eqn:Hmk;
    [simplify_eq; bool_to_prop; right; by left|];
    destruct (has_own (row st) c) eqn:Hown; cbn [negb] in Hs.
  - destruct (mask _ _ _ _ _ _ _) as [x|] eqn:Hm; cbn in Hs; simplify_eq.
    cbn [row]. rewrite obj_get_set by done. by eapply mask_fits.
  - simplify_eq. by apply fits_missing.
  - destruct (cast to _) as [[x|]|] eqn:Hc; cbn in Hs; [|destruct (text _); destruct oe|done];
      cbn in Hs; simplify_eq; cbn in Hqw, Hqe;
      repeat match goal with H : _ ++ _ = [] |- _ => apply app_eq_nil in H as [? ?] end; try done.
    cbn [row]. rewrite obj_get_set by done. by eapply cast_fits.
  - simplify_eq. by apply fits_missing.
  - specialize (Hp c). destruct (obj_get (row st) c) eqn:Hv; simplify_eq;
      cbn [row plan_step]; try (rewrite Hv; exact Hp).
    rewrite obj_get_set by done. by apply text_op_fits.
  - destruct (obj_get (row st) c) eqn:Hv; simplify_eq; by apply fits_missing.
Qed.

Lemma plan_step_other m t c :
  c ≠ column t → planned_at (plan_step m t) c = planned_at m c.
Proof.
  intros Hc. unfold planned_at, plan_step.
  destruct t as [? [] ? ? ? ?|? ? ?|? ?|? ?|? tpl]; cbn [column] in Hc;
    try destruct (whole_token tpl) as [o|]; try destruct (startsWith "$" o);
    rewrite ?lookup_insert_ne by done; done.
Qed.

Lemma apply_step_plan ctx m t st st' :
  plain_step t = true → keysOnly ctx = false → no_dollar (row st) →
  apply_step ctx t st = Some st' → quiet st' → plan_holds m (row st) →
  plan_holds (plan_step m t) (row st') ∧ no_dollar (row st').
Proof.
  intros Hpl Hk Hd Hs Hq Hp. split.
  - intros c. destruct (decide (c = column t)) as [->|Hc]; [by eapply plan_step_own|].
    rewrite plan_step_other by done. specialize (Hp c).
    apply apply_step_effect in Hs as [->|(x & -> & _)]; [done|].
    unfold obj_get. by rewrite obj_find_set_ne.
  - intros k Hdk. unfold plain_step, plain_name in Hpl. bool_to_prop.
    apply apply_step_effect in Hs as [->|(x & -> & _)]; [by apply Hd|].
    rewrite obj_find_set_ne; [by apply Hd|]. by intros ->; congruence.
Qed.

Lemma apply_steps_plan ctx ts m st st' :
  forallb plain_step ts = true → keysOnly ctx = false → no_dollar (row st) →
  apply_steps ctx ts st = Some st' → quiet st' → plan_holds m (row st) →
  plan_holds (foldl plan_step m ts) (row st').
Proof.
  revert m st. induction ts as [|t ts IH]; cbn; intros m st Hpl Hk Hd Hs Hq Hp.
  - by simplify_eq.
  - apply andb_true_iff in Hpl as [Ht Hts].
    destruct (apply_step ctx t st) as [st1|] eqn:H1; [|done]. cbn in Hs.
    destruct (apply_step_plan ctx m t st st1) as [Hp1 Hd1]; try done;
      [by eapply apply_steps_quiet|]. by eapply IH.
Qed.
End planning.

(** C40. The type an auto-created column is planned with is the type of what is written
    to it, for steps that name ordinary columns and are not defaults (a default is not
    planned for, and can write a text to a column of numbers:
    [default_is_not_planned]): when they report neither a warning nor an error, a column
    with a transformed type holds a value of that type, [NULL] or a marker, and a copied
    column one of its origin's. *)
Theorem planned_types_sound `{JsHost} r ts ctx res c :
  forallb plain_step ts = true → keysOnly ctx = false → no_dollar r →
  applyColumnTransforms r (Some ts) ctx = Some res → cwarnings res = [] → errors res = [] →
  (∀ ty, transformedType (Some ts) c = Some ty → of_type ty (obj_get (row res) c) = true) ∧
  (∀ o, copiedColumn (Some ts) c = Some o →
     is_nil (obj_get (row res) c) = true ∨ is_sym (obj_get (row res) c) = true ∨
     type_tag (obj_get (row res) c) = type_tag (obj_get r o)).
Proof.
  intros Hpl Hk Hd Hs Hw He. unfold transformedType, copiedColumn, plan. cbn [default].
  assert (plan_holds r ∅ r) as H0.
  { intros k. right. right. unfold planned_at. by rewrite lookup_empty. }
  pose proof (apply_steps_plan r ctx ts ∅ {| row := r; cwarnings := []; errors := [] |} res Hpl Hk Hd Hs (conj Hw He) H0 c) as Hf.
  unfold planned_at in Hf. split; intros x Hx; destruct (_ !! c) as [[]|]; simplify_eq;
    cbn in Hf; [|done].
  destruct Hf as [Hf|[Hf|Hf]]; [| |done]; by destruct (obj_get (row res) c).
Qed.

(** ** Nullability *)

(** a step that can make a column NULL where [canBecomeNull] does not say so: a
    computed column, or a cast to JSON of the text [null] *)
Definition null_blind (c : string) (t : ColumnTransform) : bool :=
  bool_decide (column t = c) &&
  match t with SetCol _ _ | Cast _ to_json _ => true | _ => false end.

Section nulls.
Context `{JsHost}.

Lemma cast_not_nil to v x :
  to ≠ to_json → cast to v = Some (Some x) → is_nil v = false → is_nil x = false.
Proof.
  intros Hto Hc Hv. unfold cast in Hc. rewrite Hv in Hc. destruct to; [| | | | |done].
  - destruct (text v); simplify_option_eq. reflexivity.
  - destruct v; try discriminate Hv.
    all: try (destruct (text _) as [tx|]; cbn [mbind option_bind] in Hc; [|done];
      apply (cast_number_typed to_number) in Hc as (m & -> & _)).
    all: by simplify_eq.
  - destruct v; try discriminate Hv.
    all: try (destruct (text _) as [tx|]; cbn [mbind option_bind] in Hc; [|done];
      apply (cast_number_typed to_integer) in Hc as (m & -> & _)).
    all: by simplify_eq.
  - destruct v; try discriminate Hv.
    all: try (destruct (text _) as [tx|]; cbn [mbind option_bind] in Hc; [|done]).
    all: repeat case_match; by simplify_eq.
  - destruct v; try discriminate Hv.
    all: try (destruct (text _) as [tx|]; cbn [mbind option_bind] in Hc; [|done]).
    all: repeat case_match; simplify_option_eq; reflexivity.
Qed.

Lemma obj_get_set_own o c x : has_own o c = true → obj_get (obj_set o c x) c = x.
Proof. intros Ho. unfold obj_get. by rewrite obj_find_set_own. Qed.

Lemma not_nil_own o c : is_nil (obj_get o c) = false → has_own o c = true.
Proof.
  unfold obj_get. intros Hn. apply has_own_Some. by destruct (obj_find o c).
Qed.

Lemma apply_step_not_nil ctx t st st' c :
  apply_step ctx t st = Some st' → canBecomeNull (Some [t]) c = false → null_blind c t = false →
  is_nil (obj_get (row st) c) = false → is_nil (obj_get (row st') c) = false.
Proof.
  intros Hs Hcan Hblind Hc. destruct (decide (column t = c)) as [<-|Hne].
  2: { apply apply_step_effect in Hs as [->|(x & -> & _)]; [done|].
       unfold obj_get. by rewrite obj_find_set_ne. }
  pose proof (not_nil_own _ _ Hc) as Hown. unfold canBecomeNull, null_blind in *. cbn in Hcan.
  rewrite bool_decide_eq_true_2, andb_true_l, ?orb_false_r in Hcan, Hblind by done.
  unfold apply_step in Hs. rewrite Hown in Hs. cbn [andb negb orb] in Hs.
  destruct (isMarker _); [by simplify_eq|].
  destruct t as [? mode ks ke fill salt|? to oe|? op|? v|? tpl]; cbn [column] in *; try done.
  - destruct (mask _ _ _ _ _ _ _) as [x|] eqn:Hm; cbn in Hs; simplify_eq. cbn [row].
    rewrite obj_get_set_own by done. unfold mask in Hm. rewrite Hc in Hm.
    destruct mode; simplify_option_eq; done.
  - destruct (cast to _) as [[x|]|] eqn:Hx; cbn in Hs; [|destruct (text _); destruct oe|done];
      cbn in Hs; simplify_eq; cbn [row]; try done.
    rewrite obj_get_set_own by done. eapply cast_not_nil; [|done..]. by intros ->.
  - destruct (obj_get (row st) _) eqn:Hv; simplify_eq; cbn [row]; rewrite ?Hv; try done.
    by rewrite obj_get_set_own.
  - rewrite Hc in Hs. cbn in Hs. destruct (keysOnly ctx); by simplify_eq.
Qed.

Lemma canBecomeNull_cons t ts c :
  canBecomeNull (Some (t :: ts)) c = canBecomeNull (Some [t]) c || canBecomeNull (Some ts) c.
Proof. unfold canBecomeNull. cbn. by rewrite orb_false_r. Qed.

(** A column that [canBecomeNull] clears keeps every value it has, for steps
    that do not compute the column afresh and do not read JSON out of it. *)
Theorem canBecomeNull_sound r ts ctx res c :
  applyColumnTransforms r (Some ts) ctx = Some res →
  canBecomeNull (Some ts) c = false → existsb (null_blind c) ts = false →
  is_nil (obj_get r c) = false → is_nil (obj_get (row res) c) = false.
Proof.
  unfold applyColumnTransforms. cbn [default].
  change r with (row {| row := r; cwarnings := []; errors := [] |}) at 2.
  generalize {| row := r; cwarnings := []; errors := [] |} as st.
  induction ts as [|t ts IH]; intros st Hs Hcan Hb Hc; cbn in Hs; [by simplify_eq|].
  destruct (apply_step ctx t st) as [st1|] eqn:H1; [|done]. cbn in Hs, Hb.
  rewrite canBecomeNull_cons in Hcan. bool_to_prop.
  eapply IH; [done..|]. by eapply apply_step_not_nil.
Qed.
End nulls.

(** ** Concrete steps *)

#[local] Instance sample_host : JsHost := {| date_parse _ := None; local_offset _ := 0%Z |}.

Definition sample_steps : list ColumnTransform :=
  [Text "email" op_lower; Mask "email" partial 2 4 "*" None; Cast "n" to_number on_error_fail;
   SetCol "total" "{{n}}"; SetCol "who" "{{email}} of {{$table}}"].

Definition sample_ctx : ColumnTransformContext :=
  {| ctable := "users"; cnow := "now"; hash s := s; keysOnly := false |}.

Definition sample_source : obj :=
  [("email", VStr "Ann@Example.com"); ("n", VStr " 42 "); ("big", VSym "syncle.unchanged")].

Definition sample_result : ColumnTransformResult :=
  {| row := [("email", VStr "an*********.com"); ("n", VNum (num_of_Z 42));
             ("big", VSym "syncle.unchanged"); ("total", VNum (num_of_Z 42));
             ("who", VStr "an*********.com of users")];
     cwarnings := []; errors := [] |}.

Example sample_apply :
  applyColumnTransforms sample_source (Some sample_steps) sample_ctx = Some sample_result.
Proof. vm_compute. reflexivity. Qed.

Lemma apply_keeps_markers_witness :
  obj_find (row sample_result) "big" = Some (VSym "syncle.unchanged").
Proof.
  apply (apply_keeps_markers sample_source (Some sample_steps) sample_ctx); vm_compute; reflexivity.
Defined.

Lemma apply_columns_witness :
  obj_keys sample_source ⊆ obj_keys (row sample_result) ∧
  obj_keys (row sample_result) ⊆
    obj_keys sample_source ++ columnsAdded (Some sample_steps) (obj_keys sample_source).
Proof. apply (apply_columns _ _ sample_ctx). vm_compute. reflexivity. Defined.

Lemma partial_mask_hides_witness :
  partial_mask 1 1 "*" (chars "abcd") = partial_mask 1 1 "*" (chars "axyd") ∧
  length (partial_mask 1 1 "*" (chars "abcd")) = Nat.max 1 4.
Proof. apply (partial_mask_hides 1 1 "*" (chars "abcd") (chars "axyd")); cbn; [lia|done|done]. Defined.

Lemma cast_typed_witness :
  of_type (CAST_TYPES to_number) (VNum (num_of_Z 12)) = true ∧
  (∀ n, VNum (num_of_Z 12) = VNum n → to_number = to_number → is_finite n = true).
Proof. apply (cast_typed to_number (VStr "12")); vm_compute; reflexivity. Defined.

Lemma planned_types_sound_witness :
  (∀ ty, transformedType (Some sample_steps) "total" = Some ty →
     of_type ty (obj_get (row sample_result) "total") = true) ∧
  (∀ o, copiedColumn (Some sample_steps) "total" = Some o →
     is_nil (obj_get (row sample_result) "total") = true ∨
     is_sym (obj_get (row sample_result) "total") = true ∨
     type_tag (obj_get (row sample_result) "total") = type_tag (obj_get sample_source o)).
Proof.
  apply (planned_types_sound _ _ sample_ctx); try (vm_compute; reflexivity).
  intros k Hk. unfold sample_source. cbn [obj_find].
  repeat case_decide; subst; by vm_compute in Hk.
Defined.

Lemma canBecomeNull_sound_witness :
  is_nil (obj_get (row sample_result) "n") = false.
Proof.
  apply (canBecomeNull_sound sample_source sample_steps sample_ctx); vm_compute; reflexivity.
Defined.

(** a column that is never sent empty can still arrive NULL: the JSON text [null] *)
Example json_null_is_not_foreseen :
  canBecomeNull (Some [Cast "doc" to_json on_error_fail]) "doc" = false ∧
  (row <$> applyColumnTransforms [("doc", VStr "null")]
             (Some [Cast "doc" to_json on_error_fail]) sample_ctx) = Some [("doc", VNull)].
Proof. vm_compute. done. Qed.

(** a computed column that replaces a column of the source is not computed when
    the change left that column out; and nothing asks for it to be read back *)
Example computed_column_is_skipped :
  let steps := [SetCol "body" "{{title}}!"] in
  columnsRead (Some steps) = ["title"] ∧
  (row <$> applyColumnTransforms [("title", VStr "new"); ("body", VSym "syncle.unchanged")]
             (Some steps) sample_ctx)
  = Some [("title", VStr "new"); ("body", VSym "syncle.unchanged")].
Proof. vm_compute. done. Qed.

(** a default is written as it stands to a column whose type was planned before it: the
    column is a [bigint], what is written is a text, and nothing is said *)
Definition defaulted_steps : list ColumnTransform :=
  [Cast "n" to_integer on_error_fail; Default "n" (VStr "none")].

Example default_is_not_planned :
  transformedType (Some defaulted_steps) "n" = Some "bigint" ∧
  applyColumnTransforms [("n", VNull)] (Some defaulted_steps) sample_ctx =
    Some {| row := [("n", VStr "none")]; cwarnings := []; errors := [] |}.
Proof. vm_compute. done. Qed.
