(* ===== verification/RedisTarget.v ===== *)
(** A row as a Redis key: [packages/core/src/bridges/redis-target.ts]. *)
From S2P Require Import Prelude JsText JsNumber JsDate JsValue JsBytes Template.

(** ** Configuration *)

(** the columns a key template is built from, in the order they first appear *)
Definition redisKeyColumns (tpl : string) : list string :=
  set_of (filter (λ n, n ≠ EmptyString) (token_names key_token tpl)).

Inductive redis_type := redis_hash | redis_json | redis_string.

#[export] Instance redis_type_eq_dec : EqDecision redis_type.
Proof. solve_decision. Defined.

Record RedisTargetConfig := {
  keyTemplate : string;
  rtype : redis_type;
  valueColumn : option string;
  ttlSeconds : option Z
}.

(** [/\{\{\s*\}\}/.test(text)] *)
Fixpoint has_empty_token (l : list ascii) : bool :=
  match l with
  | [] => false
  | _ :: l' =>
      match open_braces l with
      | Some r => bool_decide (is_Some (close_braces (drop_while is_space r))) || has_empty_token l'
      | None => has_empty_token l'
      end
  end.

Definition trimmed_between (lo hi : nat) (s : string) : bool :=
  (lo <=? str_length (trim s)) && (str_length (trim s) <=? hi).

Definition some_value (o : option string) : bool :=
  match o with Some s => bool_decide (s ≠ EmptyString) | None => false end.

(** the parsed target ([trim]med as the schema says), or [None] where it is refused *)
Definition redisTargetSchema (raw : RedisTargetConfig) : option RedisTargetConfig :=
  let redis := {| keyTemplate := trim (keyTemplate raw); rtype := rtype raw;
                  valueColumn := trim <$> valueColumn raw; ttlSeconds := ttlSeconds raw |} in
  let fields_ok :=
    trimmed_between 1 512 (keyTemplate raw) &&
    match valueColumn raw with Some c => trimmed_between 1 200 c | None => true end &&
    match ttlSeconds raw with
    | Some t => (1 <=? t)%Z && (t <=? 10 * 365 * 24 * 3600)%Z
    | None => true
    end in
  let columns := redisKeyColumns (keyTemplate redis) in
  let issues :=
    bool_decide (columns = []) ||
    existsb (startsWith "$") columns ||
    has_empty_token (chars (keyTemplate redis)) ||
    match rtype redis with
    | redis_string => negb (some_value (valueColumn redis))
    | _ => some_value (valueColumn redis)
    end in
  if fields_ok && negb issues then Some redis else None.

(** ** Values *)

Inductive redis_value := RText (s : string) | RBytes (b : list Z).

Inductive redis_content :=
| HashOf (fields : list (string * option redis_value))
| StringOf (v : redis_value).

Record RedisRow := {
  key : string;
  value : redis_content;
  ttl : Z
}.

(** a thrown [RedisKeyError] *)
Record RedisKeyError := { etemplate : string; missing : list string }.

(** an element of [Uint8Array.from(data)]; [None] where it throws *)
Definition byte_of (v : jsval) : option Z :=
  match v with
  | VNum n => Some (trunc_Z n mod 256)%Z
  | VBool b => Some (if b then 1 else 0)%Z
  | VStr s => Some (trunc_Z (string_to_num s) mod 256)%Z
  | VDate (Some t) => Some (t mod 256)%Z
  | VBig _ | VSym _ => None
  | _ => Some 0%Z
  end.

(** a [Buffer] that was turned into JSON *)
Definition buffer_data (o : obj) : option (list jsval) :=
  if strict_eq (obj_get o "type") (VStr "Buffer") then
    match obj_get o "data" with VArr l => Some l | _ => None end
  else None.

(** the replacer of [JSON.stringify(value, jsonSafe)], applied throughout the tree *)
Fixpoint jsonSafe (v : jsval) : option jsval :=
  match v with
  | VBig z => Some (VStr (Z_to_string z))
  | VBytes b => Some (VStr (base64 b))
  | VArr l => VArr <$> (fix go (l : list jsval) : option (list jsval) :=
      match l with
      | [] => Some []
      | x :: l' => y ← jsonSafe x; ys ← go l'; Some (y :: ys)
      end) l
  | VObj o =>
      match buffer_data o with
      | Some data => bs ← mapM byte_of data; Some (VStr (base64 bs))
      | None => VObj <$> (fix go (o : obj) : option obj :=
          match o with
          | [] => Some []
          | (k, x) :: o' => y ← jsonSafe x; ys ← go o'; Some ((k, y) :: ys)
          end) o
      end
  | _ => Some v
  end.

Definition stringify_safe (v : jsval) : option string :=
  w ← jsonSafe v; match stringify w with JText s => Some s | _ => None end.

(** the outer [option]: it may throw; the inner one: there is no NULL in Redis *)
Definition redisText (v : jsval) : option (option redis_value) :=
  match v with
  | VUndef | VNull => Some None
  | VStr s => Some (Some (RText s))
  | VNum _ | VBig _ | VBool _ => Some (Some (RText (prim_text v)))
  | VDate t => Some ((λ t, RText (toISOString t)) <$> t)
  | VBytes b => Some (Some (RBytes b))
  | VSym _ => Some None
  | VArr _ | VObj _ => s ← stringify_safe v; Some (Some (RText s))
  end.

(** ** Keys *)

(** what a token contributes to the key; [inr] when the row has nothing for it *)
Definition key_part (row : obj) (name : string) : option (string + string) :=
  text ← redisText (obj_get row name);
  Some (match text with
        | None => inr name
        | Some (RText s) => if decide (s = EmptyString) then inr name else inl s
        | Some (RBytes b) => inl (hex_text b)
        end).

Fixpoint key_pieces (row : obj) (ps : list piece) : option (list ascii * list string) :=
  match ps with
  | [] => Some ([], [])
  | Lit c :: ps' => '(r, m) ← key_pieces row ps'; Some (c :: r, m)
  | Tok n :: ps' =>
      part ← key_part row n;
      '(r, m) ← key_pieces row ps';
      Some (match part with inl s => (chars s ++ r, m) | inr n => (r, n :: m) end)
  end.

(** [None]: a value has no text at all *)
Definition renderRedisKey (tpl : string) (row : obj) : option (string + RedisKeyError) :=
  '(r, m) ← key_pieces row (pieces key_token tpl);
  Some (match m with
        | [] => inl (of_chars r)
        | _ => inr {| etemplate := tpl; missing := set_of m |}
        end).

Fixpoint hash_fields (row : obj) : option (list (string * option redis_value)) :=
  match row with
  | [] => Some []
  | (c, v) :: row' => t ← redisText v; r ← hash_fields row'; Some ((c, t) :: r)
  end.

Definition json_document (row : obj) : jsval :=
  VObj (foldl (λ d kv, obj_set d kv.1 (if is_sym kv.2 || is_undef kv.2 then VNull else kv.2)) [] row).

Definition toRedisRow (config : RedisTargetConfig) (row : obj)
  : option (RedisRow + RedisKeyError) :=
  k ← renderRedisKey (keyTemplate config) row;
  match k with
  | inr e => Some (inr e)
  | inl key =>
      content ←
        match rtype config with
        | redis_hash => f ← hash_fields row; Some (HashOf f)
        | redis_json => s ← stringify_safe (json_document row); Some (StringOf (RText s))
        | redis_string =>
            t ← redisText (match valueColumn config with
                           | Some c => obj_get row c | None => VUndef end);
            Some (StringOf (default (RText EmptyString) t))
        end;
      Some (inl {| key := key; value := content; ttl := default 0%Z (ttlSeconds config) |})
  end.

(** ** Facts *)

Lemma key_pieces_agree row1 row2 ps :
  (∀ n, n ∈ omap token_name ps → obj_get row1 n = obj_get row2 n) →
  key_pieces row1 ps = key_pieces row2 ps.
Proof.
  induction ps as [|[c|n] ps IH]; cbn; intros Ha; [done|by rewrite IH|].
  unfold key_part. rewrite (Ha n) by apply list_elem_of_here.
  rewrite IH; [done|]. intros m Hm. apply Ha. by apply list_elem_of_further.
Qed.

(** the columns a row has no text for are the ones an error names *)
Definition lacks (row : obj) (n : string) : bool :=
  match redisText (obj_get row n) with
  | Some None => true
  | Some (Some (RText s)) => bool_decide (s = EmptyString)
  | _ => false
  end.

Lemma key_pieces_missing row ps r m :
  key_pieces row ps = Some (r, m) → m = filter (λ n, lacks row n) (omap token_name ps).
Proof.
  revert r m. induction ps as [|[c|n] ps IH]; intros r m Hk; cbn in Hk; [by simplify_eq| |].
  - destruct (key_pieces row ps) as [[r' m']|]; simplify_option_eq. by apply (IH r').
  - unfold key_part in Hk.
    change (omap token_name (Tok n :: ps)) with (n :: omap token_name ps).
    destruct (lacks row n) eqn:Hl;
      [rewrite filter_cons_True by (by rewrite Hl)|rewrite filter_cons_False by (rewrite Hl; by intros [])];
      unfold lacks in Hl; destruct (redisText (obj_get row n)) as [t|]; cbn in Hk; try done;
      destruct (key_pieces row ps) as [[r' m']|]; cbn in Hk; try done;
      rewrite <- (IH _ _ eq_refl); destruct t as [[s|b]|]; simplify_eq; try done;
      case_decide; bool_to_prop; by simplify_eq.
Qed.

(** Rows that agree on the columns a key is built from are the same key: an
    update that leaves [redisKeyColumns] alone never moves the row. *)
Theorem key_depends_on_key_columns tpl row1 row2 :
  (∀ n, n ∈ redisKeyColumns tpl → obj_get row1 n = obj_get row2 n) →
  obj_get row1 EmptyString = obj_get row2 EmptyString →
  renderRedisKey tpl row1 = renderRedisKey tpl row2.
Proof.
  intros Ha He. unfold renderRedisKey. rewrite (key_pieces_agree row1 row2); [done|].
  intros n Hn. destruct (decide (n = EmptyString)) as [->|Hne]; [done|].
  apply Ha. unfold redisKeyColumns. apply elem_of_set_of, list_elem_of_filter. done.
Qed.

(** No key is ever built around a hole: a key comes out only when every column
    of the template has a text, and the error otherwise names exactly the columns
    that have none, each once. *)
Theorem renderRedisKey_complete tpl row out :
  renderRedisKey tpl row = Some out →
  let holes := filter (λ n, lacks row n) (token_names key_token tpl) in
  match out with
  | inl _ => holes = []
  | inr e => holes ≠ [] ∧ missing e = set_of holes ∧ NoDup (missing e)
  end.
Proof.
  unfold renderRedisKey. intros Hr.
  destruct (key_pieces row (pieces key_token tpl)) as [[r m]|] eqn:Hk; cbn in Hr; [|done].
  apply key_pieces_missing in Hk. unfold token_names. rewrite <- Hk.
  destruct m as [|n m]; simplify_eq; [done|]. cbn [missing].
  split; [done|]. split; [done|]. apply NoDup_set_of.
Qed.

(** A target the schema accepts is keyed on at least one ordinary column, never
    on a built-in such as [$now], and a string key says which column it holds. *)
Theorem redisTargetSchema_sound raw c :
  redisTargetSchema raw = Some c →
  redisKeyColumns (keyTemplate c) ≠ [] ∧
  Forall (λ n, startsWith "$" n = false) (redisKeyColumns (keyTemplate c)) ∧
  (rtype c = redis_string ↔ some_value (valueColumn c) = true) ∧
  match ttlSeconds c with Some t => (1 <= t <= 315360000)%Z | None => True end.
Proof.
  unfold redisTargetSchema. case_match eqn:Hok; [|done]. intros [= <-]. cbn.
  apply andb_true_iff in Hok as [Hf Hi]. rewrite negb_true_iff, !orb_false_iff in Hi.
  destruct Hi as (((Hne & Hd) & _) & Ht). rewrite !andb_true_iff in Hf.
  destruct Hf as ((_ & _) & Httl). split_and!.
  - by apply bool_decide_eq_false in Hne.
  - rewrite Forall_forall. intros n Hn. destruct (startsWith "$" n) eqn:Hs; [|done].
    exfalso. revert Hd. apply not_false_iff_true, existsb_exists. exists n. split; [by apply list_elem_of_In|done].
  - cbn in Ht. destruct (rtype raw); rewrite ?Ht; try done. by apply negb_false_iff in Ht.
  - destruct (ttlSeconds raw); [|done]. bool_to_prop. lia.
Qed.

(** ** Concrete keys *)

Definition sample_config : RedisTargetConfig :=
  {| keyTemplate := " tenant:{{ t }}:user:{{id}} "; rtype := redis_hash; valueColumn := None;
     ttlSeconds := Some 60%Z |}.

Example sample_schema :
  redisTargetSchema sample_config =
  Some {| keyTemplate := "tenant:{{ t }}:user:{{id}}"; rtype := redis_hash; valueColumn := None;
          ttlSeconds := Some 60%Z |}.
Proof. vm_compute. reflexivity. Qed.

Example sample_row :
  toRedisRow {| keyTemplate := "u:{{id}}"; rtype := redis_json; valueColumn := None; ttlSeconds := None |}
    [("id", VBig 9); ("b", VBytes [1; 2]%Z); ("x", VSym "syncle.unchanged")]
  = Some (inl {| key := "u:9"; ttl := 0%Z;
      value := StringOf (RText (dq
                 "{'id':'9','b':'AQI=','x':null}")) |}).
Proof. vm_compute. reflexivity. Qed.

Lemma key_depends_on_key_columns_witness :
  renderRedisKey "u:{{id}}" [("id", VStr "1"); ("n", VStr "a")] =
  renderRedisKey "u:{{id}}" [("id", VStr "1"); ("n", VStr "b")].
Proof.
  apply key_depends_on_key_columns; [|done].
  assert (redisKeyColumns "u:{{id}}" = ["id"]) as -> by (vm_compute; reflexivity).
  intros n ->%list_elem_of_singleton. reflexivity.
Defined.

Lemma renderRedisKey_complete_witness :
  let holes := filter (λ n, lacks [("id", VNull)] n) (token_names key_token "{{id}}:{{id}}") in
  holes ≠ [] ∧ ["id"] = set_of holes ∧ NoDup ["id"].
Proof.
  apply (renderRedisKey_complete "{{id}}:{{id}}" [("id", VNull)]
           (inr {| etemplate := "{{id}}:{{id}}"; missing := ["id"] |})).
  vm_compute. reflexivity.
Defined.

Lemma redisTargetSchema_sound_witness :
  redisKeyColumns "tenant:{{ t }}:user:{{id}}" ≠ [] ∧
  Forall (λ n, startsWith "$" n = false) (redisKeyColumns "tenant:{{ t }}:user:{{id}}") ∧
  (redis_hash = redis_string ↔ some_value None = true) ∧ (1 <= 60 <= 315360000)%Z.
Proof.
  apply (redisTargetSchema_sound sample_config
    {| keyTemplate := "tenant:{{ t }}:user:{{id}}"; rtype := redis_hash; valueColumn := None;
       ttlSeconds := Some 60%Z |}).
  vm_compute. reflexivity.
Defined.
