(* ===== verification/Schedule.v ===== *)
(** Cron lines of scheduled replays: [packages/core/src/bridges/schedule.ts].

    A problem is a constructor with the text it is about; the sentence shown for
    it is left out.  What the runtime knows about time zones is a parameter. *)
From S2P Require Import Prelude JsText JsNumber.

Record FieldRule := {
  name : string;
  min : Z;
  max : Z;
  names : list string;
  (** [rule.names === MONTHS ? at + 1 : at] *)
  first_name : Z
}.

Definition MONTHS : list string :=
  ["jan"; "feb"; "mar"; "apr"; "may"; "jun"; "jul"; "aug"; "sep"; "oct"; "nov"; "dec"].
Definition DAYS : list string := ["sun"; "mon"; "tue"; "wed"; "thu"; "fri"; "sat"].

Definition FIELDS : list FieldRule :=
  [ {| name := "minute"; min := 0; max := 59; names := []; first_name := 0 |};
    {| name := "hour"; min := 0; max := 23; names := []; first_name := 0 |};
    {| name := "day of month"; min := 1; max := 31; names := []; first_name := 0 |};
    {| name := "month"; min := 1; max := 12; names := MONTHS; first_name := 1 |};
    {| name := "day of week"; min := 0; max := 7; names := DAYS; first_name := 0 |} ].

(** [/^\d{1,2}$/] *)
Definition one_or_two_digits (s : string) : bool :=
  let l := chars s in
  forallb is_digit l && ((length l =? 1) || (length l =? 2)).

Definition number_of (s : string) : Z := digits_value (chars s).

Definition find_name (ns : list string) (s : string) : option nat :=
  fst <$> list_find (λ n, n = s) ns.

(** a number or a name of the field, as a number *)
Definition valueOf (text : string) (rule : FieldRule) : option Z :=
  if one_or_two_digits text then
    let n := number_of text in
    if (min rule <=? n)%Z && (n <=? max rule)%Z then Some n else None
  else (λ at_, (Z.of_nat at_ + first_name rule)%Z) <$> find_name (names rule) (toLowerCase text).

Inductive Problem :=
| NotA (part : string) (rule : FieldRule)
| BadStep (step : string) (rule : FieldRule)
| NotARange (range : string) (rule : FieldRule)
| OutOfRange (range : string) (rule : FieldRule)
| Backwards (range : string)
| LoneStep (part : string)
| SixFields
| FieldCount (n : nat).

Definition step_ok (step : string) (rule : FieldRule) : bool :=
  one_or_two_digits step && (1 <=? number_of step)%Z && (number_of step <=? max rule)%Z.

Definition range_problem (part range : string) (step : option string) (rule : FieldRule)
  : option Problem :=
  if decide (range = "*") then None
  else
    let ends := split_on "-" range in
    if 2 <? length ends then Some (NotARange range rule)
    else
      let values := (λ e, valueOf e rule) <$> ends in
      match mapM id values with
      | None => Some (OutOfRange range rule)
      | Some vs =>
          match vs with
          | [a; b] => if (b <? a)%Z then Some (Backwards range) else None
          | _ => match step with
                 | Some _ => Some (LoneStep part)
                 | None => None
                 end
          end
      end.

Definition partProblem (part : string) (rule : FieldRule) : option Problem :=
  match split_on "/" part with
  | [] => Some (NotA part rule)
  | range :: rest =>
      match rest with
      | _ :: _ :: _ => Some (NotA part rule)
      | _ =>
          if decide (range = EmptyString) then Some (NotA part rule)
          else
            let step := head rest in
            match step with
            | Some s => if step_ok s rule then range_problem part range step rule
                        else Some (BadStep s rule)
            | None => range_problem part range step rule
            end
      end
  end.

(** the first part at fault *)
Fixpoint first_problem (parts : list string) (rule : FieldRule) : option Problem :=
  match parts with
  | [] => None
  | p :: ps => match partProblem p rule with
               | Some x => Some x
               | None => first_problem ps rule
               end
  end.

Fixpoint fields_problem (fields : list string) (rules : list FieldRule) : option Problem :=
  match fields, rules with
  | f :: fs, r :: rs =>
      match first_problem (split_on "," f) r with
      | Some x => Some x
      | None => fields_problem fs rs
      end
  | _, _ => None
  end.

Definition cronProblem (line : string) : option Problem :=
  let fields := words line in
  if length fields =? 6 then Some SixFields
  else if negb (length fields =? 5) then Some (FieldCount (length fields))
  else fields_problem fields FIELDS.

(** ** The stored schedule *)

Section zones.
(** [new Intl.DateTimeFormat('en', { timeZone })] does not throw *)
Variable known_zone : string → bool.

Definition is_letter_or_underscore (c : ascii) : bool := is_alpha c || (code c =? 95)%N.
Definition zone_char (c : ascii) : bool :=
  is_alpha c || is_digit c || (code c =? 95)%N || (code c =? 43)%N || (code c =? 45)%N.

(** [/^(UTC|[A-Za-z_]+(\/[A-Za-z0-9_+-]+)+)$/] *)
Definition zone_shape (zone : string) : bool :=
  bool_decide (zone = "UTC") ||
  match split_on "/" zone with
  | area :: (_ :: _) as rest =>
      bool_decide (area ≠ EmptyString) && forallb is_letter_or_underscore (chars area) &&
      forallb (λ p, bool_decide (p ≠ EmptyString) && forallb zone_char (chars p)) (tail rest)
  | _ => false
  end.

Definition isValidTimeZone (zone : string) : bool := zone_shape zone && known_zone zone.

Record ReplaySchedule := {
  cron : string;
  timezone : string;
  enabled : bool
}.

(** [line.split(/\s+/).join(' ')] of a trimmed line *)
Definition one_spelling (line : string) : string := join " " (words line).

(** the parsed schedule, or [None] where it is refused *)
Definition replayScheduleSchema (raw : ReplaySchedule) : option ReplaySchedule :=
  let line := trim (cron raw) in
  let zone := trim (timezone raw) in
  if (str_length line <=? 120) && bool_decide (cronProblem line = None) &&
     (str_length zone <=? 64) && isValidTimeZone zone
  then Some {| cron := one_spelling line; timezone := zone; enabled := enabled raw |}
  else None.
End zones.

(** ** The classic syntax, as a grammar *)

Inductive cron_part (rule : FieldRule) : string → Prop :=
| part_any : cron_part rule "*"
| part_any_step s : step_ok s rule = true → cron_part rule ("*" +:+ "/" +:+ s)
| part_value v n : valueOf v rule = Some n → cron_part rule v
| part_range a b m n :
    valueOf a rule = Some m → valueOf b rule = Some n → (m <= n)%Z →
    cron_part rule (a +:+ "-" +:+ b)
| part_range_step a b m n s :
    valueOf a rule = Some m → valueOf b rule = Some n → (m <= n)%Z → step_ok s rule = true →
    cron_part rule ((a +:+ "-" +:+ b) +:+ "/" +:+ s).

(** a text without the two separators and without a star *)
Definition plain (s : string) : Prop :=
  ("/"%char ∉ chars s) ∧ ("-"%char ∉ chars s) ∧ s ≠ "*" ∧ s ≠ EmptyString.

Lemma digits_plain s : one_or_two_digits s = true → plain s.
Proof.
  unfold one_or_two_digits, plain. intros [Hd Hl]%andb_true_iff.
  rewrite forallb_forall in Hd.
  assert (∀ c, c ∈ chars s → is_digit c = true) as Hd' by (intros c Hc; by apply Hd, list_elem_of_In).
  split_and!; [by intros ?%Hd'|by intros ?%Hd'| |by intros ->].
  intros ->. discriminate (Hd' "*"%char (list_elem_of_here _ _)).
Qed.

Lemma names_plain rule s :
  rule ∈ FIELDS → toLowerCase s ∈ names rule → plain s.
Proof.
  intros Hr Hs.
  assert (Forall (λ n, negb (bool_decide ("/"%char ∈ chars n)) &&
                       negb (bool_decide ("-"%char ∈ chars n)) &&
                       bool_decide (n ≠ "*") && bool_decide (n ≠ EmptyString) = true)
            (MONTHS ++ DAYS)) as Hall by (vm_compute; repeat constructor).
  assert (toLowerCase s ∈ MONTHS ++ DAYS) as Hin.
  { unfold FIELDS in Hr. rewrite !elem_of_cons, elem_of_nil in Hr.
    destruct Hr as [->|[->|[->|[->|[->|[]]]]]]; cbn [names] in Hs;
      [by apply elem_of_nil in Hs..| |]; apply elem_of_app; auto. }
  rewrite Forall_forall in Hall. apply Hall in Hin. bool_to_prop.
  assert (∀ c, c ∈ chars s → lower_char c ∈ chars (toLowerCase s)) as Hlow.
  { intros c Hc. unfold toLowerCase, map_chars. rewrite chars_of_chars.
    apply list_elem_of_fmap. eauto. }
  split_and!; [by intros ?%Hlow|by intros ?%Hlow|by intros ->|by intros ->].
Qed.

Lemma valueOf_plain v rule n : rule ∈ FIELDS → valueOf v rule = Some n → plain v.
Proof.
  unfold valueOf. intros Hr Hv. destruct (one_or_two_digits v) eqn:Hd; [by apply digits_plain|].
  eapply names_plain; [done|]. unfold find_name in Hv.
  destruct (list_find _ _) as [[i x]|] eqn:Hf; [|done].
  apply list_find_Some in Hf as (Hi & -> & _). by eapply list_elem_of_lookup_2.
Qed.

Lemma split_plain c s : c ∉ chars s → split_on c s = [s].
Proof.
  intros Hc. rewrite (split_on_unique c s [chars s]); [|done|by repeat constructor|done].
  cbn. by rewrite of_chars_chars.
Qed.

Lemma split_two c a b :
  c ∉ chars a → c ∉ chars b → split_on c (a +:+ String c EmptyString +:+ b) = [a; b].
Proof.
  intros Ha Hb. rewrite (split_on_unique c _ [chars a; chars b]);
    [|done|by repeat constructor|by rewrite !chars_app].
  cbn. by rewrite !of_chars_chars.
Qed.

Lemma range_problem_value rule part v n :
  rule ∈ FIELDS → valueOf v rule = Some n → range_problem part v None rule = None.
Proof.
  intros Hr Hv. destruct (valueOf_plain _ _ _ Hr Hv) as (_ & Hd & Hs & _).
  unfold range_problem. rewrite decide_False, split_plain by done. cbn. by rewrite Hv.
Qed.

Lemma dash_not_star a b : (a +:+ "-" +:+ b) ≠ "*".
Proof.
  intros H%(f_equal chars). rewrite !chars_app in H.
  destruct (chars a) as [|x l]; [discriminate H|]. by destruct l.
Qed.

Lemma range_problem_range rule part a b m n step :
  rule ∈ FIELDS → valueOf a rule = Some m → valueOf b rule = Some n → (m <= n)%Z →
  range_problem part (a +:+ "-" +:+ b) step rule = None.
Proof.
  intros Hr Ha Hb Hle. destruct (valueOf_plain _ _ _ Hr Ha) as (_ & Hda & _ & _).
  destruct (valueOf_plain _ _ _ Hr Hb) as (_ & Hdb & _ & _).
  unfold range_problem. rewrite decide_False by apply dash_not_star.
  rewrite split_two by done. cbn. rewrite Ha, Hb. cbn. by rewrite (proj2 (Z.ltb_ge n m)).
Qed.

Lemma range_no_slash a b rule m n :
  rule ∈ FIELDS → valueOf a rule = Some m → valueOf b rule = Some n →
  ("/"%char ∉ chars (a +:+ "-" +:+ b)) ∧ (a +:+ "-" +:+ b) ≠ EmptyString.
Proof.
  intros Hr (Ha & _ & _ & Hne)%valueOf_plain (Hb & _)%valueOf_plain; [|done..]. split.
  - rewrite !chars_app, !elem_of_app. intros [?|[?|?]]; [done| |done].
    by apply list_elem_of_singleton in H.
  - intros H%(f_equal chars). rewrite !chars_app in H. by destruct (chars a).
Qed.

Lemma step_ok_plain s rule : step_ok s rule = true → "/"%char ∉ chars s.
Proof. unfold step_ok. intros H. bool_to_prop. by apply digits_plain. Qed.

Lemma cron_part_accepted rule part :
  rule ∈ FIELDS → cron_part rule part → partProblem part rule = None.
Proof.
  intros Hr Hp. unfold partProblem. destruct Hp as [|s Hs|v n Hv|a b m n Ha Hb Hle|a b m n s Ha Hb Hle Hs].
  - done.
  - rewrite (split_two "/" "*" s); [|by apply (bool_decide_unpack _)|by eapply step_ok_plain].
    cbn [head]. rewrite decide_False, Hs by done. done.
  - destruct (valueOf_plain _ _ _ Hr Hv) as (H1 & _ & _ & H2).
    rewrite split_plain, decide_False by done. by eapply range_problem_value.
  - destruct (range_no_slash _ _ _ _ _ Hr Ha Hb) as [H1 H2].
    rewrite split_plain, decide_False by done. by eapply range_problem_range.
  - destruct (range_no_slash _ _ _ _ _ Hr Ha Hb) as [H1 H2].
    rewrite (split_two "/"); [|done|by eapply step_ok_plain].
    cbn [head]. rewrite decide_False, Hs by done. by eapply range_problem_range.
Qed.

(** what a range without a problem is made of *)
Lemma range_problem_inv rule part range step :
  range_problem part range step rule = None →
  range = "*" ∨
  (∃ n, step = None ∧ valueOf range rule = Some n) ∨
  (∃ a b m n, range = (a +:+ "-" +:+ b) ∧ valueOf a rule = Some m ∧ valueOf b rule = Some n ∧
              (m <= n)%Z).
Proof.
  unfold range_problem. case_decide as Hs; [by left|]. intros H. right.
  destruct (split_on_spec "-" range) as (ps & Heq & Hne & Hj & Hf). rewrite Heq in H.
  destruct ps as [|p [|q [|r ps]]]; [done| | |done]; cbn in H, Hj.
  - left. rewrite <- Hj, of_chars_chars in H.
    destruct (valueOf range rule) as [n|]; [|done]. cbn in H.
    destruct step; [done|]. eauto.
  - right. exists (of_chars p), (of_chars q).
    destruct (valueOf (of_chars p) rule) as [m|]; [|done]. cbn in H.
    destruct (valueOf (of_chars q) rule) as [n|]; [|done]. cbn in H.
    destruct (n <? m)%Z eqn:Hlt; [done|]. bool_to_prop. exists m, n. split_and!; try done.
    apply chars_inj. by rewrite Hj, !chars_app, !chars_of_chars.
Qed.

Lemma accepted_cron_part rule part : partProblem part rule = None → cron_part rule part.
Proof.
  unfold partProblem. intros H.
  destruct (split_on_spec "/" part) as (ps & Heq & Hne & Hj & Hf). rewrite Heq in H.
  destruct ps as [|p [|q [|r ps]]]; [done| | |done]; cbn in H, Hj;
    destruct (decide (of_chars p = EmptyString)) as [|Hp]; try done.
  - rewrite <- Hj, of_chars_chars in H.
    apply range_problem_inv in H as [->|[(n0 & _ & Hn)|(a & b & m & n & -> & Ha & Hb & Hle)]];
      eauto using cron_part.
  - assert (part = (of_chars p +:+ "/" +:+ of_chars q)) as ->.
    { apply chars_inj. by rewrite Hj, !chars_app, !chars_of_chars. }
    destruct (step_ok (of_chars q) rule) eqn:Hs; [|done].
    apply range_problem_inv in H as [->|[(n0 & ? & Hn)|(a & b & m & n & -> & Ha & Hb & Hle)]];
      [by apply part_any_step|done|by eapply part_range_step].
Qed.

Lemma first_problem_None parts rule :
  first_problem parts rule = None ↔ Forall (λ p, partProblem p rule = None) parts.
Proof.
  induction parts as [|p ps IH]; cbn; [done|]. rewrite Forall_cons, <- IH.
  destruct (partProblem p rule); [split; [done|by intros []]|]. tauto.
Qed.

(** a line of the classic syntax: five fields of comma-separated parts *)
Definition cron_line (line : string) : Prop :=
  Forall2 (λ f r, Forall (cron_part r) (split_on "," f)) (words line) FIELDS.

Lemma fields_problem_None fs rs :
  rs ⊆ FIELDS → length fs = length rs →
  fields_problem fs rs = None ↔ Forall2 (λ f r, Forall (cron_part r) (split_on "," f)) fs rs.
Proof.
  revert rs. induction fs as [|f fs IH]; intros [|r rs] Hin Hlen; try done; cbn.
  assert (r ∈ FIELDS) as Hr by (apply Hin, list_elem_of_here).
  rewrite Forall2_cons. rewrite <- IH by (try (cbn in Hlen; lia); set_solver).
  assert (first_problem (split_on "," f) r = None ↔ Forall (cron_part r) (split_on "," f)) as Hf.
  { rewrite first_problem_None. split; intros Hall; apply (Forall_impl _ _ _ Hall); intros p;
      [apply accepted_cron_part|by apply cron_part_accepted]. }
  destruct (first_problem (split_on "," f) r); [|tauto].
  split; [done|]. intros [H _]. by apply Hf in H.
Qed.

(** The check is the grammar: a line is accepted exactly when it is five
    fields of the classic syntax, every number and name in its field's range and
    no range running backwards. *)
Theorem cronProblem_spec line : cronProblem line = None ↔ cron_line line.
Proof.
  unfold cronProblem, cron_line. destruct (length (words line) =? 6) eqn:H6; bool_to_prop.
  { split; [done|]. intros H%Forall2_length. rewrite H6 in H. done. }
  destruct (length (words line) =? 5) eqn:H5; bool_to_prop; cbn [negb].
  - by apply fields_problem_None.
  - split; [done|]. by intros H%Forall2_length.
Qed.

(** What is stored is one spelling of the line: it is still accepted, means the
    same fields, and storing it again changes nothing. *)
Theorem replayScheduleSchema_canonical known raw s :
  replayScheduleSchema known raw = Some s →
  cron_line (cron s) ∧ words (cron s) = words (trim (cron raw)) ∧
  one_spelling (cron s) = cron s ∧ isValidTimeZone known (timezone s) = true.
Proof.
  unfold replayScheduleSchema. case_match eqn:H; [|done]. intros [= <-]. cbn [cron timezone].
  bool_to_prop. unfold one_spelling. rewrite !words_join. split_and!; try done.
  apply cronProblem_spec in H2. unfold cron_line in *. by rewrite words_join.
Qed.

(** ** Concrete lines *)

Example cron_samples :
  cronProblem <$> ["0 2 * * *"; "*/15 8-18 * * mon-fri"; "0 0 1,15 1-12/3 *"; " 5  4 * * sun "]
  = [None; None; None; None].
Proof. vm_compute. reflexivity. Qed.

Example cron_refusals :
  (λ l, match cronProblem l with
        | Some (OutOfRange r _) => "range " +:+ r | Some (Backwards r) => "backwards " +:+ r
        | Some (LoneStep p) => "step " +:+ p | Some SixFields => "six"
        | Some (FieldCount n) => "count " +:+ pretty n | Some (BadStep s _) => "bad step " +:+ s
        | Some _ => "other" | None => "ok" end)
    <$> ["60 * * * *"; "0 0 * * fri-mon"; "5/15 * * * *"; "0 0 2 * * *"; "* * *"; "*/0 * * * *"]
  = ["range 60"; "backwards fri-mon"; "step 5/15"; "six"; "count 3"; "bad step 0"].
Proof. vm_compute. reflexivity. Qed.

Definition sample_schedule : ReplaySchedule :=
  {| cron := "  0   2 * *  mon-fri "; timezone := "Europe/Rome"; enabled := true |}.

Lemma replayScheduleSchema_canonical_witness :
  cron_line "0 2 * * mon-fri" ∧ words "0 2 * * mon-fri" = words (trim (cron sample_schedule)) ∧
  one_spelling "0 2 * * mon-fri" = "0 2 * * mon-fri" ∧
  isValidTimeZone (λ z, bool_decide (z = "Europe/Rome")) "Europe/Rome" = true.
Proof.
  apply (replayScheduleSchema_canonical (λ z, bool_decide (z = "Europe/Rome")) sample_schedule
    {| cron := "0 2 * * mon-fri"; timezone := "Europe/Rome"; enabled := true |}).
  vm_compute. reflexivity.
Defined.
