(* ===== verification/BridgeConfig.v ===== *)
(** What a bridge is configured with: [packages/core/src/bridges/bridge-config.ts]
    (and [filterSchema], [sortSchema] of [packages/core/src/validation.ts]).

    A schema is a function from the raw value, with its defaults filled in and its
    numbers coerced, to the parsed value, or [None] where an issue is raised. *)
From S2P Require Import Prelude JsText JsNumber JsDate JsValue Template.
From S2P Require Import ColumnTransforms RedisTarget Schedule.

Local Open Scope Z_scope.

(** ** Source *)

Inductive operator :=
| op_eq | op_neq | op_lt | op_lte | op_gt | op_gte
| op_contains | op_startsWith | op_endsWith | op_isNull | op_notNull | op_in.

Record FilterSpec := { fcolumn : string; foperator : operator; fvalue : jsval }.

Inductive direction := asc | desc.
Record SortSpec := { scolumn : string; sdirection : direction }.

Record TableSource := {
  connectionId : string;
  database : option string;
  schema : option string;
  table : string;
  filters : option (list FilterSpec);
  sort : option (list SortSpec)
}.

Record QuerySource := {
  qconnectionId : string;
  qdatabase : option string;
  statement : string
}.

Inductive BridgeSource :=
| FromTable (t : TableSource)
| FromQuery (q : QuerySource).

Definition nonempty (s : string) : bool := bool_decide (s ≠ EmptyString).

Definition bridgeSourceSchema (s : BridgeSource) : bool :=
  match s with
  | FromTable t => nonempty (connectionId t) && nonempty (table t)
  | FromQuery q => nonempty (qconnectionId q) && nonempty (statement q)
  end.

(** ** Destination *)

Inductive BridgeAuth :=
| NoAuth
| Bearer (token : string)
| HeaderAuth (name value : string).

Definition bridgeAuthSchema (a : BridgeAuth) : bool :=
  match a with HeaderAuth n _ => nonempty n | _ => true end.

Inductive http_method := POST | PUT | PATCH.

Record HttpDestination := {
  url : string;
  method : http_method;
  headers : option (list (string * string));
  auth : BridgeAuth;
  idempotency : bool
}.

Record ColumnMapping := { msource : string; mtarget : string }.

Inductive DeletePolicy := delete_row | soft_delete | ignore_delete.
#[export] Instance DeletePolicy_eq_dec : EqDecision DeletePolicy.
Proof. solve_decision. Defined.

Inductive soft_value := soft_timestamp | soft_boolean.
Record SoftDelete := { softColumn : string; softValue : soft_value }.

Inductive write_mode := upsert | insert_only.
#[export] Instance write_mode_eq_dec : EqDecision write_mode.
Proof. solve_decision. Defined.

Record DatabaseTarget := {
  tconnectionId : string;
  tdatabase : option string;
  tschema : option string;
  ttable : string;
  writeMode : write_mode;
  keyColumns : list string;
  mapping : list ColumnMapping;
  createMissingTable : bool;
  onDelete : DeletePolicy;
  softDelete : option SoftDelete;
  redis : option RedisTargetConfig
}.

Inductive BridgeDestination :=
| Http (h : HttpDestination)
| Database (targets : list DatabaseTarget).

Definition columnMappingSchema (m : ColumnMapping) : bool :=
  nonempty (msource m) && nonempty (mtarget m).

(** the fields on their own: [databaseTargetObject] *)
Definition databaseTargetObject (t : DatabaseTarget) : option DatabaseTarget :=
  let soft_ok := match softDelete t with
                 | Some s => trimmed_between 1 200 (softColumn s) | None => true end in
  if nonempty (tconnectionId t) && nonempty (ttable t) && forallb nonempty (keyColumns t) &&
     forallb columnMappingSchema (mapping t) && soft_ok
  then
    match redis t with
    | None => Some {| tconnectionId := tconnectionId t; tdatabase := tdatabase t;
        tschema := tschema t; ttable := ttable t; writeMode := writeMode t;
        keyColumns := keyColumns t; mapping := mapping t;
        createMissingTable := createMissingTable t; onDelete := onDelete t;
        softDelete := (λ s, {| softColumn := trim (softColumn s); softValue := softValue s |})
                        <$> softDelete t; redis := None |}
    | Some r =>
        r' ← redisTargetSchema r;
        Some {| tconnectionId := tconnectionId t; tdatabase := tdatabase t;
        tschema := tschema t; ttable := ttable t; writeMode := writeMode t;
        keyColumns := keyColumns t; mapping := mapping t;
        createMissingTable := createMissingTable t; onDelete := onDelete t;
        softDelete := (λ s, {| softColumn := trim (softColumn s); softValue := softValue s |})
                        <$> softDelete t; redis := Some r' |}
    end
  else None.

(** the columns of a Redis key (and its value) that the target never receives *)
Definition unknown_redis_columns (t : DatabaseTarget) (r : RedisTargetConfig) : list string :=
  match mapping t with
  | [] => []
  | ms => filter (λ c, negb (startsWith "$" c) && bool_decide (c ∉ (mtarget <$> ms)))
            (redisKeyColumns (keyTemplate r) ++
             match valueColumn r with
             | Some c => if nonempty c then [c] else [] | None => [] end)
  end.

(** the issues [checkedDatabaseTarget] raises: is there none? *)
Definition checkedDatabaseTarget (t : DatabaseTarget) : bool :=
  match redis t with
  | Some r => bool_decide (onDelete t ≠ soft_delete) && bool_decide (unknown_redis_columns t r = [])
  | None => true
  end &&
  match onDelete t with
  | soft_delete =>
      match softDelete t with
      | None => false
      | Some s => nonempty (softColumn s) && bool_decide (softColumn s ∉ keyColumns t) &&
                  bool_decide (softColumn s ∉ (mtarget <$> mapping t))
      end
  | _ => true
  end.

Definition with_keys (t : DatabaseTarget) (ks : list string) : DatabaseTarget :=
  {| tconnectionId := tconnectionId t; tdatabase := tdatabase t; tschema := tschema t;
     ttable := ttable t; writeMode := writeMode t; keyColumns := ks; mapping := mapping t;
     createMissingTable := createMissingTable t; onDelete := onDelete t;
     softDelete := softDelete t; redis := redis t |}.

(** a Redis key is built from columns, and those columns are the target's key *)
Definition databaseTargetSchema (raw : DatabaseTarget) : option DatabaseTarget :=
  t ← databaseTargetObject raw;
  if checkedDatabaseTarget t then
    Some (match redis t with
          | Some r => with_keys t (redisKeyColumns (keyTemplate r))
          | None => t
          end)
  else None.

Definition databaseDestinationSchema (raw : list DatabaseTarget) : option (list DatabaseTarget) :=
  match raw with [] => None | _ => mapM databaseTargetSchema raw end.

(** ** Transform, delivery, trigger *)

Record BridgeTransformConfig := {
  payload : TransformConfig;
  columns : option (list ColumnTransform)
}.

Definition bridgeTransformSchema (t : BridgeTransformConfig) : bool :=
  nonempty (template (payload t)) &&
  match columns t with
  | Some ts => (Z.of_nat (length ts) <=? 100) && forallb columnTransformSchema ts
  | None => true
  end.

Inductive on_failure := continue_on_error | abort_on_error.
#[export] Instance on_failure_eq_dec : EqDecision on_failure.
Proof. solve_decision. Defined.

Inductive on_schema_change := schema_stop | schema_continue | schema_evolve.

Record BridgeDeliveryConfig := {
  batchSize : Z;
  maxAttempts : Z;
  backoffMs : Z;
  backoffMaxMs : Z;
  minDelayMs : Z;
  timeoutMs : Z;
  pageSize : Z;
  onError : on_failure;
  onSchemaChange : on_schema_change
}.

Definition between (lo hi z : Z) : bool := (lo <=? z) && (z <=? hi).

Definition bridgeDeliverySchema (d : BridgeDeliveryConfig) : bool :=
  between 1 1000 (batchSize d) && between 1 10 (maxAttempts d) &&
  between 0 60000 (backoffMs d) && between 0 300000 (backoffMaxMs d) &&
  between 0 600000 (minDelayMs d) && between 100 120000 (timeoutMs d) &&
  between 1 1000 (pageSize d).

(** the defaults a configuration starts from *)
Definition default_delivery : BridgeDeliveryConfig :=
  {| batchSize := 1; maxAttempts := 3; backoffMs := 500; backoffMaxMs := 30000;
     minDelayMs := 0; timeoutMs := 15000; pageSize := 200; onError := abort_on_error;
     onSchemaChange := schema_stop |}.

Inductive WatchStrategy :=
| Increment (wcolumn : string)
| Timestamp (wcolumn : string) (lookbackMs : Z)
| Snapshot (maxTracked : Z).

Definition watchStrategySchema (s : WatchStrategy) : bool :=
  match s with
  | Increment c => nonempty c
  | Timestamp c l => nonempty c && between 0 600000 l
  | Snapshot m => between 100 200000 m
  end.

Inductive CdcOperation := op_insert | op_update | op_delete | op_truncate.
#[export] Instance CdcOperation_eq_dec : EqDecision CdcOperation.
Proof. solve_decision. Defined.

Inductive start_from := from_beginning | from_now.
#[export] Instance start_from_eq_dec : EqDecision start_from.
Proof. solve_decision. Defined.

Inductive slot_kind := own_slot | shared_slot.

Inductive BridgeTrigger :=
| Replay (schedule : option ReplaySchedule)
| Watch (strategy : WatchStrategy) (pollIntervalMs : Z) (startFrom : start_from) (maxPerPoll : Z)
| Cdc (operations : list CdcOperation) (startFrom : start_from) (slot : slot_kind).

Definition bridgeTriggerSchema (t : BridgeTrigger) : bool :=
  match t with
  | Replay _ => true
  | Watch s p _ m => watchStrategySchema s && between 1000 3600000 p && between 1 5000 m
  | Cdc ops _ _ => bool_decide (ops ≠ [])
  end.

(** ** A bridge *)

Record BridgeInput := {
  bname : string;
  source : BridgeSource;
  destination : BridgeDestination;
  transform : BridgeTransformConfig;
  delivery : BridgeDeliveryConfig;
  trigger : BridgeTrigger;
  benabled : bool
}.

Section input.
(** [z.string().url()] *)
Variable valid_url : string → bool.

Definition httpDestinationSchema (h : HttpDestination) : bool :=
  valid_url (url h) && bridgeAuthSchema (auth h).

Definition bridgeDestinationSchema (d : BridgeDestination) : option BridgeDestination :=
  match d with
  | Http h => if httpDestinationSchema h then Some d else None
  | Database ts => ts' ← databaseDestinationSchema ts; Some (Database ts')
  end.

Definition bridgeInputSchema (b : BridgeInput) : option BridgeInput :=
  d ← bridgeDestinationSchema (destination b);
  if nonempty (bname b) && (Z.of_nat (str_length (bname b)) <=? 120) &&
     bridgeSourceSchema (source b) && bridgeTransformSchema (transform b) &&
     bridgeDeliverySchema (delivery b) && bridgeTriggerSchema (trigger b)
  then Some {| bname := bname b; source := source b; destination := d; transform := transform b;
               delivery := delivery b; trigger := trigger b; benabled := benabled b |}
  else None.
End input.

(** ** What an accepted configuration can rely on *)

(** what downstream code assumes of a database target *)
Definition sound_target (t : DatabaseTarget) : Prop :=
  (onDelete t = soft_delete →
     ∃ s, softDelete t = Some s ∧ softColumn s ≠ EmptyString ∧
          (softColumn s ∉ keyColumns t) ∧ (softColumn s ∉ (mtarget <$> mapping t))) ∧
  (∀ r, redis t = Some r →
     onDelete t ≠ soft_delete ∧ keyColumns t ≠ [] ∧
     keyColumns t = redisKeyColumns (keyTemplate r) ∧
     (mapping t ≠ [] → ∀ c, c ∈ keyColumns t → c ∈ (mtarget <$> mapping t))).

Lemma databaseTargetObject_redis raw t r :
  databaseTargetObject raw = Some t → redis t = Some r → ∃ r0, redisTargetSchema r0 = Some r.
Proof.
  unfold databaseTargetObject. intros Ht Hr. case_match; [|done].
  destruct (redis raw) as [r0|]; simplify_option_eq; eauto.
Qed.

Lemma redis_columns_ordinary r0 r c :
  redisTargetSchema r0 = Some r → c ∈ redisKeyColumns (keyTemplate r) → startsWith "$" c = false.
Proof.
  unfold redisTargetSchema. case_match eqn:Hok; [|done]. intros [= <-] Hc.
  apply andb_true_iff in Hok as [_ Hi]. rewrite negb_true_iff, !orb_false_iff in Hi.
  destruct Hi as (((_ & Hd) & _) & _). destruct (startsWith "$" c) eqn:Hs; [|done].
  exfalso. revert Hd. apply not_false_iff_true, existsb_exists.
  exists c. split; [by apply list_elem_of_In|done].
Qed.

Lemma redis_columns_some r0 r :
  redisTargetSchema r0 = Some r → redisKeyColumns (keyTemplate r) ≠ [].
Proof.
  unfold redisTargetSchema. case_match eqn:Hok; [|done]. intros [= <-].
  apply andb_true_iff in Hok as [_ Hi]. rewrite negb_true_iff, !orb_false_iff in Hi.
  destruct Hi as (((He & _) & _) & _). by apply bool_decide_eq_false in He.
Qed.

(** An accepted target can be worked with: a soft delete has a marker column
    that neither carries source data nor is a key, and a Redis target is keyed on
    exactly the columns of its template, all of which it receives. *)
Theorem databaseTargetSchema_sound raw t :
  databaseTargetSchema raw = Some t → sound_target t.
Proof.
  unfold databaseTargetSchema. intros H.
  destruct (databaseTargetObject raw) as [t0|] eqn:Hobj; [|done]. cbn in H.
  destruct (checkedDatabaseTarget t0) eqn:Hc; [|done]. unfold checkedDatabaseTarget in Hc.
  bool_to_prop. destruct (redis t0) as [r|] eqn:Hr; simplify_eq; split.
  - intros Hs. bool_to_prop. done.
  - intros r' Hr'. cbn in *. rewrite Hr in Hr'. simplify_eq. bool_to_prop.
    destruct (databaseTargetObject_redis _ _ _ Hobj Hr) as [r0 Hr0].
    split_and!; [done|by eapply redis_columns_some|done|].
    intros Hm c Hin. pose proof (redis_columns_ordinary _ _ _ Hr0 Hin) as Hord.
    destruct (decide (c ∈ (mtarget <$> mapping t0))) as [|Hno]; [done|].
    assert (c ∈ unknown_redis_columns t0 r') as Hu; [|
      match goal with He : unknown_redis_columns _ _ = [] |- _ =>
        rewrite He in Hu; by apply elem_of_nil in Hu end].
    unfold unknown_redis_columns. destruct (mapping t0) as [|m ms]; [done|].
    apply list_elem_of_filter. split; [|apply elem_of_app; by left].
    rewrite Hord. cbn [negb andb]. by apply bool_decide_spec.
  - intros Hs. rewrite Hs in *. destruct (softDelete t) as [s|]; [|done].
    bool_to_prop. exists s. split_and!; try done. by apply bool_decide_eq_true in H.
  - intros r Hr'. congruence.
Qed.

(** ** A concrete target *)

Definition sample_target : DatabaseTarget :=
  {| tconnectionId := "c2"; tdatabase := None; tschema := Some "public"; ttable := "users";
     writeMode := upsert; keyColumns := ["id"];
     mapping := [ {| msource := "id"; mtarget := "id" |}; {| msource := "mail"; mtarget := "email" |} ];
     createMissingTable := true; onDelete := soft_delete;
     softDelete := Some {| softColumn := "deleted_at"; softValue := soft_timestamp |};
     redis := None |}.

Lemma databaseTargetSchema_sound_witness : sound_target sample_target.
Proof. apply (databaseTargetSchema_sound sample_target). vm_compute. reflexivity. Defined.
