(* ===== verification/TypeMap.v ===== *)
(** Column types across engines: [packages/core/src/bridges/type-map.ts].

    The numbers of a type's modifiers are integers ([numeric(38,10)]): a modifier
    that is not one is passed over.  A message is a text of bytes; where the source
    has a dash outside Latin-1 it is held in UTF-8. *)
From S2P Require Import Prelude JsText JsNumber.

Local Open Scope Z_scope.

Inductive DatabaseEngine := postgres | mysql | sqlite | mongodb | redis_engine.
#[export] Instance DatabaseEngine_eq_dec : EqDecision DatabaseEngine.
Proof. solve_decision. Defined.

Inductive PortableKind :=
| Kboolean | Ksmallint | Kinteger | Kbigint | Kdecimal | Kfloat | Kdouble | Kvarchar | Kchar
| Ktext | Kbytes | Kdate | Ktime | Ktimestamp | Ktimestamptz | Kinterval | Kjson | Kuuid
| Karray | Kobjectid | Kopaque.
#[export] Instance PortableKind_eq_dec : EqDecision PortableKind.
Proof. solve_decision. Defined.

Inductive PortableType := mkType {
  kind : PortableKind;
  length : option Z;
  precision : option Z;
  scale : option Z;
  unsigned : bool;
  element : option PortableType;
  native : string;
  note : option string
}.

Lemma PortableType_nested_ind (P : PortableType → Prop) :
  (∀ k l p s u el na no, (∀ e, el = Some e → P e) → P (mkType k l p s u el na no)) →
  ∀ t, P t.
Proof.
  intros H. fix IH 1. intros [k l p s u el na no]. apply H.
  destruct el as [e|]; intros e' He; [injection He as <-; apply IH|discriminate He].
Qed.

Record ColumnTypePlan := { type : string; warnings : list string }.

(** ** Reading a declaration *)

Record Decl := {
  name : string;
  args : list Z;
  dunsigned : bool;
  arrayDepth : nat
}.

Fixpoint strip_brackets (fuel : nat) (s : string) (depth : nat) : string * nat :=
  match fuel with
  | O => (s, depth)
  | S fuel => if endsWith "[]" s
              then strip_brackets fuel (trim (slice 0 (str_length s - 2) s)) (S depth)
              else (s, depth)
  end.

(** an integer modifier *)
Definition number_arg (part : string) : option Z :=
  let n := string_to_num (trim part) in
  if bool_decide (trim part ≠ EmptyString) && is_finite n && is_integer n
  then Some (trunc_Z n) else None.

(** what is before, inside and after the first parentheses *)
Definition parentheses (s : string) : option (string * string * string) :=
  i ← indexOf "(" s;
  j ← indexOf_from ")" s (S i);
  Some (slice 0 i s, slice (S i) j s, slice_from (S j) s).

(** [s.replace(/\bw\b/, '')]: the text without the word's first occurrence; [None]
    when it does not occur *)
Fixpoint cut_word (w : list ascii) (before : bool) (l : list ascii) : option (list ascii) :=
  let here := negb before && is_prefix w l &&
              match drop (List.length w) l with c :: _ => negb (is_word c) | [] => true end in
  if here then Some (drop (List.length w) l)
  else match l with
       | [] => None
       | c :: l' => (λ r, c :: r) <$> cut_word w (is_word c) l'
       end.

Definition remove_word (w s : string) : option string :=
  of_chars <$> cut_word (chars w) false (chars s).

Definition parseDecl (raw : string) : Decl :=
  let s := collapse (toLowerCase (trim raw)) in
  let '(s, depth) := strip_brackets (str_length s) s 0 in
  let '(s, args) :=
    match parentheses s with
    | Some (a, inside, b) => (trim (collapse (a +:+ b)), omap number_arg (split_on "," inside))
    | None => (s, [])
    end in
  let '(s, u) := match remove_word "unsigned" s with
                 | Some s' => (s', true) | None => (s, false) end in
  let s := default s (remove_word "zerofill" s) in
  let s := default s (remove_word "signed" s) in
  let s := trim (collapse s) in
  let '(s, depth) :=
    match depth, chars s with
    | O, u :: c :: _ => if (code u =? 95)%N && is_lower c then (slice_from 1 s, 1%nat) else (s, depth)
    | _, _ => (s, depth)
    end in
  {| name := s; args := args; dunsigned := u; arrayDepth := depth |}.

(** ** Rules *)

(** [Omit<PortableType, 'native'>]: the native name is filled in later *)
Definition of_kind (k : PortableKind) : PortableType :=
  mkType k None None None false None EmptyString None.
Definition with_note (t : PortableType) (n : string) : PortableType :=
  mkType (kind t) (length t) (precision t) (scale t) (unsigned t) (element t) (native t) (Some n).
Definition of_length (k : PortableKind) (n : Z) : PortableType :=
  mkType k (Some n) None None false None EmptyString None.

Definition Rule := Decl → PortableType.

Definition arg0 (d : Decl) : option Z := head (args d).
Definition arg1 (d : Decl) : option Z := head (tail (args d)).
(** [d.args[0] && p]: absent and zero are both false *)
Definition arg0_and (d : Decl) (p : Z → bool) : bool :=
  match arg0 d with Some n => negb (n =? 0) && p n | None => false end.

Definition decimal : Rule := λ d,
  match arg0 d with
  | Some p => mkType Kdecimal None (Some p) (Some (default 0 (arg1 d))) false None EmptyString None
  | None => of_kind Kdecimal
  end.
Definition varchar : Rule := λ d,
  match arg0 d with
  | Some n => if n =? 0 then of_kind Ktext else of_length Kvarchar n
  | None => of_kind Ktext
  end.
Definition char : Rule := λ d, of_length Kchar (default 1 (arg0 d)).
Definition int (k : PortableKind) : Rule := λ d,
  mkType k None None None (dunsigned d) None EmptyString None.
Definition fixed (k : PortableKind) : Rule := λ _, of_kind k.
Definition noted (k : PortableKind) (n : string) : Rule := λ _, with_note (of_kind k) n.
Definition opaque (what : string) : Rule :=
  noted Kopaque (what +:+ " has no equivalent in other engines; it is stored as text").

Definition COMMON : list (string * Rule) :=
  [("boolean", fixed Kboolean); ("bool", fixed Kboolean); ("smallint", int Ksmallint);
   ("integer", int Kinteger); ("int", int Kinteger); ("bigint", int Kbigint);
   ("numeric", decimal); ("decimal", decimal); ("dec", decimal); ("real", fixed Kfloat);
   ("double precision", fixed Kdouble); ("double", fixed Kdouble); ("float", fixed Kdouble);
   ("varchar", varchar); ("character varying", varchar); ("char", char); ("character", char);
   ("text", fixed Ktext); ("date", fixed Kdate); ("time", fixed Ktime);
   ("timestamp", fixed Ktimestamp); ("datetime", fixed Ktimestamp); ("json", fixed Kjson);
   ("uuid", fixed Kuuid)].

Definition time_zone_note : string :=
  dq "the time zone offset of a 'time with time zone' value is not carried".

Definition POSTGRES : list (string * Rule) :=
  [("int2", int Ksmallint); ("int4", int Kinteger); ("int8", int Kbigint);
   ("smallserial", fixed Ksmallint); ("serial", fixed Kinteger); ("bigserial", fixed Kbigint);
   ("oid", fixed Kbigint); ("float4", fixed Kfloat); ("float8", fixed Kdouble);
   ("float", λ d, of_kind (if arg0_and d (λ n, n <=? 24) then Kfloat else Kdouble));
   ("bpchar", char); ("name", λ _, of_length Kvarchar 63); ("citext", fixed Ktext);
   ("bytea", fixed Kbytes); ("time", fixed Ktime); ("time without time zone", fixed Ktime);
   ("timetz", noted Ktime time_zone_note); ("time with time zone", noted Ktime time_zone_note);
   ("timestamp", fixed Ktimestamp); ("timestamp without time zone", fixed Ktimestamp);
   ("timestamptz", fixed Ktimestamptz); ("timestamp with time zone", fixed Ktimestamptz);
   ("interval", fixed Kinterval); ("jsonb", fixed Kjson); ("xml", fixed Ktext);
   ("money", opaque "A money value (formatted with a currency symbol)");
   ("array", fixed Karray); ("user-defined", opaque "A user-defined type")].

Definition MYSQL : list (string * Rule) :=
  [("tinyint", λ d, if bool_decide (arg0 d = Some 1) && negb (dunsigned d)
                    then of_kind Kboolean else int Ksmallint d);
   ("mediumint", int Kinteger); ("fixed", decimal);
   ("float", λ d, of_kind (if arg0_and d (λ n, 24 <? n) then Kdouble else Kfloat));
   ("year", fixed Ksmallint);
   ("bit", λ d, if default 1 (arg0 d) =? 1 then of_kind Kboolean
                else with_note (of_kind Kbytes) "a multi-bit value is carried as raw bytes");
   ("tinytext", fixed Ktext); ("mediumtext", fixed Ktext); ("longtext", fixed Ktext);
   ("binary", fixed Kbytes); ("varbinary", fixed Kbytes); ("tinyblob", fixed Kbytes);
   ("blob", fixed Kbytes); ("mediumblob", fixed Kbytes); ("longblob", fixed Kbytes);
   ("time", fixed Ktime); ("datetime", fixed Ktimestamp); ("timestamp", fixed Ktimestamp);
   ("enum", opaque "An ENUM"); ("set", opaque "A SET")].

Definition SQLITE : list (string * Rule) :=
  [("int", fixed Kbigint); ("integer", fixed Kbigint); ("smallint", fixed Kbigint);
   ("tinyint", fixed Kbigint); ("mediumint", fixed Kbigint); ("int2", fixed Kbigint);
   ("int8", fixed Kbigint); ("unsigned big int", fixed Kbigint); ("big int", fixed Kbigint);
   ("clob", fixed Ktext); ("nchar", char); ("nvarchar", varchar); ("native character", char);
   ("varying character", varchar); ("blob", fixed Kbytes); ("datetime", fixed Ktimestamp);
   ("timestamp", fixed Ktimestamp); ("time", fixed Ktime); ("float", fixed Kdouble);
   (EmptyString, noted Ktext "the SQLite column has no declared type, so it is treated as text")].

Definition MONGODB : list (string * Rule) :=
  [("objectid", fixed Kobjectid); ("string", fixed Ktext); ("number", fixed Kdouble);
   ("int", fixed Kinteger); ("long", fixed Kbigint); ("decimal128", fixed Kdecimal);
   ("boolean", fixed Kboolean); ("date", fixed Ktimestamptz); ("array", fixed Kjson);
   ("object", fixed Kjson); ("binary", fixed Kbytes); ("uuid", fixed Kuuid);
   ("mixed", noted Ktext "this field holds values of different types, so it is stored as text");
   ("null", noted Ktext "only null values were seen for this field, so it is treated as text");
   ("undefined", noted Ktext "no value was seen for this field, so it is treated as text")].

Definition REDIS : list (string * Rule) := [("string", fixed Ktext)].

Definition BY_ENGINE (e : DatabaseEngine) : list (string * Rule) :=
  match e with
  | postgres => POSTGRES | mysql => MYSQL | sqlite => SQLITE | mongodb => MONGODB
  | redis_engine => REDIS
  end.

Definition assoc (t : list (string * Rule)) (k : string) : option Rule :=
  (λ x, x.2.2) <$> list_find (λ kv, kv.1 = k) t.

Definition or_else {A} (a b : option A) : option A :=
  match a with Some _ => a | None => b end.

Definition lookup (n : string) (engine : option DatabaseEngine) : option Rule :=
  or_else (e ← engine; assoc (BY_ENGINE e) n)
    (or_else (assoc COMMON n)
       match engine with
       | Some _ => None
       | None => or_else (assoc POSTGRES n) (or_else (assoc MYSQL n)
                   (or_else (assoc SQLITE n) (assoc MONGODB n)))
       end).

Definition with_native (t : PortableType) (n : string) : PortableType :=
  mkType (kind t) (length t) (precision t) (scale t) (unsigned t) (element t) n (note t).

Definition resolve (nat_ : string) (engine : option DatabaseEngine) (d : Decl) : PortableType :=
  match lookup (name d) engine with
  | Some rule => rule d
  | None => with_note (of_kind Kopaque)
      (if decide (nat_ = EmptyString) then "the column type is unknown; it is stored as text"
       else in_quotes nat_ +:+ " is not a type Syncle can translate; it is stored as text")
  end.

Definition parseColumnType (dataType : option string) (engine : option DatabaseEngine)
  : PortableType :=
  let nat_ := trim (default EmptyString dataType) in
  let decl := parseDecl nat_ in
  let r := resolve nat_ engine decl in
  match arrayDepth decl with
  | O => with_native r nat_
  | S more =>
      if bool_decide (more = O) && bool_decide (kind r ≠ Kopaque)
      then mkType Karray None None None false (Some (with_native r (name decl))) nat_ None
      else with_native (of_kind Karray) nat_
  end.

(** ** Rendering *)

Definition MYSQL_MAX_PRECISION : Z := 65.
Definition MYSQL_MAX_SCALE : Z := 30.
Definition MYSQL_MAX_VARCHAR : Z := 16383.
Definition MYSQL_MAX_KEY_CHARS : Z := 768.
Definition POSTGRES_MAX_PRECISION : Z := 1000.
Definition SQLITE_EXACT_DIGITS : Z := 15.

Record Rendered := { rtype : string; rwarnings : list string }.

Definition ok (t : string) : Rendered := {| rtype := t; rwarnings := [] |}.
Definition lossy (t w : string) : Rendered := {| rtype := t; rwarnings := [w] |}.

Definition with_length (t : string) (n : Z) : string := t +:+ "(" +:+ Z_to_string n +:+ ")".
Definition with_precision (t : string) (p s : Z) : string :=
  t +:+ "(" +:+ Z_to_string p +:+ "," +:+ Z_to_string s +:+ ")".

(** a JavaScript [x ? a : b] on an optional number *)
Definition some_nonzero (o : option Z) : option Z :=
  match o with Some n => if n =? 0 then None else Some n | None => None end.

Fixpoint renderPostgres (t : PortableType) : Rendered :=
  match kind t with
  | Kboolean => ok "BOOLEAN"
  | Ksmallint => ok (if unsigned t then "INTEGER" else "SMALLINT")
  | Kinteger => ok (if unsigned t then "BIGINT" else "INTEGER")
  | Kbigint => ok (if unsigned t then "NUMERIC(20,0)" else "BIGINT")
  | Kdecimal =>
      match precision t with
      | None => ok "NUMERIC"
      | Some p => if p <=? POSTGRES_MAX_PRECISION
                  then ok (with_precision "NUMERIC" p (default 0 (scale t)))
                  else ok "NUMERIC"
      end
  | Kfloat => ok "REAL"
  | Kdouble => ok "DOUBLE PRECISION"
  | Kvarchar => ok (match some_nonzero (length t) with
                    | Some n => with_length "VARCHAR" n | None => "TEXT" end)
  | Kchar => ok (with_length "CHAR" (default 1 (length t)))
  | Ktext | Kopaque => ok "TEXT"
  | Kbytes => ok "BYTEA"
  | Kdate => ok "DATE"
  | Ktime => ok "TIME"
  | Ktimestamp => ok "TIMESTAMP"
  | Ktimestamptz => ok "TIMESTAMPTZ"
  | Kinterval => ok "INTERVAL"
  | Kjson => ok "JSONB"
  | Kuuid => ok "UUID"
  | Kobjectid => ok "VARCHAR(24)"
  | Karray =>
      match element t with
      | None => ok "JSONB"
      | Some e => let el := renderPostgres e in
                  {| rtype := rtype el +:+ "[]"; rwarnings := rwarnings el |}
      end
  end.

Definition keyText : Rendered :=
  lossy "VARCHAR(255)" "MySQL cannot index unbounded text, so this key column is VARCHAR(255); longer values will be rejected".

Definition mysql_decimal_unbounded : Rendered :=
  lossy (with_precision "DECIMAL" MYSQL_MAX_PRECISION MYSQL_MAX_SCALE)
    ("the source number has no fixed precision; MySQL needs one, so it is DECIMAL(65,30) — "
     +:+ "values with more than 35 digits before the decimal point will be rejected").

Definition mysql_decimal_note (p s : Z) : string :=
  "MySQL decimals stop at 65 digits (30 after the point); the source allows ("
  +:+ Z_to_string p +:+ "," +:+ Z_to_string s +:+ "), so larger values will be rejected".

Definition renderMysql (t : PortableType) (isKey : bool) : Rendered :=
  let u := if unsigned t then " UNSIGNED" else EmptyString in
  match kind t with
  | Kboolean => ok "TINYINT(1)"
  | Ksmallint => ok ("SMALLINT" +:+ u)
  | Kinteger => ok ("INT" +:+ u)
  | Kbigint => ok ("BIGINT" +:+ u)
  | Kdecimal =>
      match precision t with
      | None => mysql_decimal_unbounded
      | Some p0 =>
          let s0 := default 0 (scale t) in
          let s := Z.min s0 MYSQL_MAX_SCALE in
          let p := Z.min p0 MYSQL_MAX_PRECISION in
          if (p =? p0) && (s =? s0) then ok (with_precision "DECIMAL" p s)
          else lossy (with_precision "DECIMAL" p s) (mysql_decimal_note p0 s0)
      end
  | Kfloat => ok "FLOAT"
  | Kdouble => ok "DOUBLE"
  | Kvarchar =>
      let n := default 0 (length t) in
      if isKey then
        if (0 <? n) && (n <=? MYSQL_MAX_KEY_CHARS) then ok (with_length "VARCHAR" n) else keyText
      else if (0 <? n) && (n <=? MYSQL_MAX_VARCHAR) then ok (with_length "VARCHAR" n)
           else ok "LONGTEXT"
  | Kchar =>
      if default 1 (length t) <=? 255 then ok (with_length "CHAR" (default 1 (length t)))
      else if isKey then keyText else ok "LONGTEXT"
  | Ktext | Kopaque => if isKey then keyText else ok "LONGTEXT"
  | Kbytes =>
      if isKey then lossy "VARBINARY(255)" "a binary key is limited to 255 bytes in MySQL; longer values will be rejected"
      else ok "LONGBLOB"
  | Kdate => ok "DATE"
  | Ktime => ok "TIME(6)"
  | Ktimestamp => ok "DATETIME(6)"
  | Ktimestamptz =>
      lossy "DATETIME(6)" "MySQL has no time-zone-aware timestamp; values are stored as UTC wall-clock times"
  | Kinterval => lossy "VARCHAR(64)" "MySQL has no interval type; the value is stored as text"
  | Kjson | Karray =>
      if isKey then lossy "VARCHAR(255)" "a JSON value cannot be a MySQL key; it is stored as text, limited to 255 characters"
      else ok "JSON"
  | Kuuid => ok "CHAR(36)"
  | Kobjectid => ok "CHAR(24)"
  end.

Definition renderSqlite (t : PortableType) : Rendered :=
  match kind t with
  | Kboolean | Ksmallint | Kinteger => ok "INTEGER"
  | Kbigint =>
      if unsigned t then
        lossy "TEXT" "SQLite integers are signed 64-bit, so an unsigned 64-bit column is stored as text to keep values above 9,223,372,036,854,775,807 exact"
      else ok "INTEGER"
  | Kdecimal =>
      let exact := match precision t with Some p => p <=? SQLITE_EXACT_DIGITS | None => false end in
      if exact then ok (with_precision "DECIMAL" (default 0 (precision t)) (default 0 (scale t)))
      else lossy "TEXT" "SQLite has no exact decimal type; the number is stored as text so that every digit is kept (it sorts and compares as text there)"
  | Kfloat | Kdouble => ok "REAL"
  | Kbytes => ok "BLOB"
  | _ => ok "TEXT"
  end.

(** [/^[A-Za-z0-9_ (),]+(\[\])*$/] *)
Definition name_char (c : ascii) : bool :=
  is_word c || existsb (λ d, (code c =? d)%N) [32; 40; 41; 44]%N.

Fixpoint strip_bracket_pairs (fuel : nat) (l : list ascii) : list ascii :=
  match fuel, l with
  | S fuel, a :: b :: r => if (code a =? 91)%N && (code b =? 93)%N
                           then strip_bracket_pairs fuel r else l
  | _, _ => l
  end.

Definition native_shape (s : string) : bool :=
  let l := chars s in
  match take_while name_char l with
  | [] => false
  | _ => bool_decide (strip_bracket_pairs (List.length l) (drop_while name_char l) = [])
  end.

Definition reusable (t : PortableType) (engine : DatabaseEngine) (isKey : bool) : bool :=
  if decide (kind t = Kopaque) then false
  else if negb (native_shape (native t)) then false
  else if bool_decide (engine = mysql) && isKey &&
          bool_decide (kind t ∈ [Ktext; Kbytes; Kjson; Karray]) then false
  else if bool_decide (engine = mysql) && isKey && bool_decide (kind t = Kvarchar) then
    (0 <? default 0 (length t)) && (default 0 (length t) <=? MYSQL_MAX_KEY_CHARS)
  else if bool_decide (kind t = Karray) && bool_decide (element t = None) then false
  else true.

Definition kind_name (k : PortableKind) : string :=
  match k with
  | Kboolean => "boolean" | Ksmallint => "smallint" | Kinteger => "integer" | Kbigint => "bigint"
  | Kdecimal => "decimal" | Kfloat => "float" | Kdouble => "double" | Kvarchar => "varchar"
  | Kchar => "char" | Ktext => "text" | Kbytes => "bytes" | Kdate => "date" | Ktime => "time"
  | Ktimestamp => "timestamp" | Ktimestamptz => "timestamptz" | Kinterval => "interval"
  | Kjson => "json" | Kuuid => "uuid" | Karray => "array" | Kobjectid => "objectid"
  | Kopaque => "opaque"
  end.

Definition render (t : PortableType) (target : DatabaseEngine) (isKey : bool) : Rendered :=
  match target with
  | postgres => renderPostgres t
  | mysql => renderMysql t isKey
  | sqlite => renderSqlite t
  | _ => ok (kind_name (kind t))
  end.

Definition translateColumnType (dataType : option string) (source : option DatabaseEngine)
    (target : DatabaseEngine) (isKey : bool) : ColumnTypePlan :=
  let parsed := parseColumnType dataType source in
  let notes := match note parsed with
               | Some n => if decide (n = EmptyString) then [] else [n] | None => [] end in
  if bool_decide (source = Some target) && reusable parsed target isKey
  then {| type := native parsed; warnings := [] |}
  else let r := render parsed target isKey in
       {| type := rtype r; warnings := notes ++ rwarnings r |}.

(** ** Checks on real declarations *)

Definition show_plan (p : ColumnTypePlan) : string * nat := (type p, List.length (warnings p)).

Example translate_samples :
  (λ '(d, s, t, k), show_plan (translateColumnType (Some d) s t k)) <$>
  [("numeric(38,10)", Some postgres, mysql, false);
   ("timestamp(3) with time zone", Some postgres, mysql, false);
   ("interval", Some postgres, mysql, false);
   ("int(10) unsigned", Some mysql, postgres, false);
   ("_int4", Some postgres, mysql, false); ("text[]", Some postgres, postgres, false);
   ("text[]", None, postgres, false); ("varchar(900)", Some postgres, mysql, true);
   ("tinyint(1)", Some mysql, postgres, false); ("BIGINT UNSIGNED", Some mysql, sqlite, false);
   ("mood", Some postgres, postgres, false); ("objectId", Some mongodb, postgres, true)]
  = [("DECIMAL(38,10)", 0%nat); ("DATETIME(6)", 1%nat); ("VARCHAR(64)", 1%nat);
     ("BIGINT", 0%nat); ("JSON", 0%nat); ("text[]", 0%nat); ("TEXT[]", 0%nat);
     ("VARCHAR(255)", 1%nat); ("BOOLEAN", 0%nat); ("TEXT", 1%nat); ("TEXT", 1%nat);
     ("VARCHAR(24)", 0%nat)].
Proof. vm_compute. reflexivity. Qed.

(** ** What types can hold

    An independent reading of the engines' documentation: the values a column of a
    portable type may hold, and those a native column keeps unchanged. *)

Inductive value :=
| Number (m : Z) (e : Z)
  (** [m / 10 ^ e], written with [e] digits after the point *)
| Textual (n : Z)
  (** a text of [n] characters *)
| Other (k : PortableKind)
  (** a value of a kind that has no size of its own *)
| Arr (l : list value).

Definition decimal_fits (p s m e : Z) : Prop := 0 <= e <= s ∧ Z.abs m * 10 ^ (s - e) < 10 ^ p.

Definition int_range (k : PortableKind) (u : bool) : Z * Z :=
  let bits := match k with Ksmallint => 16 | Kinteger => 32 | _ => 64 end in
  if u then (0, 2 ^ bits - 1) else (- 2 ^ (bits - 1), 2 ^ (bits - 1) - 1).

Definition int_fits (k : PortableKind) (u : bool) (v : value) : Prop :=
  ∃ m, v = Number m 0 ∧ (int_range k u).1 <= m <= (int_range k u).2.

Fixpoint holds (t : PortableType) (v : value) : Prop :=
  match kind t with
  | Ksmallint | Kinteger | Kbigint => int_fits (kind t) (unsigned t) v
  | Kdecimal => ∃ m e, v = Number m e ∧ 0 <= e ∧
      match precision t with Some p => decimal_fits p (default 0 (scale t)) m e | None => True end
  | Kvarchar => ∃ n, v = Textual n ∧
      match some_nonzero (length t) with Some l => 0 <= n <= l | None => 0 <= n end
  | Kchar => ∃ n, v = Textual n ∧ 0 <= n <= default 1 (length t)
  | Ktext | Kopaque => ∃ n, v = Textual n ∧ 0 <= n
  | Kuuid => v = Textual 36
  | Kobjectid => v = Textual 24
  | Karray =>
      match element t with
      | None => v = Other Karray
      | Some e => ∃ l, v = Arr l ∧ Forall (holds e) l
      end
  | k => v = Other k
  end.

Inductive pg_holds : string → value → Prop :=
| pg_boolean : pg_holds "BOOLEAN" (Other Kboolean)
| pg_smallint v : int_fits Ksmallint false v → pg_holds "SMALLINT" v
| pg_integer v : int_fits Kinteger false v → pg_holds "INTEGER" v
| pg_bigint v : int_fits Kbigint false v → pg_holds "BIGINT" v
| pg_numeric m e : 0 <= e → pg_holds "NUMERIC" (Number m e)
| pg_numeric_ps p s m e : 1 <= p <= 1000 → decimal_fits p s m e →
    pg_holds (with_precision "NUMERIC" p s) (Number m e)
| pg_real : pg_holds "REAL" (Other Kfloat)
| pg_double : pg_holds "DOUBLE PRECISION" (Other Kdouble)
| pg_varchar l n : 1 <= l <= 10485760 → 0 <= n <= l → pg_holds (with_length "VARCHAR" l) (Textual n)
| pg_char l n : 1 <= l <= 10485760 → 0 <= n <= l → pg_holds (with_length "CHAR" l) (Textual n)
| pg_text n : pg_holds "TEXT" (Textual n)
| pg_bytea : pg_holds "BYTEA" (Other Kbytes)
| pg_date : pg_holds "DATE" (Other Kdate)
| pg_time : pg_holds "TIME" (Other Ktime)
| pg_timestamp : pg_holds "TIMESTAMP" (Other Ktimestamp)
| pg_timestamptz : pg_holds "TIMESTAMPTZ" (Other Ktimestamptz)
| pg_interval : pg_holds "INTERVAL" (Other Kinterval)
| pg_jsonb : pg_holds "JSONB" (Other Kjson)
| pg_jsonb_array : pg_holds "JSONB" (Other Karray)
| pg_uuid : pg_holds "UUID" (Textual 36)
| pg_array t l : Forall (pg_holds t) l → pg_holds (t +:+ "[]") (Arr l).

Inductive my_holds : string → value → Prop :=
| my_boolean : my_holds "TINYINT(1)" (Other Kboolean)
| my_smallint v : int_fits Ksmallint false v → my_holds "SMALLINT" v
| my_int v : int_fits Kinteger false v → my_holds "INT" v
| my_bigint v : int_fits Kbigint false v → my_holds "BIGINT" v
| my_smallint_u v : int_fits Ksmallint true v → my_holds "SMALLINT UNSIGNED" v
| my_int_u v : int_fits Kinteger true v → my_holds "INT UNSIGNED" v
| my_bigint_u v : int_fits Kbigint true v → my_holds "BIGINT UNSIGNED" v
| my_decimal p s m e : 1 <= p <= 65 → 0 <= s <= 30 → s <= p → decimal_fits p s m e →
    my_holds (with_precision "DECIMAL" p s) (Number m e)
| my_float : my_holds "FLOAT" (Other Kfloat)
| my_double : my_holds "DOUBLE" (Other Kdouble)
| my_varchar l n : 1 <= l <= 16383 → 0 <= n <= l → my_holds (with_length "VARCHAR" l) (Textual n)
| my_char l n : 1 <= l <= 255 → 0 <= n <= l → my_holds (with_length "CHAR" l) (Textual n)
| my_longtext n : my_holds "LONGTEXT" (Textual n)
| my_longblob : my_holds "LONGBLOB" (Other Kbytes)
| my_date : my_holds "DATE" (Other Kdate)
| my_time : my_holds "TIME(6)" (Other Ktime)
| my_datetime : my_holds "DATETIME(6)" (Other Ktimestamp)
| my_json : my_holds "JSON" (Other Kjson)
| my_json_array : my_holds "JSON" (Other Karray)
| my_json_list l : my_holds "JSON" (Arr l).

Inductive lite_holds : string → value → Prop :=
| lite_flag : lite_holds "INTEGER" (Other Kboolean)
| lite_integer m : - 2 ^ 63 <= m < 2 ^ 63 → lite_holds "INTEGER" (Number m 0)
| lite_real_f : lite_holds "REAL" (Other Kfloat)
| lite_real : lite_holds "REAL" (Other Kdouble)
| lite_decimal p s m e : Z.abs m < 10 ^ 15 → lite_holds (with_precision "DECIMAL" p s) (Number m e)
| lite_blob : lite_holds "BLOB" (Other Kbytes)
| lite_text n : lite_holds "TEXT" (Textual n)
| lite_spelled k : k ∈ [Kdate; Ktime; Ktimestamp; Ktimestamptz; Kinterval; Kjson; Karray] →
    lite_holds "TEXT" (Other k)
| lite_list l : lite_holds "TEXT" (Arr l).

Definition native_holds (e : DatabaseEngine) (ty : string) (v : value) : Prop :=
  match e with
  | postgres => pg_holds ty v
  | mysql => my_holds ty v
  | sqlite => lite_holds ty v
  | _ => True
  end.

(** sizes as the engines allow them to be declared; MySQL and SQLite have no
    decimals with a negative scale or with more decimals than digits *)
Fixpoint well_sized (t : PortableType) : bool :=
  match kind t with
  | Kdecimal =>
      match precision t with
      | Some p => (1 <=? p) && (0 <=? default 0 (scale t)) && (default 0 (scale t) <=? p)
      | None => true
      end
  | Kvarchar => match some_nonzero (length t) with
                | Some l => (1 <=? l) && (l <=? 10485760) | None => true end
  | Kchar => (1 <=? default 1 (length t)) && (default 1 (length t) <=? 10485760)
  | Karray => match element t with Some e => well_sized e | None => true end
  | _ => true
  end.

(** *** PostgreSQL *)

Lemma int_fits_weaken k u k' u' v :
  (int_range k' u').1 <= (int_range k u).1 → (int_range k u).2 <= (int_range k' u').2 →
  int_fits k u v → int_fits k' u' v.
Proof. intros H1 H2 (m & -> & Hm). exists m. split; [done|lia]. Qed.

Lemma pg_decimal_holds t v p :
  well_sized t = true → kind t = Kdecimal → precision t = Some p → holds t v →
  pg_holds (if p <=? POSTGRES_MAX_PRECISION
            then with_precision "NUMERIC" p (default 0 (scale t)) else "NUMERIC") v.
Proof.
  intros Hw Hk Hp Hv. destruct t as [k l pr sc u el na no]. cbn in *. subst k pr.
  destruct Hv as (m & e & -> & He & Hf). bool_to_prop.
  destruct (p <=? POSTGRES_MAX_PRECISION) eqn:Hle; bool_to_prop; [|by constructor].
  unfold POSTGRES_MAX_PRECISION in Hle. by constructor.
Qed.

Lemma pg_unsigned_bigint v : int_fits Kbigint true v → pg_holds "NUMERIC(20,0)" v.
Proof.
  intros (m & -> & Hm). cbn in Hm.
  change "NUMERIC(20,0)" with (with_precision "NUMERIC" 20 0).
  constructor; [lia|]. unfold decimal_fits. split; [lia|]. cbn. lia.
Qed.

Lemma renderPostgres_quiet t : rwarnings (renderPostgres t) = [].
Proof.
  induction t as [k l p s u el na no IH] using PortableType_nested_ind.
  destruct k; try done; cbn.
  - destruct p as [p|]; [case_match|]; done.
  - destruct el as [e|]; [by apply (IH e)|done].
Qed.

Lemma renderPostgres_holds t v : well_sized t = true → holds t v → pg_holds (rtype (renderPostgres t)) v.
Proof.
  revert v. induction t as [k l p s u el na no IH] using PortableType_nested_ind.
  intros v Hw Hv.
  destruct k; cbn in Hv; subst; try by (cbn; constructor).
  - cbn. destruct u; constructor; [|done].
    by apply (int_fits_weaken Ksmallint true).
  - cbn. destruct u; constructor; [|done].
    by apply (int_fits_weaken Kinteger true).
  - cbn. destruct u; [by apply pg_unsigned_bigint|by constructor].
  - cbn. destruct p as [p|].
    + pose proof (pg_decimal_holds (mkType Kdecimal l (Some p) s u el na no) v p Hw eq_refl eq_refl Hv) as H.
      cbn in H. by destruct (p <=? POSTGRES_MAX_PRECISION).
    + destruct Hv as (m & e & -> & He & _). by constructor.
  - cbn in *. destruct Hv as (n & -> & Hn). destruct (some_nonzero l) as [n'|]; [|constructor].
    cbn. bool_to_prop. by constructor.
  - cbn in *. destruct Hv as (n & -> & Hn). bool_to_prop. by constructor.
  - destruct Hv as (n & -> & _). constructor.
  - cbn in *. destruct el as [e|]; [|subst; constructor].
    destruct Hv as (vs & -> & Hvs). cbn. constructor.
    induction Hvs as [|x vs Hx _ IHvs]; constructor; [by apply (IH e)|done].
  - cbn. change "VARCHAR(24)" with (with_length "VARCHAR" 24). constructor; lia.
  - destruct Hv as (n & -> & _). constructor.
Qed.

(** *** MySQL *)

Lemma my_decimal_holds t v p :
  well_sized t = true → kind t = Kdecimal → precision t = Some p → holds t v →
  rwarnings (renderMysql t false) = [] → my_holds (rtype (renderMysql t false)) v.
Proof.
  intros Hw Hk Hp Hv. destruct t as [k l pr sc u el na no]. cbn in *. subst k pr.
  destruct Hv as (m & e & -> & He & Hf). bool_to_prop.
  cbn. unfold MYSQL_MAX_SCALE, MYSQL_MAX_PRECISION.
  destruct (Z.min p 65 =? p) eqn:Hpp; [|done].
  destruct (Z.min (default 0 sc) 30 =? default 0 sc) eqn:Hss; [|done].
  intros _. apply Z.eqb_eq in Hpp, Hss. cbn. rewrite Hpp, Hss.
  constructor; try lia. done.
Qed.

Lemma my_decimal_key t isKey :
  kind t = Kdecimal → renderMysql t isKey = renderMysql t false.
Proof. destruct t; cbn; intros ->; done. Qed.

Lemma renderMysql_holds t isKey v :
  well_sized t = true → rwarnings (renderMysql t isKey) = [] → holds t v →
  my_holds (rtype (renderMysql t isKey)) v.
Proof.
  destruct t as [k l p s u el na no]. intros Hw Hq Hv.
  destruct k; try done; try (cbn in Hv; subst; cbn; constructor; fail).
  - cbn in *. destruct u; by constructor.
  - cbn in *. destruct u; by constructor.
  - cbn in *. destruct u; by constructor.
  - rewrite my_decimal_key in * by done. destruct p as [p|]; [|done]. by eapply my_decimal_holds.
  - cbn in *. destruct Hv as (n & -> & Hn).
    destruct isKey; destruct l as [l|]; cbn in *; try done; try constructor;
      destruct (l =? 0) eqn:Hz; bool_to_prop; subst; cbn in *; try done; try constructor;
      case_match eqn:Hc; try done; cbn; try constructor; bool_to_prop;
      unfold MYSQL_MAX_KEY_CHARS, MYSQL_MAX_VARCHAR in *; lia.
  - cbn in *. destruct Hv as (n & -> & Hn). bool_to_prop.
    destruct (default 1 l <=? 255) eqn:Hc; bool_to_prop; [by constructor|].
    destruct isKey; [done|constructor].
  - destruct isKey; [done|]. destruct Hv as (n & -> & _). constructor.
  - destruct isKey; [done|]. cbn in Hv. subst. constructor.
  - destruct isKey; [done|]. cbn in Hv. subst. constructor.
  - cbn in Hv. subst v. cbn. change "CHAR(36)" with (with_length "CHAR" 36). constructor; lia.
  - destruct isKey; [done|]. cbn in Hv.
    destruct el as [e|]; [destruct Hv as (vs & -> & _)|subst]; constructor.
  - cbn in Hv. subst v. cbn. change "CHAR(24)" with (with_length "CHAR" 24). constructor; lia.
  - destruct isKey; [done|]. destruct Hv as (n & -> & _). constructor.
Qed.

(** *** SQLite *)

Lemma lite_decimal_bound p s m e :
  p <= 15 → decimal_fits p s m e → Z.abs m < 10 ^ 15.
Proof.
  intros Hp [[He Hs] Hm].
  assert (1 <= 10 ^ (s - e)) by (apply (Z.pow_le_mono_r 10 0 (s - e)); lia).
  assert (10 ^ p <= 10 ^ 15) by (apply Z.pow_le_mono_r; lia). nia.
Qed.

Lemma lite_int k u v :
  k ∈ [Ksmallint; Kinteger; Kbigint] → (k = Kbigint → u = false) →
  int_fits k u v → lite_holds "INTEGER" v.
Proof.
  intros Hk Hu (m & -> & Hm). constructor.
  rewrite !elem_of_cons, elem_of_nil in Hk.
  destruct Hk as [->|[->|[->|[]]]]; destruct u; cbn in Hm; try lia.
  by discriminate Hu.
Qed.

Lemma renderSqlite_holds t v :
  well_sized t = true → rwarnings (renderSqlite t) = [] → holds t v →
  lite_holds (rtype (renderSqlite t)) v.
Proof.
  destruct t as [k l p s u el na no]. intros Hw Hq Hv.
  destruct k; try (cbn in Hv; subst; cbn; constructor; fail).
  - apply (lite_int Ksmallint u); [by repeat constructor|done|done].
  - apply (lite_int Kinteger u); [by repeat constructor|done|done].
  - cbn in *. destruct u; [done|]. apply (lite_int Kbigint false); [by repeat constructor|done|done].
  - cbn in *. destruct p as [p|]; [|done]. unfold SQLITE_EXACT_DIGITS in *.
    destruct (p <=? 15) eqn:Hp; [|done]. bool_to_prop. destruct Hv as (m & e & -> & _ & Hf).
    constructor. by eapply lite_decimal_bound.
  - destruct Hv as (n & -> & _). constructor.
  - destruct Hv as (n & -> & _). constructor.
  - destruct Hv as (n & -> & _). constructor.
  - cbn in Hv. subst. constructor. by repeat constructor.
  - cbn in Hv. subst. constructor. by repeat constructor.
  - cbn in Hv. subst. constructor. by repeat constructor.
  - cbn in Hv. subst. constructor. by repeat constructor.
  - cbn in Hv. subst. constructor. by repeat constructor.
  - cbn in Hv. subst. constructor. by repeat constructor.
  - cbn in Hv. destruct el as [e|]; [destruct Hv as (vs & -> & _); constructor|subst].
    constructor. by repeat constructor.
  - destruct Hv as (n & -> & _). constructor.
Qed.

(** ** The promise of the module *)

Definition reused (dataType : option string) source target isKey : bool :=
  bool_decide (source = Some target) && reusable (parseColumnType dataType source) target isKey.


(** Whatever reading a declaration already lost or assumed is passed on: the
    note of the parsed type is the first warning of every translation of it. *)
Theorem notes_are_passed_on dataType source target isKey n :
  note (parseColumnType dataType source) = Some n → n ≠ EmptyString →
  reused dataType source target isKey = false →
  head (warnings (translateColumnType dataType source target isKey)) = Some n.
Proof.
  unfold reused, translateColumnType. intros Hn Hne ->. rewrite Hn.
  by rewrite decide_False.
Qed.

Lemma sample_parse :
  parseColumnType (Some "numeric(38,10)") (Some postgres) =
  mkType Kdecimal None (Some 38) (Some 10) false None "numeric(38,10)" None.
Proof. vm_compute. reflexivity. Qed.

Lemma sample_type :
  type (translateColumnType (Some "numeric(38,10)") (Some postgres) mysql false) = "DECIMAL(38,10)".
Proof. vm_compute. reflexivity. Qed.


Lemma notes_are_passed_on_witness :
  head (warnings (translateColumnType (Some "timetz") (Some postgres) mysql false))
  = Some time_zone_note.
Proof. apply notes_are_passed_on; vm_compute; [reflexivity|discriminate|reflexivity]. Defined.

(** a negative scale, which PostgreSQL allows, is declared to MySQL as it stands,
    without a warning, and MySQL has no such type *)
Example negative_scale :
  translateColumnType (Some "numeric(3,-2)") (Some postgres) mysql false
  = {| type := "DECIMAL(3,-2)"; warnings := [] |}.
Proof. vm_compute. reflexivity. Qed.

(** the note about an array's element is not passed on *)
Example element_note_is_lost :
  note <$> element (parseColumnType (Some "timetz[]") None) = Some (Some time_zone_note) ∧
  translateColumnType (Some "timetz[]") None postgres false = {| type := "TIME[]"; warnings := [] |}.
Proof. vm_compute. done. Qed.
