(* ===== verification/ValueMap.v ===== *)
(** Values between engines ([packages/core/src/bridges/value-map.ts]): what a
    row's values become on their way from one engine's driver to another's. *)
From S2P Require Import Prelude JsText JsNumber JsInteger JsDate JsIso JsValue JsBytes JsJson JsonText.
From S2P Require Import Stamp TypeMap.

Local Open Scope Z_scope.

(** a value as it is written: [JsonColumnValue] wraps what goes to a json column
    of PostgreSQL, anything else is itself *)
Inductive written :=
| Plain (v : jsval)
| JsonColumnValue (v : jsval).

Definition toPostgres (v : jsval) : json_out := stringify v.

Abbreviation ValueConverter := (jsval → written).

(** ** Timestamps *)

Record Instant := { ms : Z; micros : string }.

Definition parseInstant (text : string) : option Instant :=
  t ← read_TS (trim text);
  z ← tzone t;
  s ← second_of t;
  Some {| ms := s; micros := slice 0 6 (padEnd 6 "0"%char (tfraction t)) |}.

Definition wall_text (t : Z) (sep : ascii) : string :=
  let f := fields_of t in
  pad 4 (year f) +:+ "-" +:+ pad 2 (month f) +:+ "-" +:+ pad 2 (day f) +:+
  String sep (pad 2 (hours f) +:+ ":" +:+ pad 2 (minutes f) +:+ ":" +:+ pad 2 (seconds f)).

(** the fields of an invalid date print as [NaN] *)
Definition no_date (sep : ascii) : string := "0NaN-NaN-NaN" +:+ String sep "NaN:NaN:NaN".

Definition utcWallClock (i : Instant) (sep : ascii) : string :=
  match time_clip (ms i) with Some t => wall_text t sep | None => no_date sep end
  +:+ "." +:+ micros i.

Definition instantOf (v : jsval) : option Instant :=
  match v with
  | VDate (Some t) => Some {| ms := t / 1000 * 1000; micros := pad 3 (t mod 1000) +:+ "000" |}
  | VStr s => parseInstant s
  | _ => None
  end.

(** a zero year, month or day *)
Definition isZeroDate (v : jsval) : bool :=
  match v with
  | VStr s =>
      match chars s with
      | a :: b :: c :: d :: h :: m :: n :: h' :: x :: y :: _ =>
          let zero p q := (p =? "0")%char && (q =? "0")%char in
          forallb is_digit [a; b; c; d; m; n; x; y] && (h =? "-")%char && (h' =? "-")%char &&
          ((zero a b && zero c d) || zero m n || zero x y)
      | _ => false
      end
  | _ => false
  end.

(** ** One converter per kind *)

Definition isInteger (k : PortableKind) : bool :=
  match k with Ksmallint | Kinteger | Kbigint => true | _ => false end.

(** an instant's text, or the value as it was *)
Definition as_text (print : Instant → string) : ValueConverter := λ v,
  match instantOf v with Some i => Plain (VStr (print i)) | None => Plain v end.

Definition isoInstant : ValueConverter := as_text (λ i, utcWallClock i "T" +:+ "Z").

(** [new Date(i.ms + Number(i.micros.slice(0, 3)))] *)
Definition date_of (i : Instant) : jsval :=
  VDate (time_clip (ms i + number_of (slice 0 3 (micros i)))).

Definition timestamptzTo (target : DatabaseEngine) (isoInstants : bool) : option ValueConverter :=
  match target with
  | redis_engine => if isoInstants then Some isoInstant else None
  | mysql => Some (as_text (λ i, utcWallClock i " "))
  | sqlite => Some (as_text (λ i, utcWallClock i "T" +:+ "Z"))
  | mongodb => Some (λ v, match v with
                          | VDate _ => Plain v
                          | _ => match instantOf v with
                                 | Some i => Plain (date_of i)
                                 | None => Plain v
                                 end
                          end)
  | postgres => None
  end.

Definition last_byte (b : list Z) : Z := default 0 (last b).

Definition booleanTo (target : DatabaseEngine) : option ValueConverter :=
  match target with
  | mysql | sqlite =>
      Some (λ v, match v with
                 | VBytes b => Plain (VNum (num_of_Z (if last_byte b =? 0 then 0 else 1)))
                 | _ => Plain v
                 end)
  | _ =>
      Some (λ v, match v with
                 | VNull | VUndef | VBool _ => Plain v
                 | VBytes b => Plain (VBool (negb (last_byte b =? 0)))
                 | VNum n => Plain (VBool (negb (num_eq n (num_of_Z 0))))
                 | VStr s => if bool_decide (s = "0" ∨ s = "1") then Plain (VBool (bool_decide (s = "1")))
                             else Plain v
                 | _ => Plain v
                 end)
  end.

Definition reads_json_as_text (e : DatabaseEngine) : bool :=
  match e with sqlite | redis_engine => true | _ => false end.

Definition parsed (source : DatabaseEngine) (v : jsval) : jsval :=
  if reads_json_as_text source then
    match v with VStr s => default v (json_parse s) | _ => v end
  else v.

Definition jsonTo (source target : DatabaseEngine) : option ValueConverter :=
  match target with
  | mysql | sqlite | redis_engine => None
  | postgres => Some (λ v, JsonColumnValue (parsed source v))
  | mongodb => Some (λ v, Plain (parsed source v))
  end.

(** [/^-?\d+$/] *)
Definition integer_text (s : string) : bool :=
  let digits l := negb (bool_decide (l = [])) && forallb is_digit l in
  match chars s with
  | c :: r => if (c =? "-")%char then digits r else digits (c :: r)
  | [] => false
  end.

Definition is_safe_integer (n : num) : bool := is_integer n && (Z.abs (trunc_Z n) <=? 2 ^ 53 - 1).

Definition integerTo (target : DatabaseEngine) : option ValueConverter :=
  match target with
  | mongodb =>
      Some (λ v, match v with
                 | VStr s => if integer_text s && is_safe_integer (string_to_num s)
                             then Plain (VNum (string_to_num s)) else Plain v
                 | _ => Plain v
                 end)
  | _ => None
  end.

(** a wall-clock reading is taken as UTC *)
Definition timestamp_to_mongodb : ValueConverter := λ v,
  match v with
  | VStr s => match parseInstant (trim s +:+ "Z") with
              | Some i => Plain (date_of i)
              | None => Plain v
              end
  | _ => Plain v
  end.

Definition opaque_text : ValueConverter := λ v,
  match v with VBytes b => Plain (VStr (hex_text b)) | _ => Plain v end.

(** ** The converter of a column, and of a row *)

Definition kind_converter (k : PortableKind) (source target : DatabaseEngine) (isoInstants : bool)
  : option ValueConverter :=
  match k with
  | Ktimestamptz => timestamptzTo target isoInstants
  | Kboolean => booleanTo target
  | Kjson => jsonTo source target
  | Ktimestamp => match target with mongodb => Some timestamp_to_mongodb | _ => None end
  | Kopaque => Some opaque_text
  | _ => if isInteger k then integerTo target else None
  end.

Definition temporal (k : PortableKind) : bool :=
  match k with Kdate | Ktimestamp | Ktimestamptz => true | _ => false end.

Definition valueConverterFor (dataType : string) (source target : DatabaseEngine) (isoInstants : bool)
  : option ValueConverter :=
  let k := kind (parseColumnType (Some dataType) (Some source)) in
  if bool_decide (k = Kjson) && bool_decide (target = postgres) then jsonTo source target
  else if bool_decide (source = target) then None
  else
    let convert := kind_converter k source target isoInstants in
    if bool_decide (source = mysql) && temporal k then
      Some (λ v, if isZeroDate v then Plain VNull
                 else match convert with Some f => f v | None => Plain v end)
    else convert.

Abbreviation written_row := (list (string * written)).

Definition as_written (row : obj) : written_row := (λ kv, (kv.1, Plain kv.2)) <$> row.

(** the converters of a source's columns, by name *)
Definition converters (columns : list (string * string)) (source target : DatabaseEngine)
    (isoInstants : bool) : list (string * ValueConverter) :=
  omap (λ c, pair c.1 <$> valueConverterFor c.2 source target isoInstants) columns.

(** a marker, NULL or a missing column is left alone *)
Definition convert_column (row : obj) (out : written_row) (c : string * ValueConverter) : written_row :=
  match obj_find row c.1 with
  | None => out
  | Some before =>
      if is_nil before || is_sym before then out
      else (λ kv, if decide (kv.1 = c.1) then (kv.1, c.2 before) else kv) <$> out
  end.

Definition rowConverterFor (columns : list (string * string)) (source target : DatabaseEngine)
    (isoInstants : bool) : option (obj → written_row) :=
  match converters columns source target isoInstants with
  | [] => None
  | cs => Some (λ row, foldl (convert_column row) (as_written row) cs)
  end.

(** ** An instant's text is read back *)

(** an instant of a whole second between the year 100 and the last date, with
    its six digits *)
Record good_instant (i : Instant) : Prop := {
  good_range : Z.abs (ms i) <= max_time;
  good_second : ms i mod 1000 = 0;
  good_year : 100 <= year (fields_of (ms i));
  good_digits : Forall (λ c, is_digit c = true) (chars (micros i));
  good_length : List.length (chars (micros i)) = 6%nat
}.

Definition separator (sep : ascii) : Prop := sep = " "%char ∨ sep = "T"%char.

(** ** What a value says the instant is, told apart from how the code reads it *)

Definition sign_text (west : bool) : string := if west then "-" else "+".
Definition east (west : bool) (m : Z) : Z := m * (if west then -1 else 1).

(** what ends a text, and the minutes east of UTC it says its clock is *)
Inductive offset_text : string → Z → Prop :=
| offset_zulu : offset_text "Z" 0
| offset_hours west h : 0 <= h < 24 → offset_text (sign_text west +:+ pad 2 h) (east west (h * 60))
| offset_hours_minutes west h m :
    0 <= h < 24 → 0 <= m < 60 →
    offset_text (sign_text west +:+ pad 2 h +:+ ":" +:+ pad 2 m) (east west (h * 60 + m)).

Definition fraction_text (f : string) : string := match f with EmptyString => EmptyString | _ => "." +:+ f end.

(** a date says its instant; a text that shows a clock, up to six digits of a second
    and how far east the clock is says the instant at which that clock shows this *)
Inductive tells : jsval → Instant → Prop :=
| tells_date t : tells (VDate (Some t)) {| ms := t / 1000 * 1000; micros := pad 3 (t mod 1000) +:+ "000" |}
| tells_text t f z off sep :
    offset_text z off → separator sep → t mod 1000 = 0 →
    Forall (λ c, is_digit c = true) (chars f) → (List.length (chars f) <= 6)%nat →
    Z.abs (t + off * 60000) <= max_time → 100 <= year (fields_of (t + off * 60000)) →
    tells (VStr (wall_text (t + off * 60000) sep +:+ fraction_text f +:+ z))
      {| ms := t; micros := padEnd 6 "0"%char f |}.

Lemma zone_signed west c h rest mm :
  c ∈ ["+"; "-"]%char → (c =? "-")%char = west → 0 <= h < 100 → minute_part rest = (mm, []) →
  zone_part true (c :: chars (pad 2 h) ++ rest) = Some (Some (Offset west (pad 2 h) mm)).
Proof.
  intros Hc Hw Hh Hm. unfold zone_part.
  assert (is_space c = false ∧ c ∉ ["Z"; "z"]%char) as [Hs Hz]
    by (apply elem_of_cons in Hc as [->|Hc%list_elem_of_singleton]; [|subst c]; split; (done || set_solver)).
  cbn [drop_while]. rewrite Hs, bool_decide_eq_false_2, bool_decide_eq_true_2 by done.
  rewrite two_pad by done. cbn [mbind option_bind]. by rewrite Hm, Hw.
Qed.

Lemma offset_reads z off : offset_text z off →
  ∃ zone, zone_part true (chars z) = Some (Some zone) ∧ offset_minutes (Some zone) = off ∧
    (∃ c r, chars z = c :: r ∧ is_digit c = false ∧ c ≠ "."%char) ∧
    ∃ l d, chars z = l ++ [d] ∧ is_space d = false.
Proof.
  assert (Hend : ∀ a n, 0 <= n < 100 → ∃ l d, a ++ chars (pad 2 n) = l ++ [d] ∧ is_space d = false).
  { intros a n Hn. destruct (pad_spec 2 n) as [Hl _]; [lia|done|]. destruct (pad_digits 2 n) as (Hd & _ & _); [lia|].
    destruct (chars_of_length_2 _ Hl) as (x & y & Hxy). rewrite Hxy in *. exists (a ++ [x]), y. rewrite <- app_assoc. split; [done|].
    apply Forall_cons in Hd as [_ Hd]. apply Forall_cons in Hd as [Hy _]. by apply digit_facts. }
  assert (Hsign : ∀ west, ∃ c, chars (sign_text west) = [c] ∧ c ∈ ["+"; "-"]%char ∧ (c =? "-")%char = west).
  { intros []; eexists; (split; [reflexivity|]); split; try done; set_solver. }
  intros [|west h Hh|west h m Hh Hm].
  - exists Zulu. split_and!; [done|done|by eexists _, _|by exists [], "Z"%char].
  - destruct (Hsign west) as (c & Hc & Hin & Hw). rewrite chars_app, Hc. cbn [app].
    exists (Offset west (pad 2 h) None). split_and!.
    + rewrite <- (app_nil_r (chars (pad 2 h))). apply zone_signed; [done..|lia|done].
    + cbn. rewrite number_of_pad by lia. unfold east. lia.
    + eexists _, _. split; [done|]. by apply elem_of_cons in Hin as [->|Hin%list_elem_of_singleton]; [|subst c].
    + apply (Hend [c]). lia.
  - destruct (Hsign west) as (c & Hc & Hin & Hw). rewrite !chars_app, Hc. cbn [app].
    change (chars ":") with [":"%char]. cbn [app].
    exists (Offset west (pad 2 h) (Some (pad 2 m))). split_and!.
    + apply zone_signed; [done..|lia|]. unfold minute_part. rewrite one_of_here by (by left). cbn [from_option]. unfold id.
      pose proof (two_pad m [] ltac:(lia)) as Htwo. rewrite app_nil_r in Htwo. by rewrite Htwo.
    + cbn. rewrite !number_of_pad by lia. unfold east. lia.
    + eexists _, _. split; [done|]. by apply elem_of_cons in Hin as [->|Hin%list_elem_of_singleton]; [|subst c].
    + rewrite app_comm_cons, cons_middle, app_assoc. apply Hend. lia.
Qed.

(** the characters of a clock text *)
Lemma wall_chars t sep rest :
  let f := fields_of t in
  chars (wall_text t sep +:+ rest) =
  chars (pad 4 (year f)) ++ "-"%char :: chars (pad 2 (month f)) ++ "-"%char :: chars (pad 2 (day f)) ++
  sep :: chars (pad 2 (hours f)) ++ ":"%char :: chars (pad 2 (minutes f)) ++
  ":"%char :: chars (pad 2 (seconds f)) ++ chars rest.
Proof.
  cbv zeta. unfold wall_text. generalize (fields_of t). intros f.
  change (String sep ?s) with (of_chars [sep] +:+ s). rewrite !chars_app, chars_of_chars.
  change (chars "-") with ["-"%char]. change (chars ":") with [":"%char]. by rewrite <- !app_assoc.
Qed.

Lemma wall_trim t sep rest l d : 0 <= year (fields_of t) → chars rest = l ++ [d] → is_space d = false →
  trim (wall_text t sep +:+ rest) = wall_text t sep +:+ rest.
Proof.
  intros Hy Hrest Hd. rewrite <- (of_chars_chars (wall_text t sep +:+ rest)), wall_chars, Hrest. cbv zeta.
  destruct (pad_digits 4 _ Hy) as (Hdy & Hl & _).
  destruct (chars (pad 4 (year (fields_of t)))) as [|c r]; [cbn in Hl; lia|].
  inversion_clear Hdy as [|? ? Hc _]. rewrite <- app_comm_cons.
  repeat rewrite app_comm_cons || rewrite app_assoc. rewrite <- app_comm_cons.
  apply trim_inner; [by apply digit_facts|done].
Qed.

Lemma fraction_reads f r :
  Forall (λ c, is_digit c = true) (chars f) → (List.length (chars f) <= 6)%nat →
  (∃ c l, r = c :: l ∧ is_digit c = false ∧ c ≠ "."%char) →
  fraction_part (chars (fraction_text f) ++ r) = (f, r).
Proof.
  intros Hf Hl (c & l & -> & Hc & Hn). unfold fraction_text. destruct f as [|a f].
  - unfold fraction_part. cbn. by destruct (Ascii.eqb_spec c "."%char).
  - rewrite chars_app. change (chars ".") with ["."%char]. cbn [app].
    apply fraction_part_digits; [done| |done]. cbn in *. lia.
Qed.

Definition stamp_at (t : Z) (f : string) (zone : Zone) : StampText :=
  let c := fields_of t in
  {| tyear := pad 4 (year c); tmonth := pad 2 (month c); tday := pad 2 (day c);
     thour := Some (pad 2 (hours c)); tminute := Some (pad 2 (minutes c));
     tsecond := Some (pad 2 (seconds c)); tfraction := f; tzone := Some zone |}.

Lemma stamp_reads t f z zone sep :
  Z.abs t <= max_time → 0 <= year (fields_of t) → separator sep →
  fraction_part (chars (fraction_text f) ++ chars z) = (f, chars z) →
  zone_part true (chars z) = Some (Some zone) →
  read_TS (wall_text t sep +:+ fraction_text f +:+ z) = Some (stamp_at t f zone).
Proof.
  intros Ht Hy Hsep Hf Hz. destruct (fields_bounds t Ht) as (_ & Hmo & Hda & Hh & Hmi & Hse & _).
  unfold read_TS, stamp_at. rewrite wall_chars, chars_app. cbv zeta.
  generalize dependent (fields_of t). intros c Hy Hmo Hda Hh Hmi Hse.
  rewrite date_part_pads by lia. cbn [mbind option_bind].
  rewrite one_of_here by (destruct Hsep as [->| ->]; set_solver). cbn [mbind option_bind].
  rewrite two_pad by done. cbn [mbind option_bind]. rewrite one_of_here by (by left). cbn [mbind option_bind].
  rewrite two_pad by done. cbn [mbind option_bind]. rewrite one_of_here by (by left). cbn [mbind option_bind].
  rewrite two_pad by done. cbn [mbind option_bind]. rewrite Hf. cbn [mbind option_bind]. by rewrite Hz.
Qed.

Lemma second_of_stamp t f zone : Z.abs t <= max_time → t mod 1000 = 0 → 100 <= year (fields_of t) →
  second_of (stamp_at t f zone) = Some (t - offset_minutes (Some zone) * 60000).
Proof.
  intros Ht Hs Hy. pose proof (date_UTC_fields _ Ht Hs Hy) as Hu.
  destruct (fields_bounds t Ht) as (_ & Hmo & Hda & Hh & Hmi & Hse & _).
  unfold second_of, stamp_at. generalize dependent (fields_of t). intros c Hy Hu Hmo Hda Hh Hmi Hse.
  cbn [tyear tmonth tday thour tminute tsecond tzone default fmap option_fmap option_map].
  rewrite !number_of_pad by lia. unfold id. by rewrite Hu.
Qed.

Lemma pad_end_length f : (List.length (chars f) <= 6)%nat → List.length (chars (padEnd 6 "0"%char f)) = 6%nat.
Proof.
  intros Hl. unfold padEnd. rewrite chars_app, chars_of_chars, length_app, length_replicate, <- length_chars. lia.
Qed.

Lemma six_digits m : List.length (chars m) = 6%nat → slice 0 6 m = m.
Proof. intros Hl. unfold slice. rewrite drop_0, take_ge by (cbn; lia). apply of_chars_chars. Qed.

(** the code reads of a value the instant the value tells *)
Lemma told_is_read v i : tells v i → instantOf v = Some i.
Proof.
  intros [t|t f z off sep Hz Hsep Hs Hf Hl Ht Hy]; [done|]. cbn [instantOf].
  destruct (offset_reads z off Hz) as (zone & Hzone & Hoff & Hc & l & d & Hld & Hd).
  unfold parseInstant. rewrite (wall_trim _ sep _ (chars (fraction_text f) ++ l) d); [|lia| |done].
  2: { by rewrite chars_app, Hld, app_assoc. }
  rewrite (stamp_reads _ f z zone sep) by (by apply fraction_reads || lia || done).
  change (tzone (stamp_at (t + off * 60000) f zone)) with (Some zone). cbn [mbind option_bind].
  rewrite second_of_stamp; [|done| |done].
  2: { replace (off * 60000) with (off * 60 * 1000) by lia. by rewrite Z.mod_add. }
  cbn [mbind option_bind]. rewrite Hoff. change (tfraction (stamp_at (t + off * 60000) f zone)) with f.
  rewrite six_digits by (by apply pad_end_length). by replace (t + off * 60000 - off * 60000) with t by lia.
Qed.

Lemma text_app_assoc (x y z : string) : (x +:+ y) +:+ z = x +:+ (y +:+ z).
Proof. apply chars_inj. by rewrite !chars_app, app_assoc. Qed.

Lemma wall_clock_tells i sep : good_instant i → separator sep → tells (VStr (utcWallClock i sep +:+ "Z")) i.
Proof.
  intros [Hr Hs Hy Hd Hl] Hsep. unfold utcWallClock, time_clip. rewrite (proj2 (Z.leb_le _ _) Hr).
  assert (Hf : "." +:+ micros i = fraction_text (micros i)) by (unfold fraction_text; by destruct (micros i)).
  assert (Hm : padEnd 6 "0"%char (micros i) = micros i).
  { unfold padEnd. rewrite <- length_chars, Hl. apply chars_inj. rewrite chars_app. cbn. by rewrite app_nil_r. }
  assert (He : i = {| ms := ms i; micros := padEnd 6 "0"%char (micros i) |}) by (rewrite Hm; by destruct i).
  rewrite He at 3. replace (wall_text (ms i) sep) with (wall_text (ms i + 0 * 60000) sep) by (f_equal; lia).
  rewrite Hf, text_app_assoc. apply tells_text with (off := 0); try done; [constructor|lia| |].
  - by replace (ms i + 0 * 60000) with (ms i) by lia.
  - by replace (ms i + 0 * 60000) with (ms i) by lia.
Qed.

Lemma is_digits_app s t : Forall (λ c, is_digit c = true) (chars s) →
  Forall (λ c, is_digit c = true) (chars t) → Forall (λ c, is_digit c = true) (chars (s +:+ t)).
Proof. rewrite chars_app. intros. by apply Forall_app. Qed.

Lemma micros_of_fraction f : Forall (λ c, is_digit c = true) (chars f) →
  let m := slice 0 6 (padEnd 6 "0"%char f) in
  Forall (λ c, is_digit c = true) (chars m) ∧ List.length (chars m) = 6%nat.
Proof.
  intros Hf m. subst m. unfold slice, padEnd. rewrite chars_of_chars, drop_0. split.
  - apply Forall_take, is_digits_app; [done|]. rewrite chars_of_chars. by apply Forall_replicate.
  - rewrite length_take, chars_app, chars_of_chars, length_app, length_replicate, length_chars. lia.
Qed.

(** what an instant is made of, whatever it was read from *)
Lemma instant_parts v i : instantOf v = Some i →
  ms i mod 1000 = 0 ∧ Forall (λ c, is_digit c = true) (chars (micros i)) ∧
  List.length (chars (micros i)) = 6%nat.
Proof.
  destruct v as [| | | | |s| |[t|]| | |]; try done; cbn [instantOf].
  - unfold parseInstant. intros (t & Ht & H)%bind_Some. apply bind_Some in H as (z & _ & H).
    apply bind_Some in H as (u & Hu & [= <-]). cbn [ms micros].
    split; [by eapply second_of_whole|]. apply micros_of_fraction. by eapply read_TS_fraction.
  - intros [= <-]. cbn [ms micros]. split; [by rewrite Z.mod_mul|].
    assert (Hr : 0 <= t mod 1000 < 1000) by (by apply Z.mod_pos_bound).
    destruct (pad_digits 3 (t mod 1000)) as (Hd & _ & _); [lia|].
    destruct (pad_spec 3 (t mod 1000)) as [Hl _]; [lia|done|]. split.
    + apply is_digits_app; [done|]. repeat constructor.
    + rewrite chars_app, length_app, Hl. done.
Qed.

Lemma instant_good v i : instantOf v = Some i →
  Z.abs (ms i) <= max_time → 100 <= year (fields_of (ms i)) → good_instant i.
Proof. intros (H1 & H2 & H3)%instant_parts. by split. Qed.

(** the milliseconds that are left of it *)
Definition millisecond (i : Instant) : Instant :=
  {| ms := ms i; micros := slice 0 3 (micros i) +:+ "000" |}.

Lemma date_of_instant i t : good_instant i → date_of i = VDate (Some t) →
  instantOf (date_of i) = Some (millisecond i).
Proof.
  intros [_ Hs _ Hd Hl] Ht. unfold date_of in *. destruct (time_clip _) as [u|] eqn:Hu; [|done].
  assert (Hm : List.length (chars (slice 0 3 (micros i))) = 3%nat).
  { unfold slice. rewrite chars_of_chars, drop_0, length_take. lia. }
  assert (Hmd : Forall (λ c, is_digit c = true) (chars (slice 0 3 (micros i)))).
  { unfold slice. rewrite chars_of_chars. by apply Forall_take, Forall_drop. }
  unfold time_clip in Hu. destruct (_ <=? _); [|done]. injection Hu as <-.
  set (n := number_of (slice 0 3 (micros i))). 
  assert (Hn : 0 <= n < 1000).
  { unfold n, number_of. pose proof (digits_value_bound _ Hmd) as Hb. rewrite Hm in Hb. exact Hb. }
  cbn [instantOf]. unfold millisecond.
  assert (Hms : ms i = ms i / 1000 * 1000) by (pose proof (Z.div_mod (ms i) 1000); lia).
  set (q := ms i / 1000) in *.
  assert (Hdiv : (ms i + n) / 1000 = q) by (rewrite Hms, Z.add_comm, Z.div_add, Z.div_small; lia).
  assert (Hmod : (ms i + n) mod 1000 = n) by (rewrite Hms, Z.add_comm, Z.mod_add, Z.mod_small; lia).
  rewrite Hdiv, Hmod, <- Hms. do 2 f_equal. f_equal.
  apply chars_inj. unfold n, number_of. apply pad_digits_value; [lia|done|done].
Qed.

Lemma date_of_good i : good_instant i → Z.abs (ms i) + 1000 <= max_time → ∃ t, date_of i = VDate (Some t).
Proof.
  intros [_ _ _ Hd Hl] Hr. unfold date_of, time_clip. destruct (_ <=? _) eqn:Hle; [by eexists|]. exfalso.
  apply Z.leb_gt in Hle. assert (Hb : 0 <= number_of (slice 0 3 (micros i)) < 1000); [|lia].
  unfold number_of, slice. rewrite chars_of_chars, drop_0.
  pose proof (digits_value_bound (take (3 - 0) (chars (micros i))) ltac:(by apply Forall_take)) as Hb.
  rewrite length_take, Hl in Hb. exact Hb.
Qed.

Lemma instant_of_date t : instantOf (VDate (Some t)) =
  millisecond <$> instantOf (VDate (Some t)).
Proof.
  cbn [instantOf fmap option_fmap option_map]. unfold millisecond. cbn [ms micros]. do 2 f_equal.
  assert (Hr : 0 <= t mod 1000 < 1000) by (by apply Z.mod_pos_bound).
  destruct (pad_spec 3 (t mod 1000)) as [Hl _]; [lia|done|].
  unfold slice. rewrite chars_app, drop_0, take_app_le by (rewrite Hl; done).
  rewrite take_ge by (by rewrite Hl). by rewrite of_chars_chars.
Qed.

Lemma date_tells t j : instantOf (VDate (Some t)) = Some j → tells (VDate (Some t)) j.
Proof. intros [= <-]. constructor. Qed.

(** C34. A point in time survives the way to another engine. What a value tells
    ([tells]) is a date's instant, or the one at which a clock so many hours and minutes
    from UTC, which a text ends in, shows what the text shows, up to six digits of a
    second. Where neither that clock nor UTC shows a year before 100
    ([early_year_moves]) and the offset has no seconds ([offset_seconds_are_lost]), what
    is written tells the same instant: a text with a zone for SQLite and for a Redis
    document, the UTC reading for MySQL, to the microsecond; and a date for MongoDB,
    which has milliseconds only *)
Theorem instant_is_kept v i target isoInstants f :
  tells v i → Z.abs (ms i) + 1000 <= max_time → 100 <= year (fields_of (ms i)) →
  timestamptzTo target isoInstants = Some f →
  ∃ w, f v = Plain w ∧
    match target with
    | mongodb => tells w (millisecond i)
    | mysql => ∃ s, w = VStr s ∧ tells (VStr (s +:+ "Z")) i
    | _ => tells w i
    end.
Proof.
  intros Hv%told_is_read Hr Hy Hf. pose proof (instant_good v i Hv ltac:(lia) Hy) as Hi.
  destruct target; cbn in Hf; try done; [| | |destruct isoInstants; [|done]]; injection Hf as <-;
    unfold isoInstant, as_text; rewrite ?Hv.
  - eexists. split; [done|]. eexists. split; [done|]. apply wall_clock_tells; [done|by left].
  - eexists. split; [done|]. apply wall_clock_tells; [done|by right].
  - destruct (is_date v) eqn:Hd.
    + destruct v as [| | | | | | |[t|]| | |]; try done. exists (VDate (Some t)). split; [done|].
      apply date_tells. by rewrite instant_of_date, Hv.
    + exists (date_of i). split; [by destruct v as [| | | | |?| |[?|]| | |]|].
      destruct (date_of_good i Hi Hr) as [t Ht]. pose proof (date_of_instant i t Hi Ht) as Hm.
      rewrite Ht in *. by apply date_tells.
  - eexists. split; [done|]. apply wall_clock_tells; [done|by right].
Qed.

Definition half_past : jsval := VStr "2026-03-04 05:06:07.891234+04:30".

Definition half_past_instant : Instant := {| ms := 1772584567000; micros := "891234" |}.

Lemma half_past_tells : tells half_past half_past_instant.
Proof.
  change half_past with (VStr (wall_text (ms half_past_instant + east false (4 * 60 + 30) * 60000) " " +:+
    fraction_text "891234" +:+ (sign_text false +:+ pad 2 4 +:+ ":" +:+ pad 2 30))).
  apply (tells_text _ "891234" _ _ " "%char); try done.
  - by apply offset_hours_minutes.
  - by left.
  - by repeat constructor.
Qed.

Lemma instant_is_kept_witness :
  as_text (λ i, utcWallClock i " ") half_past = Plain (VStr "2026-03-04 00:36:07.891234") ∧
  ∃ w, as_text (λ i, utcWallClock i " ") half_past = Plain w ∧
    ∃ s, w = VStr s ∧ tells (VStr (s +:+ "Z")) half_past_instant.
Proof.
  split; [vm_compute; reflexivity|].
  apply (instant_is_kept half_past half_past_instant mysql false (as_text (λ i, utcWallClock i " ")));
    [exact half_past_tells|vm_compute; discriminate|vm_compute; discriminate|reflexivity].
Defined.

(** before the year 100, [Date.UTC] takes the year for one of the twentieth
    century: the year 50 is written as 1950 *)
Example early_year_moves :
  as_text (λ i, utcWallClock i " ") (VStr "0050-03-04 05:06:07+00") =
    Plain (VStr "1950-03-04 05:06:07.000000").
Proof. vm_compute. reflexivity. Qed.

(** the seconds of an offset, which PostgreSQL prints for local mean time, are
    read over: both texts are taken for the same instant *)
Example offset_seconds_are_lost :
  parseInstant "1890-01-01 00:00:00+05:53:28" = parseInstant "1890-01-01 00:00:00+05:53".
Proof. vm_compute. reflexivity. Qed.

(** ** A row *)

Section row.
Context (columns : list (string * string)) (source target : DatabaseEngine) (isoInstants : bool).
Context (row : obj).
Hypothesis keys_once : NoDup (obj_keys row).
Hypothesis columns_once : NoDup columns.*1.

Fixpoint type_of (columns : list (string * string)) (k : string) : option string :=
  match columns with
  | [] => None
  | (n, t) :: columns => if decide (n = k) then Some t else type_of columns k
  end.

Lemma type_of_none cs n : n ∉ cs.*1 → type_of cs n = None.
Proof.
  induction cs as [|[n' t'] cs IH]; [done|]. cbn. intros [? ?]%not_elem_of_cons.
  rewrite decide_False by done. auto.
Qed.

(** the same, but for one column *)
Definition set_column (n : string) (h : jsval → written) (g : string → jsval → written)
  : string → jsval → written := λ k v, if decide (k = n) then h v else g k v.

(** what becomes of a value of a column of this type *)
Definition converted (t : string) (v : jsval) : written :=
  match valueConverterFor t source target isoInstants with
  | Some f => if is_nil v || is_sym v then Plain v else f v
  | None => Plain v
  end.

Abbreviation written_by g := ((λ kv, (kv.1, g kv.1 kv.2)) <$> row).

Lemma convert_column_once (g : string → jsval → written) n t f :
  valueConverterFor t source target isoInstants = Some f → (∀ v, g n v = Plain v) →
  convert_column row (written_by g) (n, f) =
  written_by (set_column n (converted t) g).
Proof.
  intros Hf Hg. unfold convert_column, set_column, converted. rewrite Hf. cbn [fst snd].
  destruct (obj_find row n) as [before|] eqn:Hb.
  - assert (Hval : ∀ kv, kv ∈ row → kv.1 = n → kv.2 = before).
    { intros [k v] Hin. cbn. intros ->. apply (obj_find_NoDup row n v keys_once) in Hin. congruence. }
    destruct (is_nil before || is_sym before) eqn:Hskip; [|rewrite <- list_fmap_compose];
      apply list_fmap_ext; intros i kv Hkv; apply list_elem_of_lookup_2 in Hkv; cbn;
      (destruct (decide (kv.1 = n)) as [Hn|]; [|done]); rewrite (Hval kv Hkv Hn), Hskip, ?Hn; [by rewrite Hg|done].
  - apply list_fmap_ext. intros i kv Hkv. apply list_elem_of_lookup_2 in Hkv.
    destruct (decide (kv.1 = n)) as [Hn|]; [|done]. exfalso. destruct kv as [k v]. cbn in Hn. subst k.
    apply (obj_find_NoDup row n v keys_once) in Hkv. congruence.
Qed.

Lemma converters_cons n t cs :
  converters ((n, t) :: cs) source target isoInstants =
  match valueConverterFor t source target isoInstants with
  | Some f => (n, f) :: converters cs source target isoInstants
  | None => converters cs source target isoInstants
  end.
Proof. unfold converters. cbn. by destruct (valueConverterFor _ _ _ _). Qed.

Lemma convert_columns cs (g : string → jsval → written) :
  NoDup cs.*1 → (∀ n v, n ∈ cs.*1 → g n v = Plain v) →
  foldl (convert_column row) (written_by g) (converters cs source target isoInstants) =
  written_by (λ k v, match type_of cs k with Some t => converted t v | None => g k v end).
Proof.
  revert g. induction cs as [|[n t] cs IH]; intros g Hnd Hg; [done|].
  inversion_clear Hnd as [|? ? Hn Hnd']. rewrite converters_cons. cbn [type_of].
  destruct (valueConverterFor t source target isoInstants) as [f|] eqn:Hf; cbn [foldl].
  - rewrite (convert_column_once g n t f Hf) by (intros; apply Hg; by left).
    etrans; [apply (IH (set_column n (converted t) g) Hnd')|]; unfold set_column.
    + intros n' v Hn'. rewrite decide_False by (intros ->; done). apply Hg. by right.
    + apply list_fmap_ext. intros i kv _. f_equal. destruct (decide (n = kv.1)) as [<-|Hne].
      * by rewrite type_of_none, decide_True.
      * destruct (type_of cs kv.1); [done|]. by rewrite decide_False by done.
  - rewrite IH; [|done|intros; apply Hg; by right].
    apply list_fmap_ext. intros i kv _. f_equal. destruct (decide (n = kv.1)) as [<-|Hne]; [|done].
    rewrite type_of_none, Hg by (done || by left). unfold converted. by rewrite Hf.
Qed.

(** C35. Converting a row converts every column by its own type and does nothing
    else: no column is added, dropped or moved, a column whose type needs nothing
    keeps its value, and so does one that is NULL or was not carried *)
Theorem converted_row_spec f :
  rowConverterFor columns source target isoInstants = Some f →
  f row = (λ kv, (kv.1, match type_of columns kv.1 with
                        | Some t => converted t kv.2
                        | None => Plain kv.2
                        end)) <$> row.
Proof.
  unfold rowConverterFor. intros Hf.
  pose proof (convert_columns columns (λ _ v, Plain v) columns_once (λ _ _ _, eq_refl)) as H.
  destruct (converters columns source target isoInstants) as [|c cs]; [done|]. injection Hf as <-.
  exact H.
Qed.
End row.

Definition event_columns : list (string * string) :=
  [("at", "timestamp with time zone"); ("done", "boolean"); ("note", "text")].

Definition event_row : obj := [("note", VStr "x"); ("at", half_past); ("done", VSym "unchanged")].

Lemma converted_row_spec_witness :
  (λ f, f event_row) <$> rowConverterFor event_columns postgres mysql false =
    Some [("note", Plain (VStr "x")); ("at", Plain (VStr "2026-03-04 00:36:07.891234"));
          ("done", Plain (VSym "unchanged"))] ∧
  ∀ f, rowConverterFor event_columns postgres mysql false = Some f →
    f event_row = (λ kv, (kv.1, match type_of event_columns kv.1 with
                                | Some t => converted postgres mysql false t kv.2
                                | None => Plain kv.2
                                end)) <$> event_row.
Proof.
  split; [vm_compute; reflexivity|]. intros f Hf.
  apply (converted_row_spec event_columns postgres mysql false event_row);
    [apply (bool_decide_unpack _); vm_compute; done|apply (bool_decide_unpack _); vm_compute; done|exact Hf].
Defined.

(** JSON that SQLite keeps as text arrives in PostgreSQL as what it spells *)
Lemma json_text_is_parsed v : json_plain v = true →
  ∃ s, stringify v = JText s ∧ (λ f, f (VStr s)) <$> jsonTo sqlite postgres = Some (JsonColumnValue v).
Proof.
  intros (s & Hs & Hp)%json_round_trip. exists s. split; [done|]. cbn. by rewrite Hp.
Qed.
