(* ===== verification/RowCompare.v ===== *)
(** Comparing rows ([packages/core/src/bridges/row-compare.ts]): whether two
    drivers' readings are the same value, one spelling of a key, the columns of
    two rows that differ, and the columns that are never the same twice. *)
From stdpp Require Import sorting.
From S2P Require Import Prelude JsText JsNumber JsInteger JsDate JsIso JsValue JsBytes JsJson.
From S2P Require Import Stamp Template ColumnTransforms TypeMap ValueMap.

Local Open Scope Z_scope.

(** what the source column is; [None]: it has no column types *)
Abbreviation CompareKind := (option PortableKind).

Definition unwrap (v : written) : jsval :=
  match v with Plain v => v | JsonColumnValue v => v end.

Section compare.
Context `{JsPrint}.

(** ** Bytes *)

(** an element of [Uint8Array.from(data)]; the data of a [Buffer] that went
    through JSON are numbers *)
Definition to_uint8 (v : jsval) : Z :=
  let n := match v with
           | VNum n => n
           | VBool b => num_of_Z (if b then 1 else 0)
           | VNull => num_of_Z 0
           | VStr s => string_to_num s
           | VUndef => NaN
           | VDate t => match t with Some t => num_of_Z t | None => NaN end
           | _ => string_to_num (to_string v)
           end in
  if is_finite n then trunc_Z n mod 256 else 0.

Definition bytesOf (v : jsval) : option (list Z) :=
  match v with
  | VBytes b => Some b
  | VObj o =>
      match obj_get o "type", obj_get o "data" with
      | VStr t, VArr l => if bool_decide (t = "Buffer") then Some (to_uint8 <$> l) else None
      | _, _ => None
      end
  | _ => None
  end.

Definition hex : list Z → string := hex_text.

(** ** Numbers *)

Definition is_zero (c : ascii) : bool := (c =? "0")%char.

(** [replace(/0+$/, '')] *)
Definition strip_zeros (s : string) : string :=
  of_chars (reverse (drop_while is_zero (reverse (chars s)))).

(** the sign, the digits before the point and those behind it *)
Definition plain_decimal (text : string) : option (bool * list ascii * list ascii) :=
  let '(neg, l) := match chars text with
                   | c :: r => if (c =? "-")%char then (true, r)
                               else if (c =? "+")%char then (false, r) else (false, c :: r)
                   | [] => (false, [])
                   end in
  let whole := take_while is_digit l in
  match drop_while is_digit l with
  | [] => match whole with [] => None | _ => Some (neg, whole, []) end
  | c :: fraction =>
      if (c =? ".")%char && forallb is_digit fraction then
        match whole, fraction with [], [] => None | _, _ => Some (neg, whole, fraction) end
      else None
  end.

Definition decimal_spelling (neg : bool) (whole fraction : list ascii) : string :=
  let whole := match drop_while is_zero whole with [] => "0" | l => of_chars l end in
  let fraction := strip_zeros (of_chars fraction) in
  let magnitude := if bool_decide (fraction = EmptyString) then whole
                   else whole +:+ "." +:+ fraction in
  if neg && negb (bool_decide (magnitude = "0")) then "-" +:+ magnitude else magnitude.

Definition number_text (v : jsval) : option string :=
  match v with
  | VBig z => Some (Z_to_string z)
  | VNum n => if is_finite n then Some (num_to_string n) else None
  | VStr s => Some (trim s)
  | _ => None
  end.

Definition decimalText (v : jsval) : option string :=
  text ← number_text v;
  '(neg, whole, fraction) ← plain_decimal text;
  Some (decimal_spelling neg whole fraction).

Definition numberOf (v : jsval) : option num :=
  match v with
  | VNum n => Some n
  | VBig z => Some (num_of_Z z)
  | VStr s =>
      if bool_decide (trim s = EmptyString) then None else
      let text := toLowerCase (trim s) in
      if bool_decide (text = "nan") then Some NaN
      else if bool_decide (text ∈ ["infinity"; "+infinity"; "inf"]) then Some Infinity
      else if bool_decide (text ∈ ["-infinity"; "-inf"]) then Some (num_opp Infinity)
      else let n := string_to_num text in if num_is_nan n then None else Some n
  | _ => None
  end.

(** [Math.max] of two numbers that are not [NaN] *)
Definition num_max (a b : num) : num := if num_lt a b then b else a.

(** [10 ** -digits], which the language leaves to the engine *)
Context (tenth_power : nat → num).

Definition sameFloat (a b : jsval) (digits : nat) : option bool :=
  match numberOf a, numberOf b with
  | Some x, Some y =>
      Some (if num_is_nan x || num_is_nan y then num_is_nan x && num_is_nan y
            else if negb (is_finite x) || negb (is_finite y) then num_eq x y
            else if num_eq x y then true
            else num_le (num_abs (num_sub x y))
                   (num_mul (num_max (num_abs x) (num_abs y)) (tenth_power digits)))
  | _, _ => None
  end.

(** ** Booleans *)

Definition booleanOf (v : jsval) : option bool :=
  match v with
  | VBool b => Some b
  | VNum n => if num_eq n (num_of_Z 1) then Some true
              else if num_eq n (num_of_Z 0) then Some false else None
  | VBig z => if z =? 1 then Some true else if z =? 0 then Some false else None
  | VStr s =>
      let text := toLowerCase (trim s) in
      if bool_decide (text ∈ ["1"; "t"; "true"; "y"; "yes"; "on"]) then Some true
      else if bool_decide (text ∈ ["0"; "f"; "false"; "n"; "no"; "off"]) then Some false else None
  | _ =>
      match bytesOf v with
      | Some [b] => if b =? 1 then Some true else if b =? 0 then Some false else None
      | _ => None
      end
  end.

(** ** Time *)

Record Moment := { mseconds : Z; mfraction : string; millisOnly : bool }.

Definition momentOf (v : jsval) : option Moment :=
  match v with
  | VDate t =>
      t ← t;
      Some {| mseconds := t / 1000 * 1000; mfraction := strip_zeros (pad 3 (t mod 1000));
              millisOnly := true |}
  | VStr s =>
      t ← read_STAMP (trim s);
      u ← second_of t;
      Some {| mseconds := u; mfraction := strip_zeros (tfraction t); millisOnly := false |}
  | _ => None
  end.

Definition sameMoment (a b : jsval) : option bool :=
  match momentOf a, momentOf b with
  | Some x, Some y =>
      Some (if negb (mseconds x =? mseconds y) then false
            else if millisOnly x || millisOnly y then
              bool_decide (strip_zeros (slice 0 3 (mfraction x)) = strip_zeros (slice 0 3 (mfraction y)))
            else bool_decide (mfraction x = mfraction y))
  | _, _ => None
  end.

(** [TIME] *)
Definition timeText (v : jsval) : option string :=
  match v with
  | VStr s =>
      '(h, r) ← two (chars (trim s));
      r ← one_of [":"%char] r;
      '(mi, r) ← two r;
      let '(sec, f, r) := match one_of [":"%char] r ≫= two with
                          | Some (sec, r) => let (f, r) := fraction_part r in (sec, f, r)
                          | None => ("00", EmptyString, r)
                          end in
      match r with
      | [] => let fraction := strip_zeros f in
              Some (h +:+ ":" +:+ mi +:+ ":" +:+ sec +:+
                    (if bool_decide (fraction = EmptyString) then EmptyString else "." +:+ fraction))
      | _ => None
      end
  | _ => None
  end.

Definition dateText (v : jsval) : option string :=
  match v with
  | VDate t => slice 0 10 ∘ toISOString <$> t
  | VStr s => (λ t, tyear t +:+ "-" +:+ tmonth t +:+ "-" +:+ tday t) <$> read_STAMP (trim s)
  | _ => None
  end.

(** ** Structure *)

Fixpoint all_some {A} (l : list (option A)) : option (list A) :=
  match l with
  | [] => Some []
  | x :: l => x ← x; l ← all_some l; Some (x :: l)
  end.

Lemma all_some_cons {A} (x : A) o l ls : o = Some x → all_some l = Some ls → all_some (o :: l) = Some (x :: ls).
Proof. intros -> Hl. cbn. by rewrite Hl. Qed.

(** keys in order; [None] where it throws: an invalid date has no ISO text *)
Fixpoint in_key_order (v : jsval) : option jsval :=
  match v with
  | VArr l => VArr <$> all_some (in_key_order <$> l)
  | VDate t => VStr ∘ toISOString <$> t
  | VBig z => Some (VStr (Z_to_string z))
  | VBytes b => Some (VStr (String backslash ("x" +:+ hex b)))
  | VObj o =>
      match bytesOf v with
      | Some b => Some (VStr (String backslash ("x" +:+ hex b)))
      | None =>
          fields ← all_some ((λ kv, pair kv.1 <$> in_key_order kv.2) <$> o);
          Some (VObj (foldl (λ out kv, obj_define out kv.1 kv.2) []
                        (merge_sort (λ a b : string * jsval, str_le a.1 b.1) fields)))
      end
  | _ => Some v
  end.

(** an opening bracket, brace or quote, or a literal, at the head of the text *)
Definition looks_like_json (text : string) : bool :=
  match chars text with
  | c :: r =>
      bool_decide (c ∈ ["["%char; "{"%char; dquote]) ||
      startsWith "true" text || startsWith "false" text || startsWith "null" text ||
      is_digit c || ((c =? "-")%char && match r with d :: _ => is_digit d | [] => false end)
  | [] => false
  end.

Definition canonicalJson (v : jsval) (parseText : bool) : option string :=
  let value := match v with
               | VStr s => if parseText && looks_like_json (trim s)
                           then default v (json_parse (trim s)) else v
               | _ => v
               end in
  x ← in_key_order value;
  match stringify x with
  | JText s => Some s
  | JUndefined => Some "undefined"
  | JThrows => None
  end.

(** the same if any reading of the one is a reading of the other *)
Definition sameJson (a b : jsval) : option bool :=
  a1 ← canonicalJson a true; a2 ← canonicalJson a false;
  b1 ← canonicalJson b true; b2 ← canonicalJson b false;
  Some (bool_decide (b1 ∈ [a1; a2]) || bool_decide (b2 ∈ [a1; a2])).

(** ** The comparison *)

Definition is_bool (v : jsval) : bool := match v with VBool _ => true | _ => false end.
Definition is_number (v : jsval) : bool := match v with VNum _ | VBig _ => true | _ => false end.

(** the value of a comparison, or what comes after it where there is none *)
Definition or_else (r : option bool) (next : option bool) : option bool :=
  match r with Some b => Some b | None => next end.

Definition same_by {A} `{EqDecision A} (f : jsval → option A) (a b : jsval) : option bool :=
  match f a, f b with Some x, Some y => Some (bool_decide (x = y)) | _, _ => None end.

Definition sameUnknown (a b : jsval) : option bool :=
  or_else (if is_bool a || is_bool b then same_by booleanOf a b else None) (
  or_else (if is_date a || is_date b then sameMoment a b else None) (
  match bytesOf a, bytesOf b with
  | Some x, Some y => Some (bool_decide (hex x = hex y))
  | Some _, None | None, Some _ => Some false
  | None, None =>
      or_else (if is_number a || is_number b
               then or_else (same_by decimalText a b) (sameFloat a b 12) else None) (
      if is_object a || is_object b then sameJson a b
      else Some (bool_decide (to_string a = to_string b)))
  end)).

(** [None] where it throws *)
Definition sameValue (kind : CompareKind) (expected actual : written) : option bool :=
  let a := unwrap expected in
  let b := unwrap actual in
  let unknown := sameUnknown a b in
  if is_nil a || is_nil b then Some (is_nil a && is_nil b) else
  match kind with
  | Some Kboolean => or_else (same_by booleanOf a b) unknown
  | Some (Ksmallint | Kinteger | Kbigint | Kdecimal) =>
      or_else (same_by decimalText a b) (or_else (sameFloat a b 15) unknown)
  | Some Kfloat => or_else (sameFloat a b 6) unknown
  | Some Kdouble => or_else (sameFloat a b 14) unknown
  | Some (Ktimestamp | Ktimestamptz) => or_else (sameMoment a b) unknown
  | Some Kdate => or_else (same_by dateText a b) unknown
  | Some Ktime => or_else (same_by timeText a b) unknown
  | Some (Kjson | Karray) => sameJson a b
  | Some Kbytes =>
      match bytesOf a, bytesOf b with
      | Some x, Some y => Some (bool_decide (hex x = hex y))
      | _, _ => unknown
      end
  | Some Kuuid => Some (bool_decide (toLowerCase (to_string a) = toLowerCase (to_string b)))
  | Some Kchar => Some (bool_decide (trimEnd (to_string a) = trimEnd (to_string b)))
  | Some (Kobjectid | Kvarchar | Ktext | Kinterval | Kopaque) =>
      if is_object a || is_object b then unknown
      else Some (bool_decide (to_string a = to_string b))
  | None => unknown
  end.

(** ** Keys *)

Definition NUMERIC (k : CompareKind) : bool :=
  match k with
  | Some (Ksmallint | Kinteger | Kbigint | Kdecimal | Kfloat | Kdouble) => true
  | _ => false
  end.

Definition tagged (tag : string) (s : option string) : option string := (λ s, tag +:+ s) <$> s.

Definition flag_text (b : bool) : string := "n:" +:+ (if b then "1" else "0").

Definition moment_text (v : jsval) : option string :=
  (λ m, "t:" +:+ Z_to_string (mseconds m) +:+ "." +:+ mfraction m) <$> momentOf v.

(** the spelling a kind gives a value, where it has one for it *)
Definition key_of_kind (kind : CompareKind) (value : jsval) : option string :=
  match kind with
  | Some Kboolean => flag_text <$> booleanOf value
  | Some Kuuid => Some ("s:" +:+ toLowerCase (to_string value))
  | Some Kchar => Some ("s:" +:+ trimEnd (to_string value))
  | Some (Ktimestamp | Ktimestamptz) => moment_text value
  | Some Kdate => tagged "d:" (dateText value)
  | None =>
      match value with
      | VNum _ | VBig _ => tagged "n:" (decimalText value)
      | VStr s => if bool_decide (decimalText value = Some s) then Some ("n:" +:+ s) else None
      | VBool b => Some (flag_text b)
      | _ => None
      end
  | _ => if NUMERIC kind then tagged "n:" (decimalText value) else None
  end.

(** the one the value itself gives; [None] where it throws *)
Definition key_of_value (value : jsval) : option string :=
  match value with
  | VDate (Some t) =>
      Some ("t:" +:+ Z_to_string (t / 1000 * 1000) +:+ "." +:+ strip_zeros (pad 3 (Z.rem t 1000)))
  | VDate None => Some "t:NaN.NaN"
  | _ =>
      match bytesOf value with
      | Some b => Some ("x:" +:+ hex b)
      | None => if is_object value then tagged "j:" (canonicalJson value false)
                else Some ("s:" +:+ to_string value)
      end
  end.

Definition key_part (kind : CompareKind) (v : written) : option jsval :=
  let value := unwrap v in
  if is_nil value then Some VNull else
  match key_of_kind kind value with
  | Some s => Some (VStr s)
  | None => VStr <$> key_of_value value
  end.

Definition keyText (values : list written) (kinds : list CompareKind) : option string :=
  parts ← all_some (imap (λ i v, key_part (mjoin (kinds !! i)) v) values);
  match stringify (VArr parts) with JText s => Some s | _ => None end.

(** ** Two rows *)

Record ColumnDifference := { dcolumn : string; dexpected : jsval; dactual : jsval }.

Fixpoint diffRow (expected : written_row) (actual : obj) (kinds : string → CompareKind)
  : option (list ColumnDifference) :=
  match expected with
  | [] => Some []
  | (column, value) :: expected =>
      if is_sym (unwrap value) then diffRow expected actual kinds else
      match sameValue (kinds column) value (Plain (obj_get actual column)),
            diffRow expected actual kinds with
      | Some true, Some rest => Some rest
      | Some false, Some rest =>
          Some ({| dcolumn := column; dexpected := unwrap value;
                   dactual := obj_get actual column |} :: rest)
      | _, _ => None
      end
  end.

(** ** Columns that are never the same twice *)

(** [/\{\{\s*\$now\s*\}\}/.test(template)]: a match anywhere *)
Fixpoint uses_now (l : list ascii) : bool :=
  match any_token l with
  | Some (name, _) => bool_decide (name = "$now")
  | None => false
  end || match l with [] => false | _ :: l => uses_now l end.

Definition volatile_step (volatile : list string) (t : ColumnTransform) : list string :=
  match t with
  | SetCol c template =>
      if uses_now (chars template) ||
         existsb (λ name, bool_decide (name ∈ volatile)) (templateColumns (Some template))
      then set_add volatile c
      else filter (λ c', c' ≠ c) volatile
  | _ => volatile
  end.

Definition volatileColumns (transforms : option (list ColumnTransform)) : list string :=
  foldl volatile_step [] (default [] transforms).
End compare.
