(* ===== verification/Decimal.v ===== *)
(** Plain decimals have one spelling: two texts of digits are spelled alike by
    [decimalText] ([packages/core/src/bridges/row-compare.ts]) exactly when they
    are the same number, however long they are. *)
From Stdlib Require Import QArith.
From S2P Require Import Prelude JsText JsNumber JsInteger JsDate JsIso JsValue JsBytes JsJson.
From S2P Require Import JsonText Stamp Template ColumnTransforms TypeMap ValueMap RowCompare.

Local Open Scope Z_scope.

Abbreviation digits l := (Forall (λ c, is_digit c = true) l).

(** ** Digits and what they are worth *)

Lemma digits_value_app l r :
  digits_value (l ++ r) = digits_value l * 10 ^ Z.of_nat (List.length r) + digits_value r.
Proof. unfold digits_value at 1. rewrite foldl_app. apply digits_value_fold. Qed.

Lemma digits_value_zeros n : digits_value (replicate n "0"%char) = 0.
Proof. rewrite <- (app_nil_r (replicate n _)). apply digits_value_replicate. Qed.

Lemma is_zero_spec c : is_zero c = true ↔ c = "0"%char.
Proof. apply Ascii.eqb_eq. Qed.

(** leading zeros *)
Lemma drop_zeros l : ∃ k, l = replicate k "0"%char ++ drop_while is_zero l ∧
  match drop_while is_zero l with c :: _ => is_zero c = false | [] => True end.
Proof.
  induction l as [|c l (k & Hl & Hc)]; [by exists 0%nat|]. cbn. destruct (is_zero c) eqn:Hz.
  - apply is_zero_spec in Hz as ->. exists (S k). cbn. by rewrite <- Hl.
  - by exists 0%nat.
Qed.

(** trailing zeros *)
Lemma strip_zeros_spec l : ∃ k, l = chars (strip_zeros (of_chars l)) ++ replicate k "0"%char ∧
  match last (chars (strip_zeros (of_chars l))) with Some c => is_zero c = false | None => True end.
Proof.
  unfold strip_zeros. rewrite !chars_of_chars. destruct (drop_zeros (reverse l)) as (k & Hl & Hc).
  exists k. split.
  - rewrite <- (reverse_involutive l), Hl at 1. rewrite reverse_app. f_equal.
    apply reverse_replicate.
  - rewrite last_reverse. by destruct (drop_while is_zero (reverse l)).
Qed.

Lemma drop_while_all p q l : Forall (λ c, p c = true) l → Forall (λ c, p c = true) (drop_while q l).
Proof. induction 1 as [|c l Hc Hl IH]; cbn; [constructor|]. destruct (q c); [done|by constructor]. Qed.

Lemma digit_positive c : is_digit c = true → is_zero c = false → 1 <= digit_value c <= 9.
Proof. destruct c as [[] [] [] [] [] [] [] []]; done || (intros _ _; vm_compute; split; discriminate). Qed.

(** without leading zeros, the value says how many digits there are *)
Lemma leading_bound c l : digits (c :: l) → is_zero c = false →
  10 ^ Z.of_nat (List.length l) <= digits_value (c :: l) < 10 ^ Z.of_nat (S (List.length l)).
Proof.
  intros Hd Hz. pose proof (digits_value_bound _ Hd) as Hb. split; [|apply Hb].
  inversion_clear Hd as [|? ? Hc Hl]. change (c :: l) with ([c] ++ l).
  rewrite digits_value_app. pose proof (digit_positive c Hc Hz) as Hp.
  pose proof (digits_value_bound l Hl) as Hlb. change (digits_value [c]) with (digit_value c).
  pose proof (pow10_pos (List.length l)). nia.
Qed.

Definition no_leading (l : list ascii) : Prop :=
  match l with c :: _ => is_zero c = false | [] => True end.

Lemma leading_value l : digits l → no_leading l → digits_value l = 0 → l = [].
Proof.
  intros Hd Hn Hv. destruct l as [|c l]; [done|]. destruct (leading_bound c l Hd Hn) as [Hb _].
  pose proof (pow10_pos (List.length l)). lia.
Qed.

Lemma leading_inj l l' : digits l → digits l' → no_leading l → no_leading l' →
  digits_value l = digits_value l' → l = l'.
Proof.
  intros Hd Hd' Hn Hn' Hv.
  destruct l as [|c l]; [symmetry; apply leading_value; done|].
  destruct l' as [|c' l']; [by apply leading_value|].
  apply digits_value_inj; [done..| |done].
  destruct (leading_bound c l Hd Hn) as [H1 H2], (leading_bound c' l' Hd' Hn') as [H3 H4].
  assert (Hl : 10 ^ Z.of_nat (List.length l) < 10 ^ Z.of_nat (S (List.length l'))) by lia.
  assert (Hl' : 10 ^ Z.of_nat (List.length l') < 10 ^ Z.of_nat (S (List.length l))) by lia.
  apply Z.pow_lt_mono_r_iff in Hl, Hl'; [|lia..]. cbn. lia.
Qed.

(** ** Normal forms *)

Definition no_trailing (l : list ascii) : Prop :=
  match last l with Some c => is_zero c = false | None => True end.

Record normal (w f : list ascii) : Prop := {
  normal_whole : digits w;
  normal_fraction : digits f;
  normal_leading : no_leading w;
  normal_trailing : no_trailing f
}.

Lemma trailing_value f : digits f → no_trailing f → f ≠ [] → digits_value f mod 10 ≠ 0.
Proof.
  intros Hd Hn Hne. destruct f as [|c f _] using rev_ind; [done|]. unfold no_trailing in Hn.
  rewrite last_snoc in Hn. apply Forall_app in Hd as [_ Hd]. inversion_clear Hd as [|? ? Hc _].
  pose proof (digit_positive c Hc Hn). rewrite digits_value_snoc.
  rewrite Z.add_comm, Z.mod_add, Z.mod_small by lia. lia.
Qed.

(** the digits and the place of the point *)
Definition worth (w f : list ascii) (places : nat) : Z :=
  digits_value (w ++ f) * 10 ^ Z.of_nat (places - List.length f).

Lemma normal_unique w f w' f' (n : nat) :
  normal w f → normal w' f' → (List.length f <= n)%nat → (List.length f' <= n)%nat →
  worth w f n = worth w' f' n → w = w' ∧ f = f'.
Proof.
  assert (Hwlog : ∀ w f w' f', normal w f → normal w' f' → (List.length f <= List.length f')%nat →
    (List.length f' <= n)%nat → worth w f n = worth w' f' n → w = w' ∧ f = f').
  { clear. intros w f w' f' [Hw Hf Hl Ht] [Hw' Hf' Hl' Ht'] Hlen Hn Hv. unfold worth in Hv.
    set (d := (List.length f' - List.length f)%nat).
    assert (Hpow : 10 ^ Z.of_nat (n - List.length f) = 10 ^ Z.of_nat d * 10 ^ Z.of_nat (n - List.length f')).
    { rewrite <- Z.pow_add_r by lia. f_equal. lia. }
    rewrite Hpow in Hv. pose proof (pow10_pos (n - List.length f')) as Hp.
    assert (Heq : digits_value (w ++ f) * 10 ^ Z.of_nat d = digits_value (w' ++ f')) by nia.
    rewrite !digits_value_app in Heq.
    assert (Hd : d = 0%nat).
    { destruct d as [|d'] eqn:Hd; [done|]. exfalso.
      assert (Hf'ne : f' ≠ []) by (intros ->; cbn in Hd; lia).
      apply (trailing_value f' Hf' Ht' Hf'ne).
      destruct f' as [|c f'] using rev_ind; [done|]. rewrite length_app, digits_value_snoc in *. cbn [List.length] in *.
      rewrite Nat.add_1_r, !Nat2Z.inj_succ, !Z.pow_succ_r in Heq by lia.
      replace (digits_value f' * 10 + digit_value c) with
        ((digits_value w * 10 ^ Z.of_nat (List.length f) + digits_value f) * 10 ^ Z.of_nat d' * 10
         - digits_value w' * 10 ^ Z.of_nat (List.length f') * 10) by lia.
      rewrite <- Z.mul_sub_distr_r. apply Z.mod_mul. done. }
    rewrite Hd, Z.mul_1_r in Heq. assert (Hlf : List.length f = List.length f') by lia.
    rewrite Hlf in Heq. pose proof (digits_value_bound f Hf) as Hb. pose proof (digits_value_bound f' Hf') as Hb'.
    rewrite Hlf in Hb. pose proof (pow10_pos (List.length f')) as Hp'.
    assert (Hwv : digits_value w = digits_value w') by nia.
    split; [by apply leading_inj|]. apply digits_value_inj; try done. nia. }
  intros Hnf Hnf' Hn Hn' Hv. destruct (Nat.le_ge_cases (List.length f) (List.length f')) as [Hle|Hge].
  - by apply Hwlog.
  - destruct (Hwlog w' f' w f) as [-> ->]; done.
Qed.

(** ** A decimal's value *)

Definition leading (w : list ascii) : list ascii := drop_while is_zero w.
Definition trailing (f : list ascii) : list ascii := chars (strip_zeros (of_chars f)).
Definition is_empty (l : list ascii) : bool := match l with [] => true | _ => false end.

Definition decimal_number (neg : bool) (w f : list ascii) : Q :=
  Qmake ((if neg then -1 else 1) * digits_value (w ++ f)) (Z.to_pos (10 ^ Z.of_nat (List.length f))).

(** what a value is, taken exactly: nothing where it is no plain decimal *)
Definition decimal_value `{JsPrint} (v : jsval) : option Q :=
  text ← number_text v;
  '(neg, whole, fraction) ← plain_decimal text;
  Some (decimal_number neg whole fraction).

Lemma normal_canonical w f : digits w → digits f → normal (leading w) (trailing f).
Proof.
  intros Hw Hf. destruct (drop_zeros w) as (k & _ & Hl), (strip_zeros_spec f) as (k' & Hs & Ht).
  split; try done; [by apply drop_while_all|].
  rewrite Hs in Hf. by apply Forall_app in Hf as [? _].
Qed.

Lemma decimal_number_canonical neg w f :
  decimal_number neg w f == decimal_number neg (leading w) (trailing f).
Proof.
  destruct (drop_zeros w) as (k & Hw & _), (strip_zeros_spec f) as (k' & Hf & _).
  fold (leading w) in Hw. fold (trailing f) in Hf.
  unfold decimal_number, Qeq. cbn [Qnum Qden]. rewrite !Z2Pos.id by apply pow10_pos.
  assert (Hlen : List.length f = (List.length (trailing f) + k')%nat).
  { rewrite Hf at 1. by rewrite length_app, length_replicate. }
  assert (Hval : digits_value (w ++ f) = digits_value (leading w ++ trailing f) * 10 ^ Z.of_nat k').
  { rewrite Hw, Hf at 1. rewrite <- app_assoc, digits_value_replicate, app_assoc.
    by rewrite digits_value_app, digits_value_zeros, length_replicate, Z.add_0_r. }
  rewrite Hlen, Hval.
  rewrite Nat2Z.inj_add, Z.pow_add_r by lia. ring.
Qed.

Lemma normal_zero w f : normal w f → digits_value (w ++ f) = 0 → w = [] ∧ f = [].
Proof.
  intros [Hw Hf Hl Ht] Hv. rewrite digits_value_app in Hv.
  pose proof (digits_value_bound w Hw). pose proof (digits_value_bound f Hf).
  pose proof (pow10_pos (List.length f)).
  assert (Hf0 : digits_value f = 0) by nia. split; [apply leading_value; [done..|nia]|].
  destruct f as [|c f]; [done|]. exfalso. apply (trailing_value _ Hf Ht); [done|]. by rewrite Hf0.
Qed.

(** a sign is shown where there is something it changes *)
Definition shown (neg : bool) (w f : list ascii) : bool := neg && negb (is_empty w && is_empty f).

Lemma decimal_number_zero neg w f :
  decimal_number neg w f == inject_Z 0 ↔ digits_value (w ++ f) = 0.
Proof. unfold decimal_number, Qeq. cbn [Qnum Qden inject_Z]. destruct neg; lia. Qed.

(** two normal forms of one number are one *)
Lemma normal_number neg w f neg' w' f' : normal w f → normal w' f' →
  decimal_number neg w f == decimal_number neg' w' f' ↔
  shown neg w f = shown neg' w' f' ∧ w = w' ∧ f = f'.
Proof.
  intros Hn Hn'. split.
  - intros Hq. unfold decimal_number, Qeq in Hq. cbn [Qnum Qden] in Hq.
    rewrite !Z2Pos.id in Hq by apply pow10_pos.
    pose proof (digits_value_bound (w ++ f)) as Hb. pose proof (digits_value_bound (w' ++ f')) as Hb'.
    pose proof (normal_zero w f Hn) as Hz. pose proof (normal_zero w' f' Hn') as Hz'.
    destruct Hn as [Hw Hf ? ?], Hn' as [Hw' Hf' ? ?].
    specialize (Hb ltac:(by apply Forall_app)). specialize (Hb' ltac:(by apply Forall_app)).
    pose proof (pow10_pos (List.length f)). pose proof (pow10_pos (List.length f')).
    assert (Hworth : worth w f (List.length f + List.length f') = worth w' f' (List.length f + List.length f')).
    { unfold worth. rewrite Nat.add_comm, Nat.add_sub, Nat.add_comm, Nat.add_sub. destruct neg, neg'; nia. }
    apply normal_unique in Hworth as [<- <-]; [|by split..|lia|lia]. split_and!; [|done..].
    unfold shown. destruct (decide (digits_value (w ++ f) = 0)) as [Hzero|Hzero].
    + destruct (Hz Hzero) as [-> ->]. by rewrite !andb_false_r.
    + f_equal. destruct neg, neg'; nia || done.
  - intros (Hs & -> & ->). destruct (decide (digits_value (w' ++ f') = 0)) as [H0|H0].
    + transitivity (inject_Z 0); [|symmetry]; by apply decimal_number_zero.
    + assert (Hne : is_empty w' && is_empty f' = false) by (by destruct w', f').
      unfold shown in Hs. rewrite Hne, !andb_true_r in Hs. by rewrite Hs.
Qed.

(** ** Its spelling *)

Definition body (w f : list ascii) : list ascii :=
  (if is_empty w then ["0"%char] else w) ++ (if is_empty f then [] else "."%char :: f).

Lemma body_zero w f : no_leading w → of_chars (body w f) = "0" ↔ is_empty w && is_empty f = true.
Proof.
  intros Hw. split; [|by destruct w, f]. intros H%(f_equal chars). rewrite chars_of_chars in H.
  destruct w as [|c w], f as [|d f]; try done; cbn in H; injection H as H H'; subst; [done|].
  by destruct w.
Qed.

Lemma decimal_spelling_body neg w f : digits w →
  decimal_spelling neg w f =
    of_chars ((if shown neg (leading w) (trailing f) then ["-"%char] else []) ++ body (leading w) (trailing f)).
Proof.
  intros Hw. destruct (drop_zeros w) as (k & _ & Hl). fold (leading w) in Hl.
  pose proof (body_zero (leading w) (trailing f) Hl) as Hz.
  assert (Hm : (if bool_decide (strip_zeros (of_chars f) = EmptyString)
     then match leading w with [] => "0" | l => of_chars l end
     else match leading w with [] => "0" | l => of_chars l end +:+ "." +:+ strip_zeros (of_chars f)) =
     of_chars (body (leading w) (trailing f))).
  { apply chars_inj. rewrite chars_of_chars. unfold body, trailing.
    destruct (strip_zeros (of_chars f)) as [|c s].
    - change (is_empty (chars EmptyString)) with true.
      rewrite bool_decide_eq_true_2, app_nil_r by done. destruct (leading w); [done|apply chars_of_chars].
    - change (is_empty (chars (String c s))) with false; cbv iota.
      rewrite bool_decide_eq_false_2 by done. rewrite !chars_app.
      destruct (leading w); [done|]. by rewrite chars_of_chars. }
  unfold decimal_spelling. fold (leading w). cbv zeta. rewrite Hm. unfold shown.
  destruct neg; [|done]. cbn [andb].
  destruct (is_empty (leading w) && is_empty (trailing f)) eqn:He; cbn [negb].
  - by rewrite bool_decide_eq_true_2 by (by apply Hz).
  - rewrite bool_decide_eq_false_2; [done|]. intros ?%Hz. done.
Qed.

Lemma is_digit_dot c : is_digit c = true → c ≠ "."%char ∧ c ≠ "-"%char.
Proof. intros Hc. split; intros ->; done. Qed.

Lemma take_digits w r : digits w → (match r with c :: _ => is_digit c = false | [] => True end) →
  take_while is_digit (w ++ r) = w ∧ drop_while is_digit (w ++ r) = r.
Proof.
  intros Hw Hr. induction Hw as [|c w Hc Hw [IH1 IH2]]; cbn.
  - destruct r as [|c r]; [done|]. cbn. by rewrite Hr.
  - by rewrite Hc, IH1, IH2.
Qed.

Lemma body_inj w f w' f' : normal w f → normal w' f' → body w f = body w' f' → w = w' ∧ f = f'.
Proof.
  intros [Hw Hf Hl _] [Hw' Hf' Hl' _] Hb. unfold body in Hb.
  set (u := if is_empty w then _ else w) in Hb. set (u' := if is_empty w' then _ else w') in Hb.
  assert (Hu : digits u) by (subst u; destruct w; [by repeat constructor|done]).
  assert (Hu' : digits u') by (subst u'; destruct w'; [by repeat constructor|done]).
  assert (Hdot : ∀ g, match (if is_empty g then [] else "."%char :: g) with
                      | c :: _ => is_digit c = false | [] => True end) by (by intros [|]).
  destruct (take_digits u _ Hu (Hdot f)) as [Ht Hd], (take_digits u' _ Hu' (Hdot f')) as [Ht' Hd'].
  rewrite Hb in Ht, Hd. rewrite Ht' in Ht. rewrite Hd' in Hd. split.
  - subst u u'. destruct w as [|c w], w' as [|c' w']; cbn in Ht; try done.
    + injection Ht as -> ->. done.
    + injection Ht as <- <-. done.
  - destruct f, f'; cbn in Hd; congruence.
Qed.

Lemma spelling_inj neg w f neg' w' f' : digits w → digits f → digits w' → digits f' →
  decimal_spelling neg w f = decimal_spelling neg' w' f' ↔
  shown neg (leading w) (trailing f) = shown neg' (leading w') (trailing f') ∧
  leading w = leading w' ∧ trailing f = trailing f'.
Proof.
  intros Hw Hf Hw' Hf'. rewrite !decimal_spelling_body by done. split; [|by intros (-> & -> & ->)].
  pose proof (normal_canonical w f Hw Hf) as Hn. pose proof (normal_canonical w' f' Hw' Hf') as Hn'.
  intros H%(f_equal chars). rewrite !chars_of_chars in H.
  assert (Hhead : ∀ w f, normal w f → match body w f with c :: _ => c ≠ "-"%char | [] => True end).
  { clear. intros w f [Hw _ _ _]. destruct Hw as [|c w Hc _]; [done|]. by apply is_digit_dot. }
  pose proof (Hhead _ _ Hn) as Hm. pose proof (Hhead _ _ Hn') as Hm'.
  pose proof (body_inj _ _ _ _ Hn Hn') as Hinj.
  destruct (shown neg _ _), (shown neg' _ _); cbn [app] in H.
  - injection H as H. auto.
  - rewrite <- H in Hm'. done.
  - rewrite H in Hm. done.
  - auto.
Qed.

Lemma plain_decimal_digits t neg w f : plain_decimal t = Some (neg, w, f) → digits w ∧ digits f.
Proof.
  unfold plain_decimal. destruct (match chars t with [] => _ | _ => _ end) as [neg' l].
  pose proof (take_while_digits l) as Hw.
  destruct (drop_while is_digit l) as [|c fr].
  - destruct (take_while is_digit l); [done|]. by intros [= <- <- <-].
  - destruct ((c =? ".")%char && forallb is_digit fr) eqn:He; [|done].
    apply andb_true_iff in He as [_ He]. rewrite forallb_forall in He.
    assert (digits fr) by (apply Forall_forall; intros x Hx; apply He; by apply list_elem_of_In).
    destruct (take_while is_digit l) eqn:Hl, fr; intros [= <- <- <-]; done.
Qed.

Section decimals.
Context `{JsPrint}.

Lemma decimal_value_text v q : decimal_value v = Some q →
  ∃ t neg w f, number_text v = Some t ∧ plain_decimal t = Some (neg, w, f) ∧
    q = decimal_number neg w f ∧ decimalText v = Some (decimal_spelling neg w f).
Proof.
  unfold decimal_value, decimalText. destruct (number_text v) as [t|]; [|done]. cbn.
  destruct (plain_decimal t) as [[[neg w] f]|] eqn:Hp; [|done]. cbn. intros [= <-].
  by exists t, neg, w, f.
Qed.

Lemma decimalText_exact a b p q : decimal_value a = Some p → decimal_value b = Some q →
  decimalText a = decimalText b ↔ p == q.
Proof.
  intros (t & neg & w & f & _ & Hp%plain_decimal_digits & -> & ->)%decimal_value_text
    (t' & neg' & w' & f' & _ & Hq%plain_decimal_digits & -> & ->)%decimal_value_text.
  destruct Hp as [Hw Hf], Hq as [Hw' Hf'].
  rewrite (decimal_number_canonical neg w f), (decimal_number_canonical neg' w' f').
  rewrite normal_number by (by apply normal_canonical). rewrite <- spelling_inj by done.
  split; [by intros [= ->]|by intros ->].
Qed.
End decimals.

(** a big integer is what it says *)
Lemma decimal_value_big `{JsPrint} z : ∃ q, decimal_value (VBig z) = Some q ∧ q == inject_Z z.
Proof.
  assert (Hnum : ∀ neg w, digits w →
    decimal_number neg w [] == inject_Z ((if neg then -1 else 1) * digits_value w)).
  { intros neg w Hw. unfold decimal_number, Qeq. cbn [Qnum Qden inject_Z List.length]. rewrite app_nil_r. done. }
  assert (Hread : ∀ n : N, plain_decimal (pretty n) = Some (false, chars (pretty n), []) ∧
                     plain_decimal ("-" +:+ pretty n) = Some (true, chars (pretty n), [])).
  { intros n. destruct (pretty_spec n) as [(Hd & _ & Hne) _]. unfold plain_decimal. rewrite chars_app.
    change (chars "-") with ["-"%char]. cbn [app].
    destruct (chars (pretty n)) as [|c l] eqn:Hc; [done|].
    destruct (take_while_all is_digit (c :: l)) as [Ht Hr]; [done|].
    inversion_clear Hd as [|? ? Hcd _]. destruct (digit_facts c Hcd) as (_ & H1 & H2).
    assert (Hsign : (c =? "-")%char = false ∧ (c =? "+")%char = false).
    { split; apply Ascii.eqb_neq; intros ->; done. }
    destruct Hsign as [-> ->]. change ("-" =? "-")%char with true. cbv iota beta zeta. by rewrite Ht, Hr. }
  unfold decimal_value, number_text.
  destruct z as [|p|p]; [by eexists|..]; destruct (pretty_spec (Npos p)) as [(Hd & Hv & _) _];
    destruct (Hread (Npos p)) as [Hp Hm].
  - change (Z_to_string (Zpos p)) with (pretty (Npos p)). cbn [mbind option_bind]. rewrite Hp. cbn [mbind option_bind].
    eexists. split; [done|]. rewrite Hnum, Hv by done. by rewrite Z.mul_1_l.
  - change (Z_to_string (Zneg p)) with ("-" +:+ pretty (Npos p)). cbn [mbind option_bind]. rewrite Hm. cbn [mbind option_bind].
    eexists. split; [done|]. rewrite Hnum, Hv by done. done.
Qed.

Section exact.
Context `{JsPrint}.

Lemma key_part_plain k v x : key_part k v = Some x → json_plain x = true.
Proof.
  unfold key_part. destruct (is_nil (unwrap v)); [by intros [= <-]|].
  destruct (key_of_kind k (unwrap v)); [by intros [= <-]|].
  destruct (key_of_value (unwrap v)); by intros [= <-].
Qed.

Lemma all_some_Forall2 {A} (l : list (option A)) r : all_some l = Some r ↔ l = Some <$> r.
Proof.
  revert r. induction l as [|[x|] l IH]; intros r; cbn.
  - split; [by intros [= <-]|]. by destruct r.
  - destruct (all_some l) as [r'|] eqn:Hr; cbn.
    + rewrite (proj1 (IH r') eq_refl). split; [by intros [= <-]|].
      destruct r as [|y r]; [done|]. cbn. intros [= -> Hrr]. apply list_fmap_eq_inj in Hrr; [by subst|].
      by intros ?? [= ->].
    + split; [done|]. destruct r as [|y r]; [done|]. cbn. intros [= _ Hl]. by apply IH in Hl.
  - split; [done|]. by destruct r.
Qed.

(** keys are the same text only where their parts are *)
Lemma keyText_inj vs ks ws ls t : keyText vs ks = Some t → keyText ws ls = Some t →
  imap (λ i v, key_part (mjoin (ks !! i)) v) vs = imap (λ i v, key_part (mjoin (ls !! i)) v) ws.
Proof.
  assert (Hplain : ∀ (vs : list written) (ks : list CompareKind) (r : list jsval), imap (λ i v, key_part (mjoin (ks !! i)) v) vs = Some <$> r →
    json_plain (VArr r) = true).
  { clear. intros vs ks r Hr. change (forallb json_plain r = true). apply forallb_forall.
    intros x Hx%list_elem_of_In. assert (Hin : Some x ∈ Some <$> r) by (by apply list_elem_of_fmap_2).
    rewrite <- Hr in Hin. apply elem_of_lookup_imap in Hin as (i & v & Hk & _). by apply (key_part_plain _ _ _ (eq_sym Hk)). }
  unfold keyText.
  destruct (all_some (imap _ vs)) as [r|] eqn:Hr; [|done]. destruct (all_some (imap _ ws)) as [r'|] eqn:Hr'; [|done].
  apply all_some_Forall2 in Hr, Hr'. rewrite Hr, Hr'. cbn [mbind option_bind].
  destruct (json_round_trip _ (Hplain _ _ _ Hr)) as (t1 & -> & H1).
  destruct (json_round_trip _ (Hplain _ _ _ Hr')) as (t2 & -> & H2).
  intros [= ->] [= ->]. rewrite H1 in H2. by injection H2 as ->.
Qed.

(** ** Numbers compared and used as keys *)

Definition exact_kind (k : PortableKind) : bool :=
  match k with Ksmallint | Kinteger | Kbigint | Kdecimal => true | _ => false end.

Lemma decimal_not_nil v q : decimal_value v = Some q → is_nil v = false.
Proof. by destruct v. Qed.

Lemma key_part_decimal k a p : exact_kind k = true → decimal_value a = Some p →
  ∃ s, decimalText a = Some s ∧ key_part (Some k) (Plain a) = Some (VStr ("n:" +:+ s)).
Proof.
  intros Hk Ha. destruct (decimal_value_text _ _ Ha) as (t & neg & w & f & _ & _ & _ & Ht).
  eexists. split; [done|]. unfold key_part. cbn [unwrap].
  rewrite (decimal_not_nil _ _ Ha). by destruct k; try done; cbn; rewrite Ht.
Qed.

Definition sent (l : list jsval) : list written := Plain <$> l.

Lemma key_parts_decimal ks l ps : Forall (λ k, exact_kind k = true) ks →
  Forall2 (λ v p, decimal_value v = Some p) l ps → List.length ks = List.length l →
  ∃ ss, Forall2 (λ v s, decimalText v = Some s) l ss ∧
    imap (λ i v, key_part (mjoin ((Some <$> ks : list CompareKind) !! i)) v) (sent l) =
      Some <$> ((λ s, VStr ("n:" +:+ s)) <$> ss).
Proof.
  intros Hks Hl. revert ks Hks. induction Hl as [|v p l ps Hv Hl IH]; intros ks Hks Hlen.
  - exists []. by split.
  - destruct Hks as [|k ks Hk Hks]; [done|]. injection Hlen as Hlen.
    destruct (IH ks Hks Hlen) as (ss & Hss & Hi), (key_part_decimal k v p Hk Hv) as (s & Hs & Hp).
    exists (s :: ss). split; [by constructor|]. transitivity (key_part (Some k) (Plain v) ::
      imap (λ i v, key_part (mjoin ((Some <$> ks : list CompareKind) !! i)) v) (sent l)); [done|].
    by rewrite Hp, Hi.
Qed.

Lemma texts_are_values l m ps qs ss ts :
  Forall2 (λ v p, decimal_value v = Some p) l ps → Forall2 (λ v p, decimal_value v = Some p) m qs →
  Forall2 (λ v s, decimalText v = Some s) l ss → Forall2 (λ v s, decimalText v = Some s) m ts →
  ss = ts ↔ Forall2 Qeq ps qs.
Proof.
  intros Hl. revert m qs ss ts. induction Hl as [|v p l ps Hv Hl IH]; intros m qs ss ts Hm Hss Hts.
  - inversion_clear Hss. destruct m; inversion_clear Hm; inversion_clear Hts; [by split|].
    split; [done|]. intros Hf. by inversion_clear Hf.
  - inversion_clear Hss as [|? s ? ss' Hs Hss']. destruct m as [|w m].
    + inversion_clear Hm. inversion_clear Hts. split; [done|]. intros Hf. by inversion_clear Hf.
    + inversion_clear Hm as [|? q ? qs' Hw Hm']. inversion_clear Hts as [|? t ? ts' Ht Hts'].
      pose proof (decimalText_exact v w p q Hv Hw) as Hx. rewrite Hs, Ht in Hx.
      pose proof (IH _ _ _ _ Hm' Hss' Hts') as Hi. split.
      * intros [= -> ->]. constructor; [by apply Hx|by apply Hi].
      * intros Hf. inversion_clear Hf as [|? ? ? ? Hq Hqs]. apply Hx in Hq. injection Hq as ->.
        f_equal. by apply Hi.
Qed.

Lemma keyText_some vs ks r : imap (λ i v, key_part (mjoin (ks !! i)) v) vs = Some <$> r →
  ∃ t, keyText vs ks = Some t.
Proof.
  intros Hr. unfold keyText. rewrite (proj2 (all_some_Forall2 _ r) Hr). cbn [mbind option_bind].
  destruct (json_round_trip (VArr r)) as (t & -> & _); [|by eexists].
  change (forallb json_plain r = true). apply forallb_forall. intros x Hx%list_elem_of_In.
  assert (Hin : Some x ∈ Some <$> r) by (by apply list_elem_of_fmap_2).
  rewrite <- Hr in Hin. apply elem_of_lookup_imap in Hin as (i & v & Hk & _).
  by apply (key_part_plain _ _ _ (eq_sym Hk)).
Qed.

(** C32. Integers and decimals are compared exactly, however many digits they have
    and whichever way a driver spells them (1e2 aside: that is no plain decimal):
    two values are the same exactly when they are the same rational number, and
    the keys of two rows are the same text exactly when their columns are the same
    numbers, one by one. A big integer is the number it says *)
Theorem decimals_are_exact (tenth_power : nat → num) ks l m ps qs :
  Forall (λ k, exact_kind k = true) ks →
  Forall2 (λ v p, decimal_value v = Some p) l ps → Forall2 (λ v q, decimal_value v = Some q) m qs →
  List.length ks = List.length l → List.length ks = List.length m →
  (∀ k a b p q, exact_kind k = true → decimal_value a = Some p → decimal_value b = Some q →
     sameValue tenth_power (Some k) (Plain a) (Plain b) = Some (Qeq_bool p q)) ∧
  (∃ t u, keyText (sent l) (Some <$> ks) = Some t ∧ keyText (sent m) (Some <$> ks) = Some u ∧
     (t = u ↔ Forall2 Qeq ps qs)) ∧
  (∀ z, ∃ q, decimal_value (VBig z) = Some q ∧ q == inject_Z z).
Proof.
  intros Hks Hl Hm Hlen Hlen'. split_and!; [|clear tenth_power|apply decimal_value_big].
  - intros k a b p q Hk Ha Hb. pose proof (decimalText_exact a b p q Ha Hb) as Hx.
    destruct (key_part_decimal k a p Hk Ha) as (s & Hs & _), (key_part_decimal k b q Hk Hb) as (t & Ht & _).
    assert (Hv : sameValue tenth_power (Some k) (Plain a) (Plain b) = same_by decimalText a b).
    { unfold sameValue. cbn [unwrap]. rewrite (decimal_not_nil _ _ Ha), (decimal_not_nil _ _ Hb). cbn [orb].
      unfold same_by. rewrite Hs, Ht. by destruct k. }
    rewrite Hv. unfold same_by. rewrite Hs, Ht. f_equal. apply eq_true_iff_eq.
    rewrite Qeq_bool_iff, <- Hx, Hs, Ht, bool_decide_eq_true. split; [by intros ->|by intros [= ->]].
  - destruct (key_parts_decimal ks l ps) as (ss & Hss & Hi), (key_parts_decimal ks m qs) as (ts & Hts & Hj); [done..|].
    destruct (keyText_some _ _ _ Hi) as (t & Ht), (keyText_some _ _ _ Hj) as (u & Hu).
    exists t, u. split_and!; [done..|]. rewrite <- (texts_are_values l m ps qs ss ts) by done. split.
    + intros ->. pose proof (keyText_inj _ _ _ _ _ Ht Hu) as He. rewrite Hi, Hj in He.
      apply list_fmap_eq_inj in He; [|by intros ?? [= ->]]. apply list_fmap_eq_inj in He; [done|].
      intros x y Hxy. by simplify_eq/=.
    + intros ->. assert (Hsame : keyText (sent l) (Some <$> ks) = keyText (sent m) (Some <$> ks)).
      { unfold keyText. by rewrite Hi, Hj. }
      rewrite Ht, Hu in Hsame. by injection Hsame.
Qed.
End exact.

#[local] Instance sample_print : JsPrint := {| date_text _ := "date"; bytes_text _ := "bytes" |}.

Lemma decimals_are_exact_witness :
  ∃ t u, keyText (sent [VStr "007.50"; VBig 3]) (Some <$> [Kdecimal; Kbigint]) = Some t ∧
    keyText (sent [VStr " 7.5"; VStr "-3.0"]) (Some <$> [Kdecimal; Kbigint]) = Some u ∧
    (t = u ↔ Forall2 Qeq [(750 # 100)%Q; (3 # 1)%Q] [(75 # 10)%Q; (-30 # 10)%Q]).
Proof.
  apply (decimals_are_exact (λ _, NaN) [Kdecimal; Kbigint] [VStr "007.50"; VBig 3] [VStr " 7.5"; VStr "-3.0"]);
    repeat constructor.
Defined.
