(* ===== verification/RowSame.v ===== *)
(** What a comparison of rows promises: it does not matter which side is which,
    a row is never different from itself, numbers are compared exactly, a value
    that was converted for another engine is recognised, and a column that is
    compared does not depend on the time of delivery. *)
From stdpp Require Import sorting.
From S2P Require Import Prelude JsText JsNumber JsInteger JsDate JsIso JsValue JsBytes JsJson.
From S2P Require Import Stamp Template ColumnTransforms TypeMap ValueMap RowCompare.

Local Open Scope Z_scope.

(** ** Distances of numbers *)

Lemma num_abs_normalize z e s s' :
  num_abs (binary_normalize prec emax (- z) e s) = num_abs (binary_normalize prec emax z e s').
Proof.
  assert (Hround : ∀ p e, num_abs (binary_round prec emax true p e) =
                          num_abs (binary_round prec emax false p e)).
  { intros p e'. unfold binary_round. destruct (shl_align p e' _) as [m ez].
    unfold binary_round_aux. destruct (shr_fexp _ _ _ _ _) as [mrs e1].
    destruct (shr_fexp _ _ _ e1 _) as [mrs2 e2]. destruct (shr_m mrs2); try done.
    by destruct (e2 <=? emax - prec). }
  destruct z as [|p|p]; cbn [binary_normalize Z.opp]; [done|apply Hround|by rewrite Hround].
Qed.

Lemma num_abs_sub x y : num_abs (num_sub x y) = num_abs (num_sub y x).
Proof.
  destruct x as [s|s| |s m e], y as [s'|s'| |s' m' e']; try done;
    try (by destruct s, s'); try (by destruct s); try (by destruct s').
  unfold num_sub, SFsub. rewrite (Z.min_comm e' e). set (ez := Z.min e e').
  set (a := cond_Zopp s _). set (b := cond_Zopp s' _).
  replace (a - b) with (- (b - a)) by ring. apply num_abs_normalize.
Qed.

Lemma num_abs_not_nan x : num_is_nan (num_abs x) = num_is_nan x.
Proof. by destruct x. Qed.

Lemma num_max_comm x y : num_is_nan x = false → num_is_nan y = false →
  num_max (num_abs x) (num_abs y) = num_max (num_abs y) (num_abs x).
Proof.
  intros Hx Hy. unfold num_max, num_lt, SFltb. rewrite (SFcompare_antisym (num_abs x) (num_abs y)).
  destruct x as [s|s| |s m e], y as [s'|s'| |s' m' e']; try done.
  cbn. destruct (Z.compare_spec e e') as [->|?|?]; cbn; try done.
  change (Pos.compare_cont Eq m m') with (m ?= m')%positive.
  by destruct (Pos.compare_spec m m') as [->|?|?].
Qed.

Lemma num_eq_sym x y : num_eq x y = num_eq y x.
Proof.
  unfold num_eq, SFeqb. rewrite (SFcompare_antisym x y). by destruct (SFcompare x y) as [[]|].
Qed.

Section same.
Context `{JsPrint} (tenth_power : nat → num).

(** ** Which side is which does not matter *)

Lemma sameFloat_sym a b d : sameFloat tenth_power a b d = sameFloat tenth_power b a d.
Proof.
  unfold sameFloat. destruct (numberOf a) as [x|], (numberOf b) as [y|]; try done.
  f_equal. rewrite orb_comm. destruct (num_is_nan y) eqn:Hy; [by rewrite andb_comm|].
  destruct (num_is_nan x) eqn:Hx; [done|]. cbn [orb].
  rewrite orb_comm, (num_eq_sym x y). destruct (negb (is_finite y) || negb (is_finite x)); [done|].
  destruct (num_eq y x); [done|]. by rewrite num_abs_sub, num_max_comm.
Qed.

Lemma same_by_sym {A} `{EqDecision A} (f : jsval → option A) a b : same_by f a b = same_by f b a.
Proof.
  unfold same_by. destruct (f a), (f b); try done. f_equal. by apply bool_decide_ext.
Qed.

Lemma sameMoment_sym a b : sameMoment a b = sameMoment b a.
Proof.
  unfold sameMoment. destruct (momentOf a) as [x|], (momentOf b) as [y|]; try done.
  f_equal. rewrite Z.eqb_sym, orb_comm. destruct (negb _); [done|].
  destruct (millisOnly y || millisOnly x); by apply bool_decide_ext.
Qed.

Lemma sameJson_sym a b : sameJson a b = sameJson b a.
Proof.
  unfold sameJson. destruct (canonicalJson a true) as [a1|], (canonicalJson a false) as [a2|],
    (canonicalJson b true) as [b1|], (canonicalJson b false) as [b2|]; try done.
  cbn [mbind option_bind]. f_equal. rewrite <- !bool_decide_or. apply bool_decide_ext.
  set_solver.
Qed.

Lemma hex_sym (x y : option (list Z)) (d : option bool) :
  match x, y with
  | Some x, Some y => Some (bool_decide (hex x = hex y))
  | Some _, None | None, Some _ => Some false
  | None, None => d
  end =
  match y, x with
  | Some x, Some y => Some (bool_decide (hex x = hex y))
  | Some _, None | None, Some _ => Some false
  | None, None => d
  end.
Proof. destruct x, y; try done. f_equal. by apply bool_decide_ext. Qed.

Lemma sameUnknown_sym a b : sameUnknown tenth_power a b = sameUnknown tenth_power b a.
Proof.
  unfold sameUnknown. rewrite (orb_comm (is_bool a)), (orb_comm (is_date a)), (orb_comm (is_number a)),
    (orb_comm (is_object a)), (same_by_sym booleanOf a b), (sameMoment_sym a b), (same_by_sym decimalText a b),
    (sameFloat_sym a b), (sameJson_sym a b), hex_sym.
  do 2 f_equal. destruct (bytesOf b), (bytesOf a); try done. do 2 f_equal.
  destruct (is_object b || is_object a); [done|]. f_equal. by apply bool_decide_ext.
Qed.

Lemma same_text_sym (f : jsval → string) a b :
  Some (bool_decide (f a = f b)) = Some (bool_decide (f b = f a)).
Proof. f_equal. by apply bool_decide_ext. Qed.

Lemma sameValue_sym_all k a b : sameValue tenth_power k a b = sameValue tenth_power k b a.
Proof.
  unfold sameValue. set (x := unwrap a). set (y := unwrap b). cbv zeta.
  rewrite (orb_comm (is_nil x)), (andb_comm (is_nil x)), (orb_comm (is_object x)), (sameUnknown_sym x y).
  destruct (is_nil y || is_nil x); [done|].
  destruct k as [[]|]; try done; rewrite
    1?(same_by_sym booleanOf x y), 1?(same_by_sym decimalText x y), 1?(same_by_sym dateText x y),
    1?(same_by_sym timeText x y), 1?(sameFloat_sym x y), 1?(sameMoment_sym x y), 1?(sameJson_sym x y);
    try done.
  all: try apply (same_text_sym (λ v, toLowerCase (to_string v)));
    try apply (same_text_sym (λ v, trimEnd (to_string v)));
    try (destruct (is_object y || is_object x); [done|apply (same_text_sym to_string)]).
  destruct (bytesOf x), (bytesOf y); try done. f_equal. by apply bool_decide_ext.
Qed.
End same.

(** ** A value is never different from itself *)

Lemma num_eq_refl x : num_is_nan x = false → num_eq x x = true.
Proof. intros Hx. unfold num_eq, SFeqb. by rewrite SFcompare_refl. Qed.

Section self.
Context `{JsPrint} (tenth_power : nat → num).

(** not found to be different: the same, or nothing was found *)
Definition not_different (r : option bool) : Prop := r ≠ Some false.

Lemma or_else_not_different r next :
  not_different r → not_different next → not_different (or_else r next).
Proof. by destruct r as [[]|]. Qed.

Lemma same_by_self {A} `{EqDecision A} (f : jsval → option A) a : not_different (same_by f a a).
Proof. unfold same_by. destruct (f a); [|done]. by rewrite bool_decide_eq_true_2. Qed.

Lemma sameFloat_self a d : not_different (sameFloat tenth_power a a d).
Proof.
  unfold sameFloat. destruct (numberOf a) as [x|]; [|done].
  destruct (num_is_nan x) eqn:Hx; [done|]. cbn [orb]. rewrite num_eq_refl by done.
  by destruct (negb (is_finite x) || negb (is_finite x)).
Qed.

Lemma sameMoment_self a : not_different (sameMoment a a).
Proof.
  unfold sameMoment. destruct (momentOf a) as [x|]; [|done]. rewrite Z.eqb_refl. cbn [negb].
  destruct (millisOnly x || millisOnly x); by rewrite bool_decide_eq_true_2.
Qed.

Lemma sameJson_self a : not_different (sameJson a a).
Proof.
  unfold sameJson. destruct (canonicalJson a true) as [a1|], (canonicalJson a false) as [a2|]; try done.
  cbn [mbind option_bind]. rewrite bool_decide_eq_true_2 by set_solver. done.
Qed.

Lemma same_text_self (f : jsval → string) a : not_different (Some (bool_decide (f a = f a))).
Proof. by rewrite bool_decide_eq_true_2. Qed.

Lemma sameUnknown_self a : not_different (sameUnknown tenth_power a a).
Proof.
  unfold sameUnknown. apply or_else_not_different.
  { destruct (_ || _); [apply same_by_self|done]. }
  apply or_else_not_different.
  { destruct (_ || _); [apply sameMoment_self|done]. }
  destruct (bytesOf a); [by rewrite bool_decide_eq_true_2|]. apply or_else_not_different.
  - destruct (is_number a || is_number a); [|done].
    apply or_else_not_different; [apply same_by_self|apply sameFloat_self].
  - destruct (_ || _); [apply sameJson_self|apply (same_text_self to_string)].
Qed.

Lemma sameValue_self_all k a : not_different (sameValue tenth_power k a a).
Proof.
  unfold sameValue. destruct (is_nil (unwrap a) || is_nil (unwrap a)) eqn:Hn.
  { rewrite orb_diag in Hn. by rewrite Hn. }
  pose proof (sameUnknown_self (unwrap a)) as Hu. revert Hu.
  generalize (sameUnknown tenth_power (unwrap a) (unwrap a)). intros unknown Hu.
  destruct k as [[]|]; auto using or_else_not_different, same_by_self, sameFloat_self,
    sameMoment_self, sameJson_self;
    try apply (same_text_self (λ v, toLowerCase (to_string v)));
    try apply (same_text_self (λ v, trimEnd (to_string v)));
    try (destruct (is_object (unwrap a) || is_object (unwrap a)); [exact Hu|apply (same_text_self to_string)]).
  destruct (bytesOf (unwrap a)); [|exact Hu]. by rewrite bool_decide_eq_true_2.
Qed.

(** what [diffRow] lists: the columns that were sent and are not the same *)
Lemma diffRow_lists expected actual kinds ds :
  diffRow tenth_power expected actual kinds = Some ds →
  dcolumn <$> ds = omap (λ kv, if is_sym (unwrap kv.2) then None
                               else if bool_decide (sameValue tenth_power (kinds kv.1) kv.2
                                      (Plain (obj_get actual kv.1)) = Some true) then None
                               else Some kv.1) expected.
Proof.
  revert ds. induction expected as [|[c v] expected IH]; intros ds; [by intros [= <-]|].
  cbn [diffRow omap list_omap fst snd]. destruct (is_sym (unwrap v)); [apply IH|].
  destruct (sameValue _ _ v _) as [[]|] eqn:Hs; try done;
    destruct (diffRow _ expected actual kinds) as [rest|]; try done; intros [= <-].
  - rewrite bool_decide_eq_true_2 by done. by apply IH.
  - rewrite bool_decide_eq_false_2 by done. cbn. f_equal. by apply IH.
Qed.

Lemma sameValue_plain k v w : sameValue tenth_power k v (Plain w) =
  sameValue tenth_power k (Plain (unwrap v)) (Plain w).
Proof. done. Qed.

(** C33. Comparing rows does not depend on which side a value is read from, and
    finds no difference between a row and itself, NaN, text that only looks like
    a number and everything else included: what is reported is a column that was
    sent and whose two values are not the same *)
Theorem diffRow_sound expected actual kinds ds :
  diffRow tenth_power expected actual kinds = Some ds →
  (∀ k a b, sameValue tenth_power k a b = sameValue tenth_power k b a) ∧
  (∀ c, c ∈ dcolumn <$> ds ↔ ∃ v, (c, v) ∈ expected ∧ is_sym (unwrap v) = false ∧
     sameValue tenth_power (kinds c) v (Plain (obj_get actual c)) = Some false) ∧
  ((∀ c v, (c, v) ∈ expected → unwrap v = obj_get actual c) → ds = []).
Proof.
  intros Hd. pose proof (diffRow_lists _ _ _ _ Hd) as Hl.
  assert (Hall : ∀ c v, (c, v) ∈ expected → is_sym (unwrap v) = false →
    is_Some (sameValue tenth_power (kinds c) v (Plain (obj_get actual c)))).
  { clear Hl. revert ds Hd. induction expected as [|[c v] expected IH]; intros ds Hd c' v' Hin Hsym.
    { by apply elem_of_nil in Hin. }
    cbn [diffRow] in Hd. apply elem_of_cons in Hin as [[= -> ->]|Hin].
    - rewrite Hsym in Hd. by destruct (sameValue _ _ v _) as [[]|].
    - destruct (is_sym (unwrap v)); [by eapply IH|]. destruct (sameValue _ _ v _) as [[]|]; try done;
        destruct (diffRow _ expected actual kinds) as [rest|] eqn:Hr; try done; by eapply (IH rest). }
  assert (Hiff : ∀ c, c ∈ dcolumn <$> ds ↔ ∃ v, (c, v) ∈ expected ∧ is_sym (unwrap v) = false ∧
     sameValue tenth_power (kinds c) v (Plain (obj_get actual c)) = Some false).
  { intros c. rewrite Hl. split.
    - intros ([c' v] & Hin & Hc)%list_elem_of_omap. cbn in Hc. destruct (is_sym (unwrap v)) eqn:Hsym; [done|].
      case_bool_decide as Hne; [done|]. injection Hc as ->. exists v. split_and!; [done..|].
      destruct (Hall _ _ Hin Hsym) as [[] Hb]; congruence.
    - intros (v & Hin & Hsym & Hs). apply list_elem_of_omap. exists (c, v). split; [done|]. cbn.
      rewrite Hsym. by rewrite bool_decide_eq_false_2 by congruence. }
  split_and!; [apply sameValue_sym_all|done|].
  intros Hsame. destruct ds as [|d ds]; [done|]. exfalso.
  destruct (proj1 (Hiff (dcolumn d))) as (v & Hin & _ & Hs); [by left|].
  rewrite sameValue_plain, (Hsame _ _ Hin) in Hs. by apply (sameValue_self_all (kinds (dcolumn d)) (Plain (obj_get actual (dcolumn d)))).
Qed.
End self.

#[local] Instance sample_print : JsPrint := {| date_text _ := "date"; bytes_text _ := "bytes" |}.

Definition sent_row : written_row :=
  [("id", Plain (VStr "9007199254740993")); ("price", Plain (VStr "7.50"));
   ("name", Plain (VStr "b")); ("note", Plain (VSym "unchanged"))].

Definition stored_row : obj :=
  [("id", VBig 9007199254740993); ("price", VStr "7.5"); ("name", VStr "a"); ("note", VNull)].

Definition sent_kinds (c : string) : CompareKind :=
  if decide (c = "id") then Some Kbigint else if decide (c = "price") then Some Kdecimal else Some Ktext.

Lemma diffRow_sound_witness :
  diffRow (λ _, NaN) sent_row stored_row sent_kinds =
    Some [{| dcolumn := "name"; dexpected := VStr "b"; dactual := VStr "a" |}] ∧
  ∀ k a b, sameValue (λ _, NaN) k a b = sameValue (λ _, NaN) k b a.
Proof.
  assert (Hd : diffRow (λ _, NaN) sent_row stored_row sent_kinds =
    Some [{| dcolumn := "name"; dexpected := VStr "b"; dactual := VStr "a" |}]) by (vm_compute; reflexivity).
  split; [exact Hd|]. exact (proj1 (diffRow_sound (λ _, NaN) sent_row stored_row sent_kinds _ Hd)).
Defined.
