(* ===== verification/Volatile.v ===== *)
(** The columns a verification leaves out: what is compared of a row does not
    depend on the time of delivery ([volatileColumns],
    [packages/core/src/bridges/row-compare.ts]). *)
From S2P Require Import Prelude JsText JsNumber JsDate JsValue JsJson Template ColumnTransforms.
From S2P Require Import JsIso ValueMap RowCompare.

(** ** What a template names *)

Lemma drop_while_suffix p (l : list ascii) : drop_while p l `suffix_of` l.
Proof.
  induction l as [|c l IH]; cbn; [done|]. destruct (p c); [|done].
  by apply suffix_cons_r.
Qed.

Lemma close_braces_suffix l r : close_braces l = Some r → r `suffix_of` l.
Proof.
  unfold close_braces. repeat case_match; intros; simplify_eq. by do 2 apply suffix_cons_r.
Qed.

Lemma open_braces_suffix l r : open_braces l = Some r → r `suffix_of` l ∧ r ≠ l.
Proof.
  unfold open_braces. repeat case_match; intros; simplify_eq. split; [by do 2 apply suffix_cons_r|].
  intros H%(f_equal List.length). cbn in H. lia.
Qed.

Lemma any_token_suffix l n r : any_token l = Some (n, r) → r `suffix_of` l.
Proof.
  unfold any_token. destruct (open_braces l) as [r1|] eqn:H1; [|done]. cbn.
  apply open_braces_suffix in H1 as [H1 _].
  destruct (take_while token_char _); [done|]. destruct (close_braces _) as [r2|] eqn:H2; [|done].
  intros [= _ <-]. apply close_braces_suffix in H2.
  repeat (etrans; [eassumption|]). etrans; [apply drop_while_suffix|].
  etrans; [apply drop_while_suffix|]. etrans; [apply drop_while_suffix|done].
Qed.

Lemma uses_now_suffix l l' : l' `suffix_of` l → uses_now l' = true → uses_now l = true.
Proof.
  intros [k ->]. induction k as [|c k IH]; [done|]. intros Hl. cbn [app].
  change (uses_now (c :: k ++ l')) with
    (match any_token (c :: k ++ l') with Some (name, _) => bool_decide (name = "$now") | None => false end
     || uses_now (k ++ l')).
  rewrite IH by done. apply orb_true_r.
Qed.

Lemma now_in_tokens fuel l : "$now" ∈ omap token_name (scan any_token fuel l) → uses_now l = true.
Proof.
  revert l. induction fuel as [|fuel IH]; intros l; [by intros ?%elem_of_nil|].
  destruct l as [|c l]; [by intros ?%elem_of_nil|]. cbn [scan].
  destruct (any_token (c :: l)) as [[n r]|] eqn:Ht; cbn [omap list_omap token_name].
  - intros [Hn|Hin]%elem_of_cons.
    + cbn [uses_now]. by rewrite Ht, <- Hn.
    + apply (uses_now_suffix _ r); [by eapply any_token_suffix|by apply IH].
  - intros Hin. apply (uses_now_suffix _ l); [by apply suffix_cons_r|by apply IH].
Qed.

Lemma no_now_in_tokens tpl : uses_now (chars tpl) = false → "$now" ∉ token_names any_token tpl.
Proof. intros Hn Hin%now_in_tokens. congruence. Qed.

Lemma whole_token_named tpl n : whole_token tpl = Some n → n ∈ token_names any_token tpl.
Proof.
  unfold whole_token, token_names, pieces. rewrite <- length_chars.
  destruct (chars tpl) as [|c l] eqn:Hc; [by vm_compute|]. cbn [List.length scan].
  destruct (any_token (c :: l)) as [[n' [|]]|]; intros; simplify_eq. cbn. left.
Qed.

(** ** A step never makes a marker *)

Lemma json_elements_arr fuel acc l v r : json_elements fuel acc l = Some (v, r) → is_sym v = false.
Proof.
  revert acc l. induction fuel as [|fuel IH]; intros acc l; [done|]. cbn [json_elements].
  destruct (json_value fuel l) as [[x r1]|]; [|done]. destruct (skip_space r1) as [|d r']; [done|].
  destruct (code d =? 44)%N; [apply IH|]. destruct (code d =? 93)%N; [by intros [= <- _]|done].
Qed.

Lemma json_members_obj fuel acc l v r : json_members fuel acc l = Some (v, r) → is_sym v = false.
Proof.
  revert acc l. induction fuel as [|fuel IH]; intros acc l; [done|]. cbn [json_members].
  destruct (skip_space l) as [|q r0]; [done|]. destruct (negb _); [done|].
  destruct (json_string _ _ _) as [[k r1]|]; [|done]. destruct (skip_space r1) as [|d r2]; [done|].
  destruct (negb _); [done|]. destruct (json_value fuel r2) as [[x r3]|]; [|done]. cbv zeta.
  destruct (skip_space r3) as [|e r4]; [done|].
  destruct (code e =? 44)%N; [apply IH|]. destruct (code e =? 125)%N; [by intros [= <- _]|done].
Qed.

Lemma json_value_no_marker fuel l v r : json_value fuel l = Some (v, r) → is_sym v = false.
Proof.
  destruct fuel as [|fuel]; [done|]. cbn [json_value]. destruct (skip_space l) as [|c l']; [done|].
  assert (Hk : ∀ w x, is_sym x = false → keyword w x (c :: l') = Some (v, r) → is_sym v = false).
  { intros w x Hx. unfold keyword. destruct (is_prefix _ _); [|done]. by intros [= <- _]. }
  assert (Hn : match json_number (c :: l') with Some (n, r') => Some (VNum n, r') | None => None end
               = Some (v, r) → is_sym v = false).
  { destruct (json_number _) as [[n r']|]; [|done]. by intros [= <- _]. }
  destruct (code c) as [|p]; [exact Hn|].
  repeat (destruct p as [p|p|]; try exact Hn); intros Hv; cbv beta iota in Hv;
    repeat case_match; simplify_eq;
    try done; eauto 2 using json_elements_arr, json_members_obj;
    (eapply Hk; [|eassumption]; done).
Qed.

Section steps.
Context `{JsHost}.

Lemma json_parse_no_marker s v : json_parse s = Some v → is_sym v = false.
Proof.
  unfold json_parse. destruct (json_value _ _) as [[x r]|] eqn:Hv; [|done].
  destruct (skip_space r); [|done]. intros [= <-]. by eapply json_value_no_marker.
Qed.

Lemma mask_no_marker ctx mode ks ke fill salt v x :
  is_sym v = false → mask ctx mode ks ke fill salt v = Some x → is_sym x = false.
Proof.
  unfold mask. intros Hv. destruct (is_nil v); [by intros [= <-]|].
  destruct mode; [..|by intros [= <-]]; destruct (text v); try done; by intros [= <-].
Qed.

Lemma cast_no_marker to v x : is_sym v = false → cast to v = Some (Some x) → is_sym x = false.
Proof.
  unfold cast. intros Hv. destruct (is_nil v); [by intros [= <-]|].
  assert (Hmade : ∀ (o : option Z), (λ t, VStr (toISOString t)) <$> o = Some x → is_sym x = false).
  { intros [t|]; [|done]. by intros [= <-]. }
  assert (Hnum : ∀ (b : bool) (n : num),
    (if b then Some None else Some (Some (VNum n))) = Some (Some x) → is_sym x = false).
  { intros [] n Hn; [discriminate|]. injection Hn as <-. reflexivity. }
  assert (Hsome : ∀ y, is_sym y = false → Some (Some y) = Some (Some x) → is_sym x = false).
  { intros y Hy Hxy. injection Hxy as <-. exact Hy. }
  assert (Hbind : ∀ (o : option string) f, (∀ s, f s = Some (Some x) → is_sym x = false) →
    (s ← o; f s) = Some (Some x) → is_sym x = false).
  { intros [s|] f Hf; [exact (Hf s)|discriminate]. }
  destruct to.
  - apply Hbind. intros s. by apply Hsome.
  - destruct v; first [apply Hsome; reflexivity | apply Hbind; intros ?; apply Hnum].
  - destruct v; first [apply Hsome; reflexivity | apply Hbind; intros ?; apply Hnum].
  - assert (Htext : ∀ s : string, (if bool_decide (toLowerCase (trim s) ∈ TRUE) then Some (Some (VBool true))
      else if bool_decide (toLowerCase (trim s) ∈ FALSE) then Some (Some (VBool false)) else Some None)
      = Some (Some x) → is_sym x = false).
    { intros s. destruct (bool_decide _); [by apply Hsome|]. destruct (bool_decide _); [by apply Hsome|discriminate]. }
    destruct v; first [apply Hsome; reflexivity | apply Hbind; exact Htext].
  - assert (Hdate : ∀ s : string, Some ((λ t, VStr (toISOString t)) <$> date_parse (trim s)) = Some (Some x) →
      is_sym x = false).
    { intros s Hd. apply (Hmade (date_parse (trim s))). congruence. }
    destruct v as [| |b|n|z|s|d|[t|]|b|l|o]; try (apply Hbind; exact Hdate).
    + cbv zeta. intros Hd. destruct (is_finite _); [|discriminate].
      apply (Hmade (time_clip (trunc_Z (if num_lt (num_abs n) (num_of_Z 100000000000)
                     then num_mul n (num_of_Z 1000) else n)))). congruence.
    + by apply Hsome.
    + discriminate.
  - destruct v; try (by apply Hsome). intros Hj. apply (json_parse_no_marker s). congruence.
Qed.

Lemma scope_no_marker scope n v : scope_value scope n = Some v → is_sym v = false.
Proof.
  unfold scope_value. destruct (obj_find scope n); [|done]. destruct (isMarker _) eqn:Hm; [done|].
  by intros [= <-].
Qed.

(** a value that is no marker becomes one in no step the configuration accepts *)
Lemma apply_step_value ctx t st st' v :
  columnTransformSchema t = true → apply_step ctx t st = Some st' →
  obj_find (row st) (column t) = Some v → is_sym v = false →
  ∃ x, obj_find (row st') (column t) = Some x ∧ is_sym x = false.
Proof.
  intros Hsch Hs Hv Hm. unfold apply_step in Hs.
  assert (Hown : has_own (row st) (column t) = true) by (apply bool_decide_eq_true; by eexists).
  assert (Hget : obj_get (row st) (column t) = v) by (unfold obj_get; by rewrite Hv).
  assert (Hput : ∀ x, is_sym x = false →
    ∃ y, obj_find (obj_set (row st) (column t) x) (column t) = Some y ∧ is_sym y = false).
  { intros x Hx. exists x. by rewrite obj_find_set_own. }
  rewrite Hown, Hget in Hs. cbn [andb negb orb] in Hs.
  change (isMarker v) with (is_sym v) in Hs. rewrite Hm in Hs.
  destruct t as [c mode ks ke fill salt|c to oe|c op|c d|c tpl]; cbn [column] in *.
  - destruct (mask ctx mode ks ke fill salt v) eqn:Hmask; [|done]. injection Hs as <-. eauto using mask_no_marker.
  - destruct (cast to v) as [[x|]|] eqn:Hc; [|destruct (text v); [|done]|done]; cbn in Hs; injection Hs as <-.
    + eauto using cast_no_marker.
    + destruct oe; cbn; eauto.
  - destruct v; injection Hs as <-; eauto.
  - destruct (keysOnly ctx); [injection Hs as <-; eauto|]. destruct (is_nil v); injection Hs as <-; [|eauto].
    apply Hput. unfold columnTransformSchema in Hsch. apply andb_true_iff in Hsch as [_ Hsch]. by destruct d.
  - destruct (keysOnly ctx); [injection Hs as <-; eauto|]. case_bool_decide; [injection Hs as <-; eauto|].
    destruct (whole_token tpl ≫= scope_value _) as [x|] eqn:Hw.
    + injection Hs as <-. apply Hput. destruct (whole_token tpl) as [n|]; [|done]. by eapply scope_no_marker.
    + destruct (set_pieces _ _ _) as [[r w]|]; [|done]. cbn in Hs. injection Hs as <-. eauto.
Qed.

(** ** Two deliveries of one row *)

Definition at_time (ctx : ColumnTransformContext) (t : string) : ColumnTransformContext :=
  {| ctable := ctable ctx; cnow := t; hash := hash ctx; keysOnly := keysOnly ctx |}.

(** the same values, up to columns that depend on the time *)
Record agree (vs : list string) (o o' : obj) : Prop := {
  agree_names : Forall (λ c, startsWith "$" c = false) vs;
  agree_values c : obj_find o c = obj_find o' c ∨
    c ∈ vs ∧ ∃ x y, obj_find o c = Some x ∧ obj_find o' c = Some y ∧ is_sym x = false ∧ is_sym y = false
}.

Lemma agree_stable vs o o' c : agree vs o o' → c ∉ vs → obj_find o c = obj_find o' c.
Proof. intros [_ Hv] Hc. destruct (Hv c) as [?|[? _]]; done. Qed.

Lemma agree_scope vs o o' t1 t2 table n : agree vs o o' → n ∉ vs → n ≠ "$now" →
  scope_value (obj_define (obj_define o "$now" (VStr t1)) "$table" (VStr table)) n =
  scope_value (obj_define (obj_define o' "$now" (VStr t2)) "$table" (VStr table)) n.
Proof.
  intros Ha Hn Hnow. unfold scope_value. rewrite !obj_find_define, (agree_stable _ _ _ _ Ha Hn).
  destruct (decide (n = "$table")); [done|]. by destruct (decide (n = "$now")).
Qed.

Lemma set_pieces_agree c scope scope' ps :
  Forall (λ n, scope_value scope n = scope_value scope' n) (omap token_name ps) →
  set_pieces c scope ps = set_pieces c scope' ps.
Proof.
  induction ps as [|[x|n] ps IH]; cbn [omap list_omap token_name set_pieces]; intros Hps; [done|by rewrite IH|].
  inversion_clear Hps as [|? ? Hn Hps']. by rewrite Hn, IH.
Qed.

Lemma agree_put vs o o' c x y : agree vs o o' → plain_name c = true →
  x = y ∨ c ∈ vs ∧ is_sym x = false ∧ is_sym y = false →
  agree vs (obj_set o c x) (obj_set o' c y).
Proof.
  intros [Hn Hv] Hc Hxy. split; [done|]. intros d.
  rewrite !obj_find_set by (by apply plain_not_proto). destruct (decide (d = c)) as [->|]; [|done].
  destruct Hxy as [->|(? & ? & ?)]; [by left|]. right. split; [done|]. by exists x, y.
Qed.

Lemma agree_put_again vs o o' c x : agree vs o o' → plain_name c = true →
  agree (filter (λ d, d ≠ c) vs) (obj_set o c x) (obj_set o' c x).
Proof.
  intros [Hn Hv] Hc. split; [by apply Forall_kept|]. intros d.
  rewrite !obj_find_set by (by apply plain_not_proto). destruct (decide (d = c)) as [->|Hne]; [by left|].
  destruct (Hv d) as [?|[? ?]]; [by left|]. right. split; [|done]. by apply list_elem_of_filter.
Qed.

(** what one step does to the column it names, as a value: nothing, or it is put *)
Lemma template_agree vs o o' c t1 t2 tab tpl : agree vs o o' →
  uses_now (chars tpl) = false → existsb (λ n, bool_decide (n ∈ vs)) (templateColumns (Some tpl)) = false →
  let scope o t := obj_define (obj_define o "$now" (VStr t)) "$table" (VStr tab) in
  whole_token tpl ≫= scope_value (scope o t1) = whole_token tpl ≫= scope_value (scope o' t2) ∧
  set_pieces c (scope o t1) (pieces any_token tpl) = set_pieces c (scope o' t2) (pieces any_token tpl).
Proof.
  intros Ha Hnow Hvs scope.
  assert (Hall : Forall (λ n, scope_value (scope o t1) n = scope_value (scope o' t2) n)
                        (token_names any_token tpl)).
  { apply Forall_forall. intros n Hn. apply (agree_scope vs); [done| |].
    - intros Hin. assert (Hname : startsWith "$" n = false).
      { destruct Ha as [Hnames _]. rewrite Forall_forall in Hnames. auto. }
      apply not_true_iff_false in Hvs. apply Hvs. apply existsb_exists. exists n.
      split; [|by apply bool_decide_eq_true]. apply list_elem_of_In. unfold templateColumns.
      apply elem_of_set_of, list_elem_of_filter. split; [by rewrite Hname|done].
    - intros ->. by apply (no_now_in_tokens tpl). }
  split; [|by apply set_pieces_agree].
  destruct (whole_token tpl) as [n|] eqn:Hw; [|done]. cbn.
  rewrite Forall_forall in Hall. by apply Hall, whole_token_named.
Qed.

Definition scope_of (ctx : ColumnTransformContext) (o : obj) : obj :=
  obj_define (obj_define o "$now" (VStr (cnow ctx))) "$table" (VStr (ctable ctx)).

Definition computes (ctx : ColumnTransformContext) (c tpl : string) (o : obj) (x : jsval) : Prop :=
  match whole_token tpl ≫= scope_value (scope_of ctx o) with
  | Some y => x = y
  | None => ∃ r w, set_pieces c (scope_of ctx o) (pieces any_token tpl) = Some (r, w) ∧ x = VStr (of_chars r)
  end.

Lemma computes_value ctx c tpl o x : computes ctx c tpl o x → is_sym x = false.
Proof.
  unfold computes. destruct (whole_token tpl) as [n|]; cbn.
  - destruct (scope_value _ n) as [y|] eqn:Hs; [intros ->; by eapply scope_no_marker|].
    by intros (r & w & _ & ->).
  - by intros (r & w & _ & ->).
Qed.

Lemma set_puts ctx c tpl st st' : keysOnly ctx = false → plain_name c = true →
  apply_step ctx (SetCol c tpl) st = Some st' →
  (∃ d, obj_find (row st) c = Some (VSym d)) ∧ st' = st ∨
  (∀ d, obj_find (row st) c ≠ Some (VSym d)) ∧
  ∃ x, row st' = obj_set (row st) c x ∧ computes ctx c tpl (row st) x.
Proof.
  intros Hk Hc. unfold apply_step, computes, scope_of. cbn [column]. rewrite Hk.
  unfold plain_name in Hc. apply andb_true_iff in Hc as [_ Hc]. apply bool_decide_eq_true in Hc.
  unfold has_own, obj_get.
  destruct (obj_find (row st) c) as [v|] eqn:Hv; cbn [default from_option]; unfold id.
  - rewrite bool_decide_eq_true_2 by done. cbn [andb].
    destruct (isMarker v) eqn:Hm.
    { intros Hs. injection Hs as <-. left. split; [|done]. destruct v; try done. by eexists. }
    rewrite bool_decide_eq_false_2 by done. intros Hs. right. split; [intros d Hd; injection Hd as ->; done|].
    destruct (whole_token tpl ≫= _) as [y|]; [injection Hs as <-; by exists y|].
    destruct (set_pieces _ _ _) as [[r w]|]; [|done]. injection Hs as <-. eexists. split; [done|]. by exists r, w.
  - rewrite bool_decide_eq_false_2 by (by intros []). cbn [andb].
    rewrite bool_decide_eq_false_2 by done. intros Hs. right. split; [done|].
    destruct (whole_token tpl ≫= _) as [y|]; [injection Hs as <-; by exists y|].
    destruct (set_pieces _ _ _) as [[r w]|]; [|done]. injection Hs as <-. eexists. split; [done|]. by exists r, w.
Qed.

Lemma step_other ctx t st st' d : apply_step ctx t st = Some st' → d ≠ column t →
  obj_find (row st') d = obj_find (row st) d.
Proof.
  intros Hs Hd. apply apply_step_effect in Hs as [->|(x & -> & _)]; [done|]. by rewrite obj_find_set_ne.
Qed.

(** a step other than [set] looks at its own column only *)
Lemma step_local ctx t1 t2 t st1 st2 st1' st2' :
  (∀ c tpl, t ≠ SetCol c tpl) →
  apply_step (at_time ctx t1) t st1 = Some st1' → apply_step (at_time ctx t2) t st2 = Some st2' →
  obj_find (row st1) (column t) = obj_find (row st2) (column t) → plain_name (column t) = true →
  obj_find (row st1') (column t) = obj_find (row st2') (column t).
Proof.
  intros Hset H1 H2 Hc Hp. unfold apply_step in H1, H2.
  assert (Ho : has_own (row st1) (column t) = has_own (row st2) (column t)) by (unfold has_own; by rewrite Hc).
  assert (Hg : obj_get (row st1) (column t) = obj_get (row st2) (column t)) by (unfold obj_get; by rewrite Hc).
  assert (Hput : ∀ x, obj_find (obj_set (row st1) (column t) x) (column t) =
                      obj_find (obj_set (row st2) (column t) x) (column t)).
  { intros x. by rewrite !obj_find_set, !decide_True by (done || by apply plain_not_proto). }
  rewrite Ho, Hg in H1. destruct (has_own (row st2) (column t) && isMarker _); [by simplify_eq|].
  destruct t as [c mode ks ke fill salt|c to oe|c op|c d|c tpl]; cbn [column] in *.
  - destruct (has_own (row st2) c); [|by simplify_eq].
    change (mask (at_time ctx t1) mode) with (mask (at_time ctx t2) mode) in H1.
    destruct (mask _ _ _ _ _ _ _); [|done]. cbn in H1, H2. simplify_eq. apply Hput.
  - destruct (negb _); [by simplify_eq|]. destruct (cast to _) as [[x|]|]; [|destruct (text _); [|done]|done];
      cbn in H1, H2; simplify_eq; [apply Hput|]. destruct oe; [done|apply Hput|done].
  - destruct (obj_get (row st2) c); simplify_eq; try done. destruct (has_own (row st2) c); [apply Hput|done].
  - cbn [keysOnly at_time] in H1, H2. destruct (keysOnly ctx); [by simplify_eq|].
    destruct (negb _ || _); simplify_eq; [apply Hput|done].
  - by destruct (Hset c tpl).
Qed.

Lemma agree_other (vs vs' : list string) ctx1 ctx2 t st1 st2 st1' st2' d : agree vs (row st1) (row st2) →
  apply_step ctx1 t st1 = Some st1' → apply_step ctx2 t st2 = Some st2' → d ≠ column t →
  (d ∈ vs → d ∈ vs') →
  obj_find (row st1') d = obj_find (row st2') d ∨
  d ∈ vs' ∧ ∃ x y, obj_find (row st1') d = Some x ∧ obj_find (row st2') d = Some y ∧
    is_sym x = false ∧ is_sym y = false.
Proof.
  intros [_ Hv] H1 H2 Hd Hin. rewrite (step_other _ _ _ _ _ H1 Hd), (step_other _ _ _ _ _ H2 Hd).
  destruct (Hv d) as [?|[? ?]]; [by left|right; auto].
Qed.

Lemma local_step_agree vs ctx t1 t2 t st1 st2 st1' st2' :
  (∀ c tpl, t ≠ SetCol c tpl) → columnTransformSchema t = true → plain_name (column t) = true →
  agree vs (row st1) (row st2) →
  apply_step (at_time ctx t1) t st1 = Some st1' → apply_step (at_time ctx t2) t st2 = Some st2' →
  agree vs (row st1') (row st2').
Proof.
  intros Hset Hsch Hp Ha H1 H2. split; [apply Ha|]. intros d.
  destruct (decide (d = column t)) as [->|Hd]; [|by eapply agree_other].
  destruct Ha as [_ Hv]. destruct (Hv (column t)) as [Heq|(Hin & x & y & Hx & Hy & Hsx & Hsy)].
  - left. by eapply step_local.
  - right. split; [done|].
    destruct (apply_step_value _ _ _ _ _ Hsch H1 Hx Hsx) as (x' & ? & ?).
    destruct (apply_step_value _ _ _ _ _ Hsch H2 Hy Hsy) as (y' & ? & ?). by exists x', y'.
Qed.

Lemma set_step_agree vs ctx t1 t2 c tpl st1 st2 st1' st2' :
  keysOnly ctx = false → plain_name c = true → agree vs (row st1) (row st2) →
  apply_step (at_time ctx t1) (SetCol c tpl) st1 = Some st1' →
  apply_step (at_time ctx t2) (SetCol c tpl) st2 = Some st2' →
  agree (volatile_step vs (SetCol c tpl)) (row st1') (row st2').
Proof.
  intros Hk Hp Ha H1 H2.
  assert (Hfind : ∀ (o : obj) x, obj_find (obj_set o c x) c = Some x).
  { intros o x. by rewrite obj_find_set, decide_True by (done || by apply plain_not_proto). }
  pose proof (set_puts (at_time ctx t1) _ _ _ _ Hk Hp H1) as P1.
  pose proof (set_puts (at_time ctx t2) _ _ _ _ Hk Hp H2) as P2.
  assert (Hmark : (∃ d, obj_find (row st1) c = Some (VSym d)) ↔ (∃ d, obj_find (row st2) c = Some (VSym d))).
  { destruct (agree_values _ _ _ Ha c) as [->|(_ & x & y & -> & -> & Hx & Hy)]; [done|].
    split; intros [d Hd]; injection Hd as ->; done. }
  assert (Hdollar : startsWith "$" c = false).
  { unfold plain_name in Hp. apply andb_true_iff in Hp as [Hp _]. by apply negb_true_iff. }
  cbn [volatile_step]. destruct (uses_now (chars tpl) || _) eqn:Hvol.
  - split.
    { apply Forall_forall. intros d [Hd| ->]%elem_of_set_add; [|done].
      pose proof (agree_names _ _ _ Ha) as Hn. rewrite Forall_forall in Hn. auto. }
    intros d. destruct (decide (d = c)) as [->|Hd].
    2: { eapply agree_other; [done..|]. intros ?. apply elem_of_set_add. by left. }
    destruct P1 as [[M1 ->]|(N1 & x & -> & Hx)], P2 as [[M2 ->]|(N2 & y & -> & Hy)].
    + destruct M1 as [d1 Hd1], M2 as [d2 Hd2].
      destruct (agree_values _ _ _ Ha c) as [?|(_ & x & y & Hx & _ & Hsx & _)]; [by left|].
      rewrite Hd1 in Hx. by injection Hx as <-.
    + apply Hmark in M1 as [d Hd]. by destruct (N2 d Hd).
    + apply Hmark in M2 as [d Hd]. by destruct (N1 d Hd).
    + right. rewrite !Hfind. split; [apply elem_of_set_add; by right|].
      exists x, y. split_and!; [done..| |]; by eapply computes_value.
  - apply orb_false_iff in Hvol as [Hnow Hvs].
    destruct (template_agree vs (row st1) (row st2) c t1 t2 (ctable ctx) tpl Ha Hnow Hvs) as [Hw Hs].
    destruct P1 as [[M1 ->]|(N1 & x & -> & Hx)], P2 as [[M2 ->]|(N2 & y & -> & Hy)].
    + destruct M1 as [d1 Hd1]. split; [apply Forall_kept, (agree_names _ _ _ Ha)|].
      intros d. destruct (agree_values _ _ _ Ha d) as [?|(Hin & x & y & Hx & Hy & Hsx & Hsy)]; [by left|].
      right. split; [|by exists x, y]. apply list_elem_of_filter. split; [|done].
      intros ->. rewrite Hd1 in Hx. by injection Hx as <-.
    + apply Hmark in M1 as [d Hd]. by destruct (N2 d Hd).
    + apply Hmark in M2 as [d Hd]. by destruct (N1 d Hd).
    + assert (Hxy : x = y).
      { unfold computes, scope_of in Hx, Hy. cbn [cnow ctable at_time] in Hx, Hy. rewrite Hw, Hs in Hx.
        destruct (whole_token tpl ≫= _); [congruence|].
        destruct Hx as (r & w & Hr & ->), Hy as (r' & w' & Hr' & ->). rewrite Hr in Hr'. by injection Hr' as -> ->. }
      rewrite Hxy. by apply agree_put_again.
Qed.

Definition accepted_step (t : ColumnTransform) : bool := columnTransformSchema t && plain_name (column t).

Lemma steps_agree ctx t1 t2 ts : keysOnly ctx = false → Forall (λ t, accepted_step t = true) ts →
  ∀ vs st1 st2 st1' st2', agree vs (row st1) (row st2) →
  apply_steps (at_time ctx t1) ts st1 = Some st1' → apply_steps (at_time ctx t2) ts st2 = Some st2' →
  agree (foldl volatile_step vs ts) (row st1') (row st2').
Proof.
  intros Hk Hts. induction Hts as [|t ts Ht Hts IH]; intros vs st1 st2 st1' st2' Ha; cbn [apply_steps foldl].
  { by intros [= <-] [= <-]. }
  destruct (apply_step (at_time ctx t1) t st1) as [s1|] eqn:H1; [|done].
  destruct (apply_step (at_time ctx t2) t st2) as [s2|] eqn:H2; [|done]. cbn [mbind option_bind].
  apply IH. apply andb_true_iff in Ht as [Hsch Hp].
  assert (Hor : (∀ c tpl, t ≠ SetCol c tpl) ∨ ∃ c tpl, t = SetCol c tpl) by (destruct t; eauto; by left).
  destruct Hor as [Hset|(c & tpl & ->)].
  - assert (Hv : volatile_step vs t = vs) by (destruct t as [| | | |c tpl]; try done; by destruct (Hset c tpl)).
    rewrite Hv. exact (local_step_agree vs ctx t1 t2 t _ _ _ _ Hset Hsch Hp Ha H1 H2).
  - exact (set_step_agree vs ctx t1 t2 c tpl _ _ _ _ Hk Hp Ha H1 H2).
Qed.

(** C36. What a verification compares does not depend on when the row was delivered,
    for steps the schema accepts and whose columns are not named as the tokens are (a
    name that starts with a dollar is accepted and is not seen:
    [dollar_column_is_not_seen]): two deliveries of one row at different times write
    the same value to every column that [volatileColumns] does not list, through
    templates that name the time in any spelling and steps computed from columns that
    did *)
Theorem compared_columns_are_timeless r transforms ctx t1 t2 a b c :
  keysOnly ctx = false → Forall (λ t, accepted_step t = true) (default [] transforms) →
  applyColumnTransforms r transforms (at_time ctx t1) = Some a →
  applyColumnTransforms r transforms (at_time ctx t2) = Some b →
  c ∉ volatileColumns transforms → obj_find (row a) c = obj_find (row b) c.
Proof.
  intros Hk Hts H1 H2 Hc. apply (agree_stable (volatileColumns transforms)); [|done].
  unfold volatileColumns. eapply (steps_agree ctx t1 t2 _ Hk Hts []); [|exact H1|exact H2].
  split; [constructor|]. intros d. by left.
Qed.
End steps.

Definition delivery_context : ColumnTransformContext :=
  {| ctable := "t"; cnow := EmptyString; hash := id; keysOnly := false |}.

Definition stamped : list ColumnTransform :=
  [SetCol "loaded_at" "{{ $now }}"; SetCol "label" "{{id}} at {{loaded_at}}"; SetCol "copy" "{{id}}"].

Definition delivered_at (t : string) : ColumnTransformResult :=
  {| row := [("id", VStr "7"); ("loaded_at", VStr t); ("label", VStr ("7 at " +:+ t)); ("copy", VStr "7")];
     cwarnings := []; errors := [] |}.

Lemma compared_columns_are_timeless_witness :
  volatileColumns (Some stamped) = ["loaded_at"; "label"] ∧
  obj_find (row (delivered_at "noon")) "copy" = obj_find (row (delivered_at "dusk")) "copy".
Proof.
  split; [vm_compute; reflexivity|].
  apply (compared_columns_are_timeless [("id", VStr "7")] (Some stamped) delivery_context "noon" "dusk");
    [reflexivity|repeat constructor|vm_compute; reflexivity|vm_compute; reflexivity|].
  apply (bool_decide_unpack _). vm_compute. exact I.
Defined.

(** a column whose name starts with a dollar is accepted, and is read by the step behind
    it; but the names a template reads are taken to be columns only without the dollar.
    [y] is another value each time, and is compared *)
Definition dollar_steps : list ColumnTransform := [SetCol "$t" "{{$now}}"; SetCol "y" "{{$t}}"].

Example dollar_column_is_not_seen :
  forallb columnTransformSchema dollar_steps = true ∧
  volatileColumns (Some dollar_steps) = ["$t"] ∧
  (λ t, applyColumnTransforms [] (Some dollar_steps) (at_time delivery_context t)) <$> ["noon"; "dusk"] =
    (λ t, Some {| row := [("$t", VStr t); ("y", VStr t)]; cwarnings := []; errors := [] |}) <$> ["noon"; "dusk"].
Proof. vm_compute. done. Qed.
