(* ===== verification/Bridge.v ===== *)
(** Rows on their way to a target, and the tables made for them:
    [packages/core/src/bridges/bridge.ts]. *)
From S2P Require Import Prelude JsText JsNumber JsDate JsValue.
From S2P Require Import Template ColumnTransforms RedisTarget Schedule BridgeConfig TypeMap.

(** ** Labels *)

Section labels.
(** the host name [new URL(url).hostname] finds; [None] where it throws *)
Variable hostname : string → option string.

Definition destinationHost (u : string) : string := default u (hostname u).

Definition qualified (t : DatabaseTarget) : string :=
  match tschema t with
  | Some s => if nonempty s then s +:+ "." +:+ ttable t else ttable t
  | None => ttable t
  end.

Definition method_name (m : http_method) : string :=
  match m with POST => "POST" | PUT => "PUT" | PATCH => "PATCH" end.

Definition destinationLabel (d : BridgeDestination) : string :=
  match d with
  | Database ts =>
      let labels := qualified <$> ts in
      let first := default "database" (head labels) in
      if 1 <? List.length labels
      then first +:+ " +" +:+ pretty (List.length labels - 1) else first
  | Http h => method_name (method h) +:+ " " +:+ destinationHost (url h)
  end.

Definition destinationNodeKeys (d : BridgeDestination) : list string :=
  match d with
  | Database ts => (λ t, "db:" +:+ tconnectionId t +:+ ":" +:+ qualified t) <$> ts
  | Http h => ["http:" +:+ destinationHost (url h)]
  end.
End labels.

(** ** Rows *)

Definition UNCHANGED : jsval := VSym "syncle.unchanged".

Definition is_unchanged (v : jsval) : bool := strict_eq v UNCHANGED.

(** a row and the tables it has been through: what the program keeps under the
    symbol [ORIGINS], which no enumeration of the row's columns shows *)
Record Row := { cols : obj; origins : list string }.

Definition originsOf (r : Row) : list string := origins r.

Definition withOrigins (r : Row) (os : list string) : Row :=
  match os with [] => r | _ => {| cols := cols r; origins := os |} end.

Definition null_if_undefined (v : jsval) : jsval := if is_undef v then VNull else v.

(** one column of the result; an unchanged one is left out of the write *)
Definition map_column (out : obj) (k : string) (v : jsval) : obj :=
  if is_unchanged v then out else obj_set out k (null_if_undefined v).

(** the result is a new row: it has no origins *)
Definition mapRow (row : obj) (mapping : list ColumnMapping) : obj :=
  match mapping with
  | [] => foldl (λ out kv, map_column out kv.1 kv.2) [] row
  | _ => foldl (λ out m, map_column out (mtarget m) (obj_get row (msource m))) [] mapping
  end.

Definition sourceColumnFor (target : string) (mapping : list ColumnMapping) : string :=
  match list_find (λ m, mtarget m = target) mapping with
  | Some (_, m) => msource m
  | None => target
  end.

(** ** Tables to create *)

Record TargetColumnShape := {
  cname : string;
  sourceType : string;
  nullable : bool;
  generic : bool
}.

Record ColumnTypeWarning := {
  wcolumn_name : string;
  wsourceType : string;
  wtargetType : string;
  message : string
}.

Record ColumnDefinition := {
  dname : string;
  dtype : string;
  dnullable : bool;
  primaryKey : bool;
  autoIncrement : bool
}.

Record TargetTablePlan := {
  spec_table : string;
  spec_schema : option string;
  spec_columns : list ColumnDefinition;
  plan_warnings : list ColumnTypeWarning
}.

(** the plan of one column's type *)
Definition column_plan (keyColumns : list string) (engine : DatabaseEngine)
    (sourceEngine : option DatabaseEngine) (c : TargetColumnShape) : ColumnTypePlan :=
  translateColumnType (Some (sourceType c)) (if generic c then None else sourceEngine) engine
    (bool_decide (cname c ∈ keyColumns)).

Definition planTargetTable (tbl : string) (sch : option string) (cs : list TargetColumnShape)
    (keyColumns : list string) (engine : DatabaseEngine) (sourceEngine : option DatabaseEngine)
  : TargetTablePlan :=
  let plan := column_plan keyColumns engine sourceEngine in
  {| spec_table := tbl; spec_schema := sch;
     spec_columns := (λ c,
       let isKey := bool_decide (cname c ∈ keyColumns) in
       {| dname := cname c; dtype := type (plan c); dnullable := if isKey then false else nullable c;
          primaryKey := isKey; autoIncrement := false |}) <$> cs;
     plan_warnings := cs ≫= λ c, (λ m,
       {| wcolumn_name := cname c; wsourceType := sourceType c; wtargetType := type (plan c);
          message := m |}) <$> warnings (plan c) |}.

(** ** Mapped rows *)

Lemma is_unchanged_spec v : is_unchanged v = true ↔ v = UNCHANGED.
Proof.
  unfold is_unchanged, UNCHANGED. destruct v; cbn; try by split; [|congruence].
  rewrite bool_decide_eq_true. split; congruence.
Qed.

(** what a target column receives from a row: nothing, or a value *)
Definition mapped (row : obj) (src : string) : option jsval :=
  let v := obj_get row src in
  if is_unchanged v then None else Some (null_if_undefined v).

Lemma map_column_find out k v k' :
  k ≠ "__proto__" →
  obj_find (map_column out k v) k' =
  if decide (k' = k) then (if is_unchanged v then obj_find out k else Some (null_if_undefined v))
  else obj_find out k'.
Proof.
  intros Hk. unfold map_column. case_match eqn:Hu; [by case_decide; subst|].
  rewrite obj_find_set by done. by case_decide.
Qed.

Lemma mapRow_find_gen row ms out :
  NoDup (mtarget <$> ms) → "__proto__" ∉ (mtarget <$> ms) →
  (∀ t, t ∈ (mtarget <$> ms) → obj_find out t = None) → ∀ t,
  obj_find (foldl (λ out m, map_column out (mtarget m) (obj_get row (msource m))) out ms) t =
  match list_find (λ m, mtarget m = t) ms with
  | Some (_, m) => mapped row (msource m)
  | None => obj_find out t
  end.
Proof.
  revert out. induction ms as [|m ms IH]; intros out Hnd Hp Hout t; [done|].
  cbn [fmap list_fmap] in Hnd, Hp. apply NoDup_cons in Hnd as [Hm Hnd].
  apply not_elem_of_cons in Hp as [Hp1 Hp2]. cbn [foldl list_find].
  rewrite IH; [|done|done|].
  - destruct (decide (mtarget m = t)) as [<-|Hne]; cbn.
    + destruct (list_find _ ms) as [[i m']|] eqn:Hf; cbn.
      { apply list_find_Some in Hf as (Hi & He & _). destruct Hm. rewrite <- He.
        apply list_elem_of_fmap. eauto using list_elem_of_lookup_2. }
      rewrite map_column_find, decide_True by done. unfold mapped.
      case_match; [|done]. apply Hout, list_elem_of_fmap. eauto using list_elem_of_here.
    + destruct (list_find _ ms) as [[i m']|]; cbn; [done|].
      rewrite map_column_find by done. by rewrite decide_False.
  - intros t' Ht'. rewrite map_column_find by done. rewrite decide_False.
    + apply Hout. cbn. by apply list_elem_of_further.
    + by intros ->.
Qed.

(** A target column receives exactly the value of the source column mapped onto
    it — NULL where the row has none — and nothing at all when the change did not
    carry it; no column outside the mapping is written. *)
Theorem mapRow_spec row ms t :
  ms ≠ [] → NoDup (mtarget <$> ms) → "__proto__" ∉ (mtarget <$> ms) →
  obj_find (mapRow row ms) t =
  match list_find (λ m, mtarget m = t) ms with
  | Some (_, m) => mapped row (msource m)
  | None => None
  end.
Proof.
  intros Hne Hnd Hp. unfold mapRow. destruct ms as [|m ms]; [done|].
  by rewrite (mapRow_find_gen row (m :: ms) []).
Qed.

Lemma list_find_sourceColumn t ms :
  t ∈ (mtarget <$> ms) → ∃ i m, list_find (λ m, mtarget m = t) ms = Some (i, m).
Proof.
  intros (m & -> & Hm)%list_elem_of_fmap.
  destruct (list_find (λ m', mtarget m' = mtarget m) ms) as [[i m']|] eqn:Hf; [eauto|].
  apply list_find_None in Hf. rewrite Forall_forall in Hf. by destruct (Hf m Hm).
Qed.

(** [sourceColumnFor] answers where a written value came from: a column of the
    mapped row holds what the source has in the column it names. *)
Theorem sourceColumnFor_mapRow row ms t :
  ms ≠ [] → NoDup (mtarget <$> ms) → "__proto__" ∉ (mtarget <$> ms) →
  t ∈ (mtarget <$> ms) →
  obj_find (mapRow row ms) t = mapped row (sourceColumnFor t ms).
Proof.
  intros Hne Hnd Hp Ht. unfold mapRow. destruct ms as [|m0 ms0]; [done|].
  rewrite (mapRow_find_gen row (m0 :: ms0) []) by done. unfold sourceColumnFor.
  by destruct (list_find_sourceColumn t (m0 :: ms0) Ht) as (i & m & ->).
Qed.

(** A planned table can be keyed as it must be: its columns are the ones asked
    for, in order; exactly the key columns form the primary key, and none of those
    is nullable; and every column that loses something is named in a warning. *)
Theorem planTargetTable_keys tbl sch cs ks engine src :
  let p := planTargetTable tbl sch cs ks engine src in
  dname <$> spec_columns p = cname <$> cs ∧
  (∀ d, d ∈ spec_columns p →
     (primaryKey d = true ↔ dname d ∈ ks) ∧ (primaryKey d = true → dnullable d = false)) ∧
  (∀ c, c ∈ cs → warnings (column_plan ks engine src c) ≠ [] →
     cname c ∈ (wcolumn_name <$> plan_warnings p)).
Proof.
  cbn. split_and!.
  - rewrite <- list_fmap_compose. by apply list_fmap_ext.
  - intros d (c & -> & Hc)%list_elem_of_fmap. cbn. rewrite bool_decide_eq_true.
    split; [done|]. intros Hk. by rewrite bool_decide_eq_true_2.
  - intros c Hc Hw. destruct (warnings (column_plan ks engine src c)) as [|w ws] eqn:Hws; [done|].
    apply list_elem_of_fmap. eexists. split; [|apply list_elem_of_bind; exists c; split; [|done];
      rewrite Hws; apply list_elem_of_here]. done.
Qed.

(** ** Concrete rows *)

Definition sample_mapping : list ColumnMapping :=
  [ {| msource := "id"; mtarget := "user_id" |}; {| msource := "bio"; mtarget := "about" |};
    {| msource := "gone"; mtarget := "x" |} ].
Definition sample_row : obj := [("id", VStr "7"); ("bio", UNCHANGED); ("n", VNull)].

Example mapRow_sample : mapRow sample_row sample_mapping = [("user_id", VStr "7"); ("x", VNull)].
Proof. vm_compute. reflexivity. Qed.

Ltac concrete_mapping :=
  first [discriminate | apply (bool_decide_unpack _); vm_compute; exact I].

Lemma mapRow_spec_witness : obj_find (mapRow sample_row sample_mapping) "about" = None.
Proof. apply (mapRow_spec sample_row sample_mapping "about"); concrete_mapping. Defined.

Lemma sourceColumnFor_mapRow_witness :
  obj_find (mapRow sample_row sample_mapping) "user_id" = mapped sample_row "id".
Proof.
  apply (sourceColumnFor_mapRow sample_row sample_mapping "user_id"); concrete_mapping.
Defined.
