(* ===== verification/RowCodec.v ===== *)
(** Rows as text, for the dead-letter queue and the spool
    ([apps/api/src/bridges/row-codec.ts]): what has no JSON form of its own is
    tagged on the way in and rebuilt on the way out. *)
From S2P Require Import Prelude JsText JsNumber JsDate JsValue JsBytes JsJson JsonText JsIso.
From S2P Require Import BridgeConfig ColumnTransforms TypeMap Bridge.

Definition TAGS : list string := ["$bytes"; "$date"; "$bigint"; "$literal"; "$unchanged"].

(** of an object's own keys *)
Definition looksLikeTag (o : obj) : bool :=
  match o with [(k, _)] => bool_decide (k ∈ TAGS) | _ => false end.

(** [out[k] = v] for every entry, on an object that was just made *)
Definition assigned (entries : obj) : obj := foldl (λ o kv, obj_set o kv.1 kv.2) [] entries.

Fixpoint encodeValue (v : jsval) : jsval :=
  if strict_eq v UNCHANGED then VObj [("$unchanged", VBool true)] else
  match v with
  | VUndef | VNull => VNull
  | VBig z => VObj [("$bigint", VStr (Z_to_string z))]
  | VNum n => if is_finite n then VNum n else VObj [("$literal", VStr (num_to_string n))]
  | VStr _ | VBool _ => v
  | VDate None => VNull
  | VDate (Some t) => VObj [("$date", VStr (toISOString t))]
  | VBytes b => VObj [("$bytes", VStr (base64 b))]
  | VArr l => VArr (encodeValue <$> l)
  | VObj o =>
      let out := assigned ((λ kv, (kv.1, encodeValue kv.2)) <$> o) in
      if looksLikeTag o then VObj [("$literal", VObj out)] else VObj out
  | VSym _ => VStr (prim_text v)
  end.

Section codec.
Context `{JsHost}.

(** every value of a list, or [None] where reading one throws *)
Fixpoint collect {A} (l : list (option A)) : option (list A) :=
  match l with
  | [] => Some []
  | x :: l => x ← x; l ← collect l; Some (x :: l)
  end.

(** [None] where it throws: [BigInt] of a text that is not an integer *)
Fixpoint decodeValue (v : jsval) : option jsval :=
  match v with
  | VArr l => VArr <$> collect (decodeValue <$> l)
  | VObj o =>
      let whole := (λ vs, VObj (assigned (zip o.*1 vs)))
                     <$> collect ((λ kv, decodeValue kv.2) <$> o) in
      match o with
      | [(k, payload)] =>
          if negb (bool_decide (k ∈ TAGS)) then whole
          else if decide (k = "$unchanged") then Some UNCHANGED
          else match payload with
               | VStr t =>
                   if decide (k = "$bytes") then Some (VBytes (base64_decode t))
                   else if decide (k = "$date") then Some (VDate (date_parse t))
                   else if decide (k = "$bigint") then VBig <$> string_to_big t
                   else if decide (t = "NaN") then Some (VNum NaN)
                   else if decide (t = "Infinity") then Some (VNum Infinity)
                   else if decide (t = "-Infinity") then Some (VNum (num_opp Infinity))
                   else whole
               | VObj p =>
                   if decide (k = "$literal") then
                     (λ vs, VObj (assigned (zip p.*1 vs))) <$> collect ((λ kv, decodeValue kv.2) <$> p)
                   else whole
               | _ => whole
               end
      | _ => whole
      end
  | _ => Some v
  end.

Definition encodeRows (rows : list obj) : json_out :=
  stringify (VArr ((λ r, encodeValue (VObj r)) <$> rows)).

Definition as_row (v : jsval) : option obj := match v with VObj o => Some o | _ => None end.

Definition decodeRows (text : string) : option (list obj) :=
  match json_parse text with
  | Some (VArr rows) => collect ((λ r, decodeValue r ≫= as_row) <$> rows)
  | _ => None
  end.

(** a value as the API shows it; [None] where [toISOString] throws *)
Fixpoint show_value (v : jsval) : option jsval :=
  if strict_eq v UNCHANGED then Some (VStr "<unchanged>") else
  match v with
  | VBig z => Some (VStr (Z_to_string z))
  | VDate (Some t) => Some (VStr (toISOString t))
  | VDate None => None
  | VBytes b => Some (VStr ("<" +:+ pretty (List.length b) +:+ " bytes>"))
  | VNum n => Some (if is_finite n then v else VStr (num_to_string n))
  | VArr l => VArr <$> collect (show_value <$> l)
  | VObj o => (λ vs, VObj (assigned (zip o.*1 vs))) <$> collect ((λ kv, show_value kv.2) <$> o)
  | _ => Some v
  end.

Definition rowsForDisplay (text : string) : option (list obj) :=
  rows ← decodeRows text; collect ((λ r, show_value (VObj r) ≫= as_row) <$> rows).

End codec.

(** ** What can be stored *)

(** the values the codec keeps: no [undefined], no symbol but the marker, valid
    dates, bytes, numbers that are read back as they are printed (or have no JSON
    form at all), objects with their properties in the language's order *)
Fixpoint storable (v : jsval) : bool :=
  match v with
  | VNull | VBool _ | VStr _ | VBig _ => true
  | VNum n => reads_back n || negb (is_finite n)
  | VSym _ => strict_eq v UNCHANGED
  | VDate (Some t) => (Z.abs t <=? max_time)%Z
  | VBytes b => forallb (λ x, (0 <=? x)%Z && (x <? 256)%Z) b
  | VArr l => forallb storable l
  | VObj o => own_order o && negb (bool_decide ("__proto__" ∈ obj_keys o)) &&
              forallb (λ kv, storable kv.2) o
  | _ => false
  end.

Lemma obj_set_last o k v :
  appends (obj_keys o) k = true → k ≠ "__proto__" → obj_set o k v = o ++ [(k, v)].
Proof.
  intros Ha Hk. unfold obj_set. destruct (has_own o k) eqn:Ho.
  - apply has_own_elem in Ho. unfold appends in Ha. bool_to_prop. done.
  - rewrite decide_False by done. by apply obj_define_last.
Qed.

Lemma assigned_from acc o :
  in_order (obj_keys acc) (obj_keys o) = true → "__proto__" ∉ obj_keys o →
  foldl (λ o kv, obj_set o kv.1 kv.2) acc o = acc ++ o.
Proof.
  revert acc. induction o as [|[k v] o IH]; intros acc Ho Hp; [by rewrite app_nil_r|].
  cbn in *. apply andb_true_iff in Ho as [Hk Ho]. apply not_elem_of_cons in Hp as [Hp1 Hp2].
  rewrite obj_set_last by done. rewrite IH.
  - by rewrite <- app_assoc.
  - unfold obj_keys in *. by rewrite fmap_app.
  - done.
Qed.

Lemma assigned_id o : own_order o = true → "__proto__" ∉ obj_keys o → assigned o = o.
Proof. intros Ho Hp. by apply (assigned_from []). Qed.

Lemma assigned_zip (o : obj) : own_order o = true → "__proto__" ∉ obj_keys o →
  assigned (zip o.*1 o.*2) = o.
Proof. rewrite zip_fst_snd. apply assigned_id. Qed.

Definition encoded (o : obj) : obj := (λ kv, (kv.1, encodeValue kv.2)) <$> o.

Lemma encoded_keys o : (encoded o).*1 = o.*1.
Proof. unfold encoded. by rewrite <- list_fmap_compose. Qed.

Lemma assigned_encoded o :
  own_order o = true → "__proto__" ∉ obj_keys o → assigned (encoded o) = encoded o.
Proof.
  intros Ho Hp. apply assigned_id; unfold own_order, obj_keys in *; by rewrite encoded_keys.
Qed.

Lemma collect_Forall2 {A B} (f : A → option B) (l : list A) (r : list B) :
  Forall2 (λ x y, f x = Some y) l r → collect (f <$> l) = Some r.
Proof. induction 1 as [|x y l r Hx _ IH]; cbn; [done|]. cbn in IH. by rewrite Hx, IH. Qed.

Section round_trip.
Context `{Hhost : JsHost} `{Hlaws : !JsHostLaws Hhost}.

Lemma decode_fields o :
  Forall (λ kv, decodeValue (encodeValue kv.2) = Some kv.2) o →
  collect ((λ kv, decodeValue kv.2) <$> encoded o) = Some o.*2.
Proof.
  intros Ho. apply collect_Forall2. induction Ho as [|[k v] o Hv _ IH]; constructor; done.
Qed.

Lemma decode_tagless (o : obj) :
  looksLikeTag o = false →
  decodeValue (VObj o) =
  (λ vs, VObj (assigned (zip o.*1 vs))) <$> collect ((λ kv, decodeValue kv.2) <$> o).
Proof.
  destruct o as [|[k v] [|kv o]]; try done. cbn [looksLikeTag]. intros Hk.
  cbn [decodeValue]. by rewrite Hk.
Qed.

Lemma looksLikeTag_encoded o : looksLikeTag (encoded o) = looksLikeTag o.
Proof. by destruct o as [|[k v] [|kv o]]. Qed.

Lemma decode_encode_object o :
  own_order o = true → "__proto__" ∉ obj_keys o →
  Forall (λ kv, decodeValue (encodeValue kv.2) = Some kv.2) o →
  decodeValue (encodeValue (VObj o)) = Some (VObj o).
Proof.
  intros Ho Hp Hall. cbn [encodeValue strict_eq UNCHANGED].
  fold (encoded o). rewrite assigned_encoded by done.
  destruct (looksLikeTag o) eqn:Ht.
  - change (decodeValue (VObj [("$literal", VObj (encoded o))]))
      with ((λ vs, VObj (assigned (zip (encoded o).*1 vs)))
              <$> collect ((λ kv, decodeValue kv.2) <$> encoded o)).
    rewrite decode_fields, encoded_keys by done. cbn. by rewrite assigned_zip.
  - rewrite decode_tagless by (by rewrite looksLikeTag_encoded).
    rewrite decode_fields, encoded_keys by done. cbn. by rewrite assigned_zip.
Qed.

Lemma storable_object o : storable (VObj o) = true →
  own_order o = true ∧ ("__proto__" ∉ obj_keys o) ∧ Forall (λ kv, storable kv.2 = true) o.
Proof.
  cbn [storable]. intros [Ho Hv]%andb_true_iff. apply andb_true_iff in Ho as [Ho Hp]. bool_to_prop.
  split_and!; [done|done|]. apply Forall_forall. intros kv Hkv.
  rewrite forallb_forall in Hv. by apply Hv, list_elem_of_In.
Qed.

(** what was encoded is decoded as it was *)
Lemma decode_encode v : storable v = true → decodeValue (encodeValue v) = Some v.
Proof.
  induction v using jsval_nested_ind; intros Hv; try done.
  - cbn [encodeValue strict_eq UNCHANGED]. destruct (is_finite n) eqn:Hf; [done|].
    by destruct n as [|[]| |].
  - cbn [encodeValue strict_eq UNCHANGED]. cbn [decodeValue].
    rewrite bool_decide_eq_true_2 by set_solver. cbn. by rewrite string_to_big_pretty.
  - cbn [storable] in Hv. cbn [encodeValue]. rewrite Hv. cbn in Hv. bool_to_prop. by subst.
  - destruct t as [t|]; [|done]. cbn [storable] in Hv. bool_to_prop.
    cbn. rewrite date_parse_iso by lia. done.
  - cbn [storable] in Hv. cbn. rewrite base64_round_trip; [done|].
    apply Forall_forall. intros x Hx%list_elem_of_In. rewrite forallb_forall in Hv.
    specialize (Hv x Hx). unfold is_byte. bool_to_prop. lia.
  - cbn [storable] in Hv. cbn. rewrite <- list_fmap_compose, (collect_Forall2 _ _ l); [done|].
    rewrite forallb_forall in Hv. apply Forall_Forall2_diag.
    rewrite Forall_forall in *. intros x Hx. apply H; [done|]. by apply Hv, list_elem_of_In.
  - destruct (storable_object o Hv) as (Ho & Hp & Hall). apply decode_encode_object; [done..|].
    rewrite Forall_forall in *. auto.
Qed.

(** and what is encoded has a JSON form *)
Lemma encode_plain v : storable v = true → json_plain (encodeValue v) = true.
Proof.
  induction v using jsval_nested_ind; intros Hv; try done.
  - cbn [encodeValue strict_eq UNCHANGED storable] in *. destruct (is_finite n); [|done].
    by rewrite orb_false_r in Hv.
  - cbn [storable] in Hv. cbn [encodeValue]. by rewrite Hv.
  - by destruct t.
  - cbn [storable] in Hv. cbn. rewrite forallb_forall in *. rewrite Forall_forall in H.
    intros y (x & -> & Hx)%list_elem_of_In%list_elem_of_fmap. apply H; [done|].
    by apply Hv, list_elem_of_In.
  - destruct (storable_object o Hv) as (Ho & Hp & Hall).
    cbn [encodeValue strict_eq UNCHANGED]. fold (encoded o). rewrite assigned_encoded by done.
    assert (Hplain : json_plain (VObj (encoded o)) = true).
    { cbn [json_plain]. apply andb_true_iff. split.
      - unfold own_order, obj_keys in *. by rewrite encoded_keys.
      - apply forallb_forall. unfold encoded.
        intros kv' (kv & -> & Hkv)%list_elem_of_In%list_elem_of_fmap. cbn.
        rewrite Forall_forall in H, Hall. apply (H kv); [done|]. by apply Hall. }
    destruct (looksLikeTag o); [|done].
    change (json_plain (VObj (encoded o)) && true = true). by rewrite Hplain.
Qed.

Lemma stored_rows_read_back_all rows :
  Forall (λ r, storable (VObj r) = true) rows →
  ∃ text, encodeRows rows = JText text ∧ decodeRows text = Some rows.
Proof.
  intros Hr. destruct (json_round_trip (VArr ((λ r, encodeValue (VObj r)) <$> rows))) as (t & Ht & Hp).
  { change (forallb json_plain ((λ r, encodeValue (VObj r)) <$> rows) = true).
    apply forallb_forall. intros y (r & -> & Hx)%list_elem_of_In%list_elem_of_fmap.
    apply encode_plain. by eapply Forall_forall in Hr. }
  exists t. split; [done|]. unfold decodeRows. rewrite Hp, <- list_fmap_compose.
  apply collect_Forall2. apply Forall_Forall2_diag. eapply Forall_impl; [exact Hr|].
  intros r Hs. change (decodeValue (encodeValue (VObj r)) ≫= as_row = Some r).
  by rewrite decode_encode.
Qed.

(** C22. A row that is parked or spooled is read back as the row it was: bytes,
    dates, big integers, [NaN] and the marker of an unchanged column included,
    and whatever its own keys look like *)
Theorem stored_rows_read_back rows :
  Forall (λ r, storable (VObj r) = true) rows →
  ∃ text, encodeRows rows = JText text ∧ decodeRows text = Some rows.
Proof. apply stored_rows_read_back_all. Qed.
End round_trip.


(** a row with a column of every kind, one of them named like a tag *)
Definition parked_row : obj :=
  [("id", VNum (num_of_Z 7)); ("name", VStr "ada"); ("big", VBig (-12345678901234567890));
   ("seen", VDate (Some 1772600767891%Z)); ("photo", VBytes [255; 0; 16]%Z); ("score", VNum NaN);
   ("bio", UNCHANGED); ("tag", VObj [("$bytes", VStr "not a tag")])].

Lemma stored_rows_read_back_witness :
  ∃ text, encodeRows [parked_row] = JText text ∧ decodeRows text = Some [parked_row].
Proof.
  apply (stored_rows_read_back [parked_row]). constructor; [vm_compute; reflexivity|constructor].
Defined.

(** a column named like a tag does not make the row one *)
Example tag_column :
  encodeRows [[("$bigint", VStr "5")]] =
    JText (of_chars (flat_map (λ c, if (c =? "'")%char then [dquote] else [c])
             (chars "[{'$literal':{'$bigint':'5'}}]"))) ∧
  decodeValue (VObj [("$bigint", VStr "five")]) = None.
Proof. split; vm_compute; reflexivity. Qed.
