(* ===== verification/FilterMatch.v ===== *)
(** A bridge's source filters on a change row:
    [apps/api/src/bridges/cdc/filter-match.ts]. *)
From S2P Require Import Prelude JsText JsNumber JsDate JsValue.
From S2P Require Import Template ColumnTransforms RedisTarget Schedule BridgeConfig.

Record FilterMatchOptions := { passMissingColumns : bool }.

Section matching.
Context `{JsHost} `{JsPrint}.

Definition toNumber (v : jsval) : option num :=
  match v with
  | VNum n => if num_is_nan n then None else Some n
  | VBig z => Some (num_of_Z z)
  | VBool b => Some (num_of_Z (if b then 1 else 0))
  | VStr s => if decide (trim s = EmptyString) then None
              else let n := string_to_num s in if num_is_nan n then None else Some n
  | _ => None
  end.

Definition toTime (v : jsval) : option Z :=
  match v with
  | VDate t => t
  | VStr s => date_parse s
  | _ => None
  end.

Definition asString (v : jsval) : string :=
  if is_object v && negb (is_nil v) then
    match stringify v with JText s => s | JUndefined => "undefined" | JThrows => to_string v end
  else to_string v.

(** three-way comparison; [None] is incomparable *)
Definition compare (row filter : jsval) : option comparison :=
  if is_nil row || is_nil filter then None else
  match toNumber row, toNumber filter with
  | Some nr, Some nf => Some (if num_eq nr nf then Eq else if num_lt nr nf then Lt else Gt)
  | _, _ =>
      let times := if is_date row || is_date filter then
                     match toTime row, toTime filter with
                     | Some tr, Some tf => Some (tr ?= tf)%Z
                     | _, _ => None
                     end
                   else None in
      match times with
      | Some c => Some c
      | None => Some (str_compare (asString row) (asString filter))
      end
  end.

Definition likeHaystack (v : jsval) : option string :=
  if is_nil v then None else Some (toLowerCase (asString v)).

Definition likeNeedle (v : jsval) : string :=
  toLowerCase (to_string (if is_nil v then VStr EmptyString else v)).

Definition is_cmp (p : comparison → bool) (c : option comparison) : bool :=
  match c with Some x => p x | None => false end.

Definition like (p : string → string → bool) (v f : jsval) : bool :=
  match likeHaystack v with Some h => p (likeNeedle f) h | None => false end.

Definition matchesOne (v : jsval) (f : FilterSpec) : bool :=
  let c := compare v (fvalue f) in
  match foperator f with
  | op_isNull => is_nil v
  | op_notNull => negb (is_nil v)
  | op_eq => is_cmp (λ c, match c with Eq => true | _ => false end) c
  | op_neq => is_cmp (λ c, match c with Eq => false | _ => true end) c
  | op_lt => is_cmp (λ c, match c with Lt => true | _ => false end) c
  | op_lte => is_cmp (λ c, match c with Gt => false | _ => true end) c
  | op_gt => is_cmp (λ c, match c with Gt => true | _ => false end) c
  | op_gte => is_cmp (λ c, match c with Lt => false | _ => true end) c
  | op_contains => like includes v (fvalue f)
  | op_startsWith => like startsWith v (fvalue f)
  | op_endsWith => like endsWith v (fvalue f)
  | op_in => match fvalue f with
             | VArr l => existsb (λ x, is_cmp (λ c, match c with Eq => true | _ => false end)
                                         (compare v x)) l
             | _ => false
             end
  end.

(** one pass of the loop: passed over, or tested *)
Definition passes (row : obj) (opts : FilterMatchOptions) (f : FilterSpec) : bool :=
  if passMissingColumns opts && negb (has_own row (fcolumn f)) then true
  else if is_sym (obj_get row (fcolumn f)) then true
  else matchesOne (obj_get row (fcolumn f)) f.

Definition rowMatchesFilters (row : obj) (filters : option (list FilterSpec))
    (opts : FilterMatchOptions) : bool :=
  forallb (passes row opts) (default [] filters).

(** ** Facts *)

Definition with_operator (f : FilterSpec) (o : operator) : FilterSpec :=
  {| fcolumn := fcolumn f; foperator := o; fvalue := fvalue f |}.

Lemma compare_nil v f : is_nil v = true → compare v f = None.
Proof. unfold compare. by intros ->. Qed.

(** SQL's NULL: a row whose column is NULL satisfies no filter on it but
    [isNull], not even [neq]. *)
Theorem null_matches_only_isNull row opts f :
  has_own row (fcolumn f) = true → is_nil (obj_get row (fcolumn f)) = true →
  passes row opts f = match foperator f with op_isNull => true | _ => false end.
Proof.
  intros Ho Hn. unfold passes. rewrite Ho, andb_false_r.
  destruct (is_sym _) eqn:Hs; [by destruct (obj_get row (fcolumn f))|].
  unfold matchesOne, like, likeHaystack. rewrite compare_nil, Hn by done.
  destruct (foperator f); try done. destruct (fvalue f) as [| | | | | | | | |l|]; try done.
  induction l as [|x l IH]; [done|]. cbn. by rewrite compare_nil, IH.
Qed.

(** The comparison operators divide the comparable values: of [lt], [eq] and
    [gt] exactly one holds, [lte], [gte] and [neq] are what their names say, and
    against NULL none of the six does. *)
Theorem operators_partition v f :
  let m o := matchesOne v (with_operator f o) in
  (if is_nil v || is_nil (fvalue f)
   then m op_lt = false ∧ m op_eq = false ∧ m op_gt = false
   else (m op_lt = true ∧ m op_eq = false ∧ m op_gt = false) ∨
        (m op_lt = false ∧ m op_eq = true ∧ m op_gt = false) ∨
        (m op_lt = false ∧ m op_eq = false ∧ m op_gt = true)) ∧
  m op_lte = m op_lt || m op_eq ∧ m op_gte = m op_gt || m op_eq ∧
  m op_neq = m op_lt || m op_gt.
Proof.
  cbn. unfold matchesOne. cbn.
  assert (compare v (fvalue f) = None ↔ is_nil v || is_nil (fvalue f) = true) as Hc.
  { unfold compare. destruct (is_nil v || is_nil (fvalue f)); [done|]. repeat case_match; done. }
  destruct (compare v (fvalue f)) as [[]|].
  1-3: destruct (is_nil v || is_nil (fvalue f)); [by destruct Hc as [_ ->]|]; cbn; tauto.
  destruct Hc as [-> _]; done.
Qed.

(** filters are a conjunction *)
Lemma rowMatchesFilters_app row fs gs opts :
  rowMatchesFilters row (Some (fs ++ gs)) opts =
  rowMatchesFilters row (Some fs) opts && rowMatchesFilters row (Some gs) opts.
Proof. unfold rowMatchesFilters. cbn. apply forallb_app. Qed.

(** A delete is never dropped for what its image does not carry: with
    [passMissingColumns], columns the row lacks or marks as unchanged decide
    nothing, so only filters on columns it does carry can refuse it. *)
Theorem missing_columns_pass row filters :
  let opts := {| passMissingColumns := true |} in
  rowMatchesFilters row filters opts = false →
  ∃ f, f ∈ default [] filters ∧ has_own row (fcolumn f) = true ∧
       is_sym (obj_get row (fcolumn f)) = false ∧ matchesOne (obj_get row (fcolumn f)) f = false.
Proof.
  cbn. unfold rowMatchesFilters. induction (default [] filters) as [|f fs IH]; [done|].
  cbn. intros Hf%andb_false_iff. destruct Hf as [Hf|Hf].
  - exists f. split; [apply list_elem_of_here|]. unfold passes in Hf. cbn in Hf.
    destruct (has_own row (fcolumn f)); [|done]. cbn in Hf.
    by destruct (is_sym (obj_get row (fcolumn f))).
  - destruct (IH Hf) as (g & Hg & ?). exists g. split; [by apply list_elem_of_further|done].
Qed.

(** the columns the filters name decide *)
Lemma rowMatchesFilters_agree row1 row2 fs opts :
  (∀ c, c ∈ (fcolumn <$> fs) → obj_find row1 c = obj_find row2 c) →
  rowMatchesFilters row1 (Some fs) opts = rowMatchesFilters row2 (Some fs) opts.
Proof.
  unfold rowMatchesFilters. cbn. induction fs as [|f fs IH]; intros Ha; [done|]. cbn.
  rewrite IH by (intros c Hc; apply Ha; cbn; by apply list_elem_of_further).
  f_equal. unfold passes, has_own, obj_get. rewrite (Ha (fcolumn f)); [done|].
  cbn. apply list_elem_of_here.
Qed.
End matching.

(** ** Concrete rows *)

#[local] Instance sample_host : JsHost := {| date_parse _ := None; local_offset _ := 0%Z |}.
#[local] Instance sample_print : JsPrint := {| date_text _ := "date"; bytes_text _ := "bytes" |}.

Definition filter_on (c : string) (o : operator) (v : jsval) : FilterSpec :=
  {| fcolumn := c; foperator := o; fvalue := v |}.

Example match_samples :
  (λ f, rowMatchesFilters [("n", VStr "42"); ("name", VStr "Ann"); ("x", VNull)] (Some [f])
          {| passMissingColumns := false |})
  <$> [filter_on "n" op_eq (VNum (num_of_Z 42)); filter_on "n" op_gt (VStr "9");
       filter_on "name" op_contains (VStr "NN"); filter_on "x" op_neq (VStr "1");
       filter_on "name" op_in (VArr [VStr "Bob"; VStr "Ann"]); filter_on "name" op_in (VArr [])]
  = [true; true; true; false; true; false].
Proof. vm_compute. reflexivity. Qed.

Lemma null_matches_only_isNull_witness :
  passes [("x", VNull)] {| passMissingColumns := false |} (filter_on "x" op_neq (VStr "1")) = false.
Proof. apply null_matches_only_isNull; reflexivity. Defined.

Lemma missing_columns_pass_witness :
  ∃ f, f ∈ [filter_on "a" op_eq (VStr "1"); filter_on "b" op_eq (VStr "1")] ∧
       has_own [("b", VStr "2")] (fcolumn f) = true ∧
       is_sym (obj_get [("b", VStr "2")] (fcolumn f)) = false ∧
       matchesOne (obj_get [("b", VStr "2")] (fcolumn f)) f = false.
Proof.
  apply (missing_columns_pass [("b", VStr "2")]
           (Some [filter_on "a" op_eq (VStr "1"); filter_on "b" op_eq (VStr "1")])).
  vm_compute. reflexivity.
Defined.
