(* ===== verification/SchemaDrift.v ===== *)
(** A source table that changes under its bridge:
    [packages/core/src/bridges/schema-drift.ts]. *)
From stdpp Require Import sorting.
From S2P Require Import Prelude JsText JsNumber JsDate JsValue.
From S2P Require Import Template ColumnTransforms RedisTarget Schedule BridgeConfig TypeMap Bridge.
From S2P Require Import FilterMatch.

Record SchemaColumn := { sname : string; stype : string; snullable : bool }.

Record Retyped := { rname : string; rfrom : string; rto : string }.

Record Drift := {
  added : list SchemaColumn;
  removed : list SchemaColumn;
  retyped : list Retyped
}.

Definition norm (t : string) : string := collapse (toLowerCase (trim t)).

(** [new Map(columns.map(c => [c.name, c])).get(name)]: the last of a name *)
Definition column_of (cs : list SchemaColumn) (n : string) : option SchemaColumn :=
  snd <$> list_find (λ c, sname c = n) (reverse cs).

Definition retyped_from (before : list SchemaColumn) (c : SchemaColumn) : option Retyped :=
  b ← column_of before (sname c);
  if decide (norm (stype b) = norm (stype c)) then None
  else Some {| rname := sname c; rfrom := stype b; rto := stype c |}.

Definition diffColumns (baseline now : list SchemaColumn) : option Drift :=
  let d := {| added := filter (λ c, column_of baseline (sname c) = None) now;
              removed := filter (λ c, column_of now (sname c) = None) baseline;
              retyped := omap (retyped_from baseline) now |} in
  match added d, removed d, retyped d with
  | [], [], [] => None
  | _, _, _ => Some d
  end.

(** ** The columns a bridge cannot do without *)

Definition produced (b : BridgeInput) : list string :=
  column <$> filter (λ t, adds t = true) (default [] (columns (transform b))).

(** in the order they are added to the set *)
Definition used_in_order (b : BridgeInput) : list string :=
  match source b with
  | FromTable t => (fcolumn <$> default [] (filters t)) ++ (scolumn <$> default [] (sort t))
  | FromQuery _ => []
  end ++
  columnsRead (columns (transform b)) ++
  match destination b with
  | Database ts => ts ≫= λ t, match mapping t with [] => keyColumns t | ms => msource <$> ms end
  | Http _ => default [] (fields (payload (transform b))) ++
              templateColumns (Some (template (payload (transform b))))
  end ++
  match trigger b with
  | Watch (Increment c) _ _ _ | Watch (Timestamp c _) _ _ _ => [c]
  | _ => []
  end.

Definition columnsUsed (b : BridgeInput) : list string :=
  merge_sort str_le (filter (λ c, c ∉ produced b) (set_of (used_in_order b))).

Definition describeDrift (d : Drift) : string :=
  join "; " (
    (match removed d with [] => [] | cs => ["removed: " +:+ join ", " (sname <$> cs)] end) ++
    (match added d with [] => []
     | cs => ["added: " +:+ join ", " ((λ c, sname c +:+ " (" +:+ stype c +:+ ")") <$> cs)] end) ++
    (match retyped d with [] => []
     | cs => ["changed type: " +:+ join ", "
         ((λ c, rname c +:+ " (" +:+ rfrom c +:+ " → " +:+ rto c +:+ ")") <$> cs)] end)).

(** ** Facts *)

Lemma elem_of_columnsUsed b c :
  c ∈ columnsUsed b ↔ c ∈ used_in_order b ∧ c ∉ produced b.
Proof.
  unfold columnsUsed. rewrite merge_sort_Permutation, list_elem_of_filter, elem_of_set_of. tauto.
Qed.

Lemma column_of_Some cs n c : column_of cs n = Some c → c ∈ cs ∧ sname c = n.
Proof.
  unfold column_of. destruct (list_find _ _) as [[i c']|] eqn:Hf; [|done]. cbn. intros [= ->].
  apply list_find_Some in Hf as (Hi & Hn & _). split; [|done].
  apply elem_of_reverse. by eapply list_elem_of_lookup_2.
Qed.

Lemma column_of_None cs n : column_of cs n = None ↔ n ∉ (sname <$> cs).
Proof.
  unfold column_of. destruct (list_find _ _) as [[i c']|] eqn:Hf; cbn.
  - split; [done|]. intros Hn. destruct Hn. apply list_find_Some in Hf as (Hi & <- & _).
    apply list_elem_of_fmap. exists c'. split; [done|].
    apply elem_of_reverse. by eapply list_elem_of_lookup_2.
  - split; [|done]. intros _ (c & -> & Hc)%list_elem_of_fmap.
    apply list_find_None in Hf. rewrite Forall_forall in Hf.
    by destruct (Hf c ltac:(by apply elem_of_reverse)).
Qed.

Lemma filter_nil {A} (P : A → Prop) `{∀ x, Decision (P x)} l :
  filter P l = [] ↔ Forall (λ x, ¬ P x) l.
Proof.
  induction l as [|x l IH]; [done|]. rewrite filter_cons, Forall_cons.
  case_decide; [split; [done|tauto]|]. rewrite IH. tauto.
Qed.

Lemma omap_nil {A B} (f : A → option B) l : omap f l = [] ↔ Forall (λ x, f x = None) l.
Proof.
  induction l as [|x l IH]; [done|]. cbn. rewrite Forall_cons, <- IH.
  destruct (f x); [split; [done|by intros []]|tauto].
Qed.

(** the columns of the one are columns of the other, of the same type *)
Definition same_columns (a b : list SchemaColumn) : Prop :=
  (∀ n, n ∈ (sname <$> a) ↔ n ∈ (sname <$> b)) ∧
  ∀ c c', c ∈ b → column_of a (sname c) = Some c' → norm (stype c') = norm (stype c).

(** No drift is reported exactly when there is none: the table has the columns
    of the baseline, no more and no fewer, each of the type it had. *)
Theorem diffColumns_exact baseline now :
  diffColumns baseline now = None ↔ same_columns baseline now.
Proof.
  unfold diffColumns, same_columns. cbn [added removed retyped].
  set (A := filter _ now). set (R := filter _ baseline). set (T := omap _ now).
  assert (diffColumns baseline now = None ↔ A = [] ∧ R = [] ∧ T = []) as Hd.
  { unfold diffColumns. cbn. fold A R T. destruct A, R, T; naive_solver. }
  unfold diffColumns in Hd. cbn in Hd. fold A R T in Hd. rewrite Hd. clear Hd.
  unfold A, R, T. rewrite !filter_nil, omap_nil, !Forall_forall.
  assert (∀ cs n, column_of cs n ≠ None ↔ n ∈ (sname <$> cs)) as Hin.
  { intros cs n. rewrite column_of_None. split; [apply dec_stable|tauto]. }
  setoid_rewrite Hin. split.
  - intros (Ha & Hr & Ht). split.
    + intros n. split; intros (c & -> & Hc)%list_elem_of_fmap; [by apply Hr|by apply Ha].
    + intros c c' Hc Hb. specialize (Ht c Hc). unfold retyped_from in Ht.
      rewrite Hb in Ht. cbn in Ht. by case_decide.
  - intros [Hn Ht]. split_and!.
    + intros c Hc. apply Hn, list_elem_of_fmap. eauto.
    + intros c Hc. apply Hn, list_elem_of_fmap. eauto.
    + intros c Hc. unfold retyped_from. destruct (column_of baseline (sname c)) eqn:Hb; [|done].
      cbn. by rewrite decide_True by (by eapply Ht).
Qed.

Section unused.
Context `{JsHost} `{JsPrint}.

Lemma mapRow_agree row1 row2 ms :
  ms ≠ [] → (∀ c, c ∈ (msource <$> ms) → obj_get row1 c = obj_get row2 c) →
  mapRow row1 ms = mapRow row2 ms.
Proof.
  intros Hne Ha. unfold mapRow. destruct ms as [|m0 ms0]; [done|]. clear Hne.
  generalize ([] : obj) as out. revert Ha. generalize (m0 :: ms0) as ms.
  induction ms as [|m ms IH]; intros Ha out; [done|]. cbn.
  rewrite (Ha (msource m)) by (cbn; apply list_elem_of_here).
  apply IH. intros c Hc. apply Ha. cbn. by apply list_elem_of_further.
Qed.

(** A column outside [columnsUsed] can go without anybody noticing: for a bridge
    without value transforms, rows that agree on the used columns pass the same
    filters and write the same values to every target with a mapping. *)
Theorem unused_columns_do_not_matter b t row1 row2 opts target :
  columns (transform b) = None → source b = FromTable t →
  (∀ c, c ∈ columnsUsed b → obj_find row1 c = obj_find row2 c) →
  rowMatchesFilters row1 (filters t) opts = rowMatchesFilters row2 (filters t) opts ∧
  (∀ ts, destination b = Database ts → target ∈ ts → mapping target ≠ [] →
     mapRow row1 (mapping target) = mapRow row2 (mapping target)).
Proof.
  intros Hc Hs Ha.
  assert (∀ c, c ∈ used_in_order b → obj_find row1 c = obj_find row2 c) as Hu.
  { intros c Hin. apply Ha, elem_of_columnsUsed. split; [done|]. unfold produced.
    rewrite Hc. apply not_elem_of_nil. }
  unfold used_in_order in Hu. rewrite Hs in Hu. split.
  - destruct (filters t) as [fs|]; [|done]. apply rowMatchesFilters_agree.
    intros c Hin. apply Hu. cbn. rewrite !elem_of_app. tauto.
  - intros ts Hd Hin Hne. rewrite Hd in Hu. apply mapRow_agree; [done|].
    intros c Hin'. unfold obj_get. rewrite (Hu c); [done|]. rewrite !elem_of_app.
    right. right. left. apply list_elem_of_bind. exists target. split; [|done].
    by destruct (mapping target).
Qed.
End unused.

(** ** Concrete tables *)

Definition col (n ty : string) : SchemaColumn := {| sname := n; stype := ty; snullable := true |}.

Example diff_samples :
  diffColumns [col "id" "INT"; col "a" "text"] [col "id" "int "; col "a" "text"] = None ∧
  (describeDrift <$> diffColumns [col "id" "int"; col "old" "text"]
                                 [col "id" "bigint"; col "new" "date"])
  = Some "removed: old; added: new (date); changed type: id (int → bigint)".
Proof. vm_compute. done. Qed.

Definition sample_bridge : BridgeInput :=
  {| bname := "b";
     source := FromTable {| connectionId := "c1"; database := None; schema := None; table := "t";
       filters := Some [filter_on "kind" op_eq (VStr "x")]; sort := None |};
     destination := Database [sample_target];
     transform := {| payload := {| template := "{{$row}}"; fields := None; rename := None;
                                   wrapKey := None |}; columns := None |};
     delivery := default_delivery; trigger := Replay None; benabled := true |}.

Example sample_used : columnsUsed sample_bridge = ["id"; "kind"; "mail"].
Proof. vm_compute. reflexivity. Qed.

#[local] Instance sample_host : JsHost := {| date_parse _ := None; local_offset _ := 0%Z |}.
#[local] Instance sample_print : JsPrint := {| date_text _ := "date"; bytes_text _ := "bytes" |}.

Definition sample_record (extra : string) : obj :=
  [("id", VStr "1"); ("kind", VStr "x"); ("mail", VStr "m"); ("extra", VStr extra)].

Lemma unused_columns_do_not_matter_witness :
  rowMatchesFilters (sample_record "a") (Some [filter_on "kind" op_eq (VStr "x")])
    {| passMissingColumns := false |} =
  rowMatchesFilters (sample_record "b") (Some [filter_on "kind" op_eq (VStr "x")])
    {| passMissingColumns := false |} ∧
  (∀ ts, Database [sample_target] = Database ts → sample_target ∈ ts → mapping sample_target ≠ [] →
     mapRow (sample_record "a") (mapping sample_target) =
     mapRow (sample_record "b") (mapping sample_target)).
Proof.
  apply (unused_columns_do_not_matter sample_bridge
    {| connectionId := "c1"; database := None; schema := None; table := "t";
       filters := Some [filter_on "kind" op_eq (VStr "x")]; sort := None |}); [done|done|].
  rewrite sample_used. intros c. rewrite !elem_of_cons, elem_of_nil.
  by intros [->|[->|[->|[]]]].
Defined.
