(* ===== verification/PgLsn.v ===== *)
(** Positions in a PostgreSQL change stream:
    [apps/api/src/bridges/cdc/providers/postgres-lsn.ts]. *)
From S2P Require Import Prelude JsText JsNumber JsDate JsValue.
From S2P Require Import Template ColumnTransforms RedisTarget Schedule BridgeConfig TypeMap Bridge.

Local Open Scope Z_scope.

Record PgPosition := {
  commit : Z;
  change : Z;
  ordinal : num;
  ack : option string
}.

(** [1n << 64n]: the end of a transaction sorts after every change of it *)
Definition END : Z := 18446744073709551616.

(** [/^[0-9a-f]{1,8}$/i] *)
Definition hex_word (s : string) : bool :=
  let l := chars s in
  forallb is_hex_digit l && (1 <=? List.length l)%nat && (List.length l <=? 8)%nat.

Definition hex_number (s : string) : Z := hex_digits_value (chars s).

(** [None] where it throws *)
Definition lsnValue (text : string) : option Z :=
  match split_on "/" text with
  | [h; lo] => if hex_word h && hex_word lo
               then Some (Z.lor (Z.shiftl (hex_number h) 32) (hex_number lo)) else None
  | _ => None
  end.

(** [n.toString(16).toUpperCase()] *)
Fixpoint hex_digits (fuel : nat) (n : Z) (acc : list ascii) : list ascii :=
  match fuel with
  | O => acc
  | S fuel =>
      let acc := upper_char (hex_char (n mod 16)) :: acc in
      if n / 16 =? 0 then acc else hex_digits fuel (n / 16) acc
  end.

Definition to_hex (n : Z) : string := of_chars (hex_digits 17 n []).

(** the form Postgres prints: [16/B374D848] *)
Definition formatLsn (v : Z) : string :=
  to_hex (Z.shiftr v 32) +:+ "/" +:+ to_hex (Z.land v 4294967295).

Definition parsePgCursor (cursor : string) : option PgPosition :=
  match indexOf "#" cursor with
  | None =>
      v ← lsnValue cursor;
      Some {| commit := v; change := -1; ordinal := num_of_Z 0; ack := Some cursor |}
  | Some hash =>
      c ← lsnValue (slice 0 hash cursor);
      let rest := slice_from (S hash) cursor in
      if startsWith "c:" rest then
        let en := slice_from 2 rest in
        _ ← lsnValue en;
        Some {| commit := c; change := END; ordinal := num_of_Z 0; ack := Some en |}
      else
        dot ← lastIndexOf "." rest;
        let n := string_to_num (slice_from (S dot) rest) in
        if negb (is_integer n) || num_lt n (num_of_Z 0) then None
        else ch ← lsnValue (slice 0 dot rest);
             Some {| commit := c; change := ch; ordinal := n; ack := None |}
  end.

(** is position [a] strictly after [b] *)
Definition position_after (pa pb : PgPosition) : bool :=
  if negb (commit pa =? commit pb) then commit pb <? commit pa
  else if negb (change pa =? change pb) then change pb <? change pa
  else num_gt (ordinal pa) (ordinal pb).

Definition lsnAfter (a : string) (b : option string) : bool :=
  match b with
  | None => true
  | Some b =>
      if decide (b = EmptyString) then true
      else match parsePgCursor a, parsePgCursor b with
           | Some pa, Some pb => position_after pa pb
           | _, _ => false
           end
  end.

Definition normalizeLsn (lsn : string) : string :=
  match lsnValue lsn with Some v => formatLsn v | None => lsn end.

(** the position to hand the client so that the server is told exactly [lsn] *)
Definition lsnForClient (lsn : string) : option string :=
  v ← lsnValue lsn; if 0 <? v then Some (formatLsn (v - 1)) else None.

(** the cursors the readers hand out, [<commit>#<change>.<n>] and [<commit>#c:<end>] *)
Definition changeCursor (commit_ change_ : string) (n : nat) : string :=
  commit_ +:+ "#" +:+ change_ +:+ "." +:+ pretty n.
Definition endCursor (commit_ end_ : string) : string := commit_ +:+ "#c:" +:+ end_.

(** ** Row images *)

Definition withUnchanged (row : obj) : obj :=
  (λ kv, (kv.1, if is_undef kv.2 then UNCHANGED else kv.2)) <$> row.

Definition present (row : obj) : obj := filter (λ kv, is_undef kv.2 = false) row.

(** [None] where [JSON.stringify] throws *)
Definition sameValue (a b : jsval) : option bool :=
  if strict_eq a b then Some true
  else match a, b with
       | VBytes x, VBytes y => Some (bool_decide (x = y))
       | _, _ =>
           if is_object a && is_object b && negb (is_nil a) && negb (is_nil b) then
             match stringify a, stringify b with
             | JThrows, _ | _, JThrows => None
             | JText x, JText y => Some (bool_decide (x = y))
             | _, _ => Some false
             end
           else Some false
       end.

Definition clientIsDrained (service : jsval) : bool :=
  match service with
  | VObj o => match obj_get o "_messageQueue" with
              | VArr [] => strict_eq (obj_get o "_processing") (VBool false)
              | _ => false
              end
  | _ => false
  end.

(** an UPDATE message: the old row's key, or the whole old row, and the new row *)
Record UpdateMessage := {
  mkey : option obj;
  mold : option obj;
  mnew : option obj
}.

(** [msg.key ?? msg.old] *)
Definition before (msg : UpdateMessage) : option obj :=
  match mkey msg with Some k => Some k | None => mold msg end.

(** [msg.new?.[c]] *)
Definition new_value (msg : UpdateMessage) (c : string) : jsval :=
  match mnew msg with Some o => obj_get o c | None => VUndef end.

Section moved.
Variable same : jsval → jsval → bool.

Definition differs (b : obj) (msg : UpdateMessage) (c : string) : bool :=
  negb (is_undef (obj_get b c)) && negb (same (obj_get b c) (new_value msg c)).

Definition reservesOldRow (msg : UpdateMessage) (identityColumns : list string) : bool :=
  match before msg with
  | Some b => existsb (differs b msg) identityColumns
  | None => false
  end.

Definition rowMoved (msg : UpdateMessage) (identityColumns identifying : list string) : bool :=
  match before msg with
  | None => false
  | Some b =>
      let columns := match mkey msg with
                     | Some _ => identityColumns
                     | None => filter (λ c, c ∈ identifying) identityColumns
                     end in
      existsb (differs b msg) columns
  end.
End moved.

Definition identifyingColumns (d : BridgeDestination) (primaryKey : option (list string))
  : list string :=
  set_addl (set_of (default [] primaryKey))
    (match d with
     | Database ts => ts ≫= λ t, (λ k, sourceColumnFor k (mapping t)) <$> keyColumns t
     | Http _ => []
     end).

(** ** Reading back what is printed *)

Definition hex_char_good (n : Z) : bool :=
  let c := upper_char (hex_char n) in
  is_hex_digit c && (hex_value c =? n) &&
  bool_decide (c ∉ ["/"%char; "#"%char; "."%char; ":"%char]).

Lemma hex_chars_good : forallb hex_char_good (Z.of_nat <$> seq 0 16) = true.
Proof. vm_compute. reflexivity. Qed.

Lemma hex_char_facts n : 0 <= n < 16 →
  let c := upper_char (hex_char n) in
  is_hex_digit c = true ∧ hex_value c = n ∧ c ≠ "/"%char ∧ c ≠ "#"%char ∧ c ≠ "."%char ∧ c ≠ ":"%char.
Proof.
  intros Hn c. pose proof hex_chars_good as Hall. rewrite forallb_forall in Hall.
  specialize (Hall n). unfold hex_char_good in Hall. fold c in Hall. cbv zeta in Hall.
  rewrite !andb_true_iff, bool_decide_eq_true, Z.eqb_eq, !not_elem_of_cons in Hall.
  destruct Hall as ((H1 & H2) & H3); [|tauto]. apply list_elem_of_In, list_elem_of_fmap.
  exists (Z.to_nat n). split; [lia|]. apply elem_of_seq. lia.
Qed.

Lemma hex_digits_value_app l1 l2 :
  hex_digits_value (l1 ++ l2) =
  foldl (λ acc c, acc * 16 + hex_value c) (hex_digits_value l1) l2.
Proof. unfold hex_digits_value. by rewrite foldl_app. Qed.

Lemma hex_fold acc l :
  foldl (λ a c, a * 16 + hex_value c) acc l = acc * 16 ^ Z.of_nat (List.length l) + hex_digits_value l.
Proof.
  unfold hex_digits_value. revert acc. induction l as [|c l IH]; intros acc; cbn -[Z.of_nat Z.mul].
  - change (16 ^ Z.of_nat 0) with 1. lia.
  - rewrite IH. rewrite (IH (0 * 16 + hex_value c)).
    rewrite Nat2Z.inj_succ, Z.pow_succ_r by lia. lia.
Qed.

(** the digits of [n], in front of [acc] *)
Lemma hex_digits_spec fuel n acc :
  0 <= n → n < 16 ^ Z.of_nat fuel → (0 < fuel)%nat →
  ∃ ds, hex_digits fuel n acc = ds ++ acc ∧ hex_digits_value ds = n ∧
        (1 <= List.length ds)%nat ∧ (∀ k, n < 16 ^ Z.of_nat k → (0 < k)%nat → (List.length ds <= k)%nat) ∧
        Forall (λ c, is_hex_digit c = true ∧ c ≠ "/"%char ∧ c ≠ "#"%char ∧ c ≠ "."%char ∧ c ≠ ":"%char) ds.
Proof.
  revert n acc. induction fuel as [|fuel IH]; intros n acc Hn Hb Hf; [lia|].
  assert (0 <= n mod 16 < 16) as Hm by (apply Z.mod_pos_bound; lia).
  destruct (hex_char_facts _ Hm) as (H1 & H2 & H3 & H4 & H5 & H6).
  cbn [hex_digits]. set (c := upper_char (hex_char (n mod 16))) in *.
  pose proof (Z.div_mod n 16 ltac:(lia)) as Hdm.
  destruct (n / 16 =? 0) eqn:Hz; bool_to_prop.
  - exists [c]. split_and!; [done| |done|intros; cbn; lia|by repeat constructor].
    unfold hex_digits_value. cbn -[Z.mul]. rewrite H2. lia.
  - rewrite Nat2Z.inj_succ, Z.pow_succ_r in Hb by lia.
    assert (0 <= n / 16) by (apply Z.div_pos; lia).
    assert (0 < fuel)%nat.
    { destruct fuel; [|lia]. change (16 ^ Z.of_nat 0) with 1 in Hb. lia. }
    destruct (IH (n / 16) (c :: acc)) as (ds & Hd & Hv & Hl & Hmin & Hall); [lia|lia|lia|].
    exists (ds ++ [c]). rewrite Hd, <- app_assoc. split_and!; [done| | | |].
    + rewrite hex_digits_value_app. cbn -[Z.mul]. rewrite Hv, H2. lia.
    + rewrite length_app. lia.
    + intros k Hk Hk0. rewrite length_app. cbn. destruct k as [|k]; [lia|].
      rewrite Nat2Z.inj_succ, Z.pow_succ_r in Hk by lia.
      enough (List.length ds <= k)%nat by lia. apply Hmin; [lia|].
      destruct k; [|lia]. change (16 ^ Z.of_nat 0) with 1 in Hk. lia.
    + apply Forall_app. split; [done|]. by repeat constructor.
Qed.

(** a text that is safe inside a cursor *)
Definition clean (s : string) : Prop :=
  Forall (λ c, is_hex_digit c = true ∧ c ≠ "/"%char ∧ c ≠ "#"%char ∧ c ≠ "."%char ∧ c ≠ ":"%char) (chars s).

Lemma to_hex_spec n : 0 <= n < 2 ^ 32 →
  hex_number (to_hex n) = n ∧ hex_word (to_hex n) = true ∧ clean (to_hex n).
Proof.
  intros Hn. unfold hex_number, hex_word, clean, to_hex. rewrite !chars_of_chars.
  destruct (hex_digits_spec 17 n []) as (ds & -> & Hv & Hl & Hmin & Hall); [lia| |lia|].
  { assert (2 ^ 32 < 16 ^ Z.of_nat 17) by (vm_compute; reflexivity). lia. }
  rewrite app_nil_r. split_and!; [done| |done].
  assert (List.length ds <= 8)%nat.
  { apply Hmin; [|lia]. change (16 ^ Z.of_nat 8) with (2 ^ 32). lia. }
  rewrite !andb_true_iff, !Nat.leb_le. split_and!; [|lia|lia].
  apply forallb_forall. intros c Hc. rewrite Forall_forall in Hall.
  by destruct (Hall c ltac:(by apply list_elem_of_In)) as [? _].
Qed.

Lemma clean_not_elem s c :
  clean s → c ∈ ["/"%char; "#"%char; "."%char; ":"%char] → c ∉ chars s.
Proof.
  intros Hs Hc Hin. unfold clean in Hs. rewrite Forall_forall in Hs.
  destruct (Hs c Hin) as (_ & ? & ? & ? & ?).
  rewrite !elem_of_cons, elem_of_nil in Hc. naive_solver.
Qed.

Lemma shift_split v : 0 <= v < 2 ^ 64 →
  0 <= Z.shiftr v 32 < 2 ^ 32 ∧ 0 <= Z.land v 4294967295 < 2 ^ 32 ∧
  Z.lor (Z.shiftl (Z.shiftr v 32) 32) (Z.land v 4294967295) = v.
Proof.
  intros Hv. change 4294967295 with (Z.ones 32).
  rewrite Z.shiftr_div_pow2, Z.land_ones by lia.
  pose proof (Z.mod_pos_bound v (2 ^ 32) ltac:(lia)).
  pose proof (Z.div_mod v (2 ^ 32) ltac:(lia)).
  split; [split; [apply Z.div_pos; lia|apply Z.div_lt_upper_bound; lia]|]. split; [done|].
  rewrite <- Z.land_ones, <- Z.shiftr_div_pow2 by lia.
  apply Z.bits_inj'. intros i Hi. rewrite Z.lor_spec, Z.land_spec.
  destruct (Z.ltb_spec i 32).
  - rewrite Z.shiftl_spec_low, Z.ones_spec_low by lia. by rewrite andb_true_r.
  - rewrite Z.shiftl_spec_high, Z.ones_spec_high, andb_false_r, orb_false_r, Z.shiftr_spec by lia.
    f_equal. lia.
Qed.

Lemma lsnValue_formatLsn v : 0 <= v < 2 ^ 64 → lsnValue (formatLsn v) = Some v.
Proof.
  intros Hv. destruct (shift_split v Hv) as (Hh & Hl & He).
  destruct (to_hex_spec _ Hh) as (Hh1 & Hh2 & Hh3). destruct (to_hex_spec _ Hl) as (Hl1 & Hl2 & Hl3).
  unfold lsnValue, formatLsn.
  rewrite (split_on_unique "/" _ [chars (to_hex (Z.shiftr v 32)); chars (to_hex (Z.land v 4294967295))]);
    [|done| |by rewrite !chars_app].
  - cbn [fmap list_fmap]. rewrite !of_chars_chars, Hh2, Hl2. cbn [andb]. by rewrite Hh1, Hl1, He.
  - repeat constructor; by apply clean_not_elem; [|repeat constructor].
Qed.

(** ** Positions and the cursors that stand for them *)

(** what a reader can report: a change of a transaction, or its end *)
Inductive mark :=
| Change (commit_ change_ : Z) (n : nat)
| TxnEnd (commit_ end_ : Z).

Definition lsn_range (v : Z) : Prop := 0 <= v < 2 ^ 64.

Definition mark_ok (m : mark) : Prop :=
  match m with
  | Change c ch n => lsn_range c ∧ lsn_range ch ∧ Z.of_nat n < 2 ^ 53
  | TxnEnd c e => lsn_range c ∧ lsn_range e
  end.

Definition mark_cursor (m : mark) : string :=
  match m with
  | Change c ch n => changeCursor (formatLsn c) (formatLsn ch) n
  | TxnEnd c e => endCursor (formatLsn c) (formatLsn e)
  end.

Definition mark_position (m : mark) : PgPosition :=
  match m with
  | Change c ch n => {| commit := c; change := ch; ordinal := num_of_Z (Z.of_nat n); ack := None |}
  | TxnEnd c e => {| commit := c; change := END; ordinal := num_of_Z 0; ack := Some (formatLsn e) |}
  end.

(** commit order, then the place in the transaction, then the ordinal there *)
Definition mark_key (m : mark) : Z * Z * Z :=
  match m with
  | Change c ch n => (c, ch, Z.of_nat n)
  | TxnEnd c _ => (c, END, 0)
  end.

Definition lex_lt (a b : Z * Z * Z) : bool :=
  let '(a1, a2, a3) := a in
  let '(b1, b2, b3) := b in
  (a1 <? b1) || ((a1 =? b1) && ((a2 <? b2) || ((a2 =? b2) && (a3 <? b3)))).

Lemma formatLsn_chars v c :
  lsn_range v → c ∈ ["#"%char; "."%char; ":"%char] → c ∉ chars (formatLsn v).
Proof.
  intros Hv Hc. destruct (shift_split v Hv) as (Hh & Hl & _).
  destruct (to_hex_spec _ Hh) as (_ & _ & Hh3). destruct (to_hex_spec _ Hl) as (_ & _ & Hl3).
  unfold formatLsn. rewrite !chars_app, !elem_of_app.
  assert (c ∈ ["/"%char; "#"%char; "."%char; ":"%char]) by set_solver.
  intros [Hs|[Hs|Hs]]; [by eapply (clean_not_elem _ c Hh3)| |by eapply (clean_not_elem _ c Hl3)].
  change (chars "/") with ["/"%char] in Hs. set_solver.
Qed.

Lemma startsWith_c s : ":"%char ∉ chars s → startsWith "c:" s = false.
Proof.
  intros Hs. destruct (startsWith "c:" s) eqn:H; [|done].
  apply startsWith_spec in H as [r ->]. destruct Hs. rewrite chars_app, elem_of_app. left.
  by repeat constructor.
Qed.

Lemma pretty_digits (n : nat) : Forall (λ c, is_digit c = true) (chars (pretty n : string)).
Proof. unfold pretty, pretty_nat. by destruct (pretty_spec (N.of_nat n)) as [(? & _) _]. Qed.

Lemma digits_no c l : Forall (λ c, is_digit c = true) l → is_digit c = false → c ∉ l.
Proof. intros Hl Hc Hin. rewrite Forall_forall in Hl. rewrite (Hl c Hin) in Hc. done. Qed.

Lemma number_of_ordinal (n : nat) : Z.of_nat n < 2 ^ 53 →
  string_to_num (pretty n) = num_of_Z (Z.of_nat n).
Proof.
  intros Hn. change (pretty n) with (pretty (N.of_nat n)).
  rewrite string_to_num_pretty by (rewrite nat_N_Z; assert (2 ^ 53 < 10 ^ 300) by (vm_compute; reflexivity); lia).
  by rewrite nat_N_Z.
Qed.

Lemma parse_change c ch n :
  mark_ok (Change c ch n) →
  parsePgCursor (mark_cursor (Change c ch n)) = Some (mark_position (Change c ch n)).
Proof.
  intros (Hc & Hch & Hn). cbn [mark_cursor]. unfold changeCursor, parsePgCursor.
  rewrite (indexOf_char "#"), slice_0_app, slice_from_app_S
    by (apply formatLsn_chars; [done|by repeat constructor]).
  rewrite lsnValue_formatLsn by done. cbn [mbind option_bind].
  rewrite startsWith_c.
  2: { rewrite !chars_app, !elem_of_app. intros [H|[H|H]].
       - revert H. apply formatLsn_chars; [done|by repeat constructor].
       - by apply list_elem_of_singleton in H.
       - revert H. by apply digits_no; [apply pretty_digits|]. }
  rewrite lastIndexOf_char by (by apply digits_no; [apply pretty_digits|]).
  cbn [mbind option_bind]. rewrite slice_from_app_S, slice_0_app, number_of_ordinal by done.
  destruct (num_of_Z_integer (Z.of_nat n)) as (-> & -> & _ & _); [lia|].
  cbn [negb orb]. by rewrite lsnValue_formatLsn.
Qed.

Lemma parse_end c e :
  mark_ok (TxnEnd c e) → parsePgCursor (mark_cursor (TxnEnd c e)) = Some (mark_position (TxnEnd c e)).
Proof.
  intros (Hc & He). cbn [mark_cursor]. unfold endCursor, parsePgCursor.
  change ("#c:" +:+ formatLsn e) with ("#" +:+ ("c:" +:+ formatLsn e)).
  rewrite (indexOf_char "#"), slice_0_app, slice_from_app_S
    by (apply formatLsn_chars; [done|by repeat constructor]).
  rewrite lsnValue_formatLsn by done. cbn [mbind option_bind].
  assert (startsWith "c:" ("c:" +:+ formatLsn e) = true) as -> by (apply startsWith_spec; eauto).
  change 2%nat with (str_length "c:"). rewrite slice_from_app, lsnValue_formatLsn by done. done.
Qed.

(** A cursor means what it was made of: parsing what a reader hands out gives
    back the commit, the change and its ordinal, and the end of a transaction
    carries the position that may be confirmed. *)
Theorem parse_mark m : mark_ok m → parsePgCursor (mark_cursor m) = Some (mark_position m).
Proof. destruct m; [apply parse_change|apply parse_end]. Qed.

Lemma mark_parses m : mark_ok m → parsePgCursor (mark_cursor m) = Some (mark_position m).
Proof. destruct m; [apply parse_change|apply parse_end]. Qed.

Lemma mark_cursor_not_empty m : mark_ok m → mark_cursor m ≠ EmptyString.
Proof. intros Hm He. pose proof (mark_parses m Hm) as H. rewrite He in H. discriminate H. Qed.

Lemma position_after_key a b :
  mark_ok a → mark_ok b →
  position_after (mark_position a) (mark_position b) = lex_lt (mark_key b) (mark_key a).
Proof.
  assert (∀ m, mark_ok m → ∃ c k o, mark_key m = (c, k, o) ∧ commit (mark_position m) = c ∧
            change (mark_position m) = k ∧ ordinal (mark_position m) = num_of_Z o ∧ 0 <= o < 2 ^ 53) as Hm.
  { intros [c ch n|c e]; cbn; [intros (_ & _ & ?); do 3 eexists; split_and!; try done; lia|].
    intros _. do 3 eexists; split_and!; try done; lia. }
  intros Ha Hb. destruct (Hm a Ha) as (c1 & k1 & o1 & -> & Hc1 & Hk1 & Ho1 & Hr1).
  destruct (Hm b Hb) as (c2 & k2 & o2 & -> & Hc2 & Hk2 & Ho2 & Hr2).
  unfold position_after, lex_lt, num_gt. rewrite Hc1, Hc2, Hk1, Hk2, Ho1, Ho2.
  change (SFltb (num_of_Z o2) (num_of_Z o1)) with (num_lt (num_of_Z o2) (num_of_Z o1)).
  rewrite num_lt_Z by done.
  destruct (Z.eqb_spec c1 c2) as [->|]; cbn [negb].
  - rewrite Z.ltb_irrefl, Z.eqb_refl. cbn [orb andb].
    destruct (Z.eqb_spec k1 k2) as [->|]; cbn [negb].
    + by rewrite Z.ltb_irrefl, Z.eqb_refl.
    + rewrite (proj2 (Z.eqb_neq k2 k1)) by done. by rewrite orb_false_r.
  - rewrite (proj2 (Z.eqb_neq c2 c1)) by done. by rewrite orb_false_r.
Qed.

Lemma lsnAfter_marks a b :
  mark_ok a → mark_ok b →
  lsnAfter (mark_cursor a) (Some (mark_cursor b)) = lex_lt (mark_key b) (mark_key a).
Proof.
  intros Ha Hb. unfold lsnAfter.
  rewrite decide_False by (by apply mark_cursor_not_empty).
  rewrite !mark_parses by done. by apply position_after_key.
Qed.

(** The watermark's order is the order of the stream: of two cursors the one is
    after the other exactly when its transaction committed later, or it stands
    later in the same transaction, whose end comes after all of its changes. *)
Theorem lsnAfter_is_stream_order a b :
  mark_ok a → mark_ok b →
  lsnAfter (mark_cursor a) (Some (mark_cursor b)) = lex_lt (mark_key b) (mark_key a).
Proof. apply lsnAfter_marks. Qed.

(** *** The order laws, for every cursor that parses (legacy ones too) *)

Lemma position_after_trans p q r :
  position_after p q = true → position_after q r = true → position_after p r = true.
Proof.
  unfold position_after, num_gt. intros H1 H2.
  destruct (Z.eqb_spec (commit p) (commit q)), (Z.eqb_spec (commit q) (commit r)),
    (Z.eqb_spec (commit p) (commit r)); cbn [negb] in *; bool_to_prop; try lia;
  destruct (Z.eqb_spec (change p) (change q)), (Z.eqb_spec (change q) (change r)),
    (Z.eqb_spec (change p) (change r)); cbn [negb] in *; bool_to_prop; try lia;
  try (apply Z.ltb_lt; lia); by eapply num_lt_trans.
Qed.

Lemma position_after_irrefl p : position_after p p = false.
Proof. unfold position_after. rewrite !Z.eqb_refl. apply num_lt_irrefl. Qed.

(** Whatever cursors a bridge has stored, old format or new, "after" is a
    strict order on them: nothing is after itself, no two are after each other, and
    it carries over a third; so a watermark that only moves to positions after it
    never returns to one it has left. *)
Theorem lsnAfter_strict_order a b c :
  b ≠ EmptyString → c ≠ EmptyString →
  lsnAfter b (Some b) = false ∧
  (lsnAfter a (Some b) = true → lsnAfter b (Some c) = true → lsnAfter a (Some c) = true) ∧
  (lsnAfter c (Some b) = true → lsnAfter b (Some c) = false).
Proof.
  intros Hb Hc. unfold lsnAfter. rewrite !decide_False by done.
  destruct (parsePgCursor a) as [pa|], (parsePgCursor b) as [pb|], (parsePgCursor c) as [pc|];
    rewrite ?position_after_irrefl; split_and!; try done.
  - apply position_after_trans.
  - intros H. destruct (position_after pb pc) eqn:H'; [|done].
    pose proof (position_after_trans _ _ _ H H') as Hi. by rewrite position_after_irrefl in Hi.
  - intros H. destruct (position_after pb pc) eqn:H'; [|done].
    pose proof (position_after_trans _ _ _ H H') as Hi. by rewrite position_after_irrefl in Hi.
Qed.

(** ** Positions for the server *)

Lemma hex_value_range c : is_hex_digit c = true → 0 <= hex_value c < 16.
Proof.
  unfold is_hex_digit, hex_value, is_digit, is_lower, in_range, digit_value.
  intros H. rewrite !orb_true_iff, !andb_true_iff, !N.leb_le in H.
  destruct (((48 <=? code c) && (code c <=? 57))%N) eqn:H1;
    [|destruct (((97 <=? code c) && (code c <=? 122))%N) eqn:H2];
    rewrite ?andb_true_iff, ?andb_false_iff, ?N.leb_le, ?N.leb_gt in *; lia.
Qed.

Lemma hex_digits_value_range l :
  Forall (λ c, is_hex_digit c = true) l → 0 <= hex_digits_value l < 16 ^ Z.of_nat (List.length l).
Proof.
  induction l as [|c l IH] using rev_ind; intros Hf.
  - unfold hex_digits_value. cbn. lia.
  - apply Forall_app in Hf as [Hl Hc]. inversion_clear Hc as [|? ? Hc' _].
    specialize (IH Hl). apply hex_value_range in Hc'.
    rewrite hex_digits_value_app, length_app. cbn [foldl List.length].
    rewrite Nat2Z.inj_add, Z.pow_add_r by lia. change (16 ^ Z.of_nat 1) with 16. lia.
Qed.

Lemma hex_word_range s : hex_word s = true → 0 <= hex_number s < 2 ^ 32.
Proof.
  unfold hex_word, hex_number. intros H. bool_to_prop.
  rewrite forallb_forall in H.
  pose proof (hex_digits_value_range (chars s)) as Hr.
  assert (16 ^ Z.of_nat (List.length (chars s)) <= 2 ^ 32).
  { change (2 ^ 32) with (16 ^ 8). apply Z.pow_le_mono_r; lia. }
  enough (Forall (λ c, is_hex_digit c = true) (chars s)) as Hf by (specialize (Hr Hf); lia).
  apply Forall_forall. intros c Hc. by apply H, list_elem_of_In.
Qed.

Lemma lor_shift_range a b : 0 <= a < 2 ^ 32 → 0 <= b < 2 ^ 32 →
  0 <= Z.lor (Z.shiftl a 32) b < 2 ^ 64.
Proof.
  intros Ha Hb.
  assert (0 <= Z.lor (Z.shiftl a 32) b) as Hnn.
  { apply Z.lor_nonneg. split; [apply Z.shiftl_nonneg|]; lia. }
  split; [done|].
  destruct (Z.eq_dec (Z.lor (Z.shiftl a 32) b) 0) as [->|Hne]; [lia|].
  apply Z.log2_lt_pow2; [lia|].
  rewrite Z.log2_lor by (try apply Z.shiftl_nonneg; lia).
  assert (Z.log2 b < 32).
  { destruct (Z.eq_dec b 0) as [->|]; [cbn; lia|]. apply Z.log2_lt_pow2; lia. }
  assert (Z.log2 (Z.shiftl a 32) < 64); [|lia].
  destruct (Z.eq_dec a 0) as [->|]; [vm_compute; reflexivity|].
  rewrite Z.log2_shiftl by lia.
  assert (Z.log2 a < 32) by (apply Z.log2_lt_pow2; lia). lia.
Qed.

Lemma lsnValue_range s v : lsnValue s = Some v → lsn_range v.
Proof.
  unfold lsnValue. destruct (split_on "/" s) as [|h [|lo [|]]]; try done.
  case_match eqn:H; [|done]. intros [= <-]. bool_to_prop.
  apply lor_shift_range; by apply hex_word_range.
Qed.

(** The server is told exactly the position that is durable: the client adds
    one byte to what it is handed, and what it is handed is one byte less. *)
Theorem lsnForClient_exact lsn v s :
  lsnValue lsn = Some v → lsnForClient lsn = Some s → lsnValue s = Some (v - 1) ∧ 0 < v.
Proof.
  intros Hv. unfold lsnForClient. rewrite Hv. cbn [mbind option_bind].
  destruct (0 <? v) eqn:H0; [|done]. bool_to_prop. intros [= <-]. split; [|done].
  apply lsnValue_range in Hv. apply lsnValue_formatLsn. unfold lsn_range in Hv. lia.
Qed.

(** Normalising keeps the position and settles the spelling. *)
Theorem normalizeLsn_canonical lsn v :
  lsnValue lsn = Some v →
  lsnValue (normalizeLsn lsn) = Some v ∧ normalizeLsn (normalizeLsn lsn) = normalizeLsn lsn.
Proof.
  intros Hv. assert (lsnValue (normalizeLsn lsn) = Some v) as H.
  { unfold normalizeLsn. rewrite Hv. by apply lsnValue_formatLsn, (lsnValue_range lsn). }
  split; [done|]. unfold normalizeLsn at 1. rewrite H. unfold normalizeLsn. by rewrite Hv.
Qed.

(** ** Row images *)

(** A column the message left out is marked and never invented: the marked row
    has the same columns in the same order, holds no [undefined], and keeps every
    value that was sent. *)
Theorem withUnchanged_spec row :
  obj_keys (withUnchanged row) = obj_keys row ∧
  (∀ c, has_own row c = true → is_undef (obj_get (withUnchanged row) c) = false) ∧
  (∀ c, is_undef (obj_get row c) = false → obj_get (withUnchanged row) c = obj_get row c) ∧
  (∀ c, has_own row c = true → is_undef (obj_get row c) = true →
     obj_get (withUnchanged row) c = UNCHANGED).
Proof.
  assert (∀ c, obj_find (withUnchanged row) c =
            (λ v, if is_undef v then UNCHANGED else v) <$> obj_find row c) as Hf.
  { intros c. unfold withUnchanged. induction row as [|[k v] row IH]; [done|]. cbn.
    case_decide; [done|apply IH]. }
  split_and!.
  - unfold obj_keys, withUnchanged. rewrite <- list_fmap_compose. by apply list_fmap_ext.
  - intros c Hc. apply has_own_Some in Hc as [v Hv]. unfold obj_get. rewrite Hf, Hv. cbn.
    by destruct (is_undef v) eqn:Hu.
  - intros c. unfold obj_get. rewrite Hf. destruct (obj_find row c) as [v|]; cbn; [|done].
    by intros ->.
  - intros c Hc. apply has_own_Some in Hc as [v Hv]. unfold obj_get. rewrite Hf, Hv. cbn.
    by intros ->.
Qed.

(** A row that is handed out as moved has its position reserved, whoever reads:
    every move is among the updates for which every reader of the stream sets a
    position aside; and under a full old image only a change of an identifying
    column is a move. *)
Lemma rowMoved_reserved same msg identityColumns identifying :
  rowMoved same msg identityColumns identifying = true →
  reservesOldRow same msg identityColumns = true ∧
  (mkey msg = None → ∃ c b, mold msg = Some b ∧ c ∈ identifying ∧ c ∈ identityColumns ∧
     same (obj_get b c) (new_value msg c) = false).
Proof.
  unfold rowMoved, reservesOldRow. destruct (before msg) as [b|] eqn:Hb; [|done].
  intros (c & Hc & Hd)%existsb_exists. rewrite <- list_elem_of_In in Hc. split.
  - apply existsb_exists. exists c. split; [|done]. apply list_elem_of_In.
    destruct (mkey msg); [done|]. by apply list_elem_of_filter in Hc as [_ ?].
  - intros Hk. rewrite Hk in Hc. apply list_elem_of_filter in Hc as [Hi Hc].
    unfold before in Hb. rewrite Hk in Hb. unfold differs in Hd. bool_to_prop. eauto 10.
Qed.

(** ** Concrete positions *)

Definition mark1 : mark := Change 0x16B374D848 0x16B3740000 12.
Definition mark2 : mark := TxnEnd 0x16B374D848 0x16B374D900.

Example cursor_samples :
  mark_cursor mark1 = "16/B374D848#16/B3740000.12" ∧ mark_cursor mark2 = "16/B374D848#c:16/B374D900" ∧
  lsnAfter "16/B374D848" (Some "16/B374D847#16/B374D900.3") = true ∧
  parsePgCursor "16/XYZ" = None ∧ normalizeLsn "00000001/0d940508" = "1/D940508" ∧
  lsnForClient "0/0" = None ∧ lsnForClient "1/0" = Some "0/FFFFFFFF".
Proof. vm_compute. done. Qed.

Lemma parse_mark_witness :
  parsePgCursor "16/B374D848#16/B3740000.12" = Some (mark_position mark1).
Proof. apply (parse_mark mark1). vm_compute. by repeat split. Defined.

Lemma lsnAfter_is_stream_order_witness :
  lsnAfter "16/B374D848#c:16/B374D900" (Some "16/B374D848#16/B3740000.12") = true.
Proof. apply (lsnAfter_is_stream_order mark2 mark1); vm_compute; by repeat split. Defined.

Lemma lsnAfter_strict_order_witness :
  lsnAfter "1/0" (Some "1/0") = false ∧
  (lsnAfter "2/0" (Some "1/0") = true → lsnAfter "1/0" (Some "0/5") = true →
   lsnAfter "2/0" (Some "0/5") = true) ∧
  (lsnAfter "0/5" (Some "1/0") = true → lsnAfter "1/0" (Some "0/5") = false).
Proof. by apply (lsnAfter_strict_order "2/0" "1/0" "0/5"). Defined.

Lemma lsnForClient_exact_witness : lsnValue "0/FFFFFFFF" = Some (0x100000000 - 1) ∧ 0 < 0x100000000.
Proof. apply (lsnForClient_exact "1/0"); vm_compute; reflexivity. Defined.

Lemma normalizeLsn_canonical_witness :
  lsnValue (normalizeLsn "00000001/0d") = Some 0x10000000d ∧
  normalizeLsn (normalizeLsn "00000001/0d") = normalizeLsn "00000001/0d".
Proof. apply normalizeLsn_canonical. vm_compute. reflexivity. Defined.

Definition sample_update : UpdateMessage :=
  {| mkey := None; mold := Some [("id", VStr "1"); ("n", VStr "a")];
     mnew := Some [("id", VStr "2"); ("n", VStr "b")] |}.

Example sample_update_moves :
  rowMoved strict_eq sample_update ["id"; "n"] ["id"] = true ∧
  reservesOldRow strict_eq sample_update ["id"; "n"] = true.
Proof. vm_compute. done. Qed.
