(* ===== verification/Isolate.v ===== *)
(** Poison-row isolation: [apps/api/src/bridges/cdc/isolate-failures.ts].

    The asynchronous [attempt] callback is a state-passing function over an
    arbitrary world [W] (the destination); a [Segment] object is identified by
    its [sid], and the [sibling] reference is the identity of the other half,
    so that the mutation [sibling.knownBad = true] of an object that sits in
    the queue is an update of the queue entry with that identity. *)
From S2P Require Import Prelude.
From stdpp Require Import pretty.

Section isolate.
Context {R W : Type}.

Record IsolationAttempt := {
  ok : bool;
  error : option string;
  succeededTargets : list string
}.

Record PoisonedRow := {
  prow : R;
  perror : string;
  psucceeded : list string
}.

Record IsolationResult := {
  delivered : list R;
  poisoned : list PoisonedRow;
  systemic : bool;
  reason : option string;
  attempts : nat
}.

Record IsolationOptions := {
  batchError : option string;
  alreadySucceeded : list string;
  maxAttempts : nat;
  maxPoisoned : nat;
  failuresBeforeSystemic : nat
}.

Record Segment := {
  sid : nat;
  rows : list R;
  skip : list string;
  sibling : option nat;
  knownBad : bool
}.

(** [split]: two fresh objects [id] and [id + 1], each aware of the other *)
Definition split (id : nat) (rs : list R) (sk : list string) : list Segment :=
  let mid := (length rs + 1) / 2 in
  [ {| sid := id; rows := take mid rs; skip := sk;
       sibling := Some (S id); knownBad := false |};
    {| sid := S id; rows := drop mid rs; skip := sk;
       sibling := Some id; knownBad := false |} ].

(** [sibling.knownBad = true], when the sibling is still queued *)
Definition mark_bad (sib : option nat) (queue : list Segment) : list Segment :=
  (λ s, if decide (sib = Some (sid s))
        then {| sid := sid s; rows := rows s; skip := skip s;
                sibling := sibling s; knownBad := true |}
        else s) <$> queue.

(** the local variables of the search loop *)
Record Search := {
  result : IsolationResult;
  successes : nat;
  queue : list Segment;
  nextId : nat
}.

Variable attempt : W → list R → list string → IsolationAttempt * W.
Variable opts : IsolationOptions.

Definition giveUp (r : IsolationResult) (why : string) : IsolationResult :=
  {| delivered := delivered r; poisoned := poisoned r; systemic := true;
     reason := Some why; attempts := attempts r |}.

Definition empty_result : IsolationResult :=
  {| delivered := []; poisoned := []; systemic := false; reason := None;
     attempts := 0 |}.

(** one pass of the [while] body, for the segment that was shifted off *)
Definition search_step (w : W) (st : Search) (seg : Segment) (rest : list Segment)
  : (Search + IsolationResult) * W :=
  let r := result st in
  if knownBad seg && (1 <? length (rows seg)) then
    (inl {| result := r; successes := successes st;
            queue := rest ++ split (nextId st) (rows seg) (skip seg);
            nextId := nextId st + 2 |}, w)
  else if maxAttempts opts <=? attempts r then
    (inr (giveUp r ("gave up isolating the failing rows after "
                    +:+ pretty (attempts r) +:+ " attempts")), w)
  else
    let (o, w') := attempt w (rows seg) (skip seg) in
    let made := S (attempts r) in
    if ok o then
      (inl {| result := {| delivered := delivered r ++ rows seg;
                           poisoned := poisoned r; systemic := systemic r;
                           reason := reason r; attempts := made |};
              successes := S (successes st);
              queue := mark_bad (sibling seg) rest;
              nextId := nextId st |}, w')
    else
      let err := default "delivery failed" (error o) in
      let r' := {| delivered := delivered r; poisoned := poisoned r;
                   systemic := systemic r; reason := reason r;
                   attempts := made |} in
      if (successes st =? 0) && (failuresBeforeSystemic opts <=? made) then
        (inr (giveUp r' ("every attempt failed (" +:+ pretty made
                         +:+ " in a row): " +:+ err)), w')
      else
        let sk := set_addl (skip seg) (succeededTargets o) in
        match rows seg with
        | [row] =>
            let r'' := {| delivered := delivered r;
                          poisoned := poisoned r ++
                            [{| prow := row; perror := err; psucceeded := sk |}];
                          systemic := systemic r; reason := reason r;
                          attempts := made |} in
            if maxPoisoned opts <? length (poisoned r'') then
              (inr (giveUp r'' ("more than " +:+ pretty (maxPoisoned opts)
                   +:+ " rows in one batch are failing: " +:+ err)), w')
            else
              (inl {| result := r''; successes := successes st; queue := rest;
                      nextId := nextId st |}, w')
        | rs =>
            (inl {| result := r'; successes := successes st;
                    queue := rest ++ split (nextId st) rs sk;
                    nextId := nextId st + 2 |}, w')
        end.

(** [while (queue.length > 0)]; [None] when the fuel runs out *)
Fixpoint search (fuel : nat) (w : W) (st : Search) : option (IsolationResult * W) :=
  match queue st, fuel with
  | [], _ => Some (result st, w)
  | _ :: _, 0 => None
  | seg :: rest, S fuel =>
      match search_step w st seg rest with
      | (inr r, w') => Some (r, w')
      | (inl st', w') => search fuel w' st'
      end
  end.

(** [isolateFailures] *)
Definition isolateFailures (fuel : nat) (w : W) (rs : list R)
  : option (IsolationResult * W) :=
  let baseSkip := set_of (alreadySucceeded opts) in
  match rs with
  | [] => Some (empty_result, w)
  | [row] =>
      Some ({| delivered := [];
               poisoned := [{| prow := row;
                               perror := default "delivery failed" (batchError opts);
                               psucceeded := baseSkip |}];
               systemic := false; reason := None; attempts := 0 |}, w)
  | _ =>
      search fuel w {| result := empty_result; successes := 0;
                       queue := split 0 rs baseSkip; nextId := 2 |}
  end.

(** * Facts about splitting *)

Lemma split_rows id rs sk : concat (rows <$> split id rs sk) = rs.
Proof. simpl. rewrite app_nil_r. apply take_drop. Qed.

Lemma half_bounds n : 2 ≤ n → 1 ≤ (n + 1) / 2 ∧ (n + 1) / 2 < n.
Proof.
  intros. split; [apply Nat.div_le_lower_bound; lia|].
  apply Nat.Div0.div_lt_upper_bound; lia.
Qed.

Lemma length_take_half (rs : list R) :
  2 ≤ length rs → 1 ≤ length (take ((length rs + 1) / 2) rs) < length rs.
Proof. intros Hn. pose proof (half_bounds _ Hn). rewrite length_take. lia. Qed.

Lemma split_nonempty id rs sk :
  2 ≤ length rs → Forall (λ s, 1 ≤ length (rows s)) (split id rs sk).
Proof.
  intros Hn. pose proof (half_bounds _ Hn) as [? ?].
  unfold split. rewrite !Forall_cons, Forall_nil. cbn [rows].
  rewrite length_take, length_drop. lia.
Qed.

Lemma mark_bad_rows sib q : rows <$> mark_bad sib q = rows <$> q.
Proof.
  unfold mark_bad. rewrite <- list_fmap_compose. apply list_fmap_ext.
  intros i s _. simpl. by case_decide.
Qed.

Lemma mark_bad_nonempty sib q :
  Forall (λ s, 1 ≤ length (rows s)) q →
  Forall (λ s, 1 ≤ length (rows s)) (mark_bad sib q).
Proof.
  unfold mark_bad. rewrite Forall_fmap. intros Hq.
  apply (Forall_impl _ _ _ Hq). intros s Hs. simpl. by case_decide.
Qed.

(** the work a queue stands for: each segment of [n] rows costs at most
    [2 n - 1] passes *)
Definition work (q : list Segment) : nat :=
  sum_list ((λ rs, 2 * length rs - 1) <$> (rows <$> q)).

Lemma work_cons s q : work (s :: q) = (2 * length (rows s) - 1) + work q.
Proof. done. Qed.

Lemma work_app q1 q2 : work (q1 ++ q2) = work q1 + work q2.
Proof.
  induction q1 as [|s q1 IH]; [done|].
  rewrite <- app_comm_cons, !work_cons, IH. lia.
Qed.

Lemma work_split id rs sk :
  2 ≤ length rs → work (split id rs sk) = 2 * length rs - 2.
Proof.
  intros Hn. pose proof (half_bounds _ Hn) as [? ?].
  unfold split. rewrite !work_cons. cbn [rows].
  rewrite length_take, length_drop. change (work []) with 0. lia.
Qed.

Lemma work_mark_bad sib q : work (mark_bad sib q) = work q.
Proof. unfold work. by rewrite mark_bad_rows. Qed.

(** * The loop: an induction principle and termination *)

(** what [search_step] can do, as a relation: one constructor per way
    through the body of the loop *)
Inductive stepped (w : W) (st : Search) (seg : Segment) (rest : list Segment)
  : Search + IsolationResult → W → Prop :=
| stepped_known_bad :
    knownBad seg = true → 2 ≤ length (rows seg) →
    stepped w st seg rest
      (inl {| result := result st; successes := successes st;
              queue := rest ++ split (nextId st) (rows seg) (skip seg);
              nextId := nextId st + 2 |}) w
| stepped_exhausted why :
    ¬ (knownBad seg = true ∧ 2 ≤ length (rows seg)) →
    maxAttempts opts ≤ attempts (result st) →
    stepped w st seg rest (inr (giveUp (result st) why)) w
| stepped_clean o w' :
    ¬ (knownBad seg = true ∧ 2 ≤ length (rows seg)) →
    attempts (result st) < maxAttempts opts →
    attempt w (rows seg) (skip seg) = (o, w') → ok o = true →
    stepped w st seg rest
      (inl {| result := {| delivered := delivered (result st) ++ rows seg;
                           poisoned := poisoned (result st);
                           systemic := systemic (result st);
                           reason := reason (result st);
                           attempts := S (attempts (result st)) |};
              successes := S (successes st);
              queue := mark_bad (sibling seg) rest;
              nextId := nextId st |}) w'
| stepped_all_failed o w' why :
    ¬ (knownBad seg = true ∧ 2 ≤ length (rows seg)) →
    attempts (result st) < maxAttempts opts →
    attempt w (rows seg) (skip seg) = (o, w') → ok o = false →
    successes st = 0 →
    failuresBeforeSystemic opts ≤ S (attempts (result st)) →
    stepped w st seg rest
      (inr {| delivered := delivered (result st);
              poisoned := poisoned (result st); systemic := true;
              reason := Some why; attempts := S (attempts (result st)) |}) w'
| stepped_poison o w' row (over : bool) why :
    ¬ (knownBad seg = true ∧ 2 ≤ length (rows seg)) →
    attempts (result st) < maxAttempts opts →
    attempt w (rows seg) (skip seg) = (o, w') → ok o = false →
    ¬ (successes st = 0 ∧ failuresBeforeSystemic opts ≤ S (attempts (result st))) →
    rows seg = [row] →
    (over = true ↔ maxPoisoned opts < S (length (poisoned (result st)))) →
    let r := {| delivered := delivered (result st);
                poisoned := poisoned (result st) ++
                  [{| prow := row; perror := default "delivery failed" (error o);
                      psucceeded := set_addl (skip seg) (succeededTargets o) |}];
                systemic := systemic (result st); reason := reason (result st);
                attempts := S (attempts (result st)) |} in
    stepped w st seg rest
      (if over then inr (giveUp r why)
       else inl {| result := r; successes := successes st; queue := rest;
                   nextId := nextId st |}) w'
| stepped_split o w' :
    ¬ (knownBad seg = true ∧ 2 ≤ length (rows seg)) →
    attempts (result st) < maxAttempts opts →
    attempt w (rows seg) (skip seg) = (o, w') → ok o = false →
    ¬ (successes st = 0 ∧ failuresBeforeSystemic opts ≤ S (attempts (result st))) →
    length (rows seg) ≠ 1 →
    stepped w st seg rest
      (inl {| result := {| delivered := delivered (result st);
                           poisoned := poisoned (result st);
                           systemic := systemic (result st);
                           reason := reason (result st);
                           attempts := S (attempts (result st)) |};
              successes := successes st;
              queue := rest ++ split (nextId st) (rows seg)
                                 (set_addl (skip seg) (succeededTargets o));
              nextId := nextId st + 2 |}) w'.

Lemma search_stepped w st seg rest :
  stepped w st seg rest (search_step w st seg rest).1 (search_step w st seg rest).2.
Proof.
  unfold search_step.
  destruct (knownBad seg && _) eqn:Hkb; bool_to_prop; [by constructor|].
  assert (¬ (knownBad seg = true ∧ 2 ≤ length (rows seg))) as Hnk.
  { intros [He Hl%Nat.ltb_lt]. by rewrite He, Hl in Hkb. }
  clear Hkb.
  destruct (_ <=? attempts _) eqn:Hmax; bool_to_prop; [by constructor|].
  destruct (attempt w (rows seg) (skip seg)) as [o w'] eqn:Ha.
  destruct (ok o) eqn:Hok; [by econstructor|].
  destruct ((successes st =? 0) && _) eqn:Hf; bool_to_prop; [by econstructor|].
  assert (¬ (successes st = 0 ∧ failuresBeforeSystemic opts ≤ S (attempts (result st)))).
  { intros [He%Nat.eqb_eq Hl%Nat.leb_le]. by rewrite He, Hl in Hf. }
  destruct (decide (length (rows seg) = 1)) as [Hone|Hmany].
  - destruct (rows seg) as [|row [|]] eqn:Hr; try done. rewrite <- Hr in Ha, Hnk.
    cbn [poisoned]. rewrite length_app.
    change (length [_]) with 1. rewrite ?Nat.add_1_r.
    destruct (maxPoisoned opts <? _) eqn:Hmp; bool_to_prop;
      [eapply (stepped_poison _ _ _ _ o w' row true)
      |eapply (stepped_poison _ _ _ _ o w' row false EmptyString)];
      try done; (split; intros; done || lia).
  - destruct (rows seg) as [|row [|]] eqn:Hr; try done;
      rewrite <- Hr in *; by econstructor.
Qed.

(** an invariant of the loop that its exits turn into a fact of the result *)
Lemma search_inv (P : Search → Prop) (Q : IsolationResult → Prop) :
  (∀ st, P st → queue st = [] → Q (result st)) →
  (∀ w st seg rest next w', P st → queue st = seg :: rest →
     stepped w st seg rest next w' →
     match next with inl st' => P st' | inr r => Q r end) →
  ∀ fuel w st r w', P st → search fuel w st = Some (r, w') → Q r.
Proof.
  intros Hend Hstep fuel. induction fuel as [|fuel IH]; intros w st r w' HP Hs;
    simpl in Hs; destruct (queue st) as [|seg rest] eqn:Hq;
    simplify_eq; [eauto..|].
  pose proof (search_stepped w st seg rest) as Hss.
  specialize (Hstep _ _ _ _ _ _ HP Hq Hss).
  destruct (search_step w st seg rest) as [[st'|r'] w'']; simpl in *;
    simplify_eq; eauto.
Qed.

(** what the attempts keep true of the world, and what they achieve there *)
Lemma search_world (I : W → Prop) (L : W → R → Prop) :
  (∀ w rs sk o w', I w → attempt w rs sk = (o, w') →
     I w' ∧ (∀ x, L w x → L w' x) ∧ (ok o = true → ∀ x, x ∈ rs → L w' x)) →
  ∀ fuel w st r w', I w → (∀ x, x ∈ delivered (result st) → L w x) →
    search fuel w st = Some (r, w') → I w' ∧ ∀ x, x ∈ delivered r → L w' x.
Proof.
  intros Hat fuel. induction fuel as [|fuel IH]; intros w st r w' HI HL Hs;
    simpl in Hs; destruct (queue st) as [|seg rest] eqn:Hq; simplify_eq; [done..|].
  pose proof (search_stepped w st seg rest) as Hss.
  destruct (search_step w st seg rest) as [next w''] eqn:Heq. cbn [fst snd] in Hss.
  assert (I w'' ∧ ∀ x, x ∈ match next with inl st' => delivered (result st')
                             | inr r' => delivered r' end → L w'' x) as [HI' HL'].
  { destruct Hss as [? ?|? ? ?|o ? ? ? Ha Hok|o ? ? ? ? Ha Hok ? ?|o ? row over ? ? ? Ha Hok ? ? ? r'
                    |o ? ? ? Ha Hok ? ?]; try (by split);
      destruct (Hat _ _ _ _ _ HI Ha) as (HI' & Hmono & Hdone); try destruct over;
      (split; [done|]); cbn; intros x Hx; try (by apply Hmono, HL).
    apply elem_of_app in Hx as [Hx|Hx]; [by apply Hmono, HL|by apply Hdone]. }
  destruct next as [st'|r']; simplify_eq; eauto.
Qed.

(** every pass shrinks the work that is queued *)
Lemma stepped_work w st seg rest next w' :
  1 ≤ length (rows seg) → Forall (λ s, 1 ≤ length (rows s)) rest →
  stepped w st seg rest next w' →
  match next with
  | inl st' => work (queue st') < work (seg :: rest) ∧
               Forall (λ s, 1 ≤ length (rows s)) (queue st')
  | inr _ => True
  end.
Proof.
  intros Hseg Hrest Hs. rewrite work_cons.
  inversion_clear Hs; try destruct over; cbn [queue]; try done;
    rewrite ?work_app, ?work_split, ?work_mark_bad by lia;
    (split; [lia|]); auto using mark_bad_nonempty;
    apply Forall_app; (split; [done|apply split_nonempty; lia]).
Qed.

Lemma search_total fuel w st :
  Forall (λ s, 1 ≤ length (rows s)) (queue st) → work (queue st) ≤ fuel →
  is_Some (search fuel w st).
Proof.
  revert w st. induction fuel as [|fuel IH]; intros w st Hne Hw; simpl;
    destruct (queue st) as [|seg rest] eqn:Hq; eauto.
  - rewrite work_cons in Hw. inversion Hne. lia.
  - apply Forall_cons in Hne as [Hseg Hrest].
    pose proof (stepped_work _ _ _ _ _ _ Hseg Hrest (search_stepped w st seg rest)) as Hs.
    destruct (search_step w st seg rest) as [[st'|r] w']; simpl in *; eauto.
    destruct Hs. apply IH; [done|lia].
Qed.

(** * The invariants of the search *)

(** a row was handed to a delivery of its own, and that failed *)
Definition failed_alone (p : PoisonedRow) : Prop :=
  ∃ w sk o, (attempt w [prow p] sk).1 = o ∧ ok o = false ∧
    perror p = default "delivery failed" (error o) ∧
    psucceeded p = set_addl sk (succeededTargets o).

(** a row was part of a group whose delivery succeeded *)
Definition landed (row : R) : Prop :=
  ∃ w rs sk, row ∈ rs ∧ ok (attempt w rs sk).1 = true.

Definition searching (rs0 : list R) (base : list string) (st : Search) : Prop :=
  let r := result st in
  delivered r ++ (prow <$> poisoned r) ++ concat (rows <$> queue st) ≡ₚ rs0 ∧
  Forall (λ s, 1 ≤ length (rows s) ∧ base ⊆ skip s) (queue st) ∧
  Forall failed_alone (poisoned r) ∧
  Forall (λ p, base ⊆ psucceeded p) (poisoned r) ∧
  Forall landed (delivered r) ∧
  length (poisoned r) ≤ maxPoisoned opts ∧
  attempts r ≤ maxAttempts opts ∧ systemic r = false.

Definition found (rs0 : list R) (base : list string) (r : IsolationResult) : Prop :=
  Forall landed (delivered r) ∧ attempts r ≤ maxAttempts opts ∧
  (systemic r = false →
     delivered r ++ (prow <$> poisoned r) ≡ₚ rs0 ∧
     Forall failed_alone (poisoned r) ∧
     Forall (λ p, base ⊆ psucceeded p) (poisoned r) ∧
     length (poisoned r) ≤ maxPoisoned opts).

Lemma concat_split q id rs sk :
  concat (rows <$> (q ++ split id rs sk)) = concat (rows <$> q) ++ rs.
Proof. by rewrite fmap_app, concat_app, split_rows. Qed.

Lemma split_segments base id rs sk :
  2 ≤ length rs → base ⊆ sk →
  Forall (λ s, 1 ≤ length (rows s) ∧ base ⊆ skip s) (split id rs sk).
Proof.
  intros Hn Hsk. pose proof (split_nonempty id rs sk Hn) as Hne.
  unfold split in *. rewrite !Forall_cons, Forall_nil in *. naive_solver.
Qed.

Lemma mark_bad_segments base sib q :
  Forall (λ s, 1 ≤ length (rows s) ∧ base ⊆ skip s) q →
  Forall (λ s, 1 ≤ length (rows s) ∧ base ⊆ skip s) (mark_bad sib q).
Proof.
  unfold mark_bad. rewrite Forall_fmap. intros Hq.
  apply (Forall_impl _ _ _ Hq). intros s Hs. simpl. by case_decide.
Qed.

Lemma subseteq_set_addl (base s xs : list string) :
  base ⊆ s → base ⊆ set_addl s xs.
Proof. intros Hb x Hx. apply elem_of_set_addl. left. by apply Hb. Qed.

Lemma searching_step rs0 base w st seg rest next w' :
  searching rs0 base st → queue st = seg :: rest →
  stepped w st seg rest next w' →
  match next with
  | inl st' => searching rs0 base st'
  | inr r => found rs0 base r
  end.
Proof.
  unfold searching, found.
  intros (Hperm & Hq & Hfa & Hps & Hld & Hmp & Hma & Hsys) Heq Hs.
  rewrite Heq in Hperm, Hq. apply Forall_cons in Hq as [[Hlen Hskip] Hrest].
  rewrite fmap_cons in Hperm. cbn [concat] in Hperm.
  destruct Hs as [Hkb Hn|why _ Hm|o w' _ Hm Ha Hok|o w' why _ Hm Ha Hok H0 Hf
                 |o w' row over why _ Hm Ha Hok Hnf Hrow Hover r|o w' _ Hm Ha Hok Hnf Hn];
    try destruct over; cbn -[split set_addl] in *;
    rewrite ?concat_split, ?mark_bad_rows; repeat split; auto; try lia.
  - rewrite (Permutation_app_comm (concat _)). done.
  - apply Forall_app. auto using split_segments.
  - rewrite <- app_assoc, <- Hperm. apply Permutation_app_head.
    rewrite !app_assoc. by rewrite (Permutation_app_comm (rows seg)).
  - by apply mark_bad_segments.
  - apply Forall_app. split; [done|]. apply Forall_forall. intros x Hx.
    exists w, (rows seg), (skip seg). by rewrite Ha.
  - rewrite fmap_app, <- Hperm, Hrow. cbn. by rewrite <- !app_assoc.
  - apply Forall_app. split; [done|]. apply Forall_singleton.
    exists w, (skip seg), o. cbn. by rewrite <- Hrow, Ha.
  - apply Forall_app. split; [done|]. apply Forall_singleton.
    by apply subseteq_set_addl.
  - rewrite length_app. cbn.
    destruct (decide (maxPoisoned opts < S (length (poisoned (result st)))))
      as [Hlt|]; [|lia]. by apply (proj2 Hover) in Hlt.
  - rewrite (Permutation_app_comm (concat _)). done.
  - apply Forall_app. split; [done|].
    apply split_segments; [lia|]. by apply subseteq_set_addl.
Qed.

Lemma searching_end rs0 base st :
  searching rs0 base st → queue st = [] → found rs0 base (result st).
Proof.
  unfold searching, found. intros (Hperm & ? & ? & ? & ? & ? & ? & ?) Hq.
  rewrite Hq in Hperm. cbn in Hperm. rewrite app_nil_r in Hperm. auto 6.
Qed.

Lemma searching_start rs0 base :
  2 ≤ length rs0 →
  searching rs0 base {| result := empty_result; successes := 0;
                        queue := split 0 rs0 base; nextId := 2 |}.
Proof.
  intros Hn. unfold searching. cbn -[split]. rewrite split_rows.
  repeat split; auto using split_segments; lia.
Qed.

(** with [2 n] passes allowed the search over [n] rows always ends *)
Lemma isolateFailures_total w rs :
  is_Some (isolateFailures (2 * length rs) w rs).
Proof.
  destruct rs as [|row [|row' rs]]; [by eexists..|].
  apply search_total.
  - apply split_nonempty. simpl. lia.
  - cbn [queue]. rewrite work_split by (simpl; lia). lia.
Qed.

Lemma isolateFailures_world (I : W → Prop) (L : W → R → Prop) fuel w rs r w' :
  (∀ w rs sk o w', I w → attempt w rs sk = (o, w') →
     I w' ∧ (∀ x, L w x → L w' x) ∧ (ok o = true → ∀ x, x ∈ rs → L w' x)) →
  I w → isolateFailures fuel w rs = Some (r, w') →
  I w' ∧ ∀ x, x ∈ delivered r → L w' x.
Proof.
  intros Hat HI Hr. destruct rs as [|row [|row' rs]]; cbn in Hr; simplify_eq; cbn.
  - split; [done|]. by intros x ?%elem_of_nil.
  - split; [done|]. by intros x ?%elem_of_nil.
  - eapply search_world in Hr; eauto. cbn. by intros x ?%elem_of_nil.
Qed.

(** unless the failure is systemic, no row is lost and none invented *)
Lemma isolateFailures_accounts fuel w rs r w' :
  isolateFailures fuel w rs = Some (r, w') → systemic r = false →
  delivered r ++ (prow <$> poisoned r) ≡ₚ rs.
Proof.
  intros Hr Hs. destruct rs as [|row [|row' rs]]; cbn in Hr; simplify_eq; [done..|].
  eapply (search_inv (searching (row :: row' :: rs) (set_of (alreadySucceeded opts)))
            (found (row :: row' :: rs) _)) in Hr as (_ & _ & Hf).
  - by apply Hf.
  - intros st ? ?. by apply searching_end.
  - intros. by eapply searching_step.
  - apply searching_start. simpl. lia.
Qed.
End isolate.

Section isolate_theorems.
Context {R W : Type} (attempt : W → list R → list string → IsolationAttempt * W)
        (opts : IsolationOptions).

(** C31. Whatever the destination answers, isolating a failed batch ends, within
    the attempt budget, and unless it reports a systemic failure every row of
    the batch is accounted for exactly once: it was part of a delivery that
    succeeded, or it was delivered on its own, failed with the error that is
    reported, and carries every target that had already committed. *)
Theorem isolateFailures_correct w rs :
  ∃ r w', isolateFailures attempt opts (2 * length rs) w rs = Some (r, w') ∧
    Forall (landed attempt) (delivered r) ∧
    attempts r ≤ maxAttempts opts ∧
    (systemic r = false →
       delivered r ++ (prow <$> poisoned r) ≡ₚ rs ∧
       Forall (λ p, alreadySucceeded opts ⊆ psucceeded p) (poisoned r) ∧
       (2 ≤ length rs →
          Forall (failed_alone attempt) (poisoned r) ∧
          length (poisoned r) ≤ maxPoisoned opts)).
Proof.
  destruct (isolateFailures_total attempt opts w rs) as [[r w'] Hr].
  exists r, w'. split; [done|].
  destruct rs as [|row [|row' rs]]; cbn -[Nat.mul] in Hr; simplify_eq; cbn.
  - repeat split; auto using Forall_nil_2; lia.
  - repeat split; auto using Forall_nil_2; try lia.
    apply Forall_singleton. cbn. intros x Hx. by apply elem_of_set_of.
  - eapply (search_inv _ _ (searching attempt opts (row :: row' :: rs) _)
              (found attempt opts _ _)) in Hr as (? & ? & Hf);
      [|by intros; apply searching_end|intros; by eapply searching_step
       |apply searching_start; simpl; lia].
    split; [done|]. split; [done|]. intros Hs.
    destruct (Hf Hs) as (? & ? & Hb & ?).
    split; [done|]. split; [|done]. apply (Forall_impl _ _ _ Hb).
    intros p Hp x Hx. apply Hp. by apply elem_of_set_of.
Qed.

(** the state while a destination that refuses everything is being probed *)
Definition all_refused (n : nat) (st : @Search R) : Prop :=
  delivered (result st) = [] ∧ successes st = 0 ∧
  Forall (λ s, 1 ≤ length (rows s) ∧ knownBad s = false) (queue st) ∧
  attempts (result st) + work (queue st) = 2 * n - 2 ∧
  attempts (result st) < failuresBeforeSystemic opts.

Lemma all_refused_split (id : nat) (rs : list R) sk :
  2 ≤ length rs →
  Forall (λ s, 1 ≤ length (rows s) ∧ knownBad s = false) (split id rs sk).
Proof.
  intros Hn. pose proof (split_nonempty id rs sk Hn) as Hne.
  unfold split in *. rewrite !Forall_cons, Forall_nil in *. naive_solver.
Qed.

Lemma all_refused_step n w st seg rest next w' :
  (∀ w rs sk, ok (attempt w rs sk).1 = false) →
  all_refused n st → queue st = seg :: rest →
  stepped attempt opts w st seg rest next w' →
  match next with
  | inl st' => all_refused n st'
  | inr r => delivered r = [] ∧ systemic r = true ∧
             attempts r ≤ failuresBeforeSystemic opts
  end.
Proof.
  unfold all_refused. intros Hdown (Hd & Hs & Hq & Hw & Hf) Heq Hstep.
  rewrite Heq, work_cons in *. apply Forall_cons in Hq as [[Hlen Hkb] Hrest].
  destruct Hstep as [Hkb' Hn|why _ Hm|o w' _ Hm Ha Hok|o w' why _ Hm Ha Hok H0 Hf'
                 |o w' row over why _ Hm Ha Hok Hnf Hrow Hover r|o w' _ Hm Ha Hok Hnf Hn];
    try (specialize (Hdown w (rows seg) (skip seg)); rewrite Ha in Hdown; cbn in Hdown);
    try destruct over; cbn -[split set_addl work] in *; try congruence.
  - auto with lia.
  - auto with lia.
  - auto with lia.
  - rewrite Hrow in Hw. cbn in Hw. repeat split; auto; lia.
  - rewrite work_app, work_split by lia. repeat split; auto; try lia.
    apply Forall_app. auto using all_refused_split with lia.
Qed.

(** A destination that refuses everything is recognised: after at most
    [failuresBeforeSystemic] attempts the search reports a systemic failure,
    and no row is claimed to be delivered. *)
Theorem isolateFailures_dead_destination w rs :
  (∀ w rs sk, ok (attempt w rs sk).1 = false) →
  2 ≤ length rs →
  1 ≤ failuresBeforeSystemic opts ≤ 2 * length rs - 2 →
  ∃ r w', isolateFailures attempt opts (2 * length rs) w rs = Some (r, w') ∧
    systemic r = true ∧ delivered r = [] ∧
    attempts r ≤ failuresBeforeSystemic opts.
Proof.
  intros Hdown Hlen Hfb.
  destruct (isolateFailures_total attempt opts w rs) as [[r w'] Hr].
  exists r, w'. split; [done|].
  destruct rs as [|row [|row' rs]]; cbn in Hlen; [lia..|].
  cbn -[Nat.mul] in Hr.
  eapply (search_inv _ _ (all_refused (length (row :: row' :: rs)))
            (λ r, delivered r = [] ∧ systemic r = true ∧
                  attempts r ≤ failuresBeforeSystemic opts)) in Hr
    as (? & ? & ?); [done| | |].
  - intros st (_ & _ & _ & Hw & Hlt) Hq. rewrite Hq in Hw.
    change (work []) with 0 in Hw. lia.
  - intros. by eapply all_refused_step.
  - unfold all_refused. cbn -[split work Nat.mul].
    rewrite work_split by (cbn; lia).
    repeat split; try (cbn; lia). apply all_refused_split. cbn. lia.
Qed.

(** ** One bad row *)

Lemma search_unfold fuel w st seg rest r w' :
  queue st = seg :: rest → search attempt opts fuel w st = Some (r, w') →
  ∃ next w1, stepped attempt opts w st seg rest next w1 ∧
    match next with
    | inl st' => ∃ fuel', search attempt opts fuel' w1 st' = Some (r, w')
    | inr r' => r = r'
    end.
Proof.
  intros Hq. destruct fuel as [|fuel]; simpl; rewrite Hq; [done|]. intros Hs.
  pose proof (search_stepped attempt opts w st seg rest) as Hss.
  destruct (search_step attempt opts w st seg rest) as [[st'|r'] w1];
    cbn in *; simplify_eq; do 2 eexists; (split; [exact Hss|]); cbn; eauto.
Qed.

Lemma log2_up_half n :
  2 ≤ n → S (Nat.log2_up ((n + 1) / 2)) ≤ Nat.log2_up n.
Proof.
  intros Hn. pose proof (Nat.log2_up_pos n ltac:(lia)).
  pose proof (half_bounds n Hn).
  enough (Nat.log2_up ((n + 1) / 2) ≤ Nat.pred (Nat.log2_up n)) by lia.
  apply Nat.log2_up_le_pow2; [lia|].
  assert (n ≤ 2 ^ Nat.log2_up n) by (apply Nat.log2_up_le_pow2; lia).
  destruct (Nat.log2_up n) as [|k]; [lia|]. cbn [Nat.pred].
  rewrite Nat.pow_succ_r' in *. apply Nat.lt_succ_r.
  apply Nat.Div0.div_lt_upper_bound. lia.
Qed.

Section one_bad.
Context (bad : R → bool) (x : R).
Hypothesis attempt_bad :
  ∀ w rs sk, ok (attempt w rs sk).1 = forallb (λ r, negb (bad r)) rs.
Hypothesis bad_x : bad x = true.
Hypothesis enough_failures : 2 ≤ failuresBeforeSystemic opts.
Hypothesis one_allowed : 1 ≤ maxPoisoned opts.

Definition clean (rs : list R) : Prop := forallb (λ r, negb (bad r)) rs = true.
Definition holds_x (rs : list R) : Prop :=
  ∃ l1 l2, rs = l1 ++ x :: l2 ∧ clean l1 ∧ clean l2.

Lemma clean_Forall rs : Forall (λ r, bad r = false) rs → clean rs.
Proof.
  unfold clean. induction 1 as [|r rs Hr _ IH]; [done|]. cbn. by rewrite Hr, IH.
Qed.

Lemma holds_x_not_clean rs : holds_x rs → forallb (λ r, negb (bad r)) rs = false.
Proof.
  intros (l1 & l2 & -> & _ & _). rewrite forallb_app. simpl.
  rewrite bad_x. by rewrite andb_false_r.
Qed.

Lemma clean_app l1 l2 : clean (l1 ++ l2) ↔ clean l1 ∧ clean l2.
Proof. unfold clean. by rewrite forallb_app, andb_true_iff. Qed.

Lemma holds_x_app l1 l2 :
  holds_x (l1 ++ l2) → (holds_x l1 ∧ clean l2) ∨ (clean l1 ∧ holds_x l2).
Proof.
  intros (a & b & Heq & Ha & Hb).
  apply app_eq_inv in Heq as [(k & -> & Hk)|(k & -> & Hk)].
  - destruct k as [|y k]; simplify_eq/=.
    + right. rewrite app_nil_r. split; [done|]. exists [], b. by rewrite app_nil_l.
    + left. apply clean_app in Hb as [? ?]. split; [by exists a, k|done].
  - right. apply clean_app in Ha as [? ?]. split; [done|]. by exists k, b.
Qed.

(** what the search still has to do: budget [2 k] attempts, no failure seen
    that is not excused, nothing set aside yet *)
Definition budget (k : nat) (st : @Search R) : Prop :=
  poisoned (result st) = [] ∧ systemic (result st) = false ∧
  (successes st = 0 → attempts (result st) = 0) ∧
  attempts (result st) + 2 * k ≤ maxAttempts opts.

Definition pinned (bound : nat) (r : IsolationResult) : Prop :=
  systemic r = false ∧ prow <$> poisoned r = [x] ∧ attempts r ≤ bound.

(** the three passes that can happen when exactly one row is at fault *)
Lemma clean_pass w st seg rest next w' :
  knownBad seg = false → clean (rows seg) →
  attempts (result st) < maxAttempts opts →
  stepped attempt opts w st seg rest next w' →
  ∃ st', next = inl st' ∧ queue st' = mark_bad (sibling seg) rest ∧
    nextId st' = nextId st ∧ poisoned (result st') = poisoned (result st) ∧
    systemic (result st') = systemic (result st) ∧ successes st' ≠ 0 ∧
    attempts (result st') = S (attempts (result st)).
Proof.
  intros Hkb Hcl Hm Hs.
  destruct Hs as [Hkb' Hn|why _ Hm'|o w' _ _ Ha Hok|o w' why _ _ Ha Hok H0 Hf'
               |o w' row over why _ _ Ha Hok Hnf Hrow Hover r|o w' _ _ Ha Hok Hnf Hn];
    try (specialize (attempt_bad w (rows seg) (skip seg));
         rewrite Ha in attempt_bad; cbn in attempt_bad);
    try lia; try congruence.
  eexists. split; [done|]. cbn. auto 6.
Qed.

Lemma bad_pass w st seg rest next w' :
  (knownBad seg = true → length (rows seg) = 1) → holds_x (rows seg) →
  (successes st = 0 → attempts (result st) = 0) → poisoned (result st) = [] →
  attempts (result st) < maxAttempts opts →
  stepped attempt opts w st seg rest next w' →
  ∃ st', next = inl st' ∧ nextId st ≤ nextId st' ≤ nextId st + 2 ∧
    systemic (result st') = systemic (result st) ∧
    successes st' = successes st ∧
    attempts (result st') = S (attempts (result st)) ∧
    if decide (length (rows seg) = 1)
    then prow <$> poisoned (result st') = [x] ∧ queue st' = rest
    else poisoned (result st') = [] ∧ nextId st' = nextId st + 2 ∧
         ∃ sk, queue st' = rest ++ split (nextId st) (rows seg) sk.
Proof.
  intros Hkb Hx Hfst Hp Hm Hs. pose proof (holds_x_not_clean _ Hx) as Hncl.
  destruct Hs as [Hkb' Hn|why _ Hm'|o w' _ _ Ha Hok|o w' why _ _ Ha Hok H0 Hf'
               |o w' row over why _ _ Ha Hok Hnf Hrow Hover r|o w' _ _ Ha Hok Hnf Hn];
    try (specialize (attempt_bad w (rows seg) (skip seg));
         rewrite Ha in attempt_bad; cbn in attempt_bad);
    try lia; try congruence.
  - by specialize (Hkb Hkb'); lia.
  - destruct over; [exfalso; rewrite Hp in Hover; cbn in Hover; lia|].
    eexists. split; [done|]. subst r. rewrite decide_True by (by rewrite Hrow).
    cbn. rewrite Hp. cbn.
    destruct Hx as (l1 & l2 & Heq & _). rewrite Hrow in Heq.
    destruct l1 as [|? [|]]; simplify_eq/=. repeat split; lia.
  - eexists. split; [done|]. rewrite decide_False by done. cbn -[split].
    repeat split; eauto; lia.
Qed.

Lemma log2_up_halves (rs l1 l2 : list R) :
  2 ≤ length rs → l1 = take ((length rs + 1) / 2) rs →
  l2 = drop ((length rs + 1) / 2) rs →
  rs = l1 ++ l2 ∧ 1 ≤ length l1 < length rs ∧ 1 ≤ length l2 < length rs ∧
  S (Nat.log2_up (length l1)) ≤ Nat.log2_up (length rs) ∧
  S (Nat.log2_up (length l2)) ≤ Nat.log2_up (length rs).
Proof.
  intros Hn -> ->. pose proof (half_bounds _ Hn). pose proof (log2_up_half _ Hn).
  rewrite take_drop, length_take, length_drop.
  assert (length rs - (length rs + 1) / 2 ≤ (length rs + 1) / 2) as Hle.
  { pose proof (Nat.div_mod_eq (length rs + 1) 2).
    pose proof (Nat.mod_upper_bound (length rs + 1) 2). lia. }
  apply Nat.log2_up_le_mono in Hle.
  rewrite Nat.min_l by lia. repeat split; lia.
Qed.

Lemma known_bad_pass w st seg rest next w' :
  knownBad seg = true → 2 ≤ length (rows seg) →
  stepped attempt opts w st seg rest next w' →
  next = inl {| result := result st; successes := successes st;
                queue := rest ++ split (nextId st) (rows seg) (skip seg);
                nextId := nextId st + 2 |}.
Proof. intros Hkb Hn []; tauto. Qed.

Lemma one_bad_search n rs :
  length rs = n → holds_x rs → 2 ≤ n →
  ∀ id sk st w fuel r w',
    queue st = split id rs sk → id + 1 < nextId st →
    budget (Nat.log2_up n) st →
    search attempt opts fuel w st = Some (r, w') →
    pinned (attempts (result st) + 2 * Nat.log2_up n) r.
Proof.
  revert rs. induction n as [n IH] using lt_wf_ind.
  intros rs Hn Hx Hn2 id sk st w fuel r w' Hq Hid (Hp & Hsys & Hfst & Hb) Hs.
  pose proof (Nat.log2_up_pos n ltac:(lia)).
  unfold split in Hq. set (l1 := take _ rs) in Hq. set (l2 := drop _ rs) in Hq.
  destruct (log2_up_halves rs l1 l2) as (Heq & Hl1 & Hl2 & Hg1 & Hg2);
    [lia|done|done|]. rewrite Hn in *.
  clearbody l1 l2. subst rs.
  eapply search_unfold in Hs as (next & w1 & Hst & Hs); [|exact Hq].
  apply holds_x_app in Hx as [[Hx Hcl]|[Hcl Hx]].
  - eapply bad_pass in Hst as (st1 & -> & Hid1 & Hsys1 & Hsu1 & Hat1 & Hcase); try done; [|lia].
    destruct Hs as [fuel1 Hs]. cbn [rows] in Hcase.
    case_decide as Hone.
    + destruct Hcase as [Hp1 Hq1].
      eapply search_unfold in Hs as (next & w2 & Hst & Hs); [|exact Hq1].
      eapply clean_pass in Hst as (st2 & -> & Hq2 & Hid2 & Hp2 & Hsys2 & _ & Hat2); try done; [|lia].
      destruct Hs as [fuel2 Hs]. cbn in Hq2.
      destruct fuel2; cbn in Hs; rewrite Hq2 in Hs; simplify_eq;
        repeat split; rewrite ?Hp2; try congruence; lia.
    + destruct Hcase as (Hp1 & Hnx1 & sk1 & Hq1).
      eapply search_unfold in Hs as (next & w2 & Hst & Hs); [|exact Hq1].
      eapply clean_pass in Hst as (st2 & -> & Hq2 & Hid2 & Hp2 & Hsys2 & Hsu2 & Hat2); try done; [|lia].
      destruct Hs as [fuel2 Hs].
      eapply (IH (length l1)) in Hs as (? & ? & ?); try done; try lia;
        [repeat split; [done|done|lia]| | |].
      * rewrite Hq2. cbn. unfold split. rewrite !decide_False by (intros [=]; lia). done.
      * lia.
      * repeat split; try congruence; lia.
  - eapply clean_pass in Hst as (st1 & -> & Hq1 & Hid1 & Hp1 & Hsys1 & Hsu1 & Hat1); try done; [|lia].
    destruct Hs as [fuel1 Hs]. cbn in Hq1. rewrite decide_True in Hq1 by done.
    eapply search_unfold in Hs as (next & w2 & Hst & Hs); [|exact Hq1].
    destruct (decide (length l2 = 1)) as [Hone|Hmany].
    + eapply bad_pass in Hst as (st2 & -> & Hid2 & Hsys2 & Hsu2 & Hat2 & Hcase);
        try done; try congruence; [|lia].
      destruct Hs as [fuel2 Hs]. cbn [rows] in Hcase.
      rewrite decide_True in Hcase by done. destruct Hcase as [Hp2 Hq2].
      destruct fuel2; cbn in Hs; rewrite Hq2 in Hs; simplify_eq;
        repeat split; try congruence; lia.
    + apply known_bad_pass in Hst as ->; [|cbn; done|cbn; lia].
      destruct Hs as [fuel2 Hs].
      eapply (IH (length l2)) in Hs as (? & ? & ?); try done; try lia.
      * cbn in *. repeat split; [done|done|lia].
      * cbn. lia.
      * unfold budget. cbn. repeat split; try congruence; lia.
Qed.
End one_bad.

(** One row at fault among [n] is pinned down exactly, and cheaply: the
    search sets aside that row and no other, delivers all the others, and
    makes at most [2 log2 n] attempts. *)
Theorem isolateFailures_pins_bad_row w (bad : R → bool) l1 x l2 :
  let n := length (l1 ++ x :: l2) in
  (∀ w rs sk, ok (attempt w rs sk).1 = forallb (λ r, negb (bad r)) rs) →
  bad x = true → Forall (λ r, bad r = false) (l1 ++ l2) → 2 ≤ n →
  2 ≤ failuresBeforeSystemic opts → 1 ≤ maxPoisoned opts →
  2 * Nat.log2_up n ≤ maxAttempts opts →
  ∃ r w', isolateFailures attempt opts (2 * n) w (l1 ++ x :: l2) = Some (r, w') ∧
    systemic r = false ∧ prow <$> poisoned r = [x] ∧
    delivered r ≡ₚ l1 ++ l2 ∧ attempts r ≤ 2 * Nat.log2_up n.
Proof.
  intros n Hatt Hx Hok Hn Hf Hmp Hma.
  destruct (isolateFailures_correct w (l1 ++ x :: l2)) as (r & w' & Hr & _ & _ & Hp).
  exists r, w'. split; [done|].
  assert (pinned x (2 * Nat.log2_up n) r) as (Hsys & Hpo & Hat).
  { unfold n in *. destruct (l1 ++ x :: l2) as [|y [|y' rs]] eqn:Heq;
      cbn in Hn; [lia..|]. cbn -[Nat.mul Nat.log2_up] in Hr.
    eapply one_bad_search in Hr; try done; cbn -[Nat.log2_up]; try lia.
    - exact Hr.
    - rewrite <- Heq. apply Forall_app in Hok as [Hl1 Hl2].
      exists l1, l2. split; [done|]. split; by apply clean_Forall.
  }
  destruct (Hp Hsys) as (Hperm & _). rewrite Hpo in Hperm.
  repeat split; try done.
  apply (Permutation_cons_inv (a := x)).
  rewrite Permutation_middle, <- Hperm. by rewrite (Permutation_app_comm (delivered r)).
Qed.
End isolate_theorems.

(** ** Concrete runs *)

(** a destination that refuses the batches holding a row listed in [bad] *)
Definition refusing (bad : list nat) (w : unit) (rs : list nat) (sk : list string)
  : IsolationAttempt * unit :=
  ({| ok := forallb (λ r, bool_decide (r ∉ bad)) rs; error := Some "constraint";
      succeededTargets := [] |}, w).

(** a destination that is down *)
Definition refusing_all (w : unit) (rs : list nat) (sk : list string)
  : IsolationAttempt * unit :=
  ({| ok := false; error := None; succeededTargets := [] |}, w).

Definition some_options : IsolationOptions :=
  {| batchError := None; alreadySucceeded := ["t1"]; maxAttempts := 128;
     maxPoisoned := 100; failuresBeforeSystemic := 14 |}.

Example isolate_two_of_eight :
  isolateFailures (refusing [3; 6]) some_options 16 tt (seq 0 8) =
  Some ({| delivered := [0; 1; 4; 5; 2; 7];
           poisoned := [ {| prow := 3; perror := "constraint"; psucceeded := ["t1"] |};
                         {| prow := 6; perror := "constraint"; psucceeded := ["t1"] |} ];
           systemic := false; reason := None; attempts := 8 |}, tt).
Proof. vm_compute. reflexivity. Qed.

Lemma isolateFailures_dead_destination_witness :
  ∃ r w', isolateFailures refusing_all some_options 20 tt (seq 0 10) = Some (r, w') ∧
    systemic r = true ∧ delivered r = [] ∧
    attempts r ≤ failuresBeforeSystemic some_options.
Proof.
  apply (isolateFailures_dead_destination refusing_all some_options tt (seq 0 10));
    [done|cbn; lia..].
Defined.

Lemma isolateFailures_pins_bad_row_witness :
  ∃ r w', isolateFailures (refusing [7]) some_options 20 tt ([1; 2; 3] ++ 7 :: [4; 5; 6; 8; 9; 0])
            = Some (r, w') ∧
    systemic r = false ∧ prow <$> poisoned r = [7] ∧
    delivered r ≡ₚ [1; 2; 3] ++ [4; 5; 6; 8; 9; 0] ∧ attempts r ≤ 2 * Nat.log2_up 10.
Proof.
  apply (isolateFailures_pins_bad_row (refusing [7]) some_options tt
           (λ r, negb (bool_decide (r ∉ [7]))) [1; 2; 3] 7 [4; 5; 6; 8; 9; 0]);
    try (cbn; lia); [|done|by repeat constructor].
  intros w rs sk. cbn. induction rs as [|r rs IH]; [done|].
  cbn [forallb]. by rewrite negb_involutive, IH.
Defined.
