(* ===== verification/Async.v ===== *)
(** Asynchronous code as resumable programs.

    An [async] function of the source runs without interruption from one
    [await] to the next; between two of them everything else in the process
    may run. A program is therefore a tree of atomic actions over a shared
    state [S]: [Act g f k] waits until [g] holds, changes the state with [f]
    and goes on with [k] on the result. [Throw] is an exception (a rejected
    promise), [catch] handles it.

    [exec] runs a program alone; [wp] is the weakest precondition of a program
    that runs among others: what the others may do is the relation [rely], what
    this one promises them is [guar], and [inv] is kept by everybody. [yields], at
    the end, is a total-correctness triple for programs that run alone. *)
From S2P Require Import Prelude.

Section async.
Context {S : Type}.

Inductive async (A : Type) : Type :=
| Ret (x : A)
| Throw (msg : string)
| Act (g : S → bool) {R : Type} (f : S → R * S) (k : R → async A).

#[global] Arguments Ret {A} x.
#[global] Arguments Throw {A} msg.
#[global] Arguments Act {A} g {R} f k.

Fixpoint bind {A B} (m : async A) (h : A → async B) : async B :=
  match m with
  | Ret x => h x
  | Throw e => Throw e
  | Act g f k => Act g f (λ r, bind (k r) h)
  end.

(** [try { m } catch (e) { h e }] *)
Fixpoint catch {A} (m : async A) (h : string → async A) : async A :=
  match m with
  | Ret x => Ret x
  | Throw e => h e
  | Act g f k => Act g f (λ r, catch (k r) h)
  end.

(** an uninterrupted stretch of code *)
Definition atomically {R} (f : S → R * S) : async R := Act (λ _, true) f Ret.
Definition read {R} (f : S → R) : async R := atomically (λ s, (f s, s)).
Definition modify (f : S → S) : async unit := atomically (λ s, (tt, f s)).
(** suspended until [g] holds *)
Definition wait_for (g : S → bool) : async unit := Act g (λ s, (tt, s)) Ret.

(** a call of something outside that answers or throws *)
Definition call {R} (f : S → (string + R) * S) : async R :=
  Act (λ _, true) f (λ r, match r with inl e => Throw e | inr x => Ret x end).

(** Running a program alone: [None] when it waits for something that only
    another program could bring about *)
Fixpoint exec {A} (m : async A) (s : S) : option ((string + A) * S) :=
  match m with
  | Ret x => Some (inr x, s)
  | Throw e => Some (inl e, s)
  | Act g f k => if g s then let (r, s') := f s in exec (k r) s' else None
  end.

Lemma exec_bind {A B} (m : async A) (h : A → async B) s :
  exec (bind m h) s =
  match exec m s with
  | Some (inr x, s') => exec (h x) s'
  | Some (inl e, s') => Some (inl e, s')
  | None => None
  end.
Proof.
  revert s. induction m as [x|e|g R f k IH]; intros s; cbn; [done|done|].
  destruct (g s); [|done]. destruct (f s) as [r s']. apply IH.
Qed.

(** ** Running its steps *)

Lemma exec_bind_read {A R} (f : S → R) (h : R → async A) s :
  exec (bind (read f) h) s = exec (h (f s)) s.
Proof. done. Qed.

Lemma exec_bind_modify {A} (f : S → S) (h : () → async A) s :
  exec (bind (modify f) h) s = exec (h tt) (f s).
Proof. done. Qed.

Lemma exec_bind_atomically {A R} (f : S → R * S) (h : R → async A) s :
  exec (bind (atomically f) h) s = exec (h (f s).1) (f s).2.
Proof. cbn. by destruct (f s). Qed.

Lemma exec_bind_ok {A B} (m : async A) (h : A → async B) s x s' :
  exec m s = Some (inr x, s') → exec (bind m h) s = exec (h x) s'.
Proof. intros Hm. by rewrite exec_bind, Hm. Qed.

Lemma exec_bind_throw {A B} (m : async A) (h : A → async B) s e s' :
  exec m s = Some (inl e, s') → exec (bind m h) s = Some (inl e, s').
Proof. intros Hm. by rewrite exec_bind, Hm. Qed.

Lemma exec_catch {A} (m : async A) h s :
  exec (catch m h) s =
  match exec m s with Some (inl e, s') => exec (h e) s' | r => r end.
Proof.
  revert s. induction m as [x|e|g R f k IH]; intros s; cbn; [done| |].
  - by destruct (exec (h e) s) as [[[?|?] ?]|].
  - destruct (g s); [|done]. destruct (f s) as [r s']. apply IH.
Qed.

(** ** What a program waits for

    whenever [g0] holds, the next action can run *)
Fixpoint waits_for {A} (g0 : S → bool) (m : async A) : Prop :=
  match m with
  | Ret _ | Throw _ => True
  | Act g f k => (∀ s, g0 s = true → g s = true) ∧ ∀ r, waits_for g0 (k r)
  end.

Lemma waits_bind {A B} g0 (m : async A) (h : A → async B) :
  waits_for g0 m → (∀ x, waits_for g0 (h x)) → waits_for g0 (bind m h).
Proof. induction m as [x|e|g R f k IH]; cbn; [auto|done|]. intros [? ?] ?. eauto. Qed.

Lemma waits_catch {A} g0 (m : async A) h :
  waits_for g0 m → (∀ e, waits_for g0 (h e)) → waits_for g0 (catch m h).
Proof. induction m as [x|e|g R f k IH]; cbn; [done|auto|]. intros [? ?] ?. eauto. Qed.

Lemma waits_atomically {R} g0 (f : S → R * S) : waits_for g0 (atomically f).
Proof. by split. Qed.

Lemma waits_call {R} g0 (f : S → (string + R) * S) : waits_for g0 (call f).
Proof. split; [done|]. by intros [?|?]. Qed.

Lemma waits_ret {A} g0 (x : A) : waits_for g0 (Ret x).
Proof. done. Qed.

Lemma waits_weaken {A} (g0 g1 : S → bool) (m : async A) :
  (∀ s, g1 s = true → g0 s = true) → waits_for g0 m → waits_for g1 m.
Proof. intros Hg. induction m as [x|e|g R f k IH]; cbn; [done..|]. intros [? ?]. eauto. Qed.

(** a program that waits for nothing ends *)
Lemma exec_total {A} (m : async A) s : waits_for (λ _, true) m → is_Some (exec m s).
Proof.
  revert s. induction m as [x|e|g R f k IH]; intros s; cbn; [by eexists..|].
  intros [Hg Hk]. rewrite Hg by done. destruct (f s) as [r s']. auto.
Qed.

(** ** Weakest preconditions among other programs *)

Section wp.
Context (inv : S → Prop) (rely guar : S → S → Prop) `{!PreOrder rely}.

Fixpoint wp {A} (m : async A) (Q : A → S → Prop) (E : string → S → Prop) (s : S) : Prop :=
  match m with
  | Ret x => ∀ s1, rely s s1 → inv s1 → Q x s1
  | Throw e => ∀ s1, rely s s1 → inv s1 → E e s1
  | Act g f k =>
      ∀ s1, rely s s1 → inv s1 → g s1 = true →
        inv (f s1).2 ∧ guar s1 (f s1).2 ∧ wp (k (f s1).1) Q E (f s1).2
  end.

Lemma wp_stable {A} (m : async A) Q E s s1 : rely s s1 → wp m Q E s → wp m Q E s1.
Proof. intros H. destruct m; cbn; intros Hm s2 H2; apply Hm; by etrans. Qed.

Lemma wp_mono {A} (m : async A) (Q Q' : A → S → Prop) (E E' : string → S → Prop) s :
  wp m Q E s → (∀ x s1, Q x s1 → Q' x s1) → (∀ e s1, E e s1 → E' e s1) → wp m Q' E' s.
Proof.
  intros Hm HQ HE. revert s Hm. induction m as [x|e|g R f k IH]; intros s Hm; cbn in *; eauto.
  intros s1 H1 Hi Hg. destruct (Hm s1 H1 Hi Hg) as (? & ? & ?). eauto.
Qed.

(** ** Triples

    [P] and [Q] describe the state as far as the others leave it alone. *)

Definition stable (P : S → Prop) : Prop := ∀ s s1, rely s s1 → inv s1 → P s → P s1.

Definition triple {A} (P : S → Prop) (m : async A) (Q : A → S → Prop)
    (E : string → S → Prop) : Prop :=
  ∀ s, inv s → P s → wp m Q E s.

Lemma triple_ret {A} P (x : A) Q E :
  stable P → (∀ s, inv s → P s → Q x s) → triple P (Ret x) Q E.
Proof. intros HP HQ s Hi Hs s1 Hr Hi1. apply HQ; [done|]. by eapply HP. Qed.

Lemma triple_throw {A} P e (Q : A → S → Prop) E :
  stable P → (∀ s, inv s → P s → E e s) → triple P (Throw e) Q E.
Proof. intros HP HQ s Hi Hs s1 Hr Hi1. apply HQ; [done|]. by eapply HP. Qed.

Lemma triple_bind {A B} P (m : async A) (h : A → async B) Q' Q E :
  triple P m Q' E → (∀ x, triple (Q' x) (h x) Q E) → triple P (bind m h) Q E.
Proof.
  intros Hm Hh s Hi HP. specialize (Hm s Hi HP). clear HP.
  revert s Hi Hm. induction m as [x|e|g R f k IH]; intros s Hi Hm; cbn in *.
  - apply Hh; [done|]. by apply Hm.
  - done.
  - intros s1 H1 Hi1 Hg. destruct (Hm s1 H1 Hi1 Hg) as (? & ? & ?). eauto.
Qed.

Lemma triple_catch {A} P (m : async A) h Q E E' :
  triple P m Q E' → (∀ e, triple (E' e) (h e) Q E) → triple P (catch m h) Q E.
Proof.
  intros Hm Hh s Hi HP. specialize (Hm s Hi HP). clear HP.
  revert s Hi Hm. induction m as [x|e|g R f k IH]; intros s Hi Hm; cbn in *.
  - done.
  - apply Hh; [done|]. by apply Hm.
  - intros s1 H1 Hi1 Hg. destruct (Hm s1 H1 Hi1 Hg) as (? & ? & ?). eauto.
Qed.

Lemma triple_act {A R} P g (f : S → R * S) (k : R → async A) Q' Q E :
  stable P →
  (∀ s, inv s → P s → g s = true →
     inv (f s).2 ∧ guar s (f s).2 ∧ Q' (f s).1 (f s).2) →
  (∀ r, triple (Q' r) (k r) Q E) → triple P (Act g f k) Q E.
Proof.
  intros HP Hf Hk s Hi Hs s1 Hr Hi1 Hg.
  destruct (Hf s1 Hi1 (HP _ _ Hr Hi1 Hs) Hg) as (? & ? & ?). split_and!; [done..|].
  by apply Hk.
Qed.

(** an action whose result and effect are all that is known of it *)
Lemma triple_atomically {R} P (f : S → R * S) Q E :
  stable P → (∀ r, stable (Q r)) →
  (∀ s, inv s → P s → inv (f s).2 ∧ guar s (f s).2 ∧ Q (f s).1 (f s).2) →
  triple P (atomically f) Q E.
Proof.
  intros HP HQ Hf. eapply triple_act; [done|intros s Hi Hs _; by apply Hf|].
  intros r. by apply triple_ret.
Qed.

Lemma triple_modify P (f : S → S) Q E :
  stable P → stable (Q tt) →
  (∀ s, inv s → P s → inv (f s) ∧ guar s (f s) ∧ Q tt (f s)) →
  triple P (modify f) Q E.
Proof. intros HP HQ Hf. apply triple_atomically; [done|by intros []|done]. Qed.

Lemma triple_read {R} P (f : S → R) Q E :
  stable P → (∀ r, stable (Q r)) → (∀ s, guar s s) →
  (∀ s, inv s → P s → Q (f s) s) → triple P (read f) Q E.
Proof.
  intros HP HQ Hg Hf. apply triple_atomically; [done..|].
  intros s Hi Hs. cbn. split_and!; auto.
Qed.

Lemma triple_call {R} P (f : S → (string + R) * S) Q E :
  stable P → (∀ r, stable (Q r)) → (∀ e, stable (E e)) →
  (∀ s, inv s → P s → inv (f s).2 ∧ guar s (f s).2 ∧
     match (f s).1 with inl e => E e (f s).2 | inr x => Q x (f s).2 end) →
  triple P (call f) Q E.
Proof.
  intros HP HQ HE Hf.
  eapply (triple_act _ _ _ _ (λ r s, match r with inl e => E e s | inr x => Q x s end));
    [done|intros s Hi Hs _; by apply Hf|].
  intros [e|x]; [by apply triple_throw|by apply triple_ret].
Qed.

Lemma triple_weaken {A} P P' (m : async A) (Q Q' : A → S → Prop) (E E' : string → S → Prop) :
  triple P' m Q' E' → (∀ s, inv s → P s → P' s) →
  (∀ x s, Q' x s → Q x s) → (∀ e s, E' e s → E e s) → triple P m Q E.
Proof. intros Hm HP HQ HE s Hi Hs. eapply wp_mono; eauto. Qed.

Lemma triple_pre {A} P P' (m : async A) Q E :
  triple P' m Q E → (∀ s, inv s → P s → P' s) → triple P m Q E.
Proof. intros Hm HP s Hi Hs. auto. Qed.

Lemma triple_pure {A} (φ : Prop) P (m : async A) Q E :
  (∀ s, P s → φ) → (φ → triple P m Q E) → triple P m Q E.
Proof. intros HP Hm s Hi Hs. by apply Hm; [eapply HP|..]. Qed.
End wp.

(** a fact that neither the others nor the steps of the program disturb *)
Lemma triple_frame (inv : S → Prop) (rely guar guar' : S → S → Prop) {A} F P (m : async A) Q E :
  (∀ s s1, guar' s s1 → guar s s1) → stable inv rely F → (∀ s s1, guar' s s1 → F s → F s1) →
  triple inv rely guar' P m Q E →
  triple inv rely guar (λ s, P s ∧ F s) m (λ x s, Q x s ∧ F s) (λ e s, E e s ∧ F s).
Proof.
  intros Hg HF HF' Hm s Hi [HP Hs]. specialize (Hm s Hi HP). clear Hi HP.
  revert s Hs Hm. induction m as [x|e|g R f k IH]; intros s Hs Hm; cbn in *.
  - intros s1 Hr Hi1. split; [auto|by eapply HF].
  - intros s1 Hr Hi1. split; [auto|by eapply HF].
  - intros s1 Hr Hi1 Hgd. destruct (Hm s1 Hr Hi1 Hgd) as (? & ? & ?). split_and!; [done|auto|].
    apply IH; [|done]. eapply HF'; [done|]. by eapply HF.
Qed.
End async.

(** ** A program over a part of the state *)

Section zoom.
Context {S T : Type} (get : T → S) (put : S → T → T).

Fixpoint zoom {A} (m : @async S A) : @async T A :=
  match m with
  | Ret x => Ret x
  | Throw e => Throw e
  | Act g f k => Act (λ t, g (get t)) (λ t, let (r, s) := f (get t) in (r, put s t)) (λ r, zoom (k r))
  end.

(** where the part is there, it is read back as it was put *)
Context (there : T → Prop) (there_put : ∀ s t, there t → there (put s t))
  (get_put : ∀ s t, there t → get (put s t) = s) (put_put : ∀ s s' t, put s' (put s t) = put s' t)
  (put_get : ∀ t, there t → put (get t) t = t).

Lemma exec_zoom {A} (m : @async S A) t :
  there t →
  exec (zoom m) t = match exec m (get t) with Some (r, s) => Some (r, put s t) | None => None end.
Proof.
  intros Ht. enough (Hgen : ∀ s, exec (zoom m) (put s t) =
    match exec m s with Some (r, s) => Some (r, put s t) | None => None end).
  { rewrite <- (put_get t Ht) at 1. apply Hgen. }
  induction m as [x|e|g R f k IH]; intros s; cbn; [done..|].
  rewrite get_put by done. destruct (g s); [|done]. destruct (f s) as [r s']. rewrite put_put. apply IH.
Qed.
End zoom.

Declare Scope async_scope.
Delimit Scope async_scope with async.
Notation "'let*' x := m 'in' k" := (bind m (λ x, k))
  (at level 10, x name, m at level 100, k at level 200) : async_scope.
Notation "m ;; k" := (bind m (λ _, k)) (at level 100, right associativity) : async_scope.

Create HintDb waits discriminated.
#[export] Hint Resolve waits_bind waits_catch waits_atomically waits_call waits_ret : waits.

(** ** Programs that return *)

Section yields.
Context {S : Type}.

Definition yields {A} (m : @async S A) (s : S) (Q : A → S → Prop) : Prop :=
  ∃ x s', exec m s = Some (inr x, s') ∧ Q x s'.

Lemma yields_ret {A} (x : A) s (Q : A → S → Prop) : Q x s → yields (Ret x) s Q.
Proof. intros HQ. by exists x, s. Qed.

Lemma yields_bind {A B} (m : @async S A) (h : A → @async S B) s (P : A → S → Prop) Q :
  yields m s P → (∀ x s', P x s' → yields (h x) s' Q) → yields (bind m h) s Q.
Proof.
  intros (x & s' & Hm & HP) Hh. destruct (Hh x s' HP) as (y & s2 & Hy & HQ).
  exists y, s2. split; [|done]. by rewrite exec_bind, Hm.
Qed.

Lemma yields_mono {A} (m : @async S A) s (P Q : A → S → Prop) :
  yields m s P → (∀ x s', P x s' → Q x s') → yields m s Q.
Proof. intros (x & s' & Hm & HP) HQ. exists x, s'. auto. Qed.

Lemma yields_read {A R} (f : S → R) (h : R → @async S A) s Q :
  yields (h (f s)) s Q → yields (bind (read f) h) s Q.
Proof. done. Qed.

Lemma yields_modify {A} (f : S → S) (h : unit → @async S A) s Q :
  yields (h tt) (f s) Q → yields (bind (modify f) h) s Q.
Proof. done. Qed.

(** an error that is caught *)
Lemma yields_caught {A} (m : @async S A) h s e s' Q :
  exec m s = Some (inl e, s') → yields (h e) s' Q → yields (catch m h) s Q.
Proof. intros Hm (x & s2 & Hx & HQ). exists x, s2. split; [|done]. by rewrite exec_catch, Hm. Qed.

Lemma yields_caught_later {A B} (m : @async S A) (h : A → @async S B) k s (P : A → S → Prop) Q :
  yields m s P → (∀ x s', P x s' → yields (catch (h x) k) s' Q) → yields (catch (bind m h) k) s Q.
Proof.
  intros (x & s' & Hm & HP) Hh. destruct (Hh x s' HP) as (y & s2 & Hy & HQ). exists y, s2.
  split; [|done]. rewrite exec_catch in *. by rewrite exec_bind, Hm.
Qed.

Lemma yields_not_caught {A} (m : @async S A) h s Q : yields m s Q → yields (catch m h) s Q.
Proof. intros (x & s' & Hm & HQ). exists x, s'. split; [|done]. by rewrite exec_catch, Hm. Qed.
End yields.

Lemma yields_zoom {S T A} (get : T → S) (put : S → T → T) (there : T → Prop) (m : @async S A) t Q :
  (∀ s t, there t → there (put s t)) → (∀ s t, there t → get (put s t) = s) →
  (∀ s s' t, put s' (put s t) = put s' t) → (∀ t, there t → put (get t) t = t) → there t →
  yields m (get t) (λ x s, Q x (put s t)) → yields (zoom get put m) t Q.
Proof.
  intros H0 H1 H2 H3 Ht (x & s & Hm & HQ). exists x, (put s t). split; [|done].
  by rewrite (exec_zoom get put there), Hm.
Qed.
