(* ===== verification/CdcState.v ===== *)
(** What a live bridge keeps: the saved position of its job, the stream's own
    state, and the stores around it
    ([apps/api/src/bridges/bridge-cdc.service.ts], with the rows of
    [dead-letter.service.ts], [bridge-job.service.ts] and
    [cdc/cdc-provider.ts] it reads and writes). *)
From coqutil Require Export Datatypes.RecordSetters.
From S2P Require Import Prelude JsText JsNumber JsDate JsValue JsJson.
From S2P Require Import BridgeConfig TypeMap Bridge.

Export DoubleBraceUpdate.

(** ** The saved position *)

(** a job's saved position, as [readCursorState] reports it *)
Record CursorState := {
  cursor : option string;
  lost : option string;
  noCopy : bool
}.

Definition no_position : CursorState := {| cursor := None; lost := None; noCopy := false |}.

(** [v.k], where [v] is neither [null] nor [undefined] *)
Definition property (v : jsval) (k : string) : jsval :=
  match v with VObj o => obj_get o k | _ => VUndef end.

Definition coalesce (a b : jsval) : jsval := if is_nil a then b else a.

(** a cursor that is not text was never written by the program *)
Definition text_of (v : jsval) : option string :=
  match v with VStr s => Some s | _ => None end.

Definition readCursorState (cursorJson : option string) : CursorState :=
  match cursorJson with
  | None => no_position
  | Some text =>
      if bool_decide (text = EmptyString) then no_position else
      match json_parse text with
      | None => no_position
      | Some o =>
          if is_nil o then no_position else
          {| cursor := text_of (coalesce (property o "cursor") (property o "lsn"));
             lost := match property o "lost" with
                     | VStr l => if bool_decide (l = EmptyString) then None else Some l
                     | _ => None
                     end;
             noCopy := strict_eq (property o "copy") (VStr "skip") |}
      end
  end.

Definition readCursor (cursorJson : option string) : option string :=
  cursor (readCursorState cursorJson).

(** does this start copy the table first? *)
Definition copiesFirst (bridge : BridgeInput) (cursorJson : option string) : bool :=
  match trigger bridge with
  | Cdc _ from_beginning _ =>
      let state := readCursorState cursorJson in
      bool_decide (cursor state = None) && negb (noCopy state)
  | _ => false
  end.

Definition json_text (v : jsval) : string :=
  match stringify v with JText s => s | _ => EmptyString end.

(** the two forms a position is saved in: [JSON.stringify({ cursor })] and
    [JSON.stringify({ cursor, lost })] *)
Definition saved_cursor (c : string) : string := json_text (VObj [("cursor", VStr c)]).
Definition saved_lost (c : option string) (l : string) : string :=
  json_text (VObj [("cursor", match c with Some c => VStr c | None => VNull end);
                   ("lost", VStr l)]).

(** ** Changes, as a provider hands them over *)

Record CdcChange := {
  op : CdcOperation;
  crow : Row;
  ccursor : string;
  keyChanged : bool
}.

(** one change held in the pending batch *)
Record Buffered := {
  change : CdcChange;
  brow : Row;
  keySig : option string
}.

(** the arguments of [deliverBatch], which [stream.inflight] stands for while it
    is being written *)
Record Batch := {
  items : list Buffered;
  batchOp : option CdcOperation;
  reach : string
}.

(** ** The stream *)

Inductive timer_for := for_rows | for_position.
#[export] Instance timer_for_eq_dec : EqDecision timer_for.
Proof. solve_decision. Defined.

Record Stream := {
  seq : nat;
  watermark : option string;
  primaryKey : option (list string);
  buffer : list Buffered;
  bufferOp : option CdcOperation;
  bufferKeys : list string;
  tailCursor : option string;
  timerFor : option timer_for;
  byteCappedBatch : option Z;
  inflight : option Batch;
  consumerStop : bool;
  halted : bool;
  consecutiveFailures : nat;
  wholeValueTarget : option bool;
  columnSignature : option string;
  (** [this.streams.get(bridgeId) === stream] *)
  registered : bool
}.

(** ** The stores around it *)

Inductive job_status := job_running | job_paused | job_failed.

(** the job's counters, in rows *)
Record Counters := {
  sentCount : Z;
  failedCount : Z;
  skippedCount : Z
}.

(** the job's row: its position is what a restart resumes from *)
Record JobRow := {
  cursorOffset : nat;
  cursorJson : option string;
  jstatus : job_status;
  jerror : option string;
  counters : Counters
}.

Inductive delivery_status := delivered_ok | delivered_failed | delivered_skipped.
#[export] Instance delivery_status_eq_dec : EqDecision delivery_status.
Proof. solve_decision. Defined.

(** what the sink answers, without its presentation (bodies, duration, HTTP status) *)
Record DeliveryOutcome := {
  success : bool;
  oattempts : nat;
  oerror : option string;
  osucceededTargets : option (list string)
}.

(** one cell of the timeline *)
Record DeliveryRow := {
  dstatus : delivery_status;
  drowCount : nat;
  drowKeys : option (list jsval);
  dattempts : nat;
  derror : option string
}.

Inductive dead_letter_status := pending | resolved | discarded.
#[export] Instance dead_letter_status_eq_dec : EqDecision dead_letter_status.
Proof. solve_decision. Defined.

Record DeadLetter := {
  dlSequence : nat;
  dlOp : option CdcOperation;
  dlRows : list Row;
  dlCursor : string;
  dlError : string;
  dlSucceeded : list string;
  dlStatus : dead_letter_status
}.

(** a call of the sink: what it was asked to write, and whether it did *)
Record SinkWrite := {
  wrows : list Row;
  wop : option CdcOperation;
  wstart : nat;
  wskip : list string;
  widem : option string;
  wdone : bool
}.

Inductive SpoolOp := spool_change (o : CdcOperation) | spool_notice.
#[export] Instance SpoolOp_eq_dec : EqDecision SpoolOp.
Proof. solve_decision. Defined.

Record SpoolEntry := { sop : SpoolOp; srow : Row; scursor : string }.
Record SpooledItem := { sid : nat; entry : SpoolEntry }.

(** the process and what is outside it. [tick] counts the calls that have been
    answered from outside *)
Record Sys := {
  stream : Stream;
  job : JobRow;
  deliveries : gmap nat DeliveryRow;
  deadLetters : list DeadLetter;
  spool : list SpooledItem;
  nextId : nat;  (* the stream ids Redis hands out, in order *)
  sinkLog : list SinkWrite;
  acked : list string;
  tick : nat
}.

(** ** What the pipeline relies on *)

(** the settings of the process *)
Record RuntimeConfig := {
  cdcBatchSize : Z;
  cdcBatchBytes : Z;
  cdcSpool : bool;
  cdcSpoolMax : nat;
  maxConsecutiveFailures : nat;
  deadLetterMaxRows : nat
}.

(** a provider, to the orchestrator *)
Record CdcProvider := {
  engine : DatabaseEngine;
  handlesSourceFilters : bool;
  cursorAfter : string → option string → bool
}.

Record EchoVerdict := { echo : bool; eorigins : list string }.

(** The answers of everything outside, by the number of the call: a store
    refuses a call or carries it out; the sink and the table reader answer or
    throw. *)
Class Outside := {
  store_refuses : nat → option string;
  spool_refuses : nat → option string;
  (* of the entries of an append that is refused, those that are taken all the same *)
  spool_takes : nat → nat → bool;
  (* the entries that cannot be read back, by stream id *)
  spool_malformed : nat → bool;
  ack_lost : nat → bool;
  sink_answer : nat → BridgeInput → SinkWrite → string + DeliveryOutcome;
  browse_answer : nat → list (string * jsval) → string + option obj;
  engine_answer : nat → string → string + DatabaseEngine;
  drift_answer : nat → string + option string;
  truncate_answer : nat → EchoVerdict;
  echo_answer : nat → CdcOperation → Row → EchoVerdict;
  echo_dropped : nat → EchoVerdict → bool
}.

(** ** What was saved is what is read *)

Lemma saved_cursor_chars c :
  chars (saved_cursor c) =
  "{"%char :: chars (json_quote "cursor") ++ ":"%char :: chars (json_quote c) ++ ["}"%char].
Proof.
  unfold saved_cursor, json_text. cbn [stringify foldr]. unfold json_field.
  cbn -[json_quote chars of_chars String.append].
  rewrite !chars_app, <- !app_assoc. reflexivity.
Qed.

Lemma json_value_object f q r :
  q = dquote → json_value (S f) ("{"%char :: q :: r) = json_members f [] (q :: r).
Proof. by intros ->. Qed.

Lemma json_quote_cons s : ∃ r, chars (json_quote s) = dquote :: r.
Proof. rewrite chars_json_quote. by eexists. Qed.

Lemma json_parse_members t ms :
  chars t = "{"%char :: ms → (∃ r, ms = dquote :: r) →
  json_parse t = match json_members (2 * List.length (chars t) + 1) [] ms with
                 | Some (v, rest) => match skip_space rest with [] => Some v | _ => None end
                 | None => None
                 end.
Proof.
  intros Ht [r ->]. unfold json_parse. rewrite Ht.
  replace (2 * List.length ("{"%char :: dquote :: r) + 2)
    with (S (2 * List.length ("{"%char :: dquote :: r) + 1)) by lia.
  by rewrite json_value_object.
Qed.

Lemma json_parse_saved_cursor c :
  json_parse (saved_cursor c) = Some (VObj [("cursor", VStr c)]).
Proof.
  rewrite (json_parse_members _ _ (saved_cursor_chars c))
    by (destruct (json_quote_cons "cursor") as [r ->]; by eexists).
  rewrite saved_cursor_chars. cbn [List.length]. rewrite Nat.add_1_r.
  rewrite (json_members_quote _ _ _ (VStr c) _ ["}"%char]); [done|].
  rewrite Nat.mul_succ_r, Nat.add_comm. apply json_value_quote.
Qed.

Lemma readCursor_saved c : readCursor (Some (saved_cursor c)) = Some c.
Proof.
  unfold readCursor, readCursorState. rewrite bool_decide_eq_false_2.
  - by rewrite json_parse_saved_cursor.
  - intros H. pose proof (saved_cursor_chars c) as Hc. by rewrite H in Hc.
Qed.

Definition cursor_value (o : option string) : jsval :=
  match o with Some c => VStr c | None => VNull end.

Lemma json_value_cursor f o rest :
  json_value (S f) (match o with Some c => chars (json_quote c) | None => chars "null" end ++ rest) =
  Some (cursor_value o, rest).
Proof. destruct o as [c|]; [apply json_value_quote|reflexivity]. Qed.

Lemma saved_lost_chars o l :
  chars (saved_lost o l) =
  "{"%char :: chars (json_quote "cursor") ++ ":"%char ::
    match o with Some c => chars (json_quote c) | None => chars "null" end ++ ","%char ::
    chars (json_quote "lost") ++ ":"%char :: chars (json_quote l) ++ ["}"%char].
Proof.
  unfold saved_lost, json_text. destruct o; cbn [stringify foldr]; unfold json_field;
    cbn -[json_quote chars of_chars String.append];
    rewrite !chars_app, <- !app_assoc; reflexivity.
Qed.

Lemma json_parse_saved_lost o l :
  json_parse (saved_lost o l) = Some (VObj [("cursor", cursor_value o); ("lost", VStr l)]).
Proof.
  rewrite (json_parse_members _ _ (saved_lost_chars o l))
    by (destruct (json_quote_cons "cursor") as [r ->]; by eexists).
  rewrite saved_lost_chars. cbn [List.length]. rewrite length_app. cbn [List.length].
  rewrite Nat.add_1_r, Nat.mul_succ_r, Nat.add_comm. cbn [Nat.add].
  erewrite json_members_quote by apply json_value_cursor. cbn [skip_space].
  change (skip_space (","%char :: ?r)) with (","%char :: r).
  rewrite Nat.add_succ_r, Nat.mul_succ_r, Nat.add_comm. cbn [Nat.add].
  cbn -[json_members json_quote chars obj_define].
  erewrite json_members_quote by apply json_value_quote. reflexivity.
Qed.

Lemma readCursor_saved_lost o l : readCursor (Some (saved_lost o l)) = o.
Proof.
  unfold readCursor, readCursorState. rewrite bool_decide_eq_false_2.
  - rewrite json_parse_saved_lost. by destruct o.
  - intros H. pose proof (saved_lost_chars o l) as Hc. by rewrite H in Hc.
Qed.

(** What is saved is what is read: a saved position reads back as itself and
    nothing else, and a position marked as lost keeps the position and says why *)
Theorem saved_position_reads_back c o l :
  readCursorState (Some (saved_cursor c)) = {| cursor := Some c; lost := None; noCopy := false |} ∧
  (l ≠ EmptyString →
   readCursorState (Some (saved_lost o l)) = {| cursor := o; lost := Some l; noCopy := false |}).
Proof.
  assert (Hne : ∀ t r, chars t = "{"%char :: r → t ≠ EmptyString) by by intros t r Ht ->.
  split; unfold readCursorState.
  - rewrite bool_decide_eq_false_2 by (eapply Hne, saved_cursor_chars).
    by rewrite json_parse_saved_cursor.
  - intros Hl. rewrite bool_decide_eq_false_2 by (eapply Hne, saved_lost_chars).
    rewrite json_parse_saved_lost.
    assert (Hlost : property (VObj [("cursor", cursor_value o); ("lost", VStr l)]) "lost" = VStr l) by done.
    cbn [is_nil]. rewrite Hlost, bool_decide_eq_false_2 by done. by destruct o.
Qed.

Lemma saved_position_reads_back_witness :
  readCursorState (Some (saved_lost (Some "0/16B3748") "the slot was dropped")) =
  {| cursor := Some "0/16B3748"; lost := Some "the slot was dropped"; noCopy := false |}.
Proof. by apply (saved_position_reads_back "0/16B3748" (Some "0/16B3748")). Defined.
