(* ===== verification/SpoolCodec.v ===== *)
(** Entries of the change spool as the stream holds them, and the ids the stream
    is trimmed by ([apps/api/src/bridges/cdc/cdc-spool.service.ts]).

    The Redis stream is outside: what the service relies on is that an [XTRIM]
    with [MINID] drops the entries whose id is below the one given. *)
From S2P Require Import Prelude JsText JsNumber JsInteger JsDate JsValue JsBytes JsJson JsonText JsIso.
From S2P Require Import BridgeConfig ColumnTransforms TypeMap Bridge RowCodec CdcState.

Definition op_text (o : SpoolOp) : string :=
  match o with
  | spool_change op_insert => "insert"
  | spool_change op_update => "update"
  | spool_change op_delete => "delete"
  | spool_change op_truncate => "truncate"
  | spool_notice => "notice"
  end.

(** an entry as [JSON.parse] gives it back: nothing checks the operation or the
    cursor *)
Record DecodedEntry := { dop : jsval; drow : Row; dcursor : jsval }.

Definition encodeEntry (e : SpoolEntry) : json_out :=
  match encodeRows [cols (srow e)] with
  | JText r =>
      stringify (VObj ([("op", VStr (op_text (sop e))); ("cursor", VStr (scursor e)); ("r", VStr r)] ++
                       match originsOf (srow e) with
                       | [] => []
                       | os => [("o", VArr (VStr <$> os))]
                       end))
  | o => o
  end.

Section decode.
Context `{JsHost}.

(** the origins are taken as they stand when they are a list *)
Definition origin_list (v : jsval) : list string :=
  match v with VArr l => omap text_of l | _ => [] end.

Definition decodeEntry (text : string) : option DecodedEntry :=
  raw ← json_parse text;
  if is_nil raw then None else
  match property raw "r" with
  | VStr r =>
      rows ← decodeRows r;
      row ← head rows;
      Some {| dop := property raw "op"; dcursor := property raw "cursor";
              drow := withOrigins {| cols := row; origins := [] |} (origin_list (property raw "o")) |}
  | _ =>
      match property raw "row" with
      | VObj row => Some {| dop := property raw "op"; dcursor := property raw "cursor";
                            drow := {| cols := row; origins := [] |} |}
      | _ => None
      end
  end.

Definition plain_entry (e : SpoolEntry) : DecodedEntry :=
  {| dop := VStr (op_text (sop e)); drow := srow e; dcursor := VStr (scursor e) |}.

(** the position after [name] in the flat list of a stream entry's fields *)
Definition field_of (name : string) (fields : list string) : option string :=
  '(i, _) ← list_find (λ f, f = name) fields; fields !! S i.

(** [read]: what cannot be read is dropped from the stream, so that it does not
    block the queue for ever *)
Fixpoint read_entries (raw : list (string * list string))
  : list (string * DecodedEntry) * list string :=
  match raw with
  | [] => ([], [])
  | (id, fields) :: raw =>
      let '(items, dropped) := read_entries raw in
      match field_of "e" fields with
      | None => (items, dropped)
      | Some text =>
          match decodeEntry text with
          | Some e => ((id, e) :: items, dropped)
          | None => (items, id :: dropped)
          end
      end
  end.
End decode.

(** [append]: the id of the last entry, an error of any entry, or nothing where
    there is nothing to say *)
Definition append_result (entries : nat) (results : list (option string * string))
  : string + option string :=
  if entries =? 0 then inr None else
  match results, omap fst results with
  | [], _ => inr None
  | _, e :: _ => inl e
  | _, [] => inr (snd <$> last results)
  end.

(** ** What is spooled is what is read *)

Section round_trip.
Context `{Hhost : JsHost} `{Hlaws : !JsHostLaws Hhost}.

Lemma origin_list_strings os : origin_list (VArr (VStr <$> os)) = os.
Proof. cbn. induction os as [|o os IH]; cbn; [done|]. by rewrite IH. Qed.

(** C23. A spooled entry is read back as it was appended: its operation, its
    cursor, its row with every value the codec keeps, and where the row has been *)
Theorem spooled_entry_reads_back e :
  storable (VObj (cols (srow e))) = true →
  ∃ text, encodeEntry e = JText text ∧ decodeEntry text = Some (plain_entry e).
Proof.
  intros Hr. destruct (stored_rows_read_back_all [cols (srow e)]) as (r & Henc & Hdec);
    [by constructor|].
  unfold encodeEntry. rewrite Henc. destruct e as [o [cs os] c]. cbn [srow cols sop scursor] in *.
  unfold originsOf. cbn [origins].
  set (v := VObj _). assert (Hv : json_plain v = true).
  { subst v. destruct os as [|o1 os]; [vm_compute; reflexivity|].
    cbn [app json_plain forallb snd]. rewrite andb_true_r. apply andb_true_iff.
    split; [vm_compute; reflexivity|]. apply forallb_forall.
    intros x (y & -> & _)%list_elem_of_In%list_elem_of_fmap. done. }
  destruct (json_round_trip v Hv) as (t & Ht & Hp). exists t. split; [done|].
  assert (Hfields : property v "r" = VStr r ∧ property v "op" = VStr (op_text o) ∧
                    property v "cursor" = VStr c ∧ origin_list (property v "o") = os).
  { subst v. destruct os as [|o1 os]; [done|]. split_and!; try done.
    exact (origin_list_strings (o1 :: os)). }
  destruct Hfields as (Hr' & Ho & Hc & Hos). assert (Hnil : is_nil v = false) by done.
  clearbody v. unfold decodeEntry. rewrite Hp. cbn [mbind option_bind].
  rewrite Hnil, Hr', Hdec. cbn [mbind option_bind head].
  rewrite Ho, Hc, Hos. by destruct os.
Qed.
End round_trip.

Definition sample_entry : SpoolEntry :=
  {| sop := spool_change op_update;
     srow := {| cols := [("id", VNum (num_of_Z 7)); ("photo", VBytes [255; 0]%Z)]; origins := ["pg-1"] |};
     scursor := "0/16B3748" |}.

Lemma spooled_entry_reads_back_witness :
  ∃ text, encodeEntry sample_entry = JText text ∧ decodeEntry text = Some (plain_entry sample_entry).
Proof. apply (spooled_entry_reads_back sample_entry). vm_compute. reflexivity. Defined.

(** an entry that cannot be read is dropped, the others stay in order *)
Example malformed_entry :
  let text := of_chars (flat_map (λ c, if (c =? "'")%char then [dquote] else [c])
                (chars "{'op':'notice','cursor':'1','row':{}}")) in
  read_entries [("1-0", ["e"; "{"]); ("2-0", ["x"; "e"]); ("3-0", ["e"; text])] =
  ([("3-0", {| dop := VStr "notice"; drow := {| cols := []; origins := [] |}; dcursor := VStr "1" |})],
   ["1-0"]).
Proof. vm_compute. reflexivity. Qed.

(** ** Ids *)

(** the id immediately after [id] *)
Definition nextStreamId (id : string) : string :=
  match lastIndexOf "-" id with
  | None => id
  | Some dash =>
      let n := string_to_num (slice_from (S dash) id) in
      if negb (is_finite n) then id
      else slice 0 dash id +:+ "-" +:+ num_to_string (num_add n (num_of_Z 1))
  end.

(** the ids Redis hands out: milliseconds and a sequence, in that order *)
Definition stream_id (ms seq : N) : string := pretty ms +:+ "-" +:+ pretty seq.

Definition id_lt (a b : N * N) : Prop := (a.1 < b.1 ∨ (a.1 = b.1 ∧ a.2 < b.2))%N.

Lemma pretty_no_dash (n : N) : "-"%char ∉ chars (pretty n).
Proof.
  destruct (pretty_spec n) as [(Hd & _ & _) _]. intros Hin.
  rewrite Forall_forall in Hd. by specialize (Hd _ Hin).
Qed.

Lemma nextStreamId_id ms seq :
  (Z.of_N seq < 2 ^ 53 - 1)%Z → nextStreamId (stream_id ms seq) = stream_id ms (seq + 1).
Proof.
  intros Hs. unfold nextStreamId, stream_id. rewrite lastIndexOf_char by apply pretty_no_dash.
  assert (Htail : slice_from (S (str_length (pretty ms))) (pretty ms +:+ "-" +:+ pretty seq) = pretty seq).
  { unfold slice_from. rewrite !chars_app, app_assoc, drop_app_length'; [apply of_chars_chars|].
    rewrite length_app, length_chars. cbn. lia. }
  assert (Hhead : slice 0 (str_length (pretty ms)) (pretty ms +:+ "-" +:+ pretty seq) = pretty ms).
  { unfold slice. rewrite Nat.sub_0_r, drop_0, chars_app, take_app_length'; [apply of_chars_chars|].
    symmetry. apply length_chars. }
  rewrite Htail, Hhead, string_to_num_pretty by lia.
  destruct (num_of_Z_integer (Z.of_N seq)) as (_ & _ & -> & _); [lia|]. cbn [negb].
  rewrite num_add_one, num_to_string_integer by lia.
  replace (Z.of_N seq + 1)%Z with (Z.of_N (seq + 1)) by lia. by rewrite Z_to_string_of_N.
Qed.

(** Trimming below the next id is trimming through the id: the next id is
    printed as the one after it, and exactly the ids up to [id] are below it *)
Theorem nextStreamId_trims_through ms seq a b :
  (Z.of_N seq < 2 ^ 53 - 1)%Z →
  nextStreamId (stream_id ms seq) = stream_id ms (seq + 1) ∧
  (id_lt (a, b) (ms, seq + 1)%N ↔ id_lt (a, b) (ms, seq) ∨ (a, b) = (ms, seq)).
Proof.
  intros Hs. split; [by apply nextStreamId_id|]. unfold id_lt. cbn [fst snd].
  split; [intros [?|[-> ?]]|intros [[?|[-> ?]]|[= -> ->]]]; [left; lia| |lia..].
  destruct (decide (b = seq)) as [->|]; [by right|left; lia].
Qed.

Lemma nextStreamId_trims_through_witness :
  nextStreamId (stream_id 1700000000000 41) = "1700000000000-42".
Proof. apply (nextStreamId_trims_through 1700000000000 41 0 0). lia. Defined.
