(* ===== verification/TableReader.v ===== *)
(** Reading a table from one end to the other, a page at a time
    ([apps/api/src/bridges/table-reader.service.ts]): the order a table is read
    in, and the four ways its pages are asked for.

    An adapter's [browse] is outside: it answers a page or throws, by the number
    of the call. What the reader relies on is stated as contracts below. *)
From Stdlib Require Import Sorted.
From stdpp Require Import sorting.
From coqutil Require Import Datatypes.RecordSetters.
From S2P Require Import Prelude JsText JsNumber JsDate JsValue JsJson.
From S2P Require Import BridgeConfig ColumnTransforms TypeMap Bridge CdcState.

(** ** What is asked, and what is answered *)

Record BrowseParams := {
  bfilters : list FilterSpec;
  bsort : list SortSpec;
  blimit : nat;
  boffset : nat;
  bcursor : option string;
  bafter : option (list string * list jsval)
}.

Record Page := {
  prows : list obj;
  phasMore : bool;
  pnextCursor : option string
}.

Record KeysetCheckpoint := { kcolumn : string; kvalue : jsval }.

Record TableRow := {
  trow : obj;
  tindex : nat;
  tkeyset : option KeysetCheckpoint
}.

Record TableOrder := {
  osort : list SortSpec;
  ototal : option nat;
  okeysetColumn : option string;
  okeysetColumns : list string;
  ocursorPaging : bool;
  owarning : option string
}.

(** ** The order of a table *)

Record ColumnFacts := {
  cname : string;
  cnullable : bool;
  cnativeType : option string;
  cdataType : string
}.
Record IndexFacts := { iunique : bool; icolumns : list string }.
Record TableSchema := { sname : string; scolumns : list ColumnFacts; sindexes : list IndexFacts }.
Record Namespace := { nname : string; ntables : list TableSchema }.

(** the answer to a first page of one row *)
Record Probe := {
  pprimaryKey : list string;
  ptotal : option nat;
  pcolumns : list (string * option string)
}.

Record TableFacts := {
  nullable : option (list string);
  uniqueKeys : list (list string);
  fcolumns : list string;
  unorderable : list string
}.

Definition UNORDERABLE : list string :=
  ["json"; "xml"; "point"; "line"; "lseg"; "box"; "path"; "polygon"; "circle"; "geometry"; "geography"].

(** [.replace(/\(.*$/, '')]: a dot is any character but a line terminator *)
Fixpoint cut_arguments (l : list ascii) : list ascii :=
  match l with
  | [] => []
  | c :: r => if (c =? "(")%char && forallb (λ d, negb (in_range 10 10 d || in_range 13 13 d)) r
              then [] else c :: cut_arguments r
  end.

(** [.replace(/\[\]$/, '')] *)
Definition cut_brackets (l : list ascii) : list ascii :=
  match reverse l with
  | b :: a :: r => if (b =? "]")%char && (a =? "[")%char then reverse r else l
  | _ => l
  end.

Definition baseType (type : string) : string :=
  trim (of_chars (cut_brackets (cut_arguments (chars (toLowerCase type))))).

Definition unorderable_type (type : string) : bool := bool_decide (baseType type ∈ UNORDERABLE).

(** the first namespace of the source's schema, or the first of any, that has the table *)
Definition in_schema (src : TableSource) (n : Namespace) : bool :=
  match schema src with
  | None => true
  | Some s => negb (nonempty s) || bool_decide (nname n = s)
  end.

Definition find_table (src : TableSource) (ns : list Namespace) : option TableSchema :=
  snd <$> list_find (λ t, sname t = table src) (filter (λ n, in_schema src n = true) ns ≫= ntables).

Definition add_index (keys : list (list string)) (i : IndexFacts) : list (list string) :=
  if iunique i && negb (bool_decide (icolumns i = [])) &&
     negb (existsb (λ k, bool_decide (join "," k = join "," (icolumns i))) keys)
  then keys ++ [icolumns i] else keys.

(** [schema]: what [getSchema] answered, or [None] where it threw *)
Definition facts (src : TableSource) (probe : Probe) (answer : option (list Namespace)) : TableFacts :=
  let keys := match pprimaryKey probe with [] => [] | k => [k] end in
  match answer ≫= find_table src with
  | None =>
      {| nullable := None; uniqueKeys := keys; fcolumns := (pcolumns probe).*1;
         unorderable := omap (λ c, match c.2 with
                                   | Some t => if nonempty t && unorderable_type t then Some c.1 else None
                                   | None => None
                                   end) (pcolumns probe) |}
  | Some t =>
      {| nullable := Some (cname <$> filter (λ c, cnullable c = true) (scolumns t));
         uniqueKeys := foldl add_index keys (sindexes t);
         fcolumns := cname <$> scolumns t;
         unorderable := cname <$>
           filter (λ c, unorderable_type (default (cdataType c) (cnativeType c)) = true) (scolumns t) |}
  end.

Definition ascending (column : string) : SortSpec := {| scolumn := column; sdirection := asc |}.

Definition is_asc (s : SortSpec) : bool := match sdirection s with asc => true | desc => false end.

(** the bridge sorts by the key itself, ascending *)
Definition sorts_by_key (s : list SortSpec) (singlePk : option string) : bool :=
  match s with
  | [x] => bool_decide (Some (scolumn x) = singlePk) && is_asc x
  | _ => false
  end.

Definition never_null (f : TableFacts) (column : string) : bool :=
  match nullable f with Some ns => negb (bool_decide (column ∈ ns)) | None => false end.

(** the first unique key none of whose columns can be [NULL] *)
Definition not_null_key (f : TableFacts) : list string :=
  match list_find (λ k, forallb (never_null f) k = true) (uniqueKeys f) with
  | Some (_, k) => k
  | None => []
  end.

Definition by_offset (s : list SortSpec) (probe : Probe) (warning : option string) : TableOrder :=
  {| osort := s; ototal := ptotal probe; okeysetColumn := None; okeysetColumns := [];
     ocursorPaging := false; owarning := warning |}.

Definition quoted (s : string) : string :=
  String dquote EmptyString +:+ s +:+ String dquote EmptyString.

Definition no_key_warning (src : TableSource) : string :=
  quoted (table src) +:+ " has no primary key and no unique index, so it is read by OFFSET in the order of all its columns. " +:+
  "Rows added, removed or changed while it is being read can be skipped or delivered twice; a key would make the read exact.".

Definition no_order_error (src : TableSource) : string :=
  "Table " +:+ quoted (table src) +:+
  " has no primary key, so rows cannot be paged in a stable order. Add a sort to the bridge to replay it safely.".

(** [resolveOrder] of a table: [inl] is what it throws. [answer] is looked at
    only where the schema is asked for *)
Definition resolveOrder (src : TableSource) (probe : Probe) (cursorPaging keysetPaging : bool)
    (answer : option (list Namespace)) : string + TableOrder :=
  let singlePk := match pprimaryKey probe with [k] => Some k | _ => None end in
  let s := default [] (sort src) in
  let ownOrder := negb (bool_decide (List.length s = 0)) && negb (sorts_by_key s singlePk) in
  if cursorPaging && negb ownOrder then
    inr {| osort := []; ototal := ptotal probe; okeysetColumn := singlePk; okeysetColumns := [];
           ocursorPaging := true; owarning := None |}
  else if cursorPaging then inr (by_offset s probe None)
  else
    let known := if keysetPaging || bool_decide (pprimaryKey probe = [])
                 then Some (facts src probe answer) else None in
    let key := match pprimaryKey probe with
               | [] => match known with Some f => not_null_key f | None => [] end
               | k => k
               end in
    match s with
    | _ :: _ =>
        if sorts_by_key s singlePk then
          inr {| osort := s; ototal := ptotal probe; okeysetColumn := singlePk; okeysetColumns := [];
                 ocursorPaging := false; owarning := None |}
        else
          let columns := scolumn <$> s in
          match keysetPaging, key, known with
          | true, _ :: _, Some f =>
              if forallb (never_null f) columns then
                let total := s ++ (ascending <$> filter (λ c, c ∉ columns) key) in
                inr {| osort := total; ototal := ptotal probe; okeysetColumn := None;
                       okeysetColumns := scolumn <$> total; ocursorPaging := false;
                       owarning := None |}
              else inr (by_offset s probe None)
          | _, _, _ => inr (by_offset s probe None)
          end
    | [] =>
        match key with
        | [k] => inr {| osort := [ascending k]; ototal := ptotal probe; okeysetColumn := Some k;
                        okeysetColumns := []; ocursorPaging := false; owarning := None |}
        | _ :: _ => inr {| osort := ascending <$> key; ototal := ptotal probe; okeysetColumn := None;
                           okeysetColumns := if keysetPaging then key else [];
                           ocursorPaging := false; owarning := None |}
        | [] =>
            let columns := match known with
                           | Some f => match fcolumns f with [] => (pcolumns probe).*1 | cs => cs end
                           | None => (pcolumns probe).*1
                           end in
            let columns := filter (λ c, c ∉ match known with Some f => unorderable f | None => [] end)
                             columns in
            match columns with
            | [] => inl (no_order_error src)
            | _ => inr (by_offset (ascending <$> columns) probe (Some (no_key_warning src)))
            end
        end
    end.

(** ** Reading *)

(** what a reading handed over, and the error that ended it, if one did *)
Definition reading : Type := list TableRow * option string.

Definition with_rows (items : list TableRow) (r : reading) : reading := (items ++ r.1, r.2).

Definition CURSOR_COLUMN : string := "$cursor".

(** Syncle's own keys in a Redis it shares ([isSyncleOwnKey]) *)
Definition OWN_KEY_PREFIXES : list string :=
  ["syncle:cdc:spool:"; "syncle:echo:"; "syncle:leader"; "syncle:instance:"; "syncle:lock:";
   "bull:bridge-jobs:"; "bull:bridge-watch:"; "bull:bridge-schedule:"; "bull:bridge-verify:"].

Definition isSyncleOwnKey (key : string) : bool :=
  existsb (λ p, startsWith p key) OWN_KEY_PREFIXES.

Definition own_row (row : obj) : bool :=
  match obj_get row "key" with VStr k => isSyncleOwnKey k | _ => false end.

(** the rows of a page under consecutive positions *)
Definition numbered (index : nat) (keyset : obj → option KeysetCheckpoint) (rows : list obj)
  : list TableRow :=
  imap (λ i row, {| trow := row; tindex := index + i; tkeyset := keyset row |}) rows.

(** there is no further page *)
Definition last_page (p : Page) : bool := negb (phasMore p) || bool_decide (List.length (prows p) = 0).

Section reading.
Context (browse : nat → BrowseParams → string + Page).

(** by the engine's own cursor. [None] here and below: out of fuel *)
Fixpoint cursor_pages (fuel t : nat) (ask : string → BrowseParams) (cursor : string) (index : nat)
  : option reading :=
  match fuel with
  | 0 => None
  | S fuel =>
      match browse t (ask cursor) with
      | inl e => Some ([], Some e)
      | inr page =>
          let rows := filter (λ r, own_row r = false) (prows page) in
          let items := numbered index
                         (λ _, Some {| kcolumn := CURSOR_COLUMN; kvalue := VStr cursor |}) rows in
          match pnextCursor page with
          | None => Some (items, None)
          | Some next =>
              if bool_decide (next = EmptyString) then Some (items, None)
              else with_rows items <$> cursor_pages fuel (S t) ask next (index + List.length rows)
          end
      end
  end.

(** after the last row's key: one column or several *)
Fixpoint keyset_pages (fuel t : nat) (ask : jsval → BrowseParams) (name : string) (key : obj → jsval)
    (lastKey : jsval) (index : nat) : option reading :=
  match fuel with
  | 0 => None
  | S fuel =>
      match browse t (ask lastKey) with
      | inl e => Some ([], Some e)
      | inr page =>
          let items := numbered index (λ row, Some {| kcolumn := name; kvalue := key row |})
                         (prows page) in
          if last_page page then Some (items, None)
          else
            let lastKey := match last (prows page) with Some r => key r | None => lastKey end in
            with_rows items
              <$> keyset_pages fuel (S t) ask name key lastKey (index + List.length (prows page))
      end
  end.

Fixpoint offset_pages (fuel t : nat) (ask : nat → BrowseParams) (offset : nat) : option reading :=
  match fuel with
  | 0 => None
  | S fuel =>
      match browse t (ask offset) with
      | inl e => Some ([], Some e)
      | inr page =>
          let items := numbered offset (λ _, None) (prows page) in
          if last_page page then Some (items, None)
          else with_rows items <$> offset_pages fuel (S t) ask (offset + List.length (prows page))
      end
  end.

Context (src : TableSource) (pageSize : nat).

Definition base_params : BrowseParams :=
  {| bfilters := default [] (filters src); bsort := []; blimit := pageSize; boffset := 0;
     bcursor := None; bafter := None |}.

Definition ask_cursor (cursor : string) : BrowseParams := base_params {{ bcursor := Some cursor }}.

Definition ask_offset (sort : list SortSpec) (offset : nat) : BrowseParams :=
  base_params {{ bsort := sort; boffset := offset }}.

(** [column > last], through a filter; a key that is [null] asks for the first page *)
Definition ask_key (sort : list SortSpec) (column : string) (lastKey : jsval) : BrowseParams :=
  base_params {{ bsort := sort;
                 bfilters := default [] (filters src) ++
                   if is_nil lastKey then []
                   else [{| fcolumn := column; foperator := op_gt; fvalue := lastKey |}] }}.

Definition ask_tuple (sort : list SortSpec) (columns : list string) (last : jsval) : BrowseParams :=
  base_params {{ bsort := sort;
                 bafter := match last with VArr vs => Some (columns, vs) | _ => None end }}.

Definition tuple_of (columns : list string) (row : obj) : jsval :=
  VArr ((λ c, obj_get row c) <$> columns).

(** the row before the first one wanted, by offset, once *)
Definition seek (sort : list SortSpec) (startOffset : nat) : string + option obj :=
  match browse 0 (base_params {{ bsort := sort; blimit := 1; boffset := startOffset - 1 }}) with
  | inl e => inl e
  | inr page => inr (head (prows page))
  end.

Definition resume_tuple (columns : list string) (resumeKey : option KeysetCheckpoint) : option jsval :=
  match resumeKey with
  | Some k =>
      match kvalue k with
      | VArr vs => if bool_decide (kcolumn k = join "," columns) &&
                      (List.length vs =? List.length columns) then Some (VArr vs) else None
      | _ => None
      end
  | None => None
  end.

(** [rows]: every row from [startOffset] on *)
Definition rows (order : TableOrder) (fuel startOffset : nat) (resumeKey : option KeysetCheckpoint)
  : option reading :=
  if ocursorPaging order then
    let cursor := match resumeKey with
                  | Some k => match kvalue k with
                              | VStr c => if bool_decide (kcolumn k = CURSOR_COLUMN) then c else "0"
                              | _ => "0"
                              end
                  | None => "0"
                  end in
    cursor_pages fuel 0 ask_cursor cursor startOffset
  else match okeysetColumns order, okeysetColumn order with
  | (_ :: _) as columns, _ =>
      let go t last := keyset_pages fuel t (ask_tuple (osort order) columns) (join "," columns)
                         (tuple_of columns) last startOffset in
      if startOffset =? 0 then go 0 VNull else
      match resume_tuple columns resumeKey with
      | Some last => go 0 last
      | None =>
          match seek (osort order) startOffset with
          | inl e => Some ([], Some e)
          | inr row => go 1 (match row with Some r => tuple_of columns r | None => VNull end)
          end
      end
  | [], Some column =>
      let go t last := keyset_pages fuel t (ask_key (osort order) column) column
                         (λ row, obj_get row column) last startOffset in
      if startOffset =? 0 then go 0 VNull else
      match resumeKey with
      | Some k =>
          if bool_decide (kcolumn k = column) then go 0 (kvalue k) else
          match seek (osort order) startOffset with
          | inl e => Some ([], Some e)
          | inr row => go 1 (match row with Some r => obj_get r column | None => VNull end)
          end
      | None =>
          match seek (osort order) startOffset with
          | inl e => Some ([], Some e)
          | inr row => go 1 (match row with Some r => obj_get r column | None => VNull end)
          end
      end
  | [], None => offset_pages fuel 0 (ask_offset (osort order)) startOffset
  end.
End reading.

(** ** The order identifies every row *)

Lemma filter_not_in_nil (l : list string) : filter (λ c, c ∉ []) l = l.
Proof.
  induction l as [|c l IH]; [done|]. by rewrite filter_cons_True, IH by apply not_elem_of_nil.
Qed.

Section order.
Context (src : TableSource) (probe : Probe) (answer : option (list Namespace)).

Definition identifies (key : list string) : Prop :=
  key ≠ [] ∧
  (key = pprimaryKey probe ∨
   (key ∈ uniqueKeys (facts src probe answer) ∧
    Forall (λ c, never_null (facts src probe answer) c = true) key)).

Lemma not_null_key_identifies :
  not_null_key (facts src probe answer) ≠ [] → identifies (not_null_key (facts src probe answer)).
Proof.
  unfold not_null_key. destruct (list_find _ _) as [[i k]|] eqn:Hf; [|done]. intros Hk.
  split; [done|]. right. apply list_find_Some in Hf as (Hi & Hall & _).
  split; [by eapply list_elem_of_lookup_2|].
  apply Forall_forall. intros c Hc. rewrite forallb_forall in Hall. by apply Hall, list_elem_of_In.
Qed.

Lemma sorts_by_key_ascending s pk :
  sorts_by_key s pk = true → ∃ c, pk = Some c ∧ s = [ascending c].
Proof.
  destruct s as [|[c d] [|]]; try done. unfold sorts_by_key, is_asc. cbn. intros H.
  apply andb_true_iff in H as [H Hd]. apply bool_decide_eq_true in H. exists c.
  split; [done|]. by destruct d.
Qed.

Abbreviation single_key := (match pprimaryKey probe with [k] => Some k | _ => None end).

Lemma single_key_identifies c : single_key = Some c → identifies [c].
Proof.
  intros H. destruct (pprimaryKey probe) as [|k [|]] eqn:Hp; try done. injection H as ->.
  split; [done|]. by left.
Qed.

(** the key the order is built on, where there is one *)
Lemma chosen_key_identifies (keysetPaging : bool) :
  let known := if keysetPaging || bool_decide (pprimaryKey probe = [])
               then Some (facts src probe answer) else None in
  let key := match pprimaryKey probe with
             | [] => match known with Some f => not_null_key f | None => [] end
             | k => k
             end in
  key ≠ [] → identifies key.
Proof.
  cbv zeta. destruct (pprimaryKey probe) as [|k ks] eqn:Hp.
  - rewrite orb_true_r. apply not_null_key_identifies.
  - intros _. split; [done|]. by left.
Qed.

Lemma own_sort_columns s key :
  scolumn <$> (s ++ (ascending <$> filter (λ c, c ∉ scolumn <$> s) key)) =
  (scolumn <$> s) ++ filter (λ c, c ∉ scolumn <$> s) key.
Proof. rewrite fmap_app, <- list_fmap_compose. f_equal. apply list_fmap_id. Qed.

(** C21. A read that goes on after the last row's key has its order from a key of the
    table: the primary key the table declares, which is believed whatever it holds
    ([null_keys_are_read_for_ever] is a table it is wrong about), or a unique key all
    of whose columns the catalog says are never [NULL]. A read by one column is in
    that column's order alone, ascending, and the column is such a key. A read by a
    tuple is in the order the bridge asks for and then, ascending, by the columns of
    such a key that are missing from it; all of them are, in this order, the tuple the
    engine is asked to go on after, which therefore contains the whole key *)
Theorem order_is_total cursorPaging keysetPaging o :
  resolveOrder src probe cursorPaging keysetPaging answer = inr o → ocursorPaging o = false →
  (∀ c, okeysetColumn o = Some c → osort o = [ascending c] ∧ identifies [c]) ∧
  (okeysetColumns o ≠ [] → scolumn <$> osort o = okeysetColumns o ∧
     ∃ key, identifies key ∧ key ⊆ okeysetColumns o ∧
       osort o = default [] (sort src) ++
         (ascending <$> filter (λ c, c ∉ scolumn <$> default [] (sort src)) key)).
Proof.
  unfold resolveOrder. pose proof (chosen_key_identifies keysetPaging) as Hkey. cbv zeta in *.
  set (known := if keysetPaging || _ then _ else _) in *.
  set (key := match pprimaryKey probe with [] => _ | _ => _ end) in *. clearbody known key.
  destruct (cursorPaging && _); [by intros [= <-]|]. destruct cursorPaging; [by intros [= <-]|].
  destruct (default [] (sort src)) as [|x s] eqn:Hs.
  - destruct key as [|k [|k2 ks]].
    + repeat case_match; try done; by intros [= <-].
    + intros [= <-] _. split; [|done]. cbn. intros c [= <-]. split; [done|]. by apply Hkey.
    + intros [= <-] _. split; [done|]. cbn. destruct keysetPaging; [|done]. intros _.
      rewrite <- list_fmap_compose. change (scolumn ∘ ascending) with (@id string).
      rewrite list_fmap_id. split; [done|]. exists (k :: k2 :: ks). split_and!; [by apply Hkey|done|].
      by rewrite filter_not_in_nil.
  - destruct (sorts_by_key (x :: s) single_key) eqn:Hsk.
    + intros [= <-] _. split; [|done]. cbn. intros c Hc.
      destruct (sorts_by_key_ascending _ _ Hsk) as (c' & Hc' & ->).
      assert (c' = c) as -> by congruence. split; [done|]. by apply single_key_identifies.
    + destruct keysetPaging, key as [|k ks], known as [f|]; try by intros [= <-].
      destruct (forallb _ _); [|by intros [= <-]]. intros [= <-] _. split; [done|]. intros _.
      cbn [osort okeysetColumns]. split; [done|]. exists (k :: ks). split_and!; [by apply Hkey| |done].
      intros c Hc. change (c ∈ scolumn <$>
        ((x :: s) ++ (ascending <$> filter (λ c, c ∉ scolumn <$> x :: s) (k :: ks)))).
      rewrite own_sort_columns. apply elem_of_app.
      destruct (decide (c ∈ scolumn <$> x :: s)); [by left|]. right.
      by apply list_elem_of_filter.
Qed.
End order.

Lemma filter_shorter {A} (P Q : A → bool) (l : list A) x :
  (∀ y, P y = true → Q y = true) → x ∈ l → Q x = true → P x = false →
  List.length (filter (λ y, P y = true) l) < List.length (filter (λ y, Q y = true) l).
Proof.
  intros HPQ Hx HQ HP. induction l as [|y l IH]; [by apply elem_of_nil in Hx|].
  assert (Hle : List.length (filter (λ y, P y = true) l) ≤ List.length (filter (λ y, Q y = true) l)).
  { clear -HPQ. induction l as [|z l IH]; [done|]. rewrite !filter_cons.
    repeat case_decide; cbn; naive_solver lia. }
  rewrite !filter_cons. apply elem_of_cons in Hx as [->|Hx].
  - rewrite decide_False by (by rewrite HP). rewrite decide_True by done. cbn. lia.
  - specialize (IH Hx). repeat case_decide; cbn; try lia. naive_solver.
Qed.

(** ** A keyset reading is exact, whatever happens to the table meanwhile *)

Lemma numbered_rows index ks rows : trow <$> numbered index ks rows = rows.
Proof.
  unfold numbered. revert index. induction rows as [|r rows IH]; intros index; [done|].
  cbn. f_equal. rewrite <- (IH (S index)) at 2. f_equal. apply imap_ext. intros i x _. cbn.
  f_equal. lia.
Qed.

Lemma numbered_lookup index ks rows i it :
  numbered index ks rows !! i = Some it → tindex it = index + i ∧ tkeyset it = ks (trow it).
Proof.
  unfold numbered. rewrite list_lookup_imap. destruct (rows !! i); cbn; [|done]. by intros [= <-].
Qed.

Lemma numbered_index index ks (l : list obj) :
  tindex <$> numbered index ks l = List.seq index (List.length (numbered index ks l)).
Proof.
  unfold numbered. rewrite length_imap. revert index. induction l as [|r l IH]; intros index; [done|].
  cbn. f_equal; [lia|]. rewrite <- IH. f_equal. apply imap_ext. intros i x _. cbn. f_equal. lia.
Qed.

Section keyset.
(** the engine's order on the keys, and what identifies a row *)
Context (lt : jsval → jsval → bool) (key : obj → jsval).
Hypothesis lt_trans : ∀ a b c, lt a b = true → lt b c = true → lt a c = true.
Hypothesis lt_irrefl : ∀ a, lt a a = false.

Definition key_lt (a b : obj) : Prop := lt (key a) (key b) = true.

(** [k] comes after the key a reading starts from; a missing one is before all *)
Definition above (last k : jsval) : bool := is_nil last || lt last k.

(** the table as it is at each call: in the order of the key, no key twice, none
    of them missing *)
Context (tables : nat → list obj).
Hypothesis tables_sorted : ∀ t, StronglySorted key_lt (tables t).
Hypothesis keys_present : ∀ t r, r ∈ tables t → is_nil (key r) = false.

Context (browse : nat → BrowseParams → string + Page) (ask : jsval → BrowseParams) (n : nat).
Hypothesis page_size : 0 < n.

(** the contract of [browse]: the first rows after the key, and whether there are
    more; or it throws *)
Definition after (t : nat) (last : jsval) : list obj :=
  filter (λ r, above last (key r) = true) (tables t).

Hypothesis answers : ∀ t last page, browse t (ask last) = inr page →
  prows page = take n (after t last) ∧
  phasMore page = (n <? List.length (after t last)).

(** [k] is in the table at every call from [t] on *)
Definition stays (t : nat) (k : jsval) : Prop := ∀ t', t ≤ t' → ∃ r, r ∈ tables t' ∧ key r = k.

Definition keys_of (items : list TableRow) : list jsval := (λ it, key (trow it)) <$> items.

Definition up_to (k' k : jsval) : Prop := k = k' ∨ lt k k' = true.

(** what a reading from [last] on, from call [t] on, under positions from [index]
    on, hands over *)
Record exact_reading (t : nat) (name : string) (last : jsval) (index : nat) (r : reading) : Prop := {
  reads_in_order : StronglySorted (λ a b, lt a b = true) (keys_of r.1);
  reads_after : Forall (λ k, above last k = true) (keys_of r.1);
  reads_rows : ∀ it, it ∈ r.1 → ∃ t', t ≤ t' ∧ trow it ∈ tables t';
  reads_all k : stays t k → above last k = true →
    (r.2 = None ∨ ∃ k', k' ∈ keys_of r.1 ∧ up_to k' k) → k ∈ keys_of r.1;
  reads_numbered i it : r.1 !! i = Some it →
    tindex it = index + i ∧ tkeyset it = Some {| kcolumn := name; kvalue := key (trow it) |}
}.

Lemma after_sorted t last : StronglySorted key_lt (after t last).
Proof.
  unfold after. induction (tables_sorted t) as [|r T HT IH Hr]; [constructor|].
  rewrite filter_cons. case_decide; [|done]. constructor; [done|].
  rewrite Forall_forall in *. intros x [_ Hx]%list_elem_of_filter. auto.
Qed.

Lemma keys_numbered index ks rows : keys_of (numbered index ks rows) = key <$> rows.
Proof. unfold keys_of. by rewrite (list_fmap_compose trow key), numbered_rows. Qed.

Lemma keys_sorted (l : list obj) :
  StronglySorted key_lt l → StronglySorted (λ a b, lt a b = true) (key <$> l).
Proof.
  induction 1 as [|r l _ IH Hr]; cbn; [constructor|]. constructor; [done|].
  apply Forall_fmap. exact Hr.
Qed.

Lemma failed_reading t name last index e : exact_reading t name last index ([], Some e).
Proof.
  split; cbn; try constructor.
  - intros it H. by apply elem_of_nil in H.
  - intros k _ _ [H|(k' & H & _)]; [done|by apply elem_of_nil in H].
  - done.
  - done.
Qed.

Abbreviation page_of t name last index :=
  (numbered index (λ row, Some {| kcolumn := name; kvalue := key row |}) (take n (after t last))).

Lemma page_rows t name last index it :
  it ∈ page_of t name last index → ∃ t', t ≤ t' ∧ trow it ∈ tables t'.
Proof.
  intros Hit. exists t. split; [done|].
  assert (Hr : trow it ∈ trow <$> page_of t name last index) by (by apply list_elem_of_fmap_2).
  rewrite numbered_rows in Hr. apply elem_of_take in Hr as (i & Hi & _).
  apply list_elem_of_lookup_2 in Hi. by apply list_elem_of_filter in Hi as [_ Hi].
Qed.

Lemma after_above t last : Forall (λ k, above last k = true) (key <$> after t last).
Proof.
  apply Forall_fmap, Forall_forall. by intros r [H _]%list_elem_of_filter.
Qed.

Lemma stays_after t last k :
  stays t k → above last k = true → ∃ r, r ∈ after t last ∧ key r = k.
Proof.
  intros Hs Ha. destruct (Hs t) as (r & Hr & <-); [done|]. exists r. split; [|done].
  by apply list_elem_of_filter.
Qed.

Lemma last_reading t name last index :
  List.length (after t last) ≤ n → exact_reading t name last index (page_of t name last index, None).
Proof.
  intros Hn. split; cbn [fst snd].
  - rewrite keys_numbered, take_ge by done. apply keys_sorted, after_sorted.
  - rewrite keys_numbered, take_ge by done. apply after_above.
  - apply page_rows.
  - intros k Hs Ha _. rewrite keys_numbered, take_ge by done.
    destruct (stays_after t last k Hs Ha) as (r & Hr & <-). by apply list_elem_of_fmap_2.
  - apply numbered_lookup.
Qed.

Lemma above_trans a b c : above a b = true → lt b c = true → above a c = true.
Proof.
  unfold above. destruct (is_nil a); [done|]. cbn. apply lt_trans.
Qed.

(** the last row of a full page bounds what is on it and what comes behind it *)
Lemma page_bound t last r :
  list.last (take n (after t last)) = Some r →
  above last (key r) = true ∧ is_nil (key r) = false ∧ r ∈ take n (after t last) ∧
  (∀ x, x ∈ take n (after t last) → up_to (key r) (key x)) ∧
  (∀ x, x ∈ drop n (after t last) → key_lt r x).
Proof.
  intros Hl. apply last_Some in Hl as [l Hl].
  assert (Hr : r ∈ take n (after t last)) by (rewrite Hl; apply elem_of_app; right; by left).
  pose proof (after_sorted t last) as Hs. rewrite <- (take_drop n (after t last)) in Hs.
  assert (Hin : r ∈ after t last) by (rewrite <- (take_drop n (after t last)); apply elem_of_app; by left).
  apply list_elem_of_filter in Hin as [Ha Hin]. split_and!; [done|by eapply keys_present|done| |].
  - intros x Hx. rewrite Hl in Hx. apply elem_of_app in Hx as [Hx|Hx].
    + right. pose proof (StronglySorted_app_1_l _ _ _ Hs) as Hp. rewrite Hl in Hp.
      exact (StronglySorted_app_1_elem_of key_lt l [r] x r Hp Hx ltac:(by left)).
    + apply list_elem_of_singleton in Hx as ->. by left.
  - intros x Hx. exact (StronglySorted_app_1_elem_of key_lt _ _ r x Hs Hr Hx).
Qed.

Lemma further_reading t name last index r rest :
  list.last (take n (after t last)) = Some r →
  exact_reading (S t) name (key r) (index + List.length (take n (after t last))) rest →
  exact_reading t name last index (with_rows (page_of t name last index) rest).
Proof.
  intros Hl Hrest. destruct (page_bound t last r Hl) as (Ha & Hnil & Hr & Hup & Hdown).
  destruct Hrest as [Ho Haf Hro Hall Hnum]. destruct rest as [items err].
  unfold with_rows. cbn [fst snd] in *.
  assert (Hkeys : keys_of (page_of t name last index ++ items) =
                  (key <$> take n (after t last)) ++ keys_of items).
  { unfold keys_of. rewrite fmap_app. f_equal. apply keys_numbered. }
  assert (Habove : ∀ k, k ∈ keys_of items → lt (key r) k = true).
  { intros k Hk. rewrite Forall_forall in Haf. specialize (Haf k Hk). unfold above in Haf.
    by rewrite Hnil in Haf. }
  split; cbn [fst snd].
  - rewrite Hkeys. apply StronglySorted_app_2; [|apply keys_sorted|done].
    + intros a b (x & -> & Hx)%list_elem_of_fmap Hb. specialize (Habove b Hb).
      destruct (Hup x Hx) as [->|H]; [done|]. by eapply lt_trans.
    + pose proof (after_sorted t last) as Hs. rewrite <- (take_drop n (after t last)) in Hs.
      by apply StronglySorted_app_1_l in Hs.
  - rewrite Hkeys. apply Forall_app. split.
    + pose proof (after_above t last) as H. rewrite <- (take_drop n (after t last)), fmap_app in H.
      by apply Forall_app in H as [H _].
    + apply Forall_forall. intros k Hk. eapply above_trans; [exact Ha|]. by apply Habove.
  - intros it [Hit|Hit]%elem_of_app; [by eapply page_rows|].
    destruct (Hro it Hit) as (t' & Ht' & H). exists t'. split; [lia|done].
  - intros k Hs Hab Hdone. rewrite Hkeys in *. apply elem_of_app.
    destruct (stays_after t last k Hs Hab) as (x & Hx & <-).
    rewrite <- (take_drop n (after t last)) in Hx. apply elem_of_app in Hx as [Hx|Hx].
    + left. by apply list_elem_of_fmap_2.
    + right. specialize (Hdown x Hx). apply Hall.
      * intros t' Ht'. apply Hs. lia.
      * unfold above. rewrite Hdown. by rewrite orb_true_r.
      * destruct Hdone as [->|(k' & Hk' & Hle)]; [by left|right]. exists k'. split; [|done].
        apply elem_of_app in Hk' as [(y & -> & Hy)%list_elem_of_fmap|Hk']; [|done].
        exfalso. assert (Hbad : lt (key r) (key r) = true); [|by rewrite lt_irrefl in Hbad].
        assert (Hyx : lt (key r) (key y) = true).
        { destruct Hle as [<-|H]; [done|]. by eapply lt_trans. }
        destruct (Hup y Hy) as [Heq|H]; [by rewrite Heq in Hyx|]. by eapply lt_trans.
  - intros i it Hi. apply lookup_app_Some in Hi as [Hi|[Hlen Hi]].
    + by apply numbered_lookup in Hi.
    + assert (Hpage : List.length (page_of t name last index) = List.length (take n (after t last))).
      { unfold numbered. apply length_imap. }
      destruct (Hnum _ _ Hi) as [-> ->]. rewrite Hpage in *. split; [lia|done].
Qed.
Lemma keyset_reading fuel t name last index r :
  keyset_pages browse fuel t ask name key last index = Some r → exact_reading t name last index r.
Proof.
  revert t last index r. induction fuel as [|fuel IH]; intros t last index r; [done|].
  cbn [keyset_pages]. destruct (browse t (ask last)) as [e|page] eqn:Hb.
  { intros [= <-]. apply failed_reading. }
  destruct (answers t last page Hb) as [Hrows Hmore]. unfold last_page. rewrite Hmore, Hrows.
  destruct (n <? List.length (after t last)) eqn:Hn; bool_to_prop.
  - assert (Hlen : List.length (take n (after t last)) = n) by (rewrite length_take; lia).
    rewrite bool_decide_eq_false_2 by lia. cbn [negb orb].
    destruct (list.last (take n (after t last))) as [x|] eqn:Hl.
    2: { apply last_None in Hl. rewrite Hl in Hlen. cbn in Hlen. lia. }
    intros (rest & Hrest & ->)%fmap_Some. eapply further_reading; [done|]. by apply IH.
  - cbn [negb orb]. intros [= <-]. by apply last_reading.
Qed.

(** it ends: the keys it goes through are ever larger, so where they come from a
    finite set there are only so many pages *)
Lemma keyset_reading_ends U fuel t name last index :
  (∀ t r, r ∈ tables t → key r ∈ U) →
  List.length (filter (λ k, above last k = true) U) < fuel →
  is_Some (keyset_pages browse fuel t ask name key last index).
Proof.
  intros HU. revert t last index. induction fuel as [|fuel IH]; intros t last index Hf; [lia|].
  cbn [keyset_pages]. destruct (browse t (ask last)) as [e|page] eqn:Hb; [done|].
  destruct (answers t last page Hb) as [Hrows Hmore].
  destruct (last_page page) eqn:Hp; [done|]. apply fmap_is_Some. rewrite Hrows.
  destruct (list.last (take n (after t last))) as [x|] eqn:Hl.
  2: { apply last_None in Hl. unfold last_page in Hp. rewrite Hrows, Hl in Hp.
       by rewrite orb_true_r in Hp. }
  destruct (page_bound t last x Hl) as (Ha & Hnil & Hx & _). apply IH.
  enough (List.length (filter (λ k, above (key x) k = true) U) <
          List.length (filter (λ k, above last k = true) U)) by lia.
  apply (filter_shorter _ _ _ (key x)).
  - intros k Hk. unfold above in Hk at 1. rewrite Hnil in Hk. by eapply above_trans.
  - apply (HU t). apply elem_of_take in Hx as (i & Hi & _). apply list_elem_of_lookup_2 in Hi.
    by apply list_elem_of_filter in Hi as [_ Hi].
  - done.
  - unfold above. by rewrite Hnil, lt_irrefl.
Qed.
End keyset.

(** What a keyset reading relies on: an order of the keys the engine sorts by, a
    table that is in that order at every call, without two equal keys or a missing
    one, and a [browse] that answers the rows after a key. The table may change
    between two calls. *)
Class KeysetTable (lt : jsval → jsval → bool) (key : obj → jsval) (tables : nat → list obj)
    (browse : nat → BrowseParams → string + Page) (ask : jsval → BrowseParams) (n : nat) : Prop := {
  order_trans a b c : lt a b = true → lt b c = true → lt a c = true;
  order_irrefl a : lt a a = false;
  table_sorted t : StronglySorted (key_lt lt key) (tables t);
  table_keys t r : r ∈ tables t → is_nil (key r) = false;
  some_rows : 0 < n;
  browse_answers t last page : browse t (ask last) = inr page →
    prows page = take n (after lt key tables t last) ∧
    phasMore page = (n <? List.length (after lt key tables t last))
}.

Section keyset_rows.
Context (src : TableSource) (n : nat) (order : TableOrder).

(** the name and value of a row's key in this order, and how to ask for the rows
    after one *)
Definition keyset_of : option (string * (obj → jsval) * (jsval → BrowseParams)) :=
  if ocursorPaging order then None else
  match okeysetColumns order, okeysetColumn order with
  | (_ :: _) as columns, _ =>
      Some (join "," columns, tuple_of columns, ask_tuple src n (osort order) columns)
  | [], Some column =>
      Some (column, λ row, obj_get row column, ask_key src n (osort order) column)
  | [], None => None
  end.

(** the key a reading goes on after, when it starts at the table's first row or
    from a checkpoint of this order *)
Definition resume_from (startOffset : nat) (resumeKey : option KeysetCheckpoint) : option jsval :=
  if startOffset =? 0 then Some VNull else
  match okeysetColumns order, okeysetColumn order with
  | (_ :: _) as columns, _ => resume_tuple columns resumeKey
  | [], Some column =>
      match resumeKey with
      | Some k => if bool_decide (kcolumn k = column) then Some (kvalue k) else None
      | None => None
      end
  | [], None => None
  end.

Context (lt : jsval → jsval → bool) (tables : nat → list obj).
Context (browse : nat → BrowseParams → string + Page).

Lemma rows_keyset name key ask fuel startOffset resumeKey last :
  keyset_of = Some (name, key, ask) → resume_from startOffset resumeKey = Some last →
  rows browse src n order fuel startOffset resumeKey =
  keyset_pages browse fuel 0 ask name key last startOffset.
Proof.
  unfold keyset_of, resume_from, rows. destruct (ocursorPaging order); [done|].
  destruct (okeysetColumns order) as [|c cs]; [destruct (okeysetColumn order) as [c|]; [|done]|];
    intros [= <- <- <-]; destruct (startOffset =? 0); try by intros [= <-].
  - destruct resumeKey as [k|]; [|done]. case_bool_decide; [|done]. by intros [= <-].
  - by intros ->.
Qed.

(** C20. A read by key is exact while the table changes under it: rows come in the
    order of the key, each after the one before, numbered without a gap and with
    the checkpoint that resumes behind them; every key that stays in the table
    comes, if the read ends, and up to the last one that came, if it fails. And it
    ends, where the keys come from a finite set *)
Theorem keyset_read_is_exact name key ask startOffset resumeKey last :
  keyset_of = Some (name, key, ask) → resume_from startOffset resumeKey = Some last →
  KeysetTable lt key tables browse ask n →
  (∀ fuel r, rows browse src n order fuel startOffset resumeKey = Some r →
     exact_reading lt key tables 0 name last startOffset r) ∧
  (∀ U, (∀ t r, r ∈ tables t → key r ∈ U) →
     is_Some (rows browse src n order (S (List.length U)) startOffset resumeKey)).
Proof.
  intros Hk Hl Ht. split.
  - intros fuel r. rewrite (rows_keyset name key ask _ _ _ last) by done.
    eapply keyset_reading; apply Ht.
  - intros U HU. rewrite (rows_keyset name key ask _ _ _ last) by done.
    eapply keyset_reading_ends; try apply Ht; [done|].
    enough (List.length (filter (λ k, above lt last k = true) U) ≤ List.length U) by lia.
    apply length_filter.
Qed.
End keyset_rows.

(** ** The other two ways *)

Section others.
Context (browse : nat → BrowseParams → string + Page) (src : TableSource) (n : nat).

(** A read by OFFSET of a table that does not change hands over every row from
    the offset on, once, in order *)
Theorem offset_read_is_complete order T startOffset resumeKey :
  ocursorPaging order = false → okeysetColumns order = [] → okeysetColumn order = None → 0 < n →
  (∀ t offset, browse t (ask_offset src n (osort order) offset) =
     inr {| prows := take n (drop offset T); phasMore := offset + n <? List.length T;
            pnextCursor := None |}) →
  rows browse src n order (S (List.length T)) startOffset resumeKey =
    Some (numbered startOffset (λ _, None) (drop startOffset T), None).
Proof.
  intros Hc Hcs Hcol Hn Hb. unfold rows. rewrite Hc, Hcs, Hcol.
  assert (Hgo : ∀ fuel t offset, List.length T - offset < fuel →
    offset_pages browse fuel t (ask_offset src n (osort order)) offset =
    Some (numbered offset (λ _, None) (drop offset T), None)); [|apply Hgo; lia].
  induction fuel as [|fuel IH]; intros t offset Hf; [lia|]. cbn [offset_pages]. rewrite Hb.
  unfold last_page. cbn [prows phasMore]. destruct (offset + n <? List.length T) eqn:Hmore; bool_to_prop.
  - rewrite length_take, length_drop, bool_decide_eq_false_2 by lia. cbn [negb orb].
    rewrite Nat.min_l by lia. rewrite IH by lia. cbn [fmap option_fmap option_map with_rows fst snd].
    f_equal. unfold with_rows. cbn [fst snd]. f_equal.
    rewrite <- (take_drop n (drop offset T)) at 2. rewrite drop_drop. unfold numbered.
    rewrite imap_app, length_take, length_drop, Nat.min_l by lia. f_equal.
    apply imap_ext. intros i x _. cbn. f_equal. lia.
  - cbn [negb orb]. by rewrite take_ge by (rewrite length_drop; lia).
Qed.

(** the pages the engine's cursor goes through, from [c] on *)
Definition next_cursor (p : Page) : option string :=
  match pnextCursor p with
  | Some c => if bool_decide (c = EmptyString) then None else Some c
  | None => None
  end.

Inductive pages_from : string → list obj → Prop :=
| one_page c p :
    (∀ t, browse t (ask_cursor src n c) = inr p) → next_cursor p = None → pages_from c (prows p)
| more_pages c p c' rest :
    (∀ t, browse t (ask_cursor src n c) = inr p) → next_cursor p = Some c' → pages_from c' rest →
    pages_from c (prows p ++ rest).

Definition resumes_at_own_page (it : TableRow) : Prop :=
  ∃ c rest, tkeyset it = Some {| kcolumn := CURSOR_COLUMN; kvalue := VStr c |} ∧
    pages_from c rest ∧ trow it ∈ rest.

Abbreviation cursor_page c index p :=
  (numbered index (λ _, Some {| kcolumn := CURSOR_COLUMN; kvalue := VStr c |})
     (filter (λ r, own_row r = false) (prows p))).

Lemma cursor_page_resumes c index p all :
  pages_from c all → (∀ r, r ∈ prows p → r ∈ all) →
  Forall resumes_at_own_page (cursor_page c index p).
Proof.
  intros Hall Hp. apply Forall_forall. intros it Hit. exists c, all.
  assert (Hr : trow it ∈ trow <$> cursor_page c index p) by (by apply list_elem_of_fmap_2).
  rewrite numbered_rows in Hr. apply list_elem_of_filter in Hr as [_ Hr].
  apply list_elem_of_lookup_1 in Hit as [i Hi]. apply numbered_lookup in Hi as [_ Hk].
  split_and!; [done|done|by apply Hp].
Qed.

Lemma cursor_pages_complete c all : pages_from c all → ∀ t index, ∃ fuel items,
  cursor_pages browse fuel t (ask_cursor src n) c index = Some (items, None) ∧
  trow <$> items = filter (λ r, own_row r = false) all ∧
  tindex <$> items = List.seq index (List.length items) ∧ Forall resumes_at_own_page items.
Proof.
  induction 1 as [c p Hb Hn|c p c' rest Hb Hn Hrest IH]; intros t index.
  - pose proof (one_page c p Hb Hn) as Hone.
    exists 1. eexists. cbn [cursor_pages]. rewrite Hb. unfold next_cursor in Hn. split.
    { destruct (pnextCursor p) as [c'|]; [|done]. by case_bool_decide. }
    rewrite numbered_rows. split_and!; [done|apply numbered_index|].
    by apply (cursor_page_resumes c index p (prows p)).
  - pose proof (more_pages c p c' rest Hb Hn Hrest) as Hmore.
    destruct (IH (S t) (index + List.length (filter (λ r, own_row r = false) (prows p))))
      as (fuel & items & Hi & Hr & Hx & Ho).
    exists (S fuel). eexists. cbn [cursor_pages]. rewrite Hb. unfold next_cursor in Hn.
    destruct (pnextCursor p) as [c2|]; [|done]. case_bool_decide; [done|]. injection Hn as ->.
    rewrite Hi. split; [done|]. cbn [fst].
    split_and!.
    + by rewrite fmap_app, numbered_rows, filter_app, Hr.
    + rewrite fmap_app, numbered_index, Hx, length_app, List.seq_app. do 2 f_equal.
      unfold numbered. by rewrite length_imap.
    + apply Forall_app. split; [|done]. apply (cursor_page_resumes c index p (prows p ++ rest));
        [done|intros r Hr'; apply elem_of_app; by left].
Qed.

(** A read by the engine's cursor hands over every row of every page but
    Syncle's own keys, numbered without a gap, each with a checkpoint at which the
    page it came in is read again: nothing is skipped by a resume *)
Theorem cursor_read_is_complete order all :
  ocursorPaging order = true → pages_from "0" all → ∃ fuel items,
    rows browse src n order fuel 0 None = Some (items, None) ∧
    trow <$> items = filter (λ r, own_row r = false) all ∧
    tindex <$> items = List.seq 0 (List.length items) ∧ Forall resumes_at_own_page items.
Proof.
  intros Hc Hp. destruct (cursor_pages_complete "0" all Hp 0 0) as (fuel & items & Hi & H).
  exists fuel, items. split; [|exact H]. unfold rows. rewrite Hc. exact Hi.
Qed.
End others.

(** ** Concrete reads *)

Definition num_key_lt (a b : jsval) : bool :=
  match a, b with VNum x, VNum y => num_lt x y | _, _ => false end.

Definition id_row (z : Z) : obj := [("id", VNum (num_of_Z z))].

(** row 2 is deleted and row 4 is added while the table is read *)
Definition moving_table (t : nat) : list obj :=
  id_row <$> (if t =? 0 then [1; 2; 3]%Z else [1; 3; 4]%Z).

Definition reader_source : TableSource :=
  {| connectionId := "pg"; database := None; schema := None; table := "users"; filters := None;
     sort := None |}.

Definition by_id : TableOrder :=
  {| osort := [ascending "id"]; ototal := Some 3; okeysetColumn := Some "id"; okeysetColumns := [];
     ocursorPaging := false; owarning := None |}.

Definition id_of (row : obj) : jsval := obj_get row "id".

(** an engine that answers from a table *)
Definition engine_of (tables : nat → list obj) (t : nat) (p : BrowseParams) : string + Page :=
  let last := match bfilters p with [f] => fvalue f | _ => VNull end in
  let all := after num_key_lt id_of tables t last in
  inr {| prows := take (blimit p) all; phasMore := blimit p <? List.length all; pnextCursor := None |}.

Lemma moving_table_keyset :
  KeysetTable num_key_lt id_of moving_table (engine_of moving_table)
    (ask_key reader_source 2 (osort by_id) "id") 2.
Proof.
  split.
  - intros [] [] []; try done. apply num_lt_trans.
  - intros []; try done. apply num_lt_irrefl.
  - intros [|t]; repeat constructor; vm_compute; reflexivity.
  - intros [|t] r; cbn; rewrite !elem_of_cons; intros H; destruct_or!; subst; try done;
      by apply elem_of_nil in H.
  - lia.
  - intros t last page. unfold engine_of, ask_key. intros [= <-].
    destruct (is_nil last) eqn:Hl; [|done]. unfold after. cbn [bfilters base_params].
    by destruct last.
Qed.

Definition read_items : list TableRow :=
  match rows (engine_of moving_table) reader_source 2 by_id 5 0 None with
  | Some (items, _) => items
  | None => []
  end.

Lemma keyset_read_is_exact_witness :
  id_of ∘ trow <$> read_items = VNum ∘ num_of_Z <$> [1; 2; 3; 4]%Z ∧
  exact_reading num_key_lt id_of moving_table 0 "id" VNull 0 (read_items, None).
Proof.
  split; [vm_compute; reflexivity|].
  apply (keyset_read_is_exact reader_source 2 by_id num_key_lt moving_table
           (engine_of moving_table) "id" id_of (ask_key reader_source 2 (osort by_id) "id") 0 None
           VNull eq_refl eq_refl moving_table_keyset) with (fuel := 5).
  vm_compute. reflexivity.
Defined.


(** a sort of the bridge's own, before a composite key *)
Definition created_source : TableSource :=
  {| connectionId := "pg"; database := None; schema := None; table := "users"; filters := None;
     sort := Some [{| scolumn := "created"; sdirection := desc |}] |}.

Definition pair_probe : Probe :=
  {| pprimaryKey := ["tenant"; "id"]; ptotal := Some 2;
     pcolumns := [("tenant", None); ("id", None); ("created", None)] |}.

Definition column_facts (name : string) (nullable : bool) : ColumnFacts :=
  {| cname := name; cnullable := nullable; cnativeType := None; cdataType := "text" |}.

Definition users_schema (created_nullable : bool) : list Namespace :=
  [{| nname := "public"; ntables :=
       [{| sname := "users"; sindexes := [];
           scolumns := [column_facts "tenant" false; column_facts "id" false;
                        column_facts "created" created_nullable] |}] |}].

Example orders :
  (λ o, (scolumn <$> osort o, okeysetColumns o))
    <$> [match resolveOrder created_source pair_probe false true (Some (users_schema false)) with
         | inr o => o | inl _ => by_id end;
         match resolveOrder created_source pair_probe false true (Some (users_schema true)) with
         | inr o => o | inl _ => by_id end;
         match resolveOrder reader_source pair_probe false false None with
         | inr o => o | inl _ => by_id end] =
  [(["created"; "tenant"; "id"], ["created"; "tenant"; "id"]); (["created"], []);
   (["tenant"; "id"], [])].
Proof. vm_compute. reflexivity. Qed.

Definition created_order : TableOrder :=
  match resolveOrder created_source pair_probe false true (Some (users_schema false)) with
  | inr o => o | inl _ => by_id end.

Lemma order_is_total_witness :
  scolumn <$> osort created_order = ["created"; "tenant"; "id"] ∧
  ∃ key, identifies created_source pair_probe (Some (users_schema false)) key ∧
         key ⊆ okeysetColumns created_order ∧
         osort created_order = default [] (sort created_source) ++
           (ascending <$> filter (λ c, c ∉ scolumn <$> default [] (sort created_source)) key).
Proof.
  split; [vm_compute; reflexivity|].
  destruct (order_is_total created_source pair_probe (Some (users_schema false)) false true
              created_order eq_refl eq_refl) as [_ H].
  apply H. vm_compute. intros [=].
Defined.

Definition unkeyed : TableOrder :=
  {| osort := [ascending "a"]; ototal := None; okeysetColumn := None; okeysetColumns := [];
     ocursorPaging := false; owarning := None |}.

Definition static_engine (T : list obj) (t : nat) (p : BrowseParams) : string + Page :=
  inr {| prows := take (blimit p) (drop (boffset p) T);
         phasMore := boffset p + blimit p <? List.length T; pnextCursor := None |}.

Lemma offset_read_is_complete_witness :
  rows (static_engine (id_row <$> [1; 2; 3; 4; 5]%Z)) reader_source 2 unkeyed 6 1 None =
  Some (numbered 1 (λ _, None) (id_row <$> [2; 3; 4; 5]%Z), None).
Proof.
  exact (offset_read_is_complete (static_engine (id_row <$> [1; 2; 3; 4; 5]%Z)) reader_source 2
           unkeyed (id_row <$> [1; 2; 3; 4; 5]%Z) 1 None eq_refl eq_refl eq_refl ltac:(lia)
           (λ _ _, eq_refl)).
Defined.

(** three pages of keys, one of them without a row, one with a key of Syncle's *)
Definition key_page (keys : list string) (next : option string) : Page :=
  {| prows := (λ k, [("key", VStr k)]) <$> keys; phasMore := false; pnextCursor := next |}.

Definition scan (t : nat) (p : BrowseParams) : string + Page :=
  inr match bcursor p with
      | Some "0" => key_page ["a"; "bull:bridge-jobs:7"] (Some "12")
      | Some "12" => key_page [] (Some "5")
      | _ => key_page ["b"] None
      end.

Definition scanned : list obj := (λ k, [("key", VStr k)]) <$> ["a"; "bull:bridge-jobs:7"; "b"].

Lemma scan_pages : pages_from scan reader_source 2 "0" scanned.
Proof.
  apply (more_pages scan reader_source 2 "0" (key_page ["a"; "bull:bridge-jobs:7"] (Some "12")) "12"
           [[("key", VStr "b")]]); [done|done|].
  apply (more_pages scan reader_source 2 "12" (key_page [] (Some "5")) "5" [[("key", VStr "b")]]);
    [done|done|].
  by apply (one_page scan reader_source 2 "5" (key_page ["b"] None)).
Qed.

Definition by_cursor : TableOrder :=
  {| osort := []; ototal := None; okeysetColumn := Some "key"; okeysetColumns := [];
     ocursorPaging := true; owarning := None |}.

Lemma cursor_read_is_complete_witness : ∃ fuel items,
  rows scan reader_source 2 by_cursor fuel 0 None = Some (items, None) ∧
  trow <$> items = [[("key", VStr "a")]; [("key", VStr "b")]].
Proof.
  destruct (cursor_read_is_complete scan reader_source 2 by_cursor _ eq_refl scan_pages)
    as (fuel & items & Hi & Hr & _).
  exists fuel, items. split; [exact Hi|]. rewrite Hr. vm_compute. reflexivity.
Defined.

(** A primary key that holds [NULL]s, which SQLite allows, is not asked about: a
    page that ends in one is asked for again, for ever *)
Definition null_keys : list obj := [[("id", VNull)]; [("id", VNull)]].

Definition null_engine (t : nat) (p : BrowseParams) : string + Page :=
  let all := match bfilters p with [f] => [] | _ => null_keys end in
  inr {| prows := take (blimit p) all; phasMore := blimit p <? List.length all; pnextCursor := None |}.

Example null_keys_are_read_for_ever fuel :
  resolveOrder reader_source {| pprimaryKey := ["id"]; ptotal := Some 3; pcolumns := [] |} false true
    None = inr by_id ∧
  rows null_engine reader_source 1 by_id fuel 0 None = None.
Proof.
  split; [reflexivity|].
  assert (H : ∀ t index, keyset_pages null_engine fuel t (ask_key reader_source 1 (osort by_id) "id")
                "id" (λ row, obj_get row "id") VNull index = None); [|exact (H 0 0)].
  induction fuel as [|fuel IH]; intros t index; [done|].
  change (with_rows (numbered index
            (λ row, Some {| kcolumn := "id"; kvalue := obj_get row "id" |}) [[("id", VNull)]])
            <$> keyset_pages null_engine fuel (S t) (ask_key reader_source 1 (osort by_id) "id") "id"
                  (λ row, obj_get row "id") VNull (index + 1) = None).
  by rewrite IH.
Qed.
