(* ===== verification/SinkRows.v ===== *)
(** What a database target receives of a row
    ([apps/api/src/bridges/database-sink.service.ts]): conversion for its engine,
    mapping to its columns, the kinds of its columns and the table made for it. *)
From S2P Require Import Prelude JsText JsNumber JsDate JsValue JsJson JsBytes.
From S2P Require Import Template ColumnTransforms RedisTarget BridgeConfig TypeMap Bridge ValueMap RowCompare.
From S2P Require Import CdcState TableReader.

(** a bridge, its secrets in clear ([bridges.types.ts]) *)
Record ResolvedBridge := {
  bid : string;
  bsource : BridgeSource;
  bdestination : BridgeDestination;
  btransform : BridgeTransformConfig;
  bdelivery : BridgeDeliveryConfig
}.

Definition source_connection (b : ResolvedBridge) : string :=
  match bsource b with FromTable t => connectionId t | FromQuery q => qconnectionId q end.

(** ** Rows with wrapped values

    a value on its way to a JSON column of PostgreSQL is wrapped; the names of the
    columns that are stand beside the values *)
Record WRow := { values : obj; wrapped : list string }.

Definition plain_row (r : obj) : WRow := {| values := r; wrapped := [] |}.

Definition is_wrapped (v : written) : bool := match v with Plain _ => false | JsonColumnValue _ => true end.

Definition of_written (r : written_row) : WRow :=
  {| values := (λ kv, (kv.1, unwrap kv.2)) <$> r; wrapped := fst <$> filter (λ kv, is_wrapped kv.2 = true) r |}.

Definition to_written (r : WRow) : written_row :=
  (λ kv, (kv.1, if bool_decide (kv.1 ∈ wrapped r) then JsonColumnValue kv.2 else Plain kv.2)) <$> values r.

(** [mapRow] on such a row: a wrapped value is an object, neither unchanged nor undefined *)
Definition map_wrapped (out : WRow) (k : string) (v : jsval) (w : bool) : WRow :=
  if w then {| values := obj_set (values out) k v; wrapped := set_add (wrapped out) k |}
  else if is_unchanged v then out
  else {| values := obj_set (values out) k (null_if_undefined v);
          wrapped := filter (λ c, c ≠ k) (wrapped out) |}.

Definition map_row (row : WRow) (mapping : list ColumnMapping) : WRow :=
  match mapping with
  | [] => foldl (λ out kv, map_wrapped out kv.1 kv.2 (bool_decide (kv.1 ∈ wrapped row)))
            (plain_row []) (values row)
  | _ => foldl (λ out m, map_wrapped out (mtarget m) (obj_get (values row) (msource m))
                           (bool_decide (msource m ∈ wrapped row))) (plain_row []) mapping
  end.

(** ** Conversion *)

Abbreviation Convert := (obj → WRow).

(** one conversion after another; no column has both *)
Definition then_convert (first second : Convert) : Convert := λ row,
  let a := first row in
  let b := second (values a) in
  {| values := values b; wrapped := set_addl (wrapped a) (wrapped b) |}.

(** the columns that are as the source has them, and those a step made anew *)
Definition column_split (cols : list TargetColumnShape) (transforms : option (list ColumnTransform))
  : list (string * string) * list (string * string) :=
  let names := Bridge.cname <$> cols in
  let by_name n := snd <$> list_find (λ c, Bridge.cname c = n) (reverse cols) in
  foldl (λ '(untouched, reshaped) name,
    match transformedType transforms name with
    | Some ty => (untouched, reshaped ++ [(name, ty)])
    | None =>
        match by_name (default name (copiedColumn transforms name)) with
        | Some origin => (untouched ++ [(name, sourceType origin)], reshaped)
        | None => (untouched, reshaped)
        end
    end) ([], []) (set_of names ++ columnsAdded transforms (set_of names)).

Section convert.
Context `{JsHost}.

Definition converter_of (cols : list TargetColumnShape) (source target : DatabaseEngine)
    (transforms : option (list ColumnTransform)) (isoInstants : bool) : option Convert :=
  let '(untouched, reshaped) := column_split cols transforms in
  let first := (λ f row, of_written (f row)) <$> rowConverterFor untouched source target isoInstants in
  let second := match reshaped with
                | [] => None
                | _ => (λ f row, of_written (f row)) <$> rowConverterFor reshaped postgres target isoInstants
                end in
  match first, second with
  | Some f, Some g => Some (then_convert f g)
  | Some f, None => Some f
  | None, g => g
  end.
End convert.

Definition converted_row (convert : option Convert) (row : obj) : WRow :=
  match convert with Some f => f row | None => plain_row row end.

(** ** Mapping *)

Definition soft_of (t : DatabaseTarget) : option SoftDelete :=
  match onDelete t with soft_delete => softDelete t | _ => None end.

(** the mark of a row that exists *)
Definition unmarked (s : SoftDelete) : jsval :=
  match softValue s with soft_boolean => VBool false | soft_timestamp => VNull end.

Definition clear_mark (t : DatabaseTarget) (out : WRow) : WRow :=
  match soft_of t with
  | Some s => {| values := obj_set (values out) (softColumn s) (unmarked s);
                 wrapped := filter (λ c, c ≠ softColumn s) (wrapped out) |}
  | None => out
  end.

(** a row as one target takes it *)
Inductive TargetRow :=
| Columns (r : WRow)
| RedisKey (k : string)
| RedisWrite (r : RedisRow).

Definition quoted (c : string) : string := String dquote c +:+ String dquote EmptyString.

Definition redis_key_error (e : RedisKeyError) : string :=
  "the row has no value for " +:+ join ", " (quoted <$> missing e) +:+ ", which the key " +:+
  etemplate e +:+ " is built from".

Definition is_delete (op : option CdcOperation) : bool :=
  match op with Some op_delete => true | _ => false end.

Section rows.
Context `{JsHost}.

(** [inl]: what it throws *)
Definition map_one (t : DatabaseTarget) (op : option CdcOperation) (row : WRow) : string + TargetRow :=
  let out := map_row row (mapping t) in
  match redis t with
  | Some r =>
      if is_delete op then
        match renderRedisKey (keyTemplate r) (values out) with
        | Some (inl k) => inr (RedisKey k)
        | Some (inr e) => inl (redis_key_error e)
        | None => inl "Do not know how to serialize a value"
        end
      else
        match toRedisRow r (values out) with
        | Some (inl w) => inr (RedisWrite w)
        | Some (inr e) => inl (redis_key_error e)
        | None => inl "Do not know how to serialize a value"
        end
  | None => inr (Columns (if is_delete op then out else clear_mark t out))
  end.

Fixpoint mapForTarget (t : DatabaseTarget) (rows : list WRow) (op : option CdcOperation)
  : string + list TargetRow :=
  match rows with
  | [] => inr []
  | row :: rows =>
      match map_one t op row with
      | inl e => inl e
      | inr x => match mapForTarget t rows op with inl e => inl e | inr xs => inr (x :: xs) end
      end
  end.
End rows.

Definition identityColumns (t : DatabaseTarget) : list string :=
  match redis t with Some _ => ["key"] | None => keyColumns t end.

Inductive WriteMode := w_insert | w_upsert | w_delete | w_soft_delete.

Definition writeModeOf (t : DatabaseTarget) (op : option CdcOperation) : WriteMode :=
  if is_delete op then match onDelete t with soft_delete => w_soft_delete | _ => w_delete end
  else match writeMode t with insert_only => w_insert | upsert => w_upsert end.

(** a row's own columns: a Redis row has a key *)
Definition row_get (r : TargetRow) (c : string) : jsval :=
  match r with
  | Columns w => obj_get (values w) c
  | RedisKey k => if bool_decide (c = "key") then VStr k else VUndef
  | RedisWrite w => if bool_decide (c = "key") then VStr (key w) else VUndef
  end.

Definition pick (r : TargetRow) (keys : list string) : obj :=
  foldl (λ out k, obj_set out k (row_get r k)) [] keys.

(** what the write will look like in the target's own change log *)
Definition announced (t : DatabaseTarget) (mapped : list TargetRow) (op : option CdcOperation) : list TargetRow :=
  if negb (is_delete op) then mapped else
  (λ m, let id := pick m (identityColumns t) in
        Columns (plain_row (match soft_of t with
                            | Some s => match softValue s with
                                        | soft_boolean => obj_define id (softColumn s) (VBool true)
                                        | soft_timestamp => id
                                        end
                            | None => id
                            end))) <$> mapped.

(** the rows exactly as a write would write them *)
Definition expected_rows (t : DatabaseTarget) (convert : option Convert) (rows : list obj) : list WRow :=
  (λ row, clear_mark t (map_row (converted_row convert row) (mapping t))) <$> rows.

Definition targetKey (t : DatabaseTarget) : string :=
  tconnectionId t +:+ "::" +:+ default EmptyString (tdatabase t) +:+ "::" +:+
  default EmptyString (tschema t) +:+ "::" +:+ ttable t.

Definition targetLabel (t : DatabaseTarget) : string := qualified t.

(** ** What a target's columns hold *)

(** the target's columns and the source columns behind them *)
Definition column_pairs (t : DatabaseTarget) (source : option (list TargetColumnShape))
    (transforms : option (list ColumnTransform)) (mappedSample : obj) : list (string * string) :=
  match mapping t with
  | [] =>
      (λ n, (n, n)) <$> match source with
                        | Some cols => (Bridge.cname <$> cols) ++ columnsAdded transforms (Bridge.cname <$> cols)
                        | None => obj_keys mappedSample
                        end
  | m => (λ m, (mtarget m, msource m)) <$> m
  end.

(** a [Map] of the columns by name: the last of a name counts *)
Definition by_name (cols : list TargetColumnShape) (n : string) : option TargetColumnShape :=
  snd <$> list_find (λ c, Bridge.cname c = n) (reverse cols).

Definition column_kind (cols : list TargetColumnShape) (engine : DatabaseEngine)
    (transforms : option (list ColumnTransform)) (source : string) : option PortableKind :=
  match transformedType transforms source with
  | Some reshaped => Some (kind (parseColumnType (Some reshaped) (Some postgres)))
  | None => (λ c, kind (parseColumnType (Some (sourceType c)) (Some engine))) <$>
              by_name cols (default source (copiedColumn transforms source))
  end.

Definition column_kinds (t : DatabaseTarget) (cols : list TargetColumnShape) (engine : DatabaseEngine)
    (transforms : option (list ColumnTransform)) : gmap string PortableKind :=
  foldl (λ kinds p, match column_kind cols engine transforms p.2 with
                    | Some k => <[p.1 := k]> kinds
                    | None => kinds
                    end) ∅ (column_pairs t (Some cols) transforms []).

(** ** The table made for a target *)

(** [inferType] *)
Definition inferType (v : jsval) : string :=
  match v with
  | VBool _ => "boolean"
  | VNum n => if is_integer n then "integer" else "double"
  | VBig _ => "bigint"
  | VDate _ => "timestamp"
  | _ => if is_object v then "json" else "text"
  end.

Definition marker_column (t : DatabaseTarget) (pairs : list (string * string)) : list TargetColumnShape :=
  match soft_of t with
  | Some s => if existsb (λ p, bool_decide (p.1 = softColumn s)) pairs then []
              else [{| Bridge.cname := softColumn s;
                       sourceType := match softValue s with soft_boolean => "boolean" | soft_timestamp => "timestamptz" end;
                       Bridge.nullable := true; generic := true |}]
  | None => []
  end.

Definition planned_column (t : DatabaseTarget) (cols : list TargetColumnShape)
    (transforms : option (list ColumnTransform)) (mapped_sample : obj) (p : string * string) : TargetColumnShape :=
  let known := by_name cols (default p.2 (copiedColumn transforms p.2)) in
  let isKey := bool_decide (p.1 ∈ keyColumns t) in
  let null := match known with Some c => Bridge.nullable c | None => negb isKey end ||
              (negb isKey && canBecomeNull transforms p.2) in
  match transformedType transforms p.2 with
  | Some reshaped => {| Bridge.cname := p.1; sourceType := reshaped; Bridge.nullable := null; generic := true |}
  | None => {| Bridge.cname := p.1;
               sourceType := match known with Some c => sourceType c | None => inferType (obj_get mapped_sample p.1) end;
               Bridge.nullable := null; generic := false |}
  end.

(** [source]: the columns of the source, where they are known *)
Definition target_columns (t : DatabaseTarget) (source : option (list TargetColumnShape))
    (transforms : option (list ColumnTransform)) (sample : obj) : list TargetColumnShape :=
  let pairs := column_pairs t source transforms (mapRow sample (mapping t)) in
  (planned_column t (default [] source) transforms (mapRow sample (mapping t)) <$> pairs) ++ marker_column t pairs.
