(* ===== verification/DbSink.v ===== *)
(** The database sink
    ([apps/api/src/bridges/database-sink.service.ts]): one delivery to every
    target of a bridge, with what has been written already left out, each
    target's batch in a transaction where its engine has them. *)
From coqutil Require Import Datatypes.RecordSetters.
From S2P Require Import Prelude JsText JsNumber JsDate JsValue JsJson JsBytes.
From S2P Require Import ColumnTransforms RedisTarget BridgeConfig TypeMap Bridge ValueMap RowCompare.
From S2P Require Import Async CdcState TableReader SinkRows.

Local Open Scope async_scope.

(** ** What is outside

    the adapters of the targets, the connections, the source's catalog, the echo
    guard and the clock: each call answers or throws, and leaves another world *)
Class Adapters (W : Type) := {
  receipt : Type;
  engine_of : string → W → (string + DatabaseEngine) * W;
  source_schema : TableSource → W → (string + list Namespace) * W;
  (* [browse] of one row: is the table there; [inl]: no connection *)
  probe : DatabaseTarget → W → (string + bool) * W;
  create_table : DatabaseTarget → TargetTablePlan → W → (string + unit) * W;
  ensure_key_index : DatabaseTarget → option (W → (string + unit) * W);
  (* [true]: emptied; [false]: the engine has no tables to empty *)
  truncate_table : DatabaseTarget → W → (string + bool) * W;
  insert_rows : DatabaseTarget → option (list TargetRow → W → (string + option nat) * W);
  insert_row : DatabaseTarget → TargetRow → W → (string + option nat) * W;
  upsert_rows : DatabaseTarget → option (list TargetRow → list string → W → (string + option nat) * W);
  upsert_row : DatabaseTarget → TargetRow → list string → W → (string + option nat) * W;
  update_row : DatabaseTarget → obj → obj → W → (string + option nat) * W;
  delete_rows : DatabaseTarget → option (list obj → W → (string + option nat) * W);
  delete_row : DatabaseTarget → obj → W → (string + option nat) * W;
  (* what [withTransaction] borrows a connection for; [None]: the engine has no transactions *)
  transactions : DatabaseTarget → bool;
  acquire : DatabaseTarget → W → (string + unit) * W;
  begin_tx : DatabaseTarget → W → (string + unit) * W;
  commit_tx : DatabaseTarget → W → (string + unit) * W;
  rollback_tx : DatabaseTarget → W → (string + unit) * W;
  (* the guard never throws: its answer is a receipt, and the rows that are there already *)
  announce : ResolvedBridge → DatabaseTarget → list TargetRow → list Row → WriteMode → W → (receipt * list nat) * W;
  announce_truncate : ResolvedBridge → DatabaseTarget → option Row → W → receipt * W;
  retract : receipt → W → W;
  clock : W → Z
}.

Section sink.
Context `{JsHost} {W : Type} `{!Adapters W}.

Record SinkState := {
  world : W;
  ensured : list string;
  sourceCols : gmap string (option (list TargetColumnShape));
  converters : gmap string (option Convert)
}.

Abbreviation M A := (@async SinkState A).

Definition in_world (s : SinkState) (w : W) : SinkState :=
  {| world := w; ensured := ensured s; sourceCols := sourceCols s; converters := converters s |}.

Definition outside {R} (f : W → (string + R) * W) : M R :=
  call (λ s, let (r, w) := f (world s) in (r, in_world s w)).

Definition told {R} (f : W → R * W) : M R :=
  atomically (λ s, let (r, w) := f (world s) in (r, in_world s w)).

Definition take_back (r : receipt) : M unit := told (λ w, (tt, retract r w)).

Definition ignore (m : M unit) : M unit := catch m (λ _, Ret tt).

(** ** What is known of the source *)

Definition shape_of (c : ColumnFacts) : TargetColumnShape :=
  {| Bridge.cname := TableReader.cname c; sourceType := default (cdataType c) (cnativeType c);
     Bridge.nullable := cnullable c; generic := false |}.

Definition resolveSourceCols (b : ResolvedBridge) : M (option (list TargetColumnShape)) :=
  let* cached := read (R := option (option (list TargetColumnShape))) (λ s, sourceCols s !! bid b) in
  match cached with
  | Some c => Ret c
  | None =>
      let* cols := match bsource b with
                   | FromTable src =>
                       catch (let* ns := outside (source_schema src) in
                              Ret ((λ t, shape_of <$> scolumns t) <$> find_table src ns))
                             (λ _, Ret None)
                   | FromQuery _ => Ret None
                   end in
      modify (λ s, s {{ sourceCols ::= <[bid b := cols]> }}) ;;
      Ret cols
  end.

Definition sourceEngine (b : ResolvedBridge) : M (option DatabaseEngine) :=
  catch (let* e := outside (engine_of (source_connection b)) in Ret (Some e)) (λ _, Ret None).

Definition converter_key (b : ResolvedBridge) (t : DatabaseTarget) : string := bid b +:+ "::" +:+ targetKey t.

Definition converterFor (b : ResolvedBridge) (t : DatabaseTarget) : M (option Convert) :=
  let* cached := read (R := option (option Convert)) (λ s, converters s !! converter_key b t) in
  match cached with
  | Some c => Ret c
  | None =>
      let* convert := catch (
        let* cols := resolveSourceCols b in
        let* source := match cols with Some _ => sourceEngine b | None => Ret None end in
        match cols, source with
        | Some cols, Some source =>
            let* engine := outside (engine_of (tconnectionId t)) in
            Ret (converter_of cols source engine (columns (btransform b))
                   (match redis t with Some _ => true | None => false end))
        | _, _ => Ret None
        end) (λ _, Ret None) in
      modify (λ s, s {{ converters ::= <[converter_key b t := convert]> }}) ;;
      Ret convert
  end.

Definition expectedRows (b : ResolvedBridge) (t : DatabaseTarget) (rows : list obj) : M (list WRow) :=
  let* convert := converterFor b t in
  Ret (expected_rows t convert rows).

Definition columnKinds (b : ResolvedBridge) (t : DatabaseTarget) : M (gmap string PortableKind) :=
  let* source := resolveSourceCols b in
  let* engine := match source with Some _ => sourceEngine b | None => Ret None end in
  match source, engine with
  | Some cols, Some engine => Ret (column_kinds t cols engine (columns (btransform b)))
  | _, _ => Ret ∅
  end.

(** ** The table *)

Definition ensureKeyIndex (t : DatabaseTarget) : M unit :=
  match writeMode t, keyColumns t with
  | insert_only, _ | _, [] => Ret tt
  | upsert, _ => match ensure_key_index t with
                 | Some f => ignore (outside f)
                 | None => Ret tt
                 end
  end.

Definition targetColumns (b : ResolvedBridge) (t : DatabaseTarget) (sample : obj) : M (list TargetColumnShape) :=
  let* source := resolveSourceCols b in
  Ret (target_columns t source (columns (btransform b)) sample).

Definition planTable (b : ResolvedBridge) (t : DatabaseTarget) (sample : obj) : M TargetTablePlan :=
  let* engine := outside (engine_of (tconnectionId t)) in
  let* cols := targetColumns b t sample in
  let* known := resolveSourceCols b in
  let* source := match known with Some _ => sourceEngine b | None => Ret None end in
  Ret (planTargetTable (ttable t) (tschema t) cols (keyColumns t) engine source).

Definition ensureTarget (b : ResolvedBridge) (t : DatabaseTarget) (sample : obj) : M unit :=
  let* known := read (λ s, bool_decide (targetKey t ∈ ensured s)) in
  if known : bool then Ret tt else
  let mark := modify (λ s, s {{ ensured ::= λ l, set_add l (targetKey t) }}) in
  let* exists_ := outside (probe t) in
  if exists_ : bool then ensureKeyIndex t ;; mark
  else if negb (createMissingTable t)
  then Throw ("Target table " +:+ quoted (ttable t) +:+ " does not exist (auto-create is off)")
  else
    let* plan := planTable b t sample in
    match spec_columns plan with
    | [] => Throw "Cannot create target table: no columns to derive"
    | _ => outside (create_table t plan) ;; ensureKeyIndex t ;; mark
    end.

(** ** Writing *)

(** the first of these keys a row has no value for *)
Definition blank (keys : list string) (identity : obj) : option string :=
  snd <$> list_find (λ k, is_nil (obj_get identity k) = true) keys.

Definition blank_error (k : string) : string :=
  "the delete carries no value for key column " +:+ quoted k +:+ ", so it cannot say which row to remove. " +:+
  "The source only sends its own key with a delete: key this target on that, " +:+
  "or make the source send whole rows (PostgreSQL: REPLICA IDENTITY FULL; MongoDB: pre-images).".

Fixpoint check_identities (keys : list string) (ids : list obj) : M unit :=
  match ids with
  | [] => Ret tt
  | i :: ids => match blank keys i with
                | Some k => Throw (blank_error k)
                | None => check_identities keys ids
                end
  end.

(** one call after another, adding up what each affected *)
Fixpoint sum_calls {A} (f : A → W → (string + option nat) * W) (otherwise : nat) (l : list A) : M nat :=
  match l with
  | [] => Ret 0
  | x :: l => let* n := outside (f x) in
              let* m := sum_calls f otherwise l in
              Ret (default otherwise n + m)
  end.

Definition at_once {A} (f : list A → W → (string + option nat) * W) (otherwise : nat) (l : list A) : M nat :=
  let* n := outside (f l) in Ret (default otherwise n).

Definition mark_of (s : SoftDelete) (engine : DatabaseEngine) (now : Z) : jsval :=
  match softValue s with
  | soft_boolean => VBool true
  | soft_timestamp => match engine with sqlite => VStr (toISOString now) | _ => VDate (Some now) end
  end.

Definition delete_batch (t : DatabaseTarget) (engine : DatabaseEngine) (mapped : list TargetRow) : M nat :=
  let ids := (λ m, pick m (identityColumns t)) <$> mapped in
  check_identities (identityColumns t) ids ;;
  match soft_of t with
  | Some s =>
      let* now := read (λ s, clock (world s)) in
      sum_calls (λ id, update_row t id (obj_set [] (softColumn s) (mark_of s engine now))) 0 ids
  | None =>
      match delete_rows t with
      | Some f => at_once f 0 ids
      | None => sum_calls (delete_row t) 0 ids
      end
  end.

Definition writeBatch (t : DatabaseTarget) (engine : DatabaseEngine) (mapped : list TargetRow)
    (op : option CdcOperation) : M nat :=
  let keys := identityColumns t in
  match is_delete op, writeMode t with
  | true, _ => delete_batch t engine mapped
  | false, insert_only =>
      match insert_rows t with
      | Some f => at_once f (List.length mapped) mapped
      | None => sum_calls (insert_row t) 1 mapped
      end
  | false, upsert =>
      match keys with
      | [] => Throw "Upsert needs at least one key column; set keys or use insert mode"
      | _ =>
          match upsert_rows t with
          | Some f => at_once (λ l, f l keys) (List.length mapped) mapped
          | None => sum_calls (λ m, upsert_row t m keys) 1 mapped
          end
      end
  end.

(** [withTransaction] of the SQL adapters
    ([packages/core/src/adapters/sql/base-sql-adapter.ts]) *)
Definition withTransaction {A} (t : DatabaseTarget) (work : M A) : M A :=
  outside (acquire t) ;;
  catch (outside (begin_tx t) ;;
         let* r := work in
         outside (commit_tx t) ;;
         Ret r)
        (λ e, ignore (outside (rollback_tx t)) ;; Throw e).

Definition writeRows (t : DatabaseTarget) (mapped : list TargetRow) (op : option CdcOperation) : M nat :=
  let* engine := outside (engine_of (tconnectionId t)) in
  if transactions t then withTransaction t (writeBatch t engine mapped op)
  else writeBatch t engine mapped op.

Definition truncate (t : DatabaseTarget) : M string :=
  let* emptied := outside (truncate_table t) in
  Ret (if emptied : bool then "truncated" else "truncate not applied (this engine has no tables to truncate)").

(** ** One target *)

(** why a target is not written at all *)
Definition not_applied (t : DatabaseTarget) (op : option CdcOperation) : option string :=
  match op with
  | Some op_delete =>
      match keyColumns t with
      | [] => Some "delete not applied (target has no key columns)"
      | _ => match onDelete t with
             | ignore_delete => Some "delete not applied (this target ignores deletes)"
             | _ => None
             end
      end
  | Some op_truncate =>
      match onDelete t with
      | ignore_delete => Some "truncate not applied (this target ignores deletes)"
      | soft_delete => Some "truncate not applied (this target soft-deletes; its rows were left as they are)"
      | BridgeConfig.delete_row => None
      end
  | _ => None
  end.

Definition is_truncate (op : option CdcOperation) : bool :=
  match op with Some op_truncate => true | _ => false end.

Definition did (t : DatabaseTarget) (op : option CdcOperation) : string :=
  if is_delete op then match onDelete t with soft_delete => "marked as deleted" | _ => "deleted" end else "wrote".

(** a target as the guard is told of it *)
Definition heard_as (t : DatabaseTarget) : DatabaseTarget :=
  match redis t with
  | Some _ => {| tconnectionId := tconnectionId t; tdatabase := tdatabase t; tschema := tschema t;
                 ttable := ttable t; writeMode := writeMode t; keyColumns := identityColumns t;
                 mapping := mapping t; createMissingTable := createMissingTable t; onDelete := onDelete t;
                 softDelete := softDelete t; redis := redis t |}
  | None => t
  end.

Definition without {A} (unchanged : list nat) (l : list A) : list A :=
  snd <$> filter (λ x, x.1 ∉ unchanged) (imap pair l).

Definition lift {A} (r : string + A) : M A := match r with inl e => Throw e | inr x => Ret x end.

(** the write to one target; the answer is its line of the report *)
Definition write_target (b : ResolvedBridge) (t : DatabaseTarget) (rows : list Row) (op : option CdcOperation)
  : M string :=
  ensureTarget b t (match rows with r :: _ => cols r | [] => [] end) ;;
  if is_truncate op then
    let* said := told (announce_truncate b t (head rows)) in
    catch (truncate t) (λ e, take_back said ;; Throw e)
  else
    let* convert := converterFor b t in
    let* mapped := lift (mapForTarget t ((λ r, converted_row convert (cols r)) <$> rows) op) in
    let* heard := told (announce b (heard_as t) (announced t mapped op) rows (writeModeOf t op)) in
    let '(said, unchanged) := heard in
    let writing := without unchanged mapped in
    let* affected := catch (match writing with [] => Ret 0 | _ => writeRows t writing op end)
                           (λ e, take_back said ;; Throw e) in
    (if bool_decide (affected = 0) then take_back said else Ret tt) ;;
    Ret (did t op +:+ " " +:+ pretty affected +:+
         match unchanged with
         | [] => EmptyString
         | _ => " (" +:+ pretty (List.length unchanged) +:+ " already up to date, not written)"
         end).

(** ** The delivery *)

Record Report := {
  summaries : list string;
  succeeded : list string;
  firstError : option string
}.

Definition said_of (t : DatabaseTarget) (s : string) : string := targetLabel t +:+ ": " +:+ s.

Definition succeed (r : Report) (t : DatabaseTarget) (s : string) : Report :=
  {| summaries := summaries r ++ [said_of t s]; succeeded := succeeded r ++ [targetKey t];
     firstError := firstError r |}.

Definition fail_target (r : Report) (t : DatabaseTarget) (e : string) : Report :=
  {| summaries := summaries r ++ [said_of t ("FAILED " +:+ e)]; succeeded := succeeded r;
     firstError := match firstError r with Some x => Some x | None => Some (said_of t e) end |}.

Definition deliver_target (b : ResolvedBridge) (rows : list Row) (op : option CdcOperation)
    (skipTargets : list string) (t : DatabaseTarget) (r : Report) : M Report :=
  if bool_decide (targetKey t ∈ skipTargets)
  then Ret (succeed r t "skipped (already written by a previous attempt)") else
  match not_applied t op with
  | Some s => Ret (succeed r t s)
  | None => catch (let* s := write_target b t rows op in Ret (succeed r t s))
                  (λ e, Ret (fail_target r t e))
  end.

Fixpoint deliver_targets (b : ResolvedBridge) (rows : list Row) (op : option CdcOperation)
    (skipTargets : list string) (ts : list DatabaseTarget) (r : Report) : M Report :=
  match ts with
  | [] => Ret r
  | t :: ts => let* r := deliver_target b rows op skipTargets t r in
               deliver_targets b rows op skipTargets ts r
  end.

(** the outcome without its presentation (bodies, duration) *)
Definition deliver (b : ResolvedBridge) (ts : list DatabaseTarget) (rows : list Row)
    (op : option CdcOperation) (skipTargets : list string) : M DeliveryOutcome :=
  let* r := deliver_targets b rows op skipTargets ts {| summaries := []; succeeded := []; firstError := None |} in
  Ret {| success := match firstError r with Some _ => false | None => true end;
         oattempts := 1;
         oerror := firstError r;
         osucceededTargets := match firstError r with Some _ => Some (succeeded r) | None => None end |}.

(** [forget]: a bridge was edited or deleted *)
Definition forget (b : string) : M unit :=
  modify (λ s, s {{ sourceCols ::= delete b }}
                 {{ converters ::= filter (λ kv, startsWith (b +:+ "::") kv.1 = false) }}).
End sink.
