(* ===== verification/SinkOnce.v ===== *)
(** A delivery to several targets is applied once to each, however often it is
    tried again, and never throws ([DatabaseSinkService.deliver],
    [apps/api/src/bridges/database-sink.service.ts]). *)
From coqutil Require Import Datatypes.RecordSetters.
From S2P Require Import Prelude JsText JsNumber JsDate JsIso JsValue JsJson JsBytes.
From S2P Require Import ColumnTransforms RedisTarget BridgeConfig TypeMap Bridge ValueMap RowCompare.
From S2P Require Import Async CdcState TableReader SinkRows DbSink.

Local Open Scope async_scope.

Section once.
Context `{JsHost} {W : Type} `{!Adapters W}.

Abbreviation M A := (@async (SinkState (W := W)) A).

(** ** A delivery returns *)

Lemma waits_read {S R} g0 (f : S → R) : waits_for g0 (read f).
Proof. apply waits_atomically. Qed.

Lemma waits_modify {S} g0 (f : S → S) : waits_for g0 (modify f).
Proof. apply waits_atomically. Qed.

Lemma waits_outside {R} g0 (f : W → (string + R) * W) : waits_for g0 (outside f).
Proof. apply waits_call. Qed.

Lemma waits_ignore g0 (m : M unit) : waits_for g0 m → waits_for g0 (ignore m).
Proof. intros Hm. by apply waits_catch. Qed.

Lemma exec_outside {R} (f : W → (string + R) * W) s :
  exec (outside f) s = Some ((f (world s)).1, in_world s (f (world s)).2).
Proof. cbn. by destruct (f (world s)) as [[e|x] w]. Qed.

Ltac waits_step :=
  lazymatch goal with
  | |- waits_for _ (read _) => apply waits_read
  | |- waits_for _ (modify _) => apply waits_modify
  | |- waits_for _ (outside _) => apply waits_outside
  | |- waits_for _ (atomically _) => apply waits_atomically
  | |- waits_for _ (ignore _) => apply waits_ignore
  | |- waits_for _ (bind _ _) => apply waits_bind; [|intros ?]
  | |- waits_for _ (catch _ _) => apply waits_catch; [|intros ?]
  | |- waits_for _ (Ret _) => exact I
  | |- waits_for _ (Throw _) => exact I
  | |- waits_for _ (match _ with _ => _ end) => case_match
  | |- waits_for _ (let _ := _ in _) => cbv zeta
  end.
Ltac waits_all := repeat waits_step.

Lemma waits_resolve g b : waits_for g (resolveSourceCols (W := W) b).
Proof. unfold resolveSourceCols. waits_all. Qed.

Lemma waits_engine g b : waits_for g (sourceEngine (W := W) b).
Proof. unfold sourceEngine. waits_all. Qed.

Lemma waits_converter g b t : waits_for g (converterFor (W := W) b t).
Proof. unfold converterFor. waits_all; apply waits_resolve || apply waits_engine. Qed.

Lemma waits_index g t : waits_for g (ensureKeyIndex (W := W) t).
Proof. unfold ensureKeyIndex. waits_all. Qed.

Lemma waits_plan g b t sample : waits_for g (planTable (W := W) b t sample).
Proof. unfold planTable, targetColumns. waits_all; apply waits_resolve || apply waits_engine. Qed.

Lemma waits_ensure g b t sample : waits_for g (ensureTarget (W := W) b t sample).
Proof. unfold ensureTarget. waits_all; apply waits_index || apply waits_plan. Qed.

Lemma waits_sum {A} g (f : A → W → (string + option nat) * W) n l : waits_for g (sum_calls f n l).
Proof. induction l as [|x l IH]; cbn [sum_calls]; waits_all. exact IH. Qed.

Lemma waits_identities g keys ids : waits_for g (check_identities (W := W) keys ids).
Proof. induction ids as [|i ids IH]; cbn [check_identities]; [done|]. destruct (blank keys i); [done|exact IH]. Qed.

Lemma waits_batch g t e l op : waits_for g (writeBatch (W := W) t e l op).
Proof.
  unfold writeBatch, delete_batch, at_once. waits_all; apply waits_sum || apply waits_identities.
Qed.

Lemma waits_rows g t l op : waits_for g (writeRows (W := W) t l op).
Proof. unfold writeRows, withTransaction. waits_all; apply waits_batch. Qed.

Lemma waits_target g b t rows op : waits_for g (write_target (W := W) b t rows op).
Proof.
  unfold write_target, truncate, take_back, told, lift.
  waits_all; apply waits_ensure || apply waits_converter || apply waits_rows.
Qed.

Lemma waits_targets g b rows op skip ts r : waits_for g (deliver_targets (W := W) b rows op skip ts r).
Proof.
  revert r. induction ts as [|t ts IH]; intros r; cbn [deliver_targets]; [done|].
  unfold deliver_target. waits_all; [apply waits_target|apply IH].
Qed.

Lemma targets_never_throw b rows op skip ts r s :
  ∃ r' s', exec (deliver_targets (W := W) b rows op skip ts r) s = Some (inr r', s').
Proof.
  revert r s. induction ts as [|t ts IH]; intros r s; [by eexists _, _|]. cbn [deliver_targets].
  assert (Hone : ∃ r1 s1, exec (deliver_target b rows op skip t r) s = Some (inr r1, s1)).
  { unfold deliver_target. case_bool_decide; [by eexists _, _|]. destruct (not_applied t op); [by eexists _, _|].
    rewrite exec_catch, exec_bind.
    destruct (exec_total (write_target b t rows op) s (waits_target _ b t rows op)) as [[[e|x] s1] ->];
      by eexists _, _. }
  destruct Hone as (r1 & s1 & H1). rewrite exec_bind, H1. apply IH.
Qed.

(** a delivery always answers: whatever throws, an outcome says so *)
Lemma delivery_answers b ts rows op skip s :
  ∃ o s', exec (deliver (W := W) b ts rows op skip) s = Some (inr o, s').
Proof.
  unfold deliver. rewrite exec_bind. destruct (targets_never_throw b rows op skip ts
    {| summaries := []; succeeded := []; firstError := None |} s) as (r & s' & ->).
  by eexists _, _.
Qed.

(** ** What leaves the tables as they are *)

Section keeps.
Context {T : Type} (seen : W → T).

(** [m] leaves what is seen of the world as it is *)
Definition keeps {A} (m : M A) : Prop :=
  ∀ s r s', exec m s = Some (r, s') → seen (world s') = seen (world s).

Definition quiet_call {R} (f : W → (string + R) * W) : Prop := ∀ w, seen (f w).2 = seen w.

Lemma keeps_ret {A} (x : A) : keeps (Ret x).
Proof. by intros s r s' [= _ <-]. Qed.

Lemma keeps_throw {A} e : keeps (A := A) (Throw e).
Proof. by intros s r s' [= _ <-]. Qed.

Lemma keeps_bind {A B} (m : M A) (h : A → M B) : keeps m → (∀ x, keeps (h x)) → keeps (bind m h).
Proof.
  intros Hm Hh s r s' He. rewrite exec_bind in He.
  destruct (exec m s) as [[[e|x] s1]|] eqn:H1; [|rewrite (Hh _ _ _ _ He); by eapply Hm|done].
  injection He as _ <-. by eapply Hm.
Qed.

Lemma keeps_catch {A} (m : M A) h : keeps m → (∀ e, keeps (h e)) → keeps (catch m h).
Proof.
  intros Hm Hh s r s' He. rewrite exec_catch in He.
  destruct (exec m s) as [[[e|x] s1]|] eqn:H1; [rewrite (Hh _ _ _ _ He)| |done];
    [|injection He as _ <-]; by eapply Hm.
Qed.

Lemma keeps_outside {R} (f : W → (string + R) * W) : quiet_call f → keeps (outside f).
Proof. intros Hf s r s' He. rewrite exec_outside in He. injection He as _ <-. apply Hf. Qed.

Lemma keeps_told {R} (f : W → R * W) : (∀ w, seen (f w).2 = seen w) → keeps (told f).
Proof.
  intros Hf s r s' He. specialize (Hf (world s)). cbn in He. destruct (f (world s)) as [x w].
  injection He as _ <-. exact Hf.
Qed.

Lemma keeps_read {R} (f : SinkState → R) : keeps (read f).
Proof. by intros s r s' [= _ <-]. Qed.

Lemma keeps_modify (f : SinkState → SinkState) : (∀ s, world (f s) = world s) → keeps (modify f).
Proof. intros Hf s r s' [= _ <-]. by rewrite Hf. Qed.

Lemma keeps_ignore (m : M unit) : keeps m → keeps (ignore m).
Proof. intros Hm. apply keeps_catch; [done|]. intros. apply keeps_ret. Qed.

Lemma keeps_lift {A} (r : string + A) : keeps (lift r).
Proof. destruct r; [apply keeps_throw|apply keeps_ret]. Qed.
End keeps.

(** ** Tables with transactions

    what the adapters of such an engine document: a write inside a transaction
    reaches the table with its commit, and not at all where it is rolled back *)
Definition add_rows (k : string) (l : list TargetRow) (tables : string → list TargetRow) : string → list TargetRow :=
  λ k', if decide (k' = k) then tables k' ++ l else tables k'.

Record TransactionLaws (committed pending : W → string → list TargetRow) (opened : W → string → bool) : Prop := {
  quiet_engine c : quiet_call committed (engine_of c);
  quiet_schema src : quiet_call committed (source_schema src);
  quiet_probe t : quiet_call committed (probe t);
  quiet_create t p : quiet_call committed (create_table t p);
  quiet_index t f : ensure_key_index t = Some f → quiet_call committed f;
  quiet_acquire t : quiet_call committed (acquire t);
  quiet_begin t : quiet_call committed (begin_tx t);
  quiet_rollback t : quiet_call committed (rollback_tx t);
  quiet_announce b t l rows m w : committed (announce b t l rows m w).2 = committed w;
  quiet_retract r w : committed (retract r w) = committed w;
  begun t w : (begin_tx t w).1 = inr tt →
    opened (begin_tx t w).2 (targetKey t) = true ∧ pending (begin_tx t w).2 (targetKey t) = [];
  inserts_at_once t f l w : insert_rows t = Some f → opened w (targetKey t) = true →
    committed (f l w).2 = committed w ∧
    ∀ n, (f l w).1 = inr n → opened (f l w).2 (targetKey t) = true ∧
      pending (f l w).2 (targetKey t) = pending w (targetKey t) ++ l;
  inserts_one t x w : opened w (targetKey t) = true →
    committed (insert_row t x w).2 = committed w ∧
    ∀ n, (insert_row t x w).1 = inr n → opened (insert_row t x w).2 (targetKey t) = true ∧
      pending (insert_row t x w).2 (targetKey t) = pending w (targetKey t) ++ [x];
  commits t w : opened w (targetKey t) = true →
    committed (commit_tx t w).2 =
      match (commit_tx t w).1 with
      | inr _ => add_rows (targetKey t) (pending w (targetKey t)) (committed w)
      | inl _ => committed w
      end;
  (* an insert has no key to look by: the guard leaves no row of it out *)
  insert_has_no_key b t l rows w : (announce b t l rows w_insert w).1.2 = []
}.

Context (committed pending : W → string → list TargetRow) (opened : W → string → bool).
Context (laws : TransactionLaws committed pending opened).

Abbreviation kept := (keeps committed).

Ltac keeps_all := repeat first
  [ apply keeps_ret | apply keeps_throw | apply keeps_read | apply keeps_lift
  | apply keeps_modify; intros; reflexivity
  | apply keeps_outside; eauto using quiet_engine, quiet_schema, quiet_probe, quiet_create, quiet_index,
      quiet_acquire, quiet_begin, quiet_rollback, quiet_announce, quiet_retract
  | apply keeps_ignore | apply keeps_bind; [|intros ?] | apply keeps_catch; [|intros ?]
  | case_match ].

Lemma resolve_kept b : kept (resolveSourceCols b).
Proof. unfold resolveSourceCols. keeps_all. Qed.

Lemma source_engine_kept b : kept (sourceEngine b).
Proof. unfold sourceEngine. keeps_all. Qed.

Lemma converter_kept b t : kept (converterFor b t).
Proof.
  unfold converterFor. keeps_all; apply resolve_kept || apply source_engine_kept || idtac.
Qed.

Lemma index_kept t : kept (ensureKeyIndex t).
Proof. unfold ensureKeyIndex. keeps_all. Qed.

Lemma plan_kept b t sample : kept (planTable b t sample).
Proof.
  unfold planTable, targetColumns. keeps_all; apply resolve_kept || apply source_engine_kept || idtac.
Qed.

Lemma ensure_kept b t sample : kept (ensureTarget b t sample).
Proof. unfold ensureTarget. keeps_all; apply index_kept || apply plan_kept || idtac. Qed.

(** ** One batch *)

Definition adds (t : DatabaseTarget) (l : list TargetRow) (s s' : SinkState) : Prop :=
  committed (world s') = add_rows (targetKey t) l (committed (world s)).

(** inside a transaction: the rows wait for its commit *)
Definition waits_in (t : DatabaseTarget) (l : list TargetRow) (s s' : SinkState) : Prop :=
  opened (world s') (targetKey t) = true ∧
  pending (world s') (targetKey t) = pending (world s) (targetKey t) ++ l.

Lemma sum_inserted t n l s r s' : opened (world s) (targetKey t) = true →
  exec (sum_calls (insert_row t) n l) s = Some (r, s') →
  committed (world s') = committed (world s) ∧ (∀ m, r = inr m → waits_in t l s s').
Proof.
  revert s r s'. induction l as [|x l IH]; intros s r s' Ho He.
  { injection He as <- <-. split; [done|]. intros m _. split; [done|]. by rewrite app_nil_r. }
  cbn [sum_calls] in He. rewrite exec_bind, exec_outside in He.
  destruct (inserts_one _ _ _ laws t x (world s) Ho) as [Hc Hn].
  destruct ((insert_row t x (world s)).1) as [e|k] eqn:Hr.
  { injection He as <- <-. split; [exact Hc|]. by intros m. }
  destruct (Hn k eq_refl) as [Ho' Hp]. rewrite exec_bind in He.
  destruct (exec (sum_calls _ n l) _) as [[[e|m'] s1]|] eqn:H1; [..|done];
    destruct (IH (in_world s (insert_row t x (world s)).2) _ _ Ho' H1) as [Hc' Hw].
  - injection He as <- <-. split; [rewrite Hc'; exact Hc|by intros m].
  - injection He as <- <-. split; [rewrite Hc'; exact Hc|]. intros m _. destruct (Hw m' eq_refl) as [Ho2 Hp2].
    split; [done|]. rewrite Hp2. cbn [world in_world]. rewrite Hp, <- app_assoc. done.
Qed.

Lemma batch_inserted t engine l op s r s' : is_delete op = false → writeMode t = insert_only →
  opened (world s) (targetKey t) = true → exec (writeBatch t engine l op) s = Some (r, s') →
  committed (world s') = committed (world s) ∧ (∀ m, r = inr m → waits_in t l s s').
Proof.
  intros Hd Hm Ho He. unfold writeBatch in He. rewrite Hd, Hm in He.
  destruct (insert_rows t) as [f|] eqn:Hf; [|by eapply sum_inserted].
  unfold at_once in He. rewrite exec_bind, exec_outside in He.
  destruct (inserts_at_once _ _ _ laws t f l (world s) Hf Ho) as [Hc Hn].
  destruct ((f l (world s)).1) as [e|k] eqn:Hr; injection He as <- <-; (split; [exact Hc|]); [by intros m|].
  intros m _. by apply (Hn k).
Qed.

Lemma rows_inserted t l op s r s' : is_delete op = false → writeMode t = insert_only → transactions t = true →
  exec (writeRows t l op) s = Some (r, s') →
  match r with
  | inr _ => adds t l s s'
  | inl _ => committed (world s') = committed (world s)
  end.
Proof.
  intros Hd Hm Ht He. unfold writeRows in He. rewrite exec_bind, exec_outside in He.
  pose proof (quiet_engine _ _ _ laws (tconnectionId t) (world s)) as Hq.
  destruct ((engine_of (tconnectionId t) (world s)).1) as [e|engine]; [by injection He as <- <-|].
  set (s1 := in_world s _) in He. rewrite Ht in He. unfold withTransaction in He.
  rewrite exec_bind, exec_outside in He.
  pose proof (quiet_acquire _ _ _ laws t (world s1)) as Hq1.
  destruct ((acquire t (world s1)).1) as [e|[]]; [injection He as <- <-; exact (eq_trans Hq1 Hq)|].
  set (s2 := in_world s1 _) in He.
  assert (H2 : committed (world s2) = committed (world s)) by exact (eq_trans Hq1 Hq).
  assert (Hback : ∀ e s3 r s', committed (world s3) = committed (world s) →
    exec (ignore (outside (rollback_tx t)) ;; (Throw e : M nat)) s3 = Some (r, s') →
    ∃ e', r = inl e' ∧ committed (world s') = committed (world s)).
  { clear He r s'. intros e s3 r s' H3 He. rewrite exec_bind in He.
    assert (Hk : kept (ignore (outside (rollback_tx t)))) by (apply keeps_ignore, keeps_outside, (quiet_rollback _ _ _ laws)).
    destruct (exec (ignore _) s3) as [[[e'|[]] s4]|] eqn:H4; [..|done];
      injection He as <- <-; eexists; (split; [done|]); by rewrite (Hk _ _ _ H4). }
  rewrite exec_catch, exec_bind, exec_outside in He.
  pose proof (quiet_begin _ _ _ laws t (world s2)) as Hq2. pose proof (begun _ _ _ laws t (world s2)) as Hb.
  destruct ((begin_tx t (world s2)).1) as [e|[]].
  { apply Hback in He as (e' & -> & Hc); [exact Hc|]. exact (eq_trans Hq2 H2). }
  destruct (Hb eq_refl) as [Ho Hp]. set (s3 := in_world s2 _) in He.
  rewrite exec_bind in He.
  destruct (exec (writeBatch t engine l op) s3) as [[[e|n] s4]|] eqn:H4; [..|done];
    destruct (batch_inserted t engine l op s3 _ s4 Hd Hm Ho H4) as [Hc Hw].
  { apply Hback in He as (e' & -> & Hc'); [exact Hc'|]. exact (eq_trans Hc (eq_trans Hq2 H2)). }
  destruct (Hw n eq_refl) as [Ho4 Hp4]. rewrite exec_bind, exec_outside in He.
  pose proof (commits _ _ _ laws t (world s4) Ho4) as Hcm.
  destruct ((commit_tx t (world s4)).1) as [e|[]] eqn:Hr.
  { apply Hback in He as (e' & -> & Hc'); [exact Hc'|]. exact (eq_trans Hcm (eq_trans Hc (eq_trans Hq2 H2))). }
  injection He as <- <-. unfold adds. cbn [world in_world]. rewrite Hcm, Hc, Hp4.
  change (world s3) with ((begin_tx t (world s2)).2). by rewrite Hp, Hq2, H2.
Qed.

(** ** One target, and all of them *)

Context (b : ResolvedBridge) (rows : list Row) (op : option CdcOperation).
Context (no_delete : is_delete op = false) (no_truncate : is_truncate op = false).

(** rows as the target takes them, by the conversion the sink knows for it *)
Definition mapped_for (t : DatabaseTarget) (l : list TargetRow) : Prop :=
  ∃ convert, mapForTarget t ((λ r, converted_row convert (cols r)) <$> rows) op = inr l.

(** the rows were written to this target's table, and to no other *)
Definition written_to (t : DatabaseTarget) (s s' : SinkState) : Prop :=
  ∃ l, mapped_for t l ∧ ∀ k, committed (world s') k = add_rows (targetKey t) l (committed (world s)) k.

Definition unwritten (s s' : SinkState) : Prop := ∀ k, committed (world s') k = committed (world s) k.

Lemma take_back_kept r : kept (take_back r).
Proof. apply keeps_told. intros w. apply (quiet_retract _ _ _ laws). Qed.

Lemma without_nothing {A} (l : list A) : without [] l = l.
Proof.
  unfold without. enough (Hg : ∀ (f : nat → nat), snd <$> filter (λ x, x.1 ∉ []) (imap (λ i x, (f i, x)) l) = l)
    by exact (Hg id).
  induction l as [|x l IH]; intros f; [done|]. rewrite imap_cons, filter_cons.
  rewrite decide_True by apply not_elem_of_nil. cbn. f_equal. apply (IH (f ∘ S)).
Qed.

Lemma target_written t s r s' : writeMode t = insert_only → transactions t = true →
  exec (write_target b t rows op) s = Some (r, s') →
  match r with inr _ => written_to t s s' | inl _ => unwritten s s' end.
Proof.
  intros Hm Ht He. unfold write_target in He. rewrite no_truncate in He.
  assert (Hmode : writeModeOf t op = w_insert) by (unfold writeModeOf; by rewrite no_delete, Hm).
  rewrite exec_bind in He.
  destruct (exec (ensureTarget b t _) s) as [[[e|[]] s1]|] eqn:H1; [..|done];
    pose proof (ensure_kept b t _ s _ s1 H1) as K1; [injection He as <- <-; intros k; by rewrite K1|].
  rewrite exec_bind in He.
  destruct (exec (converterFor b t) s1) as [[[e|convert] s2]|] eqn:H2; [..|done];
    pose proof (converter_kept b t s1 _ s2 H2) as K2; [injection He as <- <-; intros k; by rewrite K2, K1|].
  rewrite exec_bind in He.
  destruct (mapForTarget t _ op) as [e|l] eqn:Hl; cbn [lift exec] in He;
    [injection He as <- <-; intros k; by rewrite K2, K1|].
  assert (Hfor : mapped_for t l) by (by exists convert).
  rewrite exec_bind in He.
  destruct (exec (told _) s2) as [[[e|[said u]] s3]|] eqn:H3; [by cbn in H3; destruct (announce _ _ _ _ _ _)| |done].
  assert (K3 : committed (world s3) = committed (world s2)).
  { eapply (keeps_told committed); [|exact H3]. intros w. apply (quiet_announce _ _ _ laws). }
  assert (Hu : u = []).
  { pose proof (insert_has_no_key _ _ _ laws b (heard_as t) (announced t l op) rows (world s2)) as Hk.
    cbn in H3. rewrite Hmode in H3. destruct (announce _ _ _ _ _ _) as [[said' u'] w]. cbn in Hk. subst u'.
    by injection H3 as <- <- _. }
  subst u. rewrite without_nothing in He. rewrite exec_bind in He.
  assert (Hwrite : ∀ r s4, exec (match l with [] => Ret 0 | _ => writeRows t l op end) s3 = Some (r, s4) →
    match r with inr _ => written_to t s s4 | inl _ => unwritten s s4 end).
  { intros r4 s4 H4.
    assert (Hrows : match r4 with inr _ => adds t l s3 s4 | inl _ => committed (world s4) = committed (world s3) end
                    ∨ l = [] ∧ s4 = s3 ∧ ∃ n, r4 = inr n).
    { destruct l as [|x l]; [injection H4 as <- <-; right; split_and!; [done..|by eexists]|].
      left. by eapply (rows_inserted t (x :: l) op s3). }
    destruct Hrows as [Hrows|(-> & -> & n & ->)].
    - destruct r4 as [e|n]; [intros k; by rewrite Hrows, K3, K2, K1|].
      exists l. split; [done|]. intros k. by rewrite Hrows, K3, K2, K1.
    - exists []. split; [done|]. intros k. rewrite K3, K2, K1. unfold add_rows. case_decide; [by rewrite app_nil_r|done]. }
  rewrite exec_catch in He.
  destruct (exec (match l with [] => _ | _ => _ end) s3) as [[[e|n] s4]|] eqn:H4; [..|done];
    specialize (Hwrite _ _ eq_refl).
  - rewrite exec_bind in He. destruct (exec (take_back said) s4) as [[[e'|[]] s5]|] eqn:H5; [..|done];
      pose proof (take_back_kept said s4 _ s5 H5) as K5; injection He as <- <-; intros k; by rewrite K5, Hwrite.
  - rewrite exec_bind in He. destruct Hwrite as (l' & Hl' & Hw).
    destruct (exec (if bool_decide (n = 0) then _ else _) s4) as [[[e'|[]] s5]|] eqn:H5; [..|done].
    + exfalso. case_bool_decide; [|done]. by cbn in H5.
    + injection He as <- <-. exists l'. split; [done|]. intros k. rewrite <- Hw.
      case_bool_decide; [by rewrite (take_back_kept _ _ _ _ H5)|by injection H5 as <-].
Qed.

Lemma applied t : not_applied t op = None.
Proof. unfold not_applied. by destruct op as [[]|]. Qed.

(** what a delivery that leaves out [skip] did: [ok] are the targets that have the rows now *)
Definition did_write (skip ok : list string) (ts : list DatabaseTarget) (s s' : SinkState) : Prop :=
  (∀ t, t ∈ ts → targetKey t ∈ ok → targetKey t ∉ skip →
     ∃ l, mapped_for t l ∧ committed (world s') (targetKey t) = committed (world s) (targetKey t) ++ l) ∧
  (∀ k, k ∉ ok ∨ k ∈ skip ∨ k ∉ targetKey <$> ts → committed (world s') k = committed (world s) k).

Lemma one_delivered skip t r s x s' : writeMode t = insert_only → transactions t = true →
  exec (deliver_target b rows op skip t r) s = Some (x, s') →
  ∃ r' ok, x = inr r' ∧ succeeded r' = succeeded r ++ ok ∧ ok ⊆ [targetKey t] ∧
    (targetKey t ∈ skip → targetKey t ∈ ok) ∧
    (firstError r' = None ↔ firstError r = None ∧ targetKey t ∈ ok) ∧ did_write skip ok [t] s s'.
Proof.
  intros Hm Ht He. unfold deliver_target in He. case_bool_decide as Hskip.
  { injection He as <- <-. exists (succeed r t "skipped (already written by a previous attempt)"), [targetKey t].
    split_and!; [done..|set_solver|cbn; set_solver|]. split; [|done].
    by intros t' ->%list_elem_of_singleton _ ?. }
  rewrite applied, exec_catch, exec_bind in He.
  destruct (exec (write_target b t rows op) s) as [[[e|line] s1]|] eqn:H1; [..|done];
    pose proof (target_written t s _ s1 Hm Ht H1) as Hw; injection He as <- <-.
  - exists (fail_target r t e), []. split_and!; [done|by rewrite app_nil_r|set_solver|done| |].
    + cbn. split; [by destruct (firstError r)|]. intros [_ Hin]. by apply elem_of_nil in Hin.
    + split; [|intros k _; apply Hw]. intros t' _ Hin. by apply elem_of_nil in Hin.
  - destruct Hw as (l & Hl & Hw). exists (succeed r t line), [targetKey t].
    split_and!; [done..|set_solver|cbn; set_solver|]. split.
    + intros t' ->%list_elem_of_singleton _ _. exists l. split; [done|]. rewrite Hw. unfold add_rows.
      by rewrite decide_True.
    + intros k Hk. rewrite Hw. unfold add_rows. rewrite decide_False; [done|]. intros ->. set_solver.
Qed.

Definition inserts (t : DatabaseTarget) : Prop := writeMode t = insert_only ∧ transactions t = true.

Lemma all_delivered skip ts r s x s' : NoDup (targetKey <$> ts) → Forall inserts ts →
  exec (deliver_targets b rows op skip ts r) s = Some (x, s') →
  ∃ r' ok, x = inr r' ∧ succeeded r' = succeeded r ++ ok ∧ ok ⊆ targetKey <$> ts ∧
    (∀ k, k ∈ targetKey <$> ts → k ∈ skip → k ∈ ok) ∧
    (firstError r' = None ↔ firstError r = None ∧ targetKey <$> ts ⊆ ok) ∧ did_write skip ok ts s s'.
Proof.
  intros Hnd Hins. revert r s. induction Hins as [|t ts [Hm Ht] Hins IH]; intros r s He.
  { injection He as <- <-. exists r, []. split_and!; [done|by rewrite app_nil_r|set_solver|set_solver|set_solver|].
    split; [set_solver|done]. }
  apply NoDup_cons in Hnd as [Hnew Hnd]. cbn [deliver_targets] in He. rewrite exec_bind in He.
  destruct (exec (deliver_target b rows op skip t r) s) as [[y s1]|] eqn:H1; [|done].
  destruct (one_delivered _ _ _ _ _ _ Hm Ht H1) as (r1 & ok1 & -> & Hs1 & Hok1 & Hk1 & Hf1 & Hw1 & Hu1).
  destruct (IH Hnd r1 s1 He) as (r' & ok & -> & Hs & Hok & Hk & Hf & Hw & Hu).
  assert (Hold : targetKey t ∉ ok) by set_solver.
  exists r', (ok1 ++ ok). split_and!; [done|by rewrite Hs, Hs1, app_assoc|set_solver| | |].
  - intros k. rewrite fmap_cons. intros [->|Hin]%elem_of_cons Hskip; set_solver.
  - rewrite Hf, Hf1. set_solver.
  - split.
    + intros u [->|Hin]%elem_of_cons Hin' Hnot.
      * destruct (Hw1 t) as (l & Hl & Hc); [set_solver..|]. exists l. split; [done|].
        rewrite <- Hc. apply Hu. by left.
      * assert (Hneq : targetKey u ≠ targetKey t).
        { intros Heq. apply Hnew. rewrite <- Heq. by apply list_elem_of_fmap_2. }
        destruct (Hw u) as (l & Hl & Hc); [done|set_solver|done|]. exists l. split; [done|].
        rewrite Hc. f_equal. apply Hu1. set_solver.
    + intros k Hkk. rewrite (Hu k) by set_solver. apply Hu1. set_solver.
Qed.

(** ** Tried until it succeeds *)

(** deliveries of one batch, each leaving out what the one before it wrote; other
    work in between leaves these tables as they are *)
Inductive delivered_to (ts : list DatabaseTarget) : list string → SinkState → SinkState → Prop :=
| delivered_now skip s s' o :
    exec (deliver b ts rows op skip) s = Some (inr o, s') → success o = true → delivered_to ts skip s s'
| delivered_later skip s o s1 s2 s' :
    exec (deliver b ts rows op skip) s = Some (inr o, s1) → success o = false →
    (∀ k, committed (world s2) k = committed (world s1) k) →
    delivered_to ts (default [] (osucceededTargets o)) s2 s' → delivered_to ts skip s s'.

Lemma delivery_outcome ts skip s x s' : NoDup (targetKey <$> ts) → Forall inserts ts →
  exec (deliver b ts rows op skip) s = Some (x, s') →
  ∃ o ok, x = inr o ∧ ok ⊆ targetKey <$> ts ∧ (∀ k, k ∈ targetKey <$> ts → k ∈ skip → k ∈ ok) ∧
    (if success o then targetKey <$> ts ⊆ ok else osucceededTargets o = Some ok) ∧ did_write skip ok ts s s'.
Proof.
  intros Hnd Hins He. unfold deliver in He. rewrite exec_bind in He.
  destruct (exec (deliver_targets b rows op skip ts _) s) as [[y s1]|] eqn:H1; [|done].
  destruct (all_delivered _ _ _ _ _ _ Hnd Hins H1) as (r & ok & -> & Hs & Hok & Hk & Hf & Hw).
  cbn in He. injection He as <- <-. eexists _, ok. split_and!; [done..| |done]. cbn.
  destruct (firstError r); [by rewrite Hs|]. by apply Hf.
Qed.

Lemma delivered_once ts skip s s' : NoDup (targetKey <$> ts) → Forall inserts ts →
  delivered_to ts skip s s' →
  (∀ t, t ∈ ts → targetKey t ∉ skip →
     ∃ l, mapped_for t l ∧ committed (world s') (targetKey t) = committed (world s) (targetKey t) ++ l) ∧
  (∀ k, k ∈ skip ∨ k ∉ targetKey <$> ts → committed (world s') k = committed (world s) k).
Proof.
  intros Hnd Hins Hd. induction Hd as [skip s s' o He Ho|skip s o s1 s2 s' He Ho Hb Hd [IHw IHu]].
  - destruct (delivery_outcome _ _ _ _ _ Hnd Hins He) as (o' & ok & [= <-] & Hok & Hk & Hs & Hw & Hu).
    rewrite Ho in Hs. split; [|intros k Hkk; apply Hu; by right].
    intros t Hin Hnot. apply Hw; [done| |done]. apply Hs. by apply list_elem_of_fmap_2.
  - destruct (delivery_outcome _ _ _ _ _ Hnd Hins He) as (o' & ok & [= <-] & Hok & Hk & Hs & Hw & Hu).
    rewrite Ho in Hs. rewrite Hs in IHw, IHu. cbn [default from_option] in IHw, IHu. unfold id in IHw, IHu. split.
    + intros t Hin Hnot. destruct (decide (targetKey t ∈ ok)) as [Hyes|Hno].
      * destruct (Hw t Hin Hyes Hnot) as (l & Hl & Hc). exists l. split; [done|].
        rewrite (IHu (targetKey t)) by (by left). by rewrite Hb.
      * destruct (IHw t Hin Hno) as (l & Hl & Hc). exists l. split; [done|]. rewrite Hc, Hb.
        f_equal. apply Hu. by left.
    + intros k Hkk. rewrite IHu.
      * rewrite Hb. apply Hu. by right.
      * destruct (decide (k ∈ targetKey <$> ts)) as [Hin|Hin]; [|by right].
        destruct Hkk as [Hskip|]; [|done]. left. by apply Hk.
Qed.
End once.

Section claim.
Context `{JsHost} {W : Type} `{!Adapters W}.

End claim.

(** ** A small world *)

Record Tables := {
  table_of : string → list TargetRow;
  waiting : string → list TargetRow;
  open_on : string → bool;
  refusing : list string  (* tables whose next commit is refused *)
}.

Definition put_in {A} (k : string) (x : A) (f : string → A) : string → A :=
  λ k', if decide (k' = k) then x else f k'.

Definition refuse_once (t : DatabaseTarget) (w : Tables) : (string + unit) * Tables :=
  let k := targetKey t in
  if decide (k ∈ refusing w)
  then (inl "could not serialize access", {| table_of := table_of w; waiting := waiting w;
          open_on := put_in k false (open_on w); refusing := filter (λ c, c ≠ k) (refusing w) |})
  else (inr tt, {| table_of := add_rows k (waiting w k) (table_of w); waiting := waiting w;
          open_on := put_in k false (open_on w); refusing := refusing w |}).

Definition begin_on (t : DatabaseTarget) (w : Tables) : (string + unit) * Tables :=
  (inr tt, {| table_of := table_of w; waiting := put_in (targetKey t) [] (waiting w);
              open_on := put_in (targetKey t) true (open_on w); refusing := refusing w |}).

Definition insert_on (t : DatabaseTarget) (x : TargetRow) (w : Tables) : (string + option nat) * Tables :=
  (inr (Some 1), {| table_of := table_of w; waiting := put_in (targetKey t) (waiting w (targetKey t) ++ [x]) (waiting w);
                    open_on := open_on w; refusing := refusing w |}).

#[local] Instance small_adapters : Adapters Tables := {|
  receipt := unit;
  engine_of _ w := (inr postgres, w);
  source_schema _ w := (inl "no catalog", w);
  probe _ w := (inr true, w);
  create_table _ _ w := (inr tt, w);
  ensure_key_index _ := None;
  truncate_table _ w := (inr false, w);
  insert_rows _ := None;
  insert_row := insert_on;
  upsert_rows _ := None;
  upsert_row _ _ _ w := (inr None, w);
  update_row _ _ _ w := (inr None, w);
  delete_rows _ := None;
  delete_row _ _ w := (inr None, w);
  transactions _ := true;
  acquire _ w := (inr tt, w);
  begin_tx := begin_on;
  commit_tx := refuse_once;
  rollback_tx _ w := (inr tt, w);
  announce _ _ _ _ _ w := (tt, [], w);
  announce_truncate _ _ _ w := (tt, w);
  retract _ w := w;
  clock _ := 0%Z
|}.

Lemma small_laws : TransactionLaws table_of waiting open_on.
Proof.
  split; try done.
  - intros t w _. split; apply decide_True; done.
  - intros t x w Ho. split; [done|]. intros n _. split; [exact Ho|]. by apply decide_True.
  - intros t w Ho. cbn. unfold refuse_once. by case_decide.
Qed.

Definition target_on (table : string) : DatabaseTarget :=
  {| tconnectionId := "c"; tdatabase := None; tschema := None; ttable := table; writeMode := insert_only;
     keyColumns := []; mapping := []; createMissingTable := false; onDelete := BridgeConfig.delete_row;
     softDelete := None; redis := None |}.

Definition small_bridge (ts : list DatabaseTarget) : ResolvedBridge :=
  {| bid := "b";
     bsource := FromTable {| connectionId := "s"; database := None; schema := None; BridgeConfig.table := "t";
                             BridgeConfig.filters := None; BridgeConfig.sort := None |};
     bdestination := Database ts;
     btransform := {| payload := {| Template.template := "{{$row}}"; Template.fields := None;
                                    Template.rename := None; Template.wrapKey := None |}; columns := None |};
     bdelivery := default_delivery |}.

Definition two_targets : list DatabaseTarget := [target_on "x"; target_on "y"].
Definition two_rows : list Row :=
  [{| cols := [("id", VStr "1")]; origins := [] |}; {| cols := [("id", VStr "2")]; origins := [] |}].

Definition empty_tables (refusing : list string) : SinkState :=
  {| world := {| table_of := λ _, []; waiting := λ _, []; open_on := λ _, false; refusing := refusing |};
     ensured := []; sourceCols := ∅; converters := ∅ |}.


(** ** What the sink does not see *)

(** targets are told apart by their table alone: of two targets on one table, the
    one that failed is taken for the one that was written, and never written *)
Example second_target_on_a_table_is_skipped :
  let upper := {| tconnectionId := "c"; tdatabase := None; tschema := None; ttable := "x"; writeMode := insert_only;
                  keyColumns := []; mapping := [{| msource := "missing"; mtarget := "id" |}];
                  createMissingTable := false; onDelete := BridgeConfig.delete_row; softDelete := None; redis := None |} in
  let ts := [target_on "x"; upper] in
  ∃ o s', exec (deliver (small_bridge ts) ts two_rows None [targetKey (target_on "x")]) (empty_tables []) = Some (inr o, s') ∧
    success o = true ∧ table_of (world s') (targetKey upper) = [].
Proof. eexists _, _. split; [vm_compute; reflexivity|]. split; reflexivity. Qed.

(** a source whose catalog cannot be read the first time it is asked *)
#[local] Instance hesitant_adapters : Adapters bool := {|
  receipt := unit;
  engine_of c w := (inr (if decide (c = "s") then postgres else mysql), w);
  source_schema _ (w : bool) :=
    if w then (inl "connection timed out", false)
    else (inr [{| nname := "public"; ntables := [{| sname := "t"; sindexes := [];
            scolumns := [{| TableReader.cname := "at"; cnullable := true;
                            cnativeType := Some "timestamp with time zone"; cdataType := "timestamp" |}] |}] |}], false);
  probe _ w := (inr true, w);
  create_table _ _ w := (inr tt, w);
  ensure_key_index _ := None;
  truncate_table _ w := (inr false, w);
  insert_rows _ := None;
  insert_row _ _ w := (inr None, w);
  upsert_rows _ := None;
  upsert_row _ _ _ w := (inr None, w);
  update_row _ _ _ w := (inr None, w);
  delete_rows _ := None;
  delete_row _ _ w := (inr None, w);
  transactions _ := false;
  acquire _ w := (inr tt, w);
  begin_tx _ w := (inr tt, w);
  commit_tx _ w := (inr tt, w);
  rollback_tx _ w := (inr tt, w);
  announce _ _ _ _ _ w := (tt, [], w);
  announce_truncate _ _ _ w := (tt, w);
  retract _ w := w;
  clock _ := 0%Z
|}.

Definition fresh (w : bool) : SinkState := {| world := w; ensured := []; sourceCols := ∅; converters := ∅ |}.

Definition converts (s : SinkState (W := bool)) : option bool :=
  match exec (converterFor (small_bridge two_targets) (target_on "x")) s with
  | Some (inr c, _) => Some (match c with Some _ => true | None => false end)
  | _ => None
  end.

(** one failure to read the source's catalog, and rows are never converted again,
    though the catalog can be read from then on *)
Example conversion_is_lost_for_good :
  converts (fresh false) = Some true ∧
  ∃ s' : SinkState (W := bool),
    exec (converterFor (small_bridge two_targets) (target_on "x")) (fresh true) = Some (inr None, s') ∧
    world s' = false ∧ converts s' = Some false.
Proof.
  split; [vm_compute; reflexivity|]. eexists. split; [vm_compute; reflexivity|].
  split; [reflexivity|vm_compute; reflexivity].
Qed.
