(* ===== verification/Ledger.v ===== *)
(** The ledger of a job: one cell per delivery, and the counters the cells add up
    to ([apps/api/src/bridges/bridge-job.service.ts], [recordDelivery] and
    [recordNotice]).

    A cell is the row of the timeline without what only its presentation and a
    resend read (bodies, HTTP status, duration, operation, targets). *)
From S2P Require Import Prelude JsText JsNumber JsDate JsValue JsJson.
From S2P Require Import BridgeConfig TypeMap Bridge CdcState.

Abbreviation Cells := (gmap nat DeliveryRow).

Definition outcome_status (o : DeliveryOutcome) : delivery_status :=
  if success o then delivered_ok else delivered_failed.

(** the upsert of a cell: one that exists keeps the number of rows it was
    created with *)
Definition delivery_row (old : option DeliveryRow) (rowCount : nat) (keys : option (list jsval))
    (o : DeliveryOutcome) : DeliveryRow :=
  {| dstatus := outcome_status o;
     drowCount := match old with Some d => drowCount d | None => rowCount end;
     drowKeys := keys; dattempts := oattempts o; derror := oerror o |}.

(** the counters, by the delta: what the cell counted as is taken back *)
Definition counted (existing : option DeliveryRow) (rowCount : nat) (o : DeliveryOutcome)
    (c : Counters) : Counters :=
  let back st := match existing with
                 | Some d => if decide (dstatus d = st) then Z.of_nat (drowCount d) else 0%Z
                 | None => 0%Z
                 end in
  let n := Z.of_nat rowCount in
  {| sentCount := sentCount c - back delivered_ok + (if success o then n else 0);
     failedCount := failedCount c - back delivered_failed + (if success o then 0 else n);
     skippedCount := skippedCount c - back delivered_skipped |}.

(** [recordNotice]: a skipped cell of no rows; one that exists keeps its rows,
    and the counters are left alone *)
Definition notice_row (old : option DeliveryRow) (message : string) : DeliveryRow :=
  match old with
  | Some d => d {{ dstatus := delivered_skipped; derror := Some message }}
  | None => {| dstatus := delivered_skipped; drowCount := 0; drowKeys := None;
               dattempts := 0; derror := Some message |}
  end.

(** one call of [recordDelivery] that is not refused *)
Definition delivery_recorded (q rowCount : nat) (keys : option (list jsval)) (o : DeliveryOutcome)
    (l : Counters * Cells) : Counters * Cells :=
  (counted (l.2 !! q) rowCount o l.1, <[q := delivery_row (l.2 !! q) rowCount keys o]> l.2).

Definition notice_recorded (q : nat) (message : string) (l : Counters * Cells) : Counters * Cells :=
  (l.1, <[q := notice_row (l.2 !! q) message]> l.2).

(** ** The counters are the sums of the cells *)

Definition rows_of (st : delivery_status) (d : DeliveryRow) : Z :=
  if decide (dstatus d = st) then Z.of_nat (drowCount d) else 0%Z.

Definition rows_in (st : delivery_status) (m : Cells) : Z :=
  map_fold (λ _ d n, (rows_of st d + n)%Z) 0%Z m.

Definition counters_of (m : Cells) : Counters :=
  {| sentCount := rows_in delivered_ok m; failedCount := rows_in delivered_failed m;
     skippedCount := rows_in delivered_skipped m |}.

Definition balanced (l : Counters * Cells) : Prop := l.1 = counters_of l.2.

Lemma rows_in_delete st m q :
  rows_in st m = (match m !! q with Some d => rows_of st d | None => 0 end + rows_in st (delete q m))%Z.
Proof.
  destruct (m !! q) as [d|] eqn:Hq; [|by rewrite delete_id].
  unfold rows_in. rewrite (map_fold_delete_L _ _ q d m); [done|intros; lia|done].
Qed.

Lemma rows_in_insert st m q d :
  rows_in st (<[q := d]> m) =
  (rows_in st m - match m !! q with Some d => rows_of st d | None => 0 end + rows_of st d)%Z.
Proof.
  rewrite (rows_in_delete st (<[q := d]> m) q), lookup_insert_eq, delete_insert_eq.
  rewrite (rows_in_delete st m q). lia.
Qed.

(** the balance of one status, before and after a cell is written *)
Lemma counters_insert m q d :
  counters_of (<[q := d]> m) =
  let back st := match m !! q with Some d => rows_of st d | None => 0%Z end in
  {| sentCount := rows_in delivered_ok m - back delivered_ok + rows_of delivered_ok d;
     failedCount := rows_in delivered_failed m - back delivered_failed + rows_of delivered_failed d;
     skippedCount := rows_in delivered_skipped m - back delivered_skipped
                     + rows_of delivered_skipped d |}.
Proof. unfold counters_of. by rewrite !rows_in_insert. Qed.

Definition fits (old : option DeliveryRow) (rowCount : nat) : Prop :=
  match old with Some d => drowCount d = rowCount | None => True end.

(** C13. The counters of a job are the sums of its cells: recording a delivery
    keeps that exactly when the cell is new or already counts as many rows *)
Theorem delivery_recorded_balanced q n keys o l :
  balanced l → balanced (delivery_recorded q n keys o l) ↔ fits (l.2 !! q) n.
Proof.
  intros Hb. destruct l as [c m]. unfold balanced, delivery_recorded in *. cbn [fst snd] in *.
  subst c. rewrite counters_insert. unfold counted, delivery_row, outcome_status, rows_of, counters_of.
  destruct (m !! q) as [[[] dn ks a er]|]; destruct (success o); cbn -[rows_in];
    repeat case_decide; try done; (split; [intros Heq|intros Hf; f_equal; lia]); try done;
    pose proof (f_equal sentCount Heq) as Hs; pose proof (f_equal failedCount Heq) as Hf;
    cbn -[rows_in] in Hs, Hf; lia.
Qed.

Lemma sum_one_cell q d : counters_of {[q := d]} =
  {| sentCount := rows_of delivered_ok d; failedCount := rows_of delivered_failed d;
     skippedCount := rows_of delivered_skipped d |}.
Proof. unfold counters_of. rewrite <- insert_empty, !rows_in_insert. by rewrite lookup_empty. Qed.

(** A notice is written without touching the counters: they stay the sums of
    the cells exactly when the cell is new, was empty, or was already skipped *)
Theorem notice_recorded_balanced q message l :
  balanced l → balanced (notice_recorded q message l) ↔
    match l.2 !! q with
    | Some d => drowCount d = 0 ∨ dstatus d = delivered_skipped
    | None => True
    end.
Proof.
  intros Hb. destruct l as [c m]. unfold balanced, notice_recorded in *. cbn [fst snd] in *.
  subst c. rewrite counters_insert. unfold notice_row, rows_of, counters_of.
  destruct (m !! q) as [[[] n ks a er]|]; cbn -[rows_in]; repeat case_decide; try done; split;
    try (intros [Hd|Hd]); try done; try (f_equal; lia); auto; try (intros _; f_equal; lia); intros Heq; try left;
    pose proof (f_equal sentCount Heq) as Hs; pose proof (f_equal failedCount Heq) as Hf;
    cbn -[rows_in] in Hs, Hf; lia.
Qed.

(** ** A cell that is recorded again with another number of rows *)

Definition failed_three : Counters * Cells :=
  ({| sentCount := 0; failedCount := 3; skippedCount := 0 |},
   {[ 7 := {| dstatus := delivered_failed; drowCount := 3; drowKeys := None; dattempts := 1;
              derror := Some "HTTP 500" |} ]}).

Definition delivered_ok_outcome : DeliveryOutcome :=
  {| success := true; oattempts := 1; oerror := None; osucceededTargets := None |}.

(** the batch that failed with three rows is read again as one of two: two rows
    are counted as sent, the cell still says three *)
Example recount_is_off :
  let l := delivery_recorded 7 2 None delivered_ok_outcome failed_three in
  l.1 = {| sentCount := 2; failedCount := 0; skippedCount := 0 |} ∧
  drowCount <$> l.2 !! 7 = Some 3 ∧ ¬ balanced l.
Proof.
  split_and!; [done|done|]. vm_compute. intros [=].
Qed.

Lemma delivery_recorded_balanced_witness :
  balanced (delivery_recorded 7 3 None delivered_ok_outcome failed_three).
Proof. apply (delivery_recorded_balanced 7 3 None delivered_ok_outcome failed_three); done. Defined.

Lemma notice_recorded_balanced_witness :
  ¬ balanced (notice_recorded 7 "TRUNCATE was not applied" failed_three).
Proof.
  intros Hb. apply (notice_recorded_balanced 7 "TRUNCATE was not applied" failed_three eq_refl) in Hb.
  vm_compute in Hb. by destruct Hb.
Defined.
