(* ===== verification/Cdc.v ===== *)
(** The change pipeline of a live bridge
    ([apps/api/src/bridges/bridge-cdc.service.ts]).

    One definition per method, in the order and with the awaits of the source:
    what the source does between two awaits is one action. The timers and the
    promise chain that decide when a method runs are in [CdcSystem]. *)
From stdpp Require Import pretty sorting.
From S2P Require Import Prelude JsText JsNumber JsDate JsValue JsJson.
From S2P Require Import BridgeConfig ColumnTransforms FilterMatch TypeMap SchemaDrift.
From S2P Require Import Isolate Async Bridge CdcState Ledger.

Local Open Scope async_scope.

Section cdc.
Context `{JsHost} `{JsPrint} `{Outside}.
Context (bridge : BridgeInput) (config : RuntimeConfig) (provider : CdcProvider).

Abbreviation M A := (@async Sys A).

(** ** Constants, and what is fixed when a stream is opened *)

Definition DEAD_LETTER_CHUNK : nat := 500.
Definition SETTLE_ATTEMPTS : nat := 3.
Definition ISOLATION (batchError : string) (already : list string) : IsolationOptions :=
  {| Isolate.batchError := Some batchError; alreadySucceeded := already;
     Isolate.maxAttempts := 128; maxPoisoned := 100; failuresBeforeSystemic := 14 |}.

Definition GAP_ADVICE : string :=
  "Changes made at the source between that position and now can no longer be read. Start the bridge again and choose to continue from now, then run a replay to bring the destination up to date.".

Definition is_http (d : BridgeDestination) : bool :=
  match d with Http _ => true | Database _ => false end.

Definition maxBatch : Z :=
  match destination bridge with
  | Database _ => Z.max 1 (cdcBatchSize config)
  | Http _ => Z.max 1 (batchSize (delivery bridge))
  end.

Definition spooled : bool := cdcSpool config.

(** ** Calls of what is outside *)

(** a write to the metadata store: refused, or carried out *)
Definition store_call (f : Sys → Sys) : M unit :=
  call (λ s, let s1 := s {{ tick ::= S }} in
             match store_refuses (tick s) with
             | Some e => (inl e, s1)
             | None => (inr tt, f s1)
             end).

Definition store_query {A} (f : Sys → A) : M A :=
  call (λ s, let s1 := s {{ tick ::= S }} in
             match store_refuses (tick s) with
             | Some e => (inl e, s1)
             | None => (inr (f s1), s1)
             end).

Definition on_stream (f : Stream → Stream) : Sys → Sys := λ s, s {{ stream ::= f }}.

(** [.catch(() => undefined)] *)
Definition ignore (m : M unit) : M unit := catch m (λ _, Ret tt).

(** one call of [sink.deliver]; a throw is folded into an outcome *)
Definition sink_deliver (w : SinkWrite) (s : Sys) : DeliveryOutcome * Sys :=
  let o := match sink_answer (tick s) bridge w with
           | inl e => {| success := false; oattempts := 1; oerror := Some e;
                         osucceededTargets := None |}
           | inr o => o
           end in
  (o, s {{ tick ::= S; sinkLog ::= (λ l, l ++ [w {{ wdone := success o }}]) }}).

Definition attempt_write (rows : list Row) (o : option CdcOperation) (q : nat)
    (skipTargets : list string) (idempotencyKey : option string) : SinkWrite :=
  {| wrows := rows; wop := o; wstart := q; wskip := skipTargets; widem := idempotencyKey;
     wdone := false |}.

Definition attempt (rows : list Row) (o : option CdcOperation) (q : nat)
    (skipTargets : list string) (idempotencyKey : option string) : M DeliveryOutcome :=
  atomically (sink_deliver (attempt_write rows o q skipTargets idempotencyKey)).

(** ** Recording *)

Definition rowKeys (pk : option (list string)) (rows : list Row) : option (list jsval) :=
  match pk with
  | None | Some [] => None
  | Some [c] => Some ((λ r, obj_get (cols r) c) <$> rows)
  | Some cs => Some ((λ r, VArr ((λ c, obj_get (cols r) c) <$> cs)) <$> rows)
  end.

(** [jobs.recordDelivery]: what the cell holds is read, then cell and counters
    are written in one transaction *)
Definition recordDelivery (sequence rowCount : nat) (keys : option (list jsval))
    (o : DeliveryOutcome) : M unit :=
  let* existing := store_query (λ s, deliveries s !! sequence) in
  store_call (λ s, s {{ deliveries ::=
                          <[sequence := delivery_row (deliveries s !! sequence) rowCount keys o]>;
                        job -> counters ::= counted existing rowCount o }}).

Definition record (sequence : nat) (rows : list Row) (o : DeliveryOutcome) : M unit :=
  let* pk := read (λ s, primaryKey (stream s)) in
  recordDelivery sequence (List.length rows) (rowKeys pk rows) o.

(** [jobs.recordNotice] *)
Definition recordNotice (sequence : nat) (message : string) : M unit :=
  store_call (λ s, s {{ deliveries ::=
    <[sequence := notice_row (deliveries s !! sequence) message]> }}).

(** make progress durable, then let the source forget it. the job's row is
    written, and with the answer the stream's own position follows *)
Definition checkpoint (nextSeq : nat) (c : string) : M unit :=
  let* h := read (λ s, halted (stream s)) in
  if h then Ret tt else
  (store_call (λ s, s {{ job -> cursorOffset := nextSeq;
                         job -> cursorJson := Some (saved_cursor c);
                         stream -> seq := nextSeq;
                         stream -> watermark := Some c }}) ;;
   modify (λ s, if ack_lost (tick s) then s {{ tick ::= S }}
                else s {{ tick ::= S; acked ::= (λ l, l ++ [c]) }})).

(** [halt], with [finalize]; the teardown that follows is a step of its own *)
Definition halt (status : job_status) (message : string) : M unit :=
  let* already := atomically (λ s, (halted (stream s), s {{ stream -> halted := true }})) in
  if already then Ret tt
  else ignore (store_call (λ s, s {{ job -> jstatus := status; job -> jerror := Some message }})).

Fixpoint settle_attempts (n : nat) (work : M unit) (lastError : string) : M unit :=
  match n with
  | 0 => halt job_failed
      ("Stopped without advancing, so nothing is skipped: progress could not be saved (" +:+
       lastError +:+ "). Start the bridge again once the metadata store is reachable.")
  | S n =>
      let* h := read (λ s, halted (stream s)) in
      if h then Ret tt else
      let* failed := catch (work ;; Ret None) (λ e, Ret (Some e)) in
      match failed with
      | None => Ret tt
      | Some e => settle_attempts n work e
      end
  end.

Definition settle (work : M unit) : M unit :=
  settle_attempts SETTLE_ATTEMPTS work EmptyString.

(** ** A batch that failed *)

(** [deadLetters.pendingRows] *)
Definition pendingRows (dls : list DeadLetter) : nat :=
  sum_list_with (λ d, if decide (dlStatus d = pending) then List.length (dlRows d) else 0) dls.

(** [deadLetters.park], one transaction *)
Definition parked (entries : list DeadLetter) (replaceFrom : nat) (dls : list DeadLetter)
  : list DeadLetter :=
  match entries with
  | [] => dls
  | _ => filter (λ d, ¬ (dlStatus d = pending ∧ replaceFrom ≤ dlSequence d)) dls ++ entries
  end.

Definition park (entries : list DeadLetter) (replaceFrom : nat) : M unit :=
  match entries with
  | [] => Ret tt
  | _ => store_call (λ s, s {{ deadLetters ::= parked entries replaceFrom }})
  end.

Record FailedPart := { frows : list Row; ferror : string; fsucceeded : list string }.

Fixpoint chunks (fuel : nat) (rows : list Row) : list (list Row) :=
  match fuel, rows with
  | S fuel, _ :: _ => take DEAD_LETTER_CHUNK rows :: chunks fuel (drop DEAD_LETTER_CHUNK rows)
  | _, _ => []
  end.

Definition canIsolate (rows : list Row) : bool :=
  match destination bridge with
  | Database targets =>
      (1 <? List.length rows) &&
      forallb (λ t, negb (bool_decide (writeMode t = insert_only))) targets
  | Http _ => false
  end.

(** the isolating attempts all go to the sink, one after the other *)
Definition isolation_attempt (o : option CdcOperation) (q : nat) (s : Sys) (part : list Row)
    (skipTargets : list string) : IsolationAttempt * Sys :=
  let (r, s') := sink_deliver (attempt_write part o q skipTargets None) s in
  ({| ok := success r; error := oerror r;
      succeededTargets := default [] (osucceededTargets r) |}, s').

Definition isolate (rows : list Row) (o : option CdcOperation) (q : nat) (reason : string)
    (already : list string) (s : Sys) : IsolationResult * Sys :=
  default (empty_result, s)
    (isolateFailures (isolation_attempt o q) (ISOLATION reason already)
       (2 * List.length rows) s rows).

(** the success record for rows that landed during isolation *)
Definition recovered (attempts : nat) : DeliveryOutcome :=
  {| success := true; oattempts := attempts; oerror := None; osucceededTargets := None |}.

(** where the rows of a failed batch are told apart: delivered after all,
    the failed parts and the attempts it took, or why the batch is not divided *)
Definition tell_apart (rows : list Row) (o : option CdcOperation) (q : nat)
    (outcome : DeliveryOutcome) (reason : string)
  : M (list Row * list FailedPart * nat + string) :=
  let already := default [] (osucceededTargets outcome) in
  if canIsolate rows then
    let* found := atomically (isolate rows o q reason already) in
    if Isolate.systemic found then
      Ret (inr ("Stopped without advancing: this is not a few bad rows — " +:+
                default "undefined" (Isolate.reason found) +:+
                ". Fix the destination and start the bridge again; the batch will be retried."))
    else
      Ret (inl (Isolate.delivered found,
                (λ p, {| frows := [prow p]; ferror := perror p; fsucceeded := psucceeded p |})
                  <$> Isolate.poisoned found,
                oattempts outcome + Isolate.attempts found))
  else
    Ret (inl ([], (λ c, {| frows := c; ferror := reason; fsucceeded := already |})
                    <$> chunks (List.length rows) rows,
              oattempts outcome)).

Definition dead_letter (q : nat) (o : option CdcOperation) (c : string) (f : FailedPart)
  : DeadLetter :=
  {| dlSequence := q; dlOp := o; dlRows := frows f; dlCursor := c; dlError := ferror f;
     dlSucceeded := fsucceeded f; dlStatus := pending |}.

Definition failed_rows (failed : list FailedPart) : list Row := failed ≫= frows.

(** [stop]: recorded at [seq], which is not consumed *)
Definition stop_batch (q : nat) (rows : list Row) (outcome : DeliveryOutcome) (message : string)
  : M (option nat) :=
  record q rows outcome ;; halt job_paused message ;; Ret None.

(** park first, record second: what carrying on takes *)
Definition set_aside (q : nat) (o : option CdcOperation) (c : string) (outcome : DeliveryOutcome)
    (delivered : list Row) (failed : list FailedPart) (attempts : nat) : M (option nat) :=
  let failedSeq := match delivered with [] => q | _ => S q end in
  let allFailed := failed_rows failed in
  let n := List.length allFailed in
  park (dead_letter failedSeq o c <$> failed) q ;;
  (match delivered with
   | [] => Ret tt
   | _ => record q delivered (recovered attempts)
   end) ;;
  record failedSeq allFailed
    {| success := false; oattempts := attempts;
       oerror := Some (match failed with f :: _ => ferror f | [] => EmptyString end
                       +:+ " — " +:+ pretty n +:+ " row" +:+
                       (if n =? 1 then EmptyString else "s") +:+
                       " moved to the dead-letter queue");
       osucceededTargets := None |} ;;
  Ret (Some (S failedSeq)).

(** [None]: the bridge was stopped. otherwise the sequence to go on from *)
Definition handleFailedBatch (rows : list Row) (o : option CdcOperation) (q : nat) (c : string)
    (outcome : DeliveryOutcome) : M (option nat) :=
  let reason := default "delivery failed" (oerror outcome) in
  let stop := stop_batch q rows outcome in
  if bool_decide (onError (delivery bridge) = abort_on_error) then
    stop ("Paused after a failed delivery (onError=abort): " +:+ reason)
  else
    let* apart := tell_apart rows o q outcome reason in
    match apart with
    | inr message => stop message
    | inl (delivered, [], attempts) =>
        modify (on_stream (λ st, st {{ consecutiveFailures := 0 }})) ;;
        record q rows (recovered attempts) ;;
        Ret (Some (S q))
    | inl (delivered, failed, attempts) =>
        let* row := atomically (λ s,
          let n := match delivered with [] => S (consecutiveFailures (stream s)) | _ => 0 end in
          (n, s {{ stream -> consecutiveFailures := n }})) in
        if maxConsecutiveFailures config <=? row then
          stop ("Stopped without advancing: " +:+ pretty row +:+
                " batches in a row delivered nothing, which points at the destination rather than the rows. Last error: "
                +:+ reason)
        else
          let* held := store_query (λ s, pendingRows (deadLetters s)) in
          if deadLetterMaxRows config <? held + List.length (failed_rows failed) then
            stop ("Stopped without advancing: the dead-letter queue is full (" +:+ pretty held
                  +:+ " rows waiting, limit " +:+ pretty (deadLetterMaxRows config) +:+
                  "). Retry or discard them, then start the bridge again. Last error: " +:+ reason)
          else set_aside q o c outcome delivered failed attempts
    end.

(** ** The spool *)

(** the reader may hand more over: the bridge is gone, the spool has room, or
    how much it holds cannot be told *)
Definition spool_has_room (s : Sys) : bool :=
  negb (registered (stream s)) || (List.length (spool s) <? cdcSpoolMax config) ||
  bool_decide (is_Some (spool_refuses (tick s))).

Definition spool_call (f : Sys → Sys) : M unit :=
  call (λ s, let s1 := s {{ tick ::= S }} in
             match spool_refuses (tick s) with
             | Some e => (inl e, s1)
             | None => (inr tt, f s1)
             end).

(** [spool.append]: each entry under the next stream id *)
Definition append (entries : list SpoolEntry) (s : Sys) : Sys :=
  s {{ spool ::= (λ q, q ++ imap (λ i e, {| CdcState.sid := CdcState.nextId s + i; entry := e |})
                                 entries);
       CdcState.nextId ::= Nat.add (List.length entries) }}.

(** every command of the pipeline is sent: where the call fails, some may have been
    carried out *)
Definition append_call (entries : list SpoolEntry) : M unit :=
  call (λ s, let s1 := s {{ tick ::= S }} in
             match spool_refuses (tick s) with
             | Some e => (inl e, append (snd <$> filter (λ ie, spool_takes (tick s) ie.1 = true)
                                                        (imap pair entries)) s1)
             | None => (inr tt, append entries s1)
             end).

(** [spool.trimThrough] *)
Definition trimThrough (lastId : nat) (s : Sys) : Sys :=
  s {{ spool ::= filter (λ i, lastId < CdcState.sid i) }}.

Fixpoint append_attempts (n : nat) (entries : list SpoolEntry) : M bool :=
  match n with
  | 0 => Ret false
  | S n =>
      let* failed := catch (append_call entries ;; Ret None) (λ e, Ret (Some e)) in
      match failed, n with
      | None, _ => Ret true
      | Some e, 0 =>
          halt job_failed ("Spool unavailable, stopped without advancing the cursor so nothing is lost: "
                           +:+ e) ;; Ret false
      | Some _, S _ => append_attempts n entries
      end
  end.

Definition spoolBatch (entries : list SpoolEntry) (lastCursor : string) : M unit :=
  wait_for spool_has_room ;;
  let* go := read (λ s, registered (stream s) && negb (halted (stream s))) in
  if negb go then Ret tt else
  let* appended := match entries with [] => Ret true | _ => append_attempts 3 entries end in
  if negb appended then Ret tt else
  (modify (on_stream (λ st, st {{ watermark := Some lastCursor }})) ;;
   ignore (
     store_call (λ s, s {{ job -> cursorJson := Some (saved_cursor lastCursor) }}) ;;
     modify (λ s, if ack_lost (tick s) then s {{ tick ::= S }}
                  else s {{ tick ::= S; acked ::= (λ l, l ++ [lastCursor]) }}))).

(** ** Delivering a batch *)

Definition idempotency_key (jobId : string) (c : string) : option string :=
  match destination bridge with
  | Http h => if idempotency h then Some (jobId +:+ ":" +:+ c) else None
  | Database _ => None
  end.

Context (jobId : string).

(** what follows the delivery of [rows], wherever its progress is kept *)
Definition settle_delivery (rows : list Row) (o : option CdcOperation) (q : nat) (c : string)
    (outcome : DeliveryOutcome) (advance : nat → M unit) : M unit :=
  settle (
    if success outcome then
      record q rows outcome ;;
      modify (on_stream (λ st, st {{ consecutiveFailures := 0 }})) ;;
      advance (S q)
    else
      let* next := handleFailedBatch rows o q c outcome in
      match next with
      | Some n => advance n
      | None => Ret tt
      end).

Definition spool_entry (i : Buffered) : SpoolEntry :=
  {| sop := spool_change (op (change i)); srow := brow i; scursor := ccursor (change i) |}.

Definition deliverBatch (b : Batch) : M unit :=
  let* h := read (λ s, halted (stream s)) in
  if h then Ret tt else
  match source bridge with
  | FromQuery _ => Ret tt
  | FromTable _ =>
      if spooled then spoolBatch (spool_entry <$> items b) (reach b) else
      match items b with
      | [] => settle (let* q := read (λ s, seq (stream s)) in checkpoint q (reach b))
      | _ =>
          let rows := brow <$> items b in
          let* q := read (λ s, seq (stream s)) in
          let* outcome := attempt rows (batchOp b) q [] (idempotency_key jobId (reach b)) in
          settle_delivery rows (batchOp b) q (reach b) outcome
            (λ n, checkpoint n (reach b))
      end
  end.

(** ** The pending batch *)

Definition cleared (s : Sys) : Sys :=
  s {{ stream -> tailCursor := None; stream -> buffer := []; stream -> bufferKeys := [];
       stream -> bufferOp := None; stream -> byteCappedBatch := None }}.

(** the pending batch leaves: [stream.inflight = this.deliverBatch(...)] *)
Definition take_batch (s : Sys) : Sys :=
  let st := stream s in
  match tailCursor st with
  | Some t =>
      if negb (registered st) || halted st then s
      else cleared s {{ stream -> inflight :=
             Some {| items := buffer st; batchOp := bufferOp st; reach := t |} }}
  | None => s
  end.

Definition nothing_in_flight (s : Sys) : bool :=
  bool_decide (inflight (stream s) = None).

Definition flush : M unit :=
  let* go := atomically (λ s,
    (bool_decide (tailCursor (stream s) ≠ None) && negb (halted (stream s)),
     s {{ stream -> timerFor := None }})) in
  if go then Act nothing_in_flight (λ s, (tt, take_batch s)) Ret else Ret tt.

(** arms the linger timer, or cuts a longer one short *)
Definition scheduleFlush (s : Sys) : Sys :=
  let want := match buffer (stream s) with [] => for_position | _ => for_rows end in
  match timerFor (stream s) with
  | Some f => if bool_decide (f = want ∨ f = for_rows) then s
              else s {{ stream -> timerFor := Some want }}
  | None => s {{ stream -> timerFor := Some want }}
  end.

Definition or_else {A} (a b : option A) : option A :=
  match a with Some _ => a | None => b end.

Definition note_position (c : string) (s : Sys) : Sys :=
  let st := stream s in
  if negb (registered st) || halted st then s
  else if negb (cursorAfter provider c (or_else (tailCursor st) (watermark st))) then s
  else scheduleFlush (s {{ stream -> tailCursor := Some c }}).

Definition notePosition (c : string) : M unit := modify (note_position c).

Definition keySignature (pk : option (list string)) (row : Row) : option string :=
  match pk with
  | None | Some [] => None
  | Some cs => match stringify (VArr ((λ c, obj_get (cols row) c) <$> cs)) with
               | JText t => Some t
               | _ => None
               end
  end.

(** [alive]: the stream is still this bridge's, and nothing has stopped it *)
Definition alive (s : Sys) : bool := registered (stream s) && negb (halted (stream s)).

(** ** Completing a row that came without its unchanged columns *)

Fixpoint whole_value_search (targets : list DatabaseTarget) (found : bool) : M bool :=
  match targets with
  | [] => Ret found
  | t :: ts =>
      let* e := atomically (λ s, (engine_answer (tick s) (tconnectionId t), s {{ tick ::= S }})) in
      whole_value_search ts
        (match e with
         | inr en => found || bool_decide (en = redis_engine)
         | inl _ => true
         end)
  end.

Definition hasWholeValueTarget : M bool :=
  let* known := read (λ s, wholeValueTarget (stream s)) in
  match known with
  | Some b => Ret b
  | None =>
      let* found := match destination bridge with
                    | Database targets => whole_value_search targets false
                    | Http _ => Ret false
                    end in
      modify (on_stream (λ st, st {{ wholeValueTarget := Some found }})) ;; Ret found
  end.

Definition unchanged_columns (row : Row) : list string :=
  omap (λ kv, if is_unchanged kv.2 then Some kv.1 else None) (cols row).

(** [Object.fromEntries(Object.entries(row).filter(...))], a new row *)
Definition without_unchanged (row : Row) : Row :=
  {| cols := filter (λ kv, is_unchanged kv.2 = false) (cols row); origins := [] |}.

Definition sendable (row : Row) : Row :=
  if is_http (destination bridge) then without_unchanged row else row.

Definition usable_key (pk : option (list string)) (row : Row) : option (list string) :=
  match pk with
  | None | Some [] => None
  | Some cs =>
      if existsb (λ c, is_nil (obj_get (cols row) c) || is_unchanged (obj_get (cols row) c)) cs
      then None else Some cs
  end.

(** the columns that were missing, from the row as it is now *)
Definition fill (row : Row) (current : obj) (missing : list string) : Row :=
  {| cols := foldl (λ o c, if has_own current c then obj_set o c (obj_get current c) else o)
                   (cols row) missing;
     origins := origins row |}.

Fixpoint read_back (n : nat) (row : Row) (key missing : list string) : M (option Row) :=
  match n with
  | 0 => Ret None
  | S n =>
      let* page := atomically (λ s,
        (browse_answer (tick s) ((λ c, (c, obj_get (cols row) c)) <$> key), s {{ tick ::= S }})) in
      match page with
      | inr None => Ret (Some (sendable row))
      | inr (Some current) => Ret (Some (sendable (fill row current missing)))
      | inl e =>
          let* go := read alive in
          if negb go then Ret None else
          match n with
          | 0 =>
              halt job_failed
                ("Could not read a row back from the source to complete a change, stopped without advancing the cursor so nothing is lost: "
                 +:+ e) ;; Ret None
          | S _ => read_back n row key missing
          end
      end
  end.

Definition completeRow (src : TableSource) (c : CdcChange) : M (option Row) :=
  let row := crow c in
  let missing := unchanged_columns row in
  let known :=
    keyChanged c || is_http (destination bridge) ||
    existsb (λ f, bool_decide (fcolumn f ∈ missing)) (default [] (filters src)) ||
    existsb (λ x, bool_decide (x ∈ missing)) (columnsRead (columns (transform bridge))) in
  let* needed := if known then Ret true else hasWholeValueTarget in
  if negb needed then Ret (Some row) else
  let* pk := read (λ s, primaryKey (stream s)) in
  match usable_key pk row with
  | None => Ret (Some (sendable row))
  | Some key => read_back 3 row key missing
  end.

(** ** Taking a change in *)

Definition with_row (c : CdcChange) (r : Row) : CdcChange := c {{ crow := r }}.

(** does a source of this engine have columns that can drift at all? *)
Definition tracksSchema (e : DatabaseEngine) : bool :=
  match e with postgres | mysql | sqlite => true | mongodb | redis_engine => false end.

Definition NUL : ascii := ascii_of_N 0.

Definition column_signature (row : Row) : string :=
  join (String NUL EmptyString) (merge_sort str_le (obj_keys (cols row))).

(** a row whose columns are not the last row's: [false] = the row is not taken *)
Definition check_columns (c : CdcChange) : M bool :=
  if bool_decide (op c ≠ op_delete) && tracksSchema (engine provider) then
    let signature := column_signature (crow c) in
    let keep := modify (on_stream (λ st, st {{ columnSignature := Some signature }})) ;; Ret true in
    let* old := read (λ s, columnSignature (stream s)) in
    if bool_decide (old ≠ None ∧ old ≠ Some signature) then
      let* verdict := call (λ s, (drift_answer (tick s), s {{ tick ::= S }})) in
      let* go := read alive in
      if negb go then Ret false else
      match verdict with
      | Some why =>
          flush ;; wait_for nothing_in_flight ;; halt job_failed why ;; Ret false
      | None => keep
      end
    else keep
  else Ret true.

Definition conflicts (o : CdcOperation) (sig : option string) (st : Stream) : bool :=
  match buffer st with
  | [] => false
  | _ => bool_decide (bufferOp st ≠ Some o) ||
         match sig with Some k => bool_decide (k ∈ bufferKeys st) | None => false end
  end.

(** one measurement per batch *)
Definition byte_cap (row : Row) : option Z :=
  match stringify (VObj (cols row)) with
  | JText t =>
      let bytes := Z.of_nat (str_length t) in
      if (0 <? bytes)%Z then Some (Z.max 1 (cdcBatchBytes config / bytes)) else None
  | _ => None
  end.

Definition limit (st : Stream) : Z := Z.min maxBatch (default maxBatch (byteCappedBatch st)).

(** the change joins the pending batch; [true] = the batch is complete *)
Definition push (c : CdcChange) (sig : option string) (s : Sys) : bool * Sys :=
  let s1 := match buffer (stream s) with
            | [] => s {{ stream -> byteCappedBatch := byte_cap (crow c) }}
            | _ => s
            end in
  let s2 := s1 {{ stream -> buffer ::= (λ l, l ++ [{| change := c; brow := crow c; keySig := sig |}]);
                  stream -> tailCursor := Some (ccursor c);
                  stream -> bufferOp := Some (op c);
                  stream -> bufferKeys ::= (λ l, match sig with Some k => set_add l k | None => l end) }} in
  if (limit (stream s2) <=? Z.of_nat (List.length (buffer (stream s2))))%Z
  then (true, s2) else (false, scheduleFlush s2).

Definition join_batch (c : CdcChange) : M unit :=
  let* sig := read (λ s, keySignature (primaryKey (stream s)) (crow c)) in
  let* clash := read (λ s, conflicts (op c) sig (stream s)) in
  let* go := (if clash then flush ;; read (λ s, registered (stream s)) else Ret true) in
  if negb go then Ret tt else
  let* full := atomically (push c sig) in
  if full then flush else Ret tt.

(** a truncate carries no row, and nothing may share its batch *)
Definition push_truncate (c : CdcChange) (origins : list string) (s : Sys) : Sys :=
  s {{ stream -> buffer ::= (λ l, l ++
         [{| change := c; brow := withOrigins {| cols := []; origins := [] |} origins;
             keySig := None |}]);
       stream -> tailCursor := Some (ccursor c);
       stream -> bufferOp := Some (op c) }}.

Definition accept_truncate (c : CdcChange) : M unit :=
  flush ;;
  let* go := read alive in
  if negb go then Ret tt else
  let* emptied := atomically (λ s, (truncate_answer (tick s), s {{ tick ::= S }})) in
  let* go := read alive in
  if negb go then Ret tt else
  let* dropped := (if echo emptied
                   then atomically (λ s, (echo_dropped (tick s) emptied, s {{ tick ::= S }}))
                   else Ret false) in
  if dropped then notePosition (ccursor c)
  else (modify (push_truncate c (eorigins emptied)) ;; flush).

Definition filtered_out (src : TableSource) (c : CdcChange) : bool :=
  negb (handlesSourceFilters provider) &&
  negb (rowMatchesFilters (cols (crow c)) (filters src)
          {| passMissingColumns := bool_decide (op c = op_delete) |}).

(** this instance's own write coming back is dropped, or sent on with where it
    has been; any other change joins the batch *)
Definition accept_row (c : CdcChange) : M unit :=
  let* verdict := atomically (λ s, (echo_answer (tick s) (op c) (crow c), s {{ tick ::= S }})) in
  if echo verdict then
    let* go := read alive in
    if negb go then Ret tt else
    let* dropped := atomically (λ s, (echo_dropped (tick s) verdict, s {{ tick ::= S }})) in
    if dropped then notePosition (ccursor c)
    else join_batch (with_row c (withOrigins (crow c) (eorigins verdict)))
  else join_batch c.

Definition accept (c : CdcChange) : M unit :=
  match source bridge with
  | FromQuery _ => Ret tt
  | FromTable src =>
      let* go := read (λ s, alive s && cursorAfter provider (ccursor c) (watermark (stream s))) in
      if negb go then Ret tt else
      if bool_decide (op c = op_truncate) then accept_truncate c else
      let* row := (if existsb (λ kv, is_unchanged kv.2) (cols (crow c)) then completeRow src c
                   else Ret (Some (crow c))) in
      match row with
      | None => Ret tt
      | Some r =>
          let c := with_row c r in
          let* go := check_columns c in
          if negb go then Ret tt
          else if filtered_out src c then notePosition (ccursor c)
          else accept_row c
      end
  end.

(** ** The other signals of a provider *)

Definition handleNotice (message c : string) : M unit :=
  let* go := read (λ s, alive s && cursorAfter provider c (watermark (stream s))) in
  if negb go then Ret tt else
  flush ;; wait_for nothing_in_flight ;;
  let* go := read alive in
  if negb go then Ret tt else
  if spooled then
    spoolBatch [{| sop := spool_notice;
                   srow := {| cols := [("message", VStr message)]; origins := [] |};
                   scursor := c |}] c
  else
    settle (let* q := read (λ s, seq (stream s)) in
            recordNotice q message ;; checkpoint (S q) c).

Definition handleFatal (message : string) : M unit :=
  let* go := read alive in
  if negb go then Ret tt else
  flush ;; wait_for nothing_in_flight ;; halt job_failed message.

Definition handlePositionLost (message : string) : M unit :=
  let* go := read alive in
  if negb go then Ret tt else
  flush ;; wait_for nothing_in_flight ;;
  let* go := read alive in
  if negb go then Ret tt else
  let lost := message +:+ " " +:+ GAP_ADVICE in
  ignore (store_call (λ s, s {{ job -> cursorJson := Some (saved_lost (watermark (stream s)) lost) }})) ;;
  halt job_failed lost.

(** ** Draining the spool *)

(** what a key is compared by; here nothing catches a key that has no JSON *)
Definition run_signature (pk : option (list string)) (row : Row) : option (option string) :=
  match pk with
  | None | Some [] => Some None
  | Some cs => match stringify (VArr ((λ c, obj_get (cols row) c) <$> cs)) with
               | JText t => Some (Some t)
               | _ => None
               end
  end.

(** a truncate or a notice is never part of a larger delivery *)
Definition alone (o : SpoolOp) : bool :=
  bool_decide (o = spool_change op_truncate ∨ o = spool_notice).

Record Runs := {
  runs : list (list SpooledItem);
  current : list SpooledItem;
  currentOp : option SpoolOp;
  seen : list string
}.

Definition run_item (sig : option string) (item : SpooledItem) (r : Runs) : Runs :=
  let o := sop (entry item) in
  let breaks := negb (bool_decide (current r = [])) &&
    (bool_decide (currentOp r ≠ Some o) || alone o ||
     match sig with Some k => bool_decide (k ∈ seen r) | None => false end) in
  let r1 := if breaks
            then {| runs := runs r ++ [current r]; current := []; currentOp := currentOp r; seen := [] |}
            else r in
  {| runs := runs r1; current := current r1 ++ [item]; currentOp := Some o;
     seen := match sig with Some k => set_add (seen r1) k | None => seen r1 end |}.

Fixpoint run_items (pk : option (list string)) (its : list SpooledItem) (r : Runs) : option Runs :=
  match its with
  | [] => Some r
  | i :: its =>
      match run_signature pk (srow (entry i)) with
      | Some sig => run_items pk its (run_item sig i r)
      | None => None
      end
  end.

Definition deliverableRuns (pk : option (list string)) (its : list SpooledItem)
  : option (list (list SpooledItem)) :=
  (λ r, match current r with [] => runs r | c => runs r ++ [c] end)
    <$> run_items pk its {| runs := []; current := []; currentOp := None; seen := [] |}.

(** the position saved for a spooled run: trimmed first, then the sequence *)
Definition advance_spool (lastId n : nat) : M unit :=
  spool_call (trimThrough lastId) ;;
  store_call (λ s, s {{ job -> cursorOffset := n; stream -> seq := n }}).

Definition notice_text (row : Row) : string :=
  match obj_get (cols row) "message" with
  | VUndef | VNull => EmptyString
  | VStr t => t
  | v => prim_text v
  end.

(** [true] = stop *)
Definition deliverSpooled (run : list SpooledItem) : M bool :=
  match source bridge, run, last run with
  | FromTable _, first :: _, Some end_ =>
      let rows := (λ i, srow (entry i)) <$> run in
      let lastId := CdcState.sid end_ in
      let* q := read (λ s, seq (stream s)) in
      (match sop (entry first) with
       | spool_notice =>
           settle (recordNotice q (notice_text (srow (entry first))) ;;
                   advance_spool lastId (S q))
       | spool_change o =>
           let* outcome := attempt rows (Some o) q []
                             (idempotency_key jobId (scursor (entry end_))) in
           settle_delivery rows (Some o) q (scursor (entry end_)) outcome (advance_spool lastId)
       end) ;;
      read (λ s, halted (stream s))
  | _, _, _ => Ret true
  end.

Fixpoint deliver_runs (rs : list (list SpooledItem)) : M bool :=
  match rs with
  | [] => Ret false
  | r :: rs =>
      let* stop := read (λ s, consumerStop (stream s) || halted (stream s)) in
      if stop then Ret true else
      let* aborted := deliverSpooled r in
      if aborted then Ret true else deliver_runs rs
  end.

(** [spool.read]: an entry that cannot be read back is deleted, unless that fails too *)
Definition discard (s : Sys) (i : SpooledItem) : Sys :=
  if spool_malformed (CdcState.sid i) then
    let s1 := s {{ tick ::= S }} in
    match spool_refuses (tick s) with
    | Some _ => s1
    | None => s1 {{ spool ::= filter (λ x, CdcState.sid x ≠ CdcState.sid i) }}
    end
  else s.

Definition read_spool (n : nat) (s : Sys) : list SpooledItem * Sys :=
  let raw := take n (spool s) in
  (filter (λ i, spool_malformed (CdcState.sid i) = false) raw, foldl discard s raw).

(** one round of the consumer's loop; [true] = the consumer has ended *)
Definition consumer_round : M bool :=
  let* stop := read (λ s, consumerStop (stream s) || halted (stream s)) in
  if stop then Ret true else
  let* its := catch (let* its := call (λ s,
                        let s1 := s {{ tick ::= S }} in
                        match spool_refuses (tick s) with
                        | Some e => (inl e, s1)
                        | None => let (its, s2) := read_spool (Z.to_nat maxBatch) s1 in (inr its, s2)
                        end) in Ret its)
                    (λ _, Ret []) in
  let* pk := read (λ s, primaryKey (stream s)) in
  match deliverableRuns pk its with
  | None => Throw "Do not know how to serialize a BigInt"
  | Some rs => deliver_runs rs
  end.

(** ** Opening a stream *)

(** [beginStream]: the stream is built from the job's row alone *)
Definition beginStream (pk : option (list string)) (s : Sys) : Sys :=
  s {{ stream :=
    {| seq := cursorOffset (job s); watermark := readCursor (cursorJson (job s));
       primaryKey := pk; buffer := []; bufferOp := None; bufferKeys := [];
       tailCursor := None; timerFor := None; byteCappedBatch := None; inflight := None;
       consumerStop := false; halted := false; consecutiveFailures := 0;
       wholeValueTarget := None; columnSignature := None; registered := true |};
    job -> jstatus := job_running; job -> jerror := None }}.
End cdc.
