(* ===== verification/CdcSystem.v ===== *)
(** A live bridge running: the promise chain that handles what the provider
    hands over, the one delivery that is written meanwhile, the linger timer,
    whoever clears the dead-letter queue, and a process that may die and start
    again at any moment ([apps/api/src/bridges/bridge-cdc.service.ts]).

    What a source has to say is its [log]: events in the order of the source,
    each with its position. A provider hands the log over in order; after a
    reconnect it may go back, and hand over again what it already did. *)
From S2P Require Import Prelude JsText JsNumber JsDate JsValue JsJson.
From S2P Require Import BridgeConfig ColumnTransforms FilterMatch TypeMap SchemaDrift.
From S2P Require Import Isolate Async Bridge CdcState Ledger Cdc.

Local Open Scope async_scope.

Inductive LogEvent :=
| EvChange (c : CdcChange)
| EvSkip (c : string)
| EvNotice (message c : string).

Definition event_cursor (e : LogEvent) : string :=
  match e with EvChange c => ccursor c | EvSkip c => c | EvNotice _ c => c end.

(** one bridge in one process. [taken]: every event before it has been handled
    by the chain *)
Record Process := {
  sys : Sys;
  handler : option (option nat * @async Sys unit);
  writer : option (@async Sys unit);
  taken : nat;
  dueFlushes : nat
}.

Section system.
Context `{JsHost} `{JsPrint} `{Outside}.
Context (bridge : BridgeInput) (config : RuntimeConfig) (provider : CdcProvider) (jobId : string).
Context (log : list LogEvent).

(** [handleChange], [handleSkip] and [handleNotice], on the chain *)
Definition handle (e : LogEvent) : @async Sys unit :=
  match e with
  | EvChange c => accept bridge config provider c
  | EvSkip c => notePosition provider c
  | EvNotice m c => handleNotice config provider m c
  end.

Definition ended (m : @async Sys unit) : bool :=
  match m with Ret _ | Throw _ => true | Act _ _ _ => false end.

(** a batch that was put in flight starts being written *)
Definition started (s s' : Sys) (w : option (@async Sys unit)) : option (@async Sys unit) :=
  match inflight (stream s), inflight (stream s') with
  | None, Some b => Some (deliverBatch bridge config jobId b)
  | _, _ => w
  end.

(** a dead letter that somebody retried with success, or gave up on *)
Definition clear_letter (i : nat) (to : dead_letter_status) (s : Sys) : Sys :=
  s {{ deadLetters ::= alter (λ d, d {{ dlStatus := to }}) i }}.

(** where a provider may start from: without a saved position at the first
    event, with one no later than behind it *)
Definition resumes_at (s : Sys) (t : nat) : Prop :=
  match readCursor (cursorJson (job s)) with
  | None => t = 0
  | Some c => ∀ d e, log !! d = Some e → event_cursor e = c → t ≤ S d
  end.

Inductive step (p : Process) : Process → Prop :=
| step_event j e :
    handler p = None → registered (stream (sys p)) = true → j ≤ taken p → log !! j = Some e →
    step p (p {{ handler := Some (Some j, handle e) }})
| step_handler j g R (f : Sys → R * Sys) k :
    handler p = Some (j, Act g f k) → g (sys p) = true →
    step p (p {{ sys := (f (sys p)).2; handler := Some (j, k (f (sys p)).1);
                 writer ::= started (sys p) (f (sys p)).2 }})
| step_handled j m :
    handler p = Some (j, m) → ended m = true →
    step p (p {{ handler := None;
                 taken := match j with
                          | Some j => if alive (sys p) then Nat.max (taken p) (S j) else taken p
                          | None => taken p
                          end }})
| step_writer g R (f : Sys → R * Sys) k :
    writer p = Some (Act g f k) → g (sys p) = true →
    step p (p {{ sys := (f (sys p)).2; writer := Some (k (f (sys p)).1) }})
| step_written m :
    writer p = Some m → ended m = true →
    step p (p {{ sys ::= on_stream (λ st, st {{ inflight := None }}); writer := None }})
| step_timer :
    timerFor (stream (sys p)) ≠ None → registered (stream (sys p)) = true →
    step p (p {{ sys ::= on_stream (λ st, st {{ timerFor := None }}); dueFlushes ::= S }})
| step_timed_flush n :
    handler p = None → dueFlushes p = S n →
    step p (p {{ handler := Some (None, flush); dueFlushes := n }})
| step_fatal m :
    handler p = None → registered (stream (sys p)) = true →
    step p (p {{ handler := Some (None, handleFatal m) }})
| step_position_lost m :
    handler p = None → registered (stream (sys p)) = true →
    step p (p {{ handler := Some (None, handlePositionLost m) }})
| step_letter i to :
    to ≠ pending → step p (p {{ sys ::= clear_letter i to }})
| step_teardown :
    step p (p {{ sys ::= on_stream (λ st, st {{ registered := false; timerFor := None;
                                                 consumerStop := true }}) }})
| step_restart pk t :
    resumes_at (sys p) t →
    step p {| sys := beginStream pk (sys p); handler := None; writer := None; taken := t;
              dueFlushes := 0 |}.

(** a bridge that was just started for the first time *)
Definition initial (p : Process) : Prop :=
  ∃ pk s, readCursor (cursorJson (job s)) = None ∧ acked s = [] ∧
    pendingRows (deadLetters s) ≤ deadLetterMaxRows config ∧
    p = {| sys := beginStream pk s; handler := None; writer := None; taken := 0; dueFlushes := 0 |}.

Inductive reachable : Process → Prop :=
| reach_initial p : initial p → reachable p
| reach_step p p' : reachable p → step p p' → reachable p'.

(** the guard of the chain, which drops a change whose handling threw and goes on to
    the next, has caught nothing so far *)
Definition intact (p : Process) : Prop := ∀ j e, handler p ≠ Some (j, Throw e).

Inductive unbroken : Process → Prop :=
| unbroken_initial p : initial p → unbroken p
| unbroken_step p p' : unbroken p → step p p' → intact p' → unbroken p'.

Lemma unbroken_reachable p : unbroken p → reachable p.
Proof. induction 1; [by apply reach_initial|by eapply reach_step]. Qed.

Lemma unbroken_intact p : unbroken p → intact p.
Proof. intros [? (pk & s & _ & _ & _ & ->)|? ? _ _ ?]; [by intros j e|done]. Qed.
End system.
