(* ===== verification/CdcSafety.v ===== *)
(** What the change pipeline keeps true, whatever fails and however the reader,
    the delivery and the timers interleave: no saved or acknowledged position is
    ever past a change that is neither at the destination nor set aside.

    The invariant of the shared state is [Inv]. The delivery and the handler each
    keep it, as a [triple] over what the other may do meanwhile ([others_worker],
    [others_handler]); [CdcTheorems] puts the two together. *)
From S2P Require Import Prelude JsText JsNumber JsDate JsValue JsJson.
From S2P Require Import BridgeConfig ColumnTransforms FilterMatch TypeMap SchemaDrift.
From S2P Require Import Isolate Async Bridge CdcState Ledger Cdc CdcSystem.

Local Open Scope async_scope.

(** ** What became of a change *)

(** [r] is the row of [c], its unchanged columns read back, left out or kept *)
Definition completes (c : CdcChange) (r : Row) : Prop :=
  op c = op_truncate ∨
  ∀ k v, obj_find (cols (crow c)) k = Some v → is_unchanged v = false →
         obj_find (cols r) k = Some v.

(** a delivery that succeeded wrote the row, or a dead letter below sequence [n]
    holds it *)
Definition landed (n : nat) (s : Sys) (o : option CdcOperation) (r : Row) : Prop :=
  (∃ w, w ∈ sinkLog s ∧ wdone w = true ∧ wop w = o ∧ r ∈ wrows w) ∨
  (∃ d, d ∈ deadLetters s ∧ dlSequence d < n ∧ dlOp d = o ∧ r ∈ dlRows d).

Definition noted (n : nat) (s : Sys) (m : string) : Prop :=
  ∃ q d, q < n ∧ deliveries s !! q = Some d ∧ dstatus d = delivered_skipped ∧ derror d = Some m.

(** a buffered change stands for the event's *)
Definition represents (i : Buffered) (c : CdcChange) : Prop :=
  op (change i) = op c ∧ completes c (brow i).

Definition held (its : list Buffered) (e : LogEvent) : Prop :=
  match e with EvChange c => ∃ i, i ∈ its ∧ represents i c | _ => False end.

Definition uniform (its : list Buffered) (o : option CdcOperation) : Prop :=
  ∀ i, i ∈ its → o = Some (op (change i)).

(** one operation, no key twice, and no more rows than [n] *)
Definition one_delivery (n : Z) (its : list Buffered) (o : option CdcOperation) : Prop :=
  uniform its o ∧ NoDup (omap keySig its) ∧ (Z.of_nat (List.length its) ≤ n)%Z.

(** What the orchestrator asks of a provider's positions: without a saved one
    everything is new, and an event that is not after another's position comes no
    later in the log. Positions that cannot be compared are always after. *)
Class CursorOrder (provider : CdcProvider) (log : list LogEvent) : Prop := {
  after_none c : cursorAfter provider c None = true;
  not_after i j ei ej :
    log !! i = Some ei → log !! j = Some ej →
    cursorAfter provider (event_cursor ei) (Some (event_cursor ej)) = false → i ≤ j
}.

(** ** Who may change what *)

(** what only the chain changes *)
Record same_chain (s s' : Sys) : Prop := {
  same_buffer : buffer (stream s') = buffer (stream s);
  same_bufferOp : bufferOp (stream s') = bufferOp (stream s);
  same_bufferKeys : bufferKeys (stream s') = bufferKeys (stream s);
  same_tail : tailCursor (stream s') = tailCursor (stream s);
  same_cap : byteCappedBatch (stream s') = byteCappedBatch (stream s);
  same_key : primaryKey (stream s') = primaryKey (stream s)
}.

(** what only the one delivery in flight changes; without one, the chain *)
Record same_progress (s s' : Sys) : Prop := {
  same_seq : seq (stream s') = seq (stream s);
  same_watermark : watermark (stream s') = watermark (stream s);
  same_offset : cursorOffset (job s') = cursorOffset (job s);
  same_cursor : cursorJson (job s') = cursorJson (job s);
  same_deliveries : deliveries s' = deliveries s;
  same_sinkLog : sinkLog s' = sinkLog s;
  same_acked : acked s' = acked s
}.

(** dead letters are cleared, never dropped, by whoever looks after them *)
Record letters_kept (s s' : Sys) : Prop := {
  kept_letters : ∀ d, d ∈ deadLetters s → ∃ d', d' ∈ deadLetters s' ∧
    dlSequence d' = dlSequence d ∧ dlOp d' = dlOp d ∧ dlRows d' = dlRows d;
  kept_pending : pendingRows (deadLetters s') ≤ pendingRows (deadLetters s)
}.

(** a stream that was stopped stays stopped *)
Record once_stopped (s s' : Sys) : Prop := {
  stays_halted : halted (stream s) = true → halted (stream s') = true;
  stays_gone : registered (stream s) = false → registered (stream s') = false
}.

#[export] Instance same_chain_preorder : PreOrder same_chain.
Proof. split; [by split|]. intros s1 s2 s3 [] []. split; congruence. Qed.

#[export] Instance same_progress_preorder : PreOrder same_progress.
Proof. split; [by split|]. intros s1 s2 s3 [] []. split; congruence. Qed.

#[export] Instance letters_kept_preorder : PreOrder letters_kept.
Proof.
  split; [split; [naive_solver|done]|]. intros s1 s2 s3 [H1 H2] [H3 H4]. split; [|lia].
  intros d Hd. destruct (H1 d Hd) as (d' & Hd' & ? & ? & ?).
  destruct (H3 d' Hd') as (d'' & ? & ? & ? & ?). exists d''. split_and!; congruence || done.
Qed.

#[export] Instance once_stopped_preorder : PreOrder once_stopped.
Proof. split; [by split|]. intros s1 s2 s3 [] []. split; auto. Qed.

Lemma alive_once_stopped s s' : once_stopped s s' → alive s' = true → alive s = true.
Proof.
  intros [Hh Hr] Ha. unfold alive in *. apply andb_true_iff in Ha as [Ha1 Ha2].
  destruct (registered (stream s)), (halted (stream s)); try done.
  - by rewrite Hh in Ha2.
  - by rewrite Hr in Ha1.
  - by rewrite Hr in Ha1.
Qed.

Lemma dead_once_stopped s s' : once_stopped s s' → alive s = false → alive s' = false.
Proof.
  intros Hs Ha. destruct (alive s') eqn:H'; [|done].
  by rewrite (alive_once_stopped _ _ Hs H') in Ha.
Qed.

Lemma landed_kept n s s' o r :
  sinkLog s' = sinkLog s → letters_kept s s' → landed n s o r → landed n s' o r.
Proof.
  intros Hl [Hk _] [(w & ?)|(d & Hd & Hn & Ho & Hr)]; [left; exists w; by rewrite Hl|].
  right. destruct (Hk d Hd) as (d' & ? & Heq & ? & ?). exists d'.
  rewrite Heq. split_and!; congruence || done.
Qed.

Lemma landed_le n n' s o r : n ≤ n' → landed n s o r → landed n' s o r.
Proof. 
  intros Hn [?|(d & ? & ? & ? & ?)]; [by left|]. right. exists d. split_and!; [done|lia|done..].
Qed.

Lemma noted_le n n' s m : n ≤ n' → noted n s m → noted n' s m.
Proof. intros Hn (q & d & ? & ?). exists q, d. split; [lia|done]. Qed.

Section safety.
Context `{JsHost} `{JsPrint} `{Outside}.
Context (bridge : BridgeInput) (config : RuntimeConfig) (provider : CdcProvider) (jobId : string).
Context (log : list LogEvent) (src : TableSource).

(** the pipeline passes a change over when its row does not match the filters,
    or when it is this instance's own write coming back *)
Definition exempt (c : CdcChange) : Prop :=
  (∃ r, completes c r ∧ filtered_out provider src (with_row c r) = true) ∨
  (∃ n m r, completes c r ∧ echo (echo_answer n (op c) r) = true ∧
            echo_dropped m (echo_answer n (op c) r) = true) ∨
  (op c = op_truncate ∧
   ∃ n m, echo (truncate_answer n) = true ∧ echo_dropped m (truncate_answer n) = true).

(** nothing is left to do for the event. [n] bounds the sequences in use *)
Definition settled_below (n : nat) (s : Sys) (e : LogEvent) : Prop :=
  match e with
  | EvSkip _ => True
  | EvNotice m _ => noted n s m
  | EvChange c => exempt c ∨ ∃ r, completes c r ∧ landed n s (Some (op c)) r
  end.

Definition settled (s : Sys) : LogEvent → Prop := settled_below (cursorOffset (job s)) s.

Definition flying (s : Sys) : list Buffered :=
  match inflight (stream s) with Some b => items b | None => [] end.

(** settled, or on its way *)
Definition covered (s : Sys) (e : LogEvent) : Prop :=
  settled s e ∨ held (flying s) e ∨ held (buffer (stream s)) e.

(** [c] is the position of an event of the log, and every event up to it has [P] *)
Definition up_to (P : LogEvent → Prop) (c : string) : Prop :=
  ∃ d e, log !! d = Some e ∧ event_cursor e = c ∧
         ∀ i e', i ≤ d → log !! i = Some e' → P e'.

(** ** The invariant *)

Record Inv (t : nat) (s : Sys) : Prop := {
  inv_seq : seq (stream s) = cursorOffset (job s);
  inv_mark : watermark (stream s) = readCursor (cursorJson (job s));
  inv_saved : ∀ c, watermark (stream s) = Some c → up_to (settled s) c;
  inv_acked : ∀ c, c ∈ acked s → up_to (settled s) c;
  inv_flying : ∀ b, inflight (stream s) = Some b →
    up_to (λ e, settled s e ∨ held (items b) e) (reach b) ∧
    one_delivery (maxBatch bridge config) (items b) (batchOp b);
  inv_tail : ∀ c, tailCursor (stream s) = Some c → alive s = true → up_to (covered s) c;
  inv_empty : tailCursor (stream s) = None → buffer (stream s) = [];
  inv_buffer : alive s = true →
    one_delivery (maxBatch bridge config) (buffer (stream s))
      (match buffer (stream s) with [] => None | _ => bufferOp (stream s) end) ∧
    ∀ k, k ∈ omap keySig (buffer (stream s)) → k ∈ bufferKeys (stream s);
  inv_taken : ∀ i e, i < t → log !! i = Some e → alive s = true → covered s e;
  inv_letters : pendingRows (deadLetters s) ≤ deadLetterMaxRows config
}.

Lemma up_to_mono (P Q : LogEvent → Prop) c : (∀ e, P e → Q e) → up_to P c → up_to Q c.
Proof. intros HPQ (d & e & ? & ? & HP). exists d, e. split_and!; [done..|]. eauto. Qed.

Lemma settled_le n n' s e : n ≤ n' → settled_below n s e → settled_below n' s e.
Proof.
  intros Hn. destruct e as [c| |m c]; cbn; [|done|by apply noted_le].
  intros [?|(r & ? & ?)]; [by left|]. right. exists r. split; [done|]. by eapply landed_le.
Qed.

Lemma settled_kept s s' e :
  same_progress s s' → letters_kept s s' → settled s e → settled s' e.
Proof.
  intros [] Hl. unfold settled. destruct e as [c| |m c]; cbn; [|done|].
  - intros [?|(r & ? & ?)]; [by left|]. right. exists r. split; [done|].
    rewrite same_offset0. by eapply landed_kept.
  - unfold noted. by rewrite same_offset0, same_deliveries0.
Qed.

(** what happened in a state in which the chain's own data is the same *)
Lemma inv_transfer t s s' :
  Inv t s → same_chain s s' → once_stopped s s' → inflight (stream s') = inflight (stream s) →
  (∀ e, settled s e → settled s' e) →
  seq (stream s') = cursorOffset (job s') →
  watermark (stream s') = readCursor (cursorJson (job s')) →
  (∀ c, watermark (stream s') = Some c → up_to (settled s') c) →
  (∀ c, c ∈ acked s' → up_to (settled s') c) →
  pendingRows (deadLetters s') ≤ deadLetterMaxRows config →
  Inv t s'.
Proof.
  intros [] [] Ho Hf Hs Hseq Hmark Hsaved Hack Hdl.
  assert (Hc : ∀ e, covered s e → covered s' e).
  { intros e [?|[?|?]]; [left; auto|right; left|right; right];
      unfold flying in *; by rewrite ?Hf, ?same_buffer0. }
  split; try done; rewrite ?same_buffer0, ?same_bufferOp0, ?same_bufferKeys0, ?same_tail0; try done.
  - intros b Hb. rewrite Hf in Hb. destruct (inv_flying0 b Hb) as [Hu ?]. split; [|done].
    eapply up_to_mono; [|exact Hu]. naive_solver.
  - intros c Hc' Ha. eapply up_to_mono; [exact Hc|]. apply inv_tail0; [done|].
    by eapply alive_once_stopped.
  - intros Ha. apply inv_buffer0. by eapply alive_once_stopped.
  - intros i e Hi He Ha. apply Hc. eapply inv_taken0; [done..|]. by eapply alive_once_stopped.
Qed.

(** ** Among the others *)

(** while the delivery runs, the chain may fill the buffer and stop the bridge,
    and dead letters may be cleared *)
Definition others_worker (s s' : Sys) : Prop :=
  once_stopped s s' ∧
  ∀ b, inflight (stream s) = Some b →
       inflight (stream s') = Some b ∧ same_progress s s' ∧ letters_kept s s'.

(** while the chain runs, the delivery may make progress and end *)
Definition others_handler (s s' : Sys) : Prop :=
  once_stopped s s' ∧ same_chain s s' ∧
  (∀ e, settled s e → settled s' e) ∧
  (∀ e, covered s e → alive s' = true → covered s' e) ∧
  (inflight (stream s') = inflight (stream s) ∨ inflight (stream s') = None) ∧
  (inflight (stream s) = None → same_progress s s' ∧ letters_kept s s').

#[export] Instance others_worker_preorder : PreOrder others_worker.
Proof.
  split.
  - intros s. split; [done|]. intros b Hb. by split_and!.
  - intros s1 s2 s3 [Ho1 Hb1] [Ho2 Hb2]. split; [by etrans|]. intros b Hb.
    destruct (Hb1 b Hb) as (Hb' & ? & ?). destruct (Hb2 b Hb') as (? & ? & ?).
    split_and!; [done|by etrans..].
Qed.

#[export] Instance others_handler_preorder : PreOrder others_handler.
Proof.
  split; [intros s; unfold others_handler; split_and!; auto; by split|].
  intros s1 s2 s3 (Ho1 & Hc1 & Hs1 & Hv1 & Hf1 & Hp1) (Ho2 & Hc2 & Hs2 & Hv2 & Hf2 & Hp2).
  unfold others_handler; split_and!; [by etrans|by etrans|auto| | |].
  - intros e He Ha. apply Hv2; [|done]. apply Hv1; [done|]. by eapply alive_once_stopped.
  - destruct Hf1 as [Hf1|Hf1], Hf2 as [Hf2|Hf2]; rewrite Hf2, ?Hf1; auto.
  - intros Hn. destruct Hf1 as [Hf1|Hf1]; rewrite ?Hn in Hf1.
    + destruct (Hp1 Hn), (Hp2 Hf1). split; by etrans.
    + destruct (Hp1 Hn), (Hp2 Hf1). split; by etrans.
Qed.
End safety.
