(* ===== verification/CdcWorker.v ===== *)
(** Writing one batch: the delivery keeps the invariant of [CdcSafety] and ends
    with its rows landed and its position saved, or with the bridge stopped.

    [slot] is what is in flight while the work is done: the delivery's own batch,
    or nothing when the chain itself records a notice. *)
From S2P Require Import Prelude JsText JsNumber JsDate JsValue JsJson.
From S2P Require Import BridgeConfig ColumnTransforms FilterMatch TypeMap SchemaDrift.
From S2P Require Import Isolate Async Bridge CdcState Ledger Cdc CdcSystem CdcSafety.

Local Open Scope async_scope.

Lemma pendingRows_app l l' : pendingRows (l ++ l') = pendingRows l + pendingRows l'.
Proof. apply sum_list_with_app. Qed.

Lemma pendingRows_filter (P : DeadLetter → Prop) `{∀ d, Decision (P d)} l :
  pendingRows (filter P l) ≤ pendingRows l.
Proof.
  induction l as [|d l IH]; [done|]. unfold pendingRows in *. rewrite filter_cons.
  case_decide; cbn; lia.
Qed.

Lemma pendingRows_parts q o c failed :
  pendingRows (dead_letter q o c <$> failed) = List.length (failed_rows failed).
Proof.
  unfold pendingRows, failed_rows. induction failed as [|f failed IH]; [done|].
  cbn. rewrite length_app. rewrite IH. reflexivity.
Qed.

Lemma chunks_rows fuel rows : List.length rows ≤ fuel → concat (chunks fuel rows) = rows.
Proof.
  revert rows. induction fuel as [|fuel IH]; intros [|r rows] Hl; cbn [chunks concat] in *;
    [done|cbn in Hl; lia|done|].
  rewrite IH; [by apply take_drop|]. rewrite length_drop. unfold DEAD_LETTER_CHUNK. cbn in *. lia.
Qed.

Section worker.
Context `{JsHost} `{JsPrint} `{Outside}.
Context (bridge : BridgeInput) (config : RuntimeConfig) (provider : CdcProvider) (jobId : string).
Context (log : list LogEvent) (src : TableSource).
Context (t : nat) (slot : option Batch).

Abbreviation settled := (settled provider src).
Abbreviation settled_below := (settled_below provider src).
Abbreviation inv := (Inv bridge config provider log src t).

Definition mine (s : Sys) : Prop := inflight (stream s) = slot.

(** a step of the work: nothing of the chain's, and nothing settled undone *)
Definition worker_step (s s' : Sys) : Prop :=
  same_chain s s' ∧ once_stopped s s' ∧ inflight (stream s') = inflight (stream s) ∧
  ∀ e, settled s e → settled s' e.

(** one that does not move the position *)
Record in_place (s s' : Sys) : Prop := {
  place_chain : same_chain s s';
  place_stopped : once_stopped s s';
  place_flying : inflight (stream s') = inflight (stream s);
  place_settled : ∀ e, settled s e → settled s' e;
  place_seq : seq (stream s') = seq (stream s);
  place_mark : watermark (stream s') = watermark (stream s);
  place_offset : cursorOffset (job s') = cursorOffset (job s);
  place_cursor : cursorJson (job s') = cursorJson (job s);
  place_acked : acked s' = acked s;
  place_letters : pendingRows (deadLetters s') ≤ Nat.max (pendingRows (deadLetters s))
                                                          (deadLetterMaxRows config);
  place_landed : ∀ o r, landed (cursorOffset (job s)) s o r → landed (cursorOffset (job s)) s' o r;
  place_log : ∀ w, w ∈ sinkLog s → w ∈ sinkLog s'
}.

#[local] Instance in_place_preorder : PreOrder in_place.
Proof.
  split; [intros s; split; (reflexivity || auto); lia|].
  intros s1 s2 s3 [] []. split; try (by etrans); try congruence; eauto; try lia.
  intros o r ?. rewrite <- place_offset0. apply place_landed1.
  rewrite place_offset0. by apply place_landed0.
Qed.

Lemma in_place_inv s s' : inv s → in_place s s' → inv s'.
Proof.
  intros Hi []. pose proof (inv_letters _ _ _ _ _ _ _ Hi).
  eapply (inv_transfer _ _ _ _ _ _ s s'); try done.
  - rewrite place_seq0, place_offset0. apply Hi.
  - rewrite place_mark0, place_cursor0. apply Hi.
  - intros c. rewrite place_mark0. intros Hc. eapply up_to_mono; [exact place_settled0|].
    by eapply inv_saved.
  - intros c. rewrite place_acked0. intros Hc. eapply up_to_mono; [exact place_settled0|].
    by eapply inv_acked.
  - lia.
Qed.

Lemma in_place_worker s s' : in_place s s' → worker_step s s'.
Proof. by intros []. Qed.

(** an update that leaves the log, the letters and the cells below the
    sequence in use alone *)
Lemma in_place_frame s s' :
  same_chain s s' → once_stopped s s' → inflight (stream s') = inflight (stream s) →
  seq (stream s') = seq (stream s) → watermark (stream s') = watermark (stream s) →
  cursorOffset (job s') = cursorOffset (job s) → cursorJson (job s') = cursorJson (job s) →
  acked s' = acked s →
  (∀ q, q < cursorOffset (job s) → deliveries s' !! q = deliveries s !! q) →
  (∀ w, w ∈ sinkLog s → w ∈ sinkLog s') →
  (∀ d, d ∈ deadLetters s → dlSequence d < cursorOffset (job s) → d ∈ deadLetters s') →
  pendingRows (deadLetters s') ≤ Nat.max (pendingRows (deadLetters s)) (deadLetterMaxRows config) →
  in_place s s'.
Proof.
  intros ????? Hoff ?? Hdel Hlog Hdl ?.
  assert (Hl : ∀ o r, landed (cursorOffset (job s)) s o r → landed (cursorOffset (job s)) s' o r).
  { intros o r [(w & ? & ?)|(d & ? & ? & ?)]; [left; eauto|right; eauto]. }
  split; try done. intros [c| |m c]; unfold settled, CdcSafety.settled; cbn; [|done|].
  - rewrite Hoff. intros [?|(r & ? & ?)]; [by left|]. right. eauto.
  - rewrite Hoff. intros (q & d & Hq & Hd & ?). exists q, d. by rewrite Hdel.
Qed.

Ltac in_frame :=
  match goal with s : Sys |- _ => destruct s as [[] [] ?????? ?] end;
  apply in_place_frame; cbn -[pendingRows parked] in *; try (by split); auto; try lia.

Lemma in_place_tick s : in_place s (s {{ tick ::= S }}).
Proof. in_frame. Qed.

Lemma in_place_halt s : in_place s (s {{ stream -> halted := true }}).
Proof. in_frame. Qed.

Lemma in_place_status s st m :
  in_place s (s {{ job -> jstatus := st; job -> jerror := m }}).
Proof. in_frame. Qed.

Lemma in_place_failures s n : in_place s (s {{ stream -> consecutiveFailures := n }}).
Proof. in_frame. Qed.

Lemma in_place_record s q d :
  cursorOffset (job s) ≤ q → in_place s (s {{ deliveries ::= <[q := d]> }}).
Proof.
  intros Hq. in_frame.
  intros q' ?. rewrite lookup_insert_ne by lia. done.
Qed.

Lemma in_place_counted s q d f :
  cursorOffset (job s) ≤ q →
  in_place s (s {{ deliveries ::= <[q := d]>; job -> counters ::= f }}).
Proof.
  intros Hq. in_frame.
  intros q' ?. rewrite lookup_insert_ne by lia. done.
Qed.

Lemma in_place_sink s w : in_place s (sink_deliver bridge w s).2.
Proof.
  in_frame.
  intros w' ?. apply elem_of_app. by left.
Qed.

Lemma in_place_park s entries q :
  cursorOffset (job s) ≤ q →
  pendingRows (deadLetters s) + pendingRows entries ≤ deadLetterMaxRows config →
  in_place s (s {{ deadLetters ::= parked entries q }}).
Proof.
  intros Hq Hmax. in_frame.
  - intros d Hd Hs. destruct entries as [|e es]; [done|]. apply elem_of_app. left.
    apply list_elem_of_filter. split; [lia|done].
  - destruct entries as [|e es]; cbn [parked]; [lia|]. rewrite pendingRows_app.
    match goal with |- context [filter ?P ?l] => pose proof (pendingRows_filter P l) end. lia.
Qed.

(** ** Rules for the work among the others *)

Context (rely guar : Sys → Sys → Prop) `{!PreOrder rely}.
Hypothesis rely_mine : ∀ s s', rely s s' → mine s →
  mine s' ∧ once_stopped s s' ∧ same_progress s s' ∧ letters_kept s s'.
Hypothesis guar_mine : ∀ s s', mine s → worker_step s s' → guar s s'.

Abbreviation tri := (triple inv rely guar).

(** facts the others leave alone *)
Definition steady (φ : Sys → Prop) : Prop :=
  ∀ s s', once_stopped s s' → same_progress s s' → letters_kept s s' → φ s → φ s'.

Definition working (φ : Sys → Prop) (s : Sys) : Prop := mine s ∧ φ s.

Lemma stable_working φ : steady φ → stable inv rely (working φ).
Proof.
  intros Hφ s s' Hr _ [Hm Hs]. destruct (rely_mine _ _ Hr Hm) as (? & ? & ? & ?).
  split; [done|]. by eapply Hφ.
Qed.

Lemma tri_ret {A} φ (x : A) (Q : A → Sys → Prop) E :
  steady φ → (∀ s, inv s → φ s → mine s → Q x s) → tri (working φ) (Ret x) Q E.
Proof.
  intros Hφ HQ. apply triple_ret; [by apply stable_working|]. intros s Hi [? ?]. by apply HQ.
Qed.

Lemma tri_atomically {R} φ (f : Sys → R * Sys) ψ E :
  steady φ → (∀ r, steady (ψ r)) →
  (∀ s, inv s → φ s → mine s → in_place s (f s).2 ∧ ψ (f s).1 (f s).2) →
  tri (working φ) (atomically f) (λ r, working (ψ r)) E.
Proof.
  intros Hφ Hψ Hf. apply triple_atomically; [by apply stable_working|intros r; by apply stable_working|].
  intros s Hi [Hm Hs]. destruct (Hf s Hi Hs Hm) as [Hp Hr]. split_and!.
  - by eapply in_place_inv.
  - apply guar_mine; [done|]. by apply in_place_worker.
  - split; [|done]. unfold mine. rewrite (place_flying _ _ Hp). done.
Qed.

Lemma tri_read {R} φ (f : Sys → R) ψ E :
  steady φ → (∀ r, steady (ψ r)) → (∀ s, inv s → φ s → mine s → ψ (f s) s) →
  tri (working φ) (read f) (λ r, working (ψ r)) E.
Proof. intros. apply tri_atomically; [done..|]. intros s Hi Hs Hm. split; [reflexivity|cbn; auto]. Qed.

Lemma tri_modify φ (f : Sys → Sys) ψ E :
  steady φ → steady ψ → (∀ s, inv s → φ s → mine s → in_place s (f s) ∧ ψ (f s)) →
  tri (working φ) (modify f) (λ _, working ψ) E.
Proof. intros. by apply (tri_atomically φ _ (λ _, ψ)). Qed.

Lemma steady_tick φ s : steady φ → φ s → φ (s {{ tick ::= S }}).
Proof.
  intros Hφ. apply Hφ; [by split|by split|]. split; [|done]. intros d ?. by exists d.
Qed.

(** a store call either leaves everything as it was, or carries [f] out *)
Lemma tri_store φ (f : Sys → Sys) ψ :
  steady φ → steady ψ →
  (∀ s, inv s → φ s → mine s → inv (f s) ∧ worker_step s (f s) ∧ ψ (f s)) →
  tri (working φ) (store_call f) (λ _, working ψ) (λ _, working φ).
Proof.
  intros Hφ Hψ Hf. apply triple_call; [by apply stable_working|intros; by apply stable_working..|].
  intros s Hi [Hm Hs]. pose proof (in_place_tick s) as Ht.
  pose proof (in_place_inv _ _ Hi Ht) as Hi1. pose proof (steady_tick _ _ Hφ Hs) as Hs1.
  destruct (store_refuses (tick s)); cbn [fst snd].
  - split_and!; [done| |done]. apply guar_mine; [done|]. by apply in_place_worker.
  - destruct (Hf _ Hi1 Hs1 Hm) as (Hi2 & (Hc & Ho & Hfl & Hset) & Hψ2).
    assert (Hw : worker_step s (f (s {{ tick ::= S }}))).
    { destruct Ht. split_and!; [by etrans|by etrans|by rewrite Hfl|auto]. }
    split_and!; [done|by apply guar_mine|]. split; [|done]. unfold mine in *. by rewrite Hfl.
Qed.

Lemma tri_store_place φ (f : Sys → Sys) ψ :
  steady φ → steady ψ → (∀ s, inv s → φ s → mine s → in_place s (f s) ∧ ψ (f s)) →
  tri (working φ) (store_call f) (λ _, working ψ) (λ _, working φ).
Proof.
  intros Hφ Hψ Hf. apply tri_store; [done..|]. intros s Hi Hs Hm. destruct (Hf s Hi Hs Hm).
  split_and!; [by eapply in_place_inv|by apply in_place_worker|done].
Qed.

Lemma tri_query {A} φ (f : Sys → A) ψ :
  steady φ → (∀ x, steady (ψ x)) → (∀ s, inv s → φ s → mine s → ψ (f s) s) →
  tri (working φ) (store_query f) (λ x, working (ψ x)) (λ _, working φ).
Proof.
  intros Hφ Hψ Hf. apply triple_call; [by apply stable_working|intros; by apply stable_working..|].
  intros s Hi [Hm Hs]. pose proof (in_place_tick s) as Ht.
  pose proof (in_place_inv _ _ Hi Ht) as Hi1. pose proof (steady_tick _ _ Hφ Hs) as Hs1.
  assert (guar s (s {{ tick ::= S }})) by (apply guar_mine; [done|]; by apply in_place_worker).
  destruct (store_refuses (tick s)); cbn [fst snd]; (split_and!; [done..|]); by (split; [|auto]).
Qed.

(** ** Stopping *)

Definition stopped (s : Sys) : Prop := halted (stream s) = true.

Lemma steady_stopped : steady stopped.
Proof. intros s s' [] _ _ ?. unfold stopped. auto. Qed.

Lemma steady_const (P : Prop) : steady (λ _, P).
Proof. by intros s s' _ _ _. Qed.

Lemma steady_or φ ψ : steady φ → steady ψ → steady (λ s, φ s ∨ ψ s).
Proof. intros Hφ Hψ s s' ? ? ? [?|?]; [left|right]; eauto. Qed.

Lemma steady_and φ ψ : steady φ → steady ψ → steady (λ s, φ s ∧ ψ s).
Proof. intros Hφ Hψ s s' ? ? ? [? ?]. split; eauto. Qed.

Lemma tri_halt φ status m E :
  steady φ → tri (working φ) (halt status m) (λ _, working stopped) E.
Proof.
  intros Hφ. apply (triple_bind _ _ _ _ _ _ (λ _, working stopped)).
  - apply tri_atomically; [done|intros; apply steady_stopped|].
    intros s Hi Hs Hm. split; [apply in_place_halt|done].
  - intros [|].
    + apply tri_ret; [apply steady_stopped|]. by intros.
    + unfold ignore. eapply (triple_catch _ _ _ _ _ _ _ _ (λ _, working stopped));
        [|intros e; apply tri_ret; [apply steady_stopped|]; by intros].
      apply tri_store_place; [apply steady_stopped..|].
      intros s Hi Hs Hm. split; [apply in_place_status|done].
Qed.

(** [settle] retries until the work is done, or stops the bridge *)
Lemma tri_settle φ ψ (work : @async Sys unit) E :
  steady φ → steady ψ →
  tri (working φ) work (λ _, working ψ) (λ _, working φ) →
  tri (working φ) (settle work) (λ _, working (λ s, stopped s ∨ ψ s)) E.
Proof.
  intros Hφ Hψ Hwork. pose proof (steady_or _ _ steady_stopped Hψ) as Hor.
  unfold settle. generalize EmptyString. induction SETTLE_ATTEMPTS as [|n IH]; intros err.
  - eapply (triple_weaken _ _ _ _ _ _ _ _ _ E); [by apply (tri_halt φ)|done| |done].
    intros _ s [? ?]. split; [done|by left].
  - apply (triple_bind _ _ _ _ _ _ (λ h, working (λ s, φ s ∧ (h = true → stopped s)))).
    + apply tri_read; [done| |by intros].
      intros h. apply steady_and; [done|]. intros s s' ? ? ? Hh ?. eapply steady_stopped; eauto.
    + intros [|].
      { apply tri_ret; [|intros s _ [_ Hs] ?; split; [done|left; auto]].
        apply steady_and; [done|]. intros s s' ? ? ? Hh ?. eapply steady_stopped; eauto. }
      eapply (triple_bind _ _ _ _ _ _ (λ r, match r with None => working ψ | Some _ => working φ end)).
      * eapply (triple_catch _ _ _ _ _ _ _ _ (λ _, working φ)); [|intros e; apply tri_ret; [done|by split]].
        eapply (triple_bind _ _ _ _ _ _ _); [eapply triple_pre; [exact Hwork|]|].
        -- intros s _ (? & ? & _). by split.
        -- intros []. apply tri_ret; [done|by split].
      * intros [e|]; [apply IH|]. apply tri_ret; [done|]. intros. split; [done|by right].
Qed.

(** ** The work on one batch *)

(** at sequence [q], with [rows] landed below [n] *)
Definition at_work (q n : nat) (o : option CdcOperation) (rows : list Row) (s : Sys) : Prop :=
  seq (stream s) = q ∧ ∀ r, r ∈ rows → landed n s o r.

Lemma steady_at_work q n o rows : steady (at_work q n o rows).
Proof.
  intros s s' _ [] Hl [Hq Hr]. split; [congruence|]. intros r ?. eapply landed_kept; eauto.
Qed.

Lemma at_work_in_place q n o rows s s' :
  deadLetters s' = deadLetters s → in_place s s' → at_work q n o rows s → at_work q n o rows s'.
Proof.
  intros Hd [] [Hq Hr]. split; [congruence|]. intros r Hin.
  destruct (Hr r Hin) as [(w & ? & ?)|?]; [left; eauto|right; by rewrite Hd].
Qed.

Lemma seq_offset s q n o rows : inv s → at_work q n o rows s → cursorOffset (job s) = q.
Proof. intros Hi [<- _]. symmetry. apply Hi. Qed.

(** facts a cell and the counters have no part in *)
Definition unrecorded (φ : Sys → Prop) : Prop :=
  ∀ s m f, φ s → φ (s {{ deliveries := m; job -> counters ::= f }}).

Lemma tri_record_fact φ c rs oc :
  steady φ → unrecorded φ → (∀ s, inv s → φ s → cursorOffset (job s) ≤ c) →
  tri (working φ) (record c rs oc) (λ _, working φ) (λ _, working φ).
Proof.
  intros Hφ Hun Hc. apply (triple_bind _ _ _ _ _ _ (λ _, working φ)); [by apply tri_read|intros pk].
  apply (triple_bind _ _ _ _ _ _ (λ _, working φ)); [by apply tri_query|intros old].
  apply tri_store_place; [done..|]. intros s Hi Hs Hm.
  split; [by apply in_place_counted, Hc|by apply Hun].
Qed.

Lemma tri_record q n o rows c rs oc :
  q ≤ c → tri (working (at_work q n o rows)) (record c rs oc)
    (λ _, working (at_work q n o rows)) (λ _, working (at_work q n o rows)).
Proof.
  intros Hq. apply tri_record_fact; [apply steady_at_work|by intros s ? ? []|].
  intros s Hi Hs. by rewrite (seq_offset s q n o rows).
Qed.

(** how a failed batch ends: stopped, or all its rows landed below the
    sequence to go on from *)
Definition after_batch (q : nat) (o : option CdcOperation) (rows : list Row) (res : option nat)
    (s : Sys) : Prop :=
  match res with
  | Some n => q < n ∧ at_work q n o rows s
  | None => stopped s
  end.

Lemma steady_after_batch q o rows res : steady (after_batch q o rows res).
Proof.
  destruct res as [n|]; cbn; [|apply steady_stopped].
  apply steady_and; [apply steady_const|apply steady_at_work].
Qed.

Abbreviation at_seq q := (at_work q 0 None []).

Lemma tri_stop_batch q rs oc m o rows :
  tri (working (at_seq q)) (stop_batch q rs oc m)
    (λ res, working (after_batch q o rows res)) (λ _, working (at_seq q)).
Proof.
  eapply (triple_bind _ _ _ _ _ _ _); [by apply tri_record|intros []].
  eapply (triple_bind _ _ _ _ _ _ _); [apply tri_halt, steady_at_work|intros []].
  apply tri_ret; [apply steady_stopped|]. intros s _ Hs ?. by split.
Qed.

Lemma working_at_seq q n o rows s : working (at_work q n o rows) s → working (at_seq q) s.
Proof. intros (? & ? & ?). split; [done|split; [done|]]. by intros ? ?%elem_of_nil. Qed.

Lemma tri_record_seq q n o rows c rs oc :
  q ≤ c → tri (working (at_work q n o rows)) (record c rs oc)
    (λ _, working (at_work q n o rows)) (λ _, working (at_seq q)).
Proof.
  intros Hq. eapply triple_weaken; [by apply (tri_record q n o rows)|by intros|by intros|].
  intros e s. apply working_at_seq.
Qed.

(** parking: what is set aside has landed, and what landed below the sequence
    in use stays *)
Lemma landed_parked s o q c fs failed r :
  q ≤ fs → r ∈ failed_rows failed →
  landed (S fs) (s {{ deadLetters ::= parked (dead_letter fs o c <$> failed) q }}) o r.
Proof.
  intros Hq (f & Hr & Hf)%list_elem_of_bind. right. exists (dead_letter fs o c f).
  split_and!; [|cbn; lia|done|done].
  assert (Hd : dead_letter fs o c f ∈ dead_letter fs o c <$> failed) by by apply list_elem_of_fmap_2.
  cbn. destruct (dead_letter fs o c <$> failed) as [|d ds]; [by apply elem_of_nil in Hd|].
  apply elem_of_app. by right.
Qed.

Definition room_for (n : nat) (s : Sys) : Prop :=
  pendingRows (deadLetters s) + n ≤ deadLetterMaxRows config.

Lemma steady_room n : steady (room_for n).
Proof. intros s s' _ _ [_ ?] ?. unfold room_for in *. lia. Qed.

Definition delivered_at (q : nat) (o : option CdcOperation) (rows : list Row) (s : Sys) : Prop :=
  seq (stream s) = q ∧ ∀ r, r ∈ rows → ∃ w, w ∈ sinkLog s ∧ wdone w = true ∧ wop w = o ∧ r ∈ wrows w.

Lemma steady_delivered q o rows : steady (delivered_at q o rows).
Proof.
  intros s s' _ Hp _ [Hq Hr]. split; [by rewrite (same_seq _ _ Hp)|]. by rewrite (same_sinkLog _ _ Hp).
Qed.

Lemma delivered_at_work q n o rows s : delivered_at q o rows s → at_work q n o rows s.
Proof. intros [? Hr]. split; [done|]. intros r Hin. left. eauto. Qed.

Lemma tri_park q o c fs delivered failed rows :
  q ≤ fs → rows ⊆ delivered ++ failed_rows failed →
  tri (working (λ s, delivered_at q o delivered s ∧ room_for (List.length (failed_rows failed)) s))
    (park (dead_letter fs o c <$> failed) q)
    (λ _, working (at_work q (S fs) o rows)) (λ _, working (at_seq q)).
Proof.
  intros Hfs Hrows. unfold park.
  assert (Hst : steady (λ s, delivered_at q o delivered s ∧
                             room_for (List.length (failed_rows failed)) s))
    by (apply steady_and; [apply steady_delivered|apply steady_room]).
  destruct (dead_letter fs o c <$> failed) as [|d ds] eqn:Hds.
  - apply fmap_nil_inv in Hds. subst failed. apply tri_ret; [done|].
    intros s Hi [[Hq Hd] _] Hm. split; [done|split; [done|]]. intros r Hr. left. apply Hd.
    specialize (Hrows r Hr). cbn in Hrows. by rewrite app_nil_r in Hrows.
  - rewrite <- Hds. eapply triple_weaken;
      [apply (tri_store_place _ _ (at_work q (S fs) o rows) Hst);
         [apply steady_at_work|]|by intros|by intros|].
    + intros s Hi [Hd Hroom] Hm. split.
      * apply in_place_park; [|rewrite pendingRows_parts; exact Hroom].
        rewrite (seq_offset s q 0 o delivered); [lia|done|by apply delivered_at_work].
      * destruct Hd as [Hq Hd]. split; [done|]. intros r Hr.
        apply Hrows, elem_of_app in Hr as [Hr|Hr]; [left; by apply Hd|by apply landed_parked].
    + intros e s (? & [? ?] & ?). split; [done|split; [done|]]. by intros ? ?%elem_of_nil.
Qed.

Lemma tri_set_aside q o c oc delivered failed attempts rows :
  rows ⊆ delivered ++ failed_rows failed →
  tri (working (λ s, delivered_at q o delivered s ∧ room_for (List.length (failed_rows failed)) s))
    (set_aside q o c oc delivered failed attempts)
    (λ res, working (after_batch q o rows res)) (λ _, working (at_seq q)).
Proof.
  intros Hrows. unfold set_aside.
  set (fs := match delivered with [] => q | _ => S q end).
  assert (Hfs : q ≤ fs) by (unfold fs; destruct delivered; lia).
  eapply (triple_bind _ _ _ _ _ _ _); [by apply tri_park|intros []].
  apply (triple_bind _ _ _ _ _ _ (λ _, working (at_work q (S fs) o rows))).
  - destruct delivered; [|by apply tri_record_seq].
    apply tri_ret; [apply steady_at_work|]. intros. by split.
  - intros []. eapply (triple_bind _ _ _ _ _ _ _); [by apply (tri_record_seq q (S fs) o rows)|intros []].
    apply tri_ret; [apply steady_at_work|]. intros s _ ? ?. split; [done|]. split; [lia|done].
Qed.

(** the isolating attempts: each goes to the sink, nothing else changes *)
Lemma isolate_spec rows o q reason already s :
  in_place s (isolate bridge rows o q reason already s).2 ∧
  let found := (isolate bridge rows o q reason already s).1 in
  (∀ r, r ∈ Isolate.delivered found →
     ∃ w, w ∈ sinkLog (isolate bridge rows o q reason already s).2 ∧
          wdone w = true ∧ wop w = o ∧ r ∈ wrows w) ∧
  (Isolate.systemic found = false →
     rows ⊆ Isolate.delivered found ++ (prow <$> Isolate.poisoned found)).
Proof.
  unfold isolate.
  destruct (isolateFailures_total (isolation_attempt bridge o q) (ISOLATION reason already) s rows)
    as [[found s'] Hf]. rewrite Hf. cbn [default fst snd].
  eapply (isolateFailures_world _ _ (in_place s)
            (λ w r, ∃ x, x ∈ sinkLog w ∧ wdone x = true ∧ wop x = o ∧ r ∈ wrows x)) in Hf as Hw.
  - destruct Hw as [Hp Hd]. split_and!; [done|done|]. intros Hsys r Hr.
    pose proof (isolateFailures_accounts _ _ _ _ _ _ _ Hf Hsys) as Hperm. by rewrite Hperm.
  - intros w rs sk at_ w' Hw Ha. unfold isolation_attempt in Ha.
    pose proof (in_place_sink w (attempt_write rs o q sk None)) as Hs.
    destruct (sink_deliver bridge (attempt_write rs o q sk None) w) as [r w''] eqn:Hd.
    simplify_eq. cbn [fst snd ok] in *. split_and!.
    + by etrans.
    + intros x (y & Hy & ?). exists y. split; [by apply (place_log _ _ Hs)|done].
    + intros Hok x Hx. unfold sink_deliver in Hd. simplify_eq. eexists. split_and!.
      * cbn. apply elem_of_app. right. apply list_elem_of_here.
      * by cbn.
      * done.
      * done.
  - reflexivity.
Qed.

(** the rows of a failed batch, told apart *)
Definition told_apart (q : nat) (o : option CdcOperation) (rows : list Row)
    (r : list Row * list FailedPart * nat + string) (s : Sys) : Prop :=
  match r with
  | inl (delivered, failed, _) =>
      delivered_at q o delivered s ∧ rows ⊆ delivered ++ failed_rows failed
  | inr _ => seq (stream s) = q
  end.

Lemma steady_seq q : steady (λ s, seq (stream s) = q).
Proof. intros s s' _ [] _ ?. congruence. Qed.

Lemma steady_told_apart q o rows r : steady (told_apart q o rows r).
Proof.
  destruct r as [[[delivered failed] n]|m]; cbn; [|apply steady_seq].
  apply steady_and; [apply steady_delivered|apply steady_const].
Qed.

Lemma failed_rows_single (ps : list (@PoisonedRow Row)) :
  failed_rows ((λ p, {| frows := [prow p]; ferror := perror p; fsucceeded := psucceeded p |}) <$> ps)
  = prow <$> ps.
Proof. induction ps as [|p ps IH]; [done|]. cbn. by rewrite <- IH. Qed.

Lemma failed_rows_chunks reason already rows :
  failed_rows ((λ c, {| frows := c; ferror := reason; fsucceeded := already |})
                 <$> chunks (List.length rows) rows) = rows.
Proof.
  rewrite <- (chunks_rows (List.length rows) rows) at 3 by done. unfold failed_rows.
  generalize (chunks (List.length rows) rows). intros l. induction l as [|c l IH]; [done|].
  cbn. by rewrite <- IH.
Qed.

Lemma tri_tell_apart rows o q outcome reason E :
  tri (working (at_seq q)) (tell_apart bridge rows o q outcome reason)
    (λ r, working (told_apart q o rows r)) E.
Proof.
  unfold tell_apart. destruct (canIsolate bridge rows).
  - apply (triple_bind _ _ _ _ _ _ (λ found, working (λ s, delivered_at q o (Isolate.delivered found) s ∧
      (Isolate.systemic found = false →
         rows ⊆ Isolate.delivered found ++ (prow <$> Isolate.poisoned found))))).
    + apply tri_atomically; [apply steady_at_work| |].
      { intros r. apply steady_and; [apply steady_delivered|apply steady_const]. }
      intros s Hi [Hq _] Hm.
      destruct (isolate_spec rows o q reason (default [] (osucceededTargets outcome)) s)
        as (Hp & Hd & Hr).
      split; [done|]. split; [|done]. split; [|done]. by rewrite (place_seq _ _ Hp).
    + intros found. destruct (Isolate.systemic found) eqn:Hsys;
        (apply tri_ret; [apply steady_and; [apply steady_delivered|apply steady_const]|]);
        intros s _ [Hd Hr] Hm; (split; [done|]); cbn; [apply Hd|].
      split; [done|]. rewrite failed_rows_single. by apply Hr.
  - apply tri_ret; [apply steady_at_work|]. intros s _ [Hq _] Hm. split; [done|]. cbn.
    split; [split; [done|]; by intros r ?%elem_of_nil|]. by rewrite failed_rows_chunks.
Qed.

Lemma tri_handleFailedBatch rows o q c outcome :
  tri (working (at_seq q)) (handleFailedBatch bridge config rows o q c outcome)
    (λ res, working (after_batch q o rows res)) (λ _, working (at_seq q)).
Proof.
  unfold handleFailedBatch. destruct (bool_decide _); [apply tri_stop_batch|].
  assert (Hseq : ∀ s : Sys, mine s → seq (stream s) = q → working (at_seq q) s).
  { intros s ? ?. split; [done|split; [done|]]. by intros r ?%elem_of_nil. }
  eapply (triple_bind _ _ _ _ _ _ _); [apply tri_tell_apart|].
  intros [[[delivered failed] attempts]|m]; cbn beta iota; [|
    eapply triple_pre; [apply tri_stop_batch|intros s _ [? ?]; by apply Hseq]].
  apply (triple_pure _ _ _ (rows ⊆ delivered ++ failed_rows failed)); [by intros s (_ & _ & ?)|].
  intros Hrows. destruct failed as [|f fs].
  - cbn in Hrows. rewrite app_nil_r in Hrows.
    apply (triple_bind _ _ _ _ _ _ (λ _, working (at_work q (S q) o rows))).
    + apply tri_modify; [apply steady_told_apart|apply steady_at_work|].
      intros s Hi [[Hq Hd] _] Hm. split; [apply in_place_failures|]. split; [done|].
      intros r Hr. left. cbn. by apply Hd, Hrows.
    + intros []. eapply (triple_bind _ _ _ _ _ _ _); [by apply tri_record_seq|intros []].
      apply tri_ret; [apply steady_at_work|]. intros s _ ? ?. split; [done|split; [lia|done]].
  - apply (triple_bind _ _ _ _ _ _ (λ _, working (delivered_at q o delivered))).
    + apply (tri_atomically _ _ (λ _, delivered_at q o delivered));
        [apply steady_told_apart|intros; apply steady_delivered|].
      intros s Hi [[Hq Hd] _] Hm. split; [apply in_place_failures|done].
    + intros n. destruct (_ <=? n).
      { eapply triple_pre; [apply tri_stop_batch|intros s _ [? [? _]]; by apply Hseq]. }
      apply (triple_bind _ _ _ _ _ _ (λ held, working (λ s, delivered_at q o delivered s ∧
               pendingRows (deadLetters s) ≤ held))).
      * eapply triple_weaken; [apply (tri_query (delivered_at q o delivered) _
            (λ held s, delivered_at q o delivered s ∧ pendingRows (deadLetters s) ≤ held))
          |by intros|by intros|].
        -- apply steady_delivered.
        -- intros held. apply steady_and; [apply steady_delivered|].
           intros s s' _ _ [_ ?] ?. lia.
        -- done.
        -- intros e s [Hm [Hq _]]. by apply Hseq.
      * intros held. destruct (_ <? _) eqn:Hroom.
        { eapply triple_pre; [apply tri_stop_batch|intros s _ [? [[? _] _]]; by apply Hseq]. }
        apply Nat.ltb_ge in Hroom. eapply triple_pre; [by apply tri_set_aside|].
        intros s _ [Hm [Hd Hh]]. split; [done|]. split; [done|]. unfold room_for. lia.
Qed.

(** ** The position *)

(** moving to [c] at sequence [n] leaves nothing behind *)
Definition ready (n : nat) (c : string) (X : LogEvent → Prop) (s : Sys) : Prop :=
  up_to log (settled_below n s) c ∧ ∀ e, X e → settled_below n s e.

(** it has been moved there *)
Definition written (c : string) (X : LogEvent → Prop) (s : Sys) : Prop :=
  watermark (stream s) = Some c ∧ ∀ e, X e → settled s e.

Lemma settled_below_kept n s s' e :
  deliveries s' = deliveries s → sinkLog s' = sinkLog s → letters_kept s s' →
  settled_below n s e → settled_below n s' e.
Proof.
  intros Hd Hl Hk. destruct e as [c| |m c]; cbn; [|done|].
  - intros [?|(r & ? & ?)]; [by left|]. right. exists r. split; [done|]. by eapply landed_kept.
  - unfold noted. by rewrite Hd.
Qed.

Lemma steady_ready n c X : steady (ready n c X).
Proof.
  intros s s' _ Hp Hk [Hu Hh].
  assert (Hs : ∀ e, settled_below n s e → settled_below n s' e).
  { intros e. apply settled_below_kept; [apply Hp|apply Hp|done]. }
  split; [by eapply up_to_mono|]. auto.
Qed.

Lemma steady_written c X : steady (written c X).
Proof.
  intros s s' _ Hp Hk [Hw Hh]. split; [by rewrite (same_watermark _ _ Hp)|].
  intros e He. apply (settled_kept _ _ s s'); auto.
Qed.

(** the row of the job, and with it the stream's position *)
Definition moved_to (n : nat) (c : string) (s : Sys) : Sys :=
  s {{ job -> cursorOffset := n; job -> cursorJson := Some (saved_cursor c);
       stream -> seq := n; stream -> watermark := Some c }}.

Lemma moved_to_ok q n c X s :
  inv s → seq (stream s) = q → q ≤ n → ready n c X s → 
  inv (moved_to n c s) ∧ worker_step s (moved_to n c s) ∧ written c X (moved_to n c s).
Proof.
  intros Hi Hq Hn [Hu Hh]. rewrite (inv_seq _ _ _ _ _ _ _ Hi) in Hq.
  assert (Hb : ∀ m e, settled_below m s e → settled_below m (moved_to n c s) e).
  { intros m e. by apply settled_below_kept; [| |split; [intros d ?; by exists d|]]. }
  assert (Hs : ∀ e, settled s e → settled (moved_to n c s) e).
  { intros e He. apply Hb. eapply settled_le; [|exact He]. change (cursorOffset (job s) ≤ n). lia. }
  assert (Hn' : up_to log (settled (moved_to n c s)) c).
  { eapply up_to_mono; [|exact Hu]. intros e ?. by apply Hb. }
  split_and!.
  - eapply (inv_transfer _ _ _ _ _ _ s); try done.
    + symmetry. apply readCursor_saved.
    + by intros ? [= <-].
    + intros c' Hc'. eapply up_to_mono; [exact Hs|]. by eapply inv_acked.
    + apply (inv_letters _ _ _ _ _ _ _ Hi).
  - by split_and!.
  - split; [done|]. intros e He. apply Hb. by apply Hh.
Qed.

Lemma acked_ok c X s :
  inv s → written c X s →
  inv (s {{ tick ::= S; acked ::= (λ l, l ++ [c]) }}) ∧
  worker_step s (s {{ tick ::= S; acked ::= (λ l, l ++ [c]) }}) ∧
  written c X (s {{ tick ::= S; acked ::= (λ l, l ++ [c]) }}).
Proof.
  intros Hi [Hw Hh]. split_and!; [| |done].
  - eapply (inv_transfer _ _ _ _ _ _ s); try done.
    + apply Hi.
    + apply Hi.
    + apply Hi.
    + intros c' [Hc'|Hc']%elem_of_app;
        [exact (inv_acked _ _ _ _ _ _ _ Hi c' Hc')|].
      apply list_elem_of_singleton in Hc' as ->. exact (inv_saved _ _ _ _ _ _ _ Hi c Hw).
    + apply (inv_letters _ _ _ _ _ _ _ Hi).
  - by split_and!.
Qed.

Lemma tri_checkpoint φ q n c X :
  q ≤ n → steady φ →
  (∀ s, inv s → mine s → φ s → seq (stream s) = q ∧ ready n c X s) →
  tri (working φ) (checkpoint n c)
    (λ _, working (λ s, stopped s ∨ written c X s)) (λ _, working φ).
Proof.
  intros Hn Hφ Hready.
  apply (triple_bind _ _ _ _ _ _ (λ h, working (λ s, φ s ∧ (h = true → stopped s)))).
  - apply tri_read; [done| |by intros]. intros h. apply steady_and; [done|].
    intros s s' Ho ?? Hh ?. eapply steady_stopped; eauto.
  - intros [|].
    { apply tri_ret.
      - apply steady_and; [done|]. intros s s' ? ? ? Hh ?. eapply steady_stopped; eauto.
      - intros s _ [_ Hs] ?. split; [done|left; auto]. }
    apply (triple_bind _ _ _ _ _ _ (λ _, working (written c X))).
    + eapply triple_pre; [apply (tri_store _ (moved_to n c) (written c X) Hφ); [apply steady_written|]|].
      * intros s Hi Hs Hm. destruct (Hready s Hi Hm Hs). by apply (moved_to_ok q).
      * intros s _ (? & ? & _). by split.
    + intros []. apply triple_modify.
      * apply stable_working, steady_written.
      * apply stable_working, steady_or; [apply steady_stopped|apply steady_written].
      * intros s Hi [Hm Hw]. destruct (ack_lost (tick s)).
        -- pose proof (in_place_tick s) as Ht. split_and!; [by eapply in_place_inv| |].
           ++ apply guar_mine; [done|]. by apply in_place_worker.
           ++ split; [done|]. right. by apply steady_tick; [apply steady_written|].
        -- destruct (acked_ok c X s Hi Hw) as (? & ? & ?). split_and!; [done|by apply guar_mine|].
           split; [done|by right].
Qed.

(** ** A whole delivery *)

Hypothesis direct : cdcSpool config = false.
Hypothesis from_table : source bridge = FromTable src.

Lemma batch_ready b q n s :
  slot = Some b → inv s → mine s → q ≤ n →
  at_work q n (batchOp b) (brow <$> items b) s → ready n (reach b) (held (items b)) s.
Proof.
  intros Hslot Hi Hm Hn [Hq Hr]. unfold mine in Hm. rewrite Hslot in Hm.
  destruct (inv_flying _ _ _ _ _ _ _ Hi b Hm) as [Hu [Huni _]].
  rewrite (inv_seq _ _ _ _ _ _ _ Hi) in Hq.
  assert (Hh : ∀ e, held (items b) e → settled_below n s e).
  { intros [c| |]; [|done..]. intros (i & Hin & Hop & Hc). right. exists (brow i). split; [done|].
    rewrite <- Hop, <- (Huni i Hin). apply Hr. apply list_elem_of_fmap_2, Hin. }
  split; [|done]. eapply up_to_mono; [|exact Hu]. intros e [He|He]; [|by apply Hh].
  eapply settled_le; [|exact He]. lia.
Qed.

(** what a delivery ends with *)
Definition concluded (b : Batch) (s : Sys) : Prop := stopped s ∨ written (reach b) (held (items b)) s.

Lemma steady_concluded b : steady (concluded b).
Proof. apply steady_or; [apply steady_stopped|apply steady_written]. Qed.

Lemma tri_advance φ b q n :
  slot = Some b → q ≤ n → steady φ →
  (∀ s, φ s → at_work q n (batchOp b) (brow <$> items b) s) →
  tri (working φ) (checkpoint n (reach b)) (λ _, working (concluded b)) (λ _, working φ).
Proof.
  intros Hslot Hn Hφ Hw. apply (tri_checkpoint φ q); [done|done|].
  intros s Hi Hm Hs. specialize (Hw s Hs). split; [apply Hw|]. by eapply batch_ready.
Qed.

Lemma tri_record_delivered q o rows c rs oc :
  q ≤ c → tri (working (delivered_at q o rows)) (record c rs oc)
    (λ _, working (delivered_at q o rows)) (λ _, working (delivered_at q o rows)).
Proof.
  intros Hq. apply tri_record_fact; [apply steady_delivered|by intros s ? ? []|].
  intros s Hi Hs. rewrite (seq_offset s q 0 o rows); [done|done|by apply delivered_at_work].
Qed.

Lemma tri_delivered_work b q outcome :
  slot = Some b →
  tri (working (delivered_at q (batchOp b) (brow <$> items b)))
    (record q (brow <$> items b) outcome ;;
     modify (on_stream (λ st, st {{ consecutiveFailures := 0 }})) ;;
     checkpoint (S q) (reach b))
    (λ _, working (concluded b)) (λ _, working (delivered_at q (batchOp b) (brow <$> items b))).
Proof.
  intros Hslot. eapply (triple_bind _ _ _ _ _ _ _); [by apply tri_record_delivered|intros []].
  eapply (triple_bind _ _ _ _ _ _ (λ _, working (delivered_at q (batchOp b) (brow <$> items b)))).
  - apply tri_modify; [apply steady_delivered..|]. intros s Hi Hs Hm.
    split; [apply in_place_failures|done].
  - intros []. apply (tri_advance _ b q); [done|lia|apply steady_delivered|].
    intros s. apply delivered_at_work.
Qed.

Lemma tri_failed_work b q outcome :
  slot = Some b →
  tri (working (at_seq q))
    (let* next := handleFailedBatch bridge config (brow <$> items b) (batchOp b) q (reach b) outcome in
     match next with Some n => checkpoint n (reach b) | None => Ret tt end)
    (λ _, working (concluded b)) (λ _, working (at_seq q)).
Proof.
  intros Hslot. eapply (triple_bind _ _ _ _ _ _ _); [apply tri_handleFailedBatch|].
  intros [n|]; cbn beta iota.
  - apply (triple_pure _ _ _ (q < n)); [by intros s (_ & ? & _)|]. intros Hn.
    eapply triple_weaken;
      [apply (tri_advance (at_work q n (batchOp b) (brow <$> items b)) b q n Hslot);
         [lia|apply steady_at_work|done]| |by intros|].
    + intros s _ (? & _ & ?). by split.
    + intros e s. apply working_at_seq.
  - apply tri_ret; [apply steady_stopped|]. intros s _ Hs ?. split; [done|by left].
Qed.

Lemma tri_settle_concluded φ b (work : @async Sys unit) E :
  steady φ → tri (working φ) work (λ _, working (concluded b)) (λ _, working φ) →
  tri (working φ) (settle work) (λ _, working (concluded b)) E.
Proof.
  intros Hφ Hw.
  eapply triple_weaken; [apply (tri_settle φ (concluded b) _ E Hφ (steady_concluded b) Hw)|done| |done].
  intros x s [? [?|?]]; (split; [done|]); [by left|done].
Qed.

Lemma tri_settle_delivery b q outcome E :
  slot = Some b →
  tri (working (λ s, seq (stream s) = q ∧
         (success outcome = true → delivered_at q (batchOp b) (brow <$> items b) s)))
    (settle_delivery bridge config (brow <$> items b) (batchOp b) q (reach b) outcome
       (λ n, checkpoint n (reach b)))
    (λ _, working (concluded b)) E.
Proof.
  intros Hslot. unfold settle_delivery. destruct (success outcome).
  - eapply triple_pre; [apply (tri_settle_concluded (delivered_at q (batchOp b) (brow <$> items b)));
      [apply steady_delivered|by apply tri_delivered_work]|].
    intros s _ (? & _ & Hd). split; [done|auto].
  - eapply triple_pre; [apply (tri_settle_concluded (at_seq q));
      [apply steady_at_work|by apply tri_failed_work]|].
    intros s _ (? & ? & _). split; [done|split; [done|]]. by intros r ?%elem_of_nil.
Qed.

(** writing a batch concludes it, whatever is refused on the way *)
Lemma tri_deliverBatch b E :
  slot = Some b →
  tri mine (deliverBatch bridge config jobId b) (λ _, working (concluded b)) E.
Proof.
  intros Hslot.
  assert (Ht : ∀ s, mine s → working (λ _, True) s) by by split.
  eapply triple_pre; [|intros s _; apply Ht]. unfold deliverBatch.
  apply (triple_bind _ _ _ _ _ _ (λ h, working (λ s, h = true → stopped s))).
  { apply tri_read; [apply steady_const| |by intros].
    intros h s s' ? ? ? Hh ?. eapply steady_stopped; eauto. }
  intros [|].
  { apply tri_ret; [|intros s _ ? ?; split; [done|left; auto]].
    intros s s' ? ? ? Hh ?. eapply steady_stopped; eauto. }
  rewrite from_table. unfold spooled. rewrite direct. cbn iota.
  destruct (items b) as [|it its] eqn:Hits.
  - eapply triple_pre; [apply (tri_settle_concluded (λ _, True)); [apply steady_const|]|].
    + apply (triple_bind _ _ _ _ _ _ (λ q, working (λ s, seq (stream s) = q))).
      * apply tri_read; [apply steady_const|intros; apply steady_seq|by intros].
      * intros q. eapply triple_weaken; [apply (tri_advance (λ s, seq (stream s) = q) b q q);
          [done|done|apply steady_seq|]|by intros|by intros|by intros e s [? _]].
        intros s Hq. split; [done|]. rewrite Hits. by intros r ?%elem_of_nil.
    + intros s _ [? _]. by split.
  - rewrite <- Hits.
    apply (triple_bind _ _ _ _ _ _ (λ q, working (λ s, seq (stream s) = q))).
    + eapply triple_pre; [apply tri_read; [apply steady_const|intros; apply steady_seq|by intros]|intros s _ [? _]; by split].
    + intros q. apply (triple_bind _ _ _ _ _ _ (λ outcome, working (λ s, seq (stream s) = q ∧
        (success outcome = true → delivered_at q (batchOp b) (brow <$> items b) s)))).
      * apply tri_atomically; [apply steady_seq| |].
        { intros r. apply steady_and; [apply steady_seq|].
          intros s s' ? ? ? Hd ?. eapply steady_delivered; eauto. }
        intros s Hi Hq Hm. split; [apply in_place_sink|]. split; [done|]. intros Hok.
        split; [done|]. intros r Hr. eexists.
        split; [cbn; apply elem_of_app; right; apply list_elem_of_here|by split_and!].
      * intros outcome. by apply tri_settle_delivery.
Qed.

(** ** A notice, recorded by the chain *)

(** the notice is the log's next event: everything before it is settled *)
Definition next_notice (m c : string) (s : Sys) : Prop :=
  ∃ d, log !! d = Some (EvNotice m c) ∧
       ∀ i e, i < d → log !! i = Some e → settled s e.

Lemma steady_next_notice m c : steady (next_notice m c).
Proof.
  intros s s' _ Hp Hk (d & Hd & Hs). exists d. split; [done|]. intros i e Hi He.
  apply (settled_kept _ _ s s'); eauto.
Qed.

Definition noticed (q : nat) (m c : string) (s : Sys) : Prop :=
  next_notice m c s ∧ seq (stream s) = q ∧ ready (S q) c (λ e, e = EvNotice m c) s.

Lemma steady_noticed q m c : steady (noticed q m c).
Proof.
  apply steady_and; [apply steady_next_notice|]. apply steady_and; [apply steady_seq|apply steady_ready].
Qed.

Lemma recordNotice_place q m c s :
  inv s → next_notice m c s → seq (stream s) = q →
  let s' := s {{ deliveries ::= <[q := notice_row (deliveries s !! q) m]> }} in
  in_place s s' ∧ noticed q m c s'.
Proof.
  intros Hi (d & Hd & Hs) Hq s'. assert (Hoff : cursorOffset (job s) = q)
    by (rewrite <- Hq; symmetry; apply Hi).
  assert (Hp : in_place s s') by (apply in_place_record; lia).
  split; [done|]. assert (Hn : next_notice m c s').
  { exists d. split; [done|]. intros i e Hid He. apply (place_settled _ _ Hp). eauto. }
  split; [done|]. split; [done|].
  assert (Hnew : settled_below (S q) s' (EvNotice m c)).
  { exists q. eexists. split_and!; [lia|by apply lookup_insert_eq| |].
    - by destruct (deliveries s !! q).
    - by destruct (deliveries s !! q). }
  split; [|by intros e ->].
  exists d, (EvNotice m c). split_and!; [done..|]. intros i e Hid He.
  destruct (decide (i = d)) as [->|Hne].
  - rewrite Hd in He. by injection He as <-.
  - apply (settled_le _ _ q); [lia|]. destruct Hn as (d' & Hd' & Hn).
    assert (Hset : settled s' e) by (apply (place_settled _ _ Hp), (Hs i); [lia|done]).
    unfold settled, CdcSafety.settled in Hset. by rewrite (place_offset _ _ Hp), Hoff in Hset.
Qed.

Lemma tri_notice m c E :
  tri (working (next_notice m c))
    (settle (let* q := read (λ s, seq (stream s)) in recordNotice q m ;; checkpoint (S q) c))
    (λ _, working (λ s, stopped s ∨ written c (λ e, e = EvNotice m c) s)) E.
Proof.
  eapply triple_weaken; [eapply (tri_settle (next_notice m c)
    (λ s, stopped s ∨ written c (λ e, e = EvNotice m c) s) _ E (steady_next_notice m c))|done| |done];
    [apply steady_or; [apply steady_stopped|apply steady_written]
    | |intros x s [? [?|?]]; (split; [done|]); [by left|done]].
  apply (triple_bind _ _ _ _ _ _ (λ q, working (λ s, next_notice m c s ∧ seq (stream s) = q))).
  - apply tri_read; [apply steady_next_notice| |by intros].
    intros q. apply steady_and; [apply steady_next_notice|apply steady_seq].
  - intros q. apply (triple_bind _ _ _ _ _ _ (λ _, working (noticed q m c))).
    + eapply triple_weaken; [apply (tri_store_place (λ s, next_notice m c s ∧ seq (stream s) = q)
        (λ s, s {{ deliveries ::= <[q := notice_row (deliveries s !! q) m]> }}) (noticed q m c))
        |by intros|by intros|].
      * apply steady_and; [apply steady_next_notice|apply steady_seq].
      * apply steady_noticed.
      * intros s Hi [Hs Hq] Hm. by apply (recordNotice_place q m c).
      * intros e s [? [? _]]. by split.
    + intros []. eapply triple_weaken;
        [apply (tri_checkpoint (noticed q m c) q (S q) c (λ e, e = EvNotice m c)); [lia|apply steady_noticed|]
        |by intros|by intros|].
      * by intros s _ _ (_ & ? & ?).
      * intros e s [? [? _]]. by split.
Qed.
End worker.
