(* ===== verification/CdcChain.v ===== *)
(** Handling what the provider hands over: each handler of the promise chain
    keeps the invariant of [CdcSafety], and ends with its event covered (settled,
    being written, or in the pending batch) unless the bridge has stopped. *)
From S2P Require Import Prelude JsText JsNumber JsDate JsValue JsJson.
From S2P Require Import BridgeConfig ColumnTransforms FilterMatch TypeMap SchemaDrift.
From S2P Require Import Isolate Async Bridge CdcState Ledger Cdc CdcSystem CdcSafety CdcWorker.

Local Open Scope async_scope.

Section chain.
Context `{JsHost} `{JsPrint} `{Outside}.
Context (bridge : BridgeInput) (config : RuntimeConfig) (provider : CdcProvider) (jobId : string).
Context (log : list LogEvent) (src : TableSource) (t : nat).

Abbreviation settled := (settled provider src).
Abbreviation covered := (covered provider src).
Abbreviation inv := (Inv bridge config provider log src t).
Abbreviation others := (others_handler provider src).
Abbreviation tri := (triple inv others others_worker).

(** ** What holds until the bridge stops *)

Definition unless_dead (φ : Sys → Prop) (s : Sys) : Prop := alive s = false ∨ φ s.

(** facts the delivery leaves alone while the bridge lives *)
Definition chainly (φ : Sys → Prop) : Prop :=
  ∀ s s', others s s' → alive s' = true → φ s → φ s'.

Lemma stable_unless_dead φ : chainly φ → stable inv others (unless_dead φ).
Proof.
  intros Hφ s s' Hr _ [Hd|Hs]; [left; by eapply dead_once_stopped; [apply Hr|]|].
  destruct (alive s') eqn:Ha; [right; by eapply Hφ|by left].
Qed.

Lemma chainly_and φ ψ : chainly φ → chainly ψ → chainly (λ s, φ s ∧ ψ s).
Proof. intros Hφ Hψ s s' ? ? []. split; eauto. Qed.

Lemma chainly_const (P : Prop) : chainly (λ _, P).
Proof. by intros s s' _ _. Qed.

Lemma chainly_covered e : chainly (λ s, covered s e).
Proof. intros s s' (_ & _ & _ & Hc & _) Ha Hs. auto. Qed.

Lemma chainly_buffer (P : list Buffered → Prop) : chainly (λ s, P (buffer (stream s))).
Proof. intros s s' (_ & Hc & _) _ Hs. by rewrite (same_buffer _ _ Hc). Qed.

Lemma chainly_alive : chainly (λ s, alive s = true).
Proof. by intros s s' _ ? _. Qed.

(** ** Steps that change nothing anyone counts on *)

Record quiet (s s' : Sys) : Prop := {
  quiet_chain : same_chain s s';
  quiet_stopped : once_stopped s s';
  quiet_progress : same_progress s s';
  quiet_letters : deadLetters s' = deadLetters s;
  quiet_flying : inflight (stream s') = inflight (stream s)
}.

Lemma quiet_kept s s' : quiet s s' → letters_kept s s'.
Proof. intros []. split; rewrite quiet_letters0; [|done]. intros d ?. by exists d. Qed.

Lemma quiet_worker s s' : quiet s s' → others_worker s s'.
Proof.
  intros Hq. split; [apply Hq|]. intros b Hb. rewrite (quiet_flying _ _ Hq).
  split_and!; [done|apply Hq|by apply quiet_kept].
Qed.

Lemma quiet_others s s' : quiet s s' → others s s'.
Proof.
  intros Hq. assert (Hs : ∀ e, settled s e → settled s' e).
  { intros e. apply settled_kept; [apply Hq|by apply quiet_kept]. }
  split_and!; [apply Hq|apply Hq|done| |left; apply Hq|split; [apply Hq|by apply quiet_kept]].
  intros e [?|[?|?]] _; [left; auto|right; left|right; right];
    unfold flying in *; by rewrite ?(quiet_flying _ _ Hq), ?(same_buffer _ _ (quiet_chain _ _ Hq)).
Qed.

Lemma quiet_inv s s' : inv s → quiet s s' → inv s'.
Proof.
  intros Hi Hq. pose proof (quiet_others _ _ Hq) as (_ & _ & Hs & _).
  destruct (quiet_progress _ _ Hq).
  eapply (inv_transfer _ _ _ _ _ _ s); try done; try apply Hq.
  - rewrite same_seq, same_offset. apply Hi.
  - rewrite same_watermark, same_cursor. apply Hi.
  - intros c. rewrite same_watermark. intros Hc. eapply up_to_mono; [exact Hs|]. by eapply inv_saved.
  - intros c. rewrite same_acked. intros Hc. eapply up_to_mono; [exact Hs|]. by eapply inv_acked.
  - rewrite (quiet_letters _ _ Hq). apply Hi.
Qed.

Lemma quiet_refl s : quiet s s.
Proof. by split. Qed.

Lemma quiet_tick s : quiet s (s {{ tick ::= S }}).
Proof. by split. Qed.

Lemma quiet_halt s : quiet s (s {{ stream -> halted := true }}).
Proof. by split. Qed.

Lemma tri_quiet {R} P (f : Sys → R * Sys) Q E :
  stable inv others P → (∀ r, stable inv others (Q r)) →
  (∀ s, quiet s (f s).2) → (∀ s, inv s → P s → Q (f s).1 (f s).2) →
  tri P (atomically f) Q E.
Proof.
  intros HP HQ Hf Hs. apply triple_atomically; [done..|]. intros s Hi Hp.
  split_and!; [by eapply quiet_inv|by apply quiet_worker|auto].
Qed.

Lemma tri_ask {R} P (f : Sys → R) Q E :
  stable inv others P → (∀ r, stable inv others (Q r)) → (∀ s, inv s → P s → Q (f s) s) →
  tri P (read f) Q E.
Proof. intros. apply tri_quiet; [done..|intros; apply quiet_refl|done]. Qed.

(** an answer from outside, of which nothing is used but that it came *)
Lemma tri_answer {R} P (f : Sys → R) (Q : R → Prop) E :
  stable inv others P → (∀ s, Q (f s)) →
  tri P (atomically (λ s, (f s, s {{ tick ::= S }}))) (λ r s, P s ∧ Q r) E.
Proof.
  intros HP HQ. apply tri_quiet; [done| |intros; apply quiet_tick|].
  - intros r s s' ? ? [? ?]. split; [by eapply HP|done].
  - intros s Hi Hs. split; [|apply HQ]. eapply HP; [apply quiet_others, quiet_tick| |done].
    by eapply quiet_inv, quiet_tick.
Qed.

Lemma quiet_mem s wv cs :
  quiet s (s {{ stream -> wholeValueTarget := wv }}) ∧
  quiet s (s {{ stream -> columnSignature := cs }}).
Proof. by split; split. Qed.

(** stopping the bridge ends all obligations *)
Lemma tri_stop P status m φ E :
  stable inv others P → chainly φ →
  tri P (halt status m) (λ _, unless_dead φ) E.
Proof.
  intros HP Hφ. assert (Hdead : chainly (λ _, False)) by apply chainly_const.
  apply (triple_bind _ _ _ _ _ _ (λ _, unless_dead (λ _, False))).
  - apply tri_quiet; [done|intros; by apply stable_unless_dead|intros; apply quiet_halt|].
    intros s _ _. left. unfold alive. cbn. by rewrite andb_false_r.
  - intros [|].
    + apply triple_ret; [by apply stable_unless_dead|]. intros s _ [?|[]]. by left.
    + unfold ignore. apply (triple_catch _ _ _ _ _ _ _ _ (λ _, unless_dead φ));
        [|intros e; apply triple_ret; [by apply stable_unless_dead|done]].
      apply triple_call; [by apply stable_unless_dead|intros; by apply stable_unless_dead..|].
      intros s Hi [Hs|[]].
      assert (Hq : quiet s (s {{ tick ::= S; job -> jstatus := status; job -> jerror := Some m }}))
        by by split.
      pose proof (quiet_tick s) as Ht.
      destruct (store_refuses (tick s)); cbn [fst snd];
        (split_and!; [by eapply quiet_inv|by apply quiet_worker|by left]).
Qed.

(** ** The pending batch *)

Abbreviation max := (maxBatch bridge config).

(** there is room for one more row *)
Definition room (its : list Buffered) : Prop := (Z.of_nat (List.length its) < max)%Z.

Lemma max_pos : (1 ≤ max)%Z.
Proof. unfold maxBatch. destruct (destination bridge); lia. Qed.

Lemma room_nil : room [].
Proof. unfold room. pose proof max_pos. cbn. lia. Qed.

Lemma held_nil e : ¬ held [] e.
Proof. destruct e; cbn; [|tauto..]. by intros (? & ?%elem_of_nil & _). Qed.

Lemma one_delivery_nil o : one_delivery max [] o.
Proof. split_and!; [by intros ? ?%elem_of_nil|constructor|]. pose proof max_pos. cbn. lia. Qed.

Lemma take_batch_gone s :
  alive s = true → tailCursor (stream s) ≠ None →
  ∃ c, tailCursor (stream s) = Some c ∧
       take_batch s = cleared s {{ stream -> inflight :=
         Some {| items := buffer (stream s); batchOp := bufferOp (stream s); reach := c |} }}.
Proof.
  intros Ha Ht. destruct (tailCursor (stream s)) as [c|] eqn:Hc; [|done]. exists c. split; [done|].
  unfold take_batch. rewrite Hc. unfold alive in Ha.
  destruct (registered (stream s)), (halted (stream s)); done.
Qed.

Lemma take_batch_same s :
  alive s = false ∨ tailCursor (stream s) = None → take_batch s = s.
Proof.
  unfold take_batch, alive. intros [Ha| ->]; [|done]. destruct (tailCursor (stream s)); [|done].
  by destruct (registered (stream s)), (halted (stream s)).
Qed.

Lemma take_batch_covered s e :
  inflight (stream s) = None → covered s e → covered (take_batch s) e.
Proof.
  intros Hf Hc. destruct (decide (alive s = true ∧ tailCursor (stream s) ≠ None)) as [[Ha Ht]|Hn].
  - destruct (take_batch_gone s Ha Ht) as (c & _ & ->).
    destruct Hc as [Hs|[Hs|Hs]]; [by left| |by right; left].
    unfold flying in Hs. rewrite Hf in Hs. by apply held_nil in Hs.
  - rewrite take_batch_same; [done|]. destruct (alive s); [|by left]. right.
    by destruct (tailCursor (stream s)); [destruct Hn|].
Qed.

Lemma take_batch_inv s : inv s → inflight (stream s) = None → inv (take_batch s).
Proof.
  intros Hi Hf. destruct (decide (alive s = true ∧ tailCursor (stream s) ≠ None)) as [[Ha Ht]|Hn].
  - pose proof (λ e, take_batch_covered s e Hf) as Hcov.
    destruct (take_batch_gone s Ha Ht) as (c & Hc & Htb).
    rewrite Htb in Hcov |- *. clear Htb.
    destruct (inv_buffer _ _ _ _ _ _ _ Hi Ha) as [[Hu [Hnd Hl]] _].
    split; try apply Hi; cbn [stream job inflight tailCursor buffer].
    + intros b [= <-]. cbn [items batchOp reach]. split.
      * eapply up_to_mono; [|exact (inv_tail _ _ _ _ _ _ _ Hi c Hc Ha)].
        intros e [?|[Hs|?]]; [by left| |by right].
        unfold flying in Hs. rewrite Hf in Hs. by apply held_nil in Hs.
      * split_and!; [|done|done]. intros i Hin. specialize (Hu i Hin).
        destruct (buffer (stream s)); [by apply elem_of_nil in Hin|done].
    + done.
    + done.
    + intros _. split; [apply one_delivery_nil|]. by intros k ?%elem_of_nil.
    + intros i e Hit He _. apply Hcov. by eapply (inv_taken _ _ _ _ _ _ _ Hi).
  - rewrite take_batch_same; [done|]. destruct (alive s); [|by left]. right.
    by destruct (tailCursor (stream s)); [destruct Hn|].
Qed.

Lemma take_batch_empty s :
  inv s → alive (take_batch s) = false ∨ buffer (stream (take_batch s)) = [].
Proof.
  intros Hi. destruct (alive s) eqn:Ha; [|left; by rewrite take_batch_same by (by left)].
  destruct (tailCursor (stream s)) eqn:Hc.
  - right. destruct (take_batch_gone s Ha) as (? & _ & ->); [by rewrite Hc|done].
  - right. rewrite take_batch_same by (by right). by apply (inv_empty _ _ _ _ _ _ _ Hi).
Qed.

Definition emptied (e : LogEvent) (s : Sys) : Prop := covered s e ∧ buffer (stream s) = [].

Lemma chainly_emptied e : chainly (emptied e).
Proof. apply chainly_and; [apply chainly_covered|apply (chainly_buffer (λ l, l = []))]. Qed.

Lemma tri_flush e E :
  tri (unless_dead (λ s, covered s e)) flush (λ _, unless_dead (emptied e)) E.
Proof.
  apply (triple_bind _ _ _ _ _ _ (λ go, unless_dead (λ s, covered s e ∧
    (go = false → buffer (stream s) = [])))).
  - apply tri_quiet; [apply stable_unless_dead, chainly_covered| |by split|].
    + intros go. apply stable_unless_dead, chainly_and; [apply chainly_covered|].
      intros s s' (_ & Hc & _) _ Hs ?. rewrite (same_buffer _ _ Hc). auto.
    + intros s Hi [Hd|Hc]; [by left|]. destruct (alive s) eqn:Ha; [|by left]. right.
      cbn. split; [done|]. intros Hgo. apply (inv_empty _ _ _ _ _ _ _ Hi).
      unfold alive in Ha. destruct (halted (stream s)); [by rewrite andb_false_r in Ha|].
      rewrite andb_true_r in Hgo. by apply bool_decide_eq_false, dec_stable in Hgo.
  - intros [|].
    + apply (triple_act _ _ _ _ _ _ _ (λ _, unless_dead (emptied e))).
      * apply stable_unless_dead, chainly_and; [apply chainly_covered|by intros ????].
      * intros s Hi Hs Hf. apply bool_decide_eq_true in Hf. cbn [fst snd].
        split_and!; [by apply take_batch_inv| |].
        -- split; [|by rewrite Hf]. unfold take_batch. by repeat case_match.
        -- destruct Hs as [Hd|[Hc _]]; [left; by rewrite take_batch_same by (by left)|].
           destruct (take_batch_empty s Hi) as [?|?]; [by left|]. right.
           split; [by apply take_batch_covered|done].
      * intros r. apply triple_ret; [apply stable_unless_dead, chainly_emptied|done].
    + apply triple_ret; [|intros s _ [?|[? Hb]]; [by left|right; split; auto]].
      apply stable_unless_dead, chainly_and; [apply chainly_covered|].
      intros s s' (_ & Hc & _) _ Hs ?. rewrite (same_buffer _ _ Hc). auto.
Qed.

(** waiting for the delivery in flight *)
Definition landed_all (s : Sys) : Prop := inflight (stream s) = None.

Lemma stable_landed_all : stable inv others landed_all.
Proof. intros s s' (_ & _ & _ & _ & [Hf|Hf] & _) _ Hs; unfold landed_all in *; congruence. Qed.

Lemma tri_wait P E :
  stable inv others P → tri P (wait_for nothing_in_flight) (λ _ s, P s ∧ landed_all s) E.
Proof.
  intros HP. apply (triple_act _ _ _ _ _ _ _ (λ _ s, P s ∧ landed_all s)); [done| |].
  - intros s Hi Hs Hf. apply bool_decide_eq_true in Hf. split; [done|split; [by apply quiet_worker, quiet_refl|done]].
  - intros []. apply triple_ret; [|done]. intros s s' Hr Hi [? ?].
    split; [by eapply HP|by eapply stable_landed_all].
Qed.

(** a position beyond the log's first [t] events at most one ahead *)
Definition next_event (e : LogEvent) : Prop := ∃ j, j ≤ t ∧ log !! j = Some e.

Lemma next_up_to s s' e :
  inv s → alive s = true → next_event e → (∀ e', covered s e' → covered s' e') → covered s' e →
  up_to log (covered s') (event_cursor e).
Proof.
  intros Hi Ha (j & Hj & He) Hcov Hc. exists j, e. split_and!; [done..|]. intros i e' Hij He'.
  destruct (decide (i = j)) as [->|]; [congruence|].
  apply Hcov. eapply (inv_taken _ _ _ _ _ _ _ Hi); [|done|done]. lia.
Qed.

Lemma scheduleFlush_timer s :
  scheduleFlush s = s {{ stream -> timerFor := timerFor (stream (scheduleFlush s)) }}.
Proof. destruct s as [[] ????????]. unfold scheduleFlush. cbn. by repeat case_match. Qed.

Lemma quiet_schedule s : quiet s (scheduleFlush s).
Proof. rewrite scheduleFlush_timer. by split. Qed.

(** the tail moves to an event that is covered *)
Lemma set_tail_inv s e :
  inv s → next_event e → covered s e →
  inv (s {{ stream -> tailCursor := Some (event_cursor e) }}).
Proof.
  intros Hi He Hc. split; try apply Hi; cbn [stream tailCursor].
  - intros c [= <-] Ha. by apply (next_up_to s).
  - done.
Qed.

Lemma chain_only_worker s s' :
  once_stopped s s' → same_progress s s' → deadLetters s' = deadLetters s →
  inflight (stream s') = inflight (stream s) → others_worker s s'.
Proof.
  intros Ho Hp Hd Hf. split; [done|]. intros b Hb. rewrite Hf. split_and!; [done..|].
  split; rewrite Hd; [|done]. intros d ?. by exists d.
Qed.

(** passing an event over: its position is noted once it is settled *)
Lemma tri_notePosition e c P E :
  next_event e → event_cursor e = c → (∀ s, settled s e) → chainly P →
  (∀ s s', buffer (stream s') = buffer (stream s) → P s → P s') →
  tri (unless_dead P) (notePosition provider c) (λ _, unless_dead (λ s, covered s e ∧ P s)) E.
Proof.
  intros He <- Hset HP Hbuf. apply triple_modify.
  - by apply stable_unless_dead.
  - apply stable_unless_dead, chainly_and; [apply chainly_covered|done].
  - intros s Hi Hs. unfold note_position.
    assert (Hsame : unless_dead (λ s, covered s e ∧ P s) s).
    { destruct Hs as [?|?]; [by left|right]. split; [left; apply Hset|done]. }
    destruct (negb _ || _); [split; [done|split; [by apply quiet_worker, quiet_refl|done]]|].
    destruct (negb _); [split; [done|split; [by apply quiet_worker, quiet_refl|done]]|].
    set (s1 := s {{ stream -> tailCursor := Some (event_cursor e) }}).
    assert (Hi1 : inv s1) by (apply set_tail_inv; [done..|left; apply Hset]).
    pose proof (quiet_schedule s1) as Hq. split; [|split].
    + by eapply quiet_inv.
    + apply (PreOrder_Transitive s s1); [by apply chain_only_worker|by apply quiet_worker].
    + destruct Hsame as [Hd|[Hc Hp]].
      * left. eapply dead_once_stopped; [apply Hq|done].
      * right. split; [left; apply Hset|]. eapply Hbuf; [|exact Hp].
        by rewrite (same_buffer _ _ (quiet_chain _ _ Hq)).
Qed.

(** ** A row joins the pending batch *)

(** how a handler ends: its event is taken care of, and the next one has room *)
Definition has_room (s : Sys) : Prop := room (buffer (stream s)).
Definition taken_in (e : LogEvent) (s : Sys) : Prop := covered s e ∧ has_room s.
Definition done_with (e : LogEvent) : Sys → Prop := unless_dead (taken_in e).

Lemma chainly_room : chainly has_room.
Proof. apply (chainly_buffer room). Qed.

Lemma chainly_taken_in e : chainly (taken_in e).
Proof. apply chainly_and; [apply chainly_covered|apply chainly_room]. Qed.

Lemma stable_done e : stable inv others (done_with e).
Proof. apply stable_unless_dead, chainly_taken_in. Qed.

Definition fits (c : CdcChange) (sig : option string) (s : Sys) : Prop :=
  has_room s ∧ conflicts (op c) sig (stream s) = false.

Lemma chainly_fits c sig : chainly (fits c sig).
Proof.
  apply chainly_and; [apply chainly_room|]. intros s s' (_ & [] & _) _ Hs.
  unfold conflicts in *. by rewrite same_buffer, same_bufferOp, same_bufferKeys.
Qed.

(** [c] carries the event [EvChange c0] *)
Definition carries (c c0 : CdcChange) : Prop :=
  op c = op c0 ∧ ccursor c = ccursor c0 ∧ completes c0 (crow c).

Definition pushed (c : CdcChange) (sig : option string) (cap : option Z) (s : Sys) : Sys :=
  s {{ stream -> byteCappedBatch := cap;
       stream -> buffer ::= (λ l, l ++ [{| change := c; brow := crow c; keySig := sig |}]);
       stream -> tailCursor := Some (ccursor c);
       stream -> bufferOp := Some (op c);
       stream -> bufferKeys ::= (λ l, match sig with Some k => set_add l k | None => l end) }}.

Lemma push_pushed c sig s :
  ∃ cap, push bridge config c sig s =
    (let s2 := pushed c sig cap s in
     if (limit bridge config (stream s2) <=? Z.of_nat (List.length (buffer (stream s2))))%Z
     then (true, s2) else (false, scheduleFlush s2)).
Proof.
  destruct s as [[] ????????]. unfold push, pushed. cbn.
  destruct buffer as [|b0 bs]; by eexists.
Qed.

Lemma pushed_covered c sig cap s e :
  covered s e → covered (pushed c sig cap s) e.
Proof.
  intros [?|[?|He]]; [by left|by right; left|right; right].
  destruct e as [c'| |]; [|done..]. destruct He as (i & Hi & ?). exists i. split; [|done].
  cbn. apply elem_of_app. by left.
Qed.

Lemma pushed_here c c0 sig cap s : carries c c0 → covered (pushed c sig cap s) (EvChange c0).
Proof.
  intros (Ho & _ & Hc). right. right. cbn. eexists.
  split; [apply elem_of_app; right; apply list_elem_of_here|done].
Qed.

Lemma pushed_buffer c sig cap s :
  buffer (stream (pushed c sig cap s)) =
  buffer (stream s) ++ [{| change := c; brow := crow c; keySig := sig |}].
Proof. done. Qed.

Lemma pushed_keys c sig cap s :
  bufferKeys (stream (pushed c sig cap s)) =
  match sig with Some k => set_add (bufferKeys (stream s)) k | None => bufferKeys (stream s) end.
Proof. done. Qed.

Lemma pushed_delivery c sig cap s :
  inv s → alive s = true → fits c sig s →
  one_delivery max (buffer (stream (pushed c sig cap s))) (Some (op c)) ∧
  ∀ k, k ∈ omap keySig (buffer (stream (pushed c sig cap s))) →
       k ∈ bufferKeys (stream (pushed c sig cap s)).
Proof.
  intros Hi Ha [Hr Hc]. destruct (inv_buffer _ _ _ _ _ _ _ Hi Ha) as [[Hu [Hnd Hl]] Hk].
  assert (Hsig : ∀ k, sig = Some k → k ∉ omap keySig (buffer (stream s))).
  { intros k ->. destruct (buffer (stream s)) eqn:Hb; [apply not_elem_of_nil|].
    unfold conflicts in Hc. rewrite Hb in Hc. apply orb_false_iff in Hc as [_ Hn].
    intros Hin. apply bool_decide_eq_false in Hn. by apply Hn, Hk. }
  unfold one_delivery. rewrite pushed_buffer, pushed_keys, !omap_app. cbn [omap list_omap keySig].
  split; [split_and!|].
  - intros i [Hin|Hin]%elem_of_app; [|by apply list_elem_of_singleton in Hin as ->].
    specialize (Hu i Hin). unfold conflicts in Hc.
    destruct (buffer (stream s)) eqn:Hb; [by apply elem_of_nil in Hin|].
    apply orb_false_iff in Hc as [Ho _]. apply bool_decide_eq_false, dec_stable in Ho. congruence.
  - destruct sig as [k|]; [|by rewrite app_nil_r]. apply NoDup_app. split_and!; [done| |apply NoDup_singleton].
    intros x Hx ?%list_elem_of_singleton. subst x. by destruct (Hsig k eq_refl).
  - rewrite length_app. cbn [List.length]. unfold has_room, room in Hr. lia.
  - intros k [Hx|Hx]%elem_of_app; destruct sig as [k'|]; rewrite ?elem_of_set_add; cbn in Hx; auto.
    + by apply list_elem_of_singleton in Hx as ->; right.
    + by apply elem_of_nil in Hx.
Qed.

Lemma pushed_inv c c0 sig cap s :
  inv s → next_event (EvChange c0) → carries c c0 → unless_dead (fits c sig) s →
  inv (pushed c sig cap s).
Proof.
  intros Hi He Hcar Hs. assert (Hcov : ∀ e, covered s e → covered (pushed c sig cap s) e)
    by (intros e; by apply pushed_covered).
  split; try apply Hi.
  - intros x Hx Ha. change (Some (ccursor c) = Some x) in Hx. injection Hx as <-.
    pose proof Hcar as (_ & -> & _).
    apply (next_up_to s _ (EvChange c0)); [done..|]. by apply pushed_here.
  - intros Hx. by change (Some (ccursor c) = None) in Hx.
  - intros Ha. change (alive s = true) in Ha. destruct Hs as [Hd|Hf]; [by rewrite Hd in Ha|].
    destruct (pushed_delivery c sig cap s Hi Ha Hf) as [Hd Hk]. split; [|done].
    rewrite pushed_buffer in *. by destruct (buffer (stream s)).
  - intros i e Hit Hl Ha. apply Hcov. by eapply (inv_taken _ _ _ _ _ _ _ Hi).
Qed.

Lemma push_ok c c0 sig s :
  inv s → next_event (EvChange c0) → carries c c0 → unless_dead (fits c sig) s →
  let r := push bridge config c sig s in
  inv r.2 ∧ others_worker s r.2 ∧
  unless_dead (λ s', covered s' (EvChange c0) ∧ (r.1 = false → has_room s')) r.2.
Proof.
  intros Hi He Hcar Hs. destruct (push_pushed c sig s) as [cap Hp]. rewrite Hp. clear Hp.
  pose proof (pushed_inv c c0 sig cap s Hi He Hcar Hs) as Hi'.
  assert (Hw : others_worker s (pushed c sig cap s)) by by apply chain_only_worker.
  pose proof (pushed_here c c0 sig cap s Hcar) as Hc.
  cbn zeta. destruct (_ <=? _)%Z eqn:Hl; cbn [fst snd].
  - split; [done|split; [done|by right]].
  - pose proof (quiet_schedule (pushed c sig cap s)) as Hq.
    split; [by eapply quiet_inv|split; [by etrans; [|apply quiet_worker]|]].
    destruct (alive (scheduleFlush (pushed c sig cap s))) eqn:Ha; [right|by left].
    split; [eapply (chainly_covered (EvChange c0)); [by apply quiet_others| |]; done|].
    intros _. apply Z.leb_gt in Hl. unfold has_room, room.
    rewrite (same_buffer _ _ (quiet_chain _ _ Hq)). unfold limit in Hl. lia.
Qed.

Lemma settled_skip s c : settled s (EvSkip c).
Proof. done. Qed.

Lemma tri_join_batch c c0 E :
  next_event (EvChange c0) → carries c c0 →
  tri (unless_dead has_room) (join_batch bridge config c) (λ _, done_with (EvChange c0)) E.
Proof.
  intros He Hcar. unfold join_batch.
  apply (triple_bind _ _ _ _ _ _ (λ _, unless_dead has_room)).
  { apply tri_ask; [apply stable_unless_dead, chainly_room|intros; apply stable_unless_dead, chainly_room|done]. }
  intros sig. apply (triple_bind _ _ _ _ _ _ (λ clash, unless_dead (λ s, has_room s ∧
    (clash = false → fits c sig s)))).
  { assert (Hch : ∀ b : bool, chainly (λ s, has_room s ∧ (b = false → fits c sig s))).
    { intros b. apply chainly_and; [apply chainly_room|]. intros s s' ? ? Hs ?. eapply chainly_fits; eauto. }
    apply tri_ask; [apply stable_unless_dead, chainly_room|intros; by apply stable_unless_dead|].
    intros s Hi [?|Hr]; [by left|right]. split; [done|]. by split. }
  intros clash. apply (triple_bind _ _ _ _ _ _ (λ go s,
    unless_dead (fits c sig) s ∧ (go = false → alive s = false))).
  - destruct clash.
    + eapply (triple_bind _ _ _ _ _ _ _).
      { eapply triple_pre; [apply (tri_flush (EvSkip EmptyString))|].
        intros s _ [?|_]; [by left|right; left; apply settled_skip]. }
      intros []. apply tri_ask.
      * apply stable_unless_dead, chainly_emptied.
      * intros go s s' Hr Hi [Hf Hg]. split; [by eapply stable_unless_dead; [apply chainly_fits|..]|].
        intros ?. eapply dead_once_stopped; [apply Hr|auto].
      * intros s Hi Hs. split.
        -- destruct Hs as [?|[_ Hb]]; [by left|right]. split; [unfold has_room; rewrite Hb; apply room_nil|].
           unfold conflicts. by rewrite Hb.
        -- intros Hg. unfold alive. by rewrite Hg.
    + apply triple_ret; [|intros s _ [?|[_ Hf]]; (split; [|done]); [by left|right; auto]].
      apply stable_unless_dead, chainly_and; [apply chainly_room|].
      intros s s' ? ? Hs ?. eapply chainly_fits; eauto.
  - intros [|]; cbn [negb].
    + apply (triple_bind _ _ _ _ _ _ (λ full, unless_dead (λ s', covered s' (EvChange c0) ∧
        (full = false → has_room s')))).
      * assert (Hch : ∀ b : bool, chainly (λ s', covered s' (EvChange c0) ∧ (b = false → has_room s'))).
        { intros b. apply chainly_and; [apply chainly_covered|]. intros s s' ? ? Hs ?.
          eapply chainly_room; eauto. }
        apply triple_atomically; [|intros; by apply stable_unless_dead|].
        -- intros s s' Hr Hi [Hf Hg]. split; [by eapply stable_unless_dead; [apply chainly_fits|..]|done].
        -- intros s Hi [Hf _]. by apply push_ok.
      * intros [|].
        -- eapply triple_weaken; [apply (tri_flush (EvChange c0))| | |done].
           ++ intros s _ [?|[? _]]; [by left|by right].
           ++ intros x s [?|[? Hb]]; [by left|right; split; [done|]].
              unfold has_room. rewrite Hb. apply room_nil.
        -- apply triple_ret; [|intros s _ [?|[? Hr]]; [by left|right; split; auto]].
           apply stable_unless_dead, chainly_and; [apply chainly_covered|].
           intros s s' ? ? Hs ?. eapply chainly_room; eauto.
    + apply triple_ret; [|intros s _ [_ Hg]; left; auto].
      intros s s' Hr Hi [Hf Hg]. split; [by eapply stable_unless_dead; [apply chainly_fits|..]|].
      intros ?. eapply dead_once_stopped; [apply Hr|auto].
Qed.

(** ** Rows read back *)

Definition open_room : Sys → Prop := unless_dead has_room.

Lemma stable_open_room : stable inv others open_room.
Proof. apply stable_unless_dead, chainly_room. Qed.

Lemma stable_dead : stable inv others (λ s, alive s = false).
Proof. intros s s' Hr _ Hd. eapply dead_once_stopped; [apply Hr|done]. Qed.

Lemma stable_and P Q : stable inv others P → stable inv others Q → stable inv others (λ s, P s ∧ Q s).
Proof. intros HP HQ s s' ? ? []. split; [by eapply HP|by eapply HQ]. Qed.

Lemma stable_if (b : bool) P : stable inv others P → stable inv others (λ s, b = false → P s).
Proof. intros HP s s' ? ? Hs ?. eapply HP; eauto. Qed.

Lemma stable_const (P : Prop) : stable inv others (λ _, P).
Proof. by intros s s1 _ _. Qed.

Lemma stable_open_if (b : bool) P : stable inv others P →
  stable inv others (λ s, open_room s ∧ (b = false → P s)).
Proof. intros HP. apply stable_and; [apply stable_open_room|by apply stable_if]. Qed.

Lemma obj_find_kept o k v :
  obj_find o k = Some v → is_unchanged v = false →
  obj_find (filter (λ kv, is_unchanged kv.2 = false) o) k = Some v.
Proof.
  intros Hk Hv. induction o as [|[k' v'] o IH]; cbn [obj_find] in *; [done|].
  rewrite filter_cons. cbn [snd]. destruct (decide (k = k')) as [->|Hne].
  - injection Hk as ->. rewrite decide_True by done. cbn [obj_find]. by rewrite decide_True.
  - case_decide; cbn [obj_find]; [rewrite decide_False by done|]; auto.
Qed.

Lemma completes_sendable c r : completes c r → completes c (sendable bridge r).
Proof.
  intros [?|Hc]; [by left|right]. unfold sendable. destruct (is_http _); [|done].
  intros k v Hk Hv. cbn. apply obj_find_kept; [by apply Hc|done].
Qed.

Lemma completes_self c : completes c (crow c).
Proof. right. auto. Qed.

Lemma fill_other row current missing k :
  k ∉ missing → obj_find (cols (fill row current missing)) k = obj_find (cols row) k.
Proof.
  intros Hk. unfold fill. cbn [cols]. generalize (cols row). induction missing as [|m ms IH]; intros o; [done|].
  apply not_elem_of_cons in Hk as [Hne Hk]. cbn [foldl]. rewrite IH by done.
  destruct (has_own current m); [by apply obj_find_set_ne|done].
Qed.

Lemma completes_fill c current :
  NoDup (obj_keys (cols (crow c))) →
  completes c (fill (crow c) current (unchanged_columns (crow c))).
Proof.
  intros Hnd. right. intros k v Hk Hv. rewrite fill_other; [done|].
  unfold unchanged_columns. intros (kv & Hin & Heq)%list_elem_of_omap.
  destruct kv as [k' v']. cbn in Heq. destruct (is_unchanged v') eqn:Hu; simplify_eq.
  apply obj_find_NoDup in Hin; [congruence|done].
Qed.

(** what [completeRow] returns: a row for the change, or nothing because the
    bridge has stopped *)
Definition completed (c : CdcChange) (r : option Row) (s : Sys) : Prop :=
  open_room s ∧ match r with Some r' => completes c r' | None => alive s = false end.

Lemma stable_completed c r : stable inv others (completed c r).
Proof.
  apply stable_and; [apply stable_open_room|].
  destruct r; [apply stable_const|apply stable_dead].
Qed.

Lemma tri_done_row c r E :
  completes c r → tri open_room (Ret (Some r)) (completed c) E.
Proof. intros Hc. apply triple_ret; [apply stable_open_room|by split]. Qed.

(** asking whether the stream is still there *)
Lemma tri_alive P E :
  stable inv others P → tri P (read alive) (λ go s, P s ∧ (go = false → alive s = false)) E.
Proof.
  intros HP. apply tri_ask; [done| |done].
  intros go. apply stable_and; [done|]. apply stable_if, stable_dead.
Qed.

Lemma tri_read_back n c key E :
  NoDup (obj_keys (cols (crow c))) →
  tri open_room (read_back bridge (S n) (crow c) key (unchanged_columns (crow c))) (completed c) E.
Proof.
  intros Hnd. induction n as [|n IH].
  all: cbn [read_back]; apply (triple_bind _ _ _ _ _ _ (λ _, open_room));
    [apply tri_quiet; [apply stable_open_room|intros; apply stable_open_room|intros; apply quiet_tick|];
     intros s Hi Hs; eapply stable_open_room; [apply quiet_others, quiet_tick|by eapply quiet_inv, quiet_tick|done]|].
  all: intros [e|[cur|]];
    [|by apply tri_done_row, completes_sendable, completes_fill
     |by apply tri_done_row, completes_sendable, completes_self].
  all: eapply (triple_bind _ _ _ _ _ _ _); [apply tri_alive, stable_open_room|];
    intros [|]; cbn [negb];
    [|apply triple_ret; [apply stable_open_if, stable_dead|intros s _ [? Hd]; split; auto]].
  - eapply (triple_bind _ _ _ _ _ _ _).
    + apply (tri_stop _ _ _ (λ _, False)); [apply stable_open_if, stable_dead|apply chainly_const].
    + intros []. apply triple_ret; [apply stable_unless_dead, chainly_const|].
      intros s _ [?|[]]. split; [by left|done].
  - eapply triple_pre; [apply IH|]. by intros s _ [? _].
Qed.

Lemma tri_whole_value_search targets found E :
  tri open_room (whole_value_search targets found) (λ _, open_room) E.
Proof.
  revert found. induction targets as [|x targets IH]; intros found; cbn [whole_value_search].
  - apply triple_ret; [apply stable_open_room|done].
  - eapply (triple_bind _ _ _ _ _ _ _).
    + apply (tri_answer _ (λ s, engine_answer (tick s) (tconnectionId x)) (λ _, True));
        [apply stable_open_room|done].
    + intros e. eapply triple_pre; [apply IH|]. by intros s _ [? _].
Qed.

Lemma tri_hasWholeValueTarget E :
  tri open_room (hasWholeValueTarget bridge) (λ _, open_room) E.
Proof.
  unfold hasWholeValueTarget. apply (triple_bind _ _ _ _ _ _ (λ _, open_room)).
  { apply tri_ask; [apply stable_open_room|intros; apply stable_open_room|done]. }
  intros [b|]; [apply triple_ret; [apply stable_open_room|done]|].
  apply (triple_bind _ _ _ _ _ _ (λ _, open_room)).
  { destruct (destination bridge); [|apply tri_whole_value_search].
    apply triple_ret; [apply stable_open_room|done]. }
  intros found. apply (triple_bind _ _ _ _ _ _ (λ _, open_room)).
  - apply tri_quiet; [apply stable_open_room|intros; apply stable_open_room|by split|done].
  - intros []. apply triple_ret; [apply stable_open_room|done].
Qed.

Lemma tri_completeRow c E :
  NoDup (obj_keys (cols (crow c))) →
  tri open_room (completeRow bridge src c) (completed c) E.
Proof.
  intros Hnd. unfold completeRow. apply (triple_bind _ _ _ _ _ _ (λ _, open_room)).
  { destruct (_ || _); [|apply tri_hasWholeValueTarget].
    apply triple_ret; [apply stable_open_room|done]. }
  intros [|]; cbn [negb]; [|by apply tri_done_row, completes_self].
  apply (triple_bind _ _ _ _ _ _ (λ _, open_room)).
  { apply tri_ask; [apply stable_open_room|intros; apply stable_open_room|done]. }
  intros pk. destruct (usable_key pk (crow c)); [by apply tri_read_back|].
  apply tri_done_row, completes_sendable, completes_self.
Qed.

(** ** Accepting a change *)

Hypothesis from_table : source bridge = FromTable src.
Hypothesis direct : cdcSpool config = false.

(** the one failure a handler does not handle: looking at the table's columns threw *)
Definition drift_threw (e : string) (s : Sys) : Prop := ∃ n, drift_answer n = inl e.

Lemma tri_stop_then {A} P status m (x : A) E :
  stable inv others P →
  tri P (halt status m ;; Ret x) (λ _ s, open_room s ∧ alive s = false) E.
Proof.
  intros HP. eapply (triple_bind _ _ _ _ _ _ _);
    [apply (tri_stop _ _ _ (λ _, False)); [done|apply chainly_const]|].
  intros []. apply triple_ret; [apply stable_unless_dead, chainly_const|].
  intros s _ [?|[]]. split; [by left|done].
Qed.

Lemma tri_flush_room E : tri open_room flush (λ _, open_room) E.
Proof.
  eapply triple_weaken; [apply (tri_flush (EvSkip EmptyString))| | |done].
  - intros s _ _. right. left. apply settled_skip.
  - intros [] s [?|[_ Hb]]; [by left|right]. unfold has_room. rewrite Hb. apply room_nil.
Qed.

Lemma tri_check_columns c :
  tri open_room (check_columns provider c)
    (λ go s, open_room s ∧ (go = false → alive s = false)) drift_threw.
Proof.
  unfold check_columns. set (Q := λ (go : bool) s, open_room s ∧ (go = false → alive s = false)).
  assert (Hkeep : tri open_room
    (modify (on_stream (λ st, st {{ columnSignature := Some (column_signature (crow c)) }})) ;; Ret true)
    Q drift_threw).
  { apply (triple_bind _ _ _ _ _ _ (λ _, open_room)).
    - apply tri_quiet; [apply stable_open_room|intros; apply stable_open_room|by split|done].
    - intros []. apply triple_ret; [apply stable_open_room|by split]. }
  destruct (_ && _); [|apply triple_ret; [apply stable_open_room|by split]].
  apply (triple_bind _ _ _ _ _ _ (λ _, open_room)).
  { apply tri_ask; [apply stable_open_room|intros; apply stable_open_room|done]. }
  intros old. destruct (bool_decide _); [|exact Hkeep].
  apply (triple_bind _ _ _ _ _ _ (λ _, open_room)).
  { apply triple_call; [apply stable_open_room|intros; apply stable_open_room|by intros e s s1|].
    intros s Hi Hs. cbn [fst snd]. destruct (drift_answer (tick s)) as [e|v] eqn:Hv;
      [split; [by eapply quiet_inv, quiet_tick|split; [by apply quiet_worker, quiet_tick|by exists (tick s)]]|].
    split; [by eapply quiet_inv, quiet_tick|split; [by apply quiet_worker, quiet_tick|]].
    eapply stable_open_room; [apply quiet_others, quiet_tick|by eapply quiet_inv, quiet_tick|done]. }
  intros verdict. eapply (triple_bind _ _ _ _ _ _ _); [apply tri_alive, stable_open_room|].
  intros [|]; cbn [negb];
    [|apply triple_ret; [apply stable_open_if, stable_dead|by intros s _ ?]].
  destruct verdict as [why|]; [|eapply triple_pre; [exact Hkeep|by intros s _ [? _]]].
  eapply (triple_bind _ _ _ _ _ _ _); [eapply triple_pre; [apply tri_flush_room|by intros s _ [? _]]|].
  intros []. eapply (triple_bind _ _ _ _ _ _ _); [apply tri_wait, stable_open_room|].
  intros []. eapply triple_weaken;
    [apply (tri_stop_then (λ s, open_room s ∧ landed_all s));
       apply stable_and; [apply stable_open_room|apply stable_landed_all]|done| |done].
  intros go s [? ?]. by split.
Qed.

(** dropped as an echo: its position is noted *)
Lemma tri_drop c0 E :
  next_event (EvChange c0) → exempt provider src c0 →
  tri open_room (notePosition provider (ccursor c0)) (λ _, done_with (EvChange c0)) E.
Proof.
  intros He Hex. eapply triple_weaken;
    [apply (tri_notePosition (EvChange c0) _ has_room); try done| |by intros|by intros].
  - intros s. by left.
  - apply chainly_room.
  - intros s s' Hb. unfold has_room. by rewrite Hb.
  - done.
Qed.

Lemma completes_with_origins c r os : completes c r → completes c (withOrigins r os).
Proof. intros [?|Hc]; [by left|right]. by destruct os. Qed.

Lemma tri_accept_row c c0 E :
  next_event (EvChange c0) → carries c c0 →
  tri open_room (accept_row bridge config provider c) (λ _, done_with (EvChange c0)) E.
Proof.
  intros He Hcar. pose proof Hcar as (Hop & Hcur & Hcomp). unfold accept_row.
  eapply (triple_bind _ _ _ _ _ _ _).
  { apply (tri_answer _ (λ s, echo_answer (tick s) (op c) (crow c))
      (λ v, ∃ n, v = echo_answer n (op c0) (crow c))); [apply stable_open_room|].
    intros s. rewrite Hop. by eexists. }
  intros v. cbn beta. apply (triple_pure _ _ _ (∃ n, v = echo_answer n (op c0) (crow c)));
    [by intros s [_ ?]|]. intros [n Hv].
  destruct (echo v) eqn:Hecho; [|eapply triple_pre; [by apply tri_join_batch|by intros s _ [? _]]].
  assert (Hst : stable inv others (λ s, open_room s ∧ ∃ n, v = echo_answer n (op c0) (crow c)))
    by (apply stable_and; [apply stable_open_room|apply stable_const]).
  eapply (triple_bind _ _ _ _ _ _ _); [by apply tri_alive|].
  intros [|]; cbn [negb]; [|apply triple_ret;
    [apply stable_and; [done|apply stable_if, stable_dead]|intros s _ [_ Hd]; left; auto]].
  eapply (triple_bind _ _ _ _ _ _ _).
  { eapply triple_pre; [apply (tri_answer open_room (λ s, echo_dropped (tick s) v)
      (λ d, d = true → ∃ m, echo_dropped m v = true)); [apply stable_open_room|eauto]|].
    by intros s _ [[? _] _]. }
  intros [|]; cbn beta.
  - apply (triple_pure _ _ _ (∃ m, echo_dropped m v = true)); [intros s [_ Hd]; auto|].
    intros [m Hm]. rewrite Hcur. eapply triple_pre; [apply tri_drop; [done|]|by intros s _ [? _]].
    right. left. exists n, m, (crow c). rewrite Hv in Hecho, Hm. done.
  - eapply triple_pre; [apply tri_join_batch; [done|]|by intros s _ [? _]].
    split_and!; [done|done|]. by apply completes_with_origins.
Qed.

(** ** A truncate *)

Definition no_rows (s : Sys) : Prop := buffer (stream s) = [].

Lemma chainly_no_rows : chainly no_rows.
Proof. apply (chainly_buffer (λ l, l = [])). Qed.

Lemma no_rows_room s : no_rows s → has_room s.
Proof. unfold has_room. intros ->. apply room_nil. Qed.

Lemma open_no_rows s : unless_dead no_rows s → open_room s.
Proof. intros [?|?]; [by left|right; by apply no_rows_room]. Qed.

Lemma push_truncate_buffer c os s :
  buffer (stream (push_truncate c os s)) = buffer (stream s) ++
    [{| change := c; brow := withOrigins {| cols := []; origins := [] |} os; keySig := None |}].
Proof. done. Qed.

Lemma push_truncate_inv c os s :
  inv s → next_event (EvChange c) → op c = op_truncate → unless_dead no_rows s →
  inv (push_truncate c os s) ∧ covered (push_truncate c os s) (EvChange c).
Proof.
  intros Hi He Hop Hs.
  assert (Hhere : covered (push_truncate c os s) (EvChange c)).
  { right. right. cbn. eexists. split; [apply elem_of_app; right; apply list_elem_of_here|].
    split; [done|by left]. }
  assert (Hcov : ∀ e, covered s e → covered (push_truncate c os s) e).
  { intros e [?|[?|Hh]]; [by left|by right; left|right; right].
    destruct e as [c'| |]; [|done..]. destruct Hh as (i & ? & ?). exists i. split; [|done].
    cbn. apply elem_of_app. by left. }
  split; [|done]. split; try apply Hi.
  - intros x Hx Ha. change (Some (ccursor c) = Some x) in Hx. injection Hx as <-.
    by apply (next_up_to s _ (EvChange c)).
  - intros Hx. by change (Some (ccursor c) = None) in Hx.
  - intros Ha. change (alive s = true) in Ha. destruct Hs as [Hd|Hn]; [by rewrite Hd in Ha|].
    unfold no_rows in Hn. rewrite push_truncate_buffer, Hn. cbn [app]. split; [split_and!|].
    + intros i Hin. apply list_elem_of_singleton in Hin as ->. done.
    + apply NoDup_nil_2.
    + pose proof max_pos. cbn. lia.
    + by intros k ?%elem_of_nil.
  - intros i e Hit Hl Ha. apply Hcov. by eapply (inv_taken _ _ _ _ _ _ _ Hi).
Qed.

Lemma tri_accept_truncate c E :
  next_event (EvChange c) → op c = op_truncate →
  tri open_room (accept_truncate provider c) (λ _, done_with (EvChange c)) E.
Proof.
  intros He Hop. unfold accept_truncate. set (P := unless_dead no_rows).
  assert (HP : stable inv others P) by apply stable_unless_dead, chainly_no_rows.
  assert (Halive : ∀ (m : @async Sys unit), tri P m (λ _, done_with (EvChange c)) E →
    tri P (let* go := read alive in if negb go then Ret tt else m) (λ _, done_with (EvChange c)) E).
  { intros m Hm. eapply (triple_bind _ _ _ _ _ _ _); [by apply tri_alive|].
    intros [|]; cbn [negb]; [eapply triple_pre; [exact Hm|by intros s _ [? _]]|].
    apply triple_ret; [apply stable_and; [done|apply stable_if, stable_dead]|].
    intros s _ [_ Hd]. left. auto. }
  apply (triple_bind _ _ _ _ _ _ (λ _, P)).
  { eapply triple_weaken; [apply (tri_flush (EvSkip EmptyString))| | |done].
    - intros s _ _. right. left. apply settled_skip.
    - intros [] s [?|[_ Hb]]; [by left|by right]. }
  intros []. apply Halive. eapply (triple_bind _ _ _ _ _ _ _).
  { apply (tri_answer P (λ s, truncate_answer (tick s)) (λ v, ∃ n, v = truncate_answer n)); eauto. }
  intros v. cbn beta. apply (triple_pure _ _ _ (∃ n, v = truncate_answer n)); [by intros s [_ ?]|].
  intros [n Hv]. eapply triple_pre; [apply Halive|by intros s _ [? _]].
  apply (triple_bind _ _ _ _ _ _ (λ d s, P s ∧ (d = true → echo v = true ∧ ∃ m, echo_dropped m v = true))).
  { destruct (echo v) eqn:Hecho.
    - apply (tri_answer P (λ s, echo_dropped (tick s) v)
        (λ d, d = true → true = true ∧ ∃ m, echo_dropped m v = true)); eauto.
    - apply triple_ret; [done|by split]. }
  intros [|]; cbn beta.
  - apply (triple_pure _ _ _ (echo v = true ∧ ∃ m, echo_dropped m v = true)); [intros s [_ Hd]; auto|].
    intros [Hecho [m Hm]]. eapply triple_pre; [apply tri_drop; [done|]|].
    + right. right. split; [done|]. exists n, m. by subst v.
    + intros s _ [? _]. by apply open_no_rows.
  - apply (triple_bind _ _ _ _ _ _ (λ _, unless_dead (λ s, covered s (EvChange c)))).
    + apply triple_modify.
      * apply stable_and; [done|apply stable_const].
      * apply stable_unless_dead, chainly_covered.
      * intros s Hi [Hs _]. destruct (push_truncate_inv c (eorigins v) s Hi He Hop Hs) as [? ?].
        split; [done|split; [by apply chain_only_worker|by right]].
    + intros []. eapply triple_weaken; [apply (tri_flush (EvChange c))|done| |done].
      intros [] s [?|[? Hb]]; [by left|right; split; [done|by apply no_rows_room]].
Qed.

(** ** Replays *)

Context `{!CursorOrder provider log}.
Hypothesis rows_ok : ∀ c, EvChange c ∈ log → NoDup (obj_keys (cols (crow c))).

(** an event that is not after the saved position has been dealt with *)
Lemma replayed_settled s e :
  inv s → next_event e → cursorAfter provider (event_cursor e) (watermark (stream s)) = false →
  settled s e.
Proof.
  intros Hi (j & Hj & He) Hc. destruct (watermark (stream s)) as [w|] eqn:Hw.
  - destruct (inv_saved _ _ _ _ _ _ _ Hi w Hw) as (d & e' & Hd & <- & Hs).
    apply (Hs j); [|done]. by eapply not_after.
  - by rewrite after_none in Hc.
Qed.

(** the guard of the handlers: the stream is there, and the event is new *)
Lemma tri_fresh e E (m : @async Sys unit) :
  next_event e → tri open_room m (λ _, done_with e) E →
  tri open_room
    (let* go := read (λ s, alive s && cursorAfter provider (event_cursor e) (watermark (stream s))) in
     if negb go then Ret tt else m) (λ _, done_with e) E.
Proof.
  intros He Hm. apply (triple_bind _ _ _ _ _ _ (λ go s, open_room s ∧ (go = false → done_with e s))).
  - apply tri_ask; [apply stable_open_room|intros; apply stable_open_if, stable_done|].
    intros s Hi Hs. split; [done|]. intros Hgo. apply andb_false_iff in Hgo as [Hd|Hc]; [by left|].
    destruct Hs as [?|Hr]; [by left|right]. split; [|done]. left. by apply replayed_settled.
  - intros [|]; cbn [negb].
    + eapply triple_pre; [exact Hm|by intros s _ [? _]].
    + apply triple_ret; [apply stable_open_if, stable_done|intros s _ [_ Hd]; auto].
Qed.

Lemma tri_accept c0 :
  next_event (EvChange c0) →
  tri open_room (accept bridge config provider c0) (λ _, done_with (EvChange c0)) drift_threw.
Proof.
  intros He. unfold accept. rewrite from_table. apply (tri_fresh (EvChange c0)); [done|].
  assert (Hnd : NoDup (obj_keys (cols (crow c0)))).
  { destruct He as (j & _ & Hj). apply rows_ok. by eapply list_elem_of_lookup_2. }
  destruct (bool_decide _) eqn:Htr.
  { apply tri_accept_truncate; [done|]. by apply bool_decide_eq_true in Htr. }
  apply (triple_bind _ _ _ _ _ _ (completed c0)).
  { destruct (existsb _ _); [by apply tri_completeRow|]. apply tri_done_row, completes_self. }
  intros [r|]; [|apply triple_ret; [apply stable_completed|intros s _ [_ ?]; by left]].
  apply (triple_pure _ _ _ (completes c0 r)); [by intros s [_ ?]|]. intros Hr.
  assert (Hcar : carries (with_row c0 r) c0) by by split_and!.
  eapply (triple_bind _ _ _ _ _ _ _).
  { eapply triple_pre; [apply tri_check_columns|by intros s _ [? _]]. }
  intros [|]; cbn [negb];
    [|apply triple_ret; [apply stable_open_if, stable_dead|intros s _ [_ Hd]; left; auto]].
  eapply triple_pre; [|by intros s _ [? _]]. destruct (filtered_out _ _ _) eqn:Hf.
  - apply (tri_drop c0); [done|]. left. by exists r.
  - by apply tri_accept_row.
Qed.

(** ** The other handlers *)

Lemma tri_skip c :
  next_event (EvSkip c) →
  tri open_room (notePosition provider c) (λ _, done_with (EvSkip c)) drift_threw.
Proof.
  intros He. apply (tri_notePosition (EvSkip c) _ has_room); try done.
  - apply chainly_room.
  - intros s s' Hb. unfold has_room. by rewrite Hb.
Qed.

(** the chain does the work of a delivery itself while nothing is in flight *)
Lemma chain_mine s s' :
  others s s' → mine None s →
  mine None s' ∧ once_stopped s s' ∧ same_progress s s' ∧ letters_kept s s'.
Proof.
  intros (Ho & _ & _ & _ & Hf & Hp) Hm. unfold mine in *. destruct (Hp Hm).
  split_and!; [|done..]. destruct Hf as [Hf|Hf]; congruence.
Qed.

Definition on_chain (s s' : Sys) : Prop := others_worker s s' ∧ same_chain s s'.

Lemma chain_guar s s' : mine None s → worker_step provider src s s' → on_chain s s'.
Proof.
  intros Hm (Hc & Ho & Hf & _). split; [|done]. split; [done|]. intros b Hb.
  unfold mine in Hm. congruence.
Qed.

Lemma stable_no_rows : stable inv others no_rows.
Proof. intros s s' (_ & Hc & _) _ Hs. unfold no_rows. by rewrite (same_buffer _ _ Hc). Qed.

(** an empty buffer stays empty while the chain works *)
Lemma tri_on_chain {A} P (m : @async Sys A) Q E :
  triple inv others on_chain P m Q E →
  tri (λ s, P s ∧ no_rows s) m (λ x s, Q x s ∧ no_rows s) (λ e s, E e s ∧ no_rows s).
Proof.
  apply triple_frame; [by intros s s' [? _]|apply stable_no_rows|].
  intros s s' [_ Hc] Hs. unfold no_rows. by rewrite (same_buffer _ _ Hc).
Qed.

(** everything read before is delivered: nothing is pending or in flight *)
Lemma tri_drain E :
  tri open_room (flush ;; wait_for nothing_in_flight)
    (λ _ s, unless_dead no_rows s ∧ landed_all s) E.
Proof.
  apply (triple_bind _ _ _ _ _ _ (λ _, unless_dead no_rows)).
  - eapply triple_weaken; [apply (tri_flush (EvSkip EmptyString))| | |done].
    + intros s _ _. right. left. apply settled_skip.
    + intros [] s [?|[_ Hb]]; [by left|by right].
  - intros []. apply tri_wait, stable_unless_dead, chainly_no_rows.
Qed.

Lemma bind_assoc {A B C} (m : @async Sys A) (h : A → async B) (k : B → async C) P Q E :
  tri P (bind (bind m h) k) Q E → tri P (bind m (λ x, bind (h x) k)) Q E.
Proof.
  intros Hm s Hi HP. specialize (Hm s Hi HP). clear Hi HP. revert s Hm.
  induction m as [x|e|g R f k' IH]; intros s Hm; cbn in *; [done|done|].
  intros s1 H1' Hi1 Hg. destruct (Hm s1 H1' Hi1 Hg) as (? & ? & ?). auto.
Qed.

Lemma all_settled s e i :
  inv s → alive s = true → no_rows s → landed_all s → i < t → log !! i = Some e → settled s e.
Proof.
  intros Hi Ha Hb Hl Hit He.
  destruct (inv_taken _ _ _ _ _ _ _ Hi i e Hit He Ha) as [?|[Hh|Hh]]; [done|exfalso..].
  - unfold flying in Hh. rewrite Hl in Hh. by apply held_nil in Hh.
  - rewrite Hb in Hh. by apply held_nil in Hh.
Qed.

(** after draining, the handler goes on only if the bridge is still there *)
Definition drained (go : bool) (s : Sys) : Prop :=
  if go then mine None s ∧ no_rows s else alive s = false.

Lemma stable_working_none φ : steady φ → stable inv others (working None φ).
Proof. apply stable_working, chain_mine. Qed.

Lemma tri_handleNotice m c :
  next_event (EvNotice m c) →
  tri open_room (handleNotice config provider m c) (λ _, done_with (EvNotice m c)) drift_threw.
Proof.
  intros He. unfold handleNotice. apply (tri_fresh (EvNotice m c)); [done|].
  apply bind_assoc. eapply (triple_bind _ _ _ _ _ _ _); [apply tri_drain|]. intros [].
  apply (triple_bind _ _ _ _ _ _ (λ go s, if go : bool
    then working None (next_notice provider log src m c) s ∧ no_rows s else alive s = false)).
  - apply tri_ask; [apply stable_and; [apply stable_unless_dead, chainly_no_rows|apply stable_landed_all]| |].
    + intros [|]; [|apply stable_dead].
      apply stable_and; [apply stable_working_none, steady_next_notice|apply stable_no_rows].
    + intros s Hi [Hs Hl]. destruct (alive s) eqn:Ha; [|done].
      destruct Hs as [Hd|Hb]; [congruence|]. split; [split; [done|]|done].
      destruct He as (j & Hj & He). exists j. split; [done|]. intros i e Hij Hie.
      apply (all_settled s e i); try done. lia.
  - intros [|]; cbn [negb]; [|apply triple_ret; [apply stable_dead|intros s _ ?; by left]].
    unfold spooled. rewrite direct. eapply triple_weaken;
      [apply tri_on_chain, (tri_notice _ _ _ _ _ _ None others on_chain chain_mine chain_guar m c (λ _ _, False))
      |done| |by intros e s [[] _]].
    intros [] s [[_ [Hh|[_ Hw]]] Hb].
    + left. unfold alive, stopped in *. rewrite Hh. by rewrite andb_false_r.
    + right. split; [left; by apply Hw|by apply no_rows_room].
Qed.

Lemma tri_handleFatal m : tri open_room (handleFatal m) (λ _, open_room) drift_threw.
Proof.
  unfold handleFatal. eapply (triple_bind _ _ _ _ _ _ _); [apply tri_alive, stable_open_room|].
  intros [|]; cbn [negb]; [|apply triple_ret; [apply stable_open_if, stable_dead|by intros s _ [? _]]].
  apply bind_assoc. eapply (triple_bind _ _ _ _ _ _ _).
  - eapply triple_pre; [apply tri_drain|by intros s _ [? _]].
  - intros []. apply tri_stop; [|apply chainly_room].
    apply stable_and; [apply stable_unless_dead, chainly_no_rows|apply stable_landed_all].
Qed.

(** losing the place keeps the saved position, and says so *)
Lemma mark_lost_ok l s :
  inv s → let s' := s {{ job -> cursorJson := Some (saved_lost (watermark (stream s)) l) }} in
  inv s' ∧ worker_step provider src s s'.
Proof.
  intros Hi s'. split; [|by split_and!].
  eapply (inv_transfer _ _ _ _ _ _ s); try done; try apply Hi.
  symmetry. apply readCursor_saved_lost.
Qed.

Lemma tri_handlePositionLost m : tri open_room (handlePositionLost m) (λ _, open_room) drift_threw.
Proof.
  unfold handlePositionLost. eapply (triple_bind _ _ _ _ _ _ _); [apply tri_alive, stable_open_room|].
  intros [|]; cbn [negb]; [|apply triple_ret; [apply stable_open_if, stable_dead|by intros s _ [? _]]].
  apply bind_assoc. eapply (triple_bind _ _ _ _ _ _ _).
  { eapply triple_pre; [apply tri_drain|by intros s _ [? _]]. }
  intros []. apply (triple_bind _ _ _ _ _ _ drained).
  - apply tri_ask; [apply stable_and; [apply stable_unless_dead, chainly_no_rows|apply stable_landed_all]| |].
    + intros [|]; [|apply stable_dead]. apply stable_and; [apply stable_landed_all|apply stable_no_rows].
    + intros s Hi [Hs Hl]. destruct (alive s) eqn:Ha; cbn; [|done].
      destruct Hs as [Hd|Hb]; [congruence|by split].
  - intros [|]; cbn [negb drained]; [|apply triple_ret; [apply stable_dead|intros s _ ?; by left]].
    assert (Hst : steady (λ _, True)) by by intros ?.
    apply (triple_bind _ _ _ _ _ _ (λ _ s, working None (λ _, True) s ∧ no_rows s)).
    + unfold ignore. apply (triple_catch _ _ _ _ _ _ _ _ (λ _ s, working None (λ _, True) s ∧ no_rows s)).
      * eapply triple_pre; [apply tri_on_chain; apply (tri_store _ _ _ _ _ _ None others on_chain
          chain_mine chain_guar (λ _, True) _ (λ _, True) Hst Hst)|].
        -- intros s Hi _ _. destruct (mark_lost_ok (m +:+ " " +:+ GAP_ADVICE) s Hi). by split_and!.
        -- intros s _ [? ?]. by split; [split|].
      * intros e. apply triple_ret; [|done].
        apply stable_and; [by apply stable_working_none|apply stable_no_rows].
    + intros []. apply tri_stop; [|apply chainly_room].
      apply stable_and; [by apply stable_working_none|apply stable_no_rows].
Qed.

Lemma tri_handle e :
  next_event e → tri open_room (handle bridge config provider e) (λ _, done_with e) drift_threw.
Proof.
  destruct e as [c|c|m c]; [apply tri_accept|apply tri_skip|apply tri_handleNotice].
Qed.
End chain.
