(* ===== verification/CdcTheorems.v ===== *)
(** A live bridge keeps what [CdcSafety] states, whatever is refused, however the
    chain and the delivery interleave, and whenever the process dies: every
    process whose chain has not broken satisfies [Good], and the chain breaks for one
    reason alone. *)
From S2P Require Import Prelude JsText JsNumber JsDate JsValue JsJson.
From S2P Require Import BridgeConfig ColumnTransforms FilterMatch TypeMap SchemaDrift.
From S2P Require Import Isolate Async Bridge CdcState Ledger Cdc CdcSystem CdcSafety CdcWorker CdcChain.

Local Open Scope async_scope.

Section system.
Context `{JsHost} `{JsPrint} `{Outside}.
Context (bridge : BridgeInput) (config : RuntimeConfig) (provider : CdcProvider) (jobId : string).
Context (log : list LogEvent) (src : TableSource).

Abbreviation settled := (settled provider src).
Abbreviation covered := (covered provider src).
Abbreviation inv := (Inv bridge config provider log src).
Abbreviation others := (others_handler provider src).
Abbreviation steps := (step bridge config provider jobId log).

Hypothesis direct : cdcSpool config = false.
Hypothesis from_table : source bridge = FromTable src.
Hypothesis rows_ok : ∀ c, EvChange c ∈ log → NoDup (obj_keys (cols (crow c))).
Context `{!CursorOrder provider log}.

(** what the delivery promises the chain: [others], and its slot *)
Definition on_delivery (s s' : Sys) : Prop := others s s' ∧ inflight (stream s') = inflight (stream s).

(** the chain's program, at [t] *)
Definition good_handler (t : nat) (h : option (option nat * @async Sys unit)) (s : Sys) : Prop :=
  match h with
  | Some (Some j, m) => j ≤ t ∧ ∃ e, log !! j = Some e ∧
      wp (inv t) others others_worker m (λ _, done_with bridge config provider src e) drift_threw s
  | Some (None, m) =>
      wp (inv t) others others_worker m (λ _, open_room bridge config) drift_threw s
  | None => open_room bridge config s
  end.

(** the delivery *)
Definition good_writer (t : nat) (w : option (@async Sys unit)) (s : Sys) : Prop :=
  match w with
  | Some m => ∃ b, inflight (stream s) = Some b ∧
      wp (inv t) others_worker on_delivery m
        (λ _, working (Some b) (concluded provider src b)) (λ _ _, False) s
  | None => inflight (stream s) = None
  end.

Record Good (p : Process) : Prop := {
  good_inv : inv (taken p) (sys p);
  good_chain : good_handler (taken p) (handler p) (sys p);
  good_delivery : good_writer (taken p) (writer p) (sys p)
}.

(** ** The delivery, seen from the chain *)

Lemma worker_covered s s' e : worker_step provider src s s' → covered s e → covered s' e.
Proof.
  intros (Hc & _ & Hf & Hs) [?|[?|?]]; [left; auto|right; left|right; right];
    unfold flying in *; by rewrite ?Hf, ?(same_buffer _ _ Hc).
Qed.

Lemma delivery_rely b s s' :
  others_worker s s' → mine (Some b) s →
  mine (Some b) s' ∧ once_stopped s s' ∧ same_progress s s' ∧ letters_kept s s'.
Proof. intros [? Hb] Hm. by destruct (Hb b Hm) as (? & ? & ?). Qed.

Lemma delivery_guar b s s' : mine (Some b) s → worker_step provider src s s' → on_delivery s s'.
Proof.
  intros Hm Hw. pose proof Hw as (Hc & Ho & Hf & Hs). split; [|done].
  split; [done|]. split; [done|]. split; [done|]. split; [|split; [by left|]].
  - intros e He _. by eapply worker_covered.
  - unfold mine in Hm. congruence.
Qed.

Lemma new_delivery t b s :
  inv t s → inflight (stream s) = Some b →
  good_writer t (Some (deliverBatch bridge config jobId b)) s.
Proof.
  intros Hi Hb. exists b. split; [done|].
  apply (tri_deliverBatch bridge config provider jobId log src t (Some b) others_worker on_delivery
           (delivery_rely b) (delivery_guar b) direct from_table b (λ _ _, False) eq_refl s Hi Hb).
Qed.

(** ** Handling more of the log keeps what is promised *)

Lemma inv_more t t' s :
  inv t s → (∀ i e, t ≤ i → i < t' → log !! i = Some e → alive s = true → covered s e) → inv t' s.
Proof.
  intros [] Hmore. split; try done. intros i e Hi He Ha.
  destruct (decide (i < t)); [eauto|]. apply (Hmore i); [lia|done..].
Qed.

Lemma inv_less t t' s : t' ≤ t → inv t s → inv t' s.
Proof. intros Ht [] . split; try done. intros i e Hi. apply inv_taken. lia. Qed.

Lemma wp_more t t' (m : @async Sys unit) Q s :
  t ≤ t' → wp (inv t) others_worker on_delivery m Q (λ _ _, False) s →
  wp (inv t') others_worker on_delivery m Q (λ _ _, False) s.
Proof.
  intros Ht. revert s. induction m as [x|e|g R f k IH]; intros s Hm; cbn in *.
  - intros s1 Hr Hi. apply Hm; [done|by eapply inv_less].
  - intros s1 Hr Hi. apply (Hm s1); [done|by eapply inv_less].
  - intros s1 Hr Hi Hg. destruct (Hm s1 Hr (inv_less _ _ _ Ht Hi) Hg) as (Hi' & Hd & Hk).
    split_and!; [|done|by apply IH].
    destruct Hd as [(Ho & _ & _ & Hcov & _) _]. eapply inv_more; [exact Hi'|].
    intros i e _ Hit He Ha. apply Hcov; [|done].
    eapply inv_taken; [exact Hi|done|done|]. by eapply alive_once_stopped.
Qed.

Lemma good_writer_more t t' w s : t ≤ t' → good_writer t w s → good_writer t' w s.
Proof.
  intros Ht. destruct w as [m|]; [|done]. intros (b & Hb & Hm). exists b. split; [done|].
  by eapply wp_more.
Qed.

(** ** What the parts of a process do to each other *)

Lemma good_handler_others t h s s' :
  inv t s' → others s s' → good_handler t h s → good_handler t h s'.
Proof.
  intros Hi Ho. destruct h as [[[j|] m]|]; cbn.
  - intros (? & e & ? & ?). split; [done|]. exists e. split; [done|].
    eapply wp_stable; [apply _|exact Ho|done].
  - intros. eapply wp_stable; [apply _|exact Ho|done].
  - intros Hr. by eapply stable_open_room.
Qed.

Lemma good_writer_others t w s s' :
  others_worker s s' → (inflight (stream s) = None → inflight (stream s') = None) →
  good_writer t w s → good_writer t w s'.
Proof.
  intros Ho Hn. destruct w as [m|]; cbn; [|done].
  intros (b & Hb & Hm). exists b. split; [by apply Ho|].
  eapply wp_stable; [apply _|exact Ho|done].
Qed.

(** a step of neither program that changes nothing anyone counts on *)
Lemma good_aside p s' :
  Good p → inv (taken p) s' → others (sys p) s' → others_worker (sys p) s' →
  (inflight (stream (sys p)) = None → inflight (stream s') = None) →
  ∀ n, Good {| sys := s'; handler := handler p; writer := writer p; taken := taken p;
               dueFlushes := n |}.
Proof.
  intros [Hi Hc Hd] Hi' Ho Hw Hn n. split; cbn; [done| |].
  - by eapply good_handler_others.
  - by eapply good_writer_others.
Qed.

Lemma good_quiet p s' n :
  Good p → quiet (sys p) s' →
  Good {| sys := s'; handler := handler p; writer := writer p; taken := taken p; dueFlushes := n |}.
Proof.
  intros Hg Hq. apply good_aside; [done|eapply quiet_inv; [apply Hg|done]|by apply quiet_others
    |by apply quiet_worker|]. by rewrite (quiet_flying _ _ Hq).
Qed.

(** ** The chain's steps *)

Lemma good_call p h n :
  Good p → good_handler (taken p) h (sys p) →
  Good {| sys := sys p; handler := h; writer := writer p; taken := taken p; dueFlushes := n |}.
Proof. intros [Hi Hc Hd] Hh. by split. Qed.

Lemma good_event p j e :
  Good p → handler p = None → j ≤ taken p → log !! j = Some e →
  good_handler (taken p) (Some (Some j, handle bridge config provider e)) (sys p).
Proof.
  intros [Hi Hc Hd] Hh Hj He. rewrite Hh in Hc. split; [done|]. exists e. split; [done|].
  apply (tri_handle bridge config provider log src (taken p) from_table direct rows_ok);
    [by exists j|done..].
Qed.

Lemma good_handler_step p j g R (f : Sys → R * Sys) k :
  Good p → handler p = Some (j, Act g f k) → g (sys p) = true →
  Good {| sys := (f (sys p)).2; handler := Some (j, k (f (sys p)).1);
          writer := started bridge config jobId (sys p) (f (sys p)).2 (writer p);
          taken := taken p; dueFlushes := dueFlushes p |}.
Proof.
  intros [Hi Hc Hd] Hh Hg. rewrite Hh in Hc. unfold good_handler in Hc.
  assert (Hs : inv (taken p) (f (sys p)).2 ∧ others_worker (sys p) (f (sys p)).2 ∧
               good_handler (taken p) (Some (j, k (f (sys p)).1)) (f (sys p)).2).
  { destruct j as [j|]; cbn in Hc.
    - destruct Hc as (Hj & e & He & Hw). destruct (Hw (sys p) ltac:(reflexivity) Hi Hg) as (? & ? & ?).
      split_and!; [done..|]. split; [done|]. by exists e.
    - by destruct (Hc (sys p) ltac:(reflexivity) Hi Hg) as (? & ? & ?). }
  destruct Hs as (Hi' & Ho & Hk). split; cbn; [done..|].
  unfold started. destruct (inflight (stream (sys p))) as [b|] eqn:Hb.
  - apply (good_writer_others _ _ (sys p)); [done|congruence|done].
  - destruct (inflight (stream (f (sys p)).2)) as [b|] eqn:Hb'; [by apply new_delivery|].
    by apply (good_writer_others _ _ (sys p)).
Qed.

Lemma ended_wp t (m : @async Sys unit) Q s :
  ended m = true → (∀ e, m ≠ Throw e) → inv t s → wp (inv t) others others_worker m Q drift_threw s → Q tt s.
Proof.
  destruct m as [[]|e|]; [|by intros _ Hn; destruct (Hn e)|done].
  intros _ _ Hi Hw. by apply Hw.
Qed.

Lemma good_handled p j m :
  Good p → intact p → handler p = Some (j, m) → ended m = true →
  Good {| sys := sys p; handler := None; writer := writer p;
          taken := match j with
                   | Some j => if alive (sys p) then Nat.max (taken p) (S j) else taken p
                   | None => taken p
                   end; dueFlushes := dueFlushes p |}.
Proof.
  intros [Hi Hc Hd] Hn Hh Hm. rewrite Hh in Hc.
  assert (Hm' : ∀ e, m ≠ Throw e) by (intros e ->; by apply (Hn j e)).
  destruct j as [j|]; cbn in Hc.
  - destruct Hc as (Hj & e & He & Hw). apply ended_wp in Hw; [|done..].
    destruct (alive (sys p)) eqn:Ha.
    + destruct Hw as [?|[Hcov Hroom]]; [congruence|].
      split; cbn; [|by right|eapply good_writer_more; [|exact Hd]; lia].
      eapply inv_more; [exact Hi|]. intros i e' Hi1 Hi2 He' _.
      assert (i = j) as -> by lia. congruence.
    + split; cbn; [done|by left|done].
  - apply ended_wp in Hc; [|done..]. by split.
Qed.

(** ** The delivery's steps *)

Lemma good_writer_step p g R (f : Sys → R * Sys) k :
  Good p → writer p = Some (Act g f k) → g (sys p) = true →
  Good {| sys := (f (sys p)).2; handler := handler p; writer := Some (k (f (sys p)).1);
          taken := taken p; dueFlushes := dueFlushes p |}.
Proof.
  intros [Hi Hc Hd] Hw Hg. rewrite Hw in Hd. destruct Hd as (b & Hb & Hm). cbn in Hm.
  destruct (Hm (sys p) ltac:(reflexivity) Hi Hg) as (Hi' & [Ho Hf] & Hk).
  split; cbn; [done|by eapply good_handler_others|]. exists b. split; [by rewrite Hf|done].
Qed.

Definition delivered (s : Sys) : Sys := on_stream (λ st, st {{ inflight := None }}) s.

(** a concluded delivery leaves: what it held has landed, or nothing counts on it *)
Lemma delivered_covered b s e :
  inflight (stream s) = Some b → concluded provider src b s → alive s = true →
  covered s e → covered (delivered s) e.
Proof.
  intros Hb [Hh|[_ Hset]] Ha.
  { unfold alive in Ha. rewrite Hh in Ha. by rewrite andb_false_r in Ha. }
  intros [?|[Hfl|?]]; [by left| |by right; right].
  left. unfold flying in Hfl. rewrite Hb in Hfl. by apply Hset.
Qed.

Lemma delivered_inv t b s :
  inv t s → inflight (stream s) = Some b → concluded provider src b s → inv t (delivered s).
Proof.
  intros [] Hb Hcl. split; try done.
  - intros c Hc Ha. eapply up_to_mono; [|by apply inv_tail]. intros e.
    by apply (delivered_covered b).
  - intros i e Hi He Ha. apply (delivered_covered b); [done..|]. by eapply inv_taken.
Qed.

Lemma delivered_others b s :
  inflight (stream s) = Some b → concluded provider src b s → others s (delivered s).
Proof.
  intros Hb Hcl. split; [done|]. split; [by split|]. split; [done|].
  split; [|split; [by right|congruence]]. intros e He Ha. by apply (delivered_covered b).
Qed.

Lemma good_written p m :
  Good p → writer p = Some m → ended m = true →
  Good {| sys := delivered (sys p); handler := handler p; writer := None; taken := taken p;
          dueFlushes := dueFlushes p |}.
Proof.
  intros [Hi Hc Hd] Hw Hm. rewrite Hw in Hd. destruct Hd as (b & Hb & Hwp).
  assert (Hcl : concluded provider src b (sys p)).
  { destruct m as [[]|e|]; [|by destruct (Hwp (sys p) ltac:(reflexivity) Hi)|done].
    by apply (Hwp (sys p)). }
  split; cbn; [by eapply delivered_inv| |done].
  eapply good_handler_others; [by eapply delivered_inv|by eapply delivered_others|done].
Qed.

(** ** The rest of the world *)

Lemma clear_letter_pending i to s :
  to ≠ pending → pendingRows (deadLetters (clear_letter i to s)) ≤ pendingRows (deadLetters s).
Proof.
  intros Hto. change (deadLetters (clear_letter i to s)) with
    (alter (λ d, d {{ dlStatus := to }}) i (deadLetters s)).
  generalize (deadLetters s) as l. intros l. revert i.
  induction l as [|d l IH]; intros [|i]; [done..| |].
  - change (alter ?f 0 (d :: l)) with (f d :: l). unfold pendingRows. cbn [sum_list_with].
    rewrite decide_False by done. lia.
  - change (alter ?f (S i) (d :: l)) with (d :: alter f i l).
    specialize (IH i). unfold pendingRows in *. cbn [sum_list_with]. lia.
Qed.

Lemma clear_letter_kept i to s : to ≠ pending → letters_kept s (clear_letter i to s).
Proof.
  intros Hto. split; [|by apply clear_letter_pending]. intros d [n Hd]%list_elem_of_lookup. cbn.
  destruct (decide (n = i)) as [->|Hne].
  - exists (d {{ dlStatus := to }}). split; [|done]. apply list_elem_of_lookup. exists i.
    rewrite list_lookup_alter_eq. by setoid_rewrite Hd.
  - exists d. split; [|done]. apply list_elem_of_lookup. exists n. by rewrite list_lookup_alter_ne.
Qed.

Lemma good_letter p i to :
  Good p → to ≠ pending →
  Good {| sys := clear_letter i to (sys p); handler := handler p; writer := writer p;
          taken := taken p; dueFlushes := dueFlushes p |}.
Proof.
  intros Hg Hto. pose proof (clear_letter_kept i to (sys p) Hto) as Hk.
  assert (Hs : ∀ e, settled (sys p) e → settled (clear_letter i to (sys p)) e)
    by (intros e; by apply settled_kept).
  pose proof (good_inv _ Hg) as Hi.
  apply good_aside; [done| | | |done].
  - eapply (inv_transfer _ _ _ _ _ _ (sys p)); try done; try apply Hi.
    + intros c Hc. eapply up_to_mono; [exact Hs|]. by eapply inv_saved.
    + intros c Hc. eapply up_to_mono; [exact Hs|]. by eapply inv_acked.
    + etrans; [by apply clear_letter_pending|apply Hi].
  - split; [done|]. split; [by split|]. split; [done|]. split; [|split; [by left|done]].
    intros e [?|[?|?]] _; [left; auto|right; by left|right; by right].
  - split; [done|]. intros b Hb. by split.
Qed.

Lemma beginStream_inv t pk s :
  inv t s → ∀ t', resumes_at log s t' → inv t' (beginStream pk s).
Proof.
  intros Hi t' Ht'. pose proof Hi as [].
  assert (Hs : ∀ e, settled s e → settled (beginStream pk s) e) by done.
  split; try done.
  - intros c Hc. eapply up_to_mono; [exact Hs|]. apply inv_saved. by rewrite inv_mark.
  - intros _. split; [apply one_delivery_nil|]. by intros k ?%elem_of_nil.
  - intros i e Hit He _. left. apply Hs. unfold resumes_at in Ht'.
    destruct (readCursor (cursorJson (job s))) as [c|]; [|lia].
    destruct (inv_saved c) as (d & e' & Hd & Hc & Hset); [by rewrite inv_mark|].
    specialize (Ht' d e' Hd Hc). apply (Hset i); [lia|done].
Qed.

Lemma good_restart p pk t :
  Good p → resumes_at log (sys p) t →
  Good {| sys := beginStream pk (sys p); handler := None; writer := None; taken := t;
          dueFlushes := 0 |}.
Proof.
  intros [Hi Hc Hd] Ht. split; cbn; [by eapply beginStream_inv| |done].
  right. apply room_nil.
Qed.

(** ** Every process *)

Lemma good_step p p' : Good p → intact p → steps p p' → Good p'.
Proof.
  intros Hg Hn' Hs. pose proof Hg as [Hi Hc Hd]. destruct Hs as
    [j e Hh Hr Hj He|j g R f k Hh Ht|j m Hh Hm|g R f k Hw Ht|m Hw Hm| |n Hh Hn|m Hh Hr|m Hh Hr|
     i to Hto| |pk t Ht].
  - apply (good_call p); [done|]. by apply good_event.
  - by apply (good_handler_step p j g).
  - by apply (good_handled p j m).
  - by apply (good_writer_step p g).
  - by apply (good_written p m).
  - by apply (good_quiet p).
  - rewrite Hh in Hc. apply (good_call p); [done|]. by apply tri_flush_room.
  - rewrite Hh in Hc. apply (good_call p); [done|]. by apply tri_handleFatal.
  - rewrite Hh in Hc. apply (good_call p); [done|]. by apply tri_handlePositionLost.
  - by apply (good_letter p).
  - by apply (good_quiet p).
  - by apply (good_restart p).
Qed.

Lemma good_initial p : initial config p → Good p.
Proof.
  intros (pk & s & Hc & Ha & Hl & ->). split; cbn -[beginStream]; [|by right; apply room_nil|done].
  split; try done; cbn -[readCursor].
  - by rewrite Hc.
  - intros c Hc'. change (c ∈ acked s) in Hc'. rewrite Ha in Hc'. by apply elem_of_nil in Hc'.
  - intros _. split; [apply one_delivery_nil|]. by intros k ?%elem_of_nil.
  - intros i e Hit. lia.
Qed.

Lemma unbroken_good p : unbroken bridge config provider jobId log p → Good p.
Proof.
  induction 1 as [p Hp|p p' Hp IH Hs Hn]; [by apply good_initial|].
  eapply good_step; [exact IH|by eapply unbroken_intact|done].
Qed.

(** what a handler throws *)
Lemma good_throws p j e : Good p → handler p = Some (j, Throw e) → ∃ n, drift_answer n = inl e.
Proof.
  intros [Hi Hc _] Hh. rewrite Hh in Hc. destruct j as [j|].
  - destruct Hc as (_ & ev & _ & Hw). by apply (Hw (sys p)).
  - by apply (Hc (sys p)).
Qed.

(** where the look at the columns always answers, no chain breaks *)
Lemma answering_unbroken p :
  (∀ n, ∃ v, drift_answer n = inr v) → reachable bridge config provider jobId log p →
  unbroken bridge config provider jobId log p.
Proof.
  intros Ha. induction 1 as [p Hp|p p' Hp IH Hs]; [by apply unbroken_initial|].
  eapply unbroken_step; [exact IH|exact Hs|]. intros j e Hh.
  destruct (good_throws p' j e) as [n Hn]; [|done|].
  - eapply good_step; [by apply unbroken_good|by eapply unbroken_intact|done].
  - destruct (Ha n) as [v Hv]. congruence.
Qed.
End system.
