(* ===== verification/CdcRun.v ===== *)
(** Running a bridge: an executable scheduler over the steps of [CdcSystem], for
    concrete traces. A choice that is not open is passed over. At the end, a small
    bridge to run. *)
From S2P Require Import Prelude JsText JsNumber JsDate JsValue JsJson.
From S2P Require Import BridgeConfig ColumnTransforms FilterMatch TypeMap SchemaDrift.
From S2P Require Import Isolate Async Bridge CdcState Ledger Cdc CdcSystem CdcSafety.

Local Open Scope async_scope.

Inductive choice :=
| hand_over (j : nat)
| run_chain
| run_delivery
| fire_timer
| timed_flush
| fail_for_good (m : string)
| lose_position (m : string)
| clear (i : nat) (to : dead_letter_status)
| tear_down
| restart (pk : option (list string)) (t : nat).

Section run.
Context `{JsHost} `{JsPrint} `{Outside}.
Context (bridge : BridgeInput) (config : RuntimeConfig) (provider : CdcProvider) (jobId : string).
Context (log : list LogEvent).

Definition resumes_atb (s : Sys) (t : nat) : bool :=
  match readCursor (cursorJson (job s)) with
  | None => bool_decide (t = 0)
  | Some c => forallb (λ de, negb (bool_decide (event_cursor de.2 = c)) || bool_decide (t ≤ S de.1))
                (imap pair log)
  end.

Lemma resumes_atb_spec s t : resumes_atb s t = true → resumes_at log s t.
Proof.
  unfold resumes_atb, resumes_at. destruct (readCursor _) as [c|]; [|by intros ?%bool_decide_eq_true].
  rewrite forallb_forall. intros Hall d e Hd Hc. assert (Hin : (d, e) ∈ imap pair log).
  { apply elem_of_lookup_imap. by exists d, e. }
  apply list_elem_of_In, Hall in Hin. cbn in Hin. rewrite bool_decide_true in Hin by done.
  by apply bool_decide_eq_true in Hin.
Qed.

Definition chain_turn (p : Process) : option Process :=
  match handler p with
  | Some (j, Act g f k) =>
      if g (sys p) then
        Some (p {{ sys := (f (sys p)).2; handler := Some (j, k (f (sys p)).1);
                   writer ::= started bridge config jobId (sys p) (f (sys p)).2 }})
      else None
  | Some (j, _) =>
      Some (p {{ handler := None;
                 taken := match j with
                          | Some j => if alive (sys p) then Nat.max (taken p) (S j) else taken p
                          | None => taken p
                          end }})
  | None => None
  end.

Definition delivery_turn (p : Process) : option Process :=
  match writer p with
  | Some (Act g f k) =>
      if g (sys p) then Some (p {{ sys := (f (sys p)).2; writer := Some (k (f (sys p)).1) }})
      else None
  | Some _ => Some (p {{ sys ::= on_stream (λ st, st {{ inflight := None }}); writer := None }})
  | None => None
  end.

(** the chain takes up something new *)
Definition take_up (p : Process) (h : option nat * @async Sys unit) : option Process :=
  match handler p with
  | None => if registered (stream (sys p)) then Some (p {{ handler := Some h }}) else None
  | Some _ => None
  end.

Definition perform (c : choice) (p : Process) : option Process :=
  match c with
  | hand_over j =>
      e ← log !! j;
      if bool_decide (j ≤ taken p) then take_up p (Some j, handle bridge config provider e) else None
  | run_chain => chain_turn p
  | run_delivery => delivery_turn p
  | fire_timer =>
      if bool_decide (timerFor (stream (sys p)) ≠ None) && registered (stream (sys p)) then
        Some (p {{ sys ::= on_stream (λ st, st {{ timerFor := None }}); dueFlushes ::= S }})
      else None
  | timed_flush =>
      match handler p, dueFlushes p with
      | None, S n => Some (p {{ handler := Some (None, flush); dueFlushes := n }})
      | _, _ => None
      end
  | fail_for_good m => take_up p (None, handleFatal m)
  | lose_position m => take_up p (None, handlePositionLost m)
  | clear i to => if bool_decide (to = pending) then None else Some (p {{ sys ::= clear_letter i to }})
  | tear_down => Some (p {{ sys ::= on_stream (λ st, st {{ registered := false; timerFor := None;
                                                           consumerStop := true }}) }})
  | restart pk t =>
      if resumes_atb (sys p) t then
        Some {| sys := beginStream pk (sys p); handler := None; writer := None; taken := t;
                dueFlushes := 0 |}
      else None
  end.

Lemma take_up_spec p h p' :
  take_up p h = Some p' →
  handler p = None ∧ registered (stream (sys p)) = true ∧ p' = p {{ handler := Some h }}.
Proof.
  unfold take_up. destruct (handler p); [done|]. destruct (registered _); [|done]. by intros [= <-].
Qed.

Lemma chain_turn_step p p' : chain_turn p = Some p' → step bridge config provider jobId log p p'.
Proof.
  unfold chain_turn. destruct (handler p) as [[j [x|e|g R f k]]|] eqn:Hh; [| | |done].
  - intros [= <-]. by eapply step_handled.
  - intros [= <-]. by eapply step_handled.
  - destruct (g (sys p)) eqn:Hg; [|done]. intros [= <-]. by apply step_handler with g.
Qed.

Lemma delivery_turn_step p p' :
  delivery_turn p = Some p' → step bridge config provider jobId log p p'.
Proof.
  unfold delivery_turn. destruct (writer p) as [[x|e|g R f k]|] eqn:Hw; [| | |done].
  - intros [= <-]. by eapply step_written.
  - intros [= <-]. by eapply step_written.
  - destruct (g (sys p)) eqn:Hg; [|done]. intros [= <-]. by apply step_writer with g.
Qed.

Lemma perform_step c p p' : perform c p = Some p' → step bridge config provider jobId log p p'.
Proof.
  destruct c as [j| | | | |m|m|i to| |pk t]; cbn -[handleFatal handlePositionLost].
  - destruct (log !! j) as [e|] eqn:He; [|done]. cbn. case_bool_decide as Hj; [|done].
    intros (? & ? & ->)%take_up_spec. by apply step_event.
  - apply chain_turn_step.
  - apply delivery_turn_step.
  - case_bool_decide as Ht; [|done]. destruct (registered _) eqn:Hr; [|done]. intros [= <-].
    by apply step_timer.
  - destruct (handler p) eqn:Hh; [done|]. destruct (dueFlushes p) eqn:Hd; [done|]. intros [= <-].
    by apply step_timed_flush.
  - intros (? & ? & ->)%take_up_spec. by apply step_fatal.
  - intros (? & ? & ->)%take_up_spec. by apply step_position_lost.
  - case_bool_decide; [done|]. intros [= <-]. by apply step_letter.
  - intros [= <-]. apply step_teardown.
  - destruct (resumes_atb _ _) eqn:Hr; [|done]. intros [= <-].
    by apply step_restart, resumes_atb_spec.
Qed.

Definition run (cs : list choice) (p : Process) : Process :=
  foldl (λ p c, default p (perform c p)) p cs.

Lemma run_reachable cs p :
  reachable bridge config provider jobId log p → reachable bridge config provider jobId log (run cs p).
Proof.
  revert p. induction cs as [|c cs IH]; intros p Hp; [done|]. cbn. apply IH.
  destruct (perform c p) as [p'|] eqn:Hc; [|done]. cbn.
  eapply reach_step; [done|by eapply perform_step].
Qed.

(** a run in which no handler throws *)
Definition intactb (p : Process) : bool :=
  match handler p with Some (_, Throw _) => false | _ => true end.

Fixpoint run_intact (cs : list choice) (p : Process) : bool :=
  match cs with
  | [] => true
  | c :: cs => let p' := default p (perform c p) in intactb p' && run_intact cs p'
  end.

Lemma intactb_spec p : intactb p = true → intact p.
Proof. unfold intactb. intros Hp j e He. by rewrite He in Hp. Qed.

Lemma run_unbroken cs p :
  run_intact cs p = true → unbroken bridge config provider jobId log p →
  unbroken bridge config provider jobId log (run cs p).
Proof.
  revert p. induction cs as [|c cs IH]; intros p Hi Hp; [done|]. cbn [run_intact] in Hi.
  apply andb_true_iff in Hi as [Hi1 Hi2]. apply IH; [done|].
  destruct (perform c p) as [p'|] eqn:Hc; [|done].
  eapply unbroken_step; [done|by eapply perform_step|by apply intactb_spec].
Qed.
End run.

(** ** A small bridge

    an HTTP destination that takes two rows at a time, and a table with four things
    to say *)

#[export] Instance sample_host : JsHost := {| date_parse _ := None; local_offset _ := 0%Z |}.
#[export] Instance sample_print : JsPrint := {| date_text _ := "date"; bytes_text _ := "bytes" |}.

Definition sample_source : TableSource :=
  {| connectionId := "pg"; database := None; schema := Some "public"; table := "users";
     filters := None; sort := None |}.

Definition sample_delivery (e : on_failure) : BridgeDeliveryConfig :=
  {| batchSize := 2; BridgeConfig.maxAttempts := 3; backoffMs := 500; backoffMaxMs := 30000; minDelayMs := 0;
     timeoutMs := 15000; pageSize := 200; onError := e; onSchemaChange := schema_stop |}.

Definition sample_bridge (e : on_failure) : BridgeInput :=
  {| bname := "users"; source := FromTable sample_source;
     destination := Http {| url := "https://example.org/in"; method := POST; headers := None;
                            auth := NoAuth; idempotency := true |};
     transform := {| payload := {| Template.template := "{{$row}}"; Template.fields := None; Template.rename := None;
                                   Template.wrapKey := None |};
                     columns := None |};
     delivery := sample_delivery e; trigger := Cdc [op_insert; op_delete] from_now own_slot;
     benabled := true |}.

Definition sample_config (spool : bool) : RuntimeConfig :=
  {| cdcBatchSize := 100000; cdcBatchBytes := 67108864; cdcSpool := spool; cdcSpoolMax := 1000;
     maxConsecutiveFailures := 5; deadLetterMaxRows := 100 |}.

(** positions in order of their text *)
Definition sample_provider : CdcProvider :=
  {| engine := postgres; handlesSourceFilters := false;
     cursorAfter a b := match b with None => true | Some b => String.ltb b a end |}.

Definition user (id name : string) : Row :=
  {| cols := [("id", VStr id); ("name", VStr name)]; origins := [] |}.

Definition insert_of (c : string) (r : Row) : CdcChange :=
  {| op := op_insert; crow := r; ccursor := c; keyChanged := false |}.

Definition sample_log : list LogEvent :=
  [EvChange (insert_of "1" (user "1" "ada")); EvChange (insert_of "2" (user "2" "alan"));
   EvNotice "TRUNCATE was not applied" "3"; EvSkip "4"].

Definition no_echo : EchoVerdict := {| echo := false; eorigins := [] |}.

Definition answer (ok : bool) : DeliveryOutcome :=
  {| success := ok; oattempts := 1; oerror := if ok then None else Some "HTTP 500";
     osucceededTargets := None |}.

(** everything outside answers, the sink as [sink] says; [down] lists the store
    calls that are refused, by number *)
Definition sample_outside (sink : nat → bool) (down : nat → bool) (drifts : nat → bool) : Outside :=
  {| store_refuses n := if down n then Some "store down" else None;
     spool_refuses _ := None; spool_takes _ _ := false; spool_malformed _ := false; ack_lost _ := false;
     sink_answer n _ _ := inr (answer (sink n));
     browse_answer _ _ := inr None; engine_answer _ _ := inr postgres;
     drift_answer n := if drifts n then inl "store down" else inr None;
     truncate_answer _ := no_echo; echo_answer _ _ _ := no_echo; echo_dropped _ _ := false |}.

Definition fresh : Sys :=
  {| stream := {| seq := 0; watermark := None; primaryKey := None; buffer := []; bufferOp := None;
                  bufferKeys := []; tailCursor := None; timerFor := None; byteCappedBatch := None;
                  inflight := None; consumerStop := false; halted := false;
                  consecutiveFailures := 0; wholeValueTarget := None; columnSignature := None;
                  registered := false |};
     job := {| cursorOffset := 0; cursorJson := None; jstatus := job_paused; jerror := None;
               counters := {| sentCount := 0; failedCount := 0; skippedCount := 0 |} |};
     deliveries := ∅; deadLetters := []; spool := []; nextId := 1; sinkLog := []; acked := [];
     tick := 0 |}.

Definition first_start : Process :=
  {| sys := beginStream (Some ["id"]) fresh; handler := None; writer := None; taken := 0;
     dueFlushes := 0 |}.

Definition handed (j : nat) : list choice := hand_over j :: replicate 30 run_chain.
Definition deliver : list choice := replicate 30 run_delivery.

Lemma sample_reachable `{Outside} b log cs spool :
  reachable b (sample_config spool) sample_provider "job" log
    (run b (sample_config spool) sample_provider "job" log cs first_start).
Proof.
  apply run_reachable, reach_initial. exists (Some ["id"]), fresh. split_and!; try done. cbn. lia.
Qed.

#[export] Instance sample_order : CursorOrder sample_provider sample_log.
Proof.
  split; [done|]. intros [|[|[|[|i]]]] [|[|[|[|j]]]] ei ej; cbn; intros [= <-] [= <-]; cbn;
    intros Hc; try lia; vm_compute in Hc; done.
Qed.

Lemma sample_rows c : EvChange c ∈ sample_log → NoDup (obj_keys (cols (crow c))).
Proof.
  unfold sample_log. rewrite !elem_of_cons, elem_of_nil.
  intros [[= ->]|[[= ->]|[?|[?|[]]]]]; [| |done..]; apply (bool_decide_unpack _); vm_compute; done.
Qed.
