(* ===== verification/Snapshot.v ===== *)
(** Copying a table before following its changes
    ([apps/api/src/bridges/cdc/snapshot-provider.ts]): the cursor of a copied row,
    how it compares, what is held back while the copy runs, and the copy itself. *)
From Stdlib Require Import Sorted.
From stdpp Require Import sorting.
From S2P Require Import Prelude JsText JsNumber JsInteger JsDate JsValue JsBytes JsJson JsonText.
From S2P Require Import BridgeConfig ColumnTransforms FilterMatch TypeMap SchemaDrift.
From S2P Require Import Isolate Async Bridge CdcState Ledger Cdc CdcSystem CdcSafety CdcRun TableReader.

(** ** The cursor of a copied row *)

Definition PREFIX : string := "B:".

Record SnapshotCursor := {
  sindex : Z;
  skey : option KeysetCheckpoint;
  sfrom : option string;
  sdone : bool
}.

Definition isSnapshotCursor (cursor : string) : bool := startsWith PREFIX cursor.

(** what [JSON.stringify] sees through the replacer: a big integer as its text *)
Fixpoint without_big (v : jsval) : jsval :=
  match v with
  | VBig z => VStr (Z_to_string z)
  | VArr l => VArr (without_big <$> l)
  | VObj o => VObj ((λ kv, (kv.1, without_big kv.2)) <$> o)
  | _ => v
  end.

Definition checkpoint_value (k : KeysetCheckpoint) : jsval :=
  VObj [("column", VStr (kcolumn k)); ("value", kvalue k)].

Definition cursor_body (c : SnapshotCursor) : jsval :=
  VObj (match skey c with Some k => [("k", checkpoint_value k)] | None => [] end ++
        [("f", match sfrom c with Some f => VStr f | None => VNull end)] ++
        (if sdone c then [("d", VBool true)] else [])).

(** [Buffer.from(text, 'utf8')], and back; [None] where the text would hold a
    character that is not one code unit of the model's *)
Definition utf8_bytes (s : string) : list Z :=
  chars s ≫= λ c, let n := Z.of_N (code c) in
                  if (n <? 128)%Z then [n] else [192 + n / 64; 128 + n mod 64]%Z.

Fixpoint utf8_chars (bs : list Z) : option (list ascii) :=
  match bs with
  | [] => Some []
  | b :: bs =>
      if (b <? 128)%Z then cons (ascii_of_N (Z.to_N b)) <$> utf8_chars bs
      else match bs with
           | b2 :: bs => if ((b =? 194) || (b =? 195))%Z && (128 <=? b2)%Z && (b2 <? 192)%Z
                         then cons (ascii_of_N (Z.to_N ((b - 192) * 64 + (b2 - 128)))) <$> utf8_chars bs
                         else None
           | [] => None
           end
  end.

Definition utf8_text (bs : list Z) : option string := of_chars <$> utf8_chars bs.

(** [toString('base64url')]: no padding *)
Definition url_char (n : Z) : ascii :=
  if (n =? 62)%Z then "-"%char else if (n =? 63)%Z then "_"%char else b64_char n.

Fixpoint base64url_chars (bs : list Z) : list ascii :=
  match bs with
  | [] => []
  | [a] => [url_char (a / 4); url_char (a mod 4 * 16)]
  | [a; b] => [url_char (a / 4); url_char (a mod 4 * 16 + b / 16); url_char (b mod 16 * 4)]
  | a :: b :: c :: r =>
      url_char (a / 4) :: url_char (a mod 4 * 16 + b / 16) ::
      url_char (b mod 16 * 4 + c / 64) :: url_char (c mod 64) :: base64url_chars r
  end%Z.

Definition base64url (bs : list Z) : string := of_chars (base64url_chars bs).

Definition formatSnapshotCursor (c : SnapshotCursor) : string :=
  match stringify (without_big (cursor_body c)) with
  | JText body => PREFIX +:+ Z_to_string (sindex c) +:+ ":" +:+ base64url (utf8_bytes body)
  | _ => EmptyString
  end.

Definition read_checkpoint (v : jsval) : option KeysetCheckpoint :=
  if truthy v then
    match property v "column" with
    | VStr c => Some {| kcolumn := c; kvalue := property v "value" |}
    | _ => None
    end
  else None.

Definition parseSnapshotCursor (cursor : string) : option SnapshotCursor :=
  if negb (isSnapshotCursor cursor) then None else
  sep ← indexOf_from ":" cursor 2;
  let n := string_to_num (slice 2 sep cursor) in
  if negb (is_integer n) || num_lt n (num_of_Z 0) then None else
  text ← utf8_text (base64_decode (slice_from (S sep) cursor));
  o ← json_parse text;
  if is_nil o then None else
  Some {| sindex := trunc_Z n; skey := read_checkpoint (property o "k");
          sfrom := text_of (property o "f"); sdone := strict_eq (property o "d") (VBool true) |}.

(** the engine's own cursor inside a saved position *)
Definition streamCursorOf (cursor : option string) : option string :=
  match cursor with
  | None => None
  | Some c => match parseSnapshotCursor c with
              | Some s => sfrom s
              | None => if isSnapshotCursor c then None else Some c
              end
  end.

(** ** The provider around the engine's *)

Definition snapshot_after (inner : CdcProvider) (a : string) (b : option string) : bool :=
  match b with
  | None => true
  | Some b' =>
      match parseSnapshotCursor a, parseSnapshotCursor b' with
      | Some x, Some y => (sindex y <? sindex x)%Z
      | Some _, None => false
      | None, Some _ => true
      | None, None => if isSnapshotCursor b' then true else cursorAfter inner a b
      end
  end.

Definition SnapshotCdcProvider (inner : CdcProvider) : CdcProvider :=
  {| engine := engine inner; handlesSourceFilters := handlesSourceFilters inner;
     cursorAfter := snapshot_after inner |}.

(** what a start does: open the engine's stream, or copy first *)
Inductive opening :=
| Follow (fromCursor : option string)
| CopyThenFollow (resume : option SnapshotCursor).

Definition startStream (fromCursor : option string) (snapshot : bool) : opening :=
  match fromCursor ≫= parseSnapshotCursor with
  | Some resume => if sdone resume then Follow (sfrom resume) else CopyThenFollow (Some resume)
  | None => if snapshot && bool_decide (fromCursor = None) then CopyThenFollow None
            else Follow fromCursor
  end.

(** is a position passed on to the engine's stream to confirm? *)
Definition acknowledges (cursor : string) : bool := negb (isSnapshotCursor cursor).

(** ** A cursor is read back as it was made *)

Lemma url_char_value n : (0 <= n < 64)%Z →
  (url_char n =? "=")%char = false ∧ b64_value (url_char n) = Some n.
Proof.
  intros Hn. unfold url_char. destruct (n =? 62)%Z eqn:H2; bool_to_prop; [by subst|].
  destruct (n =? 63)%Z eqn:H3; bool_to_prop; [by subst|]. by apply b64_char_value.
Qed.

Lemma b64_values_url n l : (0 <= n < 64)%Z → b64_values (url_char n :: l) = n :: b64_values l.
Proof. intros Hn. cbn [b64_values]. by destruct (url_char_value n Hn) as [-> ->]. Qed.

Lemma base64url_round_trip bs : Forall is_byte bs → base64_decode (base64url bs) = bs.
Proof.
  unfold base64_decode, base64url. rewrite chars_of_chars.
  remember (List.length bs) as n eqn:Hn. revert bs Hn.
  induction n as [n IH] using lt_wf_ind. intros bs -> Hb.
  destruct bs as [|a [|b [|c r]]]; [done|..]; cbn [base64url_chars].
  - inversion_clear Hb. rewrite !b64_values_url by byte_arith. cbn. f_equal. byte_arith.
  - inversion_clear Hb as [|? ? ? Hb']. inversion_clear Hb'.
    rewrite !b64_values_url by byte_arith. cbn. f_equal; [|f_equal]; byte_arith.
  - inversion_clear Hb as [|? ? Ha Hb']. inversion_clear Hb' as [|? ? Hb2 Hb''].
    inversion_clear Hb'' as [|? ? Hc Hr]. rewrite !b64_values_url by byte_arith. cbn [b64_bytes].
    rewrite (IH (List.length r)) by (done || (cbn; lia)).
    f_equal; [|f_equal; [|f_equal]]; byte_arith.
Qed.

Lemma utf8_char_round_trip c l :
  utf8_chars ((let n := Z.of_N (code c) in
               if (n <? 128)%Z then [n] else [192 + n / 64; 128 + n mod 64]%Z) ++ l) =
  cons c <$> utf8_chars l.
Proof. destruct c as [[] [] [] [] [] [] [] []]; reflexivity. Qed.

Lemma utf8_round_trip s : utf8_text (utf8_bytes s) = Some s.
Proof.
  unfold utf8_text. enough (H : utf8_chars (utf8_bytes s) = Some (chars s))
    by (rewrite H; cbn; by rewrite of_chars_chars).
  unfold utf8_bytes.
  induction (chars s) as [|c l IH]; [done|]. cbn [mbind list_bind].
  by rewrite utf8_char_round_trip, IH.
Qed.

Lemma utf8_are_bytes s : Forall is_byte (utf8_bytes s).
Proof.
  unfold utf8_bytes. induction (chars s) as [|c l IH]; [constructor|]. cbn [mbind list_bind].
  apply Forall_app. split; [|exact IH].
  destruct c as [[] [] [] [] [] [] [] []]; repeat constructor; discriminate.
Qed.

(** a cursor whose key has a JSON form of its own *)
Definition cursor_ok (c : SnapshotCursor) : Prop :=
  (0 <= sindex c < 2 ^ 53)%Z ∧
  match skey c with Some k => json_plain (kvalue k) = true | None => True end.

Lemma without_big_plain v : json_plain v = true → without_big v = v.
Proof.
  induction v using jsval_nested_ind; cbn [json_plain without_big]; intros Hv; try done.
  - f_equal. rewrite forallb_forall in Hv. rewrite Forall_forall in H.
    rewrite <- (list_fmap_id l) at 2. apply list_fmap_ext. intros i x Hx.
    apply list_elem_of_lookup_2 in Hx. apply H; [done|]. by apply Hv, list_elem_of_In.
  - apply andb_true_iff in Hv as [_ Hv]. f_equal. rewrite forallb_forall in Hv.
    rewrite Forall_forall in H. rewrite <- (list_fmap_id o) at 2. apply list_fmap_ext.
    intros i [k x] Hx. apply list_elem_of_lookup_2 in Hx. cbn. f_equal.
    apply (H (k, x)); [done|]. by apply (Hv (k, x)), list_elem_of_In.
Qed.

Lemma json_plain_object o :
  own_order o = true → Forall (λ kv, json_plain kv.2 = true) o → json_plain (VObj o) = true.
Proof.
  intros Ho Hv. cbn [json_plain]. rewrite Ho. apply forallb_forall.
  intros kv Hkv%list_elem_of_In. rewrite Forall_forall in Hv. by apply Hv.
Qed.

Lemma cursor_body_plain c :
  match skey c with Some k => json_plain (kvalue k) = true | None => True end →
  json_plain (cursor_body c) = true.
Proof.
  intros Hk. apply json_plain_object.
  - destruct (skey c), (sdone c); vm_compute; reflexivity.
  - apply Forall_app. split; [|apply Forall_app; split].
    + destruct (skey c) as [k|]; [|constructor]. constructor; [|constructor].
      apply json_plain_object; [vm_compute; reflexivity|]. by repeat constructor.
    + destruct (sfrom c); by repeat constructor.
    + destruct (sdone c); by repeat constructor.
Qed.

Lemma cursor_text_parts i rest :
  (0 <= i)%Z →
  let cursor := PREFIX +:+ Z_to_string i +:+ ":" +:+ rest in
  isSnapshotCursor cursor = true ∧
  indexOf_from ":" cursor 2 = Some (2 + str_length (Z_to_string i)) ∧
  slice 2 (2 + str_length (Z_to_string i)) cursor = Z_to_string i ∧
  slice_from (S (2 + str_length (Z_to_string i))) cursor = rest.
Proof.
  intros Hi cursor. subst cursor.
  replace (Z_to_string i) with (pretty (Z.to_N i)) by (rewrite <- Z_to_string_of_N; f_equal; lia).
  set (d := pretty (Z.to_N i)).
  assert (Hc : chars (PREFIX +:+ d +:+ ":" +:+ rest) = ["B"%char; ":"%char] ++ chars d ++ ":"%char :: chars rest)
    by (rewrite !chars_app; done).
  assert (Hno : ":"%char ∉ chars d).
  { destruct (pretty_spec (Z.to_N i)) as [(Hd & _ & _) _]. intros Hin.
    rewrite Forall_forall in Hd. by specialize (Hd _ Hin). }
  split_and!.
  - unfold isSnapshotCursor, startsWith. by rewrite Hc.
  - unfold indexOf_from. rewrite Hc. change (drop 2 (["B"%char; ":"%char] ++ ?l)) with l.
    change (chars ":") with [":"%char]. rewrite find_at_char by done. by rewrite length_chars.
  - unfold slice. rewrite Hc. change (drop 2 (["B"%char; ":"%char] ++ ?l)) with l.
    replace (2 + str_length d - 2) with (List.length (chars d)) by (rewrite length_chars; lia).
    rewrite take_app_length. apply of_chars_chars.
  - unfold slice_from. rewrite Hc.
    replace (["B"%char; ":"%char] ++ chars d ++ ":"%char :: chars rest)
      with ((["B"%char; ":"%char] ++ chars d ++ [":"%char]) ++ chars rest) by (by rewrite <- !app_assoc).
    rewrite drop_app_length'; [apply of_chars_chars|].
    rewrite !length_app, length_chars. cbn. lia.
Qed.

Lemma property_body c :
  property (cursor_body c) "k" = match skey c with Some k => checkpoint_value k | None => VUndef end ∧
  property (cursor_body c) "f" = match sfrom c with Some f => VStr f | None => VNull end ∧
  property (cursor_body c) "d" = if sdone c then VBool true else VUndef.
Proof. unfold cursor_body. destruct (skey c), (sfrom c), (sdone c); done. Qed.

Lemma parse_format c : cursor_ok c → parseSnapshotCursor (formatSnapshotCursor c) = Some c.
Proof.
  intros [Hi Hk]. unfold formatSnapshotCursor. pose proof (cursor_body_plain c Hk) as Hplain.
  rewrite without_big_plain by done. destruct (json_round_trip _ Hplain) as (body & -> & Hp).
  destruct (cursor_text_parts (sindex c) (base64url (utf8_bytes body))) as (H1 & H2 & H3 & H4); [lia|].
  unfold parseSnapshotCursor. rewrite H1, H2. cbn [negb mbind option_bind]. rewrite H3, H4.
  replace (Z_to_string (sindex c)) with (num_to_string (num_of_Z (sindex c)))
    by (by apply num_to_string_integer).
  rewrite string_to_num_integer by done.
  destruct (num_of_Z_integer (sindex c) Hi) as (-> & -> & _ & ->). cbn [negb orb].
  rewrite base64url_round_trip by apply utf8_are_bytes. rewrite utf8_round_trip. cbn [mbind option_bind].
  rewrite Hp. cbn [mbind option_bind]. destruct (property_body c) as (-> & -> & ->).
  change (is_nil (cursor_body c)) with false. cbv iota. f_equal.
  destruct c as [i k f d]; cbn [skey sfrom sdone sindex]. f_equal.
  - by destruct k as [[col v]|].
  - by destruct f.
  - by destruct d.
Qed.

Lemma formatted_is_snapshot c : cursor_ok c → isSnapshotCursor (formatSnapshotCursor c) = true.
Proof.
  intros Hc. pose proof (parse_format c Hc) as Hp. unfold parseSnapshotCursor in Hp.
  by destruct (isSnapshotCursor (formatSnapshotCursor c)).
Qed.

(** The cursor of a copied row reads back as the place in the copy it was made
    for, and a bridge that is stopped with it saved starts there again: the copy
    goes on from it, or, once the copy is done, the engine's stream is opened at
    the place taken before the copy began *)
Theorem snapshot_cursor_resumes c :
  cursor_ok c →
  parseSnapshotCursor (formatSnapshotCursor c) = Some c ∧
  streamCursorOf (Some (formatSnapshotCursor c)) = sfrom c ∧
  acknowledges (formatSnapshotCursor c) = false ∧
  ∀ snapshot, startStream (Some (formatSnapshotCursor c)) snapshot =
    if sdone c then Follow (sfrom c) else CopyThenFollow (Some c).
Proof.
  intros Hc. unfold streamCursorOf, startStream, acknowledges. cbn [mbind option_bind].
  rewrite parse_format, formatted_is_snapshot by done. done.
Qed.

(** the second row of a table, copied while the log stood at [0/16B3748] *)
Definition second_row : SnapshotCursor :=
  {| sindex := 1; skey := Some {| kcolumn := "id"; kvalue := VNum (num_of_Z 2) |};
     sfrom := Some "0/16B3748"; sdone := false |}.

Lemma second_row_ok : cursor_ok second_row.
Proof. split; [vm_compute; split; [discriminate|reflexivity]|vm_compute; reflexivity]. Qed.

Lemma snapshot_cursor_resumes_witness :
  formatSnapshotCursor second_row =
    "B:1:eyJrIjp7ImNvbHVtbiI6ImlkIiwidmFsdWUiOjJ9LCJmIjoiMC8xNkIzNzQ4In0" ∧
  startStream (Some (formatSnapshotCursor second_row)) true = CopyThenFollow (Some second_row).
Proof.
  split; [vm_compute; reflexivity|].
  exact (proj2 (proj2 (proj2 (snapshot_cursor_resumes second_row second_row_ok))) true).
Defined.

(** ** The log of a bridge that copies first *)

(** the copied rows in order, the marker behind them, and the engine's stream *)
Record snapshot_log (log : list LogEvent) (copied : list SnapshotCursor) (marker : SnapshotCursor)
    (stream : list LogEvent) : Prop := {
  log_cursors : event_cursor <$> log =
    (formatSnapshotCursor <$> copied ++ [marker]) ++ (event_cursor <$> stream);
  log_copied : Forall cursor_ok (copied ++ [marker]);
  log_indices i c : (copied ++ [marker]) !! i = Some c →
    ∀ j d, (copied ++ [marker]) !! j = Some d → i < j → (sindex c < sindex d)%Z;
  log_stream : Forall (λ e, isSnapshotCursor (event_cursor e) = false) stream
}.

(** C17. Around any provider whose positions order its log, the positions of the copy
    and the stream together order the copied rows and, behind them, that log *)
Theorem snapshot_orders_its_log inner log copied marker stream :
  CursorOrder inner stream → snapshot_log log copied marker stream →
  CursorOrder (SnapshotCdcProvider inner) log.
Proof.
  intros Hin [Hlog Hok Hind Hstr]. split; [done|]. intros i j ei ej Hi Hj Ha.
  set (n := List.length (copied ++ [marker])) in *.
  assert (Hcase : ∀ k e, log !! k = Some e →
    (∃ c, (copied ++ [marker]) !! k = Some c ∧ k < n ∧ event_cursor e = formatSnapshotCursor c ∧
          parseSnapshotCursor (event_cursor e) = Some c) ∨
    (∃ x, n ≤ k ∧ stream !! (k - n) = Some x ∧ event_cursor e = event_cursor x ∧
          isSnapshotCursor (event_cursor e) = false)).
  { intros k e Hk. assert (Hk' : (event_cursor <$> log) !! k = Some (event_cursor e))
      by (by rewrite list_lookup_fmap, Hk).
    rewrite Hlog in Hk'. apply lookup_app_Some in Hk' as [Hk'|[Hlen Hk']].
    - left. rewrite list_lookup_fmap in Hk'. apply fmap_Some in Hk' as (c & Hc & Heq).
      exists c. split_and!; [done|by apply lookup_lt_Some in Hc|done|]. rewrite Heq.
      apply parse_format. exact (Forall_lookup_1 _ _ _ _ Hok Hc).
    - right. rewrite length_fmap in *. fold n in Hlen, Hk'.
      rewrite list_lookup_fmap in Hk'. apply fmap_Some in Hk' as (x & Hx & Heq).
      exists x. split_and!; [done|done|done|]. rewrite Heq. exact (Forall_lookup_1 _ _ _ _ Hstr Hx). }
  change (snapshot_after inner (event_cursor ei) (Some (event_cursor ej)) = false) in Ha.
  unfold snapshot_after in Ha.
  destruct (Hcase i ei Hi) as [(c & Hc & Hci & _ & Hpc)|(x & Hni & Hx & Hex & Hsx)],
    (Hcase j ej Hj) as [(d & Hd & Hdj & _ & Hpd)|(y & Hnj & Hy & Hey & Hsy)].
  - rewrite Hpc, Hpd in Ha. bool_to_prop. destruct (decide (i ≤ j)) as [|Hij]; [done|].
    specialize (Hind j d Hd i c Hc ltac:(lia)). lia.
  - lia.
  - exfalso. rewrite Hpd in Ha. unfold parseSnapshotCursor in Ha. by rewrite Hsx in Ha.
  - unfold parseSnapshotCursor in Ha. rewrite Hsx, Hsy in Ha. cbn [negb] in Ha.
    rewrite Hex, Hey in Ha. pose proof (not_after _ _ _ _ Hx Hy Ha). lia.
Qed.

(** two rows copied, the marker, and then what the engine's stream says *)
Definition first_row : SnapshotCursor :=
  {| sindex := 0; skey := Some {| kcolumn := "id"; kvalue := VNum (num_of_Z 1) |};
     sfrom := Some "0/16B3748"; sdone := false |}.

Definition sample_copied : list SnapshotCursor := [first_row; second_row].

Definition sample_marker : SnapshotCursor :=
  {| sindex := 2; skey := None; sfrom := Some "0/16B3748"; sdone := true |}.

Definition sample_snapshot_log : list LogEvent :=
  [EvChange (insert_of (formatSnapshotCursor first_row) (user "1" "ada"));
   EvChange (insert_of (formatSnapshotCursor second_row) (user "2" "alan"));
   EvNotice "Copied the 2 rows the table already had." (formatSnapshotCursor sample_marker)] ++
  sample_log.

Lemma sample_snapshot : snapshot_log sample_snapshot_log sample_copied sample_marker sample_log.
Proof.
  split.
  - reflexivity.
  - repeat constructor; vm_compute; try reflexivity; discriminate.
  - intros [|[|[|i]]] c Hc [|[|[|j]]] d Hd Hij; try lia; try discriminate;
      injection Hc as <-; injection Hd as <-; reflexivity.
  - repeat constructor.
Qed.

Lemma snapshot_orders_its_log_witness :
  CursorOrder (SnapshotCdcProvider sample_provider) sample_snapshot_log.
Proof. apply (snapshot_orders_its_log _ _ _ _ _ sample_order sample_snapshot). Defined.
