(* ===== verification/HeldChanges.v ===== *)
(** The changes held back while a table is copied, on an engine with no place to
    take in a log ([apps/api/src/bridges/cdc/snapshot-provider.ts], [HeldChanges]
    and the gated stream of [copyThenFollow]). *)
From S2P Require Import Prelude JsText JsNumber JsInteger JsDate JsValue JsBytes JsJson JsonText.
From S2P Require Import BridgeConfig ColumnTransforms FilterMatch TypeMap SchemaDrift.
From S2P Require Import Isolate Async Bridge CdcState Ledger Cdc CdcSystem CdcSafety CdcRun.

(** ** Changes held back *)

(** a key of the map: [undefined] where [JSON.stringify] gives nothing *)
Record HeldChanges := {
  byKey : list (option string * CdcChange);
  anonymous : nat
}.

Definition no_changes : HeldChanges := {| byKey := []; anonymous := 0 |}.

(** the key of a change that has one; [None] where it is anonymous *)
Definition change_key (keyColumn : option string) (c : CdcChange) : option (option string) :=
  let value := match keyColumn with
               | Some (String _ _ as k) => obj_get (cols (crow c)) k
               | _ => VUndef
               end in
  if is_nil value then None else
  match stringify value with
  | JText t => Some (Some t)
  | JUndefined => Some None
  | JThrows => None
  end.

Definition anonymous_key (n : nat) : option string := Some (String NUL (pretty n)).

(** [Map.delete], then [Map.set]: the change takes its place at the end *)
Definition put_last {K} `{EqDecision K} {V} (k : K) (v : V) (m : list (K * V)) : list (K * V) :=
  filter (λ kv, kv.1 ≠ k) m ++ [(k, v)].

Definition add (keyColumn : option string) (c : CdcChange) (h : HeldChanges) : HeldChanges :=
  match change_key keyColumn c with
  | Some k => {| byKey := put_last k c (byKey h); anonymous := anonymous h |}
  | None => {| byKey := put_last (anonymous_key (anonymous h)) c (byKey h);
               anonymous := S (anonymous h) |}
  end.

Definition shift (h : HeldChanges) : option (CdcChange * HeldChanges) :=
  match byKey h with
  | [] => None
  | (_, c) :: rest => Some (c, {| byKey := rest; anonymous := anonymous h |})
  end.

(** ** No text of a value starts with a NUL *)

Definition printable (s : string) : Prop := Forall (λ c, code c ≠ 0%N) (chars s).

Lemma printable_app s t : printable s → printable t → printable (s +:+ t).
Proof. unfold printable. rewrite chars_app. intros. by apply Forall_app. Qed.

Lemma printable_pretty (z : Z) : printable (Z_to_string z).
Proof.
  assert (Hn : ∀ n : N, printable (pretty n)).
  { intros n. destruct (pretty_spec n) as [(Hd & _ & _) _]. unfold printable.
    eapply Forall_impl; [exact Hd|]. intros c Hc. destruct (digit_facts c Hc) as (_ & H & _). lia. }
  destruct z as [|p|p]; [repeat constructor; done|apply (Hn (Npos p))|].
  change (Z_to_string (Zneg p)) with ("-" +:+ pretty (Npos p)).
  apply printable_app; [repeat constructor; done|apply Hn].
Qed.

Lemma printable_slice i j s : printable s → printable (slice i j s).
Proof.
  unfold printable, slice. rewrite chars_of_chars. intros Hs. by apply Forall_take, Forall_drop.
Qed.

Lemma printable_slice_from i s : printable s → printable (slice_from i s).
Proof. unfold printable, slice_from. rewrite chars_of_chars. intros Hs. by apply Forall_drop. Qed.

Lemma printable_zeros n : printable (zeros n).
Proof.
  unfold zeros. induction (Z.to_nat n) as [|k IH]; [constructor|].
  apply (printable_app "0"); [repeat constructor; done|done].
Qed.

Lemma printable_number n : printable (num_to_string n).
Proof.
  destruct n as [s|[]| |s m e]; try (repeat constructor; done). cbn [num_to_string].
  destruct (shortest _ _ _ _ _) as [[d k] j].
  apply printable_app; [destruct s; repeat constructor; done|]. unfold format_digits.
  repeat case_match; repeat first
    [ apply printable_app | apply printable_pretty | apply printable_slice
    | apply printable_slice_from | apply printable_zeros | (repeat constructor; done) ].
Qed.

Lemma stringify_no_nul v t s : stringify v = JText t → t ≠ String NUL s.
Proof.
  intros Hv ->. destruct v as [| |[]|n|z|t|t|[t|]|b|l|o]; cbn in Hv; try done.
  - injection Hv as Hv. destruct (is_finite n); [|done].
    pose proof (printable_number n) as Hp. rewrite Hv in Hp. by inversion_clear Hp.
  - unfold json_wrap in Hv. by destruct (foldr _ _ l).
  - unfold json_wrap in Hv. by destruct (foldr _ _ o).
Qed.

(** ** The gate: what arrives while the copy runs *)

Section gate.
Context (keyColumn : option string).

(** [gheld = None]: the gate is open. [ghanded]: what went to the orchestrator *)
Record Gate := {
  gheld : option HeldChanges;
  ghanded : list CdcChange;
  garrived : list CdcChange
}.

(** [onChange] of the gated stream, then the loop that hands over what was held *)
Inductive gate_step (g : Gate) : Gate → Prop :=
| gate_holds c h :
    gheld g = Some h →
    gate_step g {| gheld := Some (add keyColumn c h); ghanded := ghanded g;
                   garrived := garrived g ++ [c] |}
| gate_passes c :
    gheld g = None →
    gate_step g {| gheld := None; ghanded := ghanded g ++ [c]; garrived := garrived g ++ [c] |}
| gate_hands_over h c h' :
    gheld g = Some h → shift h = Some (c, h') →
    gate_step g {| gheld := Some h'; ghanded := ghanded g ++ [c]; garrived := garrived g |}
| gate_opens h :
    gheld g = Some h → shift h = None →
    gate_step g {| gheld := None; ghanded := ghanded g; garrived := garrived g |}.

Definition closed_gate : Gate := {| gheld := Some no_changes; ghanded := []; garrived := [] |}.

Definition held_list (g : Gate) : list CdcChange :=
  match gheld g with Some h => (byKey h).*2 | None => [] end.

(** the newest change of a key *)
Definition newest (k : option string) (cs : list CdcChange) : option CdcChange :=
  last (filter (λ c, change_key keyColumn c = Some k) cs).

(** the keys in the map are the changes' own, or anonymous ones *)
Definition keyed (h : HeldChanges) : Prop :=
  Forall (λ kc, match change_key keyColumn kc.2 with
                | Some k => kc.1 = k
                | None => ∃ n, n < anonymous h ∧ kc.1 = anonymous_key n
                end) (byKey h).

Record gate_ok (g : Gate) : Prop := {
  newest_kept k : newest k (ghanded g ++ held_list g) = newest k (garrived g);
  anonymous_kept c : c ∈ garrived g → change_key keyColumn c = None → c ∈ ghanded g ++ held_list g;
  gate_keyed : match gheld g with Some h => keyed h | None => True end
}.

(** what is held under a key leaves the newest change of every key as it was *)
Lemma newest_app k l1 l2 :
  newest k (l1 ++ l2) = match newest k l2 with Some c => Some c | None => newest k l1 end.
Proof. unfold newest. rewrite filter_app, last_app. by destruct (last _). Qed.

Lemma newest_snoc k l c :
  newest k (l ++ [c]) = if decide (change_key keyColumn c = Some k) then Some c else newest k l.
Proof.
  rewrite newest_app. unfold newest at 1. rewrite filter_cons. by case_decide.
Qed.

Definition holds_as (h : HeldChanges) (kc : option string * CdcChange) : Prop :=
  match change_key keyColumn kc.2 with
  | Some k => kc.1 = k
  | None => ∃ n, n < anonymous h ∧ kc.1 = anonymous_key n
  end.

(** taking out a key changes nothing for the changes that are not held under it *)
Lemma filter_deleted (P : CdcChange → Prop) `{∀ c, Decision (P c)} k'
    (m : list (option string * CdcChange)) :
  Forall (λ kc, P kc.2 → kc.1 ≠ k') m →
  filter P (filter (λ kv, kv.1 ≠ k') m).*2 = filter P m.*2.
Proof.
  induction 1 as [|[k1 c1] m Hh _ IH]; [done|]. rewrite fmap_cons, !filter_cons. cbn in *.
  destruct (decide (P c1)) as [Hp|Hp].
  - rewrite decide_True by auto. rewrite fmap_cons, filter_cons. cbn.
    rewrite decide_True by done. by rewrite IH.
  - case_decide; [|done]. rewrite fmap_cons, filter_cons. cbn. by rewrite decide_False.
Qed.

Lemma newest_deleted h (m : list (option string * CdcChange)) k k' :
  Forall (holds_as h) m → k ≠ k' →
  newest k (filter (λ kv, kv.1 ≠ k') m).*2 = newest k m.*2.
Proof.
  intros Hm Hk. unfold newest. f_equal. apply filter_deleted.
  eapply Forall_impl; [exact Hm|]. intros [k1 c1]. unfold holds_as. cbn. intros Hh Hc.
  rewrite Hc in Hh. congruence.
Qed.

Lemma key_not_anonymous c k n : change_key keyColumn c = Some k → k ≠ anonymous_key n.
Proof.
  unfold change_key. set (v := match keyColumn with Some _ => _ | None => _ end).
  destruct (is_nil v) eqn:Hn; [done|]. destruct (stringify v) as [t| |] eqn:Hs; try done.
  - intros [= <-] [= Ht]. by apply (stringify_no_nul v t (pretty n)).
  - by intros [= <-].
Qed.

Lemma anonymous_key_inj n m : anonymous_key n = anonymous_key m → n = m.
Proof. unfold anonymous_key. intros [= H]. by apply (inj pretty) in H. Qed.

Lemma add_keyed h c : keyed h → keyed (add keyColumn c h).
Proof.
  unfold keyed, add. intros Hk. destruct (change_key keyColumn c) as [k|] eqn:Hc; cbn [byKey anonymous];
    unfold put_last; apply Forall_app; (split; [|constructor; [cbn; rewrite Hc|constructor]]).
  - by apply Forall_kept.
  - done.
  - apply Forall_kept. eapply Forall_impl; [exact Hk|]. intros [k1 c1] H. cbn in *.
    destruct (change_key keyColumn c1); [done|]. destruct H as (n & Hn & ->). exists n. split; [lia|done].
  - exists (anonymous h). split; [lia|done].
Qed.

Lemma add_newest h c k : keyed h →
  newest k (byKey (add keyColumn c h)).*2 =
  if decide (change_key keyColumn c = Some k) then Some c else newest k (byKey h).*2.
Proof.
  intros Hk. unfold add. destruct (change_key keyColumn c) as [k'|] eqn:Hc; cbn [byKey];
    unfold put_last; rewrite fmap_app; cbn [fmap list_fmap snd]; rewrite newest_snoc, Hc.
  - case_decide as Heq; [done|]. apply (newest_deleted h); congruence || done.
  - rewrite !decide_False by done. unfold newest. f_equal. apply filter_deleted.
    eapply Forall_impl; [exact Hk|]. intros [k1 c1]. cbn. intros Hh Hc1. rewrite Hc1 in Hh.
    subst k1. by apply (key_not_anonymous c1).
Qed.

Lemma add_anonymous h c c' : keyed h → change_key keyColumn c' = None →
  c' ∈ (byKey h).*2 ∨ c' = c → c' ∈ (byKey (add keyColumn c h)).*2.
Proof.
  intros Hk Hc' Hin. unfold add, put_last.
  assert (Hkeep : ∀ k', (∀ n, n < anonymous h → anonymous_key n ≠ k') →
    c' ∈ (byKey h).*2 ∨ c' = c →
    c' ∈ (filter (λ kv : option string * CdcChange, kv.1 ≠ k') (byKey h) ++ [(k', c)]).*2).
  { intros k' Hk' [H| ->]; rewrite fmap_app; [apply elem_of_app; left|set_solver].
    apply list_elem_of_fmap in H as ([k1 c1] & -> & H). apply list_elem_of_fmap.
    exists (k1, c1). split; [done|]. apply list_elem_of_filter. split; [|done]. cbn.
    unfold keyed in Hk. rewrite Forall_forall in Hk. specialize (Hk _ H). cbn in Hk. cbn in Hc'. rewrite Hc' in Hk.
    destruct Hk as (n & Hn & ->). by apply Hk'. }
  destruct (change_key keyColumn c) as [k|] eqn:Hc; cbn [byKey]; apply Hkeep; try done.
  - intros n _ Hn. by apply (key_not_anonymous c k n).
  - intros n Hn He. apply anonymous_key_inj in He. lia.
Qed.

Lemma gate_ok_step g g' : gate_step g g' → gate_ok g → gate_ok g'.
Proof.
  intros Hs [Hnew Han Hkey].
  destruct Hs as [c h Hh|c Hh|h c h' Hh Hsh|h Hh Hsh]; unfold held_list in *; rewrite Hh in *;
    (split; [unfold held_list|unfold held_list|]); cbn [gheld ghanded garrived]; try done.
  - intros k. specialize (Hnew k). rewrite newest_snoc, newest_app, add_newest by done.
    rewrite newest_app in Hnew. by case_decide.
  - intros c' Hin Hc'. apply elem_of_app. apply elem_of_app in Hin as [Hin|Hin].
    + apply Han, elem_of_app in Hin as [?|?]; [by left| |done]. right. apply add_anonymous; auto.
    + right. apply add_anonymous; [done..|]. right. set_solver.
  - by apply add_keyed.
  - intros k. specialize (Hnew k). rewrite app_nil_r in *. rewrite !newest_snoc. by case_decide.
  - intros c' Hin Hc'. rewrite app_nil_r in *. apply elem_of_app.
    apply elem_of_app in Hin as [Hin|Hin]; [left; by apply Han|by right].
  - destruct h as [[|[k1 c1] m] a]; [done|]. injection Hsh as <- <-. intros k.
    rewrite <- Hnew, <- app_assoc. done.
  - destruct h as [[|[k1 c1] m] a]; [done|]. injection Hsh as <- <-. intros c' Hin Hc'.
    rewrite <- app_assoc. by apply Han.
  - destruct h as [[|[k1 c1] m] a]; [done|]. injection Hsh as <- <-. by inversion_clear Hkey.
  - by destruct h as [[|[k1 c1] m] a].
  - by destruct h as [[|[k1 c1] m] a].
Qed.

Lemma gate_ok_steps g g' : rtc gate_step g g' → gate_ok g → gate_ok g'.
Proof. induction 1; [done|]. eauto using gate_ok_step. Qed.

Lemma closed_gate_ok : gate_ok closed_gate.
Proof. split; cbn; [done|set_solver|constructor]. Qed.

(** C16. A change that arrives while the copy runs is not lost. Once the gate
    is open, the last change the orchestrator was handed under a key is the
    last that arrived under it, and a change with no key was handed itself;
    until then the same is true of what was handed and what is still held. *)
Theorem gate_keeps_newest (g : Gate) :
  rtc gate_step closed_gate g →
  (∀ k, newest k (ghanded g ++ held_list g) = newest k (garrived g)) ∧
  (∀ c, c ∈ garrived g → change_key keyColumn c = None → c ∈ ghanded g ++ held_list g) ∧
  (gheld g = None → held_list g = []).
Proof.
  intros Hr. destruct (gate_ok_steps _ _ Hr closed_gate_ok) as [Hn Ha _]. split_and!; [done..|]. unfold held_list. by intros ->.
Qed.
End gate.

(** a row changes twice while it is copied, and another once *)
Definition ada : CdcChange := insert_of "1" (user "1" "ada").
Definition alan : CdcChange := insert_of "2" (user "2" "alan").
Definition lovelace : CdcChange := insert_of "3" (user "1" "lovelace").

Definition gate_walk : Gate :=
  {| gheld := None; ghanded := [alan; lovelace]; garrived := [ada; alan; lovelace] |}.

Lemma gate_keeps_newest_witness :
  rtc (gate_step (Some "id")) closed_gate gate_walk ∧
  newest (Some "id") (Some (json_quote "1")) (ghanded gate_walk ++ held_list gate_walk) =
    newest (Some "id") (Some (json_quote "1")) [ada; alan; lovelace].
Proof.
  assert (Hr : rtc (gate_step (Some "id")) closed_gate gate_walk).
  { eapply rtc_l; [apply (gate_holds _ _ ada); reflexivity|].
    eapply rtc_l; [apply (gate_holds _ _ alan); reflexivity|].
    eapply rtc_l; [apply (gate_holds _ _ lovelace); reflexivity|].
    eapply rtc_l; [eapply (gate_hands_over _ _ _ alan); reflexivity|].
    eapply rtc_l; [eapply (gate_hands_over _ _ _ lovelace); reflexivity|].
    eapply rtc_l; [eapply gate_opens; reflexivity|]. apply rtc_refl. }
  split; [exact Hr|].
  exact (proj1 (gate_keeps_newest (Some "id") gate_walk Hr) (Some (json_quote "1"))).
Defined.
