(* ===== verification/SnapshotCopy.v ===== *)
(** The copy of a table before its changes are followed
    ([apps/api/src/bridges/cdc/snapshot-provider.ts], [copyThenFollow]): rows
    handed over one by one under a position each, a failed read tried again from
    the last row handed over, the stream opened behind it. *)
From Stdlib Require Import Sorted.
From stdpp Require Import sorting.
From coqutil Require Import Datatypes.RecordSetters.
From S2P Require Import Prelude JsText JsNumber JsInteger JsDate JsValue JsBytes JsJson JsonText.
From S2P Require Import BridgeConfig ColumnTransforms FilterMatch TypeMap SchemaDrift.
From S2P Require Import Isolate Async Bridge CdcState Ledger Cdc CdcSystem CdcSafety CdcRun.
From S2P Require Import TableReader Snapshot.

(** ** The copy *)

(** what the caller hears: [handlers.onError] and [handlers.onFatal] *)
Inductive Report :=
| Problem (message : string)
| Fatal (message : string).

Record CopyState := {
  clock : nat;
  next : nat;
  lastKey : option KeysetCheckpoint;
  failures : nat;
  handedOver : list CdcChange;
  reports : list Report
}.

Definition copied_change (from : option string) (item : TableRow) : CdcChange :=
  {| op := op_insert; crow := {| cols := trow item; origins := [] |};
     ccursor := formatSnapshotCursor {| sindex := Z.of_nat (tindex item); skey := tkeyset item;
                                        sfrom := from; sdone := false |};
     keyChanged := false |}.

Definition count_text (n : nat) : string := Z_to_string (Z.of_nat n).

(** a table without a key to page by is refused while the caller waits *)
Definition refused (order : TableOrder) (from_table : bool) : bool :=
  from_table && match owarning order with
                | Some w => negb (bool_decide (w = EmptyString))
                | None => false
                end.

(** the place in the log the stream will be opened at *)
Definition stream_from (resume : option SnapshotCursor) (holds : bool) (position : option string)
  : option string :=
  match resume with
  | Some r => sfrom r
  | None => if holds then None else position
  end.

Section copy.
(** what the rest of the process does: the [a]-th reading of the table; whether
    [stop] has been called, and what handing a row over throws, at the [t]-th look *)
Context (reader : nat → nat → option KeysetCheckpoint → option reading).
Context (stopped : nat → bool) (throws : nat → option string).
Context (readAttempts : option nat) (from : option string).

Definition attempts : nat := Nat.max 1 (default 5 readAttempts).

Definition looked (s : CopyState) : CopyState := s {{ clock := S (clock s) }}.

Definition report (r : Report) (s : CopyState) : CopyState := s {{ reports := reports s ++ [r] }}.

Inductive handing :=
| AllHanded
| SawStop
| Threw (message : string).

Definition handed_over (item : TableRow) (s : CopyState) : CopyState :=
  s {{ handedOver := handedOver s ++ [copied_change from item] }} {{ next := S (tindex item) }}
    {{ lastKey := tkeyset item }} {{ failures := 0 }}.

Fixpoint hand_rows (items : list TableRow) (s : CopyState) : CopyState * handing :=
  match items with
  | [] => (s, AllHanded)
  | item :: items =>
      if stopped (clock s) then (looked s, SawStop) else
      match throws (clock s) with
      | Some e => (looked s, Threw e)
      | None => hand_rows items (handed_over item (looked s))
      end
  end.

(** the message an attempt failed with, if it did *)
Definition failed_with (how : handing) (err : option string) : option string :=
  match how with Threw e => Some e | _ => err end.

(** the [catch] of the loop: stopped or fatal, or another attempt after the wait *)
Definition after_failure (e : string) (s : CopyState) : CopyState * bool :=
  if stopped (clock s) then (looked s, true) else
  let s := (looked s) {{ failures := S (failures s) }} in
  if attempts <=? failures s then
    (report (Fatal ("Stopped while copying the table (" +:+ count_text (next s) +:+
       " rows copied so far): " +:+ e +:+ ". Start the bridge again to carry on from there.")) s, true)
  else
    (report (Problem ("reading the table failed (attempt " +:+ count_text (failures s) +:+
       "/" +:+ count_text attempts +:+ "): " +:+ e)) s, false).

(** [copy]: where it stands when it returns, and whether it was stopped by then *)
Fixpoint copy (fuel a : nat) (s : CopyState) : option (CopyState * bool) :=
  match fuel with
  | 0 => None
  | S fuel =>
      '(items, err) ← reader a (next s) (lastKey s);
      let (s, how) := hand_rows items s in
      match how, failed_with how err with
      | SawStop, _ => Some (s, true)
      | _, None => Some (s, false)
      | _, Some e =>
          let (s, gone) := after_failure e s in
          if gone then Some (s, true) else copy fuel (S a) s
      end
  end.

Definition begin_copy (resume : option SnapshotCursor) : CopyState :=
  {| clock := 0; next := match resume with Some r => Z.to_nat (sindex r + 1) | None => 0 end;
     lastKey := resume ≫= skey; failures := 0; handedOver := []; reports := [] |}.

(** ** Behind the copy *)

Definition copied_notice (copied : nat) : string * string :=
  ("Copied the " +:+ count_text copied +:+ " row" +:+ (if copied =? 1 then EmptyString else "s") +:+
   " the table already had. Following its changes from the position taken before the copy began.",
   formatSnapshotCursor {| sindex := Z.of_nat copied; skey := None; sfrom := from; sdone := true |}).

(** opening the engine's stream: [opens a] is what the [a]-th try throws *)
Context (opens : nat → option string).

Fixpoint open_stream (fuel tried : nat) (s : CopyState) : CopyState * bool :=
  match fuel with
  | 0 => (s, false)
  | S fuel =>
      if stopped (clock s) then (looked s, false) else
      let s := looked s in
      match opens tried with
      | None => (looked s, negb (stopped (clock s)))
      | Some e =>
          let tried := S tried in
          if attempts <=? tried then
            (if stopped (clock s) then looked s else
             report (Fatal ("The table was copied, but its change stream could not be opened: " +:+ e))
               (looked s), false)
          else
            open_stream fuel tried
              (report (Problem ("opening the change stream failed (attempt " +:+ count_text tried +:+
                 "/" +:+ count_text attempts +:+ "): " +:+ e)) s)
      end
  end.

(** how a run ends *)
Inductive after_copy :=
| GaveWay                              (* stopped, or fatal *)
| HandsOverHeld                        (* the gate opens: [HeldChanges] *)
| Follows (fromCursor : option string) (* the engine's stream is open *)
| NotFollowing.                        (* stopped while opening it, or fatal *)

Record CopyRun := {
  ended : CopyState;
  told : option (string * string);
  then_ : after_copy
}.

Definition behind_copy (holds : bool) (s : CopyState) : CopyRun :=
  if stopped (clock s) then {| ended := looked s; told := None; then_ := GaveWay |} else
  let s := looked s in
  let notice := Some (copied_notice (next s)) in
  match throws (clock s) with
  | Some e => {| ended := report (Problem e) (looked s); told := notice; then_ := NotFollowing |}
  | None =>
      let s := looked s in
      if stopped (clock s) then {| ended := looked s; told := notice; then_ := GaveWay |} else
      if holds then {| ended := looked s; told := notice; then_ := HandsOverHeld |} else
      let (s', opened) := open_stream attempts 0 (looked s) in
      {| ended := s'; told := notice; then_ := if opened then Follows from else NotFollowing |}
  end.

Definition run (holds : bool) (fuel : nat) (resume : option SnapshotCursor) : option CopyRun :=
  match copy fuel 0 (begin_copy resume) with
  | None => None
  | Some (s, true) => Some {| ended := s; told := None; then_ := GaveWay |}
  | Some (s, false) => Some (behind_copy holds s)
  end.
End copy.

(** ** A part of a copy, and what parts make together *)

Section parts.
Context (lt : jsval → jsval → bool) (key : obj → jsval) (name : string).
Context (lt_trans : ∀ a b c, lt a b = true → lt b c = true → lt a c = true).
Context (lt_irrefl : ∀ a, lt a a = false).

(** the keys that are in the table all the time, and the rows it ever has *)
Context (stays : jsval → Prop) (ever : obj → Prop).

(** a key that stays is before, at or after the key of any row the table ever has *)
Context (compared : ∀ k r, stays k → ever r → up_to lt (key r) k ∨ lt (key r) k = true).
Context (present : ∀ r, ever r → is_nil (key r) = false).

(** what is handed over from behind the key [last] on, under the places from
    [index] on; everything behind it, when it is [finished] *)
Record copied_part (last : jsval) (index : nat) (items : list TableRow) (finished : bool) : Prop := {
  part_in_order : StronglySorted (λ a b, lt a b = true) (keys_of key items);
  part_behind : Forall (λ k, above lt last k = true) (keys_of key items);
  part_rows : Forall (λ it, ever (trow it)) items;
  part_all k : stays k → above lt last k = true →
    finished = true ∨ (∃ k', k' ∈ keys_of key items ∧ up_to lt k' k) → k ∈ keys_of key items;
  part_numbered i it : items !! i = Some it →
    tindex it = index + i ∧ tkeyset it = Some {| kcolumn := name; kvalue := key (trow it) |}
}.

(** the key the next part starts behind *)
Definition reached (start : jsval) (items : list TableRow) : jsval :=
  match last items with Some it => key (trow it) | None => start end.

Lemma keys_of_app l1 l2 : keys_of key (l1 ++ l2) = keys_of key l1 ++ keys_of key l2.
Proof. apply fmap_app. Qed.

Lemma lt_asym a b : lt a b = true → lt b a = true → False.
Proof. intros H1 H2. pose proof (lt_trans _ _ _ H1 H2) as H. by rewrite lt_irrefl in H. Qed.

Lemma nothing_copied start index : copied_part start index [] false.
Proof.
  split; try constructor; try done. intros k _ _ [H|(k' & H & _)]; [done|by apply elem_of_nil in H].
Qed.

(** stopped earlier, it is a part all the same *)
Lemma part_prefix start index l1 l2 finished :
  copied_part start index (l1 ++ l2) finished → copied_part start index l1 false.
Proof.
  intros [Ho Hb Hr Hall Hn]. rewrite keys_of_app in *. split.
  - by eapply StronglySorted_app_1_l.
  - by apply Forall_app in Hb as [? _].
  - by apply Forall_app in Hr as [? _].
  - intros k Hs Ha [|(k' & Hk' & Hle)]; [done|].
    assert (Hin : k ∈ keys_of key l1 ++ keys_of key l2).
    { apply Hall; [done..|]. right. exists k'. split; [|done]. apply elem_of_app. by left. }
    apply elem_of_app in Hin as [|Hin]; [done|]. exfalso.
    pose proof (StronglySorted_app_1_elem_of _ _ _ k' k Ho Hk' Hin) as Hlt. cbn in Hlt.
    destruct Hle as [->|Hle]; [by rewrite lt_irrefl in Hlt|by eapply lt_asym].
  - intros i it Hi. apply Hn. by apply lookup_app_l_Some.
Qed.

Lemma part_joins start index l1 l2 finished :
  copied_part start index l1 false →
  copied_part (reached start l1) (index + List.length l1) l2 finished →
  copied_part start index (l1 ++ l2) finished.
Proof.
  intros H1 H2. unfold reached in H2. destruct (last l1) as [x|] eqn:Hx.
  2: { apply last_None in Hx as ->. cbn in *. by rewrite Nat.add_0_r in H2. }
  apply last_Some in Hx as [l ->]. set (l1 := l ++ [x]) in *.
  destruct H1 as [Ho1 Hb1 Hr1 Hall1 Hn1], H2 as [Ho2 Hb2 Hr2 Hall2 Hn2].
  assert (Hxin : key (trow x) ∈ keys_of key l1).
  { unfold l1. rewrite keys_of_app. apply elem_of_app. right. by left. }
  assert (Hever : ever (trow x)) by (by apply Forall_app in Hr1 as [_ Hr1]; inversion_clear Hr1).
  assert (Habove : ∀ k, k ∈ keys_of key l2 → lt (key (trow x)) k = true).
  { intros k Hk. rewrite Forall_forall in Hb2. specialize (Hb2 k Hk). unfold above in Hb2.
    by rewrite present in Hb2. }
  assert (Hupto : ∀ k, k ∈ keys_of key l1 → k = key (trow x) ∨ lt k (key (trow x)) = true).
  { intros k Hk. unfold l1 in Hk, Ho1. rewrite keys_of_app in Hk, Ho1.
    apply elem_of_app in Hk as [Hk|Hk]; [right|left; by apply list_elem_of_singleton in Hk].
    exact (StronglySorted_app_1_elem_of _ _ _ k _ Ho1 Hk ltac:(by left)). }
  split.
  - rewrite keys_of_app. apply StronglySorted_app_2; [|done..]. intros a b Ha Hb.
    destruct (Hupto a Ha) as [->|H]; eauto.
  - rewrite keys_of_app. apply Forall_app. split; [done|]. apply Forall_forall. intros k Hk.
    rewrite Forall_forall in Hb1. specialize (Hb1 _ Hxin). unfold above in *.
    destruct (is_nil start); [done|]. cbn in *. eauto.
  - by apply Forall_app.
  - intros k Hs Ha Hdone. rewrite keys_of_app in *. apply elem_of_app.
    destruct (compared k (trow x) Hs Hever) as [Hle|Hgt].
    + left. apply Hall1; eauto.
    + right. apply Hall2; [done|unfold above; rewrite Hgt; by rewrite orb_true_r|].
      destruct Hdone as [->|(k' & [Hk'|Hk']%elem_of_app & Hle)]; [by left| |by right; eauto].
      exfalso. destruct (Hupto k' Hk') as [->|H], Hle as [->|Hle];
        try (by rewrite lt_irrefl in Hgt); by eauto using lt_asym.
  - intros i it [Hi|[Hlen Hi]]%lookup_app_Some; [by apply Hn1|].
    destruct (Hn2 _ _ Hi) as [-> ->]. split; [lia|done].
Qed.
End parts.

(** ** Every run is a part *)

Section runs.
Context (src : TableSource) (n : nat) (order : TableOrder).
Context (name : string) (key : obj → jsval) (ask : jsval → BrowseParams).
Context (reads_by : keyset_of src n order = Some (name, key, ask)).

(** the checkpoint of a row is where its key says a reading goes on *)
Lemma resume_behind i it items start :
  tkeyset it = Some {| kcolumn := name; kvalue := key (trow it) |} →
  resume_from order (S i) (tkeyset it) = Some (reached key start (items ++ [it])).
Proof.
  intros ->. unfold reached. rewrite last_snoc. unfold resume_from. cbn [Nat.eqb].
  unfold keyset_of in reads_by. destruct (ocursorPaging order); [done|].
  destruct (okeysetColumns order) as [|c cs]; [destruct (okeysetColumn order) as [c|]; [|done]|];
    injection reads_by as <- <- _; cbn [kcolumn kvalue].
  - by rewrite bool_decide_eq_true_2.
  - unfold resume_tuple, tuple_of. cbn [kcolumn kvalue]. rewrite bool_decide_eq_true_2 by done.
    by rewrite length_fmap, Nat.eqb_refl.
Qed.

(** one run of the copy: the table and the engine at every call of every attempt *)
Context (lt : jsval → jsval → bool).
Context (tables : nat → nat → list obj) (browse : nat → nat → BrowseParams → string + Page).
Context (table_ok : ∀ a, KeysetTable lt key (tables a) (browse a) ask n).
Context (pages : nat).

Definition reader (a startOffset : nat) (resumeKey : option KeysetCheckpoint) : option reading :=
  rows (browse a) src n order pages startOffset resumeKey.

Context (stays : jsval → Prop) (ever : obj → Prop).
Context (staying : ∀ k a t, stays k → ∃ r, r ∈ tables a t ∧ key r = k).
Context (coming : ∀ a t r, r ∈ tables a t → ever r).

Context (stopped : nat → bool) (throws : nat → option string).
Context (readAttempts : option nat) (from : option string).

Lemma reading_is_part a start index resumeKey items err :
  resume_from order index resumeKey = Some start → reader a index resumeKey = Some (items, err) →
  copied_part lt key name stays ever start index items (bool_decide (err = None)).
Proof.
  intros Hs Hr. destruct (table_ok a) as [Htr Hirr Hts Htk Hn Hb].
  unfold reader in Hr. rewrite (rows_keyset _ _ _ _ name key ask _ _ _ start) in Hr by done.
  apply (keyset_reading lt key Htr Hirr (tables a) Hts Htk _ ask n Hn Hb) in Hr.
  destruct Hr as [Ho Ha Hrow Hall Hnum]. cbn [fst snd] in *. split; try done.
  - apply Forall_forall. intros it Hit. destruct (Hrow it Hit) as (t & _ & Ht). by eapply coming.
  - intros k Hk Hab [He|He]; apply Hall; try done.
    + intros t _. by apply staying.
    + left. by apply bool_decide_eq_true in He.
    + intros t _. by apply staying.
    + by right.
Qed.

Lemma hand_rows_spec items s s' how :
  hand_rows stopped throws from items s = (s', how) → ∃ l1 l2,
  items = l1 ++ l2 ∧ handedOver s' = handedOver s ++ (copied_change from <$> l1) ∧
  (how = AllHanded → l2 = []) ∧ 
  match last l1 with
  | Some it => next s' = S (tindex it) ∧ lastKey s' = tkeyset it ∧ failures s' = 0
  | None => next s' = next s ∧ lastKey s' = lastKey s ∧ failures s' = failures s
  end.
Proof.
  revert s. induction items as [|item items IH]; intros s; cbn [hand_rows].
  { intros [= <- <-]. exists [], []. cbn. by rewrite app_nil_r. }
  destruct (stopped (clock s)); [|destruct (throws (clock s)) as [e|]].
  1,2: intros [= <- <-]; exists [], (item :: items); cbn; by rewrite app_nil_r.
  intros Hh. destruct (IH _ Hh) as (l1 & l2 & -> & Hc & Hall & Hl).
  exists (item :: l1), l2. split_and!; [done| |done|].
  - rewrite Hc. cbn. by rewrite <- app_assoc.
  - rewrite last_cons. by destruct (last l1) as [it|].
Qed.

(** where a run stands: what it has handed over is a part, and the next attempt
    starts behind it *)
Record standing (start : jsval) (index : nat) (s : CopyState) (items : list TableRow) : Prop := {
  st_handed : handedOver s = copied_change from <$> items;
  st_part : copied_part lt key name stays ever start index items false;
  st_next : next s = index + List.length items;
  st_resumes : resume_from order (next s) (lastKey s) = Some (reached key start items)
}.

Lemma ever_ok : (∀ r, ever r → ∃ a t, r ∈ tables a t) →
  (∀ k r, stays k → ever r → up_to lt (key r) k ∨ lt (key r) k = true) ∧
  (∀ r, ever r → is_nil (key r) = false).
Proof.
  intros Hever. split.
  - intros k r Hk (a & t & Hr)%Hever. destruct (staying k a t Hk) as (x & Hx & <-).
    pose proof (table_sorted (KeysetTable := table_ok a) t) as Hs.
    apply list_elem_of_split in Hr as (l1 & l2 & Hl). rewrite Hl in Hs, Hx.
    apply elem_of_app in Hx as [Hx|[->|Hx]%elem_of_cons].
    + left. right. exact (StronglySorted_app_1_elem_of _ l1 (r :: l2) x r Hs Hx ltac:(by left)).
    + left. by left.
    + right. apply StronglySorted_app_1_r in Hs. inversion_clear Hs as [|? ? _ H].
      rewrite Forall_forall in H. by apply H.
  - intros r (a & t & Hr)%Hever. by apply (table_keys (KeysetTable := table_ok a) t).
Qed.

Context (every_row : ∀ r, ever r → ∃ a t, r ∈ tables a t).

Abbreviation part := (copied_part lt key name stays ever).

Lemma joins start index l1 l2 finished :
  part start index l1 false →
  part (reached key start l1) (index + List.length l1) l2 finished →
  part start index (l1 ++ l2) finished.
Proof.
  destruct (ever_ok every_row) as [Hc Hp]. destruct (table_ok 0) as [Htr Hirr _ _ _ _].
  by apply part_joins.
Qed.

Lemma prefix start index l1 l2 finished :
  part start index (l1 ++ l2) finished → part start index l1 false.
Proof. destruct (table_ok 0) as [Htr Hirr _ _ _ _]. by apply part_prefix. Qed.

Lemma attempt_spec a start index s items more err s' how :
  standing start index s items → reader a (next s) (lastKey s) = Some (more, err) →
  hand_rows stopped throws from more s = (s', how) → ∃ handed,
  standing start index s' (items ++ handed) ∧
  (how = AllHanded → err = None → part start index (items ++ handed) true) ∧
  failures s' = (match handed with [] => failures s | _ => 0 end).
Proof.
  intros [Hh Hp Hn Hr] Hread Hhand.
  pose proof (reading_is_part a _ _ _ _ _ Hr Hread) as Hmore. rewrite Hn in Hmore.
  destruct (hand_rows_spec _ _ _ _ Hhand) as (l1 & l2 & -> & Hc & Hall & Hl).
  pose proof (prefix _ _ _ _ _ Hmore) as Hmore1. exists l1. split_and!.
  - split.
    + by rewrite Hc, Hh, fmap_app.
    + by apply joins.
    + destruct (last l1) as [it|] eqn:Hlast.
      * destruct Hl as (-> & _). apply last_Some in Hlast as [l ->].
        destruct (part_numbered _ _ _ _ _ _ _ _ _ Hmore1 (List.length l) it) as [-> _].
        { by rewrite lookup_app_r, Nat.sub_diag. }
        rewrite !length_app. cbn. lia.
      * apply last_None in Hlast as ->. rewrite app_nil_r. by destruct Hl as (-> & _).
    + destruct (last l1) as [it|] eqn:Hlast.
      * destruct Hl as (-> & -> & _). apply last_Some in Hlast as [l ->]. rewrite app_assoc.
        destruct (part_numbered _ _ _ _ _ _ _ _ _ Hmore1 (List.length l) it) as [_ Hk].
        { by rewrite lookup_app_r, Nat.sub_diag. }
        by apply resume_behind.
      * apply last_None in Hlast as ->. rewrite app_nil_r. by destruct Hl as (-> & -> & _).
  - intros -> ->. rewrite (Hall eq_refl), app_nil_r in Hmore. by apply joins.
  - destruct (last l1) as [it|] eqn:Hlast.
    + destruct Hl as (_ & _ & ->). by destruct l1.
    + apply last_None in Hlast as ->. by destruct Hl as (_ & _ & ->).
Qed.

Lemma after_failure_stands start index e s s' gone items :
  after_failure stopped readAttempts e s = (s', gone) →
  standing start index s items → standing start index s' items.
Proof.
  unfold after_failure. intros Hf [Hh Hp Hn Hr].
  destruct (stopped (clock s)); [|destruct (attempts _ <=? _)]; injection Hf as <- _; by split.
Qed.

Lemma copy_spec start index fuel a s items s' gone :
  standing start index s items →
  copy reader stopped throws readAttempts from fuel a s = Some (s', gone) → ∃ more,
  standing start index s' (items ++ more) ∧ part start index (items ++ more) (negb gone).
Proof.
  revert a s items. induction fuel as [|fuel IH]; intros a s items Hst; [done|]. cbn [copy].
  destruct (reader a (next s) (lastKey s)) as [[more err]|] eqn:Hread; [|done].
  cbn [mbind option_bind]. destruct (hand_rows _ _ _ more s) as [s1 how] eqn:Hhand.
  destruct (attempt_spec _ _ _ _ _ _ _ _ _ Hst Hread Hhand) as (handed & Hst1 & Hdone & _).
  assert (Hfail : ∀ e : string,
    (let (s2, gone2) := after_failure stopped readAttempts e s1 in
     if gone2 then Some (s2, true)
     else copy reader stopped throws readAttempts from fuel (S a) s2) = Some (s', gone) →
    ∃ more, standing start index s' (items ++ more) ∧ part start index (items ++ more) (negb gone)).
  { intros e. destruct (after_failure _ _ e s1) as [s2 gone2] eqn:Ha.
    pose proof (after_failure_stands _ _ _ _ _ _ _ Ha Hst1) as Hst2. destruct gone2.
    { intros [= <- <-]. exists handed. split; [done|apply Hst2]. }
    intros Hc. destruct (IH _ _ _ Hst2 Hc) as (rest & ? & ?).
    exists (handed ++ rest). by rewrite app_assoc. }
  destruct how as [| |e]; cbn [failed_with]; [destruct err as [e|]| |]; try apply Hfail.
  - intros [= <- <-]. exists handed. split; [done|by apply Hdone].
  - intros [= <- <-]. exists handed. split; [done|apply Hst1].
Qed.

(** ** It ends *)

Lemma reached_moves start index items handed finished :
  part start index (items ++ handed) finished → handed ≠ [] →
  ∃ r, ever r ∧ reached key start (items ++ handed) = key r ∧
       above lt (reached key start items) (key r) = true.
Proof.
  intros [Ho Hb Hr _ _] Hne. destruct handed as [|it l _] using rev_ind; [done|].
  exists (trow it). unfold reached at 1. rewrite app_assoc, last_snoc. split_and!; [|done|].
  - rewrite app_assoc in Hr. apply Forall_app in Hr as [_ Hr]. by inversion_clear Hr.
  - unfold reached. destruct (last items) as [x|] eqn:Hx.
    + apply last_Some in Hx as [l' ->]. unfold above. apply orb_true_iff. right.
      rewrite keys_of_app in Ho.
      apply (StronglySorted_app_1_elem_of _ _ _ _ _ Ho); rewrite keys_of_app;
        apply elem_of_app; right; by left.
    + apply last_None in Hx as ->. rewrite Forall_forall in Hb. apply Hb.
      rewrite !keys_of_app, !elem_of_app. right. right. by left.
Qed.

Section ends.
Context (U : list jsval) (finite : ∀ a t r, r ∈ tables a t → key r ∈ U).
Context (enough : List.length U < pages).

Definition ahead (k : jsval) : nat := List.length (filter (λ k', above lt k k' = true) U).

Lemma reader_answers a index resumeKey start :
  resume_from order index resumeKey = Some start → is_Some (reader a index resumeKey).
Proof.
  intros Hs. unfold reader. rewrite (rows_keyset _ _ _ _ name key ask _ _ _ start) by done.
  destruct (table_ok a) as [Htr Hirr Hts Htk Hn Hb].
  eapply (keyset_reading_ends lt key Htr Hirr (tables a) Hts Htk _ ask n Hn Hb U); [apply finite|].
  pose proof (length_filter (λ k, above lt start k = true) U). lia.
Qed.

Lemma ahead_less start index items handed finished :
  part start index (items ++ handed) finished → handed ≠ [] →
  ahead (reached key start (items ++ handed)) < ahead (reached key start items).
Proof.
  intros Hp Hne. destruct (reached_moves _ _ _ _ _ Hp Hne) as (r & Hr & -> & Ha).
  destruct (ever_ok every_row) as [_ Hpres]. destruct (table_ok 0) as [Htr Hirr _ _ _ _].
  unfold ahead. apply (filter_shorter _ _ _ (key r)).
  - intros k Hk. unfold above in Hk at 1. rewrite Hpres in Hk by done.
    unfold above in *. destruct (is_nil _); [done|]. cbn in *. eauto.
  - destruct (every_row r Hr) as (a & t & Ht). by eapply finite.
  - done.
  - unfold above. by rewrite Hpres, Hirr.
Qed.

Lemma after_failure_goes_on e s s' :
  after_failure stopped readAttempts e s = (s', false) →
  failures s' = S (failures s) ∧ failures s' < attempts readAttempts.
Proof.
  unfold after_failure. intros Hf. destruct (stopped (clock s)); [done|].
  destruct (attempts _ <=? _) eqn:Hle; [done|]. injection Hf as <-. apply Nat.leb_gt in Hle.
  split; [done|exact Hle].
Qed.

Lemma copy_ends start index fuel a s items :
  standing start index s items → failures s < attempts readAttempts →
  ahead (reached key start items) * attempts readAttempts + (attempts readAttempts - failures s) ≤ fuel →
  is_Some (copy reader stopped throws readAttempts from fuel a s).
Proof.
  revert a s items. induction fuel as [|fuel IH]; intros a s items Hst Hf Hfuel; [lia|]. cbn [copy].
  destruct (reader_answers a _ _ _ (st_resumes _ _ _ _ Hst)) as [[more err] Hread].
  rewrite Hread. cbn [mbind option_bind]. destruct (hand_rows _ _ _ more s) as [s1 how] eqn:Hhand.
  destruct (attempt_spec _ _ _ _ _ _ _ _ _ Hst Hread Hhand) as (handed & Hst1 & _ & Hf1).
  assert (Hfail : ∀ e : string, is_Some
    (let (s2, gone2) := after_failure stopped readAttempts e s1 in
     if gone2 then Some (s2, true)
     else copy reader stopped throws readAttempts from fuel (S a) s2)).
  { intros e. destruct (after_failure _ _ e s1) as [s2 [|]] eqn:Ha; [done|].
    destruct (after_failure_goes_on _ _ _ Ha) as [Hf2 Hlt].
    apply (IH _ _ (items ++ handed)); [by eapply after_failure_stands|done|].
    destruct handed as [|it handed]; cbn iota in Hf1; [rewrite app_nil_r; lia|].
    pose proof (ahead_less _ _ items (it :: handed) _ (st_part _ _ _ _ Hst1) ltac:(done)) as Hless.
    rewrite Hf2, Hf1. nia. }
  destruct how as [| |e]; cbn [failed_with]; [destruct err as [e|]| |]; try done; apply Hfail.
Qed.
End ends.

Lemma begins resume start :
  resume_from order (next (begin_copy resume)) (lastKey (begin_copy resume)) = Some start →
  standing start (next (begin_copy resume)) (begin_copy resume) [].
Proof.
  intros Hs. split; [done| |cbn; lia|done]. apply nothing_copied.
Qed.

(** C15. A copy is exact while the table changes and reads of it fail: rows are
    handed over in the order of the key, each once, under positions without a
    gap, each at the place the copy goes on from; and when the copy is done, every
    key that was in the table all the time has been handed over. It does end,
    where keys come from a finite set: a read that fails is tried again a bounded
    number of times without a row in between *)
Theorem copy_is_exact resume start :
  resume_from order (next (begin_copy resume)) (lastKey (begin_copy resume)) = Some start →
  (∀ fuel s gone, copy reader stopped throws readAttempts from fuel 0 (begin_copy resume) = Some (s, gone) →
     ∃ items, handedOver s = copied_change from <$> items ∧
       part start (next (begin_copy resume)) items (negb gone)) ∧
  (∀ U, (∀ a t r, r ∈ tables a t → key r ∈ U) → List.length U < pages →
     is_Some (copy reader stopped throws readAttempts from
                (S (List.length U) * attempts readAttempts) 0 (begin_copy resume))).
Proof.
  intros Hs%begins. split.
  - intros fuel s gone Hc. destruct (copy_spec _ _ _ _ _ _ _ _ Hs Hc) as (items & Hst & Hp).
    exists items. split; [apply Hst|done].
  - intros U HU Hpages. eapply (copy_ends U HU Hpages); [exact Hs|cbn; unfold attempts; lia|].
    pose proof (length_filter (λ k, above lt (reached key start []) k = true) U) as Hle.
    unfold ahead. cbn [failures begin_copy]. nia.
Qed.
End runs.

(** ** A copy that is stopped and started again *)

Section restarts.
Context (src : TableSource) (n : nat) (order : TableOrder).
Context (name : string) (key : obj → jsval) (ask : jsval → BrowseParams).
Context (reads_by : keyset_of src n order = Some (name, key, ask)).
Context (lt : jsval → jsval → bool).

(** the table and the engine at every call of every attempt of every run *)
Context (tables : nat → nat → nat → list obj).
Context (browse : nat → nat → nat → BrowseParams → string + Page).
Context (table_ok : ∀ r a, KeysetTable lt key (tables r a) (browse r a) ask n) (pages : nat).
Context (keys_plain : ∀ r a t x, x ∈ tables r a t → json_plain (key x) = true).
Context (stopped : nat → nat → bool) (throws : nat → nat → option string).
Context (readAttempts : option nat) (from : option string).

Definition run_copy (r fuel : nat) (resume : option SnapshotCursor) : option (CopyState * bool) :=
  copy (reader src n order (browse r) pages) (stopped r) (throws r) readAttempts from fuel 0
    (begin_copy resume).

(** after [r] runs: the position saved, and what has been handed over up to it *)
Inductive restarted : nat → option SnapshotCursor → list CdcChange → Prop :=
| first_run : restarted 0 None []
| next_run r resume kept fuel s gone i c saved :
    restarted r resume kept → run_copy r fuel resume = Some (s, gone) →
    handedOver s !! i = Some c → (Z.of_nat (next s) < 2 ^ 53)%Z →
    parseSnapshotCursor (ccursor c) = Some saved →
    restarted (S r) (Some saved) (kept ++ take (S i) (handedOver s)).

Definition always (k : jsval) : Prop := ∀ r a t, ∃ x, x ∈ tables r a t ∧ key x = k.
Definition sometime (x : obj) : Prop := ∃ r a t, x ∈ tables r a t.

Abbreviation whole := (copied_part lt key name always sometime).

Lemma part_grows stays (ever ever' : obj → Prop) start index items finished :
  (∀ x, ever x → ever' x) →
  copied_part lt key name stays ever start index items finished →
  copied_part lt key name stays ever' start index items finished.
Proof. intros He [Ho Hb Hr Hall Hn]. split; try done.
  eapply Forall_impl; [exact Hr|]. intros it. apply He.
Qed.

Lemma whole_joins index l1 l2 finished :
  whole VNull index l1 false → whole (reached key VNull l1) (index + List.length l1) l2 finished →
  whole VNull index (l1 ++ l2) finished.
Proof.
  destruct (table_ok 0 0) as [Htr Hirr _ _ _ _]. apply part_joins; [done..| |].
  - intros k x Hk (r & a & t & Hx).
    destruct (ever_ok n key ask lt (tables r) (browse r) (table_ok r) always
                (λ x, ∃ a t, x ∈ tables r a t)) as [Hc _].
    + intros k' a' t' Hk'. apply Hk'.
    + done.
    + apply Hc; [done|]. by exists a, t.
  - intros x (r & a & t & Hx). by apply (table_keys (KeysetTable := table_ok r a) t).
Qed.

Lemma run_is_part r fuel resume start s gone :
  resume_from order (next (begin_copy resume)) (lastKey (begin_copy resume)) = Some start →
  run_copy r fuel resume = Some (s, gone) → ∃ items,
  handedOver s = copied_change from <$> items ∧
  next s = next (begin_copy resume) + List.length items ∧
  whole start (next (begin_copy resume)) items (negb gone).
Proof.
  intros Hs Hrun.
  assert (Hst : standing order name key lt always (λ x, ∃ a t, x ∈ tables r a t) from start
                  (next (begin_copy resume)) (begin_copy resume) []).
  { split; [done|apply nothing_copied|cbn; lia|exact Hs]. }
  edestruct (copy_spec src n order name key ask reads_by lt (tables r) (browse r) (table_ok r) pages
    always (λ x, ∃ a t, x ∈ tables r a t)) as (items & [Hh _ Hn _] & Hp); [| | | |exact Hrun|].
  - intros k a t Hk. apply Hk.
  - eauto.
  - eauto.
  - exact Hst.
  - exists items. split_and!; [done..|]. eapply part_grows; [|exact Hp].
    intros x (a & t & Hx). by exists r, a, t.
Qed.

Lemma saved_position it saved :
  json_plain (key (trow it)) = true → (Z.of_nat (tindex it) < 2 ^ 53)%Z →
  tkeyset it = Some {| kcolumn := name; kvalue := key (trow it) |} →
  parseSnapshotCursor (ccursor (copied_change from it)) = Some saved →
  next (begin_copy (Some saved)) = S (tindex it) ∧ lastKey (begin_copy (Some saved)) = tkeyset it ∧
  sfrom saved = from.
Proof.
  intros Hp Hi Hk. cbn [copied_change ccursor]. rewrite parse_format.
  - intros [= <-]. cbn. split; [lia|done].
  - split; cbn; [lia|]. by rewrite Hk.
Qed.

(** where the restarts stand *)
Lemma restarted_is_part r resume kept : restarted r resume kept → ∃ items,
  kept = copied_change from <$> items ∧ whole VNull 0 items false ∧
  next (begin_copy resume) = List.length items ∧
  resume_from order (next (begin_copy resume)) (lastKey (begin_copy resume)) =
    Some (reached key VNull items).
Proof.
  induction 1 as [|r resume kept fuel s gone i c saved _ IH Hrun Hi Hlt Hsaved].
  { exists []. split_and!; try done. apply nothing_copied. }
  destruct IH as (items & -> & Hw & Hnext & Hres).
  destruct (run_is_part _ _ _ _ _ _ Hres Hrun) as (more & Hh & Hn & Hp).
  rewrite Hnext in Hn, Hp. rewrite Hh in Hi |- *. rewrite list_lookup_fmap in Hi.
  destruct (more !! i) as [it|] eqn:Hit; [|done]. cbn in Hi. injection Hi as <-.
  rewrite <- fmap_take, <- fmap_app. exists (items ++ take (S i) more).
  destruct (part_numbered _ _ _ _ _ _ _ _ _ Hp i it Hit) as [Hidx Hkey].
  assert (Hplain : json_plain (key (trow it)) = true).
  { pose proof (part_rows _ _ _ _ _ _ _ _ _ Hp) as Hr.
    destruct (Forall_lookup_1 _ _ _ _ Hr Hit) as (r' & a & t & Hx). exact (keys_plain _ _ _ _ Hx). }
  pose proof (lookup_lt_Some _ _ _ Hit) as Hlen.
  destruct (saved_position it saved Hplain ltac:(lia) Hkey Hsaved) as (Hnext' & Hkey' & _).
  split_and!; [done| | |].
  - apply whole_joins; [done|]. destruct (table_ok 0 0) as [Htr Hirr _ _ _ _].
    rewrite <- (take_drop (S i) more) in Hp. by apply part_prefix in Hp.
  - rewrite Hnext', length_app, length_take, Hidx. lia.
  - rewrite Hnext', Hkey'. rewrite (take_S_r _ _ it) by done. rewrite app_assoc.
    by apply (resume_behind src n order name key ask reads_by).
Qed.

(** C14. A copy by key, whose keys have a JSON form of their own, is stopped and started
    again any number of times, each time behind whatever row its position was last saved
    at. What a run had handed over behind that row is handed over again by the next, and
    is left out here: the sink gets those rows at least once. What remains, the rows of
    every run up to the row its position was saved at and all those of the run that
    finishes, is one copy: in the order of the key, each key once, every key that was in
    the table all the time *)
Theorem restarted_copy_is_whole r resume kept fuel s :
  restarted r resume kept → run_copy r fuel resume = Some (s, false) → ∃ items,
  kept ++ handedOver s = copied_change from <$> items ∧ whole VNull 0 items true.
Proof.
  intros (items & -> & Hw & Hnext & Hres)%restarted_is_part Hrun.
  destruct (run_is_part _ _ _ _ _ _ Hres Hrun) as (more & -> & _ & Hp). rewrite Hnext in Hp.
  exists (items ++ more). split; [by rewrite fmap_app|by apply whole_joins].
Qed.
End restarts.

(** ** Concrete copies *)

(** row 2 goes and row 4 comes while the table is copied; the first attempt's
    second page cannot be read *)
Definition shaky_table (a t : nat) : list obj := moving_table (a + t).

Definition shaky_engine (a t : nat) (p : BrowseParams) : string + Page :=
  if (a =? 0) && (t =? 1) then inl "timeout" else engine_of (shaky_table a) t p.

Lemma shaky_table_keyset a :
  KeysetTable num_key_lt id_of (shaky_table a) (shaky_engine a)
    (ask_key reader_source 2 (osort by_id) "id") 2.
Proof.
  destruct moving_table_keyset as [Htr Hirr Hs Hk Hn _]. split; try done.
  - intros t. apply Hs.
  - intros t r. apply Hk.
  - intros t last page. unfold shaky_engine. destruct (_ && _); [done|].
    unfold engine_of, ask_key. intros [= <-].
    destruct (is_nil last) eqn:Hl; [|done]. unfold after. cbn [bfilters base_params].
    by destruct last.
Qed.

Definition id_key (z : Z) : jsval := VNum (num_of_Z z).

Lemma shaky_ids a t r : r ∈ shaky_table a t → id_of r ∈ id_key <$> [1; 2; 3; 4]%Z.
Proof.
  unfold shaky_table, moving_table. destruct (a + t =? 0); cbn;
    rewrite !elem_of_cons; intros H; destruct_or!; subst; try (by apply elem_of_nil in H);
    repeat first [by left|right].
Qed.

Definition never_stopped (t : nat) : bool := false.
Definition never_throws (t : nat) : option string := None.

Definition copied_ids (r : option (CopyState * bool)) : option (list jsval * list Report * bool) :=
  (λ s, ((λ c, id_of (cols (crow c))) <$> handedOver s.1, reports s.1, s.2)) <$> r.

Lemma copy_is_exact_witness :
  let result := copy (reader reader_source 2 by_id shaky_engine 5) never_stopped never_throws None
                  (Some "0/16B3748") 25 0 (begin_copy None) in
  copied_ids result =
    Some (id_key <$> [1; 2; 3; 4]%Z,
          [Problem "reading the table failed (attempt 1/5): timeout"], false) ∧
  is_Some result.
Proof.
  cbv zeta. split; [vm_compute; reflexivity|].
  refine (proj2 (copy_is_exact reader_source 2 by_id "id" id_of
           (ask_key reader_source 2 (osort by_id) "id") eq_refl num_key_lt shaky_table shaky_engine
           shaky_table_keyset 5 (λ k, ∀ a t, ∃ r, r ∈ shaky_table a t ∧ id_of r = k)
           (λ r, ∃ a t, r ∈ shaky_table a t) _ _ never_stopped never_throws None _ _ None VNull eq_refl)
           (id_key <$> [1; 2; 3; 4]%Z) shaky_ids _).
  - intros k a t Hk. apply Hk.
  - intros a t r Hr. by exists a, t.
  - done.
  - cbn. lia.
Defined.

(** the first run is stopped behind its first row, the second finishes *)
Definition stops_early (r t : nat) : bool := (r =? 0) && (1 <=? t).

Definition sample_run (r : nat) (resume : option SnapshotCursor) : option (CopyState * bool) :=
  run_copy reader_source 2 by_id (λ _, shaky_engine) 5 stops_early (λ _, never_throws) None
    (Some "0/16B3748") r 25 resume.

Definition run_state (r : option (CopyState * bool)) : CopyState :=
  match r with Some (s, _) => s | None => begin_copy None end.

Lemma restarted_copy_is_whole_witness : ∃ items,
  handedOver (run_state (sample_run 0 None)) ++ handedOver (run_state (sample_run 1 (Some first_row))) =
    copied_change (Some "0/16B3748") <$> items ∧
  copied_part num_key_lt id_of "id" (always id_of (λ _, shaky_table)) (sometime (λ _, shaky_table))
    VNull 0 items true.
Proof.
  assert (Hr : restarted reader_source 2 by_id (λ _, shaky_engine) 5 stops_early (λ _, never_throws)
    None (Some "0/16B3748") 1 (Some first_row) ([] ++ take 1 (handedOver (run_state (sample_run 0 None))))).
  { eapply (next_run _ _ _ _ _ _ _ _ _ 0 None [] 25 (run_state (sample_run 0 None)) true 0);
      [apply first_run|vm_compute; reflexivity|vm_compute; reflexivity|vm_compute; reflexivity|].
    vm_compute. reflexivity. }
  apply (restarted_copy_is_whole reader_source 2 by_id "id" id_of
           (ask_key reader_source 2 (osort by_id) "id") eq_refl num_key_lt (λ _, shaky_table)
           (λ _, shaky_engine) (λ _, shaky_table_keyset) 5) with (2 := Hr) (fuel := 25).
  - intros r a t x Hx. apply shaky_ids in Hx. revert Hx. generalize (id_of x). intros k.
    cbn. rewrite !elem_of_cons. intros H; destruct_or!; subst; try (by apply elem_of_nil in H);
      vm_compute; reflexivity.
  - vm_compute. reflexivity.
Defined.
