(* ===== verification/Shaping.v ===== *)
(** A bridge's column transforms, applied to the rows of a delivery
    ([apps/api/src/bridges/row-shaping.ts]). *)
From S2P Require Import Prelude JsText JsNumber JsDate JsValue JsJson JsBytes.
From S2P Require Import ColumnTransforms BridgeConfig RowCompare CdcState SinkRows DbSink.

Record Shaped := { srows : list obj; swarnings : list string; serrors : list string }.

Section shaping.
Context `{JsHost} (sha256 : string → string).

Definition shaping_context (tbl now : string) (op : option CdcOperation) : ColumnTransformContext :=
  {| ctable := tbl; cnow := now; hash := sha256; keysOnly := is_delete op |}.

(** [None]: it throws *)
Definition shapeRows (b : ResolvedBridge) (rows : list obj) (tbl now : string) (op : option CdcOperation)
  : option Shaped :=
  match default [] (columns (btransform b)), is_truncate op with
  | [], _ | _, true => Some {| srows := rows; swarnings := []; serrors := [] |}
  | steps, false =>
      results ← all_some ((λ r, applyColumnTransforms r (Some steps) (shaping_context tbl now op)) <$> rows);
      Some {| srows := row <$> results;
              swarnings := set_of (results ≫= cwarnings);
              serrors := set_of (results ≫= errors) |}
  end.
End shaping.
