(* ===== verification/Verify.v ===== *)
(** Verification of a bridge: is the destination the copy of the source the bridge
    says it is ([apps/api/src/bridges/bridge-verify.service.ts],
    [packages/core/src/bridges/verification.ts]).

    A run keeps one record per target. The connections, the tables and the time
    are outside: the database sink's calls are its own ([DbSink]), a page of a
    table, the reading of a whole table and a pause are calls of [Ends]. *)
From S2P Require Import Prelude JsText JsNumber JsDate JsValue JsJson JsBytes.
From S2P Require Import ColumnTransforms RedisTarget BridgeConfig TypeMap Bridge ValueMap RowCompare.
From S2P Require Import Async CdcState TableReader SinkRows DbSink Snapshot Volatile Shaping.

Local Open Scope async_scope.

(** a table, where it is *)
Record Where := {
  at_connection : string;
  at_database : option string;
  at_schema : option string;
  at_table : string
}.

Definition of_target (t : DatabaseTarget) : Where :=
  {| at_connection := tconnectionId t; at_database := tdatabase t; at_schema := tschema t; at_table := ttable t |}.

Definition of_source (s : TableSource) : Where :=
  {| at_connection := connectionId s; at_database := database s; at_schema := schema s; at_table := table s |}.

(** A reading that is open answers its rows one by one; [still_running]: the
    progress is saved, at once or when it is due, unless the run was canceled. *)
Class Ends (W : Type) := {
  browse : Where → BrowseParams → W → (string + Page) * W;
  order_of : TableSource → W → (string + TableOrder) * W;
  opened : Type;
  open_rows : TableSource → TableOrder → Z → opened;
  next_row : opened → W → (string + option (obj * opened)) * W;
  pause : W → W;
  still_running : bool → W → (string + bool) * W;
  save_total : option nat → W → (string + unit) * W;
  save_completed : W → (string + bool) * W;
  sha256 : string → string
}.

(** ** Rows of a report *)

Definition VERIFICATION_SAMPLES : nat := 25.
Definition RECHECK_BATCH : nat := 500.

Definition COMPARABLE (e : DatabaseEngine) : bool :=
  match e with postgres | mysql | sqlite | mongodb => true | _ => false end.

(** has a soft delete marked this row? *)
Definition isMarked (v : jsval) : bool :=
  negb (match v with
        | VNull | VUndef | VBool false => true
        | VNum n => num_eq n (num_of_Z 0)
        | VStr s => bool_decide (s = "0") || bool_decide (s = EmptyString)
        | _ => false
        end).

Definition shortened (s : string) : string :=
  slice 0 200 s +:+ "… (" +:+ pretty (str_length s) +:+ " characters)".

(** a value as a report keeps it; [None] where it throws *)
Definition show (v : jsval) : option jsval :=
  match v with
  | VUndef | VNull => Some VNull
  | VBig z => Some (VStr (Z_to_string z))
  | VDate t => (λ t, VStr (toISOString t)) <$> t
  | VBytes b => Some (VStr ("<" +:+ pretty (List.length b) +:+ " bytes>"))
  | VNum n => Some (if is_finite n then v else VStr (num_to_string n))
  | VStr s => Some (if 200 <? str_length s then VStr (shortened s) else v)
  | VArr _ | VObj _ =>
      match stringify (without_big v) with
      | JText text => if 200 <? str_length text then Some (VStr (shortened text)) else json_parse text
      | _ => None
      end
  | _ => Some v
  end.

(** ** One target, while it is being verified *)

Record TargetResult := {
  rtarget : string;
  unsupported : option string;
  notes : list string;
  checked : nat;
  missing : nat;
  different : nat;
  extra : option nat;
  fixed : nat;
  removed : nat;
  missing_samples : list (list jsval);
  extra_samples : list (list jsval);
  different_samples : list (list jsval * list ColumnDifference)
}.

Record TargetRun := {
  target : DatabaseTarget;
  result : TargetResult;
  kinds : gmap string PortableKind;
  keyKinds : list CompareKind;
  sourceKeyColumns : list string;
  keyIsTransformed : bool;
  skip : list string;
  suspects : list (string * obj);
  extraSuspects : list (string * list jsval)
}.

Definition remainingDifferences (r : TargetResult) : nat :=
  (missing r + different r - fixed r) + (default 0 (extra r) - removed r).

(** of a run that completed: nothing is left that differs; [None] where nothing was compared *)
Definition inSync (rs : list TargetResult) : option bool :=
  let compared := filter (λ r, unsupported r = None) rs in
  match compared with
  | [] => None
  | _ => Some (forallb (λ r, remainingDifferences r =? 0) compared)
  end.

(** [Map.set]: a key that is there keeps its place *)
Fixpoint map_set {A} (k : string) (x : A) (m : list (string * A)) : list (string * A) :=
  match m with
  | [] => [(k, x)]
  | (k', y) :: m => if decide (k' = k) then (k, x) :: m else (k', y) :: map_set k x m
  end.

Definition map_get {A} (m : list (string * A)) (k : string) : option A :=
  (λ x, x.2.2) <$> list_find (λ kv, kv.1 = k) m.

(** samples are kept up to a number of them *)
Definition sampled {A} (l : list A) (x : A) : list A :=
  if List.length l <? VERIFICATION_SAMPLES then l ++ [x] else l.

(** at most ten notes, each once *)
Definition add_note (text : string) (r : TargetResult) : TargetResult :=
  if (List.length (notes r) <? 10) && negb (bool_decide (text ∈ notes r))
  then r {{ notes := notes r ++ [text] }} else r.
Definition push_note (text : string) (r : TargetResult) : TargetResult := r {{ notes := notes r ++ [text] }}.

Definition with_suspects (l : list (string * obj)) (r : TargetRun) : TargetRun := r {{ suspects := l }}.
Definition with_extras (l : list (string * list jsval)) (r : TargetRun) : TargetRun := r {{ extraSuspects := l }}.
Definition with_result (f : TargetResult → TargetResult) (r : TargetRun) : TargetRun :=
  r {{ result := f (result r) }}.

Definition count_missing (r : TargetResult) : TargetResult := r {{ missing := S (missing r) }}.
Definition count_different (r : TargetResult) : TargetResult := r {{ different := S (different r) }}.
Definition count_checked (n : nat) (r : TargetResult) : TargetResult := r {{ checked := checked r + n }}.
Definition count_fixed (n : nat) (r : TargetResult) : TargetResult := r {{ fixed := fixed r + n }}.
Definition count_removed (n : nat) (r : TargetResult) : TargetResult := r {{ removed := removed r + n }}.
Definition count_extra (n : nat) (r : TargetResult) : TargetResult :=
  r {{ extra := Some (default 0 (extra r) + n) }}.
Definition start_extra (r : TargetResult) : TargetResult := r {{ extra := Some 0 }}.
Definition sample_missing (k : list jsval) (r : TargetResult) : TargetResult :=
  r {{ missing_samples := sampled (missing_samples r) k }}.
Definition sample_extra (k : list jsval) (r : TargetResult) : TargetResult :=
  r {{ extra_samples := sampled (extra_samples r) k }}.
Definition sample_different (x : list jsval * list ColumnDifference) (r : TargetResult) : TargetResult :=
  r {{ different_samples := sampled (different_samples r) x }}.

(** ** Keys *)

(** a value in a key, and as a parameter of a query: a wrapped value is an object *)
Definition cell (r : WRow) (k : string) : written :=
  if bool_decide (k ∈ wrapped r) then JsonColumnValue (obj_get (values r) k) else Plain (obj_get (values r) k).
Definition plain_cell (r : obj) (k : string) : written := Plain (obj_get r k).
Definition cell_value (v : written) : jsval :=
  match v with Plain v => v | JsonColumnValue v => VObj [("value", v)] end.
Definition plain_key (key : list jsval) : list written := Plain <$> key.
Definition usable (key : list written) : bool := forallb (λ v, negb (is_nil (cell_value v))) key.

Definition typeof (v : jsval) : string :=
  match v with
  | VUndef => "undefined" | VBool _ => "boolean" | VNum _ => "number" | VBig _ => "bigint"
  | VStr _ => "string" | VSym _ => "symbol" | _ => "object"
  end.

(** [/^-?\d{1,15}$/.test(s) && String(Number(s)) === s] *)
Definition short_integer (s : string) : option Z :=
  let (sign, ds) := match chars s with
                    | c :: ds => if (c =? "-")%char then ((-1)%Z, ds) else (1%Z, c :: ds)
                    | [] => (1%Z, [])
                    end in
  let z := (sign * digits_value ds)%Z in
  if (1 <=? List.length ds) && (List.length ds <=? 15) && forallb is_digit ds &&
     bool_decide (Z_to_string z = s) then Some z else None.

Section verify.
Context `{JsHost} `{JsPrint} (tenth_power : nat → num) {W : Type} `{!Adapters W} `{!Ends W}.

(** the values of an [IN], each once ([lookup-values.ts]) *)
Definition lookupValues (vs : list jsval) (engine : option DatabaseEngine) : list jsval :=
  snd <$> foldl (λ out v,
    let out := map_set (typeof v +:+ ":" +:+ to_string v) v out in
    match v, engine with
    | VStr s, Some mongodb =>
        match short_integer s with Some z => map_set ("number:" +:+ s) (VNum (num_of_Z z)) out | None => out end
    | _, _ => out
    end) [] vs.

Definition in_filters (keyColumns : list string) (keys : list (list written)) (engine : option DatabaseEngine)
  : list FilterSpec :=
  imap (λ i c, {| fcolumn := c; foperator := op_in;
                  fvalue := VArr (lookupValues ((λ k, cell_value (default (Plain VUndef) (k !! i))) <$> keys) engine) |})
    keyColumns.

(** the rows of a page that are wanted, by key text; a later row replaces an earlier one *)
Fixpoint collect (wanted : list string) (text : obj → option string) (rows : list obj)
    (out : list (string * obj)) : option (list (string * obj)) :=
  match rows with
  | [] => Some out
  | r :: rows => key ← text r;
                 collect wanted text rows (if bool_decide (key ∈ wanted) then map_set key r out else out)
  end.

(** ** State *)

(** one target: its run, the sink it shares, and whether the run was canceled *)
Record TState := { tsink : SinkState (W:=W); trun : TargetRun; tcanceled : bool }.

Abbreviation OfSink A := (@async (SinkState (W:=W)) A).
Abbreviation T A := (@async TState A).

Definition put_sink (s : SinkState) (t : TState) : TState :=
  {| tsink := s; trun := trun t; tcanceled := tcanceled t |}.
Definition put_run (f : TargetRun → TargetRun) (t : TState) : TState :=
  {| tsink := tsink t; trun := f (trun t); tcanceled := tcanceled t |}.

Definition of_sink {A} (m : OfSink A) : T A := zoom tsink put_sink m.
Definition of_run (f : TargetRun → TargetRun) : T unit := modify (put_run f).
Definition of_result (f : TargetResult → TargetResult) : T unit := of_run (with_result f).
Definition note (text : string) : T unit := of_result (add_note text).

Definition UNPRINTABLE : string := "Do not know how to serialize a value".
Definition or_throw {S A} (x : option A) : @async S A :=
  match x with Some x => Ret x | None => Throw UNPRINTABLE end.

(** a loop that is still running when its fuel ends: no answer *)
Definition never {S A} : @async S A := Act (λ _, false) (λ s, (tt, s)) (λ _, Throw EmptyString).

Context (fuel : nat) (b : ResolvedBridge).

(** ** Reading *)

Definition shaped_rows (rows : list obj) (table_ : string) : OfSink (list obj) :=
  let* now := read (λ s, toISOString (clock (world s))) in
  let* x := or_throw (shapeRows sha256 b rows table_ now None) in
  Ret (srows x).

Fixpoint fetch_pages (n : nat) (at_ : Where) (ask : nat → BrowseParams) (wanted : list string)
    (text : obj → option string) (offset : nat) (out : list (string * obj)) : OfSink (list (string * obj)) :=
  match n with
  | 0 => never
  | S n =>
      let* page := outside (browse at_ (ask offset)) in
      let* out := or_throw (collect wanted text (prows page) out) in
      if last_page page then Ret out
      else fetch_pages n at_ ask wanted text (offset + List.length (prows page)) out
  end.

Definition ask_page (fs : list FilterSpec) (keyColumns : list string) (offset : nat) : BrowseParams :=
  {| bfilters := fs; bsort := ascending <$> keyColumns; blimit := 1000; boffset := offset;
     bcursor := None; bafter := None |}.

Definition fetchByKeys (at_ : Where) (keyColumns : list string) (keys : list (list written))
    (kinds : list CompareKind) (fs : list FilterSpec) (engine : option DatabaseEngine)
  : OfSink (list (string * obj)) :=
  let good := filter (λ k, usable k = true) keys in
  match good with
  | [] => Ret []
  | _ =>
      let* wanted := or_throw (all_some ((λ k, keyText k kinds) <$> good)) in
      fetch_pages fuel at_ (ask_page (fs ++ in_filters keyColumns good engine) keyColumns) (set_of wanted)
        (λ row, keyText (plain_cell row <$> keyColumns) kinds) 0 []
  end.

Definition keyOf (run : TargetRun) (row : WRow) : list written := cell row <$> keyColumns (target run).

Definition fetch_target (run : TargetRun) (keys : list (list written)) : OfSink (list (string * obj)) :=
  fetchByKeys (of_target (target run)) (keyColumns (target run)) keys (keyKinds run) [] None.

Definition source_key (run : TargetRun) (row : obj) : list written := plain_cell row <$> sourceKeyColumns run.

Definition fetch_source (run : TargetRun) (src : TableSource) (engine : DatabaseEngine) (keys : list (list written))
  : OfSink (list (string * obj)) :=
  fetchByKeys (of_source src) (sourceKeyColumns run) keys (keyKinds run) (default [] (filters src)) (Some engine).

(** ** First sight: a page of the source against one target *)

Record Looked := { lrow : obj; lshaped : obj; lexpected : WRow }.

Definition looked (rows shaped : list obj) (expected : list WRow) : list Looked :=
  zip_with (λ r '(s, e), {| lrow := r; lshaped := s; lexpected := e |}) rows (zip shaped expected).

Definition differences (run : TargetRun) (expected : WRow) (actual : obj) : option (list ColumnDifference) :=
  filter (λ d, dcolumn d ∉ skip run) <$> diffRow tenth_power (to_written expected) actual (λ c, kinds run !! c).

(** what was found of a row and what of it differs; [Some (Some _, [])]: it is as it should be *)
Definition verdict (run : TargetRun) (actual : list (string * obj)) (expected : WRow)
  : option (string * option obj * list ColumnDifference) :=
  key ← keyText (keyOf run expected) (keyKinds run);
  match map_get actual key with
  | None => Some (key, None, [])
  | Some found => ds ← differences run expected found; Some (key, Some found, ds)
  end.

Definition as_expected (v : string * option obj * list ColumnDifference) : bool :=
  match v with (_, Some _, []) => true | _ => false end.

Fixpoint suspect (run : TargetRun) (actual : list (string * obj)) (items : list Looked)
    (out : list (string * obj)) : option (list (string * obj)) :=
  match items with
  | [] => Some out
  | x :: items =>
      v ← verdict run actual (lexpected x);
      suspect run actual items (if as_expected v then out else map_set v.1.1 (lrow x) out)
  end.

Definition compare (rows shaped : list obj) : T unit :=
  let* run := read trun in
  let* expected := of_sink (expectedRows b (target run) shaped) in
  let* actual := of_sink (fetch_target run (keyOf run <$> expected)) in
  let* found := or_throw (suspect run actual (looked rows shaped expected) (suspects run)) in
  of_run (with_suspects found) ;;
  of_result (count_checked (List.length expected)).

(** ** The second look *)

Definition shown (key : list jsval) : option (list jsval) := all_some (show <$> key).

Definition shown_difference (d : ColumnDifference) : option ColumnDifference :=
  e ← show (dexpected d);
  a ← show (dactual d);
  Some {| dcolumn := dcolumn d; dexpected := e; dactual := a |}.

Definition room {A} (samples : TargetResult → list A) : T bool :=
  read (λ t, List.length (samples (result (trun t))) <? VERIFICATION_SAMPLES).

Definition count_wrong (key : list jsval) (found : option obj) (columns : list ColumnDifference) : T unit :=
  match found with
  | None =>
      of_result count_missing ;;
      let* more := room missing_samples in
      if more : bool then let* k := or_throw (shown key) in of_result (sample_missing k) else Ret tt
  | Some _ =>
      of_result count_different ;;
      let* more := room different_samples in
      if more : bool then
        let* k := or_throw (shown key) in
        let* ds := or_throw (all_some (shown_difference <$> columns)) in
        of_result (sample_different (k, ds))
      else Ret tt
  end.

(** the rows that are still wrong, counted when this is the first time *)
Fixpoint still_wrong (first : bool) (run : TargetRun) (actual : list (string * obj)) (items : list Looked)
  : T (list Looked) :=
  match items with
  | [] => Ret []
  | x :: items =>
      let* v := or_throw (verdict run actual (lexpected x)) in
      if as_expected v then still_wrong first run actual items
      else
        (if first then count_wrong (cell_value <$> keyOf run (lexpected x)) v.1.2 v.2 else Ret tt) ;;
        let* rest := still_wrong first run actual items in
        Ret (x :: rest)
  end.

Definition KEPT_CHANGING (n : nat) : string :=
  pretty n +:+ " row(s) kept changing while they were being repaired. Verify again to see where they stand.".

Definition plain (r : obj) : Row := {| cols := r; origins := [] |}.

Definition error_of (o : DeliveryOutcome) : string := default "unknown error" (oerror o).

(** the rows as the source has them now; one that has gone is not missing from
    anywhere. A key that is changed on the way cannot be looked up there. *)
Definition read_again (src : TableSource) (engine : DatabaseEngine) (run : TargetRun) (moving : bool)
    (pending : list obj) : T (list obj) :=
  if negb moving then Ret pending else
  of_sink (told (λ w, (tt, pause w))) ;;
  if keyIsTransformed run then Ret pending else
  let* again := of_sink (fetch_source run src engine (source_key run <$> pending)) in
  Ret (snd <$> again).

(** [n]: the rounds that are left *)
Fixpoint look_again (n : nat) (first : bool) (src : TableSource) (engine : DatabaseEngine) (moving fix_ : bool)
    (pending : list obj) : T unit :=
  match n, pending with
  | 0, _ | _, [] => Ret tt
  | S n, _ =>
      let* run := read trun in
      let* pending := read_again src engine run moving pending in
      match pending with
      | [] => Ret tt
      | _ =>
          let* shaped := of_sink (shaped_rows pending (table src)) in
          let* expected := of_sink (expectedRows b (target run) shaped) in
          let* actual := of_sink (fetch_target run (keyOf run <$> expected)) in
          let* wrong := still_wrong first run actual (looked pending shaped expected) in
          if negb fix_ || bool_decide (wrong = []) then Ret tt
          else if (n =? 0) && negb first then note (KEPT_CHANGING (List.length wrong))
          else
            let* o := of_sink (deliver b [target run] (plain ∘ lshaped <$> wrong) None []) in
            if negb (success o) then note ("Some rows could not be written: " +:+ error_of o)
            else
              (if first then of_result (count_fixed (List.length wrong)) else Ret tt) ;;
              look_again n false src engine moving fix_ (lrow <$> wrong)
      end
  end.

Definition secondLook (engine : DatabaseEngine) (moving fix_ : bool) : T unit :=
  let* found := read (λ t, suspects (trun t)) in
  match found, bsource b with
  | _ :: _, FromTable src =>
      of_run (with_suspects []) ;;
      look_again (if fix_ && moving then 3 else 1) true src engine moving fix_ (snd <$> found)
  | _, _ => Ret tt
  end.

(** ** Second pass: rows the destination has and the source does not *)

Definition tableOf (t : DatabaseTarget) : TableSource :=
  {| connectionId := tconnectionId t; database := tdatabase t; schema := tschema t; table := ttable t;
     filters := None; sort := None |}.

Definition by_key_columns (t : DatabaseTarget) : TableSource :=
  {| connectionId := tconnectionId t; database := tdatabase t; schema := tschema t; table := ttable t;
     filters := None; sort := Some (ascending <$> keyColumns t) |}.

(** the key texts of these candidates the source has, as the rows would be written *)
Definition sourceKeys (src : TableSource) (engine : DatabaseEngine) (run : TargetRun)
    (candidates : list (list jsval)) : OfSink (list string) :=
  let* found := fetch_source run src engine (plain_key <$> candidates) in
  match found with
  | [] => Ret []
  | _ =>
      let* shaped := shaped_rows (snd <$> found) (table src) in
      let* expected := expectedRows b (target run) shaped in
      or_throw (all_some ((λ row, keyText (keyOf run row) (keyKinds run)) <$> expected))
  end.

Definition marked (t : DatabaseTarget) (row : obj) : bool :=
  match soft_of t with Some s => isMarked (obj_get row (softColumn s)) | None => false end.

Definition target_key (run : TargetRun) (row : obj) : list jsval := obj_get row <$> keyColumns (target run).

Definition candidate_text (run : TargetRun) (key : list jsval) : option string :=
  keyText (plain_key key) (keyKinds run).

(** still there, still not in the source, and not marked meanwhile *)
Fixpoint still_extra (run : TargetRun) (inSource : list string) (inTarget : list (string * obj))
    (keys : list (list jsval)) : option (list (list jsval)) :=
  match keys with
  | [] => Some []
  | k :: keys =>
      t ← candidate_text run k;
      rest ← still_extra run inSource inTarget keys;
      let there := match map_get inTarget t with
                   | Some row => negb (bool_decide (t ∈ inSource)) && negb (marked (target run) row)
                   | None => false
                   end in
      Some (if there then k :: rest else rest)
  end.

Fixpoint sample_extras (keys : list (list jsval)) : T unit :=
  match keys with
  | [] => Ret tt
  | k :: keys =>
      let* more := room extra_samples in
      (if more : bool then let* x := or_throw (shown k) in of_result (sample_extra x) else Ret tt) ;;
      sample_extras keys
  end.

(** a key spelled the source's way *)
Definition source_row (run : TargetRun) (key : list jsval) : obj :=
  foldl (λ o '(c, v), obj_define o c v) [] (zip (sourceKeyColumns run) key).

Definition settle (src : TableSource) (engine : DatabaseEngine) (moving remove : bool) : T unit :=
  let* run := read trun in
  match extraSuspects run with
  | [] => Ret tt
  | found =>
      of_run (with_extras []) ;;
      let* keys := (if negb moving then Ret (snd <$> found) else
        of_sink (told (λ w, (tt, pause w))) ;;
        let* inSource := of_sink (sourceKeys src engine run (snd <$> found)) in
        let* inTarget := of_sink (fetch_target run ((λ x, plain_key x.2) <$> found)) in
        or_throw (still_extra run inSource inTarget (snd <$> found))) in
      match keys with
      | [] => Ret tt
      | _ =>
          of_result (count_extra (List.length keys)) ;;
          sample_extras keys ;;
          if negb remove then Ret tt else
          let* o := of_sink (deliver b [target run] (plain ∘ source_row run <$> keys) (Some op_delete) []) in
          if success o then of_result (count_removed (List.length keys))
          else note ("Some rows could not be removed: " +:+ error_of o)
      end
  end.

Fixpoint suspect_extras (run : TargetRun) (inSource : list string) (keys : list (list jsval))
    (out : list (string * list jsval)) : option (list (string * list jsval)) :=
  match keys with
  | [] => Some out
  | k :: keys =>
      t ← candidate_text run k;
      suspect_extras run inSource keys (if bool_decide (t ∈ inSource) then out else map_set t k out)
  end.

(** saves the progress; throws where the run was canceled *)
Definition beat (force : bool) : T unit :=
  let* on := of_sink (outside (still_running force)) in
  if on : bool then Ret tt
  else modify (λ t, {| tsink := tsink t; trun := trun t; tcanceled := true |}) ;; Throw EmptyString.

Definition flush_extras (src : TableSource) (engine : DatabaseEngine) (moving remove : bool) (page : list obj)
  : T unit :=
  match page with
  | [] => Ret tt
  | _ =>
      let* run := read trun in
      match filter (λ row, marked (target run) row = false) page with
      | [] => Ret tt
      | rows =>
          let* inSource := of_sink (sourceKeys src engine run (target_key run <$> rows)) in
          let* found := or_throw (suspect_extras run inSource (target_key run <$> rows) (extraSuspects run)) in
          of_run (with_extras found) ;;
          if RECHECK_BATCH <=? List.length found then settle src engine moving remove else Ret tt
      end ;;
      beat false
  end.

Definition full_page (page : list obj) : bool := (pageSize (bdelivery b) <=? Z.of_nat (List.length page))%Z.

Fixpoint read_extras (n : nat) (src : TableSource) (engine : DatabaseEngine) (moving remove : bool)
    (rd : opened) (page : list obj) : T unit :=
  match n with
  | 0 => never
  | S n =>
      let* item := of_sink (outside (next_row rd)) in
      match item with
      | None => flush_extras src engine moving remove page ;; settle src engine moving remove
      | Some (row, rd) =>
          let page := page ++ [row] in
          if full_page page
          then flush_extras src engine moving remove page ;; read_extras n src engine moving remove rd []
          else read_extras n src engine moving remove rd page
      end
  end.

(** a table with no key to read it by is read in the order of the bridge's key columns *)
Definition extras_order (t : DatabaseTarget) : OfSink (TableSource * TableOrder) :=
  let* order := catch (let* o := outside (order_of (tableOf t)) in Ret (Some o)) (λ _, Ret None) in
  match order with
  | Some o =>
      match owarning o with
      | None => Ret (tableOf t, o)
      | Some _ => let* o := outside (order_of (by_key_columns t)) in Ret (by_key_columns t, o)
      end
  | None => let* o := outside (order_of (by_key_columns t)) in Ret (by_key_columns t, o)
  end.

Definition DELETED_ROWS_ARE_KEPT : string :=
  "This target keeps rows that were deleted at the source, so rows that are only there were not looked for.".
Definition KEY_CHANGES : string :=
  "A key column is changed on the way (masked, cast or computed), so the source cannot be asked for a destination key: rows that are only in the destination were not looked for.".

Definition findExtras (engine : DatabaseEngine) (moving remove : bool) : T unit :=
  match bsource b with
  | FromQuery _ => Ret tt
  | FromTable src =>
      let* run := read trun in
      match onDelete (target run) with
      | ignore_delete => of_result (push_note DELETED_ROWS_ARE_KEPT)
      | _ =>
          if keyIsTransformed run then of_result (push_note KEY_CHANGES) else
          of_result start_extra ;;
          let* order := of_sink (extras_order (target run)) in
          read_extras fuel src engine moving remove (open_rows order.1 order.2 (pageSize (bdelivery b))) []
      end
  end.

(** ** What is needed to compare one target, or why it cannot be *)

Definition NO_KEYS : string :=
  "This target has no key columns (it only inserts): there is nothing to find a row by.".
Definition engine_name (e : DatabaseEngine) : string :=
  match e with postgres => "postgres" | mysql => "mysql" | sqlite => "sqlite" | mongodb => "mongodb"
             | redis_engine => "redis" end.
Definition NOT_COMPARABLE (e : DatabaseEngine) : string :=
  "A " +:+ engine_name e +:+ " destination cannot be asked for rows by key, so it cannot be compared.".
Definition NOT_COMPARED (columns : list string) : string :=
  "Not compared, because the value is the time of delivery: " +:+ join ", " columns +:+ ".".

Definition new_result (t : DatabaseTarget) (why : option string) (ns : list string) : TargetResult :=
  {| rtarget := qualified t; unsupported := why; notes := ns; checked := 0; missing := 0; different := 0;
     extra := None; fixed := 0; removed := 0; missing_samples := []; extra_samples := []; different_samples := [] |}.

Definition new_run (t : DatabaseTarget) (why : option string) : TargetRun :=
  {| target := t; result := new_result t why []; kinds := ∅; keyKinds := []; sourceKeyColumns := [];
     keyIsTransformed := false; skip := []; suspects := []; extraSuspects := [] |}.

Definition sourceOf (t : DatabaseTarget) (k : string) : string :=
  match mapping t with
  | [] => k
  | m => default k ((λ x, msource x.2) <$> list_find (λ x, mtarget x = k) (reverse m))
  end.

Definition targetOf (t : DatabaseTarget) (source : string) : list string :=
  match mapping t with
  | [] => [source]
  | m => mtarget <$> filter (λ x, msource x = source) m
  end.

(** the columns whose value is the time of delivery, as the target names them *)
Definition never_same (t : DatabaseTarget) : list string :=
  set_of (volatileColumns (columns (btransform b)) ≫= targetOf t).

Definition prepared (t : DatabaseTarget) (ks : gmap string PortableKind) : TargetRun :=
  let source_keys := sourceOf t <$> keyColumns t in
  let written_to := column <$> default [] (columns (btransform b)) in
  {| target := t;
     result := new_result t None (match never_same t with [] => [] | cs => [NOT_COMPARED cs] end);
     kinds := ks; keyKinds := (λ k, ks !! k) <$> keyColumns t;
     sourceKeyColumns := source_keys;
     keyIsTransformed := existsb (λ c, bool_decide (c ∈ written_to)) source_keys;
     skip := never_same t; suspects := []; extraSuspects := [] |}.

Definition prepare (t : DatabaseTarget) : OfSink TargetRun :=
  match keyColumns t with
  | [] => Ret (new_run t (Some NO_KEYS))
  | _ =>
      let* engine := outside (engine_of (tconnectionId t)) in
      if negb (COMPARABLE engine) then Ret (new_run t (Some (NOT_COMPARABLE engine)))
      else let* ks := columnKinds b t in Ret (prepared t ks)
  end.

Fixpoint prepare_all (ts : list DatabaseTarget) : OfSink (list TargetRun) :=
  match ts with
  | [] => Ret []
  | t :: ts => let* r := prepare t in let* rs := prepare_all ts in Ret (r :: rs)
  end.

(** ** A verification *)

Record VState := {
  vsink : SinkState (W:=W);
  vruns : list TargetRun;
  vsourceRows : nat;
  vcanceled : bool
}.

Abbreviation V A := (@async VState A).

Definition blank_run : TargetRun :=
  new_run {| tconnectionId := EmptyString; tdatabase := None; tschema := None; ttable := EmptyString;
             writeMode := insert_only; keyColumns := []; mapping := []; createMissingTable := false;
             onDelete := ignore_delete; softDelete := None; redis := None |} None.

Definition in_sink (s : SinkState) (v : VState) : VState :=
  {| vsink := s; vruns := vruns v; vsourceRows := vsourceRows v; vcanceled := vcanceled v |}.
Definition with_runs (rs : list TargetRun) (v : VState) : VState :=
  {| vsink := vsink v; vruns := rs; vsourceRows := vsourceRows v; vcanceled := vcanceled v |}.
Definition more_rows (n : nat) (v : VState) : VState :=
  {| vsink := vsink v; vruns := vruns v; vsourceRows := vsourceRows v + n; vcanceled := vcanceled v |}.

(** the [i]th target's part of the state *)
Definition one_of (i : nat) (v : VState) : TState :=
  {| tsink := vsink v; trun := nth i (vruns v) blank_run; tcanceled := vcanceled v |}.
Definition put_one (i : nat) (t : TState) (v : VState) : VState :=
  {| vsink := tsink t; vruns := <[i := trun t]> (vruns v); vsourceRows := vsourceRows v;
     vcanceled := tcanceled t |}.

Definition by_sink {A} (m : OfSink A) : V A := zoom vsink in_sink m.
Definition of_target_run {A} (i : nat) (m : T A) : V A := zoom (one_of i) (put_one i) m.

(** one target after another *)
Fixpoint for_runs (live : list nat) (m : T unit) : V unit :=
  match live with
  | [] => Ret tt
  | i :: live => of_target_run i m ;; for_runs live m
  end.

Definition supported (r : TargetRun) : bool := negb (bool_decide (is_Some (unsupported (result r)))).

Definition live_runs (rs : list TargetRun) : list nat :=
  fst <$> filter (λ x, supported x.2 = true) (imap pair rs).

Definition cancel_seen (v : VState) : VState :=
  {| vsink := vsink v; vruns := vruns v; vsourceRows := vsourceRows v; vcanceled := true |}.

Definition beat_all (force : bool) : V unit :=
  let* on := by_sink (outside (still_running force)) in
  if on : bool then Ret tt else modify cancel_seen ;; Throw EmptyString.

Section run.
Context (src : TableSource) (engine : DatabaseEngine) (live : list nat) (moving fix_ deleteExtra : bool).

(** a page against one target, with a second look when enough is suspect *)
Definition compare_page (page shaped : list obj) : T unit :=
  compare page shaped ;;
  let* n := read (λ t, List.length (suspects (trun t))) in
  if RECHECK_BATCH <=? n then secondLook engine moving fix_ else Ret tt.

Definition flush_page (page : list obj) : V unit :=
  match page with
  | [] => Ret tt
  | _ =>
      let* shaped := by_sink (shaped_rows page (table src)) in
      for_runs live (compare_page page shaped) ;;
      modify (more_rows (List.length page)) ;;
      beat_all false
  end.

Fixpoint read_source (n : nat) (rd : opened) (page : list obj) : V unit :=
  match n with
  | 0 => never
  | S n =>
      let* item := by_sink (outside (next_row rd)) in
      match item with
      | None => flush_page page
      | Some (row, rd) =>
          let page := page ++ [row] in
          if full_page page then flush_page page ;; read_source n rd []
          else read_source n rd page
      end
  end.

Definition both_passes : V unit :=
  let* order := by_sink (outside (order_of src)) in
  by_sink (outside (save_total (ototal order))) ;;
  match owarning order with
  | Some w => for_runs live (note w)
  | None => Ret tt
  end ;;
  read_source fuel (open_rows src order (pageSize (bdelivery b))) [] ;;
  for_runs live (secondLook engine moving fix_) ;;
  beat_all true ;;
  for_runs live (findExtras engine moving (fix_ && deleteExtra) ;; beat true).
End run.

Inductive Ending := Completed | Canceled | Failed (e : string).

Definition verification (delivering fix_ deleteExtra : bool) : V unit :=
  match bsource b, bdestination b with
  | FromTable src, Database targets =>
      let* engine := by_sink (outside (engine_of (connectionId src))) in
      let* runs := by_sink (prepare_all targets) in
      modify (with_runs runs) ;;
      match live_runs runs with
      | [] => Ret tt
      | live => both_passes src engine live delivering fix_ deleteExtra
      end ;;
      let* done := by_sink (outside save_completed) in
      if done : bool then Ret tt else modify cancel_seen ;; Throw EmptyString
  | _, _ => Throw "This bridge cannot be verified."
  end.

(** [run]: [delivering]: a live bridge that has a job which delivers *)
Definition run (delivering fix_ deleteExtra : bool) : V Ending :=
  catch (verification delivering fix_ deleteExtra ;; Ret Completed)
        (λ e, let* canceled := read vcanceled in
              Ret (if canceled : bool then Canceled else Failed e)).

Definition report (v : VState) : list TargetResult := result <$> vruns v.
End verify.
