(* ===== verification/VerifyKeys.v ===== *)
(** Lists, maps and reports of a verification ([Verify]): what a lookup by key
    gathers, which targets are compared, when a report says "in sync". *)
From S2P Require Import Prelude JsText JsNumber JsDate JsValue JsJson JsBytes.
From S2P Require Import ColumnTransforms RedisTarget BridgeConfig TypeMap Bridge ValueMap RowCompare.
From S2P Require Import Async CdcState TableReader SinkRows DbSink Snapshot Volatile Shaping Verify.


Lemma yields_or_throw {S A B} (x : option A) y (h : A → @async S B) s Q :
  x = Some y → yields (h y) s Q → yields (bind (or_throw x) h) s Q.
Proof. by intros ->. Qed.

(** ** Keys in a [Map] *)

Section map_set.
Context {A : Type}.
Implicit Types m : list (string * A).

Lemma map_get_cons k y m k' : map_get ((k, y) :: m) k' = if decide (k = k') then Some y else map_get m k'.
Proof.
  unfold map_get. cbn. destruct (decide (k = k')) as [->|Hne]; [done|].
  by destruct (list_find _ m) as [[? ?]|].
Qed.

Lemma map_get_set k (x : A) m k' : map_get (map_set k x m) k' = if decide (k = k') then Some x else map_get m k'.
Proof.
  induction m as [|[k1 y] m IH]; cbn [map_set].
  - by rewrite map_get_cons.
  - destruct (decide (k1 = k)) as [->|Hne]; rewrite !map_get_cons; [by repeat case_decide|].
    rewrite IH. repeat case_decide; congruence.
Qed.

Lemma map_set_not_nil k (x : A) m : map_set k x m ≠ [].
Proof. destruct m as [|[k1 y] m]; cbn; [done|]. by case_decide. Qed.

Lemma map_set_Forall (P : A → Prop) k x m :
  P x → Forall P (snd <$> m) → Forall P (snd <$> map_set k x m).
Proof.
  intros Hx. induction m as [|[k1 y] m IH]; cbn; [auto|]. intros [Hy Hm]%Forall_cons.
  case_decide; cbn; auto.
Qed.

Lemma map_get_elem m k x : map_get m k = Some x → x ∈ snd <$> m.
Proof.
  unfold map_get. intros ([i [k' y]] & Hf & ->)%fmap_Some. apply list_find_Some in Hf as (Hi & _ & _).
  apply list_elem_of_lookup_2 in Hi. by apply (list_elem_of_fmap_2 snd) in Hi.
Qed.
End map_set.

(** ** What a lookup by key gathers *)

Section gathered.
Context (wanted : list string) (text : obj → option string).

(** [m] has, of the rows [l], one of each key that is wanted *)
Record gathered (l : list obj) (m : list (string * obj)) : Prop := {
  gathered_sound : ∀ k r, map_get m k = Some r → r ∈ l ∧ text r = Some k;
  gathered_from : Forall (λ r, r ∈ l) (snd <$> m);
  gathered_all : ∀ r k, r ∈ l → text r = Some k → k ∈ wanted → is_Some (map_get m k)
}.

Lemma gathered_nil : gathered [] [].
Proof. split; [done|done|set_solver]. Qed.

Lemma gathered_row l m r k :
  gathered l m → text r = Some k →
  gathered (l ++ [r]) (if bool_decide (k ∈ wanted) then map_set k r m else m).
Proof.
  intros [Hs Hf Ha] Hk. destruct (bool_decide_reflect (k ∈ wanted)) as [Hin|Hin]; split.
  - intros k' r'. rewrite map_get_set. case_decide; [intros [= <-]; set_solver|].
    intros [??]%Hs. set_solver.
  - apply map_set_Forall; [set_solver|]. eapply Forall_impl; [done|]. set_solver.
  - intros r' k' [Hr|Hr%list_elem_of_singleton]%elem_of_app Hk' Hw; rewrite map_get_set; case_decide; try done.
    + by eapply Ha.
    + congruence.
  - intros k' r' [??]%Hs. set_solver.
  - eapply Forall_impl; [done|]. set_solver.
  - intros r' k' [Hr|Hr%list_elem_of_singleton]%elem_of_app Hk' Hw; [by eapply Ha|]. congruence.
Qed.

Lemma collect_gathered rows l m :
  gathered l m → Forall (λ r, is_Some (text r)) rows →
  ∃ m', collect wanted text rows m = Some m' ∧ gathered (l ++ rows) m'.
Proof.
  revert l m. induction rows as [|r rows IH]; intros l m Hm Ht; cbn [collect].
  - exists m. by rewrite app_nil_r.
  - apply Forall_cons in Ht as [[k Hk] Ht]. rewrite Hk. cbn.
    destruct (IH _ _ (gathered_row l m r k Hm Hk) Ht) as (m' & Hc & Hg). exists m'.
    split; [done|]. by rewrite <- app_assoc in Hg.
Qed.
End gathered.

Lemma filter_all {A} (P : A → Prop) `{∀ x, Decision (P x)} (l : list A) : Forall P l → filter P l = l.
Proof. induction 1 as [|x l Hx _ IH]; [done|]. by rewrite filter_cons_True, IH. Qed.

Lemma all_some_map {A B} (f : A → option B) (l : list A) :
  Forall (λ x, is_Some (f x)) l →
  ∃ ys, all_some (f <$> l) = Some ys ∧ Forall2 (λ x y, f x = Some y) l ys.
Proof.
  induction 1 as [|x l [y Hy] _ (ys & IH & H2)]; [by exists []|].
  exists (y :: ys). cbn. rewrite Hy. cbn in *. rewrite IH. auto.
Qed.

(** ** The targets that can be compared *)

Lemma imap_pair_fst {A} (l : list A) : fst <$> imap pair l = List.seq 0 (List.length l).
Proof.
  apply list_eq. intros i. rewrite list_lookup_fmap, list_lookup_imap.
  destruct (l !! i) eqn:Hi; cbn.
  - symmetry. apply lookup_seq. apply lookup_lt_Some in Hi. lia.
  - symmetry. apply lookup_seq_ge. by apply lookup_ge_None in Hi.
Qed.

Lemma live_runs_NoDup rs : NoDup (live_runs rs).
Proof.
  unfold live_runs. eapply sublist_NoDup; [|apply (fmap_sublist fst), sublist_filter].
  rewrite imap_pair_fst. apply NoDup_seq.
Qed.

Lemma live_runs_elem rs i : i ∈ live_runs rs ↔ ∃ r, rs !! i = Some r ∧ supported r = true.
Proof.
  unfold live_runs. rewrite list_elem_of_fmap. split.
  - intros ([j r] & -> & [Hs Hin]%list_elem_of_filter). apply list_elem_of_lookup in Hin as [k Hk].
    rewrite list_lookup_imap in Hk. apply fmap_Some in Hk as (x & Hx & [= -> ->]). by exists x.
  - intros (r & Hr & Hs). exists (i, r). split; [done|]. apply list_elem_of_filter. split; [done|].
    apply list_elem_of_lookup. exists i. by rewrite list_lookup_imap, Hr.
Qed.

(** ** The parts of a reading *)

Lemma first_part {A} (page l held : list A) r : page ++ r :: l ⊆ held → page ++ [r] ⊆ held.
Proof. set_solver. Qed.

Lemma last_part {A} (page l held : list A) r : page ++ r :: l ⊆ held → [] ++ l ⊆ held.
Proof. set_solver. Qed.

(** ** What a report says *)

Lemma in_sync_report rs :
  inSync rs = Some true ↔
  Exists (λ r, unsupported r = None) rs ∧ Forall (λ r, unsupported r = None → remainingDifferences r = 0) rs.
Proof.
  unfold inSync. set (l := filter _ rs).
  assert (Hin : ∀ r, r ∈ l ↔ unsupported r = None ∧ r ∈ rs) by (intros r; unfold l; by rewrite list_elem_of_filter).
  rewrite Exists_exists, Forall_forall. destruct l as [|r0 l0] eqn:Hl; rewrite <- ?Hl in *.
  - split; [done|]. intros ((r & Hr & Hu) & _). pose proof (proj2 (Hin r) (conj Hu Hr)) as Hl'. rewrite Hl in Hl'. set_solver.
  - split.
    + intros [= Hall]. rewrite forallb_forall in Hall. split.
      * exists r0. assert (r0 ∈ l) as [? ?]%Hin by (rewrite Hl; set_solver). done.
      * intros r Hr Hu. apply Nat.eqb_eq, Hall, list_elem_of_In, Hin. done.
    + intros [_ Hall]. f_equal. apply forallb_forall. intros r Hr%list_elem_of_In. apply Hin in Hr as [Hu Hr].
      apply Nat.eqb_eq. by apply Hall.
Qed.
