(* ===== verification/VerifyExact.v ===== *)
(** What a verification says is so: over tables that hold still, the report of a
    run says "in sync" exactly when every row of the source is found in the
    target as it would be written, and every row of the target has its key in the
    source ([Verify]). *)
From S2P Require Import Prelude JsText JsNumber JsDate JsValue JsJson JsBytes.
From S2P Require Import ColumnTransforms RedisTarget BridgeConfig TypeMap Bridge ValueMap RowCompare.
From S2P Require Import Async CdcState TableReader SinkRows DbSink Snapshot Volatile Shaping Verify VerifyKeys.

Local Open Scope async_scope.

(** ** What every call answers *)

Section still.
Context `{JsHost} `{JsPrint} (tenth_power : nat → num) {W : Type} `{!Adapters W} `{!Ends W}.
Context (still : W → Prop).

(** the world is as it was, and gives this answer *)
Definition answers {R} (f : W → R * W) (x : R) : Prop := ∀ w, still w → (f w).1 = x ∧ still (f w).2.

Abbreviation SS := (SinkState (W:=W)).

Lemma yields_outside {A R} (f : W → (string + R) * W) (x : R) (h : R → @async SS A) s Q :
  answers f (inr x) → still (world s) →
  (∀ w, still w → yields (h x) (in_world s w) Q) → yields (bind (outside f) h) s Q.
Proof.
  intros Hf Hs Hh. destruct (Hf _ Hs) as [Hx Hw]. unfold outside, call. unfold yields. cbn.
  destruct (f (world s)) as [r w]. cbn in *. subst. by apply Hh.
Qed.

Lemma outside_throws {R} (f : W → (string + R) * W) e s :
  answers f (inl e) → still (world s) →
  ∃ w, still w ∧ exec (outside f) s = Some (inl e, in_world s w).
Proof.
  intros Hf Hs. destruct (Hf _ Hs) as [Hx Hw]. exists (f (world s)).2. split; [done|].
  unfold outside, call. cbn. destruct (f (world s)) as [r w]. cbn in *. by subst.
Qed.

Context (b : ResolvedBridge) (src : TableSource) (from_table : bsource b = FromTable src).
Context (schema_answer : string + list Namespace) (eng : string → string + DatabaseEngine).
Context (schema_known : answers (source_schema src) schema_answer) (engines : ∀ c, answers (engine_of c) (eng c)).

(** ** What the sink knows of the source *)

Definition source_columns : option (list TargetColumnShape) :=
  match schema_answer with
  | inl _ => None
  | inr ns => (λ t, shape_of <$> scolumns t) <$> find_table src ns
  end.

Definition engine_from : option DatabaseEngine :=
  match eng (connectionId src) with inl _ => None | inr e => Some e end.

Definition conversion (t : DatabaseTarget) : option Convert :=
  match source_columns, engine_from with
  | Some cols, Some source =>
      match eng (tconnectionId t) with
      | inl _ => None
      | inr e => converter_of cols source e (columns (btransform b))
                   (match redis t with Some _ => true | None => false end)
      end
  | _, _ => None
  end.

Definition known_kinds (t : DatabaseTarget) : gmap string PortableKind :=
  match source_columns, engine_from with
  | Some cols, Some e => column_kinds t cols e (columns (btransform b))
  | _, _ => ∅
  end.

(** the bridge's targets: two on one table are converted for alike *)
Context (targets : list DatabaseTarget).
Context (alike : ∀ t t', t ∈ targets → t' ∈ targets → targetKey t = targetKey t' → conversion t = conversion t').

(** the world is still, and what the sink remembers of it is true *)
Record ready (s : SS) : Prop := {
  ready_world : still (world s);
  ready_columns : ∀ c, sourceCols s !! bid b = Some c → c = source_columns;
  ready_converters : ∀ t c, t ∈ targets → converters s !! converter_key b t = Some c → c = conversion t
}.

Lemma ready_in_world s w : ready s → still w → ready (in_world s w).
Proof. intros [? ? ?] ?. by split. Qed.

Lemma yields_outside_ready {A R} (f : W → (string + R) * W) (x : R) (h : R → @async SS A) s Q :
  answers f (inr x) → ready s → (∀ s, ready s → yields (h x) s Q) → yields (bind (outside f) h) s Q.
Proof.
  intros Hf Hs Hh. eapply yields_outside; [done|apply Hs|]. intros w Hw. by apply Hh, ready_in_world.
Qed.

Lemma outside_yields {R} (f : W → (string + R) * W) (x : R) s :
  answers f (inr x) → ready s → yields (outside f) s (λ y s', y = x ∧ ready s').
Proof.
  intros Hf Hs. destruct (Hf _ (ready_world s Hs)) as [Hx Hw]. unfold outside, call, yields. cbn.
  destruct (f (world s)) as [r w]. cbn in *. subst. exists x, (in_world s w).
  split; [done|]. split; [done|]. by apply ready_in_world.
Qed.

(** a call that answers, wrapped so that an error is [None] *)
Lemma yields_attempt {R} (f : W → (string + R) * W) (r : string + R) s :
  answers f r → ready s →
  yields (catch (let* e := outside f in Ret (Some e)) (λ _, Ret None)) s
    (λ x s', x = match r with inl _ => None | inr e => Some e end ∧ ready s').
Proof.
  intros Hf Hs. destruct r as [e|x].
  - destruct (outside_throws f e s Hf (ready_world s Hs)) as (w & Hw & He).
    eapply yields_caught; [by apply exec_bind_throw|]. apply yields_ret. split; [done|].
    by apply ready_in_world.
  - apply yields_not_caught. eapply yields_outside_ready; [done..|]. intros s' Hs'. by apply yields_ret.
Qed.

Lemma sourceEngine_yields s : ready s → yields (sourceEngine b) s (λ x s', x = engine_from ∧ ready s').
Proof.
  intros Hs. unfold sourceEngine, source_connection, engine_from. rewrite from_table.
  by apply yields_attempt.
Qed.

Lemma resolveSourceCols_yields s :
  ready s → yields (resolveSourceCols b) s (λ x s', x = source_columns ∧ ready s').
Proof.
  intros Hs. unfold resolveSourceCols. apply yields_read.
  destruct (sourceCols s !! bid b) as [c|] eqn:Hc.
  { apply yields_ret. split; [by eapply ready_columns|done]. }
  rewrite from_table. eapply yields_bind with (P := λ x s', x = source_columns ∧ ready s').
  - unfold source_columns. destruct schema_answer as [e|ns].
    + destruct (outside_throws _ e s schema_known (ready_world s Hs)) as (w & Hw & He).
      eapply yields_caught; [by apply exec_bind_throw|]. apply yields_ret. split; [done|].
      by apply ready_in_world.
    + apply yields_not_caught. eapply yields_outside_ready; [done..|]. intros s' Hs'. by apply yields_ret.
  - intros x s' [-> Hs']. apply yields_modify, yields_ret. split; [done|].
    split; [apply Hs'| |apply Hs']. intros c. cbn. rewrite lookup_insert_eq. congruence.
Qed.

Lemma ready_convert t c s :
  t ∈ targets → c = conversion t → ready s →
  ready (s {{ converters ::= <[converter_key b t := c]> }}).
Proof.
  intros Ht -> Hs. split; [apply Hs|apply Hs|]. intros t' c' Ht'. cbn.
  destruct (decide (converter_key b t = converter_key b t')) as [He|Hne].
  - rewrite He, lookup_insert_eq. intros [= <-]. apply alike; [done..|].
    unfold converter_key in He. by apply (inj _), (inj _) in He.
  - rewrite lookup_insert_ne by done. by apply Hs.
Qed.

Lemma converterFor_yields t s :
  t ∈ targets → ready s → yields (converterFor b t) s (λ x s', x = conversion t ∧ ready s').
Proof.
  intros Ht Hs. unfold converterFor. apply yields_read.
  destruct (converters s !! converter_key b t) as [c|] eqn:Hc.
  { apply yields_ret. split; [by eapply ready_converters|done]. }
  eapply yields_bind with (P := λ x s', x = conversion t ∧ ready s').
  2: { intros x s' [Hx Hs']. apply yields_modify, yields_ret. split; [done|]. by apply ready_convert. }
  eapply yields_caught_later; [by apply resolveSourceCols_yields|]. intros x s1 [-> Hs1]. cbn beta.
  eapply yields_caught_later
    with (P := λ x s', x = match source_columns with Some _ => engine_from | None => None end ∧ ready s').
  { destruct source_columns; [by apply sourceEngine_yields|by apply yields_ret]. }
  intros x s2 [-> Hs2]. cbn beta. unfold conversion.
  destruct source_columns as [cols|]; [|by apply yields_not_caught, yields_ret].
  destruct engine_from as [e0|]; [|by apply yields_not_caught, yields_ret].
  pose proof (engines (tconnectionId t)) as Hen. destruct (eng (tconnectionId t)) as [e|e].
  - destruct (outside_throws _ e s2 Hen (ready_world s2 Hs2)) as (w & Hw & He).
    eapply yields_caught; [by apply exec_bind_throw|]. apply yields_ret. split; [done|].
    by apply ready_in_world.
  - apply yields_not_caught. eapply yields_outside_ready; [done..|]. intros s' Hs'. by apply yields_ret.
Qed.

Lemma expectedRows_yields t rows s :
  t ∈ targets → ready s →
  yields (expectedRows b t rows) s (λ x s', x = expected_rows t (conversion t) rows ∧ ready s').
Proof.
  intros Ht Hs. unfold expectedRows. eapply yields_bind; [by apply converterFor_yields|].
  intros x s' [-> Hs']. by apply yields_ret.
Qed.

Lemma columnKinds_yields t s :
  ready s → yields (columnKinds b t) s (λ x s', x = known_kinds t ∧ ready s').
Proof.
  intros Hs. unfold columnKinds, known_kinds. eapply yields_bind; [by apply resolveSourceCols_yields|].
  intros x s1 [-> Hs1]. eapply yields_bind
    with (P := λ x s', x = match source_columns with Some _ => engine_from | None => None end ∧ ready s').
  { destruct source_columns; [by apply sourceEngine_yields|by apply yields_ret]. }
  intros x s2 [-> Hs2]. destruct source_columns as [cols|]; [|by apply yields_ret].
  destruct engine_from; by apply yields_ret.
Qed.

(** ** Targets *)

(** a target as it is before the first row *)
Definition run_of (t : DatabaseTarget) : TargetRun :=
  match keyColumns t with
  | [] => new_run t (Some NO_KEYS)
  | _ => match eng (tconnectionId t) with
         | inr e => if COMPARABLE e then prepared b t (known_kinds t) else new_run t (Some (NOT_COMPARABLE e))
         | inl _ => blank_run
         end
  end.

Context (connected : ∀ t, t ∈ targets → ∃ e, eng (tconnectionId t) = inr e).

Lemma prepare_yields t s : t ∈ targets → ready s → yields (prepare b t) s (λ x s', x = run_of t ∧ ready s').
Proof.
  intros Ht Hs. unfold prepare, run_of. destruct (keyColumns t) as [|k ks]; [by apply yields_ret|].
  pose proof (engines (tconnectionId t)) as Hen. destruct (connected t Ht) as [e He]. rewrite He in Hen |- *.
  eapply yields_outside_ready; [done..|]. intros s1 Hs1. destruct (COMPARABLE e); [|by apply yields_ret].
  eapply yields_bind; [by apply columnKinds_yields|]. intros x s2 [-> Hs2]. by apply yields_ret.
Qed.

Lemma prepare_all_yields ts s :
  ts ⊆ targets → ready s → yields (prepare_all b ts) s (λ x s', x = run_of <$> ts ∧ ready s').
Proof.
  revert s. induction ts as [|t ts IH]; intros s Hts Hs; cbn [prepare_all]; [by apply yields_ret|].
  eapply yields_bind; [apply prepare_yields; [set_solver|done]|]. intros x s1 [-> Hs1].
  eapply yields_bind; [apply IH; [set_solver|done]|]. intros xs s2 [-> Hs2]. by apply yields_ret.
Qed.

(** ** Lookups *)

(** a table that is asked for rows by key answers, a thousand at a time, rows of
    its own, and among them those with the keys asked for *)
Definition finds (at_ : Where) (fs : list FilterSpec) (cs : list string) (ks : list CompareKind)
    (engine : option DatabaseEngine) (tbl : list obj) : Prop :=
  ∀ keys : list (list written), ∃ found : list obj,
    found ⊆+ tbl ∧
    (∀ r k, r ∈ tbl → k ∈ keys → keyText (plain_cell r <$> cs) ks = keyText k ks → r ∈ found) ∧
    ∀ offset, ∃ c,
      answers (browse at_ (ask_page (fs ++ in_filters cs keys engine) cs offset))
        (inr {| prows := take 1000 (drop offset found);
                phasMore := bool_decide (offset + 1000 < List.length found); pnextCursor := c |}).

Lemma fetch_pages_yields n at_ ask wanted text found offset out s :
  (∀ offset, ∃ c, answers (browse at_ (ask offset))
     (inr {| prows := take 1000 (drop offset found);
             phasMore := bool_decide (offset + 1000 < List.length found); pnextCursor := c |})) →
  Forall (λ r, is_Some (text r)) found → gathered wanted text (take offset found) out →
  List.length found - offset < n → ready s →
  yields (fetch_pages n at_ ask wanted text offset out) s (λ m s', gathered wanted text found m ∧ ready s').
Proof.
  intros Hb Ht. revert offset out s. induction n as [|n IH]; intros offset out s Hg Hn Hs; [lia|].
  cbn [fetch_pages]. destruct (Hb offset) as [c Hc]. eapply yields_outside_ready; [done..|].
  intros s1 Hs1. cbn [prows phasMore].
  destruct (collect_gathered wanted text (take 1000 (drop offset found)) _ _ Hg) as (m & Hm & Hgm).
  { by apply Forall_take, Forall_drop. }
  eapply yields_or_throw; [done|]. rewrite take_take_drop in Hgm.
  assert (Hlen : List.length (take 1000 (drop offset found)) = 1000 `min` (List.length found - offset))
    by by rewrite length_take, length_drop.
  unfold last_page. cbn [prows phasMore]. destruct (bool_decide_reflect (offset + 1000 < List.length found)) as [Hmore|Hend].
  - rewrite bool_decide_eq_false_2 by lia. cbn. rewrite Hlen.
    apply IH; [|lia|done]. replace (1000 `min` (List.length found - offset)) with 1000 by lia. done.
  - cbn. apply yields_ret. split; [|done]. rewrite take_ge in Hgm by lia. done.
Qed.

Definition text_by (cs : list string) (ks : list CompareKind) (r : obj) : option string :=
  keyText (plain_cell r <$> cs) ks.

(** what a lookup gathers, said of the table *)
Record looked_up (text : obj → option string) (tbl : list obj) (wanted : string → Prop) (m : list (string * obj))
  : Prop := {
  looked_sound : ∀ k r, map_get m k = Some r → r ∈ tbl ∧ text r = Some k;
  looked_from : Forall (λ r, r ∈ tbl) (snd <$> m);
  looked_all : ∀ r k, r ∈ tbl → text r = Some k → wanted k → is_Some (map_get m k)
}.

Lemma fetchByKeys_yields fuel at_ fs cs ks engine tbl keys s :
  finds at_ fs cs ks engine tbl → Forall (λ r, is_Some (text_by cs ks r)) tbl →
  Forall (λ k, usable k = true ∧ is_Some (keyText k ks)) keys → List.length tbl < fuel → ready s →
  yields (fetchByKeys fuel at_ cs keys ks fs engine) s
    (λ m s', looked_up (text_by cs ks) tbl (λ t, ∃ k, k ∈ keys ∧ keyText k ks = Some t) m ∧ ready s').
Proof.
  intros Hfinds Htbl Hkeys Hfuel Hs. unfold fetchByKeys.
  assert (Hgood : filter (λ k, usable k = true) keys = keys).
  { apply filter_all. eapply Forall_impl; [exact Hkeys|]. intros k Hk. apply Hk. }
  rewrite Hgood. destruct keys as [|k0 keys0] eqn:Hkeys0; rewrite <- Hkeys0 in *.
  { apply yields_ret. split; [|done]. subst. split; [done|constructor|]. intros r k _ _ (? & ? & _). set_solver. }
  destruct (Hfinds keys) as (found & Hsub & Hall & Hpages).
  destruct (all_some_map (λ k, keyText k ks) keys) as (ts & Hts & H2).
  { eapply Forall_impl; [exact Hkeys|]. intros k Hk. apply Hk. }
  replace (match keys with [] => Ret [] | _ => _ end) with
    (let* wanted := or_throw (all_some ((λ k, keyText k ks) <$> keys)) in
     fetch_pages fuel at_ (ask_page (fs ++ in_filters cs keys engine) cs) (set_of wanted)
        (λ row, keyText (plain_cell row <$> cs) ks) 0 [] : @async SS _) by (by subst).
  eapply yields_or_throw; [done|].
  eapply yields_mono.
  - apply fetch_pages_yields with (found := found) (offset := 0); [done| |apply gathered_nil| |done].
    + rewrite Forall_forall in Htbl |- *. intros r Hr. apply Htbl. by eapply elem_of_submseteq.
    + apply submseteq_length in Hsub. lia.
  - intros m s' [[Hsound Hfrom Hgot] Hs']. split; [|done]. split.
    + intros k r [Hr Hk]%Hsound. split; [by eapply elem_of_submseteq|done].
    + eapply Forall_impl; [exact Hfrom|]. intros r Hr. exact (elem_of_submseteq _ _ _ Hr Hsub).
    + intros r t Hr Ht (k & Hk & Hkt). apply (Hgot r t); [|done|].
      * eapply Hall; [done..|]. unfold text_by in Ht. by rewrite Hkt.
      * apply elem_of_set_of. apply list_elem_of_lookup in Hk as [i Hi].
        destruct (Forall2_lookup_l _ _ _ _ _ H2 Hi) as (t' & Ht' & He).
        apply list_elem_of_lookup_2 in Ht'. congruence.
Qed.

(** ** The rows a verification speaks of *)

(** the rows of the source, and what of them the bridge would write *)
Context (S_ : list obj).

Definition shape_row (now : string) (r : obj) : option obj :=
  match default [] (columns (btransform b)) with
  | [] => Some r
  | steps => row <$> applyColumnTransforms r (Some steps) (shaping_context sha256 (table src) now None)
  end.

Context (shaped_always : ∀ now r, r ∈ S_ → is_Some (shape_row now r)).

Definition expected_of (t : DatabaseTarget) (s : obj) : WRow :=
  clear_mark t (map_row (converted_row (conversion t) s) (mapping t)).

Definition expected_row (t : DatabaseTarget) (now : string) (r : obj) : option WRow :=
  expected_of t <$> shape_row now r.

Lemma shaped_rows_yields rows s :
  rows ⊆ S_ → ready s →
  yields (shaped_rows b rows (table src)) s
    (λ x s', ∃ now, Forall2 (λ r y, shape_row now r = Some y) rows x ∧ ready s').
Proof.
  intros Hrows Hs. unfold shaped_rows. apply yields_read. set (now := toISOString _).
  unfold shapeRows. change (is_truncate None) with false. cbn match.
  assert (Hsome : Forall (λ r, is_Some (shape_row now r)) rows).
  { apply Forall_forall. auto. }
  unfold shape_row in Hsome. destruct (default [] _) as [|c steps] eqn:Hsteps.
  { apply yields_ret. exists now. split; [|done]. unfold shape_row. rewrite Hsteps.
    apply Forall2_same_length_lookup_2; [done|]. intros i x y Hx Hy. cbn in *. congruence. }
  destruct (all_some_map (λ r, applyColumnTransforms r (Some (c :: steps))
    (shaping_context sha256 (table src) now None)) rows) as (ys & Hys & H2).
  { eapply Forall_impl; [exact Hsome|]. intros r. by rewrite fmap_is_Some. }
  eapply yields_or_throw. { by rewrite Hys. }
  apply yields_ret. exists now. split; [|done]. cbn [srows]. apply Forall2_fmap_r.
  eapply Forall2_impl; [exact H2|]. intros r y Hy. unfold shape_row. rewrite Hsteps. by rewrite Hy.
Qed.

(** a row's line of a page *)
Definition line_at (t : DatabaseTarget) (now : string) (x : Looked) : Prop :=
  lrow x ∈ S_ ∧ expected_row t now (lrow x) = Some (lexpected x).

Lemma looked_lines t now rows shaped :
  rows ⊆ S_ → Forall2 (λ r y, shape_row now r = Some y) rows shaped →
  Forall (line_at t now) (looked rows shaped (expected_rows t (conversion t) shaped)) ∧
  lrow <$> looked rows shaped (expected_rows t (conversion t) shaped) = rows ∧
  lexpected <$> looked rows shaped (expected_rows t (conversion t) shaped) = expected_rows t (conversion t) shaped.
Proof.
  intros Hrows H2. induction H2 as [|r y rows shaped Hy _ IH]; [done|].
  destruct IH as (IH1 & IH2 & IH3); [set_solver|]. unfold looked, expected_rows in *. cbn.
  split_and!; [|by rewrite IH2|by rewrite IH3]. constructor; [|done].
  split; cbn; [set_solver|]. unfold expected_row. by rewrite Hy.
Qed.

(** ** One target *)

Definition start_of (t : DatabaseTarget) : TargetRun := prepared b t (known_kinds t).

Definition key_text (t : DatabaseTarget) (e : WRow) : option string := keyText (keyOf (start_of t) e) (keyKinds (start_of t)).
Definition row_text (t : DatabaseTarget) (r : obj) : option string := text_by (keyColumns t) (keyKinds (start_of t)) r.
Definition raw_text (t : DatabaseTarget) (r : obj) : option string :=
  text_by (sourceKeyColumns (start_of t)) (keyKinds (start_of t)) r.
Definition found_different (t : DatabaseTarget) (e : WRow) (found : obj) : option (list ColumnDifference) :=
  differences tenth_power (start_of t) e found.

(** the target has the row the bridge would write, with no difference that counts *)
Definition is_right (t : DatabaseTarget) (held : list obj) (now : string) (r : obj) : Prop :=
  ∃ e found, expected_row t now r = Some e ∧ found ∈ held ∧ row_text t found = key_text t e ∧
             found_different t e found = Some [].

(** what a comparison with the rows [held] of a target asks: they are found by
    their keys, every key has a value and a spelling, no two rows have one, the
    differences of two rows can be told and shown, and whether a row is right
    does not depend on the time *)
Record comparable (t : DatabaseTarget) (held : list obj) : Prop := {
  held_found : finds (of_target t) [] (keyColumns t) (keyKinds (start_of t)) None held;
  held_keys : ∀ r, r ∈ held → usable (plain_key (target_key (start_of t) r)) = true ∧ is_Some (row_text t r);
  held_unique : ∀ r r', r ∈ held → r' ∈ held → row_text t r = row_text t r' → r = r';
  expected_keys : ∀ now r e, r ∈ S_ → expected_row t now r = Some e →
    usable (keyOf (start_of t) e) = true ∧ is_Some (key_text t e) ∧
    is_Some (shown (cell_value <$> keyOf (start_of t) e));
  differences_told : ∀ now r e found, r ∈ S_ → expected_row t now r = Some e → found ∈ held →
    ∃ ds, found_different t e found = Some ds ∧ is_Some (all_some (shown_difference <$> ds));
  right_timeless : ∀ now now' r, r ∈ S_ → is_right t held now r → is_right t held now' r
}.

Section target.
Context (t : DatabaseTarget) (known : t ∈ targets) (held : list obj) (Hc : comparable t held).

(** what a lookup of expected rows found *)
Definition found_of (expected : list WRow) (m : list (string * obj)) : Prop :=
  looked_up (row_text t) held (λ x, ∃ e, e ∈ expected ∧ key_text t e = Some x) m.

Lemma fetch_target_yields fuel now (items : list Looked) s :
  Forall (line_at t now) items → List.length held < fuel → ready s →
  yields (fetch_target fuel (start_of t) (keyOf (start_of t) <$> (lexpected <$> items))) s
    (λ m s', found_of (lexpected <$> items) m ∧ ready s').
Proof.
  intros Hitems Hfuel Hs. eapply yields_mono.
  - apply fetchByKeys_yields; [apply Hc| | |done|done].
    + apply Forall_forall. intros r Hr. by apply Hc.
    + apply Forall_fmap, Forall_fmap. eapply Forall_impl; [exact Hitems|]. intros x [Hx He]. cbn.
      destruct (expected_keys t held Hc now _ _ Hx He) as (? & ? & _). done.
  - intros m s' [[H1 H2 H3] Hs']. split; [|done]. split; [done|done|].
    intros r k Hr Hk (e & He & Hek). eapply H3; [done..|]. exists (keyOf (start_of t) e).
    split; [by apply list_elem_of_fmap_2|done].
Qed.

(** what is found of a row is right exactly when the row is *)
Lemma verdict_right now x expected m :
  line_at t now x → lexpected x ∈ expected → found_of expected m →
  ∃ v, verdict tenth_power (start_of t) m (lexpected x) = Some v ∧
    (as_expected v = true ↔ is_right t held now (lrow x)) ∧
    is_Some (all_some (shown_difference <$> v.2)).
Proof.
  intros [Hx He] Hin [Hsound _ Hall]. unfold verdict.
  destruct (expected_keys t held Hc now _ _ Hx He) as (_ & [k Hk] & _).
  unfold key_text in Hk. rewrite Hk. cbn. destruct (map_get m k) as [found|] eqn:Hm.
  - destruct (Hsound k found Hm) as [Hf Hkf].
    destruct (differences_told t held Hc now _ _ found Hx He Hf) as (ds & Hds & Hshown).
    unfold found_different in Hds. rewrite Hds. cbn. exists (k, Some found, ds). split_and!; [done| |done].
    split.
    + destruct ds; [|done]. intros _. exists (lexpected x), found. split_and!; [done|done| |done].
      unfold key_text. congruence.
    + intros (e & f & He' & Hf' & Ht & Hd). assert (e = lexpected x) as -> by congruence.
      assert (f = found) as ->. { apply Hc; [done..|]. rewrite Ht. unfold key_text. congruence. }
      unfold found_different in Hd. by assert (ds = []) as -> by congruence.
  - exists (k, None, []). split_and!; [done| |by exists []]. split; [done|].
    intros (e & f & He' & Hf' & Ht & Hd). assert (e = lexpected x) as -> by congruence.
    unfold key_text in Ht. rewrite Hk in Ht.
    destruct (Hall f k Hf' Ht) as [? ?]; [|congruence]. by exists (lexpected x).
Qed.

(** ** First sight *)

Definition right_row (r : obj) : Prop := ∀ now, is_right t held now r.
Definition wrong_row (r : obj) : Prop := r ∈ S_ ∧ ¬ right_row r.

Lemma right_at now r : r ∈ S_ → is_right t held now r ↔ right_row r.
Proof. intros Hr. split; [|auto]. intros Hn now'. by eapply right_timeless. Qed.

Lemma suspect_spec now items expected m out :
  Forall (line_at t now) items → (lexpected <$> items) ⊆ expected → found_of expected m →
  Forall wrong_row (snd <$> out) →
  ∃ out', suspect tenth_power (start_of t) m items out = Some out' ∧ Forall wrong_row (snd <$> out') ∧
          (out' = [] ↔ out = [] ∧ Forall right_row (lrow <$> items)).
Proof.
  intros Hitems Hin Hm. revert out. induction Hitems as [|x items Hx Hitems IH]; intros out Hout.
  { exists out. split_and!; [done..|]. split; [by intros ->|tauto]. }
  cbn [suspect]. cbn in Hin.
  destruct (verdict_right now x expected m Hx) as (v & Hv & Hright & _); [set_solver|done|].
  rewrite Hv. cbn. rewrite right_at in Hright by apply Hx.
  destruct (as_expected v).
  - destruct (IH ltac:(set_solver) out Hout) as (out' & Ho & Hw & He). exists out'. split_and!; [done..|].
    rewrite He, Forall_cons. tauto.
  - destruct (IH ltac:(set_solver) (map_set v.1.1 (lrow x) out)) as (out' & Ho & Hw & He).
    { apply map_set_Forall; [|done]. split; [apply Hx|]. intros Hr. by apply Hright in Hr. }
    exists out'. split_and!; [done..|]. rewrite He, Forall_cons. split.
    + intros [Hn _]. by apply map_set_not_nil in Hn.
    + intros (_ & Hr & _). by apply Hright in Hr.
Qed.

(** the run of this target, so far *)
Definition made (res : TargetResult) (sus : list (string * obj)) (ext : list (string * list jsval)) : TargetRun :=
  with_extras ext (with_suspects sus (with_result (λ _, res) (start_of t))).

Lemma suspect_made res sus ext m items out :
  suspect tenth_power (made res sus ext) m items out = suspect tenth_power (start_of t) m items out.
Proof.
  revert out. induction items as [|x items IH]; intros out; [done|]. cbn [suspect].
  change (verdict tenth_power (made res sus ext)) with (verdict tenth_power (start_of t)).
  destruct (verdict _ _ _ _) as [v|]; [|done]. cbn. apply IH.
Qed.

Record at_run (s : TState) (res : TargetResult) (sus : list (string * obj)) (ext : list (string * list jsval))
  : Prop := {
  run_ready : ready (tsink s);
  run_on : tcanceled s = false;
  run_made : trun s = made res sus ext
}.

Lemma of_sink_yields {A} (m : @async SS A) s res sus ext P :
  at_run s res sus ext → yields m (tsink s) (λ x s', P x ∧ ready s') →
  yields (of_sink m) s (λ x s', P x ∧ at_run s' res sus ext).
Proof.
  intros [Hs Hon Hm] Hy. apply (yields_zoom _ _ (λ _, True)); [done..|by intros []|done|].
  eapply yields_mono; [exact Hy|]. intros x s' [Hx Hs']. split; [done|]. by split.
Qed.

Lemma of_run_result f s res sus ext : at_run s res sus ext → at_run (put_run (with_result f) s) (f res) sus ext.
Proof. intros [Hs Hon Hm]. split; [done..|]. cbn. by rewrite Hm. Qed.

Lemma of_run_suspects l s res sus ext : at_run s res sus ext → at_run (put_run (with_suspects l) s) res l ext.
Proof. intros [Hs Hon Hm]. split; [done..|]. cbn. by rewrite Hm. Qed.

Lemma of_run_extras l s res sus ext : at_run s res sus ext → at_run (put_run (with_extras l) s) res sus l.
Proof. intros [Hs Hon Hm]. split; [done..|]. cbn. by rewrite Hm. Qed.

Lemma compare_yields fuel rows shaped now s res sus ext :
  at_run s res sus ext → rows ⊆ S_ → Forall2 (λ r y, shape_row now r = Some y) rows shaped →
  List.length held < fuel → Forall wrong_row (snd <$> sus) →
  yields (compare tenth_power fuel b rows shaped) s (λ _ s', ∃ sus',
    at_run s' (count_checked (List.length rows) res) sus' ext ∧ Forall wrong_row (snd <$> sus') ∧
    (sus' = [] ↔ sus = [] ∧ Forall right_row rows)).
Proof.
  intros Hs Hrows H2 Hfuel Hsus. destruct (looked_lines t now rows shaped Hrows H2) as (Hl & Hlr & Hle).
  unfold compare. apply yields_read. rewrite (run_made _ _ _ _ Hs).
  change (target (made res sus ext)) with t.
  eapply yields_bind. { eapply of_sink_yields; [done|]. apply expectedRows_yields; [done|apply Hs]. }
  intros e s1 [-> Hs1]. eapply yields_bind.
  { eapply of_sink_yields; [done|]. change (keyOf (made res sus ext)) with (keyOf (start_of t)).
    rewrite <- Hle. by eapply fetch_target_yields; [| |apply Hs1]. }
  intros m s2 [Hm Hs2].
  destruct (suspect_spec now _ _ m sus Hl ltac:(reflexivity) Hm Hsus) as (out & Ho & Hw & He).
  eapply yields_or_throw; [by rewrite suspect_made|]. unfold of_run. apply yields_modify. unfold of_result, of_run.
  exists tt, (put_run (with_result (count_checked (List.length rows))) (put_run (with_suspects out) s2)).
  split. { cbn. unfold expected_rows. by rewrite length_fmap, <- (Forall2_length _ _ _ H2). }
  exists out. split_and!; [by eapply of_run_result, of_run_suspects|done|]. by rewrite Hlr in He.
Qed.

(** ** The second look *)

(** what a report counts: [n] rows missing or different, and the rows [e] that are extra *)
Record tallied (n : nat) (e : option nat) (res : TargetResult) : Prop := {
  tallied_wrong : missing res + different res = n;
  tallied_extra : extra res = e;
  tallied_fixed : fixed res = 0;
  tallied_removed : removed res = 0;
  tallied_supported : unsupported res = None
}.

(** the run so far, by what it counts *)
Definition at_tally (s : TState) (n : nat) (e : option nat) sus ext : Prop :=
  ∃ res, at_run s res sus ext ∧ tallied n e res.

Lemma at_tally_result f s n e n' e' sus ext :
  at_tally s n e sus ext → (∀ res, tallied n e res → tallied n' e' (f res)) →
  at_tally (put_run (with_result f) s) n' e' sus ext.
Proof. intros (res & Hs & Ht) Hf. exists (f res). split; [by apply of_run_result|auto]. Qed.

Lemma of_sink_tally {A} (m : @async SS A) s n e sus ext P :
  at_tally s n e sus ext → yields m (tsink s) (λ x s', P x ∧ ready s') →
  yields (of_sink m) s (λ x s', P x ∧ at_tally s' n e sus ext).
Proof.
  intros (res & Hs & Ht) Hm. eapply yields_mono; [by eapply of_sink_yields|].
  intros x s' [Hx Hs']. split; [done|]. by exists res.
Qed.

Lemma tally_ready s n e sus ext : at_tally s n e sus ext → ready (tsink s).
Proof. intros (res & Hs & _). apply Hs. Qed.

Lemma count_wrong_yields key found columns s n e sus ext :
  at_tally s n e sus ext → is_Some (shown key) → is_Some (all_some (shown_difference <$> columns)) →
  yields (count_wrong key found columns) s (λ _ s', at_tally s' (Datatypes.S n) e sus ext).
Proof.
  intros Hs [k Hk] [ds Hds]. unfold count_wrong. destruct found as [f|].
  - apply yields_modify.
    assert (Hs1 : at_tally (put_run (with_result count_different) s) (Datatypes.S n) e sus ext).
    { eapply at_tally_result; [done|]. intros [] []. split; unfold count_different, count_missing, constant; cbn in *; [lia|done..]. }
    apply yields_read. destruct (_ <? _); [|by apply yields_ret].
    eapply yields_or_throw; [done|]. eapply yields_or_throw; [done|].
    eexists tt, _. split; [done|]. eapply at_tally_result; [done|]. intros res []. by split.
  - apply yields_modify.
    assert (Hs1 : at_tally (put_run (with_result count_missing) s) (Datatypes.S n) e sus ext).
    { eapply at_tally_result; [done|]. intros [] []. split; unfold count_different, count_missing, constant; cbn in *; [lia|done..]. }
    apply yields_read. destruct (_ <? _); [|by apply yields_ret].
    eapply yields_or_throw; [done|].
    eexists tt, _. split; [done|]. eapply at_tally_result; [done|]. intros res []. by split.
Qed.

Lemma still_wrong_yields now items expected m res0 s n e sus ext :
  Forall (line_at t now) items → Forall (λ x, wrong_row (lrow x)) items →
  (lexpected <$> items) ⊆ expected → found_of expected m → at_tally s n e sus ext →
  yields (still_wrong tenth_power true (made res0 sus ext) m items) s
    (λ l s', l = items ∧ at_tally s' (n + List.length items) e sus ext).
Proof.
  intros Hitems Hwrong Hin Hm. revert s n. induction Hitems as [|x items Hx Hitems IH]; intros s n Hs.
  { apply yields_ret. split; [done|]. by rewrite Nat.add_0_r. }
  apply Forall_cons in Hwrong as [Hw Hwrong]. cbn in Hin. cbn [still_wrong].
  change (verdict tenth_power (made res0 sus ext)) with (verdict tenth_power (start_of t)).
  change (keyOf (made res0 sus ext)) with (keyOf (start_of t)).
  destruct (verdict_right now x expected m Hx) as (v & Hv & Hright & Hshown); [set_solver|done|].
  eapply yields_or_throw; [done|]. rewrite right_at in Hright by apply Hx.
  destruct (as_expected v). { destruct Hw as [_ Hw]. exfalso. by apply Hw, Hright. }
  destruct Hx as [Hx He]. destruct (expected_keys t held Hc now _ _ Hx He) as (_ & _ & Hk).
  eapply yields_bind; [by apply count_wrong_yields|]. intros [] s1 Hs1.
  eapply yields_bind; [apply IH; [done|set_solver|exact Hs1]|]. intros l s2 [-> Hs2].
  apply yields_ret. split; [done|]. cbn [List.length]. by rewrite Nat.add_succ_r.
Qed.

Lemma look_once_yields fuel engine pending s n e ext :
  Forall wrong_row pending → List.length held < fuel → at_tally s n e [] ext →
  yields (look_again tenth_power fuel b 1 true src engine false false pending) s
    (λ _ s', at_tally s' (n + List.length pending) e [] ext).
Proof.
  intros Hw Hfuel Hs. cbn [look_again]. destruct pending as [|r pending'] eqn:Hp.
  { apply yields_ret. by rewrite Nat.add_0_r. }
  rewrite <- Hp in *. clear Hp r pending'.
  assert (Hin : pending ⊆ S_). { intros r Hr. rewrite Forall_forall in Hw. by apply Hw. }
  apply yields_read. destruct Hs as (res & Hs & Ht). rewrite (run_made _ _ _ _ Hs).
  change (target (made res [] ext)) with t. unfold read_again. cbn [negb bind].
  destruct pending as [|r pending'] eqn:Hp; [by apply yields_ret; rewrite Nat.add_0_r; exists res|].
  rewrite <- Hp in *. clear Hp r pending'.
  eapply yields_bind. { eapply of_sink_yields; [done|]. eapply yields_mono; [by apply shaped_rows_yields; [|apply Hs]|].
    intros x s' (now & H2 & Hs'). split; [exact (ex_intro _ now H2)|done]. }
  intros shaped s1 [[now H2] Hs1]. destruct (looked_lines t now pending shaped Hin H2) as (Hl & Hlr & Hle).
  eapply yields_bind. { eapply of_sink_yields; [done|]. apply expectedRows_yields; [done|apply Hs1]. }
  intros x s2 [-> Hs2]. eapply yields_bind.
  { eapply of_sink_yields; [done|]. change (keyOf (made res [] ext)) with (keyOf (start_of t)).
    rewrite <- Hle. eapply fetch_target_yields; [exact Hl|done|apply Hs2]. }
  intros m s3 [Hm Hs3]. eapply yields_bind.
  { eapply still_wrong_yields; [exact Hl| |reflexivity|exact Hm|by exists res].
    apply (Forall_fmap lrow wrong_row). by rewrite Hlr. }
  intros l s4 [-> Hs4]. apply yields_ret. apply (f_equal List.length) in Hlr. rewrite length_fmap in Hlr.
  by rewrite <- Hlr.
Qed.

Lemma secondLook_yields fuel engine s n e sus ext :
  Forall wrong_row (snd <$> sus) → List.length held < fuel → at_tally s n e sus ext →
  yields (secondLook tenth_power fuel b engine false false) s
    (λ _ s', at_tally s' (n + List.length sus) e [] ext).
Proof.
  intros Hw Hfuel (res & Hs & Ht). unfold secondLook. apply yields_read. rewrite (run_made _ _ _ _ Hs).
  change (suspects (made res sus ext)) with sus. destruct sus as [|x sus'] eqn:Hsus.
  { apply yields_ret. rewrite Nat.add_0_r. by exists res. }
  rewrite from_table. rewrite <- Hsus in *. apply yields_modify.
  eapply yields_mono; [eapply look_once_yields; [exact Hw|done|]|].
  - exists res. split; [|done]. by eapply of_run_suspects.
  - intros [] s'. by rewrite length_fmap.
Qed.

(** ** Second pass *)

(** what it asks: the source is asked for keys too, and a row's key is spelled
    alike at both ends *)
Record keyed_alike (engine : DatabaseEngine) : Prop := {
  source_found : finds (of_source src) (default [] (filters src)) (sourceKeyColumns (start_of t))
                   (keyKinds (start_of t)) (Some engine) S_;
  raw_keys : ∀ r, r ∈ S_ → is_Some (raw_text t r);
  same_key : ∀ now r e, r ∈ S_ → expected_row t now r = Some e → key_text t e = raw_text t r;
  keys_shown : ∀ r, r ∈ held → is_Some (shown (target_key (start_of t) r))
}.

(** the source has a row with the key of this row of the target *)
Definition in_source (r : obj) : Prop := ∃ x, x ∈ S_ ∧ raw_text t x = row_text t r.

Definition accounted (r : obj) : Prop := marked t r = true ∨ in_source r.

Lemma candidate_row_text r : candidate_text (start_of t) (target_key (start_of t) r) = row_text t r.
Proof. unfold candidate_text, row_text, text_by, plain_key, target_key. by rewrite <- list_fmap_compose. Qed.

Context (running : ∀ force, answers (still_running force) (inr true)).

Lemma beat_yields force s n e sus ext :
  at_tally s n e sus ext → yields (beat force) s (λ _ s', at_tally s' n e sus ext).
Proof.
  intros Hs. unfold beat. eapply yields_bind with (P := λ x s', x = true ∧ at_tally s' n e sus ext).
  { eapply of_sink_tally; [done|]. apply outside_yields; [done|by eapply tally_ready]. }
  intros x s' [-> Hs']. by apply yields_ret.
Qed.

Section extras.
Context (engine : DatabaseEngine) (Hk : keyed_alike engine).

Lemma expected_texts now found shaped :
  found ⊆ S_ → Forall2 (λ r y, shape_row now r = Some y) found shaped →
  ∃ ts, all_some ((λ row, keyText (keyOf (start_of t) row) (keyKinds (start_of t)))
                    <$> expected_rows t (conversion t) shaped) = Some ts ∧
        Forall2 (λ r x, raw_text t r = Some x) found ts.
Proof.
  intros Hin H2. induction H2 as [|r y found shaped Hy _ IH]; [by exists []|].
  destruct IH as (ts & Hts & H2); [set_solver|]. assert (Hr : r ∈ S_) by set_solver.
  destruct (raw_keys _ Hk r Hr) as [x Hx].
  assert (He : expected_row t now r = Some (expected_of t y)) by (unfold expected_row; by rewrite Hy).
  pose proof (same_key _ Hk now r _ Hr He) as Hs. unfold key_text in Hs.
  exists (x :: ts). split; [|by constructor].
  change (expected_rows t (conversion t) (y :: shaped))
    with (expected_of t y :: expected_rows t (conversion t) shaped).
  rewrite fmap_cons. apply all_some_cons; [|done]. by rewrite <- Hx, <- Hs.
Qed.

Lemma sourceKeys_yields fuel rows s :
  rows ⊆ held → List.length S_ < fuel → ready s →
  yields (sourceKeys fuel b src engine (start_of t) (target_key (start_of t) <$> rows)) s
    (λ l s', (∀ r k, r ∈ rows → row_text t r = Some k → k ∈ l ↔ in_source r) ∧ ready s').
Proof.
  intros Hrows Hfuel Hs. unfold sourceKeys. change (target (start_of t)) with t. eapply yields_bind.
  { apply fetchByKeys_yields; [apply Hk| | |done|done].
    - apply Forall_forall. intros r Hr. by apply Hk.
    - apply Forall_fmap, Forall_fmap, Forall_forall. intros r Hr. cbn.
      destruct (held_keys t held Hc r) as [Hu Ht]; [set_solver|]. rewrite <- candidate_row_text in Ht. done. }
  intros m s1 [[Hsound Hfrom Hall] Hs1].
  assert (Hgot : ∀ r k, r ∈ rows → row_text t r = Some k → in_source r →
                   ∃ x, x ∈ snd <$> m ∧ raw_text t x = Some k).
  { intros r k Hr Hrk (x & Hx & Hxr). destruct (Hall x k Hx) as [y Hy]; [unfold raw_text in Hxr; congruence| |].
    - exists (plain_key (target_key (start_of t) r)). split; [by apply list_elem_of_fmap_2, list_elem_of_fmap_2|].
      by rewrite <- candidate_row_text in Hrk.
    - exists y. split; [by eapply map_get_elem|]. by apply Hsound in Hy as [_ Hy]. }
  destruct m as [|p m'] eqn:Hm.
  { apply yields_ret. split; [|done]. intros r k Hr Hrk. split; [set_solver|]. intros Hin.
    destruct (Hgot r k Hr Hrk Hin) as (x & Hx & _). set_solver. }
  rewrite <- Hm in *. clear Hm p m'. rewrite Forall_forall in Hfrom.
  eapply yields_bind; [by apply shaped_rows_yields|]. intros shaped s2 (now & H2 & Hs2).
  eapply yields_bind; [by apply expectedRows_yields|]. intros x s3 [-> Hs3].
  destruct (expected_texts now (snd <$> m) shaped Hfrom H2) as (ts & Hts & Hraw).
  rewrite Hts. apply yields_ret. split; [|done]. intros r k Hr Hrk. split.
  - intros [i Hi]%list_elem_of_lookup. destruct (Forall2_lookup_r _ _ _ _ _ Hraw Hi) as (y & Hy & Hyk).
    exists y. split; [apply Hfrom; by eapply list_elem_of_lookup_2|]. congruence.
  - intros Hin. destruct (Hgot r k Hr Hrk Hin) as (y & Hy & Hyk). apply list_elem_of_lookup in Hy as [i Hi].
    destruct (Forall2_lookup_l _ _ _ _ _ Hraw Hi) as (k' & Hk' & Hyk'). apply list_elem_of_lookup_2 in Hk'.
    congruence.
Qed.

Definition keys_can_be_shown (l : list (string * list jsval)) : Prop := Forall (λ k, is_Some (shown k)) (snd <$> l).

Lemma suspect_extras_spec run l rows out :
  candidate_text run = candidate_text (start_of t) → rows ⊆ held →
  (∀ r k, r ∈ rows → row_text t r = Some k → k ∈ l ↔ in_source r) → keys_can_be_shown out →
  ∃ out', suspect_extras run l (target_key (start_of t) <$> rows) out = Some out' ∧ keys_can_be_shown out' ∧
          (out' = [] ↔ out = [] ∧ Forall in_source rows).
Proof.
  intros Hrun. revert out. induction rows as [|r rows IH]; intros out Hrows Hl Hout.
  { exists out. split_and!; [done..|]. split; [by intros ->|tauto]. }
  cbn [fmap list_fmap suspect_extras]. rewrite Hrun, candidate_row_text.
  assert (Hr : r ∈ held) by set_solver.
  destruct (held_keys t held Hc r Hr) as [_ [k Hrk]]. rewrite Hrk. cbn [mbind option_bind].
  specialize (Hl r k ltac:(set_solver) Hrk) as Hin.
  destruct (bool_decide_reflect (k ∈ l)) as [Hkl|Hkl].
  - destruct (IH out) as (out' & Ho & Hs & He); [set_solver|intros; apply Hl; set_solver|done|].
    exists out'. split_and!; [done..|]. rewrite He, Forall_cons. tauto.
  - destruct (IH (map_set k (target_key (start_of t) r) out)) as (out' & Ho & Hs & He);
      [set_solver|intros; apply Hl; set_solver| |].
    { apply map_set_Forall; [|done]. by apply (keys_shown _ Hk). }
    exists out'. split_and!; [done..|]. rewrite He, Forall_cons. split.
    + intros [Hn _]. by apply map_set_not_nil in Hn.
    + intros (_ & Hr' & _). by apply Hin in Hr'.
Qed.

Lemma sample_extras_yields keys s n e sus ext :
  Forall (λ k, is_Some (shown k)) keys → at_tally s n e sus ext →
  yields (sample_extras keys) s (λ _ s', at_tally s' n e sus ext).
Proof.
  intros Hkeys. revert s. induction Hkeys as [|k keys [x Hx] Hkeys IH]; intros s Hs; cbn [sample_extras].
  { by apply yields_ret. }
  apply yields_read. eapply yields_bind with (P := λ _ s', at_tally s' n e sus ext); [|intros []; apply IH].
  destruct (_ <? _); [|by apply yields_ret]. eapply yields_or_throw; [done|].
  eexists tt, _. split; [done|]. eapply at_tally_result; [done|]. intros res []. by split.
Qed.

Lemma settle_yields fuel s n m ext :
  keys_can_be_shown ext → at_tally s n (Some m) [] ext →
  yields (settle fuel b src engine false false) s (λ _ s', at_tally s' n (Some (m + List.length ext)) [] []).
Proof.
  intros Hshown (res & Hs & Ht). unfold settle. apply yields_read. rewrite (run_made _ _ _ _ Hs).
  change (extraSuspects (made res [] ext)) with ext. destruct ext as [|x ext'] eqn:Hext.
  { apply yields_ret. rewrite Nat.add_0_r. by exists res. }
  rewrite <- Hext in *. apply yields_modify. cbn [negb bind].
  assert (Hs1 : at_tally (put_run (with_extras []) s) n (Some m) [] []).
  { exists res. split; [by eapply of_run_extras|done]. }
  destruct (snd <$> ext) as [|k ks] eqn:Hks; [by rewrite Hext in Hks|]. rewrite <- Hks.
  apply yields_modify. eapply yields_bind.
  { apply (sample_extras_yields _ _ n (Some (m + List.length (snd <$> ext))) [] []); [done|].
    eapply at_tally_result; [exact Hs1|]. intros [] [? He ? ? ?]. cbn in He. subst. by split. }
  intros [] s2 Hs2. apply yields_ret. by rewrite length_fmap in Hs2.
Qed.

(** nothing extra was found so far *)
Definition none_extra (m : nat) (ext : list (string * list jsval)) : Prop := m = 0 ∧ ext = [].

(** the second pass, so far *)
Definition at_extras (s : TState) (n m : nat) (ext : list (string * list jsval)) : Prop :=
  at_tally s n (Some m) [] ext ∧ keys_can_be_shown ext.

Lemma settle_extras fuel s n m ext :
  at_extras s n m ext →
  yields (settle fuel b src engine false false) s
    (λ _ s', ∃ m', at_extras s' n m' [] ∧ (m' = 0 ↔ none_extra m ext)).
Proof.
  intros [Hs Hshown]. eapply yields_mono; [by apply settle_yields|]. intros [] s' Hs'.
  exists (m + List.length ext). split; [by split; [|constructor]|]. unfold none_extra.
  destruct ext; cbn; split; [intros; split; [lia|done]|lia|lia|by intros [? ?]].
Qed.

Lemma look_for_yields fuel rows s n m ext :
  rows ⊆ held → List.length S_ < fuel → at_extras s n m ext →
  yields (let* run := read trun in
          let* inSource := of_sink (sourceKeys fuel b src engine run (target_key run <$> rows)) in
          let* found := or_throw (suspect_extras run inSource (target_key run <$> rows) (extraSuspects run)) in
          of_run (with_extras found) ;;
          if RECHECK_BATCH <=? List.length found then settle fuel b src engine false false else Ret tt) s
    (λ _ s', ∃ m' ext', at_extras s' n m' ext' ∧ (none_extra m' ext' ↔ none_extra m ext ∧ Forall in_source rows)).
Proof.
  intros Hrows Hfuel [(res & Hs & Ht) Hshown]. apply yields_read. rewrite (run_made _ _ _ _ Hs).
  change (target_key (made res [] ext)) with (target_key (start_of t)).
  change (extraSuspects (made res [] ext)) with ext.
  eapply yields_bind. { eapply of_sink_yields; [done|]. apply sourceKeys_yields; [done|done|apply Hs]. }
  intros l s1 [Hl Hs1].
  destruct (suspect_extras_spec (made res [] ext) l rows ext) as (out & Ho & Hsh & He); [done..|].
  eapply yields_or_throw; [done|]. apply yields_modify.
  assert (Hs2 : at_extras (put_run (with_extras out) s1) n m out).
  { split; [|done]. exists res. split; [by eapply of_run_extras|done]. }
  destruct (_ <=? _).
  - eapply yields_mono; [by apply settle_extras|]. intros [] s2 (m' & Hs2' & Hm'). exists m', [].
    split; [done|]. unfold none_extra in *. tauto.
  - apply yields_ret. exists m, out. split; [done|]. unfold none_extra in *. tauto.
Qed.

Lemma flush_extras_yields fuel page s n m ext :
  page ⊆ held → List.length S_ < fuel → at_extras s n m ext →
  yields (flush_extras fuel b src engine false false page) s
    (λ _ s', ∃ m' ext', at_extras s' n m' ext' ∧ (none_extra m' ext' ↔ none_extra m ext ∧ Forall accounted page)).
Proof.
  intros Hpage Hfuel Hs. unfold flush_extras. destruct page as [|r page'] eqn:Hp.
  { apply yields_ret. exists m, ext. split; [done|]. rewrite Forall_nil. tauto. }
  rewrite <- Hp in *. clear Hp r page'. apply yields_read.
  assert (Htarget : target (trun s) = t). { destruct Hs as [(res & Hs & _) _]. by rewrite (run_made _ _ _ _ Hs). }
  rewrite Htarget. set (rows := filter (λ row, marked t row = false) page).
  assert (Hacc : Forall accounted page ↔ Forall in_source rows).
  { unfold rows. rewrite !Forall_forall. split.
    - intros Ha r [Hm Hr]%list_elem_of_filter. destruct (Ha r Hr); [congruence|done].
    - intros Ha r Hr. unfold accounted. destruct (marked t r) eqn:Hm; [by left|right].
      apply Ha, list_elem_of_filter. done. }
  assert (Hrows : rows ⊆ held). { intros r [_ Hr]%list_elem_of_filter. by apply Hpage. }
  eapply yields_bind with (P := λ _ s', ∃ m' ext', at_extras s' n m' ext' ∧
    (none_extra m' ext' ↔ none_extra m ext ∧ Forall in_source rows)).
  - pose proof (look_for_yields fuel rows s n m ext Hrows Hfuel Hs) as Hl.
    destruct rows as [|r rows']; [|exact Hl].
    apply yields_ret. exists m, ext. split; [done|]. rewrite Forall_nil. tauto.
  - intros [] s1 (m' & ext' & [Hs1 Hsh] & He). eapply yields_mono; [by apply beat_yields|].
    intros [] s2 Hs2. exists m', ext'. split; [done|]. by rewrite Hacc.
Qed.

(** a reading that is open hands over these rows *)
Fixpoint reads (rd : opened) (l : list obj) : Prop :=
  match l with
  | [] => answers (next_row rd) (inr None)
  | r :: l => ∃ rd', answers (next_row rd) (inr (Some (r, rd'))) ∧ reads rd' l
  end.

Lemma read_extras_yields fuel k rd l page s n m ext :
  reads rd l → (page ++ l) ⊆ held → List.length l < k → List.length S_ < fuel → at_extras s n m ext →
  yields (read_extras fuel b k src engine false false rd page) s
    (λ _ s', ∃ m', at_extras s' n m' [] ∧ (m' = 0 ↔ none_extra m ext ∧ Forall accounted (page ++ l))).
Proof.
  intros Hrd Hin Hlen Hfuel. revert k rd page s m ext Hrd Hin Hlen.
  induction l as [|r l IH]; intros [|k] rd page s m ext Hrd Hin Hlen Hs; try (cbn in Hlen; lia); cbn [read_extras].
  - eapply yields_bind.
    { eapply of_sink_tally; [apply Hs|]. apply outside_yields; [exact Hrd|eapply tally_ready; apply Hs]. }
    intros x s1 [-> Hs1]. rewrite app_nil_r in *. eapply yields_bind; [apply flush_extras_yields; [done|done|by split; [exact Hs1|apply Hs]]|].
    intros [] s2 (m' & ext' & Hs2 & He). eapply yields_mono; [by apply settle_extras|].
    intros [] s3 (m2 & Hs3 & Hm). exists m2. split; [done|]. by rewrite Hm.
  - destruct Hrd as (rd' & Hrd & Hrest). cbn in Hlen. eapply yields_bind.
    { eapply of_sink_tally; [apply Hs|]. apply outside_yields; [exact Hrd|eapply tally_ready; apply Hs]. }
    intros x s1 [-> Hs1]. assert (Hs1' : at_extras s1 n m ext) by (split; [exact Hs1|apply Hs]).
    destruct (full_page b (page ++ [r])).
    + eapply yields_bind; [by apply flush_extras_yields; [by eapply first_part|..]|].
      intros [] s2 (m' & ext' & Hs2 & He). eapply yields_mono; [apply (IH k rd' [] s2 m' ext'); [done|by eapply last_part|lia|done]|].
      intros [] s3 (m2 & Hs3 & Hm). exists m2. split; [done|].
      rewrite Hm, He. cbn. rewrite (cons_middle r page l), app_assoc, !Forall_app. tauto.
    + eapply yields_mono; [apply (IH k rd' (page ++ [r]) s1 m ext); [done|by rewrite <- app_assoc|lia|done]|].
      intros [] s3 (m2 & Hs3 & Hm). exists m2. split; [done|]. by rewrite <- app_assoc in Hm.
Qed.
End extras.
End target.

(** ** The readings *)

Context (running : ∀ force, answers (still_running force) (inr true)).
Context (ord : TableSource → string + TableOrder) (orders : ∀ x, answers (order_of x) (ord x)).

Definition extras_reading (t : DatabaseTarget) : option (TableSource * TableOrder) :=
  let by_keys := match ord (by_key_columns t) with inr o => Some (by_key_columns t, o) | inl _ => None end in
  match ord (tableOf t) with
  | inr o => match owarning o with None => Some (tableOf t, o) | Some _ => by_keys end
  | inl _ => by_keys
  end.

Definition read_whole (src_ : TableSource) (o : TableOrder) (rows : list obj) : Prop :=
  ∃ l, l ≡ₚ rows ∧ reads (open_rows src_ o (pageSize (bdelivery b))) l.

Definition looks_for_extras (t : DatabaseTarget) : bool :=
  match onDelete t with ignore_delete => false | _ => negb (keyIsTransformed (start_of t)) end.

(** what the second pass over a target asks *)
Definition extras_can_be_told (t : DatabaseTarget) (held : list obj) (engine : DatabaseEngine) : Prop :=
  keyed_alike t held engine ∧ ∃ x, extras_reading t = Some x ∧ read_whole x.1 x.2 held.

Lemma extras_order_yields t x s :
  extras_reading t = Some x → ready s → yields (extras_order t) s (λ y s', y = x ∧ ready s').
Proof.
  intros Hx Hs. unfold extras_order, extras_reading in *. eapply yields_bind; [by apply yields_attempt|].
  intros o s1 [-> Hs1].
  assert (Hby : ∀ s, ready s → match ord (by_key_columns t) with inr o => Some (by_key_columns t, o) | inl _ => None end = Some x →
    yields (let* o := outside (order_of (by_key_columns t)) in Ret (by_key_columns t, o)) s (λ y s', y = x ∧ ready s')).
  { intros s2 Hs2 He. pose proof (orders (by_key_columns t)) as Ho. destruct (ord (by_key_columns t)) as [?|o]; [done|].
    eapply yields_outside_ready; [done..|]. intros s3 Hs3. apply yields_ret. split; [congruence|done]. }
  destruct (ord (tableOf t)) as [e|o]; [by apply Hby|]. destruct (owarning o); [by apply Hby|].
  apply yields_ret. split; [congruence|done].
Qed.

Lemma findExtras_yields t held fuel engine s n :
  t ∈ targets → comparable t held → (looks_for_extras t = true → extras_can_be_told t held engine) →
  List.length S_ < fuel → List.length held < fuel → at_tally t s n None [] [] →
  yields (findExtras fuel b engine false false) s (λ _ s', ∃ e, at_tally t s' n e [] [] ∧
    (default 0 e = 0 ↔ (looks_for_extras t = true → Forall (accounted t) held))).
Proof.
  intros Ht Hc Hx HS Hheld Hs. unfold findExtras. rewrite from_table. apply yields_read.
  destruct (Hs) as (res & Hr & Htal). rewrite (run_made _ _ _ _ _ Hr).
  change (onDelete (target (made t res [] []))) with (onDelete t).
  change (keyIsTransformed (made t res [] [])) with (keyIsTransformed (start_of t)).
  unfold looks_for_extras in *.
  assert (Hnote : ∀ text, yields (of_result (push_note text)) s (λ _ s', ∃ e, at_tally t s' n e [] [] ∧ (default 0 e = 0 ↔ (false = true → Forall (accounted t) held)))).
  { intros text. eexists tt, _. split; [done|]. exists None. split; [|done].
    eapply at_tally_result; [done|]. intros ? []. by split. }
  destruct (onDelete t) eqn:Hdel; try (by apply Hnote).
  all: destruct (keyIsTransformed (start_of t)); [by apply Hnote|].
  all: destruct (Hx eq_refl) as (Hk & [src_ o] & Hor & l & Hl & Hreads).
  all: apply yields_modify.
  all: assert (Hs1 : at_extras t (put_run (with_result start_extra) s) n 0 []).
  1,3: split; [|constructor]; eapply at_tally_result; [exact Hs|]; intros [] []; by split.
  all: eapply yields_bind; [eapply of_sink_tally; [apply Hs1|];
    eapply (extras_order_yields t); [exact Hor|eapply tally_ready; apply Hs1]|].
  all: intros x s2 [-> Hs2]; eapply yields_mono;
    [eapply (read_extras_yields t Ht held Hc running engine Hk fuel fuel _ l []);
       [exact Hreads|cbn; intros r Hr'; by rewrite <- Hl|by rewrite Hl|done|split; [exact Hs2|constructor]]|].
  all: intros [] s3 (m & [Hs3 _] & Hm); exists (Some m); split; [exact Hs3|]; cbn in *;
    rewrite Hm, Hl; unfold none_extra; tauto.
Qed.

(** ** Every target *)

Record on (v : VState (W:=W)) : Prop := { on_ready : ready (vsink v); on_not_canceled : vcanceled v = false }.

(** a target that cannot be compared is as it was; of every other, [P] holds but
    for those still to come, of which [Q] does *)
Definition holding (Q P : DatabaseTarget → TargetRun → Prop) (later : list nat) (v : VState (W:=W)) : Prop :=
  List.length (vruns v) = List.length targets ∧
  ∀ i t, targets !! i = Some t → ∃ r, vruns v !! i = Some r ∧
    if supported (run_of t) then (if bool_decide (i ∈ later) then Q t r else P t r) else r = run_of t.

Lemma live_target i : i ∈ live_runs (run_of <$> targets) ↔ ∃ t, targets !! i = Some t ∧ supported (run_of t) = true.
Proof.
  rewrite live_runs_elem. split.
  - intros (r & Hr & Hs). apply list_lookup_fmap_Some in Hr as (t & -> & Ht). by exists t.
  - intros (t & Ht & Hs). exists (run_of t). by rewrite list_lookup_fmap, Ht.
Qed.

Lemma of_target_run_yields (m : @async TState unit) i v r P :
  vruns v !! i = Some r → on v →
  yields m {| tsink := vsink v; trun := r; tcanceled := false |}
    (λ _ s, ready (tsink s) ∧ tcanceled s = false ∧ P (trun s)) →
  yields (of_target_run i m) v (λ _ v', on v' ∧ vsourceRows v' = vsourceRows v ∧
    ∃ r', vruns v' = <[i := r']> (vruns v) ∧ P r').
Proof.
  intros Hr [Hv Hc] Hm. unfold of_target_run.
  apply (yields_zoom _ _ (λ v, i < List.length (vruns v))).
  - intros s w Hi. cbn. by rewrite length_insert.
  - intros [? ? ?] w Hi. unfold one_of, put_one. cbn. f_equal.
    apply nth_lookup_Some. by rewrite list_lookup_insert_eq.
  - intros s s' w. unfold put_one. cbn. f_equal. by rewrite list_insert_insert_eq.
  - intros [? rs ? ?] Hi. unfold put_one, one_of. cbn in *. f_equal.
    apply lookup_lt_is_Some_2 in Hi as [x Hx]. apply list_insert_id. by rewrite (nth_lookup_Some _ _ _ _ Hx).
  - by eapply lookup_lt_Some.
  - unfold one_of. rewrite (nth_lookup_Some _ _ _ _ Hr), Hc. eapply yields_mono; [exact Hm|].
    intros [] s (Hs & Hcs & HP). split; [by split|]. split; [done|]. by exists (trun s).
Qed.

Lemma for_runs_yields (m : @async TState unit) (P Q : DatabaseTarget → TargetRun → Prop) live v :
  (∀ t s, t ∈ targets → supported (run_of t) = true → ready (tsink s) → tcanceled s = false → Q t (trun s) →
     yields m s (λ _ s', ready (tsink s') ∧ tcanceled s' = false ∧ P t (trun s'))) →
  NoDup live → (∀ i, i ∈ live → i ∈ live_runs (run_of <$> targets)) → on v → holding Q P live v →
  yields (for_runs live m) v (λ _ v', on v' ∧ vsourceRows v' = vsourceRows v ∧ holding Q P [] v').
Proof.
  intros Hm. revert v. induction live as [|i live IH]; intros v Hnd Hlive Hv [Hlen Hh]; cbn [for_runs].
  { apply yields_ret. done. }
  apply NoDup_cons in Hnd as [Hi Hnd].
  destruct (proj1 (live_target i) (Hlive i ltac:(set_solver))) as (t & Ht & Hs).
  destruct (Hh i t Ht) as (r & Hr & HQ). rewrite Hs, bool_decide_eq_true_2 in HQ by set_solver.
  eapply yields_bind.
  { eapply of_target_run_yields; [exact Hr|exact Hv|]. apply (Hm t); [by eapply list_elem_of_lookup_2|done|apply Hv|done|done]. }
  intros [] v1 (Hv1 & Hrows & r' & Hr' & HP).
  eapply yields_mono; [apply IH; [done|set_solver|done|]|].
  - split; [by rewrite Hr', length_insert|]. intros j t' Ht'. destruct (decide (i = j)) as [<-|Hne].
    + exists r'. rewrite Hr', list_lookup_insert_eq by (by eapply lookup_lt_Some). split; [done|].
      assert (t' = t) as -> by congruence. by rewrite Hs, bool_decide_eq_false_2.
    + destruct (Hh j t' Ht') as (r2 & Hr2 & HQ2). exists r2. rewrite Hr', list_lookup_insert_ne by done. split; [done|].
      destruct (supported (run_of t')); [|done].
      rewrite (bool_decide_ext _ (j ∈ i :: live)) by set_solver. done.
  - intros [] v2 (Hv2 & Hrows2 & Hh2). split_and!; [done|congruence|done].
Qed.

(** ... of every target *)
Definition all_hold (P : DatabaseTarget → TargetRun → Prop) (v : VState (W:=W)) : Prop := holding P P [] v.

Lemma every_run_yields (m : @async TState unit) (P Q : DatabaseTarget → TargetRun → Prop) v :
  (∀ t s, t ∈ targets → supported (run_of t) = true → ready (tsink s) → tcanceled s = false → Q t (trun s) →
     yields m s (λ _ s', ready (tsink s') ∧ tcanceled s' = false ∧ P t (trun s'))) →
  on v → all_hold Q v →
  yields (for_runs (live_runs (run_of <$> targets)) m) v
    (λ _ v', on v' ∧ vsourceRows v' = vsourceRows v ∧ all_hold P v').
Proof.
  intros Hm Hv [Hlen Hh]. eapply yields_mono.
  - apply (for_runs_yields m P Q); [done|apply live_runs_NoDup|done|done|]. split; [done|].
    intros i t Ht. destruct (Hh i t Ht) as (r & Hr & HQ). exists r. split; [done|].
    destruct (supported (run_of t)) eqn:Hs; [|done]. cbn in HQ.
    rewrite bool_decide_eq_true_2; [done|]. apply live_target. eauto.
  - intros [] v' (Hv' & Hrows & Hlen' & Hh'). split_and!; [done..|]. split; [done|].
    intros i t Ht. exact (Hh' i t Ht).
Qed.

(** ** The whole run *)

Context (held : DatabaseTarget → list obj) (engine : DatabaseEngine) (fuel : nat).
Context (comparables : ∀ t, t ∈ targets → supported (run_of t) = true → comparable t (held t)).
Context (extras_told : ∀ t, t ∈ targets → supported (run_of t) = true → looks_for_extras t = true →
  extras_can_be_told t (held t) engine).
Context (enough : List.length S_ < fuel) (enough_held : ∀ t, t ∈ targets → List.length (held t) < fuel).

(** after these rows of the source: their faults are suspects, or counted *)
Definition seen_rows (rows : list obj) (t : DatabaseTarget) (r : TargetRun) : Prop :=
  ∃ res sus n, r = made t res sus [] ∧ tallied n None res ∧ Forall (wrong_row t (held t)) (snd <$> sus) ∧
    (n = 0 ∧ sus = [] ↔ Forall (right_row t (held t)) rows).

Lemma seen_at_tally rows t (s : TState) :
  seen_rows rows t (trun s) → ready (tsink s) → tcanceled s = false →
  ∃ sus n, at_tally t s n None sus [] ∧ Forall (wrong_row t (held t)) (snd <$> sus) ∧
    (n = 0 ∧ sus = [] ↔ Forall (right_row t (held t)) rows).
Proof.
  intros (res & sus & n & Hr & Ht & Hw & He) Hs Hc. exists sus, n. split; [|done]. exists res. split; [by split|done].
Qed.

Lemma at_tally_seen rows t s n sus :
  at_tally t s n None sus [] → Forall (wrong_row t (held t)) (snd <$> sus) →
  (n = 0 ∧ sus = [] ↔ Forall (right_row t (held t)) rows) →
  ready (tsink s) ∧ tcanceled s = false ∧ seen_rows rows t (trun s).
Proof.
  intros (res & [Hs Hc Hr] & Ht) Hw He. split_and!; [done..|]. rewrite Hr. by exists res, sus, n.
Qed.

Lemma second_look_counts t s n sus ext (Q : Prop) :
  t ∈ targets → supported (run_of t) = true →
  Forall (wrong_row t (held t)) (snd <$> sus) → at_tally t s n None sus ext → (n = 0 ∧ sus = [] ↔ Q) →
  yields (secondLook tenth_power fuel b engine false false) s
    (λ _ s', ∃ n', at_tally t s' n' None [] ext ∧ (n' = 0 ↔ Q)).
Proof.
  intros Ht Hsup Hw Hs HQ. eapply yields_mono; [apply (secondLook_yields t Ht (held t)); [by apply comparables|done|by apply enough_held|done]|].
  intros [] s' Hs'. exists (n + List.length sus). split; [done|]. rewrite <- HQ.
  destruct sus; cbn; split; [intros; split; [lia|done]|lia|lia|by intros [? ?]].
Qed.

Lemma compare_page_yields rows page shaped now t s :
  t ∈ targets → supported (run_of t) = true → page ⊆ S_ →
  Forall2 (λ r y, shape_row now r = Some y) page shaped →
  ready (tsink s) → tcanceled s = false → seen_rows rows t (trun s) →
  yields (compare_page tenth_power fuel b engine false false page shaped) s
    (λ _ s', ready (tsink s') ∧ tcanceled s' = false ∧ seen_rows (rows ++ page) t (trun s')).
Proof.
  intros Ht Hsup Hpage H2 Hs Hc Hseen. destruct (seen_at_tally _ _ _ Hseen Hs Hc) as (sus & n & (res & Hr & Htal) & Hw & He).
  unfold compare_page. eapply yields_bind.
  { by eapply (compare_yields t Ht (held t) (comparables t Ht Hsup)); [| | |apply enough_held|]. }
  intros [] s1 (sus' & Hr' & Hw' & He').
  assert (Hs1 : at_tally t s1 n None sus' []).
  { eexists. split; [exact Hr'|]. destruct res, Htal. by split. }
  assert (HQ : n = 0 ∧ sus' = [] ↔ Forall (right_row t (held t)) (rows ++ page)).
  { rewrite He', Forall_app, <- He. tauto. }
  apply yields_read. destruct (_ <=? _).
  - eapply yields_mono; [by apply (second_look_counts t s1 n sus' [])|].
    intros [] s2 (n' & Hs2 & Hn). eapply at_tally_seen; [done|constructor|]. rewrite <- Hn. tauto.
  - apply yields_ret. by eapply at_tally_seen.
Qed.

Lemma by_sink_yields {A} (m : @async SS A) v P :
  on v → yields m (vsink v) (λ x s', P x ∧ ready s') →
  yields (by_sink m) v (λ x v', P x ∧ on v' ∧ vsourceRows v' = vsourceRows v ∧ vruns v' = vruns v).
Proof.
  intros [Hv Hc] Hm. apply (yields_zoom _ _ (λ _, True)); [done..|by intros []|done|].
  eapply yields_mono; [exact Hm|]. intros x s [Hx Hs]. by split_and!.
Qed.

Lemma beat_all_yields force v :
  on v → yields (beat_all force) v (λ _ v', on v' ∧ vsourceRows v' = vsourceRows v ∧ vruns v' = vruns v).
Proof.
  intros Hv. unfold beat_all. eapply yields_bind.
  { eapply by_sink_yields; [done|]. apply outside_yields; [apply running|apply Hv]. }
  intros x v' (-> & Hv' & ? & ?). by apply yields_ret.
Qed.

Abbreviation live := (live_runs (run_of <$> targets)).

Lemma flush_page_yields rows page v :
  page ⊆ S_ → on v → all_hold (seen_rows rows) v → vsourceRows v = List.length rows →
  yields (flush_page tenth_power fuel b src engine live false false page) v
    (λ _ v', on v' ∧ all_hold (seen_rows (rows ++ page)) v' ∧ vsourceRows v' = List.length (rows ++ page)).
Proof.
  intros Hpage Hv Hh Hn. unfold flush_page. destruct page as [|r page'] eqn:Hp.
  { apply yields_ret. by rewrite app_nil_r. }
  rewrite <- Hp in *. clear Hp r page'. eapply yields_bind.
  { eapply by_sink_yields; [done|]. eapply yields_mono; [by apply shaped_rows_yields; [|apply Hv]|].
    intros x s' (now & H2 & Hs'). split; [exact (ex_intro _ now H2)|done]. }
  intros shaped v1 ([now H2] & Hv1 & Hn1 & Hr1). eapply yields_bind.
  { apply (every_run_yields _ (seen_rows (rows ++ page)) (seen_rows rows)); [|done|unfold all_hold, holding; by rewrite Hr1].
    intros t s Ht Hsup Hs Hc Hseen. by eapply compare_page_yields. }
  intros [] v2 (Hv2 & Hn2 & Hh2). apply yields_modify.
  eapply yields_mono; [apply beat_all_yields; by split; apply Hv2|].
  intros [] v3 (Hv3 & Hn3 & Hr3). split_and!; [done| |].
  - unfold all_hold, holding in *. by rewrite Hr3.
  - rewrite Hn3. cbn. rewrite Hn2, Hn1, Hn, length_app. done.
Qed.

Lemma read_source_yields k rd l rows page v :
  reads rd l → (page ++ l) ⊆ S_ → List.length l < k → on v → all_hold (seen_rows rows) v →
  vsourceRows v = List.length rows →
  yields (read_source tenth_power fuel b src engine live false false k rd page) v
    (λ _ v', on v' ∧ all_hold (seen_rows (rows ++ page ++ l)) v' ∧ vsourceRows v' = List.length (rows ++ page ++ l)).
Proof.
  revert k rd rows page v. induction l as [|r l IH]; intros [|k] rd rows page v Hrd Hin Hlen Hv Hh Hn;
    try (cbn in Hlen; lia); cbn [read_source].
  - eapply yields_bind. { eapply by_sink_yields; [done|]. apply outside_yields; [exact Hrd|apply Hv]. }
    intros x v1 (-> & Hv1 & Hn1 & Hr1). rewrite app_nil_r in *.
    apply flush_page_yields; [done|done|unfold all_hold, holding in *; by rewrite Hr1|congruence].
  - destruct Hrd as (rd' & Hrd & Hrest). cbn in Hlen. eapply yields_bind.
    { eapply by_sink_yields; [done|]. apply outside_yields; [exact Hrd|apply Hv]. }
    intros x v1 (-> & Hv1 & Hn1 & Hr1).
    assert (Hh1 : all_hold (seen_rows rows) v1) by (unfold all_hold, holding in *; by rewrite Hr1).
    replace (rows ++ page ++ r :: l) with (rows ++ (page ++ [r]) ++ l) by by rewrite <- app_assoc.
    destruct (full_page b (page ++ [r])).
    + eapply yields_bind; [apply (flush_page_yields rows); [by eapply first_part|done|done|congruence]|].
      intros [] v2 (Hv2 & Hh2 & Hn2). rewrite app_assoc.
      apply (IH k rd' (rows ++ page ++ [r]) [] v2); [done|by eapply last_part|lia|done..].
    + apply IH; [done|by rewrite <- app_assoc|lia|done..|congruence].
Qed.

(** the source was compared and nothing is left to look at again *)
Definition source_done (t : DatabaseTarget) (r : TargetRun) : Prop :=
  ∃ res n, r = made t res [] [] ∧ tallied n None res ∧ (n = 0 ↔ Forall (right_row t (held t)) S_).

(** the target is the copy it should be *)
Definition in_step (t : DatabaseTarget) : Prop :=
  Forall (right_row t (held t)) S_ ∧ (looks_for_extras t = true → Forall (accounted t) (held t)).

Definition both_done (t : DatabaseTarget) (r : TargetRun) : Prop :=
  unsupported (result r) = None ∧ (remainingDifferences (result r) = 0 ↔ in_step t).

Lemma first_pass_ends t s :
  t ∈ targets → supported (run_of t) = true → ready (tsink s) → tcanceled s = false → seen_rows S_ t (trun s) →
  yields (secondLook tenth_power fuel b engine false false) s
    (λ _ s', ready (tsink s') ∧ tcanceled s' = false ∧ source_done t (trun s')).
Proof.
  intros Ht Hsup Hs Hc Hseen. destruct (seen_at_tally _ _ _ Hseen Hs Hc) as (sus & n & Hsn & Hw & He).
  eapply yields_mono; [by apply (second_look_counts t s n sus [])|].
  intros [] s' (n' & (res & [Hs' Hc' Hr'] & Htal) & Hn). split_and!; [done..|]. rewrite Hr'. by exists res, n'.
Qed.

Lemma second_pass_ends t s :
  t ∈ targets → supported (run_of t) = true → ready (tsink s) → tcanceled s = false → source_done t (trun s) →
  yields (findExtras fuel b engine false false ;; beat true) s
    (λ _ s', ready (tsink s') ∧ tcanceled s' = false ∧ both_done t (trun s')).
Proof.
  intros Ht Hsup Hs Hc (res & n & Hr & Htal & Hn). eapply yields_bind.
  { apply (findExtras_yields t (held t)); [done|by apply comparables|by apply extras_told|done|by apply enough_held|].
    exists res. split; [by split|exact Htal]. }
  intros [] s1 (e & Hs1 & He). eapply yields_mono; [by apply (beat_yields t running)|].
  intros [] s2 (res' & [Hs2 Hc2 Hr2] & [Hm' He' Hf' Hd' Hu']). split_and!; [done..|]. rewrite Hr2.
  split; [done|]. unfold remainingDifferences, in_step. rewrite <- Hn, <- He.
  change (result (made t res' [] [])) with res'. rewrite He', Hf', Hd', Hm'. split; [split|intros [? ?]]; lia.
Qed.

Lemma all_hold_impl (P Q : DatabaseTarget → TargetRun → Prop) v :
  (∀ t r, t ∈ targets → supported (run_of t) = true → P t r → Q t r) → all_hold P v → all_hold Q v.
Proof.
  intros HPQ [Hlen Hh]. split; [done|]. intros i t Ht. destruct (Hh i t Ht) as (r & Hr & HP). exists r. split; [done|].
  destruct (supported (run_of t)) eqn:Hs; [|done]. cbn in *. apply HPQ; [by eapply list_elem_of_lookup_2|done..].
Qed.

Context (order : TableOrder) (source_order : ord src = inr order) (source_read : read_whole src order S_).
Context (total_saved : answers (save_total (ototal order)) (inr tt)).
Context (completed : answers save_completed (inr true)).
Context (into_database : bdestination b = Database targets) (source_engine : eng (connectionId src) = inr engine).

Lemma both_passes_yields v :
  on v → all_hold (seen_rows []) v → vsourceRows v = 0 →
  yields (both_passes tenth_power fuel b src engine live false false false) v
    (λ _ v', on v' ∧ all_hold both_done v' ∧ vsourceRows v' = List.length S_).
Proof.
  intros Hv Hh Hn. destruct source_read as (l & Hl & Hreads). unfold both_passes.
  eapply yields_bind. { eapply by_sink_yields; [done|]. apply outside_yields; [rewrite <- source_order; apply orders|apply Hv]. }
  intros x v1 (-> & Hv1 & Hn1 & Hr1). eapply yields_bind.
  { eapply by_sink_yields; [done|]. apply outside_yields; [exact total_saved|apply Hv1]. }
  intros _ v2 (_ & Hv2 & Hn2 & Hr2).
  assert (Hh2 : all_hold (seen_rows []) v2) by (unfold all_hold, holding in *; by rewrite Hr2, Hr1).
  eapply yields_bind with (P := λ _ v', on v' ∧ vsourceRows v' = vsourceRows v2 ∧ all_hold (seen_rows []) v').
  { destruct (owarning order) as [w|]; [|by apply yields_ret].
    apply (every_run_yields _ _ (seen_rows [])); [|done..]. intros t s Ht Hsup Hs Hc (res & sus & n & Hr & Htal & Hw & He).
    eexists tt, _. split; [done|]. split_and!; [done..|]. cbn. rewrite Hr.
    exists (add_note w res), sus, n. split_and!; [done| |done..].
    unfold add_note. destruct (_ && _); [|done]. by destruct Htal. }
  intros [] v3 (Hv3 & Hn3 & Hh3). eapply yields_bind.
  { apply (read_source_yields fuel _ l [] []); [exact Hreads|cbn; intros r Hr; by rewrite <- Hl|by rewrite Hl|done|done|by rewrite Hn3, Hn2, Hn1, Hn]. }
  intros [] v4 (Hv4 & Hh4 & Hn4). cbn in Hh4, Hn4. eapply yields_bind.
  { apply (every_run_yields _ source_done (seen_rows l)); [|done..]. intros t s Ht Hsup Hs Hc Hseen.
    apply first_pass_ends; [done..|]. destruct Hseen as (res & sus & n & ? & ? & ? & He). exists res, sus, n.
    by rewrite <- Hl. }
  intros [] v5 (Hv5 & Hn5 & Hh5). eapply yields_bind; [by apply beat_all_yields|].
  intros [] v6 (Hv6 & Hn6 & Hr6). eapply yields_mono.
  - apply (every_run_yields _ both_done source_done); [intros; by apply second_pass_ends|done|].
    unfold all_hold, holding in *. by rewrite Hr6.
  - intros [] v7 (Hv7 & Hn7 & Hh7). split_and!; [done..|]. by rewrite Hn7, Hn6, Hn5, Hn4, Hl.
Qed.

Lemma started_holds : Forall (λ t, supported (run_of t) = true → run_of t = start_of t) targets.
Proof.
  apply Forall_forall. intros t Ht. unfold run_of. destruct (keyColumns t); [done|].
  destruct (connected t Ht) as [e He]. rewrite He. by destruct (COMPARABLE e).
Qed.

Lemma seen_none t : supported (run_of t) = true → t ∈ targets → seen_rows [] t (run_of t).
Proof.
  intros Hsup Ht. pose proof started_holds as Hst. rewrite Forall_forall in Hst. rewrite (Hst t Ht Hsup).
  eexists _, [], 0. split_and!; [reflexivity|by split|constructor|]. done.
Qed.

Lemma verification_yields v :
  on v → vsourceRows v = 0 →
  yields (verification tenth_power fuel b false false false) v
    (λ _ v', on v' ∧ all_hold both_done v' ∧ (live ≠ [] → vsourceRows v' = List.length S_)).
Proof.
  intros Hv Hn. unfold verification. rewrite from_table, into_database. eapply yields_bind.
  { eapply by_sink_yields; [done|]. apply outside_yields; [rewrite <- source_engine; apply engines|apply Hv]. }
  intros x v1 (-> & Hv1 & Hn1 & _). eapply yields_bind.
  { eapply by_sink_yields; [done|]. apply prepare_all_yields; [done|apply Hv1]. }
  intros x v2 (-> & Hv2 & Hn2 & _). apply yields_modify.
  set (v3 := with_runs (run_of <$> targets) v2).
  assert (Hv3 : on v3) by (split; apply Hv2).
  assert (Hh3 : all_hold (seen_rows []) v3).
  { split; [apply length_fmap|]. intros i t Ht. exists (run_of t). split; [by apply (list_lookup_fmap_Some_2 run_of)|].
    destruct (supported (run_of t)) eqn:Hs; [|done]. cbn. apply seen_none; [done|by eapply list_elem_of_lookup_2]. }
  assert (Hn3 : vsourceRows v3 = 0) by (cbn; congruence).
  eapply yields_bind with (P := λ _ v', on v' ∧ all_hold both_done v' ∧ (live ≠ [] → vsourceRows v' = List.length S_)).
  { pose proof (both_passes_yields v3 Hv3 Hh3 Hn3) as Hboth. destruct live as [|i0 rest] eqn:Hlive.
    - apply yields_ret. split_and!; [done| |done]. split; [apply Hh3|]. intros j t Ht.
      destruct (proj2 Hh3 j t Ht) as (r & Hr & Hrt). exists r. split; [done|].
      destruct (supported (run_of t)) eqn:Hs; [|done]. exfalso.
      assert (Hin : j ∈ live) by (apply live_target; eauto). rewrite Hlive in Hin. set_solver.
    - eapply yields_mono; [exact Hboth|]. intros [] v4 (? & ? & ?). done. }
  intros [] v4 (Hv4 & Hh4 & Hn4). eapply yields_bind.
  { eapply by_sink_yields; [done|]. apply outside_yields; [exact completed|apply Hv4]. }
  intros x v5 (-> & Hv5 & Hn5 & Hr5). apply yields_ret. split_and!; [done| |by rewrite Hn5].
  unfold all_hold, holding in *. by rewrite Hr5.
Qed.

Lemma report_says v :
  all_hold both_done v →
  inSync (report v) = Some true ↔
  (∃ t, t ∈ targets ∧ supported (run_of t) = true) ∧
  ∀ t, t ∈ targets → supported (run_of t) = true → in_step t.
Proof.
  intros [Hlen Hh]. rewrite in_sync_report. unfold report. rewrite Exists_fmap, Forall_fmap, Exists_exists, Forall_forall.
  assert (Hrun : ∀ t, t ∈ targets → ∃ r, r ∈ vruns v ∧ if supported (run_of t) then both_done t r else r = run_of t).
  { intros t [i Hi]%list_elem_of_lookup. destruct (Hh i t Hi) as (r & Hr & HP). exists r.
    split; [by eapply list_elem_of_lookup_2|]. by destruct (supported (run_of t)). }
  assert (Hof : ∀ r, r ∈ vruns v → unsupported (result r) = None →
    ∃ t, t ∈ targets ∧ supported (run_of t) = true ∧ both_done t r).
  { intros r [i Hi]%list_elem_of_lookup Hu. pose proof (lookup_lt_Some _ _ _ Hi) as Hlt. rewrite Hlen in Hlt.
    apply lookup_lt_is_Some_2 in Hlt as [t Ht]. destruct (Hh i t Ht) as (r' & Hr' & HP).
    assert (r' = r) as -> by congruence. exists t. split; [by eapply list_elem_of_lookup_2|].
    destruct (supported (run_of t)) eqn:Hs; [done|]. subst r. unfold supported in Hs. by rewrite Hu in Hs. }
  split.
  - intros [(r & Hr & Hu) Hall]. split.
    { destruct (Hof r Hr Hu) as (t & Ht & Hs & _). by exists t. }
    intros t Ht Hs. destruct (Hrun t Ht) as (r' & Hr' & HP). rewrite Hs in HP. destruct HP as [Hu' He].
    apply He. by apply (Hall r' Hr').
  - intros [(t & Ht & Hs) Hall]. split.
    { destruct (Hrun t Ht) as (r & Hr & HP). rewrite Hs in HP. exists r. split; [done|]. apply HP. }
    intros r Hr Hu. destruct (Hof r Hr Hu) as (t' & Ht' & Hs' & [_ He]). by apply He, Hall.
Qed.

(** C25. A verification that only reads (nothing is delivering, nothing is put right) ends,
    where every call is answered and each time alike, and the tables hold still: keys have
    values and a spelling of their own at both ends, and whether a row is right does not
    depend on the time. Its report says "in sync" exactly when there is something to
    compare and every target that can be compared is the copy it should be. Each row of
    the source is there as it would be written, in the columns that are compared, which
    leaves out those that tell the time of the delivery. And of a target where deletes are
    not ignored, by a key that is not transformed, each row that is there, unless it is
    marked as deleted, has its key in the source; of other targets rows the source does
    not have are not looked for, and do not count. *)
Theorem verification_is_exact v :
  on v → vsourceRows v = 0 →
  ∃ v', exec (run tenth_power fuel b false false false) v = Some (inr Completed, v') ∧
    (inSync (report v') = Some true ↔
     (∃ t, t ∈ targets ∧ supported (run_of t) = true) ∧
     ∀ t, t ∈ targets → supported (run_of t) = true → in_step t).
Proof.
  intros Hv Hn. destruct (verification_yields v Hv Hn) as ([] & v' & Hx & _ & Hh & _).
  exists v'. split; [|by apply report_says]. unfold run. rewrite exec_catch, exec_bind, Hx. done.
Qed.
End still.
