(* ===== verification/VerifySample.v ===== *)
(** Two small tables being verified: a witness that the theorem of [VerifyExact]
    speaks of something, and the cases in which the report of a reconcile, or what
    it writes, is not what it is said to be. *)
From S2P Require Import Prelude JsText JsNumber JsDate JsIso JsValue JsJson JsBytes.
From S2P Require Import ColumnTransforms RedisTarget BridgeConfig TypeMap Bridge ValueMap RowCompare.
From S2P Require Import Async CdcState TableReader SinkRows DbSink Snapshot Volatile Shaping Verify.
From S2P Require Import VerifyKeys VerifyExact.

#[local] Instance sample_print : JsPrint := {| date_text _ := "date"; bytes_text _ := "bytes" |}.

(** a source and a target in one database; what they are after each pause *)
Record Copy := { at_source : list obj; at_target : list obj; later : list (list obj * list obj) }.

Definition rows_at (c : string) (w : Copy) : list obj := if decide (c = "s") then at_source w else at_target w.
Definition with_target (l : list obj) (w : Copy) : Copy :=
  {| at_source := at_source w; at_target := l; later := later w |}.

Definition same_id (a b : obj) : bool := strict_eq (obj_get a "id") (obj_get b "id").

(** the row with this key is replaced, or the row is added *)
Definition put_row (l : list obj) (r : obj) : list obj :=
  if existsb (same_id r) l then (λ x, if same_id r x then r else x) <$> l else l ++ [r].

Definition columns_of (r : TargetRow) : obj := match r with Columns w => values w | _ => [] end.

#[local] Instance copy_adapters : Adapters Copy := {|
  receipt := unit;
  engine_of _ w := (inr postgres, w);
  source_schema _ w := (inl "no catalog", w);
  probe _ w := (inr true, w);
  create_table _ _ w := (inr tt, w);
  ensure_key_index _ := None;
  truncate_table _ w := (inr true, with_target [] w);
  insert_rows _ := None;
  insert_row _ r w := (inr (Some 1), with_target (at_target w ++ [columns_of r]) w);
  upsert_rows _ := Some (λ rs _ w, (inr (Some (List.length rs)), with_target (foldl put_row (at_target w) (columns_of <$> rs)) w));
  upsert_row _ r _ w := (inr (Some 1), with_target (put_row (at_target w) (columns_of r)) w);
  update_row _ _ _ w := (inr None, w);
  delete_rows _ := Some (λ ks w, (inr (Some (List.length ks)),
    with_target (filter (λ r, existsb (same_id r) ks = false) (at_target w)) w));
  delete_row _ k w := (inr (Some 1), with_target (filter (λ r, same_id r k = false) (at_target w)) w);
  transactions _ := false;
  acquire _ w := (inr tt, w);
  begin_tx _ w := (inr tt, w);
  commit_tx _ w := (inr tt, w);
  rollback_tx _ w := (inr tt, w);
  announce _ _ _ _ _ w := (tt, [], w);
  announce_truncate _ _ _ w := (tt, w);
  retract _ w := w;
  clock _ := 0%Z
|}.

Definition by_id : TableOrder :=
  {| osort := [ascending "id"]; ototal := None; okeysetColumn := Some "id"; okeysetColumns := [];
     ocursorPaging := false; owarning := None |}.

Definition next_of (rd : string * nat) (w : Copy) : (string + option (obj * (string * nat))) * Copy :=
  (inr ((λ r, (r, (rd.1, S rd.2))) <$> rows_at rd.1 w !! rd.2), w).

(** a table that answers more rows than it is asked for; the exact match is the caller's *)
#[local] Instance copy_ends : Ends Copy := {|
  browse at_ p w :=
    let rows := rows_at (at_connection at_) w in
    (inr {| prows := take (blimit p) (drop (boffset p) rows);
            phasMore := bool_decide (boffset p + blimit p < List.length rows); pnextCursor := None |}, w);
  order_of src w := (inr by_id, w);
  opened := string * nat;
  open_rows src _ _ := (connectionId src, 0);
  next_row := next_of;
  pause w := match later w with
             | (s, t) :: rest => {| at_source := s; at_target := t; later := rest |}
             | [] => w
             end;
  still_running _ w := (inr true, w);
  save_total _ w := (inr tt, w);
  save_completed w := (inr true, w);
  sha256 s := s
|}.

Definition copy_target : DatabaseTarget :=
  {| tconnectionId := "t"; tdatabase := None; tschema := None; ttable := "people"; writeMode := upsert;
     keyColumns := ["id"]; mapping := []; createMissingTable := false; onDelete := BridgeConfig.delete_row;
     softDelete := None; redis := None |}.

Definition copy_source : TableSource :=
  {| connectionId := "s"; database := None; schema := None; table := "people"; filters := None; sort := None |}.

Definition copy_bridge (steps : option (list ColumnTransform)) : ResolvedBridge :=
  {| bid := "b"; bsource := FromTable copy_source; bdestination := Database [copy_target];
     btransform := {| payload := {| Template.template := "{{$row}}"; Template.fields := None;
                                    Template.rename := None; Template.wrapKey := None |}; columns := steps |};
     bdelivery := default_delivery |}.

Definition person (id name : string) : obj := [("id", VStr id); ("name", VStr name)].

Definition before (w : Copy) : VState :=
  {| vsink := {| world := w; ensured := []; sourceCols := ∅; converters := ∅ |};
     vruns := []; vsourceRows := 0; vcanceled := false |}.

Definition verified (steps : option (list ColumnTransform)) (delivering fix_ : bool) (w : Copy)
  : option (Ending * option bool * list (nat * nat * nat) * list obj) :=
  match exec (run (λ _, NaN) 10 (copy_bridge steps) delivering fix_ false) (before w) with
  | Some (inr e, v) => Some (e, inSync (report v),
      (λ r, (missing r + different r, fixed r, default 0 (extra r))) <$> report v, at_target (world (vsink v)))
  | _ => None
  end.

(** ** In step *)

Definition ann : obj := person "1" "Ann".
Definition bob : obj := person "2" "Bob".
Definition copied : Copy := {| at_source := [ann; bob]; at_target := [bob; ann]; later := [] |}.

(** both tables as they are *)
Definition at_rest (w : Copy) : Prop := at_source w = [ann; bob] ∧ at_target w = [bob; ann].

(** one of two rows *)
Ltac each_row H := apply elem_of_cons in H as [->|[->|[]%not_elem_of_nil]%elem_of_cons].

Lemma browse_finds at_ fs cs ks engine (rows : list obj) :
  (∀ w, at_rest w → rows_at (at_connection at_) w = rows) → finds at_rest at_ fs cs ks engine rows.
Proof.
  intros Hrows keys. exists rows. split_and!; [done|by intros|]. intros offset. exists None. intros w Hw.
  cbn. rewrite (Hrows w Hw). done.
Qed.
Lemma copied_comparable :
  comparable (λ _, NaN) at_rest (copy_bridge None) copy_source (inl "no catalog") (λ _, inr postgres) [ann; bob]
    copy_target [bob; ann].
Proof.
  split.
  - apply browse_finds. by intros w [_ ?].
  - intros r Hr. each_row Hr; (split; [reflexivity|by eexists]).
  - intros r r' Hr Hr'. each_row Hr; each_row Hr'; vm_compute; congruence.
  - intros now r e Hr. each_row Hr; intros [= <-]; (split; [reflexivity|split; by eexists]).
  - intros now r e found Hr. each_row Hr; intros [= <-] Hf; each_row Hf;
      (eexists; split; [vm_compute; reflexivity|by eexists]).
  - intros now now' r Hr Hright. exact Hright.
Qed.

(** a table at rest is read to its end *)
Lemma read_from c (rows : list obj) n :
  (∀ w, at_rest w → rows_at c w = rows) → n ≤ List.length rows → reads at_rest (c, n) (drop n rows).
Proof.
  intros Hrows Hn. remember (drop n rows) as l eqn:Hl. revert n Hn Hl.
  induction l as [|r l IH]; intros n Hn Hl; cbn [reads].
  - intros w Hw. cbn [next_row copy_ends]. unfold next_of. cbn [fst snd]. split; [|done].
    rewrite (Hrows w Hw), lookup_ge_None_2; [done|]. apply (f_equal List.length) in Hl. rewrite length_drop in Hl. cbn in Hl. lia.
  - exists (c, S n). assert (Hr : rows !! n = Some r).
    { rewrite <- (Nat.add_0_r n), <- lookup_drop, <- Hl. done. }
    split. { intros w Hw. cbn [next_row copy_ends]. unfold next_of. cbn [fst snd]. by rewrite (Hrows w Hw), Hr. }
    apply lookup_lt_Some in Hr as Hlt. apply IH; [lia|]. by rewrite <- Nat.add_1_r, <- drop_drop, <- Hl.
Qed.

Lemma copied_extras :
  extras_can_be_told at_rest (copy_bridge None) copy_source (inl "no catalog") (λ _, inr postgres) [ann; bob]
    (λ _, inr by_id) copy_target [bob; ann] postgres.
Proof.
  split.
  - split.
    + apply browse_finds. by intros w [? _].
    + intros r Hr. each_row Hr; by eexists.
    + intros now r e Hr. each_row Hr; by intros [= <-].
    + intros r Hr. each_row Hr; by eexists.
  - eexists. split; [reflexivity|]. exists [bob; ann]. split; [done|].
    apply (read_from "t" [bob; ann] 0); [by intros w [_ ?]|apply Nat.le_0_l].
Qed.

Lemma verification_is_exact_witness :
  ∃ v', exec (run (λ _, NaN) 10 (copy_bridge None) false false false) (before copied) = Some (inr Completed, v') ∧
    (inSync (report v') = Some true ↔
     (∃ t, t ∈ [copy_target] ∧ supported (run_of (copy_bridge None) copy_source (inl "no catalog") (λ _, inr postgres) t) = true) ∧
     ∀ t, t ∈ [copy_target] → supported (run_of (copy_bridge None) copy_source (inl "no catalog") (λ _, inr postgres) t) = true →
       in_step (λ _, NaN) (copy_bridge None) copy_source (inl "no catalog") (λ _, inr postgres) [ann; bob] (λ _, [bob; ann]) t).
Proof.
  eapply (verification_is_exact (λ _, NaN) at_rest (copy_bridge None) copy_source eq_refl (inl "no catalog")
    (λ _, inr postgres)) with (ord := λ _, inr by_id) (order := by_id) (engine := postgres).
  all: try (by intros).
  - intros t _. by exists postgres.
  - intros t Ht _. apply list_elem_of_singleton in Ht as ->. exact copied_comparable.
  - intros t Ht _ _. apply list_elem_of_singleton in Ht as ->. exact copied_extras.
  - cbn. lia.
  - intros t _. cbn. lia.
  - exists [ann; bob]. split; [done|]. apply (read_from "s" [ann; bob] 0); [by intros w [? _]|apply Nat.le_0_l].
Defined.

(** ** What the report does not say *)

(** a row that changes faster than it is repaired is still wrong when it is looked
    at for the last time, and stays counted as fixed: the report says "in sync" *)
Example last_look_is_not_counted :
  verified None true true
    {| at_source := [person "1" "a"]; at_target := [];
       later := [([person "1" "b"], [person "1" "a"]); ([person "1" "c"], [person "1" "b"]);
                 ([person "1" "d"], [person "1" "c"])] |}
  = Some (Completed, Some true, [(1, 1, 0)], [person "1" "c"]).
Proof. vm_compute. reflexivity. Qed.

(** a value that cannot be cast fails the delivery of its row ([onError: fail]); a
    reconcile writes the row as it is, and finds it fixed *)
Example failed_cast_is_written :
  verified (Some [Cast "name" to_integer on_error_fail]) false true
    {| at_source := [person "1" "many"]; at_target := []; later := [] |}
  = Some (Completed, Some true, [(1, 1, 0)], [person "1" "many"]).
Proof. vm_compute. reflexivity. Qed.
