(* ===== verification/UrlGuard.v ===== *)
(** Where a delivery may go ([apps/api/src/common/url-guard.ts]): never to the
    metadata service of a cloud, and to no private network where the deployment says
    so. *)
From S2P Require Import Prelude JsText JsNumber JsInteger.

Local Open Scope Z_scope.

Definition METADATA_ADDRS : list string := ["169.254.169.254"; "fd00:ec2::254"; "100.100.100.200"].

Definition is_num (z : Z) (n : num) : bool := num_eq n (num_of_Z z).

Definition isPrivateV4 (ip : string) : bool :=
  match string_to_num <$> split_on "."%char ip with
  | [a; b; c; d] =>
      if existsb (λ n, negb (num_eq n n)) [a; b; c; d] then false else
      is_num 10 a || is_num 127 a || (is_num 169 a && is_num 254 b) ||
      (is_num 172 a && num_le (num_of_Z 16) b && num_le b (num_of_Z 31)) ||
      (is_num 192 a && is_num 168 b) || is_num 0 a
  | _ => false
  end.

Definition isPrivateV6 (ip : string) : bool :=
  let lower := toLowerCase ip in
  bool_decide (lower = "::1") || bool_decide (lower = "::") ||
  existsb (λ p, startsWith p lower)
    ["fe80:"; "fc"; "fd"; "::ffff:127."; "::ffff:10."; "::ffff:192.168."; "::ffff:169.254."].

(** an octet as [node:net] reads it: no leading zeros *)
Definition octet (s : string) : bool :=
  match chars s with
  | [] => false
  | c :: l =>
      forallb is_digit (c :: l) && (digits_value (c :: l) <? 256) && negb ((c =? "0")%char && match l with [] => false | _ => true end)
  end.

Definition isIPv4 (s : string) : bool :=
  match split_on "."%char s with [a; b; c; d] => octet a && octet b && octet c && octet d | _ => false end.

Definition MAPPED : string := "::ffff:".

Definition normalizeAddr (ip : string) : string :=
  let lower := toLowerCase ip in
  if startsWith MAPPED lower && isIPv4 (slice_from 7 lower) then slice_from 7 lower else lower.

Definition NOT_A_URL : string := "Destination is not a valid URL.".
Definition IS_METADATA : string := "Destination resolves to a cloud metadata endpoint, which is not allowed.".
Definition IS_PRIVATE (addr : string) : string :=
  "Destination resolves to a private address (" +:+ addr +:+
  "); this deployment only allows public destinations (SYNCLE_BLOCK_PRIVATE_DESTINATIONS).".

(** [hostname.replace(/^\[|\]$/g, '')] *)
Definition bare_host (host : string) : string :=
  let l := chars host in
  let l := match l with c :: r => if (c =? "[")%char then r else l | [] => [] end in
  of_chars (match reverse l with c :: r => if (c =? "]")%char then reverse r else l | [] => [] end).

Section guard.
(** the host name [new URL(url)] has; [None] where it throws *)
Variable url_host : string → option string.
(** is this text an IPv6 address, to [node:net]? *)
Variable is_v6 : string → bool.
(** the addresses a name resolves to; [None] where the lookup fails *)
Variable lookup : string → option (list string).
(** [runtimeConfig.blockPrivateDestinations] *)
Variable blockPrivate : bool.

(** may a delivery go to this address? *)
Definition refused (raw : string) : option string :=
  let addr := normalizeAddr raw in
  if bool_decide (addr ∈ METADATA_ADDRS) then Some IS_METADATA
  else if blockPrivate && (isPrivateV4 addr || isPrivateV6 addr) then Some (IS_PRIVATE addr)
  else None.

Fixpoint first_refused (addrs : list string) : option string :=
  match addrs with
  | [] => None
  | a :: addrs => match refused a with Some why => Some why | None => first_refused addrs end
  end.

Definition addresses (host : string) : option (list string) :=
  if isIPv4 host || is_v6 host then Some [host] else lookup host.

(** [Some why]: it throws *)
Definition assertAllowedDestination (rawUrl : string) : option string :=
  match url_host rawUrl with
  | None => Some NOT_A_URL
  | Some hostname =>
      match addresses (bare_host hostname) with
      | None => None
      | Some addrs => first_refused addrs
      end
  end.
End guard.

(** ** Networks *)

(** an IPv4 address, as it is written *)
Definition dotted (a b c d : N) : string := pretty a +:+ "." +:+ pretty b +:+ "." +:+ pretty c +:+ "." +:+ pretty d.

Definition ip4 (a b c d : N) : Z := Z.of_N a * 2 ^ 24 + Z.of_N b * 2 ^ 16 + Z.of_N c * 2 ^ 8 + Z.of_N d.

(** the networks that are not public, by their prefixes (address, bits) *)
Definition PRIVATE_NETS : list (Z * Z) :=
  [(ip4 10 0 0 0, 8); (ip4 127 0 0 0, 8); (ip4 169 254 0 0, 16); (ip4 172 16 0 0, 12); (ip4 192 168 0 0, 16); (ip4 0 0 0 0, 8)].

Definition in_net (ip : Z) (net : Z * Z) : bool := Z.shiftr ip (32 - net.2) =? Z.shiftr net.1 (32 - net.2).

Definition is_private (ip : Z) : bool := existsb (in_net ip) PRIVATE_NETS.

Definition byte (n : N) : Prop := (n < 256)%N.

(** ** Reading them *)

Lemma byte_all (P : N → bool) : forallb P (N.of_nat <$> List.seq 0 256) = true → ∀ n, byte n → P n = true.
Proof.
  intros Hall n Hn. rewrite forallb_forall in Hall. apply Hall, list_elem_of_In, list_elem_of_fmap.
  exists (N.to_nat n). split; [by rewrite N2Nat.id|]. apply elem_of_seq. unfold byte in Hn. lia.
Qed.

Lemma octet_pretty n : byte n → octet (pretty n) = true.
Proof. apply (byte_all (λ n : N, octet (pretty n))). vm_compute. reflexivity. Qed.

Lemma pretty_no_dot (n : N) : "."%char ∉ chars (pretty n).
Proof.
  destruct (pretty_spec n) as [(Hd & _) _]. rewrite Forall_forall in Hd. intros Hin. by specialize (Hd _ Hin).
Qed.

Lemma split_dotted a b c d : split_on "."%char (dotted a b c d) = [pretty a; pretty b; pretty c; pretty d].
Proof.
  rewrite (split_on_unique _ _ [chars (pretty a); chars (pretty b); chars (pretty c); chars (pretty d)]).
  - cbn. by rewrite !of_chars_chars.
  - done.
  - repeat constructor; apply pretty_no_dot.
  - unfold dotted. rewrite !chars_app. done.
Qed.

Lemma isIPv4_dotted a b c d : byte a → byte b → byte c → byte d → isIPv4 (dotted a b c d) = true.
Proof. intros. unfold isIPv4. by rewrite split_dotted, !octet_pretty. Qed.

Lemma number_of_byte n : byte n → string_to_num (pretty n) = num_of_Z (Z.of_N n).
Proof. intros Hn. apply string_to_num_pretty. unfold byte in Hn. lia. Qed.

Lemma byte_self n : byte n → num_eq (num_of_Z (Z.of_N n)) (num_of_Z (Z.of_N n)) = true.
Proof. apply (byte_all (λ n, num_eq (num_of_Z (Z.of_N n)) (num_of_Z (Z.of_N n)))). vm_compute. reflexivity. Qed.

Lemma byte_zero n : byte n → is_num 0 (num_of_Z (Z.of_N n)) = (Z.of_N n =? 0).
Proof.
  intros Hn. apply eqb_prop. revert n Hn.
  apply (byte_all (λ n, Bool.eqb (is_num 0 (num_of_Z (Z.of_N n))) (Z.of_N n =? 0))). vm_compute. reflexivity.
Qed.

Lemma byte_num z n : (0 < z < 256) → byte n → is_num z (num_of_Z (Z.of_N n)) = (Z.of_N n =? z).
Proof.
  intros Hz Hn. unfold is_num. destruct (Z.eqb_spec (Z.of_N n) z) as [<-|Hne]; [by apply byte_self|].
  apply not_true_is_false. intros Heq. apply Hne, num_eq_Z; [lia|lia|done].
Qed.

Lemma byte_between n : byte n →
  num_le (num_of_Z 16) (num_of_Z (Z.of_N n)) && num_le (num_of_Z (Z.of_N n)) (num_of_Z 31) = (Z.of_N n / 16 =? 1).
Proof.
  intros Hn. apply eqb_prop. revert n Hn.
  apply (byte_all (λ n, Bool.eqb (num_le (num_of_Z 16) (num_of_Z (Z.of_N n)) && num_le (num_of_Z (Z.of_N n)) (num_of_Z 31))
                                 (Z.of_N n / 16 =? 1))). vm_compute. reflexivity.
Qed.

(** ** Networks, by their prefixes *)

Lemma prefix8 a b c d : byte b → byte c → byte d → Z.shiftr (ip4 a b c d) 24 = Z.of_N a.
Proof. unfold byte, ip4. intros. rewrite Z.shiftr_div_pow2 by done. Z.to_euclidean_division_equations. lia. Qed.

Lemma prefix12 a b c d : byte b → byte c → byte d → Z.shiftr (ip4 a b c d) 20 = Z.of_N a * 16 + Z.of_N b / 16.
Proof. unfold byte, ip4. intros. rewrite Z.shiftr_div_pow2 by done. Z.to_euclidean_division_equations. lia. Qed.

Lemma prefix16 a b c d : byte b → byte c → byte d → Z.shiftr (ip4 a b c d) 16 = Z.of_N a * 256 + Z.of_N b.
Proof. unfold byte, ip4. intros. rewrite Z.shiftr_div_pow2 by done. Z.to_euclidean_division_equations. lia. Qed.

Lemma isPrivateV4_spec a b c d :
  byte a → byte b → byte c → byte d → isPrivateV4 (dotted a b c d) = is_private (ip4 a b c d).
Proof.
  intros Ha Hb Hc Hd. unfold isPrivateV4. rewrite split_dotted, !fmap_cons, fmap_nil, !number_of_byte by done.
  cbn [existsb]. rewrite !byte_self by done. cbn [negb orb].
  rewrite !(byte_num 10 a), !(byte_num 127 a), !(byte_num 169 a), !(byte_num 172 a), !(byte_num 192 a), !(byte_num 254 b),
    !(byte_num 168 b), byte_zero, <- andb_assoc, byte_between by (done || lia).
  unfold is_private, in_net, PRIVATE_NETS. cbn [existsb fst snd].
  change (32 - 8) with 24. change (32 - 16) with 16. change (32 - 12) with 20.
  rewrite prefix8, prefix12, prefix16 by done.
  change (Z.shiftr (ip4 10 0 0 0) 24) with 10. change (Z.shiftr (ip4 127 0 0 0) 24) with 127.
  change (Z.shiftr (ip4 169 254 0 0) 16) with (169 * 256 + 254). change (Z.shiftr (ip4 172 16 0 0) 20) with (172 * 16 + 1).
  change (Z.shiftr (ip4 192 168 0 0) 16) with (192 * 256 + 168). change (Z.shiftr (ip4 0 0 0 0) 24) with 0.
  unfold byte in *. assert (0 <= Z.of_N b / 16 < 16) by (Z.to_euclidean_division_equations; lia).
  apply eq_true_iff_eq. rewrite !orb_true_iff, !andb_true_iff, !Z.eqb_eq. lia.
Qed.

(** ** What an address is taken for *)

Definition number_char (c : ascii) : bool := is_digit c || (c =? ".")%char.

Lemma dotted_chars a b c d : forallb number_char (chars (dotted a b c d)) = true.
Proof.
  assert (Hd : ∀ n : N, forallb number_char (chars (pretty n)) = true).
  { intros n. destruct (pretty_spec n) as [(Hd & _) _]. apply forallb_forall. intros x Hx%list_elem_of_In.
    rewrite Forall_forall in Hd. unfold number_char. by rewrite (Hd x Hx). }
  unfold dotted. rewrite !chars_app, !forallb_app, !Hd. done.
Qed.

Lemma dotted_head a b c d : ∃ x l, chars (dotted a b c d) = x :: l ∧ is_digit x = true.
Proof.
  destruct (pretty_spec a) as [(Hd & _ & Hne) _]. unfold dotted. rewrite chars_app.
  destruct (chars (pretty a)) as [|x l]; [done|]. apply Forall_cons in Hd as [Hx _]. by eexists x, _.
Qed.

Lemma lower_number x : number_char x = true → lower_char x = x.
Proof. by destruct x as [[] [] [] [] [] [] [] []]. Qed.

Lemma toLowerCase_app s t : toLowerCase (s +:+ t) = toLowerCase s +:+ toLowerCase t.
Proof. apply chars_inj. unfold toLowerCase, map_chars. by rewrite !chars_app, !chars_of_chars, fmap_app. Qed.

Lemma toLowerCase_dotted a b c d : toLowerCase (dotted a b c d) = dotted a b c d.
Proof.
  apply chars_inj. unfold toLowerCase, map_chars. rewrite chars_of_chars. pose proof (dotted_chars a b c d) as Hn.
  induction (chars (dotted a b c d)) as [|x l IH]; [done|]. cbn [forallb] in Hn. apply andb_true_iff in Hn as [Hx Hl].
  rewrite fmap_cons. f_equal; [by apply lower_number|by apply IH].
Qed.

Lemma dotted_prefix x p a b c d : is_digit x = false → startsWith (String x p) (dotted a b c d) = false.
Proof.
  intros Hx. unfold startsWith. destruct (dotted_head a b c d) as (y & l & -> & Hy). cbn.
  destruct (Ascii.eqb_spec x y) as [->|]; [congruence|done].
Qed.

Lemma normalizeAddr_dotted a b c d : normalizeAddr (dotted a b c d) = dotted a b c d.
Proof. unfold normalizeAddr, MAPPED. by rewrite toLowerCase_dotted, dotted_prefix. Qed.

Lemma normalizeAddr_mapped a b c d : byte a → byte b → byte c → byte d →
  normalizeAddr (MAPPED +:+ dotted a b c d) = dotted a b c d.
Proof.
  intros. unfold normalizeAddr. rewrite toLowerCase_app, toLowerCase_dotted.
  change (toLowerCase MAPPED) with MAPPED.
  replace (startsWith MAPPED (MAPPED +:+ dotted a b c d)) with true by (symmetry; apply startsWith_spec; by eexists).
  change 7%nat with (str_length MAPPED). by rewrite slice_from_app, isIPv4_dotted.
Qed.

Lemma isPrivateV6_dotted a b c d : isPrivateV6 (dotted a b c d) = false.
Proof.
  unfold isPrivateV6. rewrite toLowerCase_dotted. cbn [existsb]. rewrite !dotted_prefix by done.
  destruct (dotted_head a b c d) as (y & l & Hy & Hd).
  rewrite !bool_decide_eq_false_2; [done| |]; intros E; rewrite E in Hy; injection Hy as <- _; done.
Qed.

Lemma dotted_inj a b c d a' b' c' d' : dotted a b c d = dotted a' b' c' d' → a = a' ∧ b = b' ∧ c = c' ∧ d = d'.
Proof.
  intros E. pose proof (split_dotted a b c d) as H1. rewrite E, split_dotted in H1. injection H1 as Ha Hb Hc Hd.
  repeat split; by apply (inj pretty).
Qed.

(** ** The guard *)

Definition METADATA_IPS : list Z := [ip4 169 254 169 254; ip4 100 100 100 200].

Definition allowed (blockPrivate : bool) (ip : Z) : Prop :=
  ip ∉ METADATA_IPS ∧ (blockPrivate = true → is_private ip = false).

(** the two ways an IPv4 address is spelled: by itself, and as an IPv6 address in
    dotted form *)
Inductive spelled : Z → string → Prop :=
| spelled_dotted a b c d : byte a → byte b → byte c → byte d → spelled (ip4 a b c d) (dotted a b c d)
| spelled_mapped a b c d : byte a → byte b → byte c → byte d → spelled (ip4 a b c d) (MAPPED +:+ dotted a b c d).

Lemma metadata_dotted a b c d : byte a → byte b → byte c → byte d →
  dotted a b c d ∈ METADATA_ADDRS ↔ ip4 a b c d ∈ METADATA_IPS.
Proof.
  intros Ha Hb Hc Hd. unfold METADATA_ADDRS, METADATA_IPS. rewrite !elem_of_cons.
  change "169.254.169.254" with (dotted 169 254 169 254). change "100.100.100.200" with (dotted 100 100 100 200).
  assert (Hv6 : dotted a b c d ≠ "fd00:ec2::254").
  { destruct (dotted_head a b c d) as (y & l & Hy & Hdig). intros E. rewrite E in Hy. injection Hy as <- _. done. }
  assert (Heq : ∀ a' b' c' d', byte a' → byte b' → byte c' → byte d' →
            dotted a b c d = dotted a' b' c' d' ↔ ip4 a b c d = ip4 a' b' c' d').
  { intros a' b' c' d' Ha' Hb' Hc' Hd'. split.
    - intros (-> & -> & -> & ->)%dotted_inj. done.
    - unfold ip4, byte in *. intros E. repeat f_equal; lia. }
  rewrite !Heq by done. pose proof (not_elem_of_nil (dotted a b c d)). pose proof (not_elem_of_nil (ip4 a b c d)). tauto.
Qed.

Lemma refused_spelled block ip addr : spelled ip addr → refused block addr = None ↔ allowed block ip.
Proof.
  intros Hs. assert (∃ a b c d, byte a ∧ byte b ∧ byte c ∧ byte d ∧ ip = ip4 a b c d ∧ normalizeAddr addr = dotted a b c d)
    as (a & b & c & d & Ha & Hb & Hc & Hd & -> & Hn).
  { destruct Hs as [a b c d|a b c d]; exists a, b, c, d; split_and!; try done;
      [apply normalizeAddr_dotted|by apply normalizeAddr_mapped]. }
  unfold refused, allowed. rewrite Hn, isPrivateV4_spec, isPrivateV6_dotted, orb_false_r by done.
  rewrite <- metadata_dotted by done. case_bool_decide; [naive_solver|].
  destruct block, (is_private _); cbn; naive_solver.
Qed.

Lemma first_refused_none block addrs : first_refused block addrs = None ↔ Forall (λ a, refused block a = None) addrs.
Proof.
  induction addrs as [|a addrs IH]; cbn; [done|]. rewrite Forall_cons, <- IH. destruct (refused block a); naive_solver.
Qed.

(** C29. A delivery whose host resolves to IPv4 addresses, alone or as IPv6 addresses
    in dotted form, is let through exactly when none of them is a metadata service
    nor, where private networks are blocked, in one of them. *)
Theorem guard_is_exact url_host is_v6 lookup blockPrivate url host addrs ips :
  url_host url = Some host → addresses is_v6 lookup (bare_host host) = Some addrs → Forall2 spelled ips addrs →
  assertAllowedDestination url_host is_v6 lookup blockPrivate url = None ↔ Forall (allowed blockPrivate) ips.
Proof.
  intros Hu Ha Hs. unfold assertAllowedDestination. rewrite Hu, Ha, first_refused_none. clear Ha.
  induction Hs as [|ip addr ips addrs H1 _ IH]; [done|]. by rewrite !Forall_cons, IH, (refused_spelled _ ip).
Qed.

(** ** Two hosts *)

(** a name with a public address and one behind it *)
Definition sample_lookup (host : string) : option (list string) :=
  if bool_decide (host = "example.org") then Some ["93.184.216.34"; "::ffff:10.0.0.5"] else None.

Lemma guard_is_exact_witness :
  assertAllowedDestination (λ _, Some "example.org") (λ _, false) sample_lookup true "https://example.org/in" = None ↔
  Forall (allowed true) [ip4 93 184 216 34; ip4 10 0 0 5].
Proof.
  apply (guard_is_exact _ _ _ _ _ "example.org" ["93.184.216.34"; "::ffff:10.0.0.5"]); [done|done|].
  constructor; [|constructor; [|constructor]].
  - change "93.184.216.34" with (dotted 93 184 216 34). by constructor.
  - change "::ffff:10.0.0.5" with (MAPPED +:+ dotted 10 0 0 5). by constructor.
Defined.

(** [new URL] writes the IPv4 part of an IPv6 address in hexadecimal, whichever way it
    was given: the metadata service is reached as [ffff:a9fe:a9fe], and neither tier of
    the guard knows it *)
Example hex_mapped_metadata_passes block :
  assertAllowedDestination (λ _, Some "[::ffff:a9fe:a9fe]") (startsWith "::") sample_lookup block
    "http://[::ffff:169.254.169.254]/latest/meta-data/" = None.
Proof. destruct block; vm_compute; reflexivity. Qed.
