(* ===== verification/Http.v ===== *)
(** One delivery over HTTP, with its retries
    ([apps/api/src/bridges/delivery.service.ts]). The network, the clock's sleep and
    chance are outside ([Network]); [tried] keeps what became of each request. *)
From S2P Require Import Prelude JsText JsNumber JsInteger JsDate JsValue JsJson.
From S2P Require Import BridgeConfig TypeMap Bridge Async CdcState UrlGuard.

Local Open Scope async_scope.

(** ** What is outside *)

Record Cause := { ccode : option string; caddress : option string; cport : option Z; cmessage : option string }.

(** what [fetch] throws *)
Inductive FetchError :=
| TimedOut
| NotAnError (text : string)
| Failure (message : string) (cause : option Cause).

(** [chunks]: what the body is read in; [None]: the reading fails there *)
Record HttpResponse := {
  status : Z;
  statusText : string;
  retryAfter : option string;
  chunks : list (option string)
}.

Record HttpRequest := { rurl : string; rmethod : http_method; rheaders : list (string * string); rbody : string; rtimeout : Z }.

Class Network (W : Type) := {
  fetch : HttpRequest → W → (FetchError + HttpResponse) * W;
  lookup_host : string → W → option (list string);
  jobAborted : W → bool;
  random : W → num * W;
  sleep : num → W → W;
  url_host : string → option string;
  is_v6 : string → bool;
  blockPrivate : bool
}.

(** ** Headers *)

(** a property of an object: one that is there keeps its place *)
Fixpoint header_set (k v : string) (h : list (string * string)) : list (string * string) :=
  match h with
  | [] => [(k, v)]
  | (k', v') :: h => if decide (k' = k) then (k, v) :: h else (k', v') :: header_set k v h
  end.

Definition present (s : string) : bool := negb (bool_decide (s = EmptyString)).

Definition buildHeaders (d : HttpDestination) (idempotencyKey : option string) : list (string * string) :=
  let h := foldl (λ h '(k, v), header_set k v h) [("content-type", "application/json")] (default [] (headers d)) in
  let h := match auth d with
           | Bearer token => if present token then header_set "authorization" ("Bearer " +:+ token) h else h
           | HeaderAuth name value => if present value then header_set name value h else h
           | NoAuth => h
           end in
  match idempotencyKey with
  | Some k => if present k && idempotency d then header_set "idempotency-key" k h else h
  | None => h
  end.

Definition has_header (k : string) (h : list (string * string)) : bool := existsb (λ x, bool_decide (x.1 = k)) h.

Definition redactedHeaders (d : HttpDestination) : list (string * string) :=
  let h := buildHeaders d None in
  match auth d with
  | Bearer _ => if has_header "authorization" h then header_set "authorization" "Bearer ********" h else h
  | HeaderAuth name _ => if has_header name h then header_set name "********" h else h
  | NoAuth => h
  end.

(** ** Answers *)

Definition RETRYABLE_STATUS : list Z := [408; 425; 429; 500; 502; 503; 504]%Z.
Definition RESPONSE_LIMIT : nat := 16384.
Definition BODY_READ_LIMIT : nat := 65536.

(** the body as far as it is read: it stops at the limit, and at a chunk that fails *)
Fixpoint read_chunks (limit : nat) (cs : list (option string)) (out : string) : string :=
  if limit <=? str_length out then out else
  match cs with
  | [] | None :: _ => out
  | Some c :: cs => read_chunks limit cs (out +:+ c)
  end.

Definition readBodyCapped (r : HttpResponse) : string :=
  slice 0 BODY_READ_LIMIT (read_chunks BODY_READ_LIMIT (chunks r) EmptyString).

Definition describeFetchError (e : FetchError) : string :=
  match e with
  | TimedOut => "Request timed out"
  | NotAnError text => text
  | Failure message None => message
  | Failure message (Some c) =>
      let where_ := match caddress c with
                    | Some a => if present a then " " +:+ a +:+ match cport c with
                                                                 | Some p => if (p =? 0)%Z then EmptyString else ":" +:+ Z_to_string p
                                                                 | None => EmptyString
                                                                 end
                                else EmptyString
                    | None => EmptyString
                    end in
      let detail := match ccode c with
                    | Some code => if present code then code +:+ where_ else default EmptyString (cmessage c)
                    | None => default EmptyString (cmessage c)
                    end in
      if present detail then message +:+ " (" +:+ trim detail +:+ ")" else message
  end.

Definition is_ok (st : Z) : bool := (200 <=? st)%Z && (st <=? 299)%Z.
Definition is_redirect (st : Z) : bool := (300 <=? st)%Z && (st <? 400)%Z.
Definition is_retryable (st : Z) : bool := bool_decide (st ∈ RETRYABLE_STATUS).

(** what became of one attempt *)
Inductive Tried := Refused (why : string) | Unreached (why : string) | Redirected (st : Z) | Answered (st : Z).

(** may the next attempt do better? *)
Definition transient (t : Tried) : bool :=
  match t with
  | Refused _ | Unreached _ => true
  | Redirected _ => false
  | Answered st => negb (is_ok st) && is_retryable st
  end.

Definition delivered_by (t : Tried) : bool := match t with Answered st => is_ok st | _ => false end.

(** the last failure, for the outcome *)
Record Last := { lstatus : option Z; lerror : option string; lresponse : option string }.

Record HttpOutcome := {
  hsuccess : bool;
  hstatus : option Z;
  hattempts : Z;
  herror : option string;
  hrequestBody : string;
  hresponseBody : option string;
  hbodyTruncated : bool
}.

Definition num_min (a b : num) : num := if num_lt a b then a else b.
Definition num_max (a b : num) : num := if num_lt a b then b else a.

Section http.
Context `{JsHost} `{JsPrint} {W : Type} `{!Network W}.

Record NetState := { net : W; tried : list Tried }.

Abbreviation Send A := (@async NetState A).

Definition with_net (s : NetState) (w : W) : NetState := {| net := w; tried := tried s |}.
Definition met (t : Tried) : Send unit := modify (λ s, {| net := net s; tried := tried s ++ [t] |}).

Context (d : HttpDestination) (cfg : BridgeDeliveryConfig) (idempotencyKey : option string) (payload_ : string).

(** the pause behind an attempt, before chance is added *)
Definition backoff_delay (attempt : nat) (after : option string) : num :=
  let most := num_of_Z (backoffMaxMs cfg) in
  let delay := num_of_Z (Z.min (backoffMaxMs cfg) (backoffMs cfg * 2 ^ (Z.of_nat attempt - 1))) in
  match after with
  | Some text =>
      if present text then
        let ms := num_mul (string_to_num text) (num_of_Z 1000) in
        if is_finite ms then num_max delay (num_min ms most) else delay
      else delay
  | None => delay
  end.

Definition A_FIFTH : num := num_of_decimal 2 (-1).

Definition backoff (attempt : nat) (after : option string) : Send unit :=
  let delay := backoff_delay attempt after in
  modify (λ s, let (x, w) := random (net s) in
               with_net s (sleep (num_add delay (num_mul (num_mul delay A_FIFTH) x)) w)).

Definition request : HttpRequest :=
  {| rurl := url d; rmethod := method d; rheaders := buildHeaders d idempotencyKey; rbody := payload_; rtimeout := timeoutMs cfg |}.

Definition last_attempt (attempt : nat) : bool := (maxAttempts cfg <=? Z.of_nat attempt)%Z.

Inductive Step := Sent (st : Z) (response : string) | Stop (l : Last) | Again (l : Last).

(** an attempt that threw: a canceled job's error goes on, everything else may be tried again *)
Definition unreached (attempt : nat) (why : string) (l : Last) : Send Step :=
  let* stopped := read (λ s, jobAborted (net s)) in
  if stopped : bool then Throw why else
  let l := {| lstatus := None; lerror := Some why; lresponse := lresponse l |} in
  if last_attempt attempt then Ret (Stop l) else backoff attempt None ;; Ret (Again l).

Definition REDIRECT (st : Z) : string :=
  "HTTP " +:+ Z_to_string st +:+ ": redirects are not followed — point the destination at the final URL".

Definition answered (attempt : nat) (r : HttpResponse) (l : Last) : Send Step :=
  let st := status r in
  if is_redirect st then
    met (Redirected st) ;;
    Ret (Stop {| lstatus := Some st; lerror := Some (REDIRECT st); lresponse := lresponse l |})
  else
    met (Answered st) ;;
    let text := slice 0 RESPONSE_LIMIT (readBodyCapped r) in
    if is_ok st then Ret (Sent st text) else
    let l := {| lstatus := Some st; lerror := Some (trim ("HTTP " +:+ Z_to_string st +:+ " " +:+ statusText r));
                lresponse := Some text |} in
    if is_retryable st && negb (last_attempt attempt)
    then backoff attempt (retryAfter r) ;; Ret (Again l)
    else Ret (Stop l).

Definition one_attempt (attempt : nat) (l : Last) : Send Step :=
  let* refused := read (λ s, assertAllowedDestination url_host is_v6 (λ h, lookup_host h (net s)) blockPrivate (url d)) in
  match refused with
  | Some why => met (Refused why) ;; unreached attempt why l
  | None =>
      let* r := atomically (λ s, let (r, w) := fetch request (net s) in (r, with_net s w)) in
      match r with
      | inl e => met (Unreached (describeFetchError e)) ;; unreached attempt (describeFetchError e) l
      | inr r => answered attempt r l
      end
  end.

Definition requestBody : string := slice 0 RESPONSE_LIMIT payload_.
Definition bodyTruncated : bool := RESPONSE_LIMIT <? str_length payload_.

Definition failed (l : Last) : HttpOutcome :=
  {| hsuccess := false; hstatus := lstatus l; hattempts := maxAttempts cfg;
     herror := Some (default "Delivery failed" (lerror l)); hrequestBody := requestBody;
     hresponseBody := lresponse l; hbodyTruncated := bodyTruncated |}.

Definition sent (attempt : nat) (st : Z) (response : string) : HttpOutcome :=
  {| hsuccess := true; hstatus := Some st; hattempts := Z.of_nat attempt; herror := None; hrequestBody := requestBody;
     hresponseBody := if present response then Some response else None; hbodyTruncated := bodyTruncated |}.

Definition CANCELED : string := "Job canceled".

(** [n]: the attempts that are left *)
Fixpoint attempts (n attempt : nat) (l : Last) : Send HttpOutcome :=
  match n with
  | 0 => Ret (failed l)
  | S n =>
      let* stopped := read (λ s, jobAborted (net s)) in
      if stopped : bool then Throw CANCELED else
      let* step := one_attempt attempt l in
      match step with
      | Sent st response => Ret (sent attempt st response)
      | Stop l => Ret (failed l)
      | Again l => attempts n (S attempt) l
      end
  end.

Definition no_failure : Last := {| lstatus := None; lerror := None; lresponse := None |}.

(** what [send] does with a body JSON could write *)
Definition send_payload : Send HttpOutcome := attempts (Z.to_nat (maxAttempts cfg)) 1 no_failure.
End http.

Section send.
Context `{JsHost} `{JsPrint} {W : Type} `{!Network W}.

(** a body that cannot be serialized throws before anything is sent *)
Definition send (body : jsval) (d : HttpDestination) (cfg : BridgeDeliveryConfig) (idempotencyKey : option string)
  : @async (NetState (W:=W)) HttpOutcome :=
  match stringify (if is_nil body then VNull else body) with
  | JText payload => send_payload d cfg idempotencyKey payload
  | _ => Throw "Do not know how to serialize a value"
  end.
End send.
