(* ===== verification/HttpEnds.v ===== *)
(** A delivery over HTTP ends, within its attempts: what its outcome says is what
    became of its requests. *)
From S2P Require Import Prelude JsText JsNumber JsInteger JsDate JsValue JsJson.
From S2P Require Import BridgeConfig TypeMap Bridge Async CdcState UrlGuard Http.

Local Open Scope async_scope.

Section ends.
Context `{JsHost} `{JsPrint} {W : Type} `{!Network W} (d : HttpDestination) (cfg : BridgeDeliveryConfig)
  (key : option string) (payload_ : string).

Abbreviation State := (NetState (W:=W)).

Lemma exec_backoff {A} attempt after (h : unit → @async State A) s :
  ∃ w, exec (bind (backoff cfg attempt after) h) s = exec (h tt) (with_net s w).
Proof. unfold backoff. rewrite exec_bind_modify. destruct (random (net s)) as [x w]. by eexists. Qed.

(** what an attempt comes to, by what became of its request *)
Definition came_to (attempt : nat) (t : Tried) (s : State) (r : string + Step) : Prop :=
  match r with
  | inl _ => jobAborted (net s) = true ∧ delivered_by t = false
  | inr (Sent st _) => t = Answered st ∧ is_ok st = true
  | inr (Stop _) => delivered_by t = false ∧ (last_attempt cfg attempt = true ∨ transient t = false)
  | inr (Again _) => delivered_by t = false ∧ transient t = true ∧ last_attempt cfg attempt = false
  end.

Definition one_more (attempt : nat) (s : State) (m : @async State Step) : Prop :=
  ∃ r s' t, exec m s = Some (r, s') ∧ tried s' = tried s ++ [t] ∧ came_to attempt t s' r.

Lemma unreached_comes attempt why l t s :
  delivered_by t = false → transient t = true → one_more attempt s (met t ;; unreached cfg attempt why l).
Proof.
  intros Hd Ht. unfold one_more, met. rewrite exec_bind_modify. set (s1 := {| net := net s; tried := _ |}).
  unfold unreached. rewrite exec_bind_read. destruct (jobAborted (net s1)) eqn:Ha.
  { exists (inl why), s1, t. done. }
  destruct (last_attempt cfg attempt) eqn:Hlast.
  { eexists (inr (Stop _)), s1, t. split_and!; [done..|]. split; [done|by left]. }
  edestruct (exec_backoff (A := Step)) as [w ->]. eexists (inr (Again _)), _, t. by split_and!.
Qed.

Lemma not_ok_redirect st : is_redirect st = true → is_ok st = false.
Proof. unfold is_redirect, is_ok. lia. Qed.

Lemma answered_comes attempt r l s : one_more attempt s (answered cfg attempt r l).
Proof.
  unfold one_more, answered. destruct (is_redirect (status r)) eqn:Hr.
  { unfold met. rewrite exec_bind_modify. eexists (inr (Stop _)), _, (Redirected (status r)). split_and!; [done..|]. split; [done|by right]. }
  unfold met. rewrite exec_bind_modify. destruct (is_ok (status r)) eqn:Hok.
  { eexists (inr (Sent _ _)), _, (Answered (status r)). by split_and!. }
  destruct (is_retryable (status r)) eqn:Hre, (last_attempt cfg attempt) eqn:Hlast; cbn [andb negb].
  2: { edestruct (exec_backoff (A := Step)) as [w ->]. eexists (inr (Again _)), _, (Answered (status r)).
       split_and!; [done..|]. split_and!; [done| |done]. cbn. by rewrite Hok, Hre. }
  all: eexists (inr (Stop _)), _, (Answered (status r)); split_and!; [done..|]; split; [done|].
  - by left.
  - by left.
  - right. cbn. by rewrite Hok, Hre.
Qed.

Lemma one_attempt_comes attempt l s : one_more attempt s (one_attempt d cfg key payload_ attempt l).
Proof.
  unfold one_attempt, one_more. rewrite exec_bind_read.
  destruct (assertAllowedDestination _ _ _ _ _) as [why|]; [by apply unreached_comes|].
  rewrite exec_bind_atomically. destruct (fetch _ (net s)) as [[e|r] w]; cbn [fst snd].
  - destruct (unreached_comes attempt (describeFetchError e) l (Unreached (describeFetchError e)) (with_net s w))
      as (r & s' & t & ? & ? & ?); [done..|]. by exists r, s', t.
  - destruct (answered_comes attempt r l (with_net s w)) as (r' & s' & t & ? & ? & ?). by exists r', s', t.
Qed.

(** how a delivery of at most [n] more attempts ends, by what became of them *)
Definition ends (n : nat) (l : list Tried) (s : State) (first : nat) (r : string + HttpOutcome) : Prop :=
  List.length l <= n ∧ (∀ i t, l !! i = Some t → S i < List.length l → transient t = true) ∧
  match r with
  | inl _ => jobAborted (net s) = true
  | inr o =>
      if hsuccess o then ∃ t, last l = Some t ∧ delivered_by t = true ∧ hattempts o = Z.of_nat (first + List.length l) - 1
      else Forall (λ t, delivered_by t = false) l ∧ (List.length l = n ∨ ∃ t, last l = Some t ∧ transient t = false)
  end%Z.

Lemma attempts_end n attempt l s :
  Z.to_nat (maxAttempts cfg) = attempt + n - 1 → 1 <= attempt →
  ∃ r s' ts, exec (attempts d cfg key payload_ n attempt l) s = Some (r, s') ∧ tried s' = tried s ++ ts ∧ ends n ts s' attempt r.
Proof.
  revert attempt l s. induction n as [|n IH]; intros attempt l s Hmax Hat; cbn [attempts].
  { eexists (inr _), s, []. rewrite app_nil_r. split_and!; [done..|]. split_and!; [done|by intros ? ?|]. split; [constructor|by left]. }
  rewrite exec_bind_read. destruct (jobAborted (net s)) eqn:Ha.
  { eexists (inl _), s, []. rewrite app_nil_r. split_and!; [done..|]. split_and!; [cbn; lia|by intros ? ?|done]. }
  rewrite exec_bind. destruct (one_attempt_comes attempt l s) as (r & s1 & t & -> & Ht & Hcame).
  assert (Hone : ∀ i t', [t] !! i = Some t' → S i < List.length [t] → transient t' = true).
  { intros i t' Hi Hl. cbn in Hl. lia. }
  destruct r as [e|[st resp|l'|l']]; cbn [exec].
  - eexists (inl _), s1, [t]. split_and!; [done..|]. split_and!; [cbn; lia|done|by apply Hcame].
  - destruct Hcame as [-> Hok]. eexists (inr _), s1, [_]. split_and!; [done..|]. split_and!; [cbn; lia|done|].
    exists (Answered st). split_and!; [done|done|]. cbn. lia.
  - destruct Hcame as [Hd Hlast]. eexists (inr _), s1, [t]. split_and!; [done..|]. split_and!; [cbn; lia|done|].
    split; [by repeat constructor|]. destruct Hlast as [Hlast|Htr]; [left|right; by exists t].
    unfold last_attempt in Hlast. cbn. lia.
  - destruct Hcame as (Hd & Htr & Hlast). destruct (IH (S attempt) l' s1) as (r & s2 & ts & -> & Hts & Hlen & Hall & Hr); [lia..|].
    exists r, s2, (t :: ts). rewrite Hts, Ht, <- app_assoc. split_and!; [done..|]. split_and!; [cbn; lia| |].
    + intros [|i] t' Hi Hl; [by injection Hi as <-|]. apply (Hall i t' Hi). cbn in Hl. lia.
    + destruct r as [e|o]; [done|]. destruct (hsuccess o).
      * destruct Hr as (t' & Hl' & Hd' & Ho). exists t'. split_and!; [|done|cbn; lia]. by rewrite last_cons, Hl'.
      * destruct Hr as [Hf Hend]. split; [by constructor|]. destruct Hend as [Hall'|(t' & Hl' & Hd')]; [left; cbn; lia|].
        right. exists t'. split; [|done]. by rewrite last_cons, Hl'.
Qed.

(** whatever becomes of it, an outcome holds the body that was sent, cut at the limit,
    and says if it was cut *)
Definition captures (o : HttpOutcome) : Prop :=
  hrequestBody o = requestBody payload_ ∧ hbodyTruncated o = bodyTruncated payload_.

Lemma attempts_capture n attempt l s o s' :
  exec (attempts d cfg key payload_ n attempt l) s = Some (inr o, s') → captures o.
Proof.
  revert attempt l s. induction n as [|n IH]; intros attempt l s; cbn [attempts].
  { by intros [= <- _]. }
  rewrite exec_bind_read. destruct (jobAborted (net s)); [done|]. rewrite exec_bind.
  destruct (exec _ s) as [[[e|[st resp|l'|l']] s1]|]; try done.
  - by intros [= <- _].
  - by intros [= <- _].
  - apply IH.
Qed.
End ends.

Section claim.
Context `{JsHost} `{JsPrint} {W : Type} `{!Network W}.

(** C28. A delivery over HTTP always ends, after at most its attempts. A body JSON can
    write is sent: only what may pass is tried again; the delivery succeeds exactly when
    its last request was answered with success, no request before that was; its outcome
    captures the JSON text that was sent, cut at the limit and marked when it is cut; and
    it throws only when the job is canceled. A body JSON cannot write throws before
    anything is sent. *)
Theorem http_delivery_ends body d cfg key s :
  ∃ r s' ts, exec (send body d cfg key) s = Some (r, s') ∧ tried s' = tried s ++ ts ∧
    match stringify (if is_nil body then VNull else body) with
    | JText text =>
        ends (Z.to_nat (maxAttempts cfg)) ts s' 1 r ∧
        (∀ o, r = inr o → hrequestBody o = slice 0 RESPONSE_LIMIT text ∧
                          hbodyTruncated o = (RESPONSE_LIMIT <? str_length text))
    | _ => s' = s ∧ ∃ e, r = inl e
    end.
Proof.
  unfold send. destruct (stringify _) as [text| |].
  { destruct (attempts_end d cfg key text (Z.to_nat (maxAttempts cfg)) 1 no_failure s)
      as (r & s' & ts & Hx & Ht & He); [lia..|].
    exists r, s', ts. split_and!; [done..|]. intros o ->.
    exact (attempts_capture d cfg key text _ _ _ _ _ _ Hx). }
  all: exists (inl "Do not know how to serialize a value"), s, []; rewrite app_nil_r; split_and!; try done; by eexists.
Qed.
End claim.

(** JSON has no text of a big integer. A body that holds one throws though nothing was
    canceled, where the delivery is said to throw only then *)
Example unserializable_body_throws `{JsHost} `{JsPrint} {W} `{!Network W} d cfg key s :
  exec (send (VObj [("id", VBig 1)]) d cfg key) s = Some (inl "Do not know how to serialize a value", s).
Proof. done. Qed.

(** a content type set for a destination, in its usual spelling, does not replace the
    default one: both are sent, and [fetch] joins them into one header *)
Example content_type_is_sent_twice auth_ idem :
  auth_ = NoAuth →
  buildHeaders {| url := "https://example.org"; method := POST; headers := Some [("Content-Type", "application/xml")];
                  auth := auth_; idempotency := idem |} None
  = [("content-type", "application/json"); ("Content-Type", "application/xml")].
Proof. by intros ->. Qed.
