(* ===== verification/BridgeSink.v ===== *)
(** The one way rows are delivered, whatever runs a bridge
    ([apps/api/src/bridges/bridge-sink.service.ts]): they are shaped, and written to
    the databases of the bridge or rendered and sent to its endpoint. *)
From S2P Require Import Prelude JsText JsNumber JsInteger JsDate JsValue JsJson JsBytes.
From S2P Require Import ColumnTransforms RedisTarget BridgeConfig TypeMap Bridge ValueMap RowCompare.
From S2P Require Import Async CdcState TableReader SinkRows DbSink Shaping UrlGuard Http.
From S2P Require Template.

Local Open Scope async_scope.

Definition op_name (o : CdcOperation) : string :=
  match o with op_insert => "insert" | op_update => "update" | op_delete => "delete" | op_truncate => "truncate" end.

Definition first_errors (errors : list string) : string :=
  join "; " (take 5 errors) +:+
  (if 5 <? List.length errors then "; and " +:+ pretty (List.length errors - 5) +:+ " more" else EmptyString).

(** a delivery that was never attempted, because the rows could not be shaped *)
Definition failedBeforeSending (errors : list string) : DeliveryOutcome :=
  {| success := false; oattempts := 0;
     oerror := Some ("Column transform failed — " +:+ first_errors errors +:+
                     ". Fix the source value, or set the cast's " +:+ String dquote EmptyString +:+ "on error" +:+
                     String dquote EmptyString +:+ " to null or keep.");
     osucceededTargets := None |}.

Record DeliverContext := {
  ctable : string;
  cnow : string;
  cstartIndex : nat;
  cop : option CdcOperation;
  cskipTargets : option (list string)
}.

Section sink.
Context `{JsHost} `{JsPrint} {W : Type} `{!Adapters W} `{!Network W} (sha256 : string → string).

(** what the database sink keeps, and what became of the requests *)
Record BridgeSinkState := { sink : SinkState (W:=W); requests : list Tried }.

Abbreviation M A := (@async BridgeSinkState A).

Definition put_sink (s : SinkState) (t : BridgeSinkState) : BridgeSinkState := {| sink := s; requests := requests t |}.

Definition net_of (t : BridgeSinkState) : NetState (W:=W) := {| net := world (sink t); tried := requests t |}.
Definition put_net (n : NetState) (t : BridgeSinkState) : BridgeSinkState :=
  {| sink := in_world (sink t) (net n); requests := tried n |}.

(** a reshaped row is another object: where it has been is carried over *)
Fixpoint carried (shaped : list obj) (rows : list Row) : list Row :=
  match shaped with
  | [] => []
  | o :: shaped =>
      withOrigins {| cols := o; origins := [] |} (match rows with r :: _ => originsOf r | [] => [] end)
      :: carried shaped (tail rows)
  end.

Definition reshaped (b : ResolvedBridge) (op : option CdcOperation) (shaped : list obj) (rows : list Row) : list Row :=
  match default [] (columns (btransform b)), is_truncate op with
  | [], _ | _, true => rows
  | _, false => carried shaped rows
  end.

(** [{ ...row, $op }] *)
Definition scoped (op : option CdcOperation) (rows : list Row) : list obj :=
  match op with
  | Some o => (λ r, obj_set (cols r) "$op" (VStr (op_name o))) <$> rows
  | None => cols <$> rows
  end.

(** [None]: it throws *)
Definition render (b : ResolvedBridge) (rows : list obj) (ctx : DeliverContext) : option Template.RenderResult :=
  let at_ i := {| Template.table := ctable ctx; Template.now := cnow ctx; Template.index := i |} in
  let i := Z.of_nat (cstartIndex ctx) in
  match rows with
  | [r] => Template.renderRow r (payload (btransform b)) (at_ i)
  | _ => Template.renderBatch rows (payload (btransform b)) i (at_ i)
  end.

Definition of_http (o : HttpOutcome) : DeliveryOutcome :=
  {| success := hsuccess o; oattempts := Z.to_nat (hattempts o); oerror := herror o; osucceededTargets := None |}.

Definition thrown_if {A} (why : string) (x : option A) : M A := match x with Some x => Ret x | None => Throw why end.

Definition BAD_TEMPLATE : string := "Payload template is not valid JSON.".
Definition BAD_ROW : string := "Do not know how to serialize a value".

(** the outcome; what is warned of is for a preview alone *)
Definition deliver (b : ResolvedBridge) (rows : list Row) (ctx : DeliverContext) (idempotencyKey : option string)
  : M DeliveryOutcome :=
  let* shaped := thrown_if BAD_ROW (shapeRows sha256 b (cols <$> rows) (ctable ctx) (cnow ctx) (cop ctx)) in
  match serrors shaped with
  | _ :: _ => Ret (failedBeforeSending (serrors shaped))
  | [] =>
      let rows := reshaped b (cop ctx) (srows shaped) rows in
      match bdestination b with
      | Database ts =>
          zoom sink put_sink (DbSink.deliver b ts rows (cop ctx) (default [] (cskipTargets ctx)))
      | BridgeConfig.Http d =>
          let* rendered := thrown_if BAD_TEMPLATE (render b (scoped (cop ctx) rows) ctx) in
          let* o := zoom net_of put_net (send (Template.body rendered) d (bdelivery b) idempotencyKey) in
          Ret (of_http o)
      end
  end.
End sink.
