(* ===== verification/Crypto.v ===== *)
(** Secrets at rest ([apps/api/src/common/crypto.service.ts]): encryption under the
    master key, reading what earlier keys encrypted, signed tokens. *)
From S2P Require Import Prelude JsText JsNumber JsDate JsValue JsJson JsBytes JsonText.
From S2P Require Import BridgeConfig Snapshot.

Local Open Scope Z_scope.

Abbreviation bytes := (list Z).

(** what [node:crypto] does: AES-256-GCM, HMAC-SHA256, HKDF; [None] where it throws *)
Class Cipher := {
  seal : bytes → bytes → bytes → bytes * bytes;             (* key, iv, plaintext: data and tag *)
  unseal : bytes → bytes → bytes → bytes → option bytes;    (* key, iv, tag, data *)
  hmac_sha256 : bytes → string → bytes;
  hkdf_sha256 : bytes → string → bytes
}.

Definition IV_LENGTH : nat := 12.
Definition TAG_LENGTH : nat := 16.
Definition KEY_LENGTH : nat := 32.

Definition NOT_A_KEY : string := "SYNCLE_MASTER_KEY must be a base64-encoded 32-byte value".
Definition NOT_KEYS (from : string) : string := from +:+ " must hold base64-encoded 32-byte keys".
Definition MALFORMED : string := "Malformed ciphertext".

(** where keys come from: [runtimeConfig], and the file of the generated key *)
Record KeySources := {
  masterKey : option string;
  previousMasterKeys : list string;
  keyFile : option string
}.

Section crypto.
Context `{Cipher}.

(** ** Keys *)

(** the key, and the file that is written where there was none; [fresh]: what
    [randomBytes] gives *)
Definition loadKey (k : KeySources) (fresh : bytes) : string + (bytes * option string) :=
  match masterKey k with
  | Some text =>
      let key := base64_decode text in
      if bool_decide (List.length key = KEY_LENGTH) then inr (key, keyFile k) else inl NOT_A_KEY
  | None =>
      match keyFile k with
      | Some text => inr (base64_decode (trim text), keyFile k)
      | None => inr (fresh, Some (base64 fresh))
      end
  end.

(** one key that used to encrypt joins the others *)
Definition add_key (current : bytes) (encoded from : string) (keys : list bytes) : string + list bytes :=
  let key := base64_decode (trim encoded) in
  if negb (bool_decide (List.length key = KEY_LENGTH)) then inl (NOT_KEYS from)
  else if bool_decide (key = current) || bool_decide (key ∈ keys) then inr keys
  else inr (keys ++ [key]).

Fixpoint add_keys (current : bytes) (encoded : list string) (keys : list bytes) : string + list bytes :=
  match encoded with
  | [] => inr keys
  | e :: encoded =>
      match add_key current e "SYNCLE_MASTER_KEY_PREVIOUS" keys with
      | inl err => inl err
      | inr keys => add_keys current encoded keys
      end
  end.

Definition previousKeys (k : KeySources) (current : bytes) : string + list bytes :=
  match add_keys current (previousMasterKeys k) [] with
  | inl err => inl err
  | inr keys =>
      match masterKey k, keyFile k with
      | Some _, Some text =>
          match add_key current text "the key file" keys with inr keys => inr keys | inl _ => inr keys end
      | _, _ => inr keys
      end
  end.

(** ** Encryption *)

(** [iv]: what [randomBytes] gives *)
Definition encrypt (key iv : bytes) (plaintext : string) : string :=
  let (data, tag) := seal key iv (utf8_bytes plaintext) in
  base64 iv +:+ ":" +:+ base64 tag +:+ ":" +:+ base64 data.

(** [inl]: what it throws; bytes that are no text of the model's are one of these *)
Definition decryptWith (key : bytes) (payload : string) : string + string :=
  let parts := split_on ":"%char payload in
  match parts !! 0%nat, parts !! 1%nat, parts !! 2%nat with
  | Some iv64, Some tag64, Some data64 =>
      if negb (nonempty iv64) || negb (nonempty tag64) || negb (nonempty data64) then inl MALFORMED else
      let tag := base64_decode tag64 in
      if negb (bool_decide (List.length tag = TAG_LENGTH)) then inl MALFORMED else
      match unseal key (base64_decode iv64) tag (base64_decode data64) with
      | Some b => match utf8_text b with Some s => inr s | None => inl "not a text" end
      | None => inl "Unsupported state or unable to authenticate data"
      end
  | _, _, _ => inl MALFORMED
  end.

Record Opened := { plaintext : string; underPreviousKey : bool }.

Fixpoint open_previous (keys : list bytes) (payload : string) : option Opened :=
  match keys with
  | [] => None
  | key :: keys =>
      match decryptWith key payload with
      | inr text => Some {| plaintext := text; underPreviousKey := true |}
      | inl _ => open_previous keys payload
      end
  end.

(** [previous]: what [previousKeys] returns or throws; asked only when the current
    key does not fit *)
Definition open_secret (current : bytes) (previous : string + list bytes) (payload : string) : string + Opened :=
  match decryptWith current payload with
  | inr text => inr {| plaintext := text; underPreviousKey := false |}
  | inl err =>
      match previous with
      | inl e => inl e
      | inr keys => match open_previous keys payload with Some o => inr o | None => inl err end
      end
  end.

Definition decrypt (current : bytes) (previous : string + list bytes) (payload : string) : string + string :=
  match open_secret current previous payload with inl e => inl e | inr o => inr (plaintext o) end.

(** the same secret under the current key, when it is under an earlier one *)
Definition reencrypt (current : bytes) (previous : string + list bytes) (iv : bytes) (payload : string)
  : string + option string :=
  match open_secret current previous payload with
  | inl e => inl e
  | inr o => inr (if underPreviousKey o then Some (encrypt current iv (plaintext o)) else None)
  end.

(** ** Tokens *)

Definition deriveSigKey (master : bytes) : bytes := hkdf_sha256 master "syncle-session-sig".

Definition hmac (sig_key : bytes) (data : string) : string := base64url (hmac_sha256 sig_key data).

(** [None] where the payload has no JSON *)
Definition signToken (current : bytes) (payload : jsval) : option string :=
  match stringify payload with
  | JText text =>
      let body := base64url (utf8_bytes text) in
      Some (body +:+ "." +:+ hmac (deriveSigKey current) body)
  | _ => None
  end.

(** [timingSafeEqual]: [None] where it throws *)
Definition timingSafeEqual (a b : bytes) : option bool :=
  if bool_decide (List.length a = List.length b) then Some (bool_decide (a = b)) else None.

(** does the signature fit one of the keys? [None] where the comparison throws *)
Fixpoint sig_fits (keys : list bytes) (body sig : string) : option bool :=
  match keys with
  | [] => Some false
  | key :: keys =>
      let expected := hmac (deriveSigKey key) body in
      match (if bool_decide (str_length sig = str_length expected)
             then timingSafeEqual (utf8_bytes sig) (utf8_bytes expected) else Some false) with
      | Some false => sig_fits keys body sig
      | r => r
      end
  end.

(** the payload, or none; the outer [None]: it throws *)
Definition verifyToken (current : bytes) (previous : list bytes) (token : string) : option (option jsval) :=
  match lastIndexOf "."%char token with
  | None | Some 0%nat => Some None
  | Some dot =>
      let body := slice 0 dot token in
      let sig := slice_from (S dot) token in
      match sig_fits (current :: previous) body sig with
      | None => None
      | Some false => Some None
      | Some true => Some (text ← utf8_text (base64_decode body); json_parse text)
      end
  end.

Definition derive (current : bytes) (purpose data : string) : string :=
  base64url (hmac_sha256 (hkdf_sha256 current ("syncle-derive:" +:+ purpose)) data).
End crypto.

(** ** What the code relies on *)

(** what a cipher documents: a tag of 16 bytes, as many bytes of data as of
    plaintext, and what was sealed opens under its key *)
Class CipherLaws (C : Cipher) : Prop := {
  tag_length : ∀ k iv p, List.length (seal k iv p).2 = TAG_LENGTH;
  data_length : ∀ k iv p, List.length (seal k iv p).1 = List.length p;
  sealed_bytes : ∀ k iv p, Forall is_byte (seal k iv p).1 ∧ Forall is_byte (seal k iv p).2;
  unseal_seal : ∀ k iv p, Forall is_byte p → unseal k iv (seal k iv p).2 (seal k iv p).1 = Some p;
  hmac_bytes : ∀ k d, Forall is_byte (hmac_sha256 k d)
}.

(** ** A text of base64 *)

Definition b64_like (c : ascii) : bool :=
  is_upper c || is_lower c || is_digit c || bool_decide (c ∈ ["+"%char; "/"%char; "="%char; "-"%char; "_"%char]).

Lemma b64_char_like n : 0 <= n < 64 → b64_like (b64_char n) = true ∧ b64_like (url_char n) = true.
Proof.
  intros Hn. assert (Hz : n = Z.of_nat (Z.to_nat n)) by lia. rewrite Hz.
  assert (Hl : (Z.to_nat n < 64)%nat) by lia. revert Hl. generalize (Z.to_nat n). clear.
  intros m Hm. do 64 (destruct m as [|m]; [split; reflexivity|]). lia.
Qed.

(** induction over the bytes that make four characters *)
Lemma three_bytes_ind (P : bytes → Prop) :
  P [] → (∀ a, P [a]) → (∀ a b, P [a; b]) → (∀ a b c r, P r → P (a :: b :: c :: r)) → ∀ l, P l.
Proof.
  intros H0 H1 H2 H3. fix IH 1. intros [|a [|b [|c r]]]; [apply H0|apply H1|apply H2|].
  apply H3, IH.
Qed.

Ltac b64_like_arith :=
  repeat lazymatch goal with
  | |- _ ∧ _ => split
  | |- Forall _ (_ :: _) => constructor
  | |- Forall _ [] => constructor
  | |- b64_like (b64_char _) = true => apply b64_char_like; byte_arith
  | |- b64_like (url_char _) = true => apply b64_char_like; byte_arith
  | |- b64_like "="%char = true => reflexivity
  end.

Lemma base64_like bs : Forall is_byte bs →
  Forall (λ c, b64_like c = true) (chars (base64 bs)) ∧
  Forall (λ c, b64_like c = true) (chars (base64url bs)).
Proof.
  unfold base64, base64url. rewrite !chars_of_chars.
  induction bs as [|a|a b|a b c r IH] using three_bytes_ind; intros Hb;
    [split; constructor|..]; decompose_Forall_hyps; [cbn; b64_like_arith..|].
  destruct IH as [IH1 IH2]; [done|]. cbn [b64_chars base64url_chars].
  b64_like_arith; assumption.
Qed.

Lemma not_in_base64 (d : ascii) bs : b64_like d = false → Forall is_byte bs →
  d ∉ chars (base64 bs) ∧ d ∉ chars (base64url bs).
Proof.
  intros Hd [H1 H2]%base64_like.
  split; intros Hi; [rewrite Forall_forall in H1; specialize (H1 d Hi)|
    rewrite Forall_forall in H2; specialize (H2 d Hi)]; congruence.
Qed.

Lemma base64_nonempty bs : nonempty (base64 bs) = bool_decide (bs ≠ []).
Proof. destruct bs as [|a [|b [|c r]]]; reflexivity. Qed.

Lemma base64url_length bs : bs ≠ [] → str_length (base64url bs) ≠ 0%nat.
Proof. destruct bs as [|a [|b [|c r]]]; done. Qed.

Lemma utf8_nil s : utf8_bytes s = [] ↔ s = EmptyString.
Proof.
  split; [|by intros ->]. destruct s as [|c s]; [done|]. unfold utf8_bytes.
  change (chars (String c s)) with (c :: chars s). cbn [mbind list_bind].
  by destruct (_ <? 128).
Qed.

(** a text of ASCII has a byte for every character *)
Lemma utf8_ascii s : Forall (λ c, b64_like c = true) (chars s) →
  List.length (utf8_bytes s) = str_length s.
Proof.
  rewrite <- length_chars. unfold utf8_bytes. intros Hs.
  induction Hs as [|c l Hc Hl IH]; [done|]. cbn [mbind list_bind]. rewrite length_app, IH.
  assert (Hlt : (Z.of_N (code c) <? 128) = true); [|by rewrite Hlt].
  clear -Hc. revert Hc. by destruct c as [[] [] [] [] [] [] [] []].
Qed.

(** ** What is encrypted is read back *)

Section laws.
Context `{!Cipher} `{!CipherLaws _}.

Lemma encrypted_parts key iv text : Forall is_byte iv →
  split_on ":"%char (encrypt key iv text) =
    [base64 iv; base64 (seal key iv (utf8_bytes text)).2; base64 (seal key iv (utf8_bytes text)).1].
Proof.
  intros Hiv. destruct (sealed_bytes key iv (utf8_bytes text)) as [Hd Ht].
  unfold encrypt. destruct (seal key iv (utf8_bytes text)) as [data tag]. cbn [fst snd] in *.
  rewrite (split_on_unique ":"%char _
    [chars (base64 iv); chars (base64 tag); chars (base64 data)]); [|done|..].
  - cbn. by rewrite !of_chars_chars.
  - repeat constructor; by apply not_in_base64.
  - rewrite !chars_app. reflexivity.
Qed.

Lemma decryptWith_encrypt key iv text : Forall is_byte iv → iv ≠ [] → text ≠ EmptyString →
  decryptWith key (encrypt key iv text) = inr text.
Proof.
  intros Hiv Hne Htext. unfold decryptWith. rewrite encrypted_parts by done. cbn [lookup list_lookup].
  destruct (sealed_bytes key iv (utf8_bytes text)) as [Hd Ht].
  rewrite !base64_nonempty, !base64_round_trip by done.
  rewrite tag_length, unseal_seal by apply utf8_are_bytes. rewrite utf8_round_trip.
  rewrite !bool_decide_true; [done|..]; try done; intros Hnil; apply (f_equal List.length) in Hnil.
  - rewrite data_length in Hnil. by apply nil_length_inv, utf8_nil in Hnil.
  - by rewrite tag_length in Hnil.
Qed.

(** the one text that is not: nothing *)
Lemma nothing_is_malformed key iv : Forall is_byte iv →
  decryptWith key (encrypt key iv EmptyString) = inl MALFORMED.
Proof.
  intros Hiv. unfold decryptWith. rewrite encrypted_parts by done. cbn [lookup list_lookup].
  rewrite (base64_nonempty (seal _ _ _).1), (bool_decide_false (_ ≠ [])).
  - cbn [negb]. by rewrite orb_true_r.
  - intros Hd. apply Hd, nil_length_inv. by rewrite data_length.
Qed.

(** *** A change of key *)

Definition refuses (key : bytes) (payload : string) : Prop := ∃ e, decryptWith key payload = inl e.

Lemma open_previous_finds keys old payload text :
  decryptWith old payload = inr text → old ∈ keys →
  Forall (λ k, k = old ∨ refuses k payload) keys →
  open_previous keys payload = Some {| plaintext := text; underPreviousKey := true |}.
Proof.
  intros Hold. induction keys as [|k keys IH]; [by intros ?%not_elem_of_nil|].
  intros Hin [Hk Hks]%Forall_cons. cbn [open_previous].
  destruct Hk as [->|[e He]]; [by rewrite Hold|]. rewrite He.
  apply IH; [|done]. apply elem_of_cons in Hin as [->|Hin]; [congruence|done].
Qed.

(** A change of key leaves nothing unreadable: what was encrypted under a key
    that is among the previous ones is read, is given a form under the current key,
    which reads without the previous ones, and then there is nothing left to do *)
Theorem change_of_key old new keys iv iv' text :
  Forall is_byte iv → iv ≠ [] → Forall is_byte iv' → iv' ≠ [] → text ≠ EmptyString →
  old ∈ keys → refuses new (encrypt old iv text) →
  Forall (λ k, k = old ∨ refuses k (encrypt old iv text)) keys →
  let payload := encrypt old iv text in
  let payload' := encrypt new iv' text in
  decrypt new (inr keys) payload = inr text ∧
  reencrypt new (inr keys) iv' payload = inr (Some payload') ∧
  decrypt new (inr []) payload' = inr text ∧
  (∀ previous iv'', reencrypt new previous iv'' payload' = inr None).
Proof.
  intros Hiv Hne Hiv' Hne' Htext Hin [e He] Hks payload payload'.
  subst payload payload'. unfold decrypt, reencrypt, open_secret. rewrite He.
  rewrite (open_previous_finds keys old _ text) by (done || by apply decryptWith_encrypt).
  rewrite !decryptWith_encrypt by done. done.
Qed.

(** *** Tokens *)

(** a signature that was made, held against any key, is of one length or compared *)
Lemma sig_fits_own keys key body :
  key ∈ keys →
  sig_fits keys body (hmac (deriveSigKey key) body) = Some true.
Proof.
  set (sig := hmac _ body). intros Hin. induction keys as [|k keys IH]; [by apply not_elem_of_nil in Hin|].
  cbn [sig_fits]. set (expected := hmac (deriveSigKey k) body).
  assert (Hl : str_length sig = str_length expected →
               List.length (utf8_bytes sig) = List.length (utf8_bytes expected)).
  { unfold sig, expected, hmac. rewrite !utf8_ascii by (apply base64_like, hmac_bytes). done. }
  destruct (decide (sig = expected)) as [Hs|Hs].
  - rewrite Hs, !bool_decide_true by done. unfold timingSafeEqual. by rewrite !bool_decide_true.
  - assert (Hk : k ≠ key) by (by intros ->).
    assert (Hin' : key ∈ keys) by (apply elem_of_cons in Hin as [->|?]; [done|done]).
    case_bool_decide as Hb; [|by apply IH]. unfold timingSafeEqual. rewrite bool_decide_true by auto.
    rewrite bool_decide_false; [by apply IH|]. intros Hu. apply Hs.
    assert (E : utf8_text (utf8_bytes sig) = utf8_text (utf8_bytes expected)) by (by rewrite Hu).
    rewrite !utf8_round_trip in E. congruence.
Qed.

(** A token that was signed is verified, and by a process that has since been
    given another key too, as long as it still has the old one *)
Theorem token_round_trip key current previous payload :
  json_plain payload = true → key ∈ current :: previous →
  ∃ token, signToken key payload = Some token ∧
           verifyToken current previous token = Some (Some payload).
Proof.
  intros Hp Hk. destruct (json_round_trip payload Hp) as (text & Ht & Hr).
  unfold signToken. rewrite Ht. eexists. split; [done|]. unfold verifyToken.
  set (body := base64url (utf8_bytes text)).
  rewrite lastIndexOf_char by (apply not_in_base64; [done|apply hmac_bytes]).
  assert (Hb : str_length body ≠ 0%nat).
  { apply base64url_length. intros Hnil%utf8_nil. by rewrite Hnil in Hr. }
  destruct (str_length body) as [|n] eqn:Hn; [done|]. rewrite <- Hn.
  rewrite slice_0_app, slice_from_app_S, sig_fits_own by done.
  unfold body. rewrite base64url_round_trip by apply utf8_are_bytes.
  rewrite utf8_round_trip. cbn. by rewrite Hr.
Qed.
End laws.

(** ** The keys of an instance *)

(** a key that was generated is the key of every start after *)
Lemma generated_key_is_kept fresh previous : Forall is_byte fresh → fresh ≠ [] →
  ∃ file, loadKey {| masterKey := None; previousMasterKeys := previous; keyFile := None |} fresh =
            inr (fresh, Some file) ∧
          ∀ other, loadKey {| masterKey := None; previousMasterKeys := previous; keyFile := Some file |} other =
            inr (fresh, Some file).
Proof.
  intros Hb Hne. exists (base64 fresh). split; [done|]. intros other. unfold loadKey. cbn.
  assert (Ht : trim (base64 fresh) = base64 fresh); [|by rewrite Ht, base64_round_trip].
  apply trim_none. eapply Forall_impl; [by apply base64_like|].
  intros c. clear. by destruct c as [[] [] [] [] [] [] [] []].
Qed.

Definition key_ok (current : bytes) (keys : list bytes) : Prop :=
  NoDup keys ∧ current ∉ keys ∧ Forall (λ k, List.length k = KEY_LENGTH) keys.

Lemma add_key_ok current encoded from keys keys' :
  add_key current encoded from keys = inr keys' → key_ok current keys → key_ok current keys'.
Proof.
  unfold add_key, key_ok. set (key := base64_decode _). intros Ha (Hd & Hc & Hl).
  case_bool_decide as Hk; cbn [negb] in Ha; [|done].
  case_bool_decide as Hcur; [by injection Ha as <-|].
  case_bool_decide as Hin; injection Ha as <-; [done|].
  split_and!; [|rewrite elem_of_app, list_elem_of_singleton; naive_solver|apply Forall_app; auto].
  apply NoDup_app. split_and!; [done| |apply NoDup_singleton].
  by intros k Hin' ->%list_elem_of_singleton.
Qed.

(** the keys that are tried after the current one are keys, each once, and not it *)
Lemma previousKeys_ok k current keys : previousKeys k current = inr keys → key_ok current keys.
Proof.
  unfold previousKeys.
  assert (Hall : ∀ encoded keys0 keys1, add_keys current encoded keys0 = inr keys1 →
                 key_ok current keys0 → key_ok current keys1).
  { induction encoded as [|e encoded IH]; intros keys0 keys1 Ha H0; [by injection Ha as <-|].
    cbn [add_keys] in Ha. destruct (add_key current e _ keys0) as [|keys2] eqn:He; [done|].
    eapply IH, add_key_ok; eauto. }
  assert (H0 : key_ok current []) by (split_and!; [constructor|apply not_elem_of_nil|constructor]).
  destruct (add_keys _ _ _) as [|keys1] eqn:H1; [done|]. specialize (Hall _ _ _ H1 H0).
  destruct (masterKey k), (keyFile k) as [text|]; [|by intros [= <-]..].
  destruct (add_key current text _ keys1) as [|keys2] eqn:H2; intros [= <-]; [done|].
  by eapply add_key_ok.
Qed.

(** ** A signature that is not ASCII

    it has as many characters as the one it is held against, and more bytes: the
    comparison throws, where the method says that it never does *)
Section not_ascii.
Context `{!Cipher} `{!CipherLaws _}.

Lemma utf8_longer s : Exists (λ c, 128 <= Z.of_N (code c)) (chars s) →
  (str_length s < List.length (utf8_bytes s))%nat.
Proof.
  rewrite <- length_chars. unfold utf8_bytes.
  set (f := λ c, let n := Z.of_N (code c) in if n <? 128 then [n] else [192 + n / 64; 128 + n mod 64]).
  assert (Hle : ∀ l, (List.length l ≤ List.length (l ≫= f))%nat).
  { induction l as [|c l IH]; [done|]. cbn [mbind list_bind]. rewrite length_app.
    unfold f at 1. destruct (_ <? 128); cbn; lia. }
  induction 1 as [c l Hc|c l Hl IH]; cbn [mbind list_bind]; rewrite length_app.
  - unfold f at 1. rewrite (proj2 (Z.ltb_ge _ _)) by done. specialize (Hle l). cbn. lia.
  - unfold f at 1. destruct (_ <? 128); cbn; lia.
Qed.

Lemma foreign_signature_throws current previous body sig :
  body ≠ EmptyString → "."%char ∉ chars sig →
  str_length sig = str_length (hmac (deriveSigKey current) body) →
  Exists (λ c, 128 <= Z.of_N (code c)) (chars sig) →
  verifyToken current previous (body +:+ "." +:+ sig) = None.
Proof.
  intros Hb Hdot Hl Hx. unfold verifyToken. rewrite lastIndexOf_char by done.
  destruct (str_length body) as [|n] eqn:Hn; [by destruct body|]. rewrite <- Hn.
  rewrite slice_0_app, slice_from_app_S. cbn [sig_fits]. rewrite bool_decide_true by done.
  unfold timingSafeEqual. rewrite bool_decide_false; [done|].
  apply utf8_longer in Hx. unfold hmac in *.
  rewrite (utf8_ascii (base64url _)) by (apply base64_like, hmac_bytes). lia.
Qed.
End not_ascii.

(** ** A cipher for witnesses: the tag says the key, the data is the text *)

Definition key_tag (k : bytes) : bytes :=
  take TAG_LENGTH (((λ b, b mod 256) <$> k) ++ replicate TAG_LENGTH 0).

#[local] Instance toy_cipher : Cipher := {|
  seal k iv p := ((λ b, b mod 256) <$> p, key_tag k);
  unseal k iv tag data := if bool_decide (tag = key_tag k) then Some data else None;
  hmac_sha256 k d := [Z.of_nat (str_length d) mod 256];
  hkdf_sha256 k info := k
|}.

#[local] Instance toy_laws : CipherLaws toy_cipher.
Proof.
  assert (Hm : ∀ l : bytes, Forall is_byte ((λ b, b mod 256) <$> l)).
  { intros l. apply Forall_fmap, Forall_true. intros b. unfold is_byte. cbn. by apply Z.mod_pos_bound. }
  split.
  - intros k iv p. cbn [seal toy_cipher snd]. unfold key_tag. rewrite length_take, length_app, length_replicate. lia.
  - intros k iv p. cbn. by rewrite length_fmap.
  - intros k iv p. split; [apply Hm|]. cbn [seal toy_cipher snd]. apply Forall_take, Forall_app.
    split; [apply Hm|]. apply Forall_replicate. by unfold is_byte.
  - intros k iv p Hp. cbn [seal unseal toy_cipher fst snd]. rewrite bool_decide_true by done. f_equal.
    rewrite <- (list_fmap_id p) at 2. apply list_fmap_ext. intros i b Hb%list_elem_of_lookup_2.
    rewrite Forall_forall in Hp. by apply Z.mod_small, Hp.
  - intros k d. repeat constructor; by apply Z.mod_pos_bound.
Qed.

Definition old_key : bytes := replicate 32 1.
Definition new_key : bytes := replicate 32 2.
Definition sample_iv : bytes := replicate 12 7.

Lemma change_of_key_witness :
  decrypt new_key (inr [new_key; old_key]) (encrypt old_key sample_iv "secret") = inr "secret" ∧
  reencrypt new_key (inr [new_key; old_key]) sample_iv (encrypt old_key sample_iv "secret") =
    inr (Some (encrypt new_key sample_iv "secret")) ∧
  decrypt new_key (inr []) (encrypt new_key sample_iv "secret") = inr "secret" ∧
  (∀ previous iv'', reencrypt new_key previous iv'' (encrypt new_key sample_iv "secret") = inr None).
Proof.
  apply (change_of_key old_key new_key [new_key; old_key] sample_iv sample_iv "secret").
  - repeat constructor; done.
  - done.
  - repeat constructor; done.
  - done.
  - done.
  - set_solver.
  - eexists. vm_compute. reflexivity.
  - apply Forall_cons_2; [right; eexists; vm_compute; reflexivity|].
    apply Forall_cons_2; [by left|apply Forall_nil_2].
Defined.

Definition session : jsval := VObj [("uid", VStr "u1"); ("v", VNum (num_of_Z 2))].

Lemma token_round_trip_witness :
  ∃ token, signToken old_key session = Some token ∧
           verifyToken new_key [old_key] token = Some (Some session).
Proof. apply (token_round_trip old_key new_key [old_key] session); [vm_compute; reflexivity|set_solver]. Defined.

(** a cookie whose signature holds a letter with an accent *)
Example accented_cookie_throws :
  verifyToken new_key [] ("e30." +:+ of_chars [ascii_of_N 233; "A"%char]) = None.
Proof. vm_compute. reflexivity. Qed.
