(* ===== verification/EchoGuard.v ===== *)
(** The echo guard ([apps/api/src/bridges/echo-guard.service.ts]): what a bridge
    wrote is remembered by table and key, in order, so that the bridge that reads
    the table knows the change for what it is. *)
From S2P Require Import Prelude JsText JsNumber JsInteger JsDate JsValue JsJson JsBytes JsonText.
From S2P Require Import RedisTarget BridgeConfig TypeMap Bridge ValueMap RowCompare RowCodec.
From S2P Require Import CdcState TableReader SinkRows Snapshot DbSink Verify Crypto.

Local Open Scope Z_scope.

Definition ECHO_KEY_PREFIX : string := "syncle:echo:".
Definition PER_ROW : Z := 20.
Definition PER_TABLE_UNKEYED : Z := 500.
Definition HELD_BACK_TTL_SECONDS : Z := 30 * 24 * 3600.
Definition UNKEYED : string := ":rows".
Definition TRUNCATES : string := ":truncates".
Definition LARGE : nat := Z.to_nat 2048.
Definition DIGEST : string := "$syncle.sha256".

(** ** Tables *)

Record TableRef := {
  rconnection : string;
  rdatabase : option string;
  rschema : option string;
  rtable : string
}.

Definition ref_of_source (t : TableSource) : TableRef :=
  {| rconnection := connectionId t; rdatabase := database t; rschema := schema t; rtable := table t |}.
Definition ref_of_target (t : DatabaseTarget) : TableRef :=
  {| rconnection := tconnectionId t; rdatabase := tdatabase t; rschema := tschema t; rtable := ttable t |}.

(** a connection, its secrets in clear *)
Record Connection := {
  cengine : DatabaseEngine;
  chost : option string;
  cport : option num;
  cdatabase : option string;
  cstring : option string;
  cdb : jsval;                     (* [options.db]; undefined where there are no options *)
  cssh : option string
}.

(** what [new URL] finds; the port as it is written *)
Record UrlParts := { hostname : string; urlport : string; pathname : string }.

Definition or_text (a b : string) : string := if nonempty a then a else b.

Definition LOCAL_NAMES : list string := ["localhost"; "::1"; "0.0.0.0"].

Section identity.
Context `{JsPrint}.
(** [None] where [new URL] throws *)
Variable url_of : string → option UrlParts.

Definition or_number (a b : num) : num := if truthy (VNum a) then a else b.

Definition physical_parts (c : Connection) (database : option string) : string * num * string :=
  let host := default EmptyString (chost c) in
  let port := default (num_of_Z 0) (cport c) in
  let db := default (default EmptyString (cdatabase c)) database in
  match cstring c with
  | Some text =>
      if nonempty text then
        match url_of text with
        | Some u =>
            let path := match chars (pathname u) with
                        | "/"%char :: r => of_chars r | _ => pathname u end in
            (or_text (hostname u) host, or_number (string_to_num (urlport u)) port,
             match database with Some d => d | None => or_text path db end)
        | None => (host, port, db)
        end
      else (host, port, db)
  | None => (host, port, db)
  end.

(** the number of a Redis database, which a connection carries among its options *)
Definition redis_db (c : Connection) (database : option string) (db : string) : string :=
  if bool_decide (cengine c = redis_engine) && bool_decide (database = None) then
    if negb (is_nil (cdb c)) && negb (strict_eq (cdb c) (VStr EmptyString)) then to_string (cdb c)
    else if nonempty db then db else "0"
  else db.

Definition engine_text (e : DatabaseEngine) : string :=
  match e with
  | postgres => "postgres" | mysql => "mysql" | sqlite => "sqlite" | mongodb => "mongodb" | redis_engine => "redis"
  end.

Definition normal_host (host : string) : string :=
  if bool_decide (toLowerCase host ∈ LOCAL_NAMES) then "127.0.0.1" else toLowerCase host.

(** the server and database a connection leads to, whatever the connection is called *)
Definition physicalId (c : Connection) (database : option string) : string :=
  let '(host, port, db) := physical_parts c database in
  if bool_decide (cengine c = sqlite) then "sqlite://" +:+ default EmptyString (cdatabase c) else
  let via := match cssh c with Some h => if nonempty h then "@" +:+ toLowerCase h else EmptyString
                             | None => EmptyString end in
  engine_text (cengine c) +:+ "://" +:+ normal_host host +:+ ":" +:+ num_to_string port +:+ via +:+ "/" +:+
  redis_db c database db.

(** a table as the server knows it; a connection that cannot be resolved is only
    ever equal to itself *)
Definition tableId (resolve : string → option Connection) (r : TableRef) : string :=
  let base := match resolve (rconnection r) with
              | Some c => physicalId c (rdatabase r)
              | None => "connection:" +:+ rconnection r
              end in
  let schema := or_text (default EmptyString (rschema r))
                        (if startsWith "postgres://" base then "public" else EmptyString) in
  base +:+ "#" +:+ schema +:+ "." +:+ rtable r.
End identity.

(** ** Who reads what, and who writes it *)

(** a bridge as it is stored; [None] where its JSON cannot be read *)
Record StoredBridge := {
  sbid : string;
  sbenabled : bool;
  sbread : option (BridgeSource * option BridgeTrigger * BridgeDestination)
}.
Record StoredJob := { sjbridge : string; sjstatus : string; sjfinishedAt : option Z }.

Definition LISTENING : list string := ["queued"; "running"; "canceling"; "interrupted"].

Record Topology := { tread : list string; twritten : list string }.

(** the job listens, or stopped so recently that what is remembered now is still
    there when it picks its position up *)
Definition listens (now ttl : Z) (j : StoredJob) : bool :=
  bool_decide (sjstatus j ∈ LISTENING) ||
  match sjfinishedAt j with Some t => now - ttl * 1000 <=? t | None => false end.

Definition is_live (t : option BridgeTrigger) : bool :=
  match t with None | Some (Replay _) => false | _ => true end.

Definition add_bridge (id_of : TableRef → string) (listening : list string) (t : Topology) (b : StoredBridge)
  : Topology :=
  match sbread b with
  | None => t
  | Some (source, trigger, destination) =>
      let read := match source with
                  | FromTable s => if sbenabled b && is_live trigger && bool_decide (sbid b ∈ listening)
                                   then set_add (tread t) (id_of (ref_of_source s)) else tread t
                  | FromQuery _ => tread t
                  end in
      let written := match destination with
                     | Database targets => set_addl (twritten t) (id_of ∘ ref_of_target <$> targets)
                     | Http _ => twritten t
                     end in
      {| tread := read; twritten := written |}
  end.

Definition topology (id_of : TableRef → string) (now ttl : Z) (bridges : list StoredBridge)
    (jobs : list StoredJob) : Topology :=
  foldl (add_bridge id_of (sjbridge <$> filter (λ j, listens now ttl j = true) jobs))
        {| tread := []; twritten := [] |} bridges.

(** ** What is known of a table *)

Record CatalogTable := { ctname : string; ctprimaryKey : list string; ctcolumns : list ColumnFacts }.
Record CatalogNamespace := { cnname : string; cntables : list CatalogTable }.

Record Facts := { fprimaryKey : list string; fkinds : list (string * CompareKind) }.
Definition no_facts : Facts := {| fprimaryKey := []; fkinds := [] |}.

(** [kinds[column] ?? 'unknown'] *)
Definition kind_of (kinds : list (string * CompareKind)) (c : string) : CompareKind :=
  default None (map_get kinds c).

(** [catalog]: the engine of the connection and the namespaces of its database;
    [None] where one of the calls throws *)
Definition factsOf (catalog : TableRef → option (DatabaseEngine * list CatalogNamespace)) (r : TableRef) : Facts :=
  match catalog r with
  | None => no_facts
  | Some (e, namespaces) =>
      let tables := filter (λ n, match rschema r with
                                 | Some s => negb (nonempty s) || bool_decide (cnname n = s)
                                 | None => true end = true) namespaces ≫= cntables in
      match List.find (λ t, bool_decide (ctname t = rtable r)) tables with
      | None => no_facts
      | Some t =>
          {| fprimaryKey := ctprimaryKey t;
             fkinds := foldl (λ m c, map_set (TableReader.cname c)
                                (Some (kind (parseColumnType (Some (default (cdataType c) (cnativeType c))) (Some e)))) m)
                             [] (ctcolumns t) |}
      end
  end.

(** ** Rows as they are remembered *)

Abbreviation Entries := (list (string * written)).

Definition redis_cell (v : option redis_value) : jsval :=
  match v with Some (RText s) => VStr s | Some (RBytes b) => VBytes b | None => VNull end.

Definition redis_row (r : RedisRow) : obj :=
  match RedisTarget.value r with
  | HashOf fields =>
      [("key", VStr (RedisTarget.key r)); ("type", VStr "hash");
       ("value", VObj ((λ kv, (kv.1, redis_cell kv.2)) <$> fields));
       ("ttl", VNum (num_of_Z (RedisTarget.ttl r))); ("fields", VBool true)]
  | StringOf v =>
      [("key", VStr (RedisTarget.key r)); ("type", VStr "string"); ("value", redis_cell (Some v));
       ("ttl", VNum (num_of_Z (RedisTarget.ttl r)))]
  end.

(** [Object.entries] of a row as a target takes it *)
Definition plain_entries (o : obj) : Entries := (λ kv, (kv.1, Plain kv.2)) <$> o.
Definition entries (r : TargetRow) : Entries :=
  match r with
  | Columns w => to_written w
  | RedisKey k => plain_entries [("key", VStr k)]
  | RedisWrite w => plain_entries (redis_row w)
  end.

Definition entry_get (es : Entries) (c : string) : written := default (Plain VUndef) (map_get es c).

(** the bytes of a large text or binary value *)
Definition largeBytes (v : jsval) : option bytes :=
  match v with
  | VStr s => if (LARGE <? str_length s)%nat then Some (utf8_bytes s) else None
  | VBytes b => if (LARGE <? List.length b)%nat then Some b else None
  | _ => None
  end.

Definition digestIn (v : jsval) : option string :=
  match v with
  | VObj o => match obj_get o DIGEST with VStr d => Some d | _ => None end
  | _ => None
  end.

(** the guard's own words *)
Inductive echo_op := wrote | deleted.
#[export] Instance echo_op_eq_dec : EqDecision echo_op.
Proof. solve_decision. Defined.

Record Remembered := { rop : echo_op; rrow : string; rorigins : list string }.

Section rows.
Context `{JsHost} `{JsPrint} (tenth_power : nat → num).
(** SHA-1 and SHA-256, in hexadecimal *)
Context (sha1 : string → string) (sha256 : bytes → string).

(** a table, as it is named in keys and in a row's origins *)
Definition tableTag (id : string) : string := slice 0 16 (sha1 id).

(** a row as it is remembered: a large value is kept as its digest; a wrapped one
    is neither a text nor bytes *)
Definition compact_value (v : written) : jsval :=
  match v with
  | Plain x => match largeBytes x with
               | Some b => VObj [(DIGEST, VStr (sha256 b))]
               | None => x
               end
  | JsonColumnValue x => x
  end.
Definition compact (row : Entries) : obj := assigned ((λ kv, (kv.1, compact_value kv.2)) <$> row).

(** where a row's writes are remembered; [None] where a key column's text throws *)
Definition keyOf (tag : string) (row : Entries) (primaryKey : list string) (kinds : list (string * CompareKind))
  : option string :=
  let key := entry_get row <$> primaryKey in
  if negb (bool_decide (primaryKey = [])) &&
     forallb (λ v, negb (is_nil (cell_value v)) && negb (is_unchanged (cell_value v))) key
  then (λ text, ECHO_KEY_PREFIX +:+ tag +:+ ":k:" +:+ sha1 text) <$> keyText key (kind_of kinds <$> primaryKey)
  else Some (ECHO_KEY_PREFIX +:+ tag +:+ UNKEYED).

(** one column of [matches]: [None]: it throws; otherwise what it says and
    whether it was compared *)
Definition column_matches (op : echo_op) (strict : bool) (kinds : list (string * CompareKind)) (row : obj)
    (column : string) (value : jsval) : option (bool * bool) :=
  let read := obj_get row column in
  if is_unchanged read then Some (true, false) else
  if bool_decide (op = deleted) && strict_eq read VUndef then Some (negb strict, false) else
  match digestIn value with
  | Some digest => Some (match largeBytes read with
                         | Some b => bool_decide (sha256 b = digest) | None => false end, true)
  | None => (λ same, (same, true)) <$> sameValue tenth_power (kind_of kinds column) (Plain value) (Plain read)
  end.

Fixpoint columns_match (op : echo_op) (strict : bool) (kinds : list (string * CompareKind)) (row : obj)
    (written : obj) (compared : nat) : option bool :=
  match written with
  | [] => Some (if strict then (0 <? compared)%nat else true)
  | (column, value) :: written =>
      match column_matches op strict kinds row column value with
      | None => None
      | Some (false, _) => Some false
      | Some (true, one) => columns_match op strict kinds row written (if one then S compared else compared)
      end
  end.

(** is the change that was read the write that was remembered? *)
Definition matches (entry : Remembered) (op : option CdcOperation) (row : obj)
    (kinds : list (string * CompareKind)) (strict : bool) : option bool :=
  if negb (Bool.eqb (bool_decide (rop entry = deleted)) (is_delete op)) then Some false else
  match decodeRows (rrow entry) with
  | None => None
  | Some [] => Some false
  | Some (written :: _) => columns_match (rop entry) strict kinds row written 0
  end.
End rows.

(** ** What is outside *)

(** Redis's lists *)
Class EchoStore (M : Type) := {
  lrange : string → M → list string;          (* LRANGE key 0 -1 *)
  rpush : string → string → M → M;
  ltrim : string → Z → M → M;                 (* LTRIM key start -1 *)
  lrem : string → Z → string → M → M;
  lpop : string → M → option string * M;
  incr : string → M → M;
  expire : string → Z → M → M;
  answers : M → bool                          (* a call that gets no answer throws *)
}.

(** the connections, the bridges and jobs that are stored, the databases, the clock
    and what is random; [None] where a call throws *)
Class EchoOutside (M : Type) := {
  echo_store :: EchoStore M;
  connection_now : M → string → option Connection;
  stored_now : M → option (list StoredBridge * list StoredJob);
  catalog_now : M → TableRef → option (DatabaseEngine * list CatalogNamespace);
  engine_now : M → string → option DatabaseEngine;
  browse_now : M → DatabaseTarget → BrowseParams → option Page;
  clock_now : M → Z;
  iv_now : M → nat → bytes;
  uuid_now : M → string
}.

(** what was announced, to be taken back where the write changed nothing *)
Abbreviation Receipt := (option (list (string * string))).

Definition NOTHING : EchoVerdict := {| echo := false; eorigins := [] |}.

Definition texts (v : jsval) : option (list string) :=
  match v with
  | VArr l => all_some ((λ x, match x with VStr s => Some s | _ => None end) <$> l)
  | _ => None
  end.

Section guard.
Context `{JsHost} `{JsPrint} `{!Cipher} {M : Type} `{!EchoOutside M}.
Context (tenth_power : nat → num) (sha1 : string → string) (sha256 : bytes → string).
Context (url_of : string → option UrlParts).
(** [runtimeConfig.echoTtlSeconds], and the keys *)
Context (echoTtl : Z) (current_key : bytes) (previous_keys : string + list bytes).

Definition enabled : bool := 0 <? echoTtl.

Definition id_now (m : M) (r : TableRef) : string := tableId url_of (connection_now m) r.
Definition tag_now (m : M) (r : TableRef) : string := tableTag sha1 (id_now m r).

Definition tables (m : M) : option Topology :=
  match stored_now m with
  | Some (bridges, jobs) => Some (topology (id_now m) (clock_now m) echoTtl bridges jobs)
  | None => None
  end.

(** ** The writing side *)

(** *** What is there now *)

Fixpoint put_rows (text : obj → option string) (rows : list obj) (out : list (string * obj))
  : option (list (string * obj)) :=
  match rows with
  | [] => Some out
  | r :: rows => match text r with Some k => put_rows text rows (map_set k r out) | None => None end
  end.

(** the pages of one question; outer [None]: it goes on *)
Fixpoint current_pages (fuel : nat) (ask : nat → option Page) (text : obj → option string) (offset : nat)
    (out : list (string * obj)) : option (option (list (string * obj))) :=
  match fuel with
  | O => None
  | S fuel =>
      match ask offset with
      | None => Some None
      | Some page =>
          match put_rows text (prows page) out with
          | None => Some None
          | Some out =>
              if negb (phasMore page) || bool_decide (prows page = []) then Some (Some out)
              else current_pages fuel ask text (offset + List.length (prows page)) out
          end
      end
  end.

Definition key_cells (t : DatabaseTarget) (row : Entries) : list written := entry_get row <$> keyColumns t.

Definition current (fuel : nat) (m : M) (t : DatabaseTarget) (rows : list Entries)
    (kinds : list (string * CompareKind)) : option (option (list (string * obj))) :=
  let keys := filter (λ k, usable k = true) (key_cells t <$> rows) in
  if bool_decide (keys = []) then Some (Some []) else
  match engine_now m (tconnectionId t) with
  | None => Some None
  | Some e =>
      let ask offset := browse_now m t
        {| bfilters := in_filters (keyColumns t) keys (Some e);
           bsort := (λ c, {| scolumn := c; sdirection := asc |}) <$> keyColumns t;
           blimit := Z.to_nat 1000; boffset := offset; bcursor := None; bafter := None |} in
      current_pages fuel ask (λ r, keyText ((λ c, Plain (obj_get r c)) <$> keyColumns t)
                                           (kind_of kinds <$> keyColumns t)) 0 []
  end.

Fixpoint all_same (kinds : list (string * CompareKind)) (row : Entries) (now : obj) : option bool :=
  match row with
  | [] => Some true
  | (column, v) :: row =>
      match sameValue tenth_power (kind_of kinds column) v (Plain (obj_get now column)) with
      | Some true => all_same kinds row now
      | r => r
      end
  end.

(** a row that is already what would be written, or that is not there to be deleted
    or marked *)
Record Mark := { already : bool; absent : bool }.
Definition no_mark : Mark := {| already := false; absent := false |}.

Definition mark_row (t : DatabaseTarget) (kinds : list (string * CompareKind)) (mode : WriteMode)
    (there : list (string * obj)) (row : Entries) : option Mark :=
  k ← keyText (key_cells t row) (kind_of kinds <$> keyColumns t);
  match mode, map_get there k with
  | w_upsert, Some now => (λ same, {| already := same; absent := false |}) <$> all_same kinds row now
  | w_upsert, None => Some no_mark
  | _, now => Some {| already := false; absent := bool_decide (now = None) |}
  end.

(** *** What is remembered *)

Definition op_text (o : echo_op) : string := match o with wrote => "write" | deleted => "delete" end.

Definition entry_text (e : Remembered) : json_out :=
  stringify (VObj [("op", VStr (op_text (rop e))); ("r", VStr (rrow e));
                   ("origins", VArr (VStr <$> rorigins e))]).

Definition echo_op_of (mode : WriteMode) : echo_op := match mode with w_delete => deleted | _ => wrote end.

(** one row's key and entry; [None] where it throws *)
Definition remember (tag : string) (facts : Facts) (mode : WriteMode) (origins : list string) (iv : bytes)
    (row : Entries) : option (string * string) :=
  match encodeRows [compact sha256 row] with
  | JText text =>
      match entry_text {| rop := echo_op_of mode; rrow := encrypt current_key iv text; rorigins := origins |} with
      | JText entry => (λ k, (k, entry)) <$> keyOf sha1 tag row (fprimaryKey facts) (fkinds facts)
      | _ => None
      end
  | _ => None
  end.

Definition keep (key : string) : Z := if endsWith UNKEYED key then - PER_TABLE_UNKEYED else - PER_ROW.

Definition push (m : M) (kv : string * string) : M :=
  expire kv.1 echoTtl (ltrim kv.1 (keep kv.1) (rpush kv.1 kv.2 m)).

(** where the row has been, plus where it was just read from *)
Definition origins_from (from : string) (source : option Row) : list string :=
  set_of (match source with Some r => originsOf r | None => [] end ++ [from]).

Definition announced_row (tag from : string) (facts : Facts) (mode : WriteMode) (m : M) (sources : list Row)
    (i : nat) (row : Entries * Mark) : option (list (string * string)) :=
  if already row.2 || absent row.2 then Some []
  else (λ kv, [kv]) <$> remember tag facts mode (origins_from from (sources !! i)) (iv_now m i) row.1.

Definition indices (marks : list Mark) : list nat :=
  fst <$> filter (λ im, already im.2 = true) (imap (λ i x, (i, x)) marks).

(** a bridge is about to write these rows to this target; [None]: the target is
    still being read *)
Definition announce (fuel : nat) (b : ResolvedBridge) (t : DatabaseTarget) (written : list TargetRow)
    (sourceRows : list Row) (mode : WriteMode) (m : M) : option ((Receipt * list nat) * M) :=
  let silent := Some ((None, []), m) in
  match bsource b with
  | FromQuery _ => silent
  | FromTable source =>
      if negb enabled || bool_decide (written = []) then silent else
      match tables m with
      | None => silent
      | Some top =>
          let r := ref_of_target t in
          if negb (bool_decide (id_now m r ∈ tread top)) then silent else
          let from := tag_now m (ref_of_source source) in
          let facts := factsOf (catalog_now m) r in
          let rows := entries <$> written in
          let look := match mode with w_insert => false | _ => negb (bool_decide (keyColumns t = [])) end in
          match (if look then current fuel m t rows (fkinds facts) else Some None) with
          | None => None
          | Some there =>
              match all_some ((λ row, match there with
                                      | Some there => mark_row t (fkinds facts) mode there row
                                      | None => Some no_mark end) <$> rows) with
              | None => silent
              | Some marks =>
                  match all_some (imap (announced_row (tag_now m r) from facts mode m sourceRows)
                                       (zip rows marks)) with
                  | Some said =>
                      let entries := mjoin said in
                      if bool_decide (entries = []) then Some ((Some [], indices marks), m)
                      else if answers m then Some ((Some entries, indices marks), foldl push m entries)
                      else Some ((None, indices marks), m)
                  | None => Some ((None, indices marks), m)
                  end
              end
          end
      end
  end.

(** a bridge is about to empty a target, as its source was emptied *)
Definition announceTruncate (b : ResolvedBridge) (t : DatabaseTarget) (sourceRow : option Row) (m : M)
  : Receipt * M :=
  match bsource b, tables m with
  | FromTable source, Some top =>
      let r := ref_of_target t in
      if negb enabled || negb (bool_decide (id_now m r ∈ tread top)) then (None, m) else
      let key := ECHO_KEY_PREFIX +:+ tag_now m r +:+ TRUNCATES in
      match stringify (VObj [("origins", VArr (VStr <$> origins_from (tag_now m (ref_of_source source)) sourceRow));
                             ("n", VStr (uuid_now m))]) with
      | JText value =>
          if answers m
          then (Some [(key, value)], expire key echoTtl (ltrim key (- PER_ROW) (rpush key value m)))
          else (None, m)
      | _ => (None, m)
      end
  | _, _ => (None, m)
  end.

(** the write failed, or changed nothing *)
Definition retract (r : Receipt) (m : M) : M :=
  match r with
  | Some entries => if answers m then foldl (λ m kv, lrem kv.1 (-1) kv.2 m) m entries else m
  | None => m
  end.

(** ** The reading side *)

(** an entry with its row readable again; one that is not matches nothing *)
Definition open_entry (text : string) : option Remembered :=
  match json_parse text with
  | Some v =>
      match property v "r", texts (property v "origins") with
      | VStr r, Some os =>
          match decrypt current_key previous_keys r with
          | inr row => Some {| rop := if strict_eq (property v "op") (VStr "delete") then deleted else wrote;
                               rrow := row; rorigins := os |}
          | inl _ => None
          end
      | _, _ => None
      end
  | None => None
  end.

(** the first entry that is this change; outer [None]: it throws *)
Fixpoint first_match (test : Remembered → option bool) (texts : list string) (i : nat)
  : option (option (nat * string * Remembered)) :=
  match texts with
  | [] => Some None
  | text :: texts =>
      match open_entry text with
      | None => first_match test texts (S i)
      | Some e => match test e with
                  | None => None
                  | Some true => Some (Some (i, text, e))
                  | Some false => first_match test texts (S i)
                  end
      end
  end.

Definition echo_of (e : Remembered) : EchoVerdict := {| echo := true; eorigins := rorigins e |}.

(** among the writes of its key: it, and whatever was written to the row before it,
    is consumed *)
Definition recognise_keyed (keyed : string) (test : Remembered → option bool) (m : M)
  : option (option (EchoVerdict * M)) :=
  if endsWith UNKEYED keyed then Some None else
  match first_match test (lrange keyed m) 0 with
  | None => None
  | Some None => Some None
  | Some (Some (i, _, e)) => Some (Some (echo_of e, ltrim keyed (Z.of_nat (S i)) m))
  end.

(** among the table's unkeyed writes *)
Definition recognise_loose (loose : string) (test : Remembered → option bool) (m : M)
  : option (option (EchoVerdict * M)) :=
  match first_match test (lrange loose m) 0 with
  | None => None
  | Some None => Some None
  | Some (Some (_, text, e)) => Some (Some (echo_of e, lrem loose 1 text m))
  end.

(** is this change, read from the bridge's source, a write of this instance's coming
    back? a match is consumed *)
Definition recognise (b : ResolvedBridge) (op : option CdcOperation) (row : obj) (primaryKey : option (list string))
    (m : M) : EchoVerdict * M :=
  match bsource b, op with
  | FromQuery _, _ | _, Some op_truncate => (NOTHING, m)
  | FromTable source, _ =>
      let r := ref_of_source source in
      match tables m with
      | Some top =>
          if negb enabled || negb (bool_decide (id_now m r ∈ twritten top)) || negb (answers m) then (NOTHING, m) else
          let facts := factsOf (catalog_now m) r in
          let pk := match primaryKey with Some (c :: pk) => c :: pk | _ => fprimaryKey facts end in
          let test strict e := matches tenth_power sha256 e op row (fkinds facts) strict in
          match keyOf sha1 (tag_now m r) (plain_entries row) pk (fkinds facts) with
          | None => (NOTHING, m)
          | Some keyed =>
              match recognise_keyed keyed (test false) m with
              | None => (NOTHING, m)
              | Some (Some found) => found
              | Some None =>
                  match recognise_loose (ECHO_KEY_PREFIX +:+ tag_now m r +:+ UNKEYED) (test true) m with
                  | Some (Some found) => found
                  | _ => (NOTHING, m)
                  end
              end
          end
      | None => (NOTHING, m)
      end
  end.

Definition recogniseTruncate (b : ResolvedBridge) (m : M) : EchoVerdict * M :=
  match bsource b, tables m with
  | FromTable source, Some top =>
      let r := ref_of_source source in
      if negb enabled || negb (bool_decide (id_now m r ∈ twritten top)) || negb (answers m) then (NOTHING, m) else
      match lpop (ECHO_KEY_PREFIX +:+ tag_now m r +:+ TRUNCATES) m with
      | (None, m) => (NOTHING, m)
      | (Some text, m) =>
          match (v ← json_parse text; texts (property v "origins")) with
          | Some os => ({| echo := true; eorigins := os |}, m)
          | None => (NOTHING, m)
          end
      end
  | _, _ => (NOTHING, m)
  end.

(** ** What is done with a change that was recognised *)

Definition count (b : ResolvedBridge) (m : M) : M :=
  let key := ECHO_KEY_PREFIX +:+ "held:" +:+ bid b in
  if answers m then expire key HELD_BACK_TTL_SECONDS (incr key m) else m.

(** [true]: every table this bridge would write it to is one it has been through: it
    is dropped *)
Definition route (b : ResolvedBridge) (v : EchoVerdict) (m : M) : bool * M :=
  match bdestination b with
  | Database ((_ :: _) as targets) =>
      if echo v && forallb (λ t, bool_decide (tag_now m (ref_of_target t) ∈ eorigins v)) targets
      then (true, count b m) else (false, m)
  | _ => (false, m)
  end.
End guard.
