(* ===== verification/EchoLoop.v ===== *)
(** What the echo guard promises: this instance's own write is known when it comes
    back, and a row that bridges send on to one another comes to rest. *)
From S2P Require Import Prelude JsText JsNumber JsInteger JsDate JsIso JsValue JsJson JsBytes JsonText.
From S2P Require Import RedisTarget BridgeConfig TypeMap Bridge ValueMap RowCompare RowCodec RowSame.
From S2P Require Import CdcState TableReader SinkRows Snapshot Verify VerifyKeys Crypto EchoGuard.

Local Open Scope Z_scope.

(** ** What the guard relies on *)

Fixpoint remove_first (v : string) (l : list string) : list string :=
  match l with
  | [] => []
  | x :: l => if decide (x = v) then l else x :: remove_first v l
  end.

(** [LTRIM key start -1] *)
Definition trimmed (start : Z) (l : list string) : list string :=
  if start <? 0 then drop (List.length l - Z.to_nat (- start)) l else drop (Z.to_nat start) l.

Section outside.
Context {M : Type} `{!EchoOutside M}.

(** what is outside, but for Redis's lists, is as it was *)
Definition same_outside (m m' : M) : Prop :=
  (∀ c, connection_now m' c = connection_now m c) ∧ stored_now m' = stored_now m ∧
  (∀ r, catalog_now m' r = catalog_now m r) ∧ clock_now m' = clock_now m ∧ answers m' = answers m.

#[export] Instance same_outside_preorder : PreOrder same_outside.
Proof.
  split; [done|]. intros m1 m2 m3 (H1 & H2 & H3 & H4 & H5) (G1 & G2 & G3 & G4 & G5).
  split_and!; intros; congruence.
Qed.

(** Redis's lists as its manual has them, and nothing else changes with them *)
Class EchoStoreLaws : Prop := {
  lrange_rpush : ∀ k v m k', lrange k' (rpush k v m) = if decide (k' = k) then lrange k m ++ [v] else lrange k' m;
  lrange_ltrim : ∀ k s m k', lrange k' (ltrim k s m) = if decide (k' = k) then trimmed s (lrange k m) else lrange k' m;
  lrange_lrem : ∀ k v m k', lrange k' (lrem k 1 v m) = if decide (k' = k) then remove_first v (lrange k m) else lrange k' m;
  lrange_expire : ∀ k n m k', lrange k' (expire k n m) = lrange k' m;
  lrange_incr : ∀ k m k', lrange k' (incr k m) = lrange k' m;
  rpush_only : ∀ k v m, same_outside m (rpush k v m);
  ltrim_only : ∀ k s m, same_outside m (ltrim k s m);
  lrem_only : ∀ k n v m, same_outside m (lrem k n v m);
  expire_only : ∀ k n m, same_outside m (expire k n m);
  incr_only : ∀ k m, same_outside m (incr k m);
  iv_ok : ∀ m i, Forall is_byte (iv_now m i) ∧ iv_now m i ≠ []
}.
End outside.

(** SHA-1 in hexadecimal: forty digits, none of them an [s] *)
Record Sha1 (sha1 : string → string) : Prop := {
  sha1_hex : ∀ s, Forall (λ c, c ≠ "s"%char) (chars (sha1 s));
  sha1_long : ∀ s, str_length (sha1 s) = 40%nat
}.

Section guard.
Context {Hhost : JsHost} {Hlaws : JsHostLaws Hhost} `{JsPrint} `{!Cipher} `{!CipherLaws _}.
Context {M : Type} `{!EchoOutside M} `{!EchoStoreLaws}.
Context (tenth_power : nat → num) (sha1 : string → string) (Hsha : Sha1 sha1) (sha256 : bytes → string).
Context (url_of : string → option UrlParts).
Context (echoTtl : Z) (current_key : bytes) (previous_keys : string + list bytes).

Abbreviation tag_now := (tag_now sha1 url_of).
Abbreviation tables := (tables url_of echoTtl).
Abbreviation push := (push echoTtl).
Abbreviation open_entry := (open_entry current_key previous_keys).
Abbreviation announce := (announce tenth_power sha1 sha256 url_of echoTtl current_key).
Abbreviation recognise := (recognise tenth_power sha1 sha256 url_of echoTtl current_key previous_keys).
Abbreviation route := (route sha1 url_of).
Abbreviation matches := (matches tenth_power sha256).

(** ** Redis *)

Lemma push_only m kv : same_outside m (push m kv).
Proof.
  unfold EchoGuard.push. etransitivity; [|apply expire_only].
  etransitivity; [|apply ltrim_only]. apply rpush_only.
Qed.

Lemma keep_one k : keep k < 0 ∧ (1 ≤ Z.to_nat (- keep k))%nat.
Proof. unfold keep, PER_ROW, PER_TABLE_UNKEYED. destruct (endsWith _ _); split; lia. Qed.

(** the last of a list is what was pushed *)
Lemma push_list m k v : ∃ l, lrange k (push m (k, v)) = l ++ [v] ∧ ∃ n, l = drop n (lrange k m).
Proof.
  unfold EchoGuard.push. cbn [fst snd].
  rewrite lrange_expire, lrange_ltrim, decide_True, lrange_rpush, decide_True by done.
  unfold trimmed. destruct (keep_one k) as [Hk Hn]. rewrite (proj2 (Z.ltb_lt _ _)) by done.
  rewrite length_app. cbn [List.length]. rewrite drop_app_le by lia. by eauto.
Qed.

Lemma push_empty m k v : lrange k m = [] → lrange k (push m (k, v)) = [v].
Proof. intros Hk. destruct (push_list m k v) as (l & -> & n & ->). by rewrite Hk, drop_nil. Qed.

Lemma push_other m k v k' : k' ≠ k → lrange k' (push m (k, v)) = lrange k' m.
Proof.
  intros Hk. unfold EchoGuard.push. cbn [fst snd].
  by rewrite lrange_expire, lrange_ltrim, decide_False, lrange_rpush, decide_False.
Qed.

(** ** Entries *)

Lemma texts_strings os : texts (VArr (VStr <$> os)) = Some os.
Proof.
  unfold texts. induction os as [|o os IH]; [done|].
  rewrite !fmap_cons. apply all_some_cons; [done|exact IH].
Qed.

Lemma entry_text_text e : ∃ t, entry_text e = JText t ∧ json_parse t =
  Some (VObj [("op", VStr (op_text (rop e))); ("r", VStr (rrow e)); ("origins", VArr (VStr <$> rorigins e))]).
Proof.
  apply json_round_trip. cbn. rewrite !andb_true_r. apply forallb_forall.
  by intros y (o & -> & _)%list_elem_of_In%list_elem_of_fmap.
Qed.

(** an entry is read as it was remembered *)
Lemma open_remembered op iv text os e :
  Forall is_byte iv → iv ≠ [] → text ≠ EmptyString →
  entry_text {| rop := op; rrow := encrypt current_key iv text; rorigins := os |} = JText e →
  open_entry e = Some {| rop := op; rrow := text; rorigins := os |}.
Proof.
  intros Hiv Hne Htext He.
  match type of He with entry_text ?x = _ => destruct (entry_text_text x) as (t & Ht & Hp) end.
  assert (t = e) as -> by congruence. unfold EchoGuard.open_entry. rewrite Hp. set (v := VObj _).
  change (property v "r") with (VStr (encrypt current_key iv text)).
  change (property v "origins") with (VArr (VStr <$> os)).
  change (property v "op") with (VStr (op_text op)).
  rewrite texts_strings. unfold decrypt, open_secret. rewrite decryptWith_encrypt by done.
  by destruct op.
Qed.

(** ** Keys *)

Lemma tag_length id : List.length (chars (tableTag sha1 id)) = 16%nat.
Proof.
  unfold tableTag, slice. rewrite chars_of_chars, length_take, length_drop, length_chars, (sha1_long _ Hsha). lia.
Qed.

(** a key says its table *)
Definition of_tag (tag k : string) : Prop := take 28 (chars k) = chars (ECHO_KEY_PREFIX +:+ tag).

Lemma of_tag_app id s : of_tag (tableTag sha1 id) (ECHO_KEY_PREFIX +:+ tableTag sha1 id +:+ s).
Proof.
  unfold of_tag. rewrite !chars_app, app_assoc, take_app_length'; [done|].
  by rewrite length_app, tag_length.
Qed.

Lemma of_tag_inj tag tag' k : of_tag tag k → of_tag tag' k → tag = tag'.
Proof.
  unfold of_tag. intros -> H'. rewrite !chars_app in H'. apply app_inv_head in H'.
  by rewrite <- (of_chars_chars tag), <- (of_chars_chars tag'), H'.
Qed.

Lemma keyOf_cases id row pk kinds k :
  keyOf sha1 (tableTag sha1 id) row pk kinds = Some k →
  of_tag (tableTag sha1 id) k ∧
  (k = ECHO_KEY_PREFIX +:+ tableTag sha1 id +:+ UNKEYED ∨ endsWith UNKEYED k = false).
Proof.
  unfold keyOf. destruct (_ && _).
  - destruct (keyText _ _) as [text|]; [|done]. intros [= <-]. split; [apply of_tag_app|right].
    unfold endsWith. rewrite !chars_app, !reverse_app.
    assert (Hs : reverse (chars (sha1 text)) ≠ []).
    { intros Hr%(f_equal List.length). by rewrite length_reverse, length_chars, (sha1_long _ Hsha) in Hr. }
    pose proof (sha1_hex _ Hsha text) as Hx. apply Forall_reverse in Hx.
    destruct (reverse (chars (sha1 text))) as [|c l]; [done|].
    apply Forall_cons in Hx as [Hc _]. cbn. destruct c as [[] [] [] [] [] [] [] []]; done.
  - intros [= <-]. split; [apply of_tag_app|by left].
Qed.

(** ** A row that reads as it was written *)

(** the row, as a table holds it: it can be looked up, it can be kept, and it is the
    same when it is read back *)
Record Readable (m : M) (row : obj) (r : TableRef) (k : string) : Prop := {
  readable_key : keyOf sha1 (tag_now m r) (plain_entries row) (fprimaryKey (factsOf (catalog_now m) r))
                       (fkinds (factsOf (catalog_now m) r)) = Some k;
  readable_same : ∀ strict, columns_match tenth_power sha256 wrote strict (fkinds (factsOf (catalog_now m) r)) row
                    (compact sha256 (plain_entries row)) 0 = Some true;
  readable_kept : storable (VObj (compact sha256 (plain_entries row))) = true
}.

Definition loose_key (m : M) (r : TableRef) : string := ECHO_KEY_PREFIX +:+ tag_now m r +:+ UNKEYED.

Lemma plain_row_entries row : entries (Columns (plain_row row)) = plain_entries row.
Proof. reflexivity. Qed.

(** an entry that is this row, written after it went through these tables *)
Definition is_entry (row : obj) (os : list string) (e : string) : Prop :=
  ∃ text, open_entry e = Some {| rop := wrote; rrow := text; rorigins := os |} ∧
          decodeRows text = Some [compact sha256 (plain_entries row)].

(** one that is not this change *)
Definition passed_over (kinds : list (string * CompareKind)) (row : obj) (text : string) : Prop :=
  ∀ e strict, open_entry text = Some e →
    matches e (Some op_insert) row kinds strict = Some false.

Lemma remembered_row m b s t row r k top fuel :
  bsource b = FromTable s → enabled echoTtl = true → answers m = true → tables m = Some top →
  id_now url_of m (ref_of_target t) ∈ tread top → Readable m row (ref_of_target t) k →
  ∃ e, announce fuel b t [Columns (plain_row row)] [r] w_insert m =
         Some ((Some [(k, e)], []), push m (k, e)) ∧
       is_entry row (origins_from (tag_now m (ref_of_source s)) (Some r)) e.
Proof.
  intros Hs Hen Ha Htop Hread [Hkey _ Hkept]. unfold EchoGuard.announce. rewrite Hs, Hen, Htop.
  change (negb true || bool_decide ([Columns (plain_row row)] = [])) with false. cbn [negb].
  rewrite (bool_decide_true _ Hread). cbn [negb].
  rewrite fmap_cons, plain_row_entries. set (facts := factsOf _ _). fold facts in Hkey.
  destruct (stored_rows_read_back_all [compact sha256 (plain_entries row)]) as (text & Henc & Hdec);
    [by repeat constructor|].
  assert (Htext : text ≠ EmptyString) by (by intros ->).
  set (os := origins_from _ _). destruct (iv_ok m 0) as [Hiv Hne].
  assert (He : ∃ e, entry_text {| rop := wrote; rrow := encrypt current_key (iv_now m 0) text; rorigins := os |} = JText e).
  { edestruct entry_text_text as (e & He & _). by exists e. }
  destruct He as [e He]. exists e. split.
  - assert (Hr : announced_row sha1 sha256 current_key (tag_now m (ref_of_target t)) (tag_now m (ref_of_source s))
                   facts w_insert m [r] 0 (plain_entries row, no_mark) = Some [(k, e)]).
    { unfold announced_row. cbn [already absent no_mark fst snd orb]. unfold remember.
      change ([r] !! 0%nat) with (Some r). fold os. rewrite Henc. change (echo_op_of w_insert) with wrote.
      by rewrite He, Hkey. }
    cbn [fmap list_fmap all_some mbind option_bind imap zip zip_with]. cbv beta iota zeta.
    rewrite Hr. cbn. by rewrite Ha.
  - exists text. split; [|done]. by eapply open_remembered.
Qed.

(** ** A change that comes back *)

Definition kinds_now (m : M) (r : TableRef) : list (string * CompareKind) := fkinds (factsOf (catalog_now m) r).

Lemma first_match_passes test l i :
  Forall (λ text, ∀ e, open_entry text = Some e → test e = Some false) l →
  first_match current_key previous_keys test l i = Some None.
Proof.
  intros Hl. revert i. induction Hl as [|text l Ht Hl IH]; intros i; [done|]. cbn [first_match].
  destruct (EchoGuard.open_entry _ _ text) as [e|] eqn:He; [|apply IH]. by rewrite Ht.
Qed.

Lemma first_match_last test l e x i :
  Forall (λ text, ∀ e, open_entry text = Some e → test e = Some false) l →
  open_entry e = Some x → test x = Some true →
  first_match current_key previous_keys test (l ++ [e]) i = Some (Some ((i + List.length l)%nat, e, x)).
Proof.
  intros Hl He Hx. revert i. induction Hl as [|text l Ht Hl IH]; intros i; cbn [first_match app].
  - by rewrite He, Hx, Nat.add_0_r.
  - destruct (EchoGuard.open_entry _ _ text) as [y|] eqn:Hy; [rewrite Ht by done|]; rewrite IH;
      cbn [List.length]; by rewrite Nat.add_succ_r.
Qed.

Lemma entry_matches m row r k os e : Readable m row r k → is_entry row os e →
  ∃ x, open_entry e = Some x ∧ rop x = wrote ∧ rorigins x = os ∧
       ∀ strict, matches x (Some op_insert) row (kinds_now m r) strict = Some true.
Proof.
  intros [_ Hsame _] (text & He & Hd). eexists. split_and!; [exact He|done|done|].
  intros strict. unfold EchoGuard.matches. cbn. rewrite Hd. apply Hsame.
Qed.

Lemma recognised_row m b s row k l e os top :
  bsource b = FromTable s → enabled echoTtl = true → answers m = true → tables m = Some top →
  id_now url_of m (ref_of_source s) ∈ twritten top → Readable m row (ref_of_source s) k →
  lrange k m = l ++ [e] → is_entry row os e → Forall (passed_over (kinds_now m (ref_of_source s)) row) l →
  ∃ m', recognise b (Some op_insert) row None m = ({| echo := true; eorigins := os |}, m') ∧
        same_outside m m' ∧ (∀ k', k' ≠ k → lrange k' m' = lrange k' m) ∧ (l = [] → lrange k m' = []).
Proof.
  intros Hs Hen Ha Htop Hw HR Hl He Hpass.
  destruct (entry_matches m row _ k os e HR He) as (x & Hx & Hop & <- & Hm). destruct HR as [Hkey _ _].
  assert (Hp : ∀ strict, Forall (λ text, ∀ e, open_entry text = Some e →
            matches e (Some op_insert) row (kinds_now m (ref_of_source s)) strict = Some false) l).
  { intros strict. eapply Forall_impl; [exact Hpass|]. intros text Ht y Hy. by apply Ht. }
  unfold EchoGuard.recognise. rewrite Hs, Htop, Hen, Ha, (bool_decide_true _ Hw). cbn [negb orb].
  rewrite Hkey. unfold recognise_keyed.
  destruct (keyOf_cases _ _ _ _ _ Hkey) as [_ [Hk|Hk]].
  - assert (Hends : endsWith UNKEYED k = true).
    { rewrite Hk. unfold endsWith. apply is_prefix_spec. rewrite !chars_app, !reverse_app, <- app_assoc. by eexists. }
    rewrite Hends. unfold recognise_loose. change (ECHO_KEY_PREFIX +:+ tag_now m (ref_of_source s) +:+ UNKEYED)
      with (loose_key m (ref_of_source s)). change (k = loose_key m (ref_of_source s)) in Hk. rewrite <- Hk, Hl.
    erewrite first_match_last; [|exact (Hp true)|exact Hx|exact (Hm true)]. eexists. split; [done|].
    split_and!; [apply lrem_only|intros k' Hk'; by rewrite lrange_lrem, decide_False|].
    intros ->. rewrite lrange_lrem, decide_True, Hl by done. cbn. by rewrite decide_True.
  - rewrite Hk, Hl. erewrite first_match_last; [|exact (Hp false)|exact Hx|exact (Hm false)].
    eexists. split; [done|].
    split_and!; [apply ltrim_only|intros k' Hk'; by rewrite lrange_ltrim, decide_False|].
    intros ->. rewrite lrange_ltrim, decide_True, Hl by done. done.
Qed.

(** where nothing is remembered of a row, nothing is recognised *)
Lemma not_recognised m b s row k :
  bsource b = FromTable s → Readable m row (ref_of_source s) k →
  lrange k m = [] → lrange (loose_key m (ref_of_source s)) m = [] →
  recognise b (Some op_insert) row None m = (NOTHING, m).
Proof.
  intros Hs [Hkey _ _] Hk Hloose. unfold EchoGuard.recognise. rewrite Hs.
  destruct (EchoGuard.tables _ _ m) as [top|]; [|done]. destruct (_ || _ || _); [done|].
  rewrite Hkey. unfold recognise_keyed, recognise_loose. rewrite Hk.
  change (ECHO_KEY_PREFIX +:+ tag_now m (ref_of_source s) +:+ UNKEYED) with (loose_key m (ref_of_source s)).
  rewrite Hloose. by destruct (endsWith _ _).
Qed.

(** ** What does not change with Redis's lists *)

Lemma same_id m m' r : same_outside m m' → id_now url_of m' r = id_now url_of m r.
Proof. intros (Hc & _). unfold id_now, tableId. by rewrite Hc. Qed.

Lemma same_tag m m' r : same_outside m m' → tag_now m' r = tag_now m r.
Proof. intros Hm. unfold EchoGuard.tag_now. by rewrite (same_id m m'). Qed.

Lemma same_facts m m' r : same_outside m m' → factsOf (catalog_now m') r = factsOf (catalog_now m) r.
Proof. intros (_ & _ & Hr & _). unfold factsOf. by rewrite Hr. Qed.

Lemma same_tables m m' : same_outside m m' → tables m' = tables m.
Proof.
  intros Hm. unfold EchoGuard.tables. destruct Hm as (Hc & -> & _ & -> & _).
  destruct (stored_now m) as [[bridges jobs]|]; [|done]. f_equal. unfold topology.
  assert (Hid : ∀ r, id_now url_of m' r = id_now url_of m r) by (intros r; unfold id_now, tableId; by rewrite Hc).
  generalize (sjbridge <$> filter (λ j, listens (clock_now m) echoTtl j = true) jobs). intros listening.
  generalize {| tread := []; twritten := [] |}. induction bridges as [|b bridges IH]; intros top; [done|].
  cbn [foldl]. rewrite <- IH. f_equal. unfold add_bridge.
  destruct (sbread b) as [[[[s|q] trigger] [h|ts]]|]; rewrite ?Hid; try done.
  all: f_equal; f_equal; apply list_fmap_ext; intros; apply Hid.
Qed.

Lemma same_readable m m' row r k : same_outside m m' → Readable m row r k → Readable m' row r k.
Proof. intros Hm [Hk Hs Hkept]. split; [|intros strict|done]; by rewrite ?(same_tag m m'), (same_facts m m'). Qed.

(** C37. An insert this instance wrote is known when it comes back. A bridge writes a row
    to a table that some live bridge reads and some bridge writes; stores and Redis
    answer, the row reads in the table as it was written ([Readable]: its key is the
    same on both sides, and every column compares equal to what is remembered of it),
    and what else is remembered under its key is not taken for it. Then the write is
    remembered before it is made; a bridge that reads the table is told of the row that
    it is this instance's own, and the tables it has been through, the one it was read
    from among them; and if all this bridge would do is to write the row to that one
    again, the change is dropped *)
Theorem own_write_is_known m b b' s s' t r row k top fuel :
  enabled echoTtl = true → answers m = true → tables m = Some top →
  bsource b = FromTable s → bsource b' = FromTable s' →
  id_now url_of m (ref_of_target t) ∈ tread top → id_now url_of m (ref_of_source s') ∈ twritten top →
  Readable m row (ref_of_target t) k → Readable m row (ref_of_source s') k →
  Forall (passed_over (kinds_now m (ref_of_source s')) row) (lrange k m) →
  let os := origins_from (tag_now m (ref_of_source s)) (Some r) in
  ∃ e m' m'',
    announce fuel b t [Columns (plain_row row)] [r] w_insert m = Some ((Some [(k, e)], []), m') ∧
    recognise b' (Some op_insert) row None m' = ({| echo := true; eorigins := os |}, m'') ∧
    ∀ ts, bdestination b' = Database ts → ts ≠ [] →
      Forall (λ t', id_now url_of m (ref_of_target t') = id_now url_of m (ref_of_source s)) ts →
      (route b' {| echo := true; eorigins := os |} m'').1 = true.
Proof.
  intros Hen Ha Htop Hs Hs' Hread Hwritten HR HR' Hpass os.
  destruct (remembered_row m b s t row r k top fuel) as (e & Hann & He); [done..|].
  pose proof (push_only m (k, e)) as Hm. set (m' := push m (k, e)) in *.
  destruct (push_list m k e) as (l & Hl & n & Hn).
  destruct (recognised_row m' b' s' row k l e os top) as (m'' & Hrec & Hm' & _); try done.
  - destruct Hm as (_ & _ & _ & _ & ->). done.
  - by rewrite (same_tables m m').
  - by rewrite (same_id m m').
  - by apply (same_readable m m').
  - unfold kinds_now. rewrite (same_facts m m') by done. rewrite Hn. by apply Forall_drop.
  - exists e, m', m''. split_and!; [done|done|]. intros ts Hd Hne Hall. unfold EchoGuard.route. rewrite Hd.
    destruct ts as [|t' ts]; [done|]. cbn [echo eorigins andb].
    assert (Hr : forallb (λ t, bool_decide (tag_now m'' (ref_of_target t) ∈ os)) (t' :: ts) = true); [|by rewrite Hr].
    apply forallb_forall. intros t2 Ht2%list_elem_of_In. apply bool_decide_eq_true.
    rewrite Forall_forall in Hall. unfold EchoGuard.tag_now.
    rewrite (same_id m m''), Hall by (done || by etransitivity).
    unfold os, origins_from. rewrite elem_of_set_of. set_solver.
Qed.

(** ** A row that is there already *)

Lemma put_rows_total text (rows : list obj) out : (∀ r, r ∈ rows → is_Some (text r)) →
  ∃ out', put_rows text rows out = Some out'.
Proof.
  revert out. induction rows as [|r rows IH]; intros out Ht; [by exists out|]. cbn [put_rows].
  destruct (Ht r) as [k ->]; [by left|]. apply IH. intros r' Hr. apply Ht. by right.
Qed.

(** the pages of a table that holds still come to an end, however the engine says
    whether there are more *)
Lemma current_pages_total (T : list obj) (n : nat) ask text :
  (∀ off, ∃ page, ask off = Some page ∧ prows page = take n (drop off T)) →
  (∀ r, r ∈ T → is_Some (text r)) →
  ∀ fuel off out, (List.length T - off < fuel)%nat → ∃ out', current_pages fuel ask text off out = Some (Some out').
Proof.
  intros Hask Htext. induction fuel as [|fuel IH]; intros off out Hf; [lia|]. cbn [current_pages].
  destruct (Hask off) as (page & -> & Hrows).
  destruct (put_rows_total text (prows page) out) as [out' ->].
  { intros r Hr. apply Htext. rewrite Hrows in Hr.
    rewrite <- (take_drop off T), <- (take_drop n (drop off T)). set_solver. }
  destruct (decide (prows page = [])) as [He|He]; [rewrite bool_decide_true, orb_true_r by done; eauto|].
  destruct (phasMore page); [|eauto]. rewrite bool_decide_false by done. cbn [negb orb].
  apply IH. rewrite Hrows in *. destruct (take n (drop off T)) as [|x l] eqn:Hl; [done|].
  assert (off < List.length T)%nat; [|cbn; lia].
  apply Nat.nle_gt. intros Hge. rewrite drop_ge, take_nil in Hl by done. done.
Qed.

(** a row that is what would be written already is neither written nor remembered *)
Lemma present_row_is_left_alone m b s t w r k now there top fuel :
  enabled echoTtl = true → tables m = Some top → bsource b = FromTable s →
  id_now url_of m (ref_of_target t) ∈ tread top → keyColumns t ≠ [] →
  current fuel m t [entries w] (kinds_now m (ref_of_target t)) = Some (Some there) →
  keyText (key_cells t (entries w)) (kind_of (kinds_now m (ref_of_target t)) <$> keyColumns t) = Some k →
  map_get there k = Some now → all_same tenth_power (kinds_now m (ref_of_target t)) (entries w) now = Some true →
  announce fuel b t [w] [r] w_upsert m = Some ((Some [], [0%nat]), m).
Proof.
  intros Hen Htop Hs Hread Hk Hcur Hkey Hnow Hsame. unfold EchoGuard.announce. rewrite Hs, Hen, Htop.
  change (negb true || bool_decide ([w] = [])) with false. cbn [negb].
  rewrite (bool_decide_true _ Hread), (bool_decide_false _ Hk). cbn [negb]. rewrite fmap_cons.
  change (entries <$> []) with (@nil Entries). unfold kinds_now in *. rewrite Hcur.
  cbn [fmap list_fmap all_some]. unfold mark_row. rewrite Hkey. cbn [mbind option_bind]. rewrite Hnow, Hsame.
  reflexivity.
Qed.

(** ** Bridges that write what others read

    tables that hold the same columns, rows that are inserted, one change after the
    other as the tables' logs report them *)

Definition source_ref (b : ResolvedBridge) : option TableRef :=
  match bsource b with FromTable s => Some (ref_of_source s) | FromQuery _ => None end.
Definition targets_of (b : ResolvedBridge) : list DatabaseTarget :=
  match bdestination b with Database ts => ts | Http _ => [] end.

Definition reads_table (m : M) (id : string) (b : ResolvedBridge) : bool :=
  match source_ref b with Some r => bool_decide (id_now url_of m r = id) | None => false end.

(** who is told of a row that was written, and what *)
Definition reported (net : list ResolvedBridge) (m : M) (id : string) (w : TargetRow) : list (ResolvedBridge * obj) :=
  match w with
  | Columns r => (λ b, (b, values r)) <$> filter (λ b, reads_table m id b = true) net
  | _ => []
  end.

(** a row as the bridge passes it on *)
Definition came_with (row : obj) (os : list string) : Row := withOrigins {| cols := row; origins := [] |} os.

(** what one target is sent, the changes that follow, and the tables that were
    written; [None]: a target is still being read *)
Definition send_to (fuel : nat) (net : list ResolvedBridge) (b : ResolvedBridge) (r : Row) (t : DatabaseTarget) (m : M)
  : option (list (ResolvedBridge * obj) * list string * M) :=
  match mapForTarget t [plain_row (cols r)] (Some op_insert) with
  | inl _ => Some ([], [], m)
  | inr rows =>
      match announce fuel b t rows [r] (writeModeOf t (Some op_insert)) m with
      | None => None
      | Some ((_, unchanged), m') =>
          let id := id_now url_of m (ref_of_target t) in
          let new := snd <$> filter (λ iw, iw.1 ∉ unchanged) (imap (λ i w, (i, w)) rows) in
          Some (new ≫= reported net m id, (λ _, id) <$> new, m')
      end
  end.

Fixpoint send_all (fuel : nat) (net : list ResolvedBridge) (b : ResolvedBridge) (r : Row) (ts : list DatabaseTarget)
    (m : M) : option (list (ResolvedBridge * obj) * list string * M) :=
  match ts with
  | [] => Some ([], [], m)
  | t :: ts =>
      match send_to fuel net b r t m with
      | None => None
      | Some (changes, sent, m) =>
          match send_all fuel net b r ts m with
          | None => None
          | Some (changes', sent', m) => Some (changes ++ changes', sent ++ sent', m)
          end
      end
  end.

(** one change, read by a bridge *)
Definition handle (fuel : nat) (net : list ResolvedBridge) (b : ResolvedBridge) (row : obj) (m : M)
  : option (list (ResolvedBridge * obj) * list string * M) :=
  let (v, m) := recognise b (Some op_insert) row None m in
  let (dropped, m) := route b v m in
  if dropped then Some ([], [], m) else send_all fuel net b (came_with row (eorigins v)) (targets_of b) m.

(** at most [n] changes: what is left of them, the tables that were written *)
Fixpoint run (n fuel : nat) (net : list ResolvedBridge) (pending : list (ResolvedBridge * obj)) (sent : list string)
    (m : M) : option (list (ResolvedBridge * obj) * list string * M) :=
  match pending, n with
  | [], _ | _, O => Some (pending, sent, m)
  | (b, row) :: rest, S n =>
      match handle fuel net b row m with
      | None => None
      | Some (changes, sent', m) => run n fuel net (rest ++ changes) (sent ++ sent') m
      end
  end.

(** a bridge of the net: it reads one table, and inserts into one other; both hold
    the row, and nothing is remembered of it *)
Record Hop (m : M) (top : Topology) (row : obj) (b : ResolvedBridge) (s : TableSource) (t : DatabaseTarget) : Prop := {
  hop_source : bsource b = FromTable s;
  hop_target : bdestination b = Database [t];
  hop_inserts : writeModeOf t (Some op_insert) = w_insert;
  hop_columns : mapForTarget t [plain_row row] (Some op_insert) = inr [Columns (plain_row row)];
  hop_apart : id_now url_of m (ref_of_source s) ≠ id_now url_of m (ref_of_target t);
  hop_read : id_now url_of m (ref_of_source s) ∈ tread top;
  hop_written : id_now url_of m (ref_of_source s) ∈ twritten top;
  hop_readable : ∃ k, Readable m row (ref_of_source s) k ∧ lrange k m = [] ∧
                      lrange (loose_key m (ref_of_source s)) m = [];
  hop_readable_there : ∃ k, Readable m row (ref_of_target t) k
}.

(** the tables of a net *)
Definition names (m : M) (net : list ResolvedBridge) : list string :=
  net ≫= λ b, match source_ref b with Some r => [id_now url_of m r] | None => [] end ++
              (id_now url_of m ∘ ref_of_target <$> targets_of b).

(** a net: every table has one reader at most, is described alike to those who read
    and those who write it, and has a tag of its own *)
Record Net (m : M) (top : Topology) (row : obj) (net : list ResolvedBridge) : Prop := {
  net_hop : ∀ b, b ∈ net → ∃ s t, Hop m top row b s t;
  net_once : NoDup net;
  net_reader : ∀ b b' s s', b ∈ net → b' ∈ net → bsource b = FromTable s → bsource b' = FromTable s' →
    id_now url_of m (ref_of_source s) = id_now url_of m (ref_of_source s') → b = b';
  net_facts : ∀ b b' s t, b ∈ net → b' ∈ net → bsource b = FromTable s → t ∈ targets_of b' →
    id_now url_of m (ref_of_source s) = id_now url_of m (ref_of_target t) →
    factsOf (catalog_now m) (ref_of_source s) = factsOf (catalog_now m) (ref_of_target t);
  net_tags : ∀ id id', id ∈ names m net → id' ∈ names m net → tableTag sha1 id = tableTag sha1 id' → id = id'
}.

Section net.
Context (m0 : M) (top : Topology) (row : obj) (net : list ResolvedBridge).
Context (Hnet : Net m0 top row net) (Hen : enabled echoTtl = true) (Ha : answers m0 = true) (Htop : tables m0 = Some top).

Abbreviation id0 := (id_now url_of m0).

(** nothing is remembered of the row where this bridge reads *)
Definition clean (m : M) (r : TableRef) : Prop :=
  ∀ k, Readable m0 row r k → lrange k m = [] ∧ lrange (loose_key m0 r) m = [].

(** what is remembered of the row there: nothing, if somebody made the change;
    otherwise that it went through these tables *)
Definition remembers (m : M) (r : TableRef) (path os : list string) : Prop :=
  (path = [] ∧ os = [] ∧ clean m r) ∨
  (path ≠ [] ∧ (∀ id, id ∈ names m0 net → tableTag sha1 id ∈ os ↔ id ∈ path) ∧
   ∃ e, is_entry row os e ∧ ∀ k, Readable m0 row r k → lrange k m = [e]).

Lemma same_loose m m' r : same_outside m m' → loose_key m' r = loose_key m r.
Proof. intros Hm. unfold loose_key. by rewrite (same_tag m m'). Qed.

Lemma readable_once m r k k' : Readable m row r k → Readable m row r k' → k = k'.
Proof. intros [H1' _ _] [H2' _ _]. congruence. Qed.

Lemma source_name b s : b ∈ net → bsource b = FromTable s → id0 (ref_of_source s) ∈ names m0 net.
Proof.
  intros Hb Hs. unfold names. apply list_elem_of_bind. exists b. split; [|done].
  unfold source_ref. rewrite Hs. by left.
Qed.

Lemma target_name b t : b ∈ net → t ∈ targets_of b → id0 (ref_of_target t) ∈ names m0 net.
Proof.
  intros Hb Ht. unfold names. apply list_elem_of_bind. exists b. split; [|done].
  apply elem_of_app. right. apply list_elem_of_fmap. by exists t.
Qed.

(** the bridge is told what is remembered, and the tables not visited yet are left
    alone *)
Lemma told b s t path os m :
  b ∈ net → Hop m0 top row b s t → same_outside m0 m → remembers m (ref_of_source s) path os →
  ∃ m', recognise b (Some op_insert) row None m =
          ({| echo := negb (bool_decide (path = [])); eorigins := os |}, m') ∧
        same_outside m0 m' ∧
        (∀ r, id0 r ∈ names m0 net → id0 r ≠ id0 (ref_of_source s) → clean m r → clean m' r).
Proof.
  intros Hb Hh Hm Hr. pose proof (same_readable m0 m row) as Hsr.
  destruct Hh as [Hs _ _ _ _ _ Hw (k & HR & _) _].
  destruct Hr as [(-> & -> & Hc)|(Hp & Hos & e & He & Hk)].
  - exists m. split_and!; [|done|done]. destruct (Hc k HR) as [Hk Hl].
    rewrite (not_recognised m b s row k); [done|done|by apply Hsr|done|by rewrite (same_loose m0 m)].
  - destruct (recognised_row m b s row k [] e os top) as (m' & Hrec & Hm' & Hother & _); try done.
    + by destruct Hm as (_ & _ & _ & _ & ->).
    + by rewrite (same_tables m0 m).
    + by rewrite (same_id m0 m).
    + by apply Hsr.
    + by apply Hk.
    + exists m'. rewrite bool_decide_false by done. split_and!; [done|by etransitivity|].
      intros r Hn Hne Hc k' HR'. destruct (Hc k' HR') as [Hk' Hl].
      destruct HR as [Hkey _ _], HR' as [Hkey' _ _].
      destruct (keyOf_cases _ _ _ _ _ Hkey) as [Ht _], (keyOf_cases _ _ _ _ _ Hkey') as [Ht' _].
      assert (Hd : ∀ k2, of_tag (tableTag sha1 (id0 r)) k2 → k2 ≠ k).
      { intros k2 Hk2 ->. apply Hne. apply (net_tags _ _ _ _ Hnet); [done|by eapply source_name|].
        by eapply of_tag_inj. }
      rewrite !Hother; [done| |]; apply Hd; [apply of_tag_app|done].
Qed.

(** what a bridge sends to its target, and what is remembered of it then *)
Lemma sent_on fuel b s t r m :
  b ∈ net → Hop m0 top row b s t → same_outside m0 m → cols r = row →
  ∃ m', send_all fuel net b r (targets_of b) m =
          Some (reported net m (id0 (ref_of_target t)) (Columns (plain_row row)), [id0 (ref_of_target t)], m') ∧
        same_outside m0 m' ∧
        (∀ r', id0 r' ∈ names m0 net → id0 r' ≠ id0 (ref_of_target t) → clean m r' → clean m' r') ∧
        (id0 (ref_of_target t) ∈ tread top → ∃ k e, Readable m0 row (ref_of_target t) k ∧
           is_entry row (origins_from (tag_now m0 (ref_of_source s)) (Some r)) e ∧
           (lrange k m = [] → lrange k m' = [e])).
Proof.
  intros Hb Hh Hm Hr. pose proof (same_readable m0 m row) as Hsr.
  destruct Hh as [Hs Hd Hi Hc _ _ _ _ (k & HR)].
  assert (Ht : targets_of b = [t]) by (unfold targets_of; by rewrite Hd). rewrite Ht.
  assert (Hname : id0 (ref_of_target t) ∈ names m0 net) by (eapply target_name; [done|rewrite Ht; by left]).
  cbn [send_all]. unfold send_to. rewrite Hr, Hc, Hi.
  destruct (decide (id0 (ref_of_target t) ∈ tread top)) as [Hread|Hread].
  - destruct (remembered_row m b s t row r k top fuel) as (e & Hann & He); try done.
    + by destruct Hm as (_ & _ & _ & _ & ->).
    + by rewrite (same_tables m0 m).
    + by rewrite (same_id m0 m).
    + by apply Hsr.
    + rewrite Hann. exists (push m (k, e)). cbn. rewrite !(same_id m0 m) by done.
      assert (Hm' : same_outside m0 (push m (k, e))) by (etransitivity; [done|apply push_only]).
      rewrite decide_True by apply not_elem_of_nil. cbn. rewrite !app_nil_r.
      split_and!; [done|done| |].
      * intros r' Hn Hne Hcl k' HR'. destruct (Hcl k' HR') as [Hk' Hl'].
        destruct HR as [Hkey _ _], HR' as [Hkey' _ _].
        destruct (keyOf_cases _ _ _ _ _ Hkey) as [Htag _], (keyOf_cases _ _ _ _ _ Hkey') as [Htag' _].
        assert (Hapart : ∀ k2, of_tag (tableTag sha1 (id0 r')) k2 → k2 ≠ k).
        { intros k2 Hk2 ->. apply Hne, (net_tags _ _ _ _ Hnet); [done..|]. by eapply of_tag_inj. }
        rewrite !push_other; [done| |]; apply Hapart; [apply of_tag_app|done].
      * intros _. exists k, e. split_and!; [done| |by apply push_empty].
        rewrite (same_tag m0 m) in He by done. exact He.
  - assert (Hann : announce fuel b t [Columns (plain_row row)] [r] w_insert m = Some ((None, []), m)).
    { unfold EchoGuard.announce. rewrite Hs. destruct (_ || _); [done|].
      rewrite (same_tables m0 m), Htop, (same_id m0 m), (bool_decide_false _ Hread) by done. done. }
    rewrite Hann. exists m. cbn. rewrite !(same_id m0 m) by done.
    rewrite decide_True by apply not_elem_of_nil. cbn. rewrite !app_nil_r.
    split_and!; [done|done|by auto|done].
Qed.

Lemma readers_of m id : same_outside m0 m →
  (∃ b s, b ∈ net ∧ bsource b = FromTable s ∧ id0 (ref_of_source s) = id ∧
          reported net m id (Columns (plain_row row)) = [(b, row)]) ∨
  (reported net m id (Columns (plain_row row)) = []).
Proof.
  intros Hm. unfold reported. change (values (plain_row row)) with row.
  set (f := λ b, reads_table m id b = true).
  assert (Hf : ∀ b, f b → ∃ s, bsource b = FromTable s ∧ id0 (ref_of_source s) = id).
  { intros b. unfold f, reads_table, source_ref. destruct (bsource b) as [s|]; [|done].
    rewrite (same_id m0 m) by done. intros Hid%bool_decide_eq_true. by exists s. }
  assert (Hin : ∀ b, b ∈ filter f net → b ∈ net ∧ f b) by (intros b; rewrite list_elem_of_filter; tauto).
  pose proof (NoDup_filter f net (net_once _ _ _ _ Hnet)) as Hd.
  destruct (filter f net) as [|b [|b' l]] eqn:Hl; [by right|left|exfalso].
  - destruct (Hin b) as [Hb (s & Hs & Hid)%Hf]; [by left|]. by exists b, s.
  - destruct (Hin b) as [Hb (s & Hs & Hid)%Hf]; [by left|].
    destruct (Hin b') as [Hb' (s' & Hs' & Hid')%Hf]; [by right; left|].
    assert (b = b') as -> by (eapply (net_reader _ _ _ _ Hnet); [done|done|done|done|congruence]).
    apply NoDup_cons in Hd as [Hd _]. apply Hd. by left.
Qed.

Definition source_names : list string :=
  net ≫= λ b, match source_ref b with Some r => [id0 r] | None => [] end.

Lemma in_source_names b s : b ∈ net → bsource b = FromTable s → id0 (ref_of_source s) ∈ source_names.
Proof.
  intros Hb Hs. unfold source_names. apply list_elem_of_bind. exists b. split; [|done].
  unfold source_ref. rewrite Hs. by left.
Qed.

Lemma source_names_length : (List.length source_names ≤ List.length net)%nat.
Proof.
  unfold source_names. clear. induction net as [|b l IH]; [done|]. cbn [mbind list_bind].
  rewrite length_app. cbn [List.length]. destruct (source_ref b); cbn [List.length]; cbn in IH; lia.
Qed.

(** the bridge is told, and what it does with that: it drops the change where its
    target is a table the row has been through, and sends it on otherwise *)
Lemma routed b s t path os m m1 :
  b ∈ net → Hop m0 top row b s t → same_outside m0 m1 → remembers m (ref_of_source s) path os →
  (route b {| echo := negb (bool_decide (path = [])); eorigins := os |} m1).1 =
    bool_decide (id0 (ref_of_target t) ∈ path) ∧
  (id0 (ref_of_target t) ∉ path →
   (route b {| echo := negb (bool_decide (path = [])); eorigins := os |} m1).2 = m1).
Proof.
  intros Hb Hh Hm Hr. destruct Hh as [_ Hd _ _ _ _ _ _ _].
  assert (Hn : id0 (ref_of_target t) ∈ names m0 net).
  { eapply target_name; [done|]. unfold targets_of. rewrite Hd. by left. }
  unfold EchoGuard.route. rewrite Hd. cbn [echo eorigins forallb]. rewrite andb_true_r, (same_tag m0 m1) by done.
  destruct Hr as [(-> & -> & _)|(Hp & Hos & _)].
  - cbn. rewrite bool_decide_false by apply not_elem_of_nil. done.
  - rewrite (bool_decide_false (path = [])) by done. cbn [negb andb].
    rewrite (bool_decide_ext (tag_now m0 (ref_of_target t) ∈ os) (id0 (ref_of_target t) ∈ path)) by (by apply Hos).
    case_bool_decide; done.
Qed.

Lemma origins_came os : originsOf (came_with row os) = os.
Proof. by destruct os. Qed.

(** what the next bridge finds *)
Lemma remembered_next b s t b' s' path os mr m m' :
  b ∈ net → b' ∈ net → Hop m0 top row b s t → bsource b' = FromTable s' →
  id0 (ref_of_source s') = id0 (ref_of_target t) →
  remembers mr (ref_of_source s) path os → clean m (ref_of_source s') →
  (∃ k e, Readable m0 row (ref_of_target t) k ∧
     is_entry row (origins_from (tag_now m0 (ref_of_source s)) (Some (came_with row os))) e ∧
     (lrange k m = [] → lrange k m' = [e])) →
  remembers m' (ref_of_source s') (path ++ [id0 (ref_of_source s)])
            (origins_from (tag_now m0 (ref_of_source s)) (Some (came_with row os))).
Proof.
  intros Hb Hb' Hh Hs' Hid Hr Hc (k & e & HR & He & Hk). right. split_and!.
  - by destruct path.
  - intros id Hn. unfold origins_from. rewrite elem_of_set_of, origins_came, !elem_of_app, !list_elem_of_singleton.
    destruct Hh as [Hs _ _ _ _ _ _ _ _]. pose proof (source_name b s Hb Hs) as Hsn.
    assert (Ht : tableTag sha1 id = tag_now m0 (ref_of_source s) ↔ id = id0 (ref_of_source s)).
    { split; [by apply (net_tags _ _ _ _ Hnet)|by intros ->]. }
    rewrite Ht. destruct Hr as [(-> & -> & _)|(_ & Hos & _)]; [by rewrite !elem_of_nil|]. by rewrite (Hos id Hn).
  - exists e. split; [done|]. intros k' HR'. assert (k' = k) as ->; [|apply Hk; exact (proj1 (Hc k HR'))].
    destruct HR as [Hkey _ _], HR' as [Hkey' _ _]. unfold EchoGuard.tag_now in Hkey, Hkey'.
    assert (Hf : factsOf (catalog_now m0) (ref_of_source s') = factsOf (catalog_now m0) (ref_of_target t)).
    { eapply (net_facts _ _ _ _ Hnet b' b); [done|done|done| |done]. destruct Hh as [_ Hd _ _ _ _ _ _ _].
      unfold targets_of. rewrite Hd. by left. }
    rewrite Hid, Hf in Hkey'. congruence.
Qed.

(** the tables whose memory of the row is still to be asked *)
Definition ahead (m : M) (path : list string) : Prop :=
  ∀ b s, b ∈ net → bsource b = FromTable s → id0 (ref_of_source s) ∉ path → clean m (ref_of_source s).

Lemma ahead_kept m m' path id :
  (∀ r, id0 r ∈ names m0 net → id0 r ≠ id → clean m r → clean m' r) → id ∈ path → ahead m path → ahead m' path.
Proof.
  intros Hk Hid Ha' b s Hb Hs Hn. apply Hk; [by eapply source_name| |by eapply Ha'].
  intros Heq. by rewrite Heq in Hn.
Qed.

Lemma ahead_more m path id : ahead m path → ahead m (path ++ [id]).
Proof. intros Ha' b s Hb Hs Hn. eapply Ha'; [done..|]. set_solver. Qed.

Lemma travels fuel n : ∀ path b s os m sent,
  b ∈ net → bsource b = FromTable s → same_outside m0 m → remembers m (ref_of_source s) path os →
  ahead m (path ++ [id0 (ref_of_source s)]) → NoDup (path ++ [id0 (ref_of_source s)]) →
  path ⊆ source_names → (List.length net ≤ n + List.length path)%nat →
  ∃ more m', run n fuel net [(b, row)] sent m = Some ([], sent ++ more, m') ∧
             NoDup (path ++ [id0 (ref_of_source s)] ++ more).
Proof.
  induction n as [|n IH]; intros path b s os m sent Hb Hs Hm Hr Hah Hd Hsub Hl.
  { exfalso. pose proof source_names_length. pose proof (in_source_names b s Hb Hs).
    assert (List.length (path ++ [id0 (ref_of_source s)]) ≤ List.length source_names)%nat as Hle.
    { apply submseteq_length, NoDup_submseteq; [done|]. set_solver. }
    rewrite length_app in Hle. cbn in Hle. lia. }
  destruct (net_hop _ _ _ _ Hnet b Hb) as (s1 & t & Hh).
  assert (s1 = s) as -> by (destruct Hh; congruence).
  destruct (told b s t path os m Hb Hh Hm Hr) as (m1 & Hrec & Hm1 & Hclean1).
  destruct (routed b s t path os m m1 Hb Hh Hm1 Hr) as [Hroute Hkeep].
  cbn [run app]. unfold handle. rewrite Hrec.
  destruct (EchoGuard.route _ _ b _ m1) as [dropped m2]. cbn [fst snd] in Hroute, Hkeep. subst dropped.
  destruct (decide (id0 (ref_of_target t) ∈ path)) as [Hin|Hin].
  { rewrite bool_decide_true by done. exists [], m2. rewrite !app_nil_r. split; [by destruct n|done]. }
  rewrite bool_decide_false, Hkeep by done. cbn [eorigins].
  destruct (sent_on fuel b s t (came_with row os) m1 Hb Hh Hm1) as (m3 & Hsent & Hm3 & Hclean3 & Hnew); [by destruct os|].
  rewrite Hsent. set (cur := id0 (ref_of_source s)) in *.
  assert (Hd' : NoDup ((path ++ [cur]) ++ [id0 (ref_of_target t)])).
  { apply NoDup_app. split_and!; [done| |apply NoDup_singleton].
    intros x Hx ->%list_elem_of_singleton. apply elem_of_app in Hx as [Hx|Hx%list_elem_of_singleton]; [done|].
    by apply (hop_apart _ _ _ _ _ _ Hh). }
  destruct (readers_of m1 (id0 (ref_of_target t)) Hm1) as [(b' & s' & Hb' & Hs' & Hid & ->)| ->].
  - assert (Hah1 : ahead m1 (path ++ [cur])).
    { eapply ahead_kept; [exact Hclean1| |exact Hah]. apply elem_of_app. right. by left. }
    assert (Hread : id0 (ref_of_target t) ∈ tread top).
    { destruct (net_hop _ _ _ _ Hnet b' Hb') as (s2 & t2 & Hh2). rewrite <- Hid.
      assert (s2 = s') as -> by (destruct Hh2; congruence). apply Hh2. }
    assert (Hclean : clean m1 (ref_of_source s')).
    { apply (Hah1 b' s'); [done..|]. rewrite Hid. intros Hx%elem_of_app. apply NoDup_app in Hd' as (_ & Hd' & _).
      apply (Hd' (id0 (ref_of_target t))); [by apply elem_of_app|by left]. }
    destruct (IH (path ++ [cur]) b' s' (origins_from (tag_now m0 (ref_of_source s)) (Some (came_with row os))) m3
                (sent ++ [id0 (ref_of_target t)])) as (more & m' & Hrun & Hnd); try done.
    + apply (remembered_next b s t b' s' path os m m1); try done. by apply Hnew.
    + rewrite Hid. eapply ahead_kept; [exact Hclean3| |by apply ahead_more]. set_solver.
    + by rewrite Hid.
    + intros x [Hx| ->%list_elem_of_singleton]%elem_of_app; [by apply Hsub|by apply (in_source_names b)].
    + rewrite length_app. cbn. lia.
    + exists (id0 (ref_of_target t) :: more), m'. rewrite Hrun, <- app_assoc. split; [done|].
      rewrite Hid, <- app_assoc in Hnd. exact Hnd.
  - exists [id0 (ref_of_target t)], m3. split; [by destruct n|].
    rewrite <- app_assoc in Hd'. exact Hd'.
Qed.

Lemma clean_at_first b s : b ∈ net → bsource b = FromTable s → clean m0 (ref_of_source s).
Proof.
  intros Hb Hs k HR. destruct (net_hop _ _ _ _ Hnet b Hb) as (s1 & t & Hh).
  assert (s1 = s) as -> by (destruct Hh; congruence).
  destruct (hop_readable _ _ _ _ _ _ Hh) as (k' & HR' & Hk & Hl).
  assert (k = k') as -> by (by eapply readable_once). done.
Qed.

(** A row that bridges send on to one another comes to rest, in a net where every bridge
    inserts into one table and every table has one reader ([Net]; with a second target
    it need not: [second_targets_go_round]): of a change that somebody makes to a table
    of the net, every table is sent the row once at most, the one it was made in never,
    and then there is nothing left to deliver *)
Theorem a_row_comes_to_rest fuel b s : b ∈ net → bsource b = FromTable s →
  ∃ sent m', run (List.length net) fuel net [(b, row)] [] m0 = Some ([], sent, m') ∧
             NoDup (id0 (ref_of_source s) :: sent).
Proof.
  intros Hb Hs.
  destruct (travels fuel (List.length net) [] b s [] m0 [] Hb Hs) as (more & m' & Hrun & Hd); [done| | | |intros x Hx; by apply not_elem_of_nil in Hx|lia|].
  - left. split_and!; [done|done|by eapply clean_at_first].
  - intros b' s' Hb' Hs' _. by eapply clean_at_first.
  - apply NoDup_singleton.
  - by exists more, m'.
Qed.
End net.
End guard.

(** ** A small instance *)

#[local] Existing Instance toy_cipher.
#[local] Existing Instance toy_laws.

(** Redis as lists by key, in one database of PostgreSQL *)
Record Memory := { lists : list (string * list string); bridges : list ResolvedBridge; keyed : bool }.

Definition list_at (k : string) (m : Memory) : list string := default [] (map_get (lists m) k).
Definition set_list (k : string) (l : list string) (m : Memory) : Memory :=
  {| lists := map_set k l (lists m); bridges := bridges m; keyed := keyed m |}.

Definition one_server : Connection :=
  {| cengine := postgres; chost := Some "db"; cport := Some (num_of_Z 5432); cdatabase := Some "app";
     cstring := None; cdb := VUndef; cssh := None |}.

Definition col (name type : string) : ColumnFacts :=
  {| TableReader.cname := name; cnullable := true; cnativeType := Some type; cdataType := type |}.

#[local] Instance memory_outside : EchoOutside Memory := {|
  echo_store := {|
    lrange := list_at;
    rpush k v m := set_list k (list_at k m ++ [v]) m;
    ltrim k s m := set_list k (trimmed s (list_at k m)) m;
    lrem k n v m := set_list k (remove_first v (list_at k m)) m;
    lpop k m := (head (list_at k m), set_list k (tail (list_at k m)) m);
    incr _ m := m;
    expire _ _ m := m;
    answers _ := true
  |};
  connection_now _ _ := Some one_server;
  stored_now m := Some ((λ b, {| sbid := bid b; sbenabled := true;
      sbread := Some (bsource b, Some (BridgeConfig.Cdc [op_insert] from_now own_slot), bdestination b) |}) <$> bridges m,
    (λ b, {| sjbridge := bid b; sjstatus := "running"; sjfinishedAt := None |}) <$> bridges m);
  catalog_now m r := Some (postgres, [{| cnname := "public"; cntables :=
    [{| ctname := rtable r; ctprimaryKey := if keyed m then ["id"] else [];
        ctcolumns := [col "id" "bigint"; col "name" "text"] |}] |}]);
  engine_now _ _ := Some postgres;
  browse_now _ _ _ := None;
  clock_now _ := 0;
  iv_now _ _ := sample_iv;
  uuid_now _ := "n"
|}.

#[local] Instance memory_laws : EchoStoreLaws.
Proof.
  assert (Hset : ∀ k l m k', list_at k' (set_list k l m) = if decide (k' = k) then l else list_at k' m).
  { intros k l m k'. unfold list_at, set_list. cbn [lists]. rewrite map_get_set. repeat case_decide; cbn; congruence. }
  split; try done; intros; cbn -[list_at set_list]; rewrite ?Hset; try done.
  split; [repeat constructor; done|done].
Qed.

(** a stand-in for SHA-1 that keeps the end of a text *)
Definition tail_hash (s : string) : string :=
  of_chars (take 40 (((λ c, if (c =? "s")%char then "z"%char else c) <$> reverse (chars s)) ++ replicate 40 "0"%char)).

Lemma tail_hash_ok : Sha1 tail_hash.
Proof.
  split; intros s; unfold tail_hash.
  - rewrite chars_of_chars. apply Forall_take, Forall_app. split; [|by apply Forall_replicate].
    apply Forall_fmap, Forall_true. intros c. cbn. destruct (Ascii.eqb_spec c "s") as [->|Hc]; done.
  - rewrite <- length_chars, chars_of_chars, length_take, length_app, length_replicate. lia.
Qed.

Definition into (table : string) : DatabaseTarget :=
  {| tconnectionId := "pg2"; tdatabase := None; tschema := None; ttable := table; writeMode := insert_only;
     keyColumns := []; mapping := []; createMissingTable := false; onDelete := BridgeConfig.delete_row;
     softDelete := None; redis := None |}.

Definition from_table (table : string) : TableSource :=
  {| connectionId := "pg1"; database := None; schema := Some "public"; BridgeConfig.table := table;
     BridgeConfig.filters := None; BridgeConfig.sort := None |}.

Definition bridge_of (from : string) (to : list string) : ResolvedBridge :=
  {| bid := from; bsource := FromTable (from_table from); bdestination := Database (into <$> to);
     btransform := {| payload := {| Template.template := "{{$row}}"; Template.fields := None;
                                    Template.rename := None; Template.wrapKey := None |}; columns := None |};
     bdelivery := {| batchSize := 1; maxAttempts := 1; backoffMs := 0; backoffMaxMs := 0; minDelayMs := 0;
                     timeoutMs := 1000; pageSize := 100; onError := continue_on_error; onSchemaChange := schema_stop |} |}.

Definition started (keyed : bool) (net : list ResolvedBridge) : Memory :=
  {| lists := []; bridges := net; keyed := keyed |}.

Definition ada : obj := [("id", VStr "7"); ("name", VStr "ada")].

#[local] Instance sample_print : JsPrint := {| date_text _ := "date"; bytes_text _ := "bytes" |}.

Definition run_net (n : nat) (net : list ResolvedBridge) (b : ResolvedBridge) (keyed : bool) :=
  run (λ _, num_of_Z 0) tail_hash (λ _, "digest") (λ _, None) 300 old_key (inr []) n 0 net [(b, ada)] [] (started keyed net).

(** a, b and c, each feeding the next *)
Definition ring : list ResolvedBridge := [bridge_of "a" ["b"]; bridge_of "b" ["c"]; bridge_of "c" ["a"]].

Example ring_rests :
  (λ r, (r.1.1, r.1.2)) <$> run_net 3 ring (bridge_of "a" ["b"]) true =
  Some ([], ["postgres://db:5432/app#public.b"; "postgres://db:5432/app#public.c"]).
Proof. vm_compute. reflexivity. Qed.

(** two tables that feed each other, each bridge with a table of its own besides *)
Definition there : ResolvedBridge := bridge_of "a" ["b"; "archive"].
Definition back : ResolvedBridge := bridge_of "b" ["a"; "log"].
Definition pair_net : list ResolvedBridge := [there; back].

Abbreviation handle_net := (handle (λ _, num_of_Z 0) tail_hash (λ _, "digest") (λ _, None) 300 old_key (inr []) 0 pair_net).

Definition after (n : nat) : Memory :=
  match run_net n pair_net there false with Some (_, _, m) => m | None => started false [] end.

Definition name_of (table : string) : string := "postgres://db:5432/app#public." +:+ table.

Lemma goes_there : handle_net there ada (after 0) = Some ([(back, ada)], [name_of "b"; name_of "archive"], after 1) ∧
  handle_net there ada (after 2) = Some ([(back, ada)], [name_of "b"; name_of "archive"], after 3).
Proof. split; vm_compute; reflexivity. Qed.

Lemma goes_back : handle_net back ada (after 1) = Some ([(there, ada)], [name_of "a"; name_of "log"], after 2) ∧
  handle_net back ada (after 3) = Some ([(there, ada)], [name_of "a"; name_of "log"], after 2).
Proof. split; vm_compute; reflexivity. Qed.

Abbreviation run_pair n := (run (λ _, num_of_Z 0) tail_hash (λ _, "digest") (λ _, None) 300 old_key (inr []) n 0 pair_net).

Lemma round_and_round n : ∀ sent,
  (∃ b sent' m, run_pair n [(there, ada)] sent (after 2) = Some ([(b, ada)], sent', m) ∧
                List.length sent' = (List.length sent + 2 * n)%nat) ∧
  (∃ b sent' m, run_pair n [(back, ada)] sent (after 3) = Some ([(b, ada)], sent', m) ∧
                List.length sent' = (List.length sent + 2 * n)%nat).
Proof.
  induction n as [|n IH]; intros sent.
  - split; eexists _, _, _; (split; [reflexivity|lia]).
  - cbn [run app]. rewrite (proj2 goes_there), (proj2 goes_back). cbn [app].
    destruct (IH (sent ++ [name_of "b"; name_of "archive"])) as [_ (b1 & s1 & m1 & -> & H1)].
    destruct (IH (sent ++ [name_of "a"; name_of "log"])) as [(b2 & s2 & m2 & -> & H2) _].
    rewrite length_app in H1, H2. cbn in H1, H2.
    split; eexists _, _, _; (split; [reflexivity|lia]).
Qed.

(** two bridges that feed each other send one row back and forth for ever where each
    has a second target: its own table is never one the row has been through, and
    then the row is sent to both *)
Theorem second_targets_go_round n : ∃ b sent m,
  run_pair n [(there, ada)] [] (started false pair_net) = Some ([(b, ada)], sent, m) ∧ List.length sent = (2 * n)%nat.
Proof.
  destruct n as [|[|n]]; [by eexists _, _, _| |]; cbn [run app];
    change (started false pair_net) with (after 0); rewrite (proj1 goes_there).
  - by eexists _, _, _.
  - cbn [app]. rewrite (proj1 goes_back). cbn [app].
    destruct (round_and_round n [name_of "b"; name_of "archive"; name_of "a"; name_of "log"])
      as [(b & sent & m & -> & Hl) _]. eexists _, _, _. split; [reflexivity|]. rewrite Hl. cbn. lia.
Qed.

(** ** Witnesses *)

Ltac each_of H := repeat (apply elem_of_cons in H as [->|H]); [..|by apply not_elem_of_nil in H].

Definition topology_of (net : list ResolvedBridge) : Topology :=
  default {| tread := []; twritten := [] |} (EchoGuard.tables (λ _, None) 300 (started true net)).

Definition key_in (table : string) : string :=
  default EmptyString (keyOf tail_hash (EchoGuard.tag_now tail_hash (λ _, None) (started true []) (ref_of_source (from_table table)))
    (plain_entries ada) ["id"] [("id", Some Kbigint); ("name", Some Ktext)]).

Lemma ada_readable net r table : In table ["a"; "b"; "c"] →
  r = ref_of_source (from_table table) ∨ r = ref_of_target (into table) →
  Readable (λ _, num_of_Z 0) tail_hash (λ _, "digest") (λ _, None) (started true net) ada r (key_in table).
Proof.
  intros Ht Hr. cbn in Ht. destruct Ht as [<-|[<-|[<-|[]]]]; destruct Hr as [->| ->]; split;
    try (intros []); vm_compute; reflexivity.
Qed.

Definition mutual : list ResolvedBridge := [bridge_of "a" ["b"]; bridge_of "b" ["a"]].

Lemma own_write_is_known_witness :
  ∃ e m' m'',
    announce (λ _, num_of_Z 0) tail_hash (λ _, "digest") (λ _, None) 300 old_key 0 (bridge_of "a" ["b"]) (into "b")
      [Columns (plain_row ada)] [came_with ada []] w_insert (started true mutual) = Some ((Some [(key_in "b", e)], []), m') ∧
    recognise (λ _, num_of_Z 0) tail_hash (λ _, "digest") (λ _, None) 300 old_key (inr []) (bridge_of "b" ["a"])
      (Some op_insert) ada None m' = ({| echo := true; eorigins := origins_from
        (EchoGuard.tag_now tail_hash (λ _, None) (started true mutual) (ref_of_source (from_table "a"))) (Some (came_with ada [])) |}, m'') ∧
    ∀ ts, bdestination (bridge_of "b" ["a"]) = Database ts → ts ≠ [] →
      Forall (λ t', id_now (λ _, None) (started true mutual) (ref_of_target t') =
                    id_now (λ _, None) (started true mutual) (ref_of_source (from_table "a"))) ts →
      (route tail_hash (λ _, None) (bridge_of "b" ["a"]) {| echo := true; eorigins := origins_from
        (EchoGuard.tag_now tail_hash (λ _, None) (started true mutual) (ref_of_source (from_table "a"))) (Some (came_with ada [])) |} m'').1 = true.
Proof.
  apply (own_write_is_known (λ _, num_of_Z 0) tail_hash tail_hash_ok (λ _, "digest") (λ _, None) 300 old_key (inr [])
    (started true mutual) (bridge_of "a" ["b"]) (bridge_of "b" ["a"]) (from_table "a") (from_table "b") (into "b")
    (came_with ada []) ada (key_in "b") (topology_of mutual) 0).
  - reflexivity.
  - reflexivity.
  - vm_compute. reflexivity.
  - reflexivity.
  - reflexivity.
  - apply list_elem_of_In. vm_compute. tauto.
  - apply list_elem_of_In. vm_compute. tauto.
  - apply ada_readable; [by right; left|by right].
  - apply ada_readable; [by right; left|by left].
  - constructor.
Defined.

Lemma nothing_yet k keyed net : lrange k (started keyed net) = [].
Proof. reflexivity. Qed.

Lemma ring_topology : EchoGuard.tables (λ _, None) 300 (started true ring) = Some (topology_of ring).
Proof. vm_compute. reflexivity. Qed.

Lemma ring_hop from to :
  In (from, to) [("a", "b"); ("b", "c"); ("c", "a")] →
  Hop (λ _, num_of_Z 0) tail_hash (λ _, "digest") (λ _, None) (started true ring) (topology_of ring) ada
    (bridge_of from [to]) (from_table from) (into to).
Proof.
  intros Hin. assert (Hab : In from ["a"; "b"; "c"] ∧ In to ["a"; "b"; "c"]) by (cbn in Hin; naive_solver).
  destruct Hab as [Hfrom Hto].
  assert (Hs : ∃ k, Readable (λ _, num_of_Z 0) tail_hash (λ _, "digest") (λ _, None) (started true ring) ada
                      (ref_of_target (into to)) k).
  { exists (key_in to). apply ada_readable; [done|by right]. }
  assert (Hk : Readable (λ _, num_of_Z 0) tail_hash (λ _, "digest") (λ _, None) (started true ring) ada
                 (ref_of_source (from_table from)) (key_in from)) by (apply ada_readable; [done|by left]).
  clear Hfrom Hto. cbn in Hin. repeat destruct Hin as [[= <- <-]|Hin]; [..|done].
  all: split; [reflexivity|reflexivity|reflexivity|vm_compute; reflexivity|vm_compute; discriminate| | | |exact Hs].
  all: try (apply list_elem_of_In; vm_compute; tauto).
  all: eexists; split; [exact Hk|split; [apply nothing_yet|apply nothing_yet]].
Qed.

Definition hops : list (string * string) := [("a", "b"); ("b", "c"); ("c", "a")].

Lemma in_ring b : b ∈ ring → ∃ from to, In (from, to) hops ∧ b = bridge_of from [to].
Proof. intros Hb. each_of Hb; eexists _, _; (split; [|reflexivity]); cbn; tauto. Qed.

Lemma named m table : id_now (λ _, None) m (ref_of_source (from_table table)) = name_of table ∧
  id_now (λ _, None) m (ref_of_target (into table)) = name_of table.
Proof.
  assert (Hp : physicalId (λ _, None) one_server None = "postgres://db:5432/app") by (vm_compute; reflexivity).
  unfold id_now, tableId. cbn [connection_now memory_outside ref_of_source ref_of_target into from_table rdatabase
    rschema rtable database tdatabase schema tschema BridgeConfig.table ttable]. rewrite Hp. split; reflexivity.
Qed.

Lemma name_of_inj x y : name_of x = name_of y → x = y.
Proof.
  unfold name_of. intros Hn. apply (f_equal chars) in Hn. rewrite !chars_app in Hn. apply app_inv_head in Hn.
  by rewrite <- (of_chars_chars x), Hn, of_chars_chars.
Qed.

Lemma ring_tags id id' : id ∈ names (λ _, None) (started true ring) ring → id' ∈ names (λ _, None) (started true ring) ring →
  tableTag tail_hash id = tableTag tail_hash id' → id = id'.
Proof.
  assert (Hnames : names (λ _, None) (started true ring) ring = name_of <$> ["a"; "b"; "b"; "c"; "c"; "a"])
    by (vm_compute; reflexivity).
  rewrite Hnames. cbn [fmap list_fmap]. clear Hnames. intros Hid Hid'.
  each_of Hid; each_of Hid'; intros Ht; try reflexivity; exfalso; vm_compute in Ht; discriminate Ht.
Qed.

Lemma ring_net : Net (λ _, num_of_Z 0) tail_hash (λ _, "digest") (λ _, None) (started true ring) (topology_of ring) ada ring.
Proof.
  assert (Hsrc : ∀ from to s, bsource (bridge_of from to) = FromTable s → s = from_table from) by (intros; cbn in *; congruence).
  split.
  - intros b (from & to & Hin & ->)%in_ring. eexists _, _. by apply ring_hop.
  - apply (NoDup_fmap_1 bid), (bool_decide_unpack _). vm_compute. exact I.
  - intros b b' s s' (f & t & Hin & ->)%in_ring (f' & t' & Hin' & ->)%in_ring ->%Hsrc ->%Hsrc.
    rewrite !(proj1 (named _ _)). intros ->%name_of_inj. cbn in Hin, Hin'.
    assert (t = t') as -> by (intuition congruence). reflexivity.
  - intros b b' s t (f & t1 & Hin & ->)%in_ring (f' & t' & Hin' & ->)%in_ring ->%Hsrc Ht.
    apply list_elem_of_singleton in Ht as ->. rewrite (proj1 (named _ _)), (proj2 (named _ _)).
    intros ->%name_of_inj. reflexivity.
  - exact ring_tags.
Qed.

Lemma a_row_comes_to_rest_witness :
  ∃ sent m', run (λ _, num_of_Z 0) tail_hash (λ _, "digest") (λ _, None) 300 old_key (inr []) 3 0 ring
               [(bridge_of "a" ["b"], ada)] [] (started true ring) = Some ([], sent, m') ∧
             NoDup (name_of "a" :: sent).
Proof.
  apply (a_row_comes_to_rest (λ _, num_of_Z 0) tail_hash tail_hash_ok (λ _, "digest") (λ _, None) 300 old_key (inr [])
    (started true ring) (topology_of ring) ada ring ring_net eq_refl eq_refl ring_topology 0 (bridge_of "a" ["b"])
    (from_table "a")); [by left|reflexivity].
Defined.
