(* ===== verification/StatementSafety.v ===== *)
(** What a statement typed into the editor would do — read, write or destroy — as
    far as its text says ([packages/core/src/statement-safety.ts]), and what the
    editor and a read-only connection do with it ([statement-guard.ts]). *)
From S2P Require Import Prelude JsText JsNumber JsValue JsJson.

Inductive StatementRisk := Read | Write | Destructive.

#[export] Instance StatementRisk_eq_dec : EqDecision StatementRisk.
Proof. solve_decision. Defined.

Record StatementAssessment := {
  risk : StatementRisk;
  statements : nat;
  reasons : list string;
}.

Definition WORSE (r : StatementRisk) : nat :=
  match r with Read => 0 | Write => 1 | Destructive => 2 end.

(** ** SQL: what is quoted or commented counts for nothing *)

Definition newline : ascii := ascii_of_N 10.
Definition squote : ascii := "'"%char.
Definition backtick : ascii := ascii_of_N 96.

(** a line comment: up to the end of the line, which stays *)
Definition skip_line : list ascii → list ascii := drop_while (λ c, negb (c =? newline)%char).

(** behind the next occurrence of [close], or at the end *)
Definition skip_past (close l : list ascii) : list ascii :=
  match find_at close l 0 with
  | None => []
  | Some k => drop (k + length close) l
  end.

(** the inside of something quoted, and its end *)
Fixpoint skip_quoted (q : ascii) (l : list ascii) : list ascii :=
  match l with
  | [] => []
  | c :: l' =>
      if (c =? backslash)%char && negb (q =? dquote)%char
      then match l' with [] => [] | _ :: l'' => skip_quoted q l'' end
      else if (c =? q)%char
      then match l' with
           | d :: l'' => if (d =? q)%char then skip_quoted q l'' else l'
           | [] => []
           end
      else skip_quoted q l'
  end.

Definition tag_char (c : ascii) : bool := is_alpha c || (c =? "_")%char.

(** the match of [/^\$[A-Za-z_]*\$/], behind its first character *)
Definition dollar_tag (l : list ascii) : option (list ascii) :=
  match drop_while tag_char l with
  | c :: _ => if (c =? "$")%char then Some ("$"%char :: take_while tag_char l ++ ["$"%char]) else None
  | [] => None
  end.

Definition is_quote (c : ascii) : bool := (c =? squote)%char || (c =? dquote)%char || (c =? backtick)%char.

Definition text_shown : list ascii := chars " '' ".
Definition name_shown : list ascii := chars (dq " 'x' ").
Definition quote_shown (q : ascii) : list ascii := if (q =? squote)%char then text_shown else name_shown.

(** one round of the loop of [maskSql]: what it adds to [out], and the text from
    which it goes on *)
Definition mask_step (ch : ascii) (l : list ascii) : list ascii * list ascii :=
  let next := head l in
  if (ch =? "-")%char && bool_decide (next = Some "-"%char) then ([], skip_line (ch :: l))
  else if (ch =? "#")%char then ([], skip_line (ch :: l))
  else if (ch =? "/")%char && bool_decide (next = Some "*"%char)
  then ([" "%char], skip_past (chars "*/") (tail l))
  else if is_quote ch then (quote_shown ch, skip_quoted ch l)
  else if (ch =? "$")%char
  then match dollar_tag l with
       | Some tag => (text_shown, skip_past tag (drop (length tag) (ch :: l)))
       | None => ([ch], l)
       end
  else ([ch], l).

Fixpoint mask_list (fuel : nat) (l : list ascii) : option (list ascii) :=
  match fuel, l with
  | _, [] => Some []
  | 0, _ => None
  | S fuel, ch :: l' => let (out, rest) := mask_step ch l' in (out ++.) <$> mask_list fuel rest
  end.

(** more rounds than characters are never needed ([StatementWords.mask_total]) *)
Definition maskSql (text : string) : string :=
  of_chars (default [] (mask_list (str_length text) (chars text))).

(** ** SQL: the words of a statement *)

(** [new RegExp(`\b${w}\b`)], from a place behind a word character or not *)
Fixpoint word_from (w : list ascii) (behind : bool) (l : list ascii) : bool :=
  match l with
  | [] => false
  | c :: l' =>
      (negb behind && is_prefix w l &&
       match drop (length w) l with d :: _ => negb (is_word d) | [] => true end)
      || word_from w (is_word c) l'
  end.

Definition word (s w : string) : bool := word_from (chars w) false (chars s).

Definition write_words : list string :=
  ["INSERT"; "UPDATE"; "DELETE"; "MERGE"; "TRUNCATE"; "DROP"; "ALTER"; "CREATE"].

Definition verdict : Type := StatementRisk * option string.

(** the first two words, as the reason names them *)
Definition two_words (s : string) : string := join " " (take 2 (split_on " "%char s)).

Definition SELECT_INTO : string := "SELECT … INTO".

(** the switch over the first word, for a statement in capitals on one line; [inner]
    is the verdict on the statement from its first word that writes *)
Definition assess_first (s first : string) (writesInside : option string)
    (inner : string → option verdict) : option verdict :=
  if bool_decide (first ∈ ["SELECT"; "TABLE"; "VALUES"])
  then Some (if word s "INTO" then (Write, Some SELECT_INTO) else (Read, None))
  else if bool_decide (first = "WITH")
  then match writesInside with
       | Some w => inner w
       | None => Some (if word s "INTO" then (Write, Some SELECT_INTO) else (Read, None))
       end
  else if bool_decide (first ∈ ["SHOW"; "DESCRIBE"; "DESC"]) then Some (Read, None)
  else if bool_decide (first = "EXPLAIN")
  then Some match writesInside with
            | Some w => if word s "ANALYZE" then (Write, Some ("EXPLAIN ANALYZE " +:+ w)) else (Read, None)
            | None => (Read, None)
            end
  else if bool_decide (first = "PRAGMA")
  then Some (if existsb (λ c, (c =? "=")%char || (c =? "(")%char) (chars s)
             then (Write, Some "PRAGMA that sets a value") else (Read, None))
  else if bool_decide (first = "DROP") then Some (Destructive, Some (two_words s))
  else if bool_decide (first = "TRUNCATE") then Some (Destructive, Some "TRUNCATE")
  else if bool_decide (first ∈ ["DELETE"; "UPDATE"])
  then Some (if word s "WHERE" then (Write, Some first) else (Destructive, Some (first +:+ " without WHERE")))
  else if bool_decide (first = "ALTER")
  then Some (if word s "DROP" then (Destructive, Some "ALTER … DROP") else (Write, Some (two_words s)))
  else Some (Write, Some (if bool_decide (first = "") then "an empty statement" else first)).

Definition one_line (statement : string) : string := toUpperCase (trim (collapse statement)).
Definition first_word (s : string) : string := of_chars (take_while is_upper (chars s)).
Definition writes_inside (s : string) : option string := find (word s) write_words.

(** [slice] reads [-1] as the last character *)
Definition slice_at (statement w : string) : string :=
  match indexOf w (toUpperCase statement) with
  | Some k => slice_from k statement
  | None => slice_from (str_length statement - 1) statement
  end.

(** it calls itself once at most ([StatementReads.assess_total]) *)
Fixpoint assessSqlStatement (fuel : nat) (statement : string) : option verdict :=
  match fuel with
  | 0 => None
  | S fuel =>
      let s := one_line statement in
      assess_first s (first_word s) (writes_inside s) (λ w, assessSqlStatement fuel (slice_at statement w))
  end.

Definition assessed (statement : string) : verdict := default (Write, None) (assessSqlStatement 2 statement).

(** one verdict more *)
Definition worsen (a : StatementRisk * list string) (v : verdict) : StatementRisk * list string :=
  (if WORSE a.1 <? WORSE v.1 then v.1 else a.1,
   a.2 ++ match v.2 with Some r => if bool_decide (v.1 = Read) then [] else [r] | None => [] end).

Definition assessSql (text : string) : StatementAssessment :=
  let stmts := filter (λ s, s ≠ "") (trim <$> split_on ";"%char (maskSql text)) in
  let a := foldl worsen (Read, []) (assessed <$> stmts) in
  {| risk := a.1; statements := length stmts; reasons := a.2 |}.

(** ** Redis *)

Definition REDIS_READS : list string :=
  ["GET"; "MGET"; "STRLEN"; "GETRANGE"; "SUBSTR"; "EXISTS"; "TYPE"; "TTL"; "PTTL"; "EXPIRETIME"; "PEXPIRETIME";
   "KEYS"; "SCAN"; "RANDOMKEY"; "DBSIZE"; "INFO"; "PING"; "ECHO"; "TIME"; "LASTSAVE"; "HGET"; "HMGET"; "HGETALL";
   "HKEYS"; "HVALS"; "HLEN"; "HEXISTS"; "HSTRLEN"; "HSCAN"; "HRANDFIELD"; "LRANGE"; "LLEN"; "LINDEX"; "LPOS";
   "SMEMBERS"; "SCARD"; "SISMEMBER"; "SMISMEMBER"; "SRANDMEMBER"; "SSCAN"; "SINTER"; "SUNION"; "SDIFF";
   "SINTERCARD"; "ZRANGE"; "ZREVRANGE"; "ZRANGEBYSCORE"; "ZREVRANGEBYSCORE"; "ZRANGEBYLEX"; "ZCARD"; "ZCOUNT";
   "ZSCORE"; "ZMSCORE"; "ZRANK"; "ZREVRANK"; "ZSCAN"; "ZRANDMEMBER"; "ZLEXCOUNT"; "XRANGE"; "XREVRANGE"; "XLEN";
   "XINFO"; "XPENDING"; "BITCOUNT"; "BITPOS"; "GETBIT"; "PFCOUNT"; "GEOPOS"; "GEODIST"; "GEOHASH"; "GEOSEARCH";
   "OBJECT"; "MEMORY"; "DUMP"; "TOUCH"].

Definition REDIS_DESTRUCTIVE : list string :=
  ["FLUSHALL"; "FLUSHDB"; "SHUTDOWN"; "SWAPDB"; "DEBUG"; "MIGRATE"; "RESTORE"].

(** one line: trimmed and not empty, so that its words are its tokens *)
Definition redis_line (line : string) : verdict :=
  let tokens := toUpperCase <$> words line in
  let command := default "" (head tokens) in
  let r := if bool_decide (command ∈ REDIS_DESTRUCTIVE) then Destructive
           else if bool_decide (command = "CONFIG")
           then if bool_decide (tokens !! 1 = Some "GET") then Read else Destructive
           else if bool_decide (command ∈ REDIS_READS) then Read else Write in
  (r, if bool_decide (r = Read) then None else Some command).

Definition redis_lines (text : string) : list string :=
  filter (λ l, l ≠ "" ∧ startsWith "#" l = false) (trim <$> split_on newline text).

Definition assessRedis (text : string) : StatementAssessment :=
  let a := foldl worsen (Read, []) (redis_line <$> redis_lines text) in
  {| risk := a.1; statements := length (redis_lines text); reasons := a.2 |}.

(** ** MongoDB *)

Definition line_end (c : ascii) : bool := (c =? newline)%char || (c =? ascii_of_N 13)%char.

(** [text.replace(/^\s*\/\/.*$/gm, '')]: at the start of a line, blanks and line ends,
    then a comment to the end of its line *)
Fixpoint strip_comments (fuel : nat) (start : bool) (l : list ascii) : list ascii :=
  match fuel, l with
  | 0, _ | _, [] => []
  | S fuel, c :: l' =>
      if start && is_prefix (chars "//") (drop_while is_space l)
      then strip_comments fuel false (drop_while (λ c, negb (line_end c)) (drop_while is_space l))
      else c :: strip_comments fuel (line_end c) l'
  end.

Definition mongo_spec (text : string) : option jsval :=
  json_parse (of_chars (strip_comments (S (str_length text)) true (chars text))).

(** [key in stage], for a stage that is an object *)
Definition has_stage (key : string) (stage : jsval) : bool :=
  match stage with VObj o => has_own o key | _ => false end.

Definition spec_field (spec : jsval) (k : string) : jsval :=
  match spec with VObj o => obj_get o k | _ => VUndef end.
Definition spec_has (spec : jsval) (k : string) : bool :=
  match spec with VObj o => has_own o k | _ => false end.
Definition spec_keys (spec : jsval) : list string :=
  match spec with VObj o => obj_keys o | VArr l => imap (λ i _, pretty i) l | _ => [] end.

Definition one (r : StatementRisk) (why : list string) : StatementAssessment :=
  {| risk := r; statements := 1; reasons := why |}.

(** the judgement of a document; [None] where the source throws: [null] has no
    members, and [in] asks for an object *)
Definition assess_spec (spec : jsval) : option StatementAssessment :=
  if match spec with VObj _ | VArr _ => true | _ => false end then
    let stages := match spec_field spec "aggregate" with VArr l => l | _ => [] end in
    Some (if existsb (has_stage "$out") stages then one Destructive ["$out"]
          else if existsb (has_stage "$merge") stages then one Write ["$merge"]
          else if existsb (spec_has spec) ["find"; "aggregate"; "countDocuments"; "distinct"]
               || forallb (λ k, bool_decide (k ∈ ["collection"; "sort"; "limit"; "skip"; "projection"])) (spec_keys spec)
          then one Read []
          else one Write [default "unknown command" (find (λ k, negb (bool_decide (k = "collection"))) (spec_keys spec))])
  else None.

Definition assessMongo (text : string) : option StatementAssessment :=
  match mongo_spec text with
  | None => Some (one Write ["not a JSON command document"])
  | Some spec => assess_spec spec
  end.

(** ** Every engine *)

Inductive StatementEngine := RedisText | MongoText | SqlText.

Definition engine_of (engine : string) : StatementEngine :=
  if bool_decide (engine = "redis") then RedisText
  else if bool_decide (engine = "mongodb") then MongoText else SqlText.

Definition assessStatement (engine text : string) : option StatementAssessment :=
  match engine_of engine with
  | RedisText => Some (assessRedis text)
  | MongoText => assessMongo text
  | SqlText => Some (assessSql text)
  end.

(** ** What the editor and the server do with it *)

Inductive ConfirmWhy := WhyDestructive | WhyProductionWrite.

Inductive StatementVerdict :=
| Run
| Confirm (why : ConfirmWhy) (assessment : StatementAssessment)
| Refuse (assessment : StatementAssessment).

Definition statementVerdict (engine : string) (readOnly : bool) (environment : option string) (statement : string)
    : option StatementVerdict :=
  (λ assessment,
    if bool_decide (risk assessment = Read) then Run
    else if readOnly then Refuse assessment
    else if bool_decide (risk assessment = Destructive) then Confirm WhyDestructive assessment
    else if bool_decide (environment = Some "production") then Confirm WhyProductionWrite assessment
    else Run) <$> assessStatement engine statement.

(** how the server runs a statement ([connections.controller.ts], [query]) *)
Inductive HowToRun := AsIs | ReadOnlyWhereItCan | Forbidden (reasons : list string).

Definition query (engine : string) (readOnly : bool) (statement : string) : option HowToRun :=
  if negb readOnly then Some AsIs
  else (λ assessed, if bool_decide (risk assessed = Read) then ReadOnlyWhereItCan else Forbidden (reasons assessed))
         <$> assessStatement engine statement.

(** ** Statements of the test suite *)

Definition pg (text : string) : option (StatementRisk * nat * list string) :=
  (λ a, (risk a, statements a, reasons a)) <$> assessStatement "postgres" text.

Example reads_are_known :
  (λ t, pg t) <$> ["SELECT * FROM users"; "  select 1;  "; "SELECT 1; SELECT 2"; "SELECT $body$ DROP TABLE users; $body$";
                   "SELECT 1 /* ; TRUNCATE t */"; "SELECT 'it''s; DROP TABLE t'"; ""]
  = [Some (Read, 1, []); Some (Read, 1, []); Some (Read, 2, []); Some (Read, 1, []); Some (Read, 1, []);
     Some (Read, 1, []); Some (Read, 0, [])].
Proof. vm_compute. reflexivity. Qed.

Example writes_are_known :
  (λ t, pg t) <$> ["DROP TABLE users"; "/* SELECT */ DELETE FROM users"; "SELECT * INTO backup FROM users";
                   "WITH gone AS (DELETE FROM users WHERE id = 1 RETURNING *) SELECT * FROM gone";
                   "SELECT 1; UPDATE t SET a = 1 WHERE id = 1; DROP TABLE t"]
  = [Some (Destructive, 1, ["DROP TABLE"]); Some (Destructive, 1, ["DELETE without WHERE"]);
     Some (Write, 1, [SELECT_INTO]); Some (Write, 1, ["DELETE"]);
     Some (Destructive, 3, ["UPDATE"; "DROP TABLE"])].
Proof. vm_compute. reflexivity. Qed.

Example other_engines :
  ((λ a, (risk a, reasons a)) <$> assessStatement "redis" "# note"
   , (λ a, (risk a, reasons a)) <$> assessStatement "redis" "config set maxmemory 1"
   , risk <$> assessStatement "mongodb" (dq "{'collection':'u','find':{}}")
   , risk <$> assessStatement "mongodb" (dq "{'collection':'u','aggregate':[{'$out':'v'}]}")
   , risk <$> assessStatement "mongodb" "null")
  = (Some (Read, []), Some (Destructive, ["CONFIG"]), Some Read, Some Destructive, None).
Proof. vm_compute. reflexivity. Qed.

(** ** Statements that write and are taken for reads *)

(** a backslash in a standard string literal is a character (PostgreSQL, SQLite): this
    text is a [SELECT] of one backslash, a [DROP] and a comment *)
Example backslash_hides_a_drop :
  pg (of_chars (chars "SELECT '" ++ backslash :: chars "'; DROP TABLE t; --'")) = Some (Read, 1, []).
Proof. vm_compute. reflexivity. Qed.

(** [#>] is an operator on JSON in PostgreSQL, and the statement behind it is on the same line *)
Example operator_hides_a_drop : pg "SELECT data #> '{a}' FROM t; DROP TABLE t" = Some (Read, 1, []).
Proof. vm_compute. reflexivity. Qed.

(** a dollar may end a name (PostgreSQL, MySQL): it quotes nothing there *)
Example dollar_names_hide_a_drop :
  pg "SELECT 1 AS a$$; DROP TABLE t; SELECT 2 AS b$$" = Some (Read, 1, []).
Proof. vm_compute. reflexivity. Qed.

(** MySQL runs what is inside of [/*! */] *)
Example mysql_comment_hides_a_file :
  risk <$> assessStatement "mysql" "SELECT * FROM users /*! INTO OUTFILE '/tmp/x' */" = Some Read.
Proof. vm_compute. reflexivity. Qed.

(** an [UPDATE] of every row behind a [WITH] is not confirmed: the search for the word
    [UPDATE] ends inside the name [updates], or at an [INSERT] before the [DELETE] *)
Example with_hides_a_missing_where :
  pg "WITH updates AS (SELECT 1) UPDATE t SET a = 1" = Some (Write, 1, ["UPDATES"]) ∧
  pg "WITH a AS (INSERT INTO log VALUES (1) RETURNING 1) DELETE FROM t" = Some (Write, 1, ["INSERT"]).
Proof. split; vm_compute; reflexivity. Qed.
