(* ===== verification/StatementWords.v ===== *)
(** What [maskSql] leaves of a text, and which words a statement that passes for a
    read can have ([packages/core/src/statement-safety.ts]). *)
From S2P Require Import Prelude JsText JsValue StatementSafety.

(** ** The lexemes of a text *)

(** what may stand between two quotes: a character, the quote doubled, or any
    character behind a backslash *)
Inductive piece := Plain (c : ascii) | Twice | Escaped (c : ascii).

Inductive lexeme :=
| Own (c : ascii)
| DashComment (body : list ascii)
| HashComment (body : list ascii)
| BlockComment (body : list ascii)
| OpenBlock (body : list ascii)
| Quoted (q : ascii) (body : list piece)
| OpenQuoted (q : ascii) (body : list piece) (cut : bool)
| Dollar (tag body : list ascii)
| OpenDollar (tag body : list ascii).

Definition piece_text (q : ascii) (p : piece) : list ascii :=
  match p with Plain c => [c] | Twice => [q; q] | Escaped c => [backslash; c] end.
Definition pieces_text (q : ascii) (ps : list piece) : list ascii := concat (piece_text q <$> ps).

Definition piece_ok (q : ascii) (p : piece) : Prop :=
  match p with
  | Plain c => c ≠ q ∧ (c = backslash → q = dquote)
  | Twice => True
  | Escaped _ => q ≠ dquote
  end.

Definition dollars (tag : list ascii) : list ascii := "$"%char :: tag ++ ["$"%char].
Definition block_end : list ascii := chars "*/".

Definition lexeme_text (x : lexeme) : list ascii :=
  match x with
  | Own c => [c]
  | DashComment body => chars "--" ++ body
  | HashComment body => "#"%char :: body
  | BlockComment body => chars "/*" ++ body ++ block_end
  | OpenBlock body => chars "/*" ++ body
  | Quoted q body => q :: pieces_text q body ++ [q]
  | OpenQuoted q body cut => q :: pieces_text q body ++ (if cut then [backslash] else [])
  | Dollar tag body => dollars tag ++ body ++ dollars tag
  | OpenDollar tag body => dollars tag ++ body
  end.

(** a character that opens nothing before [next] *)
Definition opens_nothing (c : ascii) (next : list ascii) : Prop :=
  (c = "-"%char → head next ≠ Some "-"%char) ∧ c ≠ "#"%char ∧
  (c = "/"%char → head next ≠ Some "*"%char) ∧ is_quote c = false ∧ (c = "$"%char → dollar_tag next = None).

(** the body of a comment is a line's; that of a block, or between two tags, ends at
    the first mark that could end it; what is left open is left open to the end *)
Definition lexeme_ok (x : lexeme) (next : list ascii) : Prop :=
  match x with
  | Own c => opens_nothing c next
  | DashComment body | HashComment body => newline ∉ body ∧ (next = [] ∨ head next = Some newline)
  | BlockComment body => find_at block_end (body ++ block_end) 0 = Some (length body)
  | OpenBlock body => find_at block_end body 0 = None ∧ next = []
  | Quoted q body => is_quote q = true ∧ Forall (piece_ok q) body ∧ head next ≠ Some q
  | OpenQuoted q body cut =>
      is_quote q = true ∧ Forall (piece_ok q) body ∧ (cut = true → q ≠ dquote) ∧ next = []
  | Dollar tag body =>
      Forall (λ c, tag_char c = true) tag ∧ find_at (dollars tag) (body ++ dollars tag) 0 = Some (length body)
  | OpenDollar tag body =>
      Forall (λ c, tag_char c = true) tag ∧ find_at (dollars tag) body 0 = None ∧ next = []
  end.

Definition text_of (ls : list lexeme) : list ascii := concat (lexeme_text <$> ls).

Fixpoint lexed (ls : list lexeme) : Prop :=
  match ls with
  | [] => True
  | x :: ls' => lexeme_ok x (text_of ls') ∧ lexed ls'
  end.

(** what of a lexeme is a statement's own *)
Definition own_text (x : lexeme) : list ascii :=
  match x with
  | Own c => [c]
  | DashComment _ | HashComment _ => []
  | BlockComment _ | OpenBlock _ => [" "%char]
  | Quoted q _ | OpenQuoted q _ _ => quote_shown q
  | Dollar _ _ | OpenDollar _ _ => text_shown
  end.

(** ** Searching and skipping *)

Lemma is_prefix_app p s r : length p <= length s → is_prefix p (s ++ r) = is_prefix p s.
Proof.
  revert s. induction p as [|a p IH]; intros [|b s] Hl; cbn in *; [done..|lia|].
  rewrite IH by lia. done.
Qed.

Lemma is_prefix_length p s : is_prefix p s = true → length p <= length s.
Proof. intros [r ->]%is_prefix_spec. rewrite length_app. lia. Qed.

Lemma is_prefix_self p r : is_prefix p (p ++ r) = true.
Proof. apply is_prefix_spec. by exists r. Qed.

Lemma find_at_bound p s k j : find_at p s k = Some j → k <= j ∧ j + length p <= k + length s.
Proof.
  revert k. induction s as [|c s IH]; intros k; cbn [find_at]; case_match eqn:Hp.
  - intros [= ->]. apply is_prefix_length in Hp. lia.
  - done.
  - intros [= ->]. apply is_prefix_length in Hp. lia.
  - intros [? ?]%IH. cbn. lia.
Qed.

(** a mark that is found is found there whatever follows *)
Lemma find_at_app p s r k j : find_at p s k = Some j → find_at p (s ++ r) k = Some j.
Proof.
  revert k. induction s as [|c s IH]; intros k Hf.
  - cbn [find_at] in Hf. case_match eqn:Hp; [|done]. injection Hf as <-.
    destruct p as [|a p]; [|done]. by destruct ([] ++ r).
  - pose proof (find_at_bound _ _ _ _ Hf) as Hb. cbn [find_at app] in *.
    pose proof (is_prefix_app p (c :: s) r) as Ha. cbn [app] in Ha. rewrite Ha by (cbn in Hb |- *; lia).
    case_match eqn:Hp; [done|by apply IH].
Qed.

Lemma drop_while_stop (p : ascii → bool) l r :
  Forall (λ c, p c = true) l → match r with c :: _ => p c = false | [] => True end → drop_while p (l ++ r) = r.
Proof.
  intros Hl Hr. induction Hl as [|c l Hc _ IH]; cbn.
  - destruct r as [|c r]; [done|]. cbn. by rewrite Hr.
  - by rewrite Hc.
Qed.

Lemma take_while_stop (p : ascii → bool) l r :
  Forall (λ c, p c = true) l → match r with c :: _ => p c = false | [] => True end → take_while p (l ++ r) = l.
Proof.
  intros Hl Hr. induction Hl as [|c l Hc _ IH]; cbn.
  - destruct r as [|c r]; [done|]. cbn. by rewrite Hr.
  - by rewrite Hc, IH.
Qed.

Lemma take_drop_while (p : ascii → bool) l : take_while p l ++ drop_while p l = l.
Proof. induction l as [|c l IH]; [done|]. cbn. destruct (p c); [|done]. cbn. by rewrite IH. Qed.

Lemma taken_hold (p : ascii → bool) l : Forall (λ c, p c = true) (take_while p l).
Proof. induction l as [|c l IH]; [constructor|]. cbn. destruct (p c) eqn:Hc; [by constructor|constructor]. Qed.

Lemma drop_while_head (p : ascii → bool) l : match drop_while p l with c :: _ => p c = false | [] => True end.
Proof. induction l as [|c l IH]; [done|]. cbn. by destruct (p c) eqn:Hc. Qed.

Lemma skip_past_found close body next :
  find_at close (body ++ close) 0 = Some (length body) → skip_past close (body ++ close ++ next) = next.
Proof.
  intros Hf. unfold skip_past. rewrite app_assoc, (find_at_app _ _ _ _ _ Hf), <- length_app. by rewrite drop_app_length.
Qed.

Lemma skip_quoted_body q ps next :
  is_quote q = true → Forall (piece_ok q) ps → skip_quoted q (pieces_text q ps ++ next) = skip_quoted q next.
Proof.
  intros Hq. assert (q ≠ backslash) as Hqb by (intros ->; done).
  induction 1 as [|p ps Hp _ IH]; [done|]. unfold pieces_text in *. rewrite fmap_cons. cbn [concat].
  rewrite <- app_assoc. destruct p as [c| |c]; cbn [piece_text app skip_quoted piece_ok] in *.
  - destruct Hp as [Hcq Hcb]. destruct (Ascii.eqb_spec c q) as [->|_]; [done|].
    destruct (Ascii.eqb_spec c backslash) as [->|_]; [|done]. by specialize (Hcb eq_refl) as ->.
  - destruct (Ascii.eqb_spec q backslash) as [?|_]; [done|]. cbn. by rewrite !Ascii.eqb_refl.
  - rewrite Ascii.eqb_refl. destruct (Ascii.eqb_spec q dquote) as [?|_]; [done|]. done.
Qed.

Lemma skip_quoted_close q next : is_quote q = true → head next ≠ Some q → skip_quoted q (q :: next) = next.
Proof.
  intros Hq Hn. cbn [skip_quoted]. destruct (Ascii.eqb_spec q backslash) as [->|_]; [done|]. cbn [andb]. rewrite Ascii.eqb_refl.
  destruct next as [|d next]; [done|]. destruct (Ascii.eqb_spec d q) as [->|_]; [by destruct Hn|done].
Qed.

Lemma skip_quoted_cut q (cut : bool) :
  is_quote q = true → (cut = true → q ≠ dquote) → skip_quoted q (if cut then [backslash] else []) = [].
Proof.
  intros Hq Hc. destruct cut; [|done]. cbn [skip_quoted]. rewrite Ascii.eqb_refl. destruct (Ascii.eqb_spec q dquote) as [->|_]; [by destruct Hc|done].
Qed.

Lemma dollar_tag_dollars tag l :
  Forall (λ c, tag_char c = true) tag → dollar_tag (tag ++ "$"%char :: l) = Some (dollars tag).
Proof. intros Ht. unfold dollar_tag. by rewrite drop_while_stop, take_while_stop. Qed.

Lemma skip_line_comment body next :
  newline ∉ body → next = [] ∨ head next = Some newline → skip_line (body ++ next) = next.
Proof.
  intros Hb Hn. apply drop_while_stop.
  - apply Forall_forall. intros c Hc. destruct (Ascii.eqb_spec c newline) as [->|_]; [done|done].
  - destruct Hn as [->|Hn]; [done|]. destruct next as [|c next]; [done|]. injection Hn as ->. by rewrite Ascii.eqb_refl.
Qed.

(** ** One round per lexeme *)

Lemma quote_first q l : is_quote q = true → mask_step q l = (quote_shown q, skip_quoted q l).
Proof.
  intros Hq. unfold mask_step. unfold is_quote in Hq.
  destruct (Ascii.eqb_spec q squote) as [->|_]; [done|]. destruct (Ascii.eqb_spec q dquote) as [->|_]; [done|].
  destruct (Ascii.eqb_spec q backtick) as [->|_]; done.
Qed.

Lemma own_first c next : opens_nothing c next → mask_step c next = ([c], next).
Proof.
  intros (Hd & Hh & Hs & Hq & Ht). unfold mask_step. rewrite Hq.
  destruct (Ascii.eqb_spec c "#") as [?|_]; [done|].
  destruct (Ascii.eqb_spec c "-") as [->|_]; cbn [andb].
  { rewrite bool_decide_eq_false_2 by auto. done. }
  destruct (Ascii.eqb_spec c "/") as [->|_]; cbn [andb].
  { rewrite bool_decide_eq_false_2 by auto. done. }
  destruct (Ascii.eqb_spec c "$") as [->|_]; [|done]. by rewrite Ht.
Qed.

Lemma dash_first l : mask_step "-"%char ("-"%char :: l) = ([], skip_line ("-"%char :: "-"%char :: l)).
Proof. done. Qed.

Lemma hash_first l : mask_step "#"%char l = ([], skip_line ("#"%char :: l)).
Proof. done. Qed.

Lemma block_first l : mask_step "/"%char ("*"%char :: l) = ([" "%char], skip_past block_end l).
Proof. done. Qed.

Lemma own_or_tag l :
  mask_step "$"%char l =
  match dollar_tag l with
  | Some tag => (text_shown, skip_past tag (drop (length tag) ("$"%char :: l)))
  | None => (["$"%char], l)
  end.
Proof. done. Qed.

Lemma dollar_first tag l :
  Forall (λ c, tag_char c = true) tag →
  ∃ l', dollars tag ++ l = "$"%char :: l' ∧ mask_step "$"%char l' = (text_shown, skip_past (dollars tag) l).
Proof.
  intros Ht. exists (tag ++ "$"%char :: l). assert (dollars tag ++ l = "$"%char :: tag ++ "$"%char :: l) as Hd.
  { unfold dollars. cbn [app]. by rewrite <- app_assoc. }
  split; [done|]. rewrite own_or_tag. rewrite dollar_tag_dollars by done. by rewrite <- Hd, drop_app_length.
Qed.

Lemma step_lexeme x next :
  lexeme_ok x next → ∃ ch l, lexeme_text x ++ next = ch :: l ∧ mask_step ch l = (own_text x, next).
Proof.
  destruct x as [c|body|body|body|body|q body|q body cut|tag body|tag body]; cbn [lexeme_ok lexeme_text own_text].
  - intros H. exists c, next. split; [done|]. by apply own_first.
  - intros [Hb Hn]. exists "-"%char, ("-"%char :: body ++ next). split; [done|]. rewrite dash_first. f_equal.
    by apply (skip_line_comment ("-"%char :: "-"%char :: body)); [rewrite !not_elem_of_cons|].
  - intros [Hb Hn]. exists "#"%char, (body ++ next). split; [done|]. rewrite hash_first. f_equal.
    by apply (skip_line_comment ("#"%char :: body)); [rewrite !not_elem_of_cons|].
  - intros Hf. exists "/"%char, ("*"%char :: (body ++ block_end) ++ next). split; [done|]. rewrite block_first.
    by rewrite <- app_assoc, skip_past_found.
  - intros [Hf ->]. exists "/"%char, ("*"%char :: body ++ []). split; [done|]. rewrite block_first, app_nil_r.
    unfold skip_past. by rewrite Hf.
  - intros (Hq & Hp & Hn). exists q, ((pieces_text q body ++ [q]) ++ next). split; [done|]. rewrite quote_first by done. f_equal.
    rewrite <- app_assoc, skip_quoted_body by done. by apply skip_quoted_close.
  - intros (Hq & Hp & Hc & ->). exists q, ((pieces_text q body ++ (if cut then [backslash] else [])) ++ []).
    split; [done|]. rewrite quote_first by done. f_equal.
    rewrite app_nil_r, skip_quoted_body by done. by apply skip_quoted_cut.
  - intros [Ht Hf]. destruct (dollar_first tag (body ++ dollars tag ++ next) Ht) as (l & Hl & Hm).
    exists "$"%char, l. rewrite <- !app_assoc, Hl, Hm. split; [done|]. by rewrite skip_past_found.
  - intros (Ht & Hf & ->). destruct (dollar_first tag body Ht) as (l & Hl & Hm).
    exists "$"%char, l. rewrite app_nil_r, Hl, Hm. split; [done|]. unfold skip_past. by rewrite Hf.
Qed.

Lemma lexeme_text_length x : 1 <= length (lexeme_text x).
Proof. destruct x; cbn; lia. Qed.

Lemma mask_lexemes ls fuel :
  lexed ls → length (text_of ls) <= fuel → mask_list fuel (text_of ls) = Some (concat (own_text <$> ls)).
Proof.
  revert fuel. induction ls as [|x ls IH]; intros fuel Hl Hf; [by destruct fuel|].
  destruct Hl as [Hx Hl]. unfold text_of in *. rewrite fmap_cons in *. cbn [concat] in *.
  rewrite length_app in Hf. pose proof (lexeme_text_length x). fold (text_of ls) in *.
  destruct (step_lexeme _ _ Hx) as (ch & l & Ht & Hs). rewrite Ht.
  destruct fuel as [|fuel]; [lia|]. cbn [mask_list]. rewrite Hs, IH by (done || lia). done.
Qed.

(** what is left of a text is its own, each in its place *)
Lemma mask_own ls : lexed ls → chars (maskSql (of_chars (text_of ls))) = concat (own_text <$> ls).
Proof.
  intros Hl. unfold maskSql. rewrite <- length_chars, !chars_of_chars, mask_lexemes by done. done.
Qed.

(** ** Every text is lexed *)

Lemma find_at_split p s k j :
  find_at p s k = Some j → ∃ a r, s = a ++ p ++ r ∧ j = k + length a ∧ find_at p (a ++ p) k = Some j.
Proof.
  revert k. induction s as [|c s IH]; intros k; cbn [find_at]; case_match eqn:Hp.
  - intros [= ->]. apply is_prefix_spec in Hp as [r Hr]. exists [], r. split_and!; [done|cbn; lia|].
    cbn [app]. destruct p as [|a p]; [done|by destruct r].
  - done.
  - intros [= ->]. apply is_prefix_spec in Hp as [r Hr]. exists [], r. split_and!; [done|cbn; lia|].
    pose proof (is_prefix_self p []) as Hs. rewrite app_nil_r in Hs. cbn [app]. destruct p; cbn [find_at]; [done|]. by rewrite Hs.
  - intros Hf. destruct (IH _ Hf) as (a & r & -> & -> & Hf'). exists (c :: a), r. split_and!; [done|cbn; lia|].
    pose proof (find_at_bound _ _ _ _ Hf') as Hb. cbn [app find_at]. rewrite Hf'.
    destruct (is_prefix p (c :: a ++ p)) eqn:Hp'; [|done].
    rewrite <- (is_prefix_app p (c :: a ++ p) r) in Hp'; [|cbn; rewrite length_app; lia].
    cbn [app] in Hp'. rewrite <- app_assoc in Hp'. congruence.
Qed.

(** the pieces up to the closing quote, or to the end *)
Lemma quoted_pieces q n l :
  is_quote q = true → length l <= n →
  ∃ ps, Forall (piece_ok q) ps ∧
    ((∃ next, l = pieces_text q ps ++ q :: next ∧ head next ≠ Some q) ∨
     (∃ cut : bool, l = pieces_text q ps ++ (if cut then [backslash] else []) ∧ (cut = true → q ≠ dquote))).
Proof.
  intros Hq. assert (q ≠ backslash) as Hqb by (intros ->; done). revert l.
  induction n as [|n IH]; intros l Hl.
  { exists []. split; [done|]. right. exists false. by destruct l; [|cbn in Hl; lia]. }
  assert (∀ p l', piece_ok q p → l = piece_text q p ++ l' →
    ∃ ps, Forall (piece_ok q) ps ∧
      ((∃ next, l = pieces_text q ps ++ q :: next ∧ head next ≠ Some q) ∨
       (∃ cut : bool, l = pieces_text q ps ++ (if cut then [backslash] else []) ∧ (cut = true → q ≠ dquote)))) as Hstep.
  { intros p l' Hp ->. destruct (IH l') as (ps & Hps & Hcase).
    { destruct p; cbn in Hl; lia. }
    exists (p :: ps). split; [by constructor|]. unfold pieces_text. rewrite fmap_cons. cbn [concat].
    destruct Hcase as [(next & -> & Hn)|(cut & -> & Hc)]; [left; exists next|right; exists cut]; by rewrite <- app_assoc. }
  destruct l as [|c l]; [exists []; split; [done|]; right; by exists false|].
  destruct (decide (c = backslash ∧ q ≠ dquote)) as [[-> Hd]|Hnb].
  - destruct l as [|d l]; [exists []; split; [done|]; right; by exists true|]. by apply (Hstep (Escaped d) l).
  - destruct (decide (c = q)) as [->|Hcq].
    + destruct (decide (head l = Some q)) as [Hh|Hh].
      * destruct l as [|d l]; [done|]. injection Hh as ->. by apply (Hstep Twice l).
      * exists []. split; [done|]. left. by exists l.
    + apply (Hstep (Plain c) l); [|done]. split; [done|]. intros ->. destruct (decide (q = dquote)); [done|naive_solver].
Qed.

Lemma line_lexeme l : ∃ body next, l = body ++ next ∧ newline ∉ body ∧ (next = [] ∨ head next = Some newline).
Proof.
  exists (take_while (λ c, negb (c =? newline)%char) l), (drop_while (λ c, negb (c =? newline)%char) l).
  split; [by rewrite take_drop_while|]. split.
  - intros Hin. pose proof (taken_hold (λ c, negb (c =? newline)%char) l) as Ht. rewrite Forall_forall in Ht.
    specialize (Ht _ Hin). by rewrite Ascii.eqb_refl in Ht.
  - pose proof (drop_while_head (λ c, negb (c =? newline)%char) l) as Hh.
    destruct (drop_while _ l) as [|c r]; [by left|]. right. apply negb_false_iff, Ascii.eqb_eq in Hh. by subst.
Qed.

Lemma dollar_tag_inv l t :
  dollar_tag l = Some t → ∃ tag r, l = tag ++ "$"%char :: r ∧ t = dollars tag ∧ Forall (λ c, tag_char c = true) tag.
Proof.
  unfold dollar_tag. destruct (drop_while tag_char l) as [|c r] eqn:Hd; [done|].
  destruct (Ascii.eqb_spec c "$") as [->|_]; [|done]. intros [= <-].
  exists (take_while tag_char l), r. split; [by rewrite <- Hd, take_drop_while|]. split; [done|apply taken_hold].
Qed.

Definition starts (ch : ascii) (l : list ascii) : Prop := ∃ x next, lexeme_ok x next ∧ lexeme_text x ++ next = ch :: l.

Lemma starts_block l : starts "/"%char ("*"%char :: l).
Proof.
  destruct (find_at block_end l 0) as [j|] eqn:Hf.
  - destruct (find_at_split _ _ _ _ Hf) as (a & r & -> & -> & Ha). exists (BlockComment a), r. split; [done|].
    cbn [lexeme_text]. by rewrite <- !app_assoc.
  - exists (OpenBlock l), []. split; [done|]. by rewrite app_nil_r.
Qed.

Lemma starts_quoted q l : is_quote q = true → starts q l.
Proof.
  intros Hq. destruct (quoted_pieces q (length l) l Hq ltac:(lia)) as (ps & Hps & [(next & -> & Hn)|(cut & -> & Hc)]).
  - exists (Quoted q ps), next. split; [done|]. cbn [lexeme_text app]. by rewrite <- app_assoc.
  - exists (OpenQuoted q ps cut), []. split; [done|]. by rewrite app_nil_r.
Qed.

Lemma starts_dollar l t : dollar_tag l = Some t → starts "$"%char l.
Proof.
  intros (tag & r & -> & -> & Ht)%dollar_tag_inv.
  assert ("$"%char :: tag ++ "$"%char :: r = dollars tag ++ r) as Hd.
  { unfold dollars. cbn [app]. by rewrite <- app_assoc. }
  unfold starts. rewrite Hd. destruct (find_at (dollars tag) r 0) as [j|] eqn:Hf.
  - destruct (find_at_split _ _ _ _ Hf) as (a & r' & -> & -> & Ha). exists (Dollar tag a), r'. split; [done|].
    cbn [lexeme_text]. by rewrite <- !app_assoc.
  - exists (OpenDollar tag r), []. split; [done|]. by rewrite app_nil_r.
Qed.

Lemma starts_own c l : opens_nothing c l → starts c l.
Proof. intros H. by exists (Own c), l. Qed.

Lemma starts_lexeme ch l : starts ch l.
Proof.
  destruct (is_quote ch) eqn:Hq; [by apply starts_quoted|].
  destruct (decide (ch = "#"%char)) as [->|Hh].
  { destruct (line_lexeme l) as (body & next & -> & Hb). by exists (HashComment body), next. }
  destruct (decide (ch = "-"%char ∧ head l = Some "-"%char)) as [[-> Hl]|Hd].
  { destruct l as [|c l]; [done|]. injection Hl as ->.
    destruct (line_lexeme l) as (body & next & -> & Hb). by exists (DashComment body), next. }
  destruct (decide (ch = "/"%char ∧ head l = Some "*"%char)) as [[-> Hl]|Hs].
  { destruct l as [|c l]; [done|]. injection Hl as ->. apply starts_block. }
  destruct (decide (ch = "$"%char)) as [->|Ht].
  - destruct (dollar_tag l) as [t|] eqn:Ht; [by eapply starts_dollar|]. by apply starts_own.
  - apply starts_own. unfold opens_nothing. naive_solver.
Qed.

(** every text is the text of lexemes *)
Theorem every_text_is_lexed l : ∃ ls, lexed ls ∧ text_of ls = l.
Proof.
  assert (∀ n l, length l <= n → ∃ ls, lexed ls ∧ text_of ls = l) as H; [|by apply (H (length l))].
  clear l. intros n. induction n as [|n IH]; intros l Hl.
  { exists []. by destruct l; [|cbn in Hl; lia]. }
  destruct l as [|ch l]; [by exists []|]. destruct (starts_lexeme ch l) as (x & next & Hx & Ht).
  pose proof (lexeme_text_length x) as Hx1. apply (f_equal length) in Ht as Hlen. rewrite length_app in Hlen.
  destruct (IH next) as (ls & Hls & <-); [cbn in *; lia|]. by exists (x :: ls).
Qed.

Lemma mask_total l : is_Some (mask_list (length l) l).
Proof. destruct (every_text_is_lexed l) as (ls & Hl & <-). rewrite mask_lexemes by done. by eexists. Qed.

(** ** Words *)

Definition flush (acc : list ascii) : list (list ascii) := match acc with [] => [] | _ => [reverse acc] end.

(** the words of a text: its longest runs of word characters *)
Fixpoint runs (acc l : list ascii) : list (list ascii) :=
  match l with
  | [] => flush acc
  | c :: l' => if is_word c then runs (c :: acc) l' else flush acc ++ runs [] l'
  end.

Lemma space_no_word c : is_space c = true → is_word c = false.
Proof. by destruct c as [[] [] [] [] [] [] [] []]. Qed.

Lemma upper_word c : is_word (upper_char c) = is_word c.
Proof. by destruct c as [[] [] [] [] [] [] [] []]. Qed.

Lemma upper_space c : is_space (upper_char c) = is_space c.
Proof. by destruct c as [[] [] [] [] [] [] [] []]. Qed.

Lemma upper_alpha c : is_upper (upper_char c) = is_alpha c.
Proof. by destruct c as [[] [] [] [] [] [] [] []]. Qed.

Lemma space_no_alpha c : is_space c = true → is_alpha c = false.
Proof. by destruct c as [[] [] [] [] [] [] [] []]. Qed.

Lemma runs_first acc l :
  runs acc l = flush (reverse (take_while is_word l) ++ acc) ++ runs [] (drop_while is_word l).
Proof.
  revert acc. induction l as [|c l IH]; intros acc; cbn [runs take_while drop_while].
  - cbn. by rewrite app_nil_r.
  - destruct (is_word c) eqn:Hc.
    + rewrite IH, reverse_cons, <- app_assoc. done.
    + cbn. by rewrite Hc.
Qed.

Lemma flush_word w : w ≠ [] → flush (reverse w ++ []) = [w].
Proof.
  intros Hw. rewrite app_nil_r. apply reverse_not_nil in Hw as Hr. rewrite <- (reverse_involutive w) at 2.
  by destruct (reverse w).
Qed.

(** a word stands at the front of a text exactly when it is the text's first run *)
Lemma first_word_run w l :
  Forall (λ c, is_word c = true) w →
  is_prefix w l && match drop (length w) l with d :: _ => negb (is_word d) | [] => true end = true ↔
  w = take_while is_word l.
Proof.
  intros Hw. rewrite andb_true_iff, is_prefix_spec. split.
  - intros [[r ->] Hd]. rewrite drop_app_length in Hd. rewrite take_while_stop; [done..|].
    destruct r as [|c r]; [done|]. by apply negb_true_iff.
  - intros ->. split; [exists (drop_while is_word l); by rewrite take_drop_while|].
    rewrite <- (take_drop_while is_word l) at 2. rewrite drop_app_length.
    pose proof (drop_while_head is_word l). destruct (drop_while is_word l); [done|]. by apply negb_true_iff.
Qed.

Lemma word_from_runs w l :
  w ≠ [] → Forall (λ c, is_word c = true) w →
  (word_from w true l = true ↔ w ∈ runs [] (drop_while is_word l)) ∧
  (word_from w false l = true ↔ w ∈ runs [] l).
Proof.
  intros Hne Hw. induction l as [|c l [IH1 IH2]].
  { cbn. split; (split; [done|]); by intros ?%not_elem_of_nil. }
  split.
  - cbn [word_from negb andb orb drop_while]. destruct (is_word c) eqn:Hc; [exact IH1|].
    rewrite IH2. cbn [runs]. by rewrite Hc.
  - cbn [word_from negb andb]. rewrite orb_true_iff, first_word_run by done.
    destruct (is_word c) eqn:Hc.
    + rewrite IH1, (runs_first [] (c :: l)). cbn [take_while drop_while]. rewrite Hc, flush_word by done.
      cbn [app]. by rewrite elem_of_cons.
    + rewrite IH2. cbn [runs take_while]. rewrite Hc. cbn [flush app]. naive_solver.
Qed.
