(* ===== verification/StatementReads.v ===== *)
(** A SQL text passes for a read exactly when each of its statements, in its own words,
    is one of the reads the source knows ([packages/core/src/statement-safety.ts]). *)
From S2P Require Import Prelude JsText JsValue StatementSafety StatementWords.

(** ** The specification: statements, and their own words *)

Definition is_semicolon (x : lexeme) : bool := match x with Own c => (c =? ";")%char | _ => false end.

(** a text's statements: its own characters, cut at its own semicolons *)
Fixpoint statements_from (acc : list ascii) (ls : list lexeme) : list (list ascii) :=
  match ls with
  | [] => [acc]
  | x :: ls' => if is_semicolon x then acc :: statements_from [] ls' else statements_from (acc ++ own_text x) ls'
  end.
Definition statements_of : list lexeme → list (list ascii) := statements_from [].

(** its words, in capitals, and the letters it begins with *)
Definition own_words (t : list ascii) : list string := of_chars <$> runs [] (upper_char <$> t).
Definition verb (t : list ascii) : string :=
  of_chars (upper_char <$> take_while is_alpha (drop_while is_space t)).

Definition has_write (t : list ascii) : Prop := Exists (λ w, w ∈ own_words t) write_words.

Inductive only_reads (t : list ascii) : Prop :=
| reads_nothing : Forall (λ c, is_space c = true) t → only_reads t
| reads_rows : verb t ∈ ["SELECT"; "TABLE"; "VALUES"] → "INTO" ∉ own_words t → only_reads t
| reads_with : verb t = "WITH" → ¬ has_write t → "INTO" ∉ own_words t → only_reads t
| reads_shown : verb t ∈ ["SHOW"; "DESCRIBE"; "DESC"] → only_reads t
| reads_plan : verb t = "EXPLAIN" → ¬ ("ANALYZE" ∈ own_words t ∧ has_write t) → only_reads t
| reads_pragma : verb t = "PRAGMA" → "="%char ∉ t → "("%char ∉ t → only_reads t.

(** ** What the spaces of a statement do not change *)

Definition letters (l : list ascii) : list ascii := take_while is_alpha (drop_while is_space l).

Definition is_mark (c : ascii) : bool := (c =? "=")%char || (c =? "(")%char.

Record reads_alike (l l' : list ascii) : Prop := {
  alike_words : runs [] l = runs [] l';
  alike_letters : letters l = letters l';
  alike_marks : existsb is_mark l = existsb is_mark l';
}.

#[export] Instance reads_alike_equiv : Equivalence reads_alike.
Proof.
  split.
  - by intros l.
  - intros l l' [H1 H2 H3]. by split.
  - intros l1 l2 l3 [H1 H2 H3] [H1' H2' H3']. split; congruence.
Qed.

Lemma space_no_mark c : is_space c = true → is_mark c = false.
Proof. by destruct c as [[] [] [] [] [] [] [] []]. Qed.

Lemma runs_collapse b acc l : (b = true → acc = []) → runs acc (collapse_list b l) = runs acc l.
Proof.
  revert b acc. induction l as [|c l IH]; intros b acc Hb; [done|]. cbn [collapse_list]. destruct (is_space c) eqn:Hc.
  - pose proof (space_no_word _ Hc) as Hw. destruct b; cbn [runs]; rewrite Hw.
    + rewrite (Hb eq_refl). by apply IH.
    + change (is_word " "%char) with false. cbn. f_equal. by apply IH.
  - cbn [runs]. destruct (is_word c); [by apply IH|]. f_equal. by apply IH.
Qed.

Lemma taken_collapse l : take_while is_alpha (collapse_list false l) = take_while is_alpha l.
Proof.
  induction l as [|c l IH]; [done|]. cbn [collapse_list]. destruct (is_space c) eqn:Hc.
  - cbn. by rewrite (space_no_alpha _ Hc).
  - cbn. by rewrite IH.
Qed.

Lemma letters_collapse b l : letters (collapse_list b l) = letters l.
Proof.
  unfold letters. revert b. induction l as [|c l IH]; intros b; [done|]. cbn [collapse_list drop_while].
  destruct (is_space c) eqn:Hc; [destruct b; [apply IH|]|].
  - cbn [drop_while]. change (is_space " "%char) with true. cbn [negb]. apply IH.
  - cbn [drop_while]. rewrite Hc. cbn [take_while]. by rewrite taken_collapse.
Qed.

Lemma marks_collapse b l : existsb is_mark (collapse_list b l) = existsb is_mark l.
Proof.
  revert b. induction l as [|c l IH]; intros b; [done|]. cbn [collapse_list existsb].
  destruct (is_space c) eqn:Hc; [rewrite (space_no_mark _ Hc); destruct b; cbn [existsb]; apply IH|].
  cbn [existsb]. by rewrite IH.
Qed.

Lemma alike_collapse l : reads_alike (collapse_list false l) l.
Proof. split; [by apply runs_collapse|apply letters_collapse|apply marks_collapse]. Qed.

Lemma alike_drop l : reads_alike (drop_while is_space l) l.
Proof.
  induction l as [|c l IH]; [done|]. cbn. destruct (is_space c) eqn:Hc; [|done].
  etransitivity; [exact IH|]. split; [|unfold letters; cbn; by rewrite Hc|cbn; by rewrite (space_no_mark _ Hc)].
  cbn. by rewrite (space_no_word _ Hc).
Qed.

Lemma runs_end acc l sp : Forall (λ c, is_space c = true) sp → runs acc (l ++ sp) = runs acc l.
Proof.
  intros Hsp. revert acc. induction l as [|c l IH]; intros acc; cbn [app runs].
  - revert acc. induction Hsp as [|c sp Hc _ IH]; intros acc; [done|]. cbn [runs].
    rewrite (space_no_word _ Hc), IH. cbn. by rewrite app_nil_r.
  - by destruct (is_word c); rewrite IH.
Qed.

Lemma taken_end l sp : Forall (λ c, is_space c = true) sp → take_while is_alpha (l ++ sp) = take_while is_alpha l.
Proof.
  intros Hsp. induction l as [|c l IH]; [|cbn; by rewrite IH].
  destruct Hsp as [|c sp Hc]; [done|]. cbn. by rewrite (space_no_alpha _ Hc).
Qed.

Lemma letters_end l sp : Forall (λ c, is_space c = true) sp → letters (l ++ sp) = letters l.
Proof.
  intros Hsp. unfold letters. induction l as [|c l IH]; cbn [app drop_while].
  - induction Hsp as [|c sp Hc _ IH]; [done|]. cbn. by rewrite Hc.
  - destruct (is_space c); [apply IH|apply (taken_end (c :: l) sp Hsp)].
Qed.

Lemma marks_end l sp : Forall (λ c, is_space c = true) sp → existsb is_mark (l ++ sp) = existsb is_mark l.
Proof.
  intros Hsp. rewrite existsb_app. assert (existsb is_mark sp = false) as ->; [|by rewrite orb_false_r].
  induction Hsp as [|c sp Hc _ IH]; [done|]. cbn. by rewrite (space_no_mark _ Hc).
Qed.

(** the front of a text that is followed by spaces only *)
Lemma trim_end_split l : ∃ sp, l = reverse (drop_while is_space (reverse l)) ++ sp ∧ Forall (λ c, is_space c = true) sp.
Proof.
  exists (reverse (take_while is_space (reverse l))). split; [|apply Forall_reverse, taken_hold].
  by rewrite <- reverse_app, take_drop_while, reverse_involutive.
Qed.

Lemma alike_trim s : reads_alike (chars (trim s)) (chars s).
Proof.
  unfold trim, trimEnd, trimStart. rewrite !chars_of_chars. transitivity (drop_while is_space (chars s)); [|apply alike_drop].
  destruct (trim_end_split (drop_while is_space (chars s))) as (sp & Hl & Hsp). rewrite Hl at 2.
  split; symmetry; [by apply runs_end|by apply letters_end|by apply marks_end].
Qed.

Lemma trim_blank s : trim s = "" ↔ Forall (λ c, is_space c = true) (chars s).
Proof.
  unfold trim, trimEnd, trimStart. rewrite !chars_of_chars. split.
  - intros He. apply (f_equal chars) in He. rewrite chars_of_chars in He.
    destruct (trim_end_split (drop_while is_space (chars s))) as (sp & Hl & Hsp). rewrite He in Hl. cbn in Hl.
    rewrite <- (take_drop_while is_space (chars s)), Hl. apply Forall_app. split; [apply taken_hold|done].
  - intros Hs. rewrite <- (app_nil_r (chars s)), (drop_while_stop is_space _ []) by done. done.
Qed.

(** ** The line that is judged *)

Section line.
Context (p q : string) (alike : reads_alike (chars q) (chars p)).
Let s : string := one_line q.

Lemma line_chars : ∃ l, chars s = upper_char <$> l ∧ reads_alike l (chars p).
Proof.
  exists (chars (trim (collapse q))). split.
  - unfold s, one_line, toUpperCase, map_chars. by rewrite chars_of_chars.
  - rewrite alike_trim. unfold collapse. rewrite chars_of_chars, alike_collapse. exact alike.
Qed.

Lemma runs_upper (acc l : list ascii) :
  runs (upper_char <$> acc) (upper_char <$> l) = (λ w : list ascii, upper_char <$> w) <$> runs acc l.
Proof.
  revert acc. assert (∀ acc : list ascii, flush (upper_char <$> acc) = (λ w : list ascii, upper_char <$> w) <$> flush acc) as Hf.
  { intros [|c acc]; [done|]. unfold flush. rewrite list_fmap_singleton. rewrite fmap_reverse. by destruct acc. }
  induction l as [|c l IH]; intros acc; cbn [runs]; [apply Hf|]. rewrite fmap_cons. cbn [runs]. rewrite upper_word.
  destruct (is_word c); [by apply (IH (c :: acc))|]. rewrite fmap_app, Hf. f_equal. apply (IH []).
Qed.

Lemma line_words : of_chars <$> runs [] (chars s) = own_words (chars p).
Proof.
  destruct line_chars as (l & -> & [Hr _ _]). unfold own_words. by rewrite !(runs_upper []), Hr.
Qed.

Lemma word_own w :
  w ≠ "" → Forall (λ c, is_word c = true) (chars w) → word s w = true ↔ w ∈ own_words (chars p).
Proof.
  intros Hne Hw. rewrite <- line_words, list_elem_of_fmap. unfold word.
  rewrite (proj2 (word_from_runs (chars w) (chars s) ltac:(by destruct w) Hw)). split.
  - intros Hin. exists (chars w). by rewrite of_chars_chars.
  - by intros (x & -> & Hin); rewrite chars_of_chars in *.
Qed.

Lemma taken_upper l : take_while is_upper (upper_char <$> l) = upper_char <$> take_while is_alpha l.
Proof. induction l as [|c l IH]; [done|]. cbn. rewrite upper_alpha. destruct (is_alpha c); [|done]. cbn. by rewrite <- IH. Qed.

Lemma trimmed_front x : drop_while is_space (chars (trim x)) = chars (trim x).
Proof.
  unfold trim, trimEnd, trimStart. rewrite !chars_of_chars.
  destruct (trim_end_split (drop_while is_space (chars x))) as (sp & Hl & _).
  pose proof (drop_while_head is_space (chars x)) as Hh. rewrite Hl in Hh.
  destruct (reverse _) as [|c r]; [done|]. cbn in *. by rewrite Hh.
Qed.

Lemma line_verb : first_word s = verb (chars p).
Proof.
  unfold first_word, verb. f_equal. unfold s, one_line, toUpperCase, map_chars. rewrite chars_of_chars, taken_upper. f_equal.
  rewrite <- trimmed_front. change (letters (chars (trim (collapse q))) = letters (chars p)).
  rewrite (alike_letters _ _ (alike_trim _)). unfold collapse. rewrite chars_of_chars, letters_collapse.
  apply (alike_letters _ _ alike).
Qed.

Lemma upper_mark c : is_mark (upper_char c) = is_mark c.
Proof. by destruct c as [[] [] [] [] [] [] [] []]. Qed.

Lemma line_marks : existsb is_mark (chars s) = existsb is_mark (chars p).
Proof.
  destruct line_chars as (l & -> & [_ _ <-]). induction l as [|c l IH]; [done|]. cbn. by rewrite upper_mark, <- IH.
Qed.

Lemma no_mark : existsb is_mark (chars p) = false ↔ "="%char ∉ chars p ∧ "("%char ∉ chars p.
Proof.
  split.
  - intros He. split; intros Hin; apply not_true_iff_false in He; apply He, existsb_exists; eexists;
      (split; [by apply list_elem_of_In|done]).
  - intros [H1 H2]. apply not_true_iff_false. intros (c & Hc & Hm)%existsb_exists. apply list_elem_of_In in Hc.
    apply orb_true_iff in Hm as [->%Ascii.eqb_eq| ->%Ascii.eqb_eq]; done.
Qed.

Lemma writes_word w : w ∈ write_words → w ≠ "" ∧ Forall (λ c, is_word c = true) (chars w).
Proof.
  intros Hw. assert (Forall (λ w, w ≠ "" ∧ Forall (λ c, is_word c = true) (chars w)) write_words) as H.
  { repeat constructor; done. }
  rewrite Forall_forall in H. by apply H.
Qed.

Lemma writes_inside_some w : writes_inside s = Some w → w ∈ write_words ∧ has_write (chars p).
Proof.
  intros [Hin Hw]%find_some. apply list_elem_of_In in Hin. split; [done|]. apply Exists_exists. exists w.
  split; [done|]. destruct (writes_word w Hin). by apply word_own.
Qed.

Lemma writes_inside_none : writes_inside s = None → ¬ has_write (chars p).
Proof.
  intros Hn (w & Hin & Hw)%Exists_exists. destruct (writes_word w Hin) as [H1 H2].
  apply (word_own w H1 H2) in Hw. apply list_elem_of_In in Hin. pose proof (find_none _ _ Hn w Hin). congruence.
Qed.

End line.

(** ** The verdict on a statement *)

Definition read_verbs : list string :=
  ["SELECT"; "TABLE"; "VALUES"; "WITH"; "SHOW"; "DESCRIBE"; "DESC"; "EXPLAIN"; "PRAGMA"].

Lemma other_verbs_write s f wi inner :
  f ∉ read_verbs → ∃ v, assess_first s f wi inner = Some v ∧ v.1 ≠ Read.
Proof.
  intros Hf. unfold read_verbs in Hf. rewrite !not_elem_of_cons in Hf. destruct_and! Hf. unfold assess_first.
  assert (∀ l, Forall (λ x, f ≠ x) l → bool_decide (f ∈ l) = false) as Hl.
  { intros l Hl. apply bool_decide_eq_false. intros Hin. rewrite Forall_forall in Hl. by apply (Hl f). }
  rewrite (Hl ["SELECT"; "TABLE"; "VALUES"]), (Hl ["SHOW"; "DESCRIBE"; "DESC"]) by by repeat constructor.
  rewrite (bool_decide_eq_false_2 (f = "WITH")), (bool_decide_eq_false_2 (f = "EXPLAIN")),
    (bool_decide_eq_false_2 (f = "PRAGMA")) by done.
  repeat case_match; by eexists.
Qed.

Lemma verb_letters t : verb t = of_chars (take_while is_upper (drop_while is_space (upper_char <$> t))).
Proof.
  unfold verb. f_equal. rewrite <- taken_upper. f_equal. induction t as [|c t IH]; [done|].
  cbn. rewrite upper_space. by destruct (is_space c).
Qed.

(** a statement read from a word that writes on begins with that word *)
Lemma verb_from w t : w ∈ write_words → is_prefix (chars w) (upper_char <$> t) = true → verb t ∉ read_verbs.
Proof.
  intros Hw [r Hr]%is_prefix_spec. rewrite verb_letters, Hr. unfold write_words, read_verbs in *.
  rewrite !elem_of_cons in Hw. intros Hin. rewrite !elem_of_cons, elem_of_nil in *.
  repeat destruct Hw as [->|Hw]; [..|done]; repeat destruct Hin as [Hin|Hin]; done.
Qed.

Lemma verb_short t : length t <= 1 → verb t ∉ read_verbs.
Proof.
  intros Hl. assert (∀ x, verb t = x → str_length x <= 1) as Hx.
  { intros x <-. unfold verb. rewrite <- length_chars, chars_of_chars, length_fmap.
    pose proof (f_equal length (take_drop_while is_alpha (drop_while is_space t))) as H1.
    pose proof (f_equal length (take_drop_while is_space t)) as H2. rewrite length_app in H1, H2. lia. }
  unfold read_verbs. rewrite !elem_of_cons, elem_of_nil.
  intros Hin. repeat destruct Hin as [Hin|Hin]; [..|done]; apply Hx in Hin; cbn in Hin; lia.
Qed.

Lemma indexOf_spec w t k : indexOf w t = Some k → is_prefix (chars w) (drop k (chars t)) = true.
Proof.
  intros Hf. destruct (find_at_split _ _ _ _ Hf) as (a & r & -> & -> & _). rewrite Nat.add_0_l, drop_app_length.
  apply is_prefix_self.
Qed.

Lemma sliced_not_read st w :
  w ∈ write_words → ∃ v, assessSqlStatement 1 (slice_at st w) = Some v ∧ v.1 ≠ Read.
Proof.
  intros Hw. cbn [assessSqlStatement]. apply other_verbs_write.
  rewrite (line_verb (slice_at st w) (slice_at st w)) by done. unfold slice_at.
  destruct (indexOf w (toUpperCase st)) as [k|] eqn:Hk; unfold slice_from; rewrite chars_of_chars.
  - apply (verb_from w); [done|]. apply indexOf_spec in Hk. unfold toUpperCase, map_chars in Hk.
    by rewrite chars_of_chars, <- fmap_drop in Hk.
  - apply verb_short. rewrite length_drop, length_chars. lia.
Qed.

(** a verb that is known is of one kind only *)
Ltac other_verb :=
  match goal with
  | H : _ ∈ _ |- _ => apply (bool_decide_eq_true_2 _) in H; discriminate H
  | H : _ = _ |- _ => discriminate H
  end.

Section kinds.
Context (t : list ascii) (nonblank : ¬ Forall (λ c, is_space c = true) t).

Lemma kind_rows v : verb t = v → v ∈ ["SELECT"; "TABLE"; "VALUES"] → only_reads t ↔ "INTO" ∉ own_words t.
Proof.
  intros Hv Hin. split; [|by rewrite <- Hv in Hin; apply reads_rows].
  rewrite !elem_of_cons, elem_of_nil in Hin.
  intros [?|?|H|H|H|H]; try done; rewrite Hv in H; repeat destruct Hin as [->|Hin]; done || other_verb.
Qed.

Lemma kind_with : verb t = "WITH" → only_reads t ↔ ¬ has_write t ∧ "INTO" ∉ own_words t.
Proof.
  intros Hv. split; [|by intros []; apply reads_with].
  intros [?|H|H|H|H|H]; try done; rewrite Hv in H; other_verb.
Qed.

Lemma kind_shown v : verb t = v → v ∈ ["SHOW"; "DESCRIBE"; "DESC"] → only_reads t.
Proof. intros Hv Hin. rewrite <- Hv in Hin. by apply reads_shown. Qed.

Lemma kind_plan : verb t = "EXPLAIN" → only_reads t ↔ ¬ ("ANALYZE" ∈ own_words t ∧ has_write t).
Proof.
  intros Hv. split; [|by apply reads_plan].
  intros [?|H|H|H|H|H]; try done; rewrite Hv in H; other_verb.
Qed.

Lemma kind_pragma : verb t = "PRAGMA" → only_reads t ↔ "="%char ∉ t ∧ "("%char ∉ t.
Proof.
  intros Hv. split; [|by intros []; apply reads_pragma].
  intros [?|H|H|H|H|H]; try done; rewrite Hv in H; other_verb.
Qed.

Lemma kind_other : verb t ∉ read_verbs → ¬ only_reads t.
Proof.
  unfold read_verbs. rewrite !not_elem_of_cons. intros Hn [?|H|H|H|H|H]; destruct_and! Hn; try done;
    rewrite !elem_of_cons, elem_of_nil in H; naive_solver.
Qed.
End kinds.

Lemma word_iff p q w :
  reads_alike (chars q) (chars p) → w ∈ ["INTO"; "ANALYZE"] →
  word (one_line q) w = true ↔ w ∈ own_words (chars p).
Proof.
  intros Ha Hw. apply word_own; [done|..]; rewrite !elem_of_cons, elem_of_nil in Hw;
    destruct Hw as [->|[->|[]]]; [done..|by repeat constructor|by repeat constructor].
Qed.

Section verdicts.
Context (s : string) (wi : option string) (inner : string → option verdict).

Lemma verdict_rows v :
  v ∈ ["SELECT"; "TABLE"; "VALUES"] →
  assess_first s v wi inner = Some (if word s "INTO" then (Write, Some SELECT_INTO) else (Read, None)).
Proof. rewrite !elem_of_cons, elem_of_nil. by intros [->|[->|[->|[]]]]. Qed.

Lemma verdict_with :
  assess_first s "WITH" wi inner =
  match wi with
  | Some w => inner w
  | None => Some (if word s "INTO" then (Write, Some SELECT_INTO) else (Read, None))
  end.
Proof. done. Qed.

Lemma verdict_shown v : v ∈ ["SHOW"; "DESCRIBE"; "DESC"] → assess_first s v wi inner = Some (Read, None).
Proof. rewrite !elem_of_cons, elem_of_nil. by intros [->|[->|[->|[]]]]. Qed.

Lemma verdict_plan :
  assess_first s "EXPLAIN" wi inner =
  Some match wi with
       | Some w => if word s "ANALYZE" then (Write, Some ("EXPLAIN ANALYZE " +:+ w)) else (Read, None)
       | None => (Read, None)
       end.
Proof. done. Qed.

Lemma verdict_pragma :
  assess_first s "PRAGMA" wi inner =
  Some (if existsb is_mark (chars s) then (Write, Some "PRAGMA that sets a value") else (Read, None)).
Proof. done. Qed.
End verdicts.

Lemma if_read (b : bool) (r : option string) : (default (Write, None) (Some (if b then (Write, r) else (Read, None)))).1 = Read ↔ b = false.
Proof. by destruct b. Qed.

(** the kinds of the verbs that may read *)
Lemma read_verb_cases v :
  v ∈ read_verbs → v ∈ ["SELECT"; "TABLE"; "VALUES"] ∨ v = "WITH" ∨ v ∈ ["SHOW"; "DESCRIBE"; "DESC"] ∨ v = "EXPLAIN" ∨ v = "PRAGMA".
Proof. unfold read_verbs. rewrite !elem_of_cons, !elem_of_nil. tauto. Qed.

(** the verdict, for a statement that is not blank *)
Lemma assessed_read p q :
  reads_alike (chars q) (chars p) → ¬ Forall (λ c, is_space c = true) (chars p) →
  (assessed q).1 = Read ↔ only_reads (chars p).
Proof.
  intros Ha Hb. unfold assessed. set (inner := λ w, assessSqlStatement 1 (slice_at q w)).
  change (assessSqlStatement 2 q) with (assess_first (one_line q) (first_word (one_line q)) (writes_inside (one_line q)) inner).
  rewrite (line_verb p q Ha). pose proof (writes_inside_some p q Ha) as Hsome. pose proof (writes_inside_none p q Ha) as Hnone.
  assert (word (one_line q) "INTO" = false ↔ "INTO" ∉ own_words (chars p)) as Hinto.
  { rewrite <- not_true_iff_false, (word_iff p q "INTO" Ha); [done|set_solver]. }
  pose proof (word_iff p q "ANALYZE" Ha ltac:(set_solver)) as Hana.
  destruct (decide (verb (chars p) ∈ read_verbs)) as [Hin|Hout].
  2:{ destruct (other_verbs_write (one_line q) _ (writes_inside (one_line q)) inner Hout) as (v & -> & Hv).
      pose proof (kind_other _ Hb Hout). cbn. naive_solver. }
  destruct (read_verb_cases _ Hin) as [Hv|[Hv|[Hv|[Hv|Hv]]]].
  - rewrite verdict_rows, if_read, (kind_rows _ Hb _ eq_refl) by done. exact Hinto.
  - rewrite Hv, verdict_with, (kind_with _ Hb Hv). destruct (writes_inside (one_line q)) as [w|].
    + destruct (Hsome w eq_refl) as [Hw Hh]. destruct (sliced_not_read q w Hw) as (v & Hi & Hr). unfold inner. rewrite Hi.
      cbn. naive_solver.
    + rewrite if_read, Hinto. naive_solver.
  - rewrite verdict_shown by done. pose proof (kind_shown (chars p) _ eq_refl Hv). by cbn.
  - rewrite Hv, verdict_plan, (kind_plan _ Hb Hv). destruct (writes_inside (one_line q)) as [w|].
    + destruct (Hsome w eq_refl) as [Hw Hh]. rewrite if_read, <- not_true_iff_false, Hana. naive_solver.
    + cbn. naive_solver.
  - rewrite Hv, verdict_pragma, if_read, (kind_pragma _ Hb Hv), (line_marks p q Ha). apply no_mark.
Qed.

(** it calls itself once at most *)
Lemma assess_total st : ∃ v, assessSqlStatement 2 st = Some v.
Proof.
  change (∃ v, assess_first (one_line st) (first_word (one_line st)) (writes_inside (one_line st))
    (λ w, assessSqlStatement 1 (slice_at st w)) = Some v).
  destruct (decide (first_word (one_line st) ∈ read_verbs)) as [Hin|Hout].
  2:{ destruct (other_verbs_write (one_line st) _ (writes_inside (one_line st)) (λ w, assessSqlStatement 1 (slice_at st w)) Hout)
        as (v & Hv & _). by exists v. }
  destruct (read_verb_cases _ Hin) as [Hv|[Hv|[Hv|[Hv|Hv]]]].
  - rewrite verdict_rows by done. by eexists.
  - rewrite Hv, verdict_with. destruct (writes_inside (one_line st)) as [w|] eqn:Hw; [|by eexists].
    destruct (writes_inside_some st st ltac:(done) w Hw) as [Hin' _].
    destruct (sliced_not_read st w Hin') as (v & Hs & _). by exists v.
  - rewrite verdict_shown by done. by eexists.
  - rewrite Hv, verdict_plan. by eexists.
  - rewrite Hv, verdict_pragma. by eexists.
Qed.

(** ** The verdict on a text *)

Lemma worsen_read vs a : (foldl worsen a vs).1 = Read ↔ a.1 = Read ∧ Forall (λ v, v.1 = Read) vs.
Proof.
  revert a. induction vs as [|v vs IH]; intros a; cbn [foldl]; [naive_solver|]. rewrite IH, Forall_cons.
  destruct a as [r rs], v as [r' rs']. cbn. by destruct r, r'; cbn; naive_solver.
Qed.

Lemma split_list_app c acc w l : c ∉ w → split_list c acc (w ++ l) = split_list c (reverse w ++ acc) l.
Proof.
  revert acc. induction w as [|d w IH]; intros acc Hc; [done|]. apply not_elem_of_cons in Hc as [Hd Hw].
  cbn [app split_list]. destruct (Ascii.eqb_spec d c) as [->|_]; [done|].
  by rewrite IH, reverse_cons, <- app_assoc.
Qed.

Lemma own_no_semicolon x : is_semicolon x = false → ";"%char ∉ own_text x.
Proof.
  destruct x as [c|?|?|?|?|q ?|q ? ?|? ?|? ?]; cbn [is_semicolon own_text]; intros Hx.
  - apply not_elem_of_cons. split; [|apply not_elem_of_nil]. intros <-. done.
  - apply not_elem_of_nil.
  - apply not_elem_of_nil.
  - by apply (bool_decide_eq_false_1 _).
  - by apply (bool_decide_eq_false_1 _).
  - unfold quote_shown. destruct (q =? squote)%char; by apply (bool_decide_eq_false_1 _).
  - unfold quote_shown. destruct (q =? squote)%char; by apply (bool_decide_eq_false_1 _).
  - by apply (bool_decide_eq_false_1 _).
  - by apply (bool_decide_eq_false_1 _).
Qed.

Lemma statements_split acc ls :
  split_list ";"%char (reverse acc) (concat (own_text <$> ls)) = statements_from acc ls.
Proof.
  revert acc. induction ls as [|x ls IH]; intros acc; [cbn; by rewrite reverse_involutive|].
  rewrite fmap_cons. cbn [concat statements_from]. destruct (is_semicolon x) eqn:Hx.
  - destruct x as [c|?|?|?|?|? ?|? ? ?|? ?|? ?]; [|done..]. apply Ascii.eqb_eq in Hx as ->.
    cbn [own_text app split_list]. rewrite Ascii.eqb_refl, reverse_involutive. f_equal. apply (IH []).
  - rewrite split_list_app, <- reverse_app by (by apply own_no_semicolon). apply IH.
Qed.

(** the pieces that are judged, blank ones left out, against the statements *)
Lemma pieces_read ps :
  Forall (λ v, v.1 = Read) (assessed <$> filter (λ s, s ≠ "") (trim <$> ps)) ↔ Forall (λ p, only_reads (chars p)) ps.
Proof.
  induction ps as [|p ps IH]; [done|]. rewrite fmap_cons, filter_cons, Forall_cons.
  destruct (decide (trim p ≠ "")) as [Hp|Hp].
  - rewrite fmap_cons, Forall_cons, IH. rewrite trim_blank in Hp.
    by rewrite (assessed_read p (trim p) (alike_trim p) Hp).
  - apply dec_stable, trim_blank in Hp. rewrite IH. pose proof (reads_nothing _ Hp). naive_solver.
Qed.

(** C30. A SQL text passes for a read exactly when each of its statements does — what
    stands in comments, strings, quoted names and dollar quotes counting for nothing —
    and a statement does only as a query without [INTO], a [WITH] without any word
    that writes, a [SHOW] or [DESCRIBE], a plan that is not run for a write, or a
    [PRAGMA] that sets nothing. *)
Theorem passes_as_read ls :
  lexed ls → risk (assessSql (of_chars (text_of ls))) = Read ↔ Forall only_reads (statements_of ls).
Proof.
  intros Hl. unfold assessSql. cbn [risk]. rewrite worsen_read, pieces_read. unfold split_on.
  pose proof (statements_split [] ls) as Hs. rewrite reverse_nil in Hs. rewrite mask_own, Hs by done.
  rewrite Forall_fmap. unfold compose. setoid_rewrite chars_of_chars. naive_solver.
Qed.

(** ** A text with a string, a comment and two statements *)

Definition sample_lexemes : list lexeme :=
  (Own <$> chars "select ") ++ [Quoted squote (Plain <$> chars "x; drop table t")] ++
  (Own <$> chars "; with u as (select 2) ") ++ [BlockComment (chars " delete ")] ++ (Own <$> chars "table u").

Lemma passes_as_read_witness :
  lexed sample_lexemes ∧
  (risk (assessSql "select 'x; drop table t'; with u as (select 2) /* delete */table u") = Read ↔
   Forall only_reads (statements_of sample_lexemes)).
Proof.
  assert (lexed sample_lexemes) as Hl.
  { cbn. split_and!; try done. repeat (apply Forall_cons; split; [by split|]). apply Forall_nil. exact I. }
  split; [exact Hl|]. exact (passes_as_read sample_lexemes Hl).
Defined.
