(* ===== verification/Watch.v ===== *)
(** The change detection of a bridge that polls ([packages/core/src/bridges/watch.ts]):
    what the next poll asks, and what the rows it is answered mean; at the end, what
    a key of a watch tells: two rows with one key have one timestamp, and a key
    without a timestamp is never one with. *)
From stdpp Require Import sorting.
From S2P Require Import Prelude JsText JsNumber JsDate JsIso JsValue JsJson.
From S2P Require Import BridgeConfig RowCompare TableReader.

Inductive WatchCursor :=
| IncrementCursor (value : jsval) (ccolumn : option string)
| TimestampCursor (ts : jsval) (boundaryKeys : list string) (ccolumn : option string)
| SnapshotCursor (seen : list string).

Section watch.
Context `{JsHost} `{JsPrint}.

(** ** Keys; [None] where they throw *)

Definition null_if_nil (v : jsval) : jsval := if is_nil v then VNull else v.

Definition rowKey (row : obj) (pk : list string) : option string :=
  let cols := match pk with [] => merge_sort str_le (obj_keys row) | _ => pk end in
  match stringify (VArr ((λ c, null_if_nil (obj_get row c)) <$> cols)) with
  | JText s => Some s
  | _ => None
  end.

Definition stamp_of (v : jsval) : option string :=
  match v with
  | VDate t => toISOString <$> t
  | _ => Some (if is_nil v then EmptyString else to_string v)
  end.

Definition emittedKey (row : obj) (pk : list string) (column : string) : option string :=
  k ← rowKey row pk;
  s ← stamp_of (obj_get row column);
  Some (k +:+ "@" +:+ s).

(** ** Timestamps

    a number that is a whole count of milliseconds, as a date is, is [Millis];
    sums and differences of these are exact, or so large that rounding does not
    bring them near a window *)
Inductive Norm :=
| Millis (t : Z)
| Number (n : num)
| Text (s : string).

Definition tsNorm (v : jsval) : Norm :=
  match v with
  | VDate (Some t) => Millis t
  | VDate None => Number NaN
  | VNum n => if is_integer n && (Z.abs (trunc_Z n) <=? max_time)%Z then Millis (trunc_Z n) else Number n
  | VStr s => match date_parse s with Some t => Millis t | None => Text s end
  | _ => Text (to_string v)
  end.

Definition norm_num (n : Norm) : option num :=
  match n with Millis t => Some (num_of_Z t) | Number n => Some n | Text _ => None end.

Definition norm_text (n : Norm) : string :=
  match n with Millis t => Z_to_string t | Number n => num_to_string n | Text s => s end.

Definition tsEquals (a b : jsval) : bool :=
  match tsNorm a, tsNorm b with
  | Millis x, Millis y => (x =? y)%Z
  | Text x, Text y => bool_decide (x = y)
  | x, y => match norm_num x, norm_num y with Some x, Some y => num_eq x y | _, _ => false end
  end.

Definition tsGreater (a b : jsval) : bool :=
  match tsNorm a, tsNorm b with
  | Millis x, Millis y => (y <? x)%Z
  | x, y => match norm_num x, norm_num y with
            | Some x, Some y => num_lt y x
            | _, _ => str_lt (norm_text y) (norm_text x)
            end
  end.

(** [None] where it throws *)
Definition serializeTs (v : jsval) : option jsval :=
  match v with VDate t => (λ t, VStr (toISOString t)) <$> t | _ => Some v end.

(** [/(Z|[+-]\d\d(:?\d\d)?)$/i.test(text.trim())], read from the end *)
Definition hasZone (text : string) : bool :=
  let sign c := (c =? "+")%char || (c =? "-")%char in
  match reverse (chars (trim text)) with
  | z :: r =>
      (z =? "Z")%char || (z =? "z")%char ||
      match z :: r with
      | d :: c :: s :: r =>
          is_digit d && is_digit c &&
          (sign s ||
           match s :: r with
           | b :: a :: s :: _ => is_digit b && is_digit a && sign s
           | _ => false
           end ||
           match s :: r with
           | k :: b :: a :: s :: _ => (k =? ":")%char && is_digit b && is_digit a && sign s
           | _ => false
           end)
      | _ => false
      end
  | [] => false
  end.

Definition wallClock (t : Z) : string :=
  let f := local_fields t in
  pad 4 (year f) +:+ "-" +:+ pad 2 (month f) +:+ "-" +:+ pad 2 (day f) +:+ " " +:+
  pad 2 (hours f) +:+ ":" +:+ pad 2 (minutes f) +:+ ":" +:+ pad 2 (seconds f) +:+ "." +:+ pad 3 (millis f).

(** the fields of an invalid date print as [NaN] *)
Definition NO_CLOCK : string := "0NaN-NaN-NaN NaN:NaN:NaN.NaN".

Definition tsMinus (ts : jsval) (ms : Z) : option jsval :=
  match ts, tsNorm ts with
  | VNum n, _ => Some (VNum (num_sub n (num_of_Z ms)))
  | VStr s, Millis t =>
      match time_clip (t - ms), hasZone s with
      | Some t, true => Some (VStr (toISOString t))
      | Some t, false => Some (VStr (wallClock t))
      | None, true => None
      | None, false => Some (VStr NO_CLOCK)
      end
  | VDate t, _ => t ← t; t ← time_clip (t - ms); Some (VStr (toISOString t))
  | _, _ => Some ts
  end.

(** ** The engine *)

Definition emptyCursor (s : WatchStrategy) : WatchCursor :=
  match s with
  | Increment c => IncrementCursor VNull (Some c)
  | Timestamp c _ => TimestampCursor VNull [] (Some c)
  | Snapshot _ => SnapshotCursor []
  end.

Definition at_least (c : string) (v : jsval) : FilterSpec := {| fcolumn := c; foperator := op_gte; fvalue := v |}.
Definition above (c : string) (v : jsval) : FilterSpec := {| fcolumn := c; foperator := op_gt; fvalue := v |}.

Definition watchQuery (s : WatchStrategy) (cursor : WatchCursor) (pk : list string)
  : option (list FilterSpec * list SortSpec) :=
  match s, cursor with
  | Increment c, IncrementCursor v _ => Some (if is_nil v then [] else [above c v], [ascending c])
  | Timestamp c lookback, TimestampCursor ts _ _ =>
      let sort := ascending c :: (ascending <$> filter (λ k, k ≠ c) pk) in
      if is_nil ts then Some ([], sort) else
      bound ← (if (0 <? lookback)%Z then tsMinus ts lookback else Some ts);
      Some ([at_least c bound], sort)
  | _, _ => Some ([], ascending <$> pk)
  end.

(** the last value of a column that is not [null] *)
Definition last_value (c : string) (rows : list obj) (otherwise : jsval) : jsval :=
  match list_find (λ v : jsval, is_nil v = false) (reverse ((λ r, obj_get r c) <$> rows)) with
  | Some (_, v) => v
  | None => otherwise
  end.

(** the latest timestamp of a page; [null] where there is none *)
Definition max_ts (c : string) (rows : list obj) : jsval :=
  foldl (λ m r, let v := obj_get r c in
                if is_nil v then m else if is_nil m || tsGreater v m then v else m) VNull rows.

Definition in_window (lookback : Z) (nextTs v : jsval) : bool :=
  if is_nil v then false
  else if tsEquals v nextTs then true
  else if (lookback <=? 0)%Z then false
  else match tsNorm v, tsNorm nextTs with
       | Millis n, Millis next => (next - n <=? lookback)%Z
       | a, b => match norm_num a, norm_num b with
                 | Some n, Some next => num_le (num_sub next n) (num_of_Z lookback)
                 | _, _ => false
                 end
       end.

(** is this row one the cursor does not know? *)
Definition is_new (c : string) (ts : jsval) (boundary : list string) (pk : list string) (r : obj) : option bool :=
  k ← emittedKey r pk c;
  if bool_decide (k ∈ boundary) then Some false else
  bare ← rowKey r pk;
  if negb (bool_decide (bare ∈ boundary)) then Some true else
  let v := obj_get r c in
  Some (negb (is_nil v) && negb (is_nil ts) && tsGreater v ts).

Fixpoint new_rows (c : string) (ts : jsval) (boundary pk : list string) (rows : list obj) : option (list obj) :=
  match rows with
  | [] => Some []
  | r :: rows => n ← is_new c ts boundary pk r;
                 rest ← new_rows c ts boundary pk rows;
                 Some (if (n : bool) then r :: rest else rest)
  end.

Definition advance_timestamp (c : string) (lookback : Z) (ts : jsval) (boundary : list string)
    (column : option string) (rows : list obj) (pk : list string) : option (list obj * WatchCursor) :=
  fresh ← new_rows c ts boundary pk rows;
  let maxTs := max_ts c rows in
  if is_nil maxTs then Some (fresh, TimestampCursor ts boundary column) else
  let nextTs := if negb (is_nil ts) && negb (tsGreater maxTs ts) then ts else maxTs in
  keys ← all_some ((λ r, emittedKey r pk c) <$>
                   filter (λ r, in_window lookback nextTs (obj_get r c) = true) rows);
  let carry := negb (is_nil ts) && in_window lookback nextTs ts in
  saved ← serializeTs nextTs;
  Some (fresh, TimestampCursor saved (if carry then set_of (boundary ++ keys) else keys) (Some c)).

Fixpoint unseen (pk : list string) (rows : list obj) (seen : list string) : option (list obj * list string) :=
  match rows with
  | [] => Some ([], seen)
  | r :: rows =>
      k ← rowKey r pk;
      if bool_decide (k ∈ seen) then unseen pk rows seen
      else '(fresh, seen) ← unseen pk rows (seen ++ [k]); Some (r :: fresh, seen)
  end.

(** the last [n] *)
Definition last_of {A} (n : nat) (l : list A) : list A := drop (List.length l - n) l.

Definition advanceCursor (s : WatchStrategy) (cursor : WatchCursor) (rows : list obj) (pk : list string)
  : option (list obj * WatchCursor) :=
  match s, cursor with
  | Increment c, IncrementCursor v _ => Some (rows, IncrementCursor (last_value c rows v) (Some c))
  | Timestamp c lookback, TimestampCursor ts boundary column =>
      advance_timestamp c lookback ts boundary column rows pk
  | _, _ =>
      let seen := match cursor with SnapshotCursor seen => set_of seen | _ => [] end in
      let max := match s with Snapshot m => m | _ => 50000%Z end in
      '(fresh, seen) ← unseen pk rows seen;
      Some (fresh, SnapshotCursor (last_of (Z.to_nat max) seen))
  end.
End watch.

(** ** What a key tells: it can be taken apart *)

Local Open Scope Z_scope.

Abbreviation bracket := "]"%char.

(** ** An ISO text has no bracket *)

Definition no_bracket (s : string) : Prop := bracket ∉ chars s.

Lemma no_bracket_app a b : no_bracket a → no_bracket b → no_bracket (a +:+ b).
Proof. unfold no_bracket. rewrite chars_app, elem_of_app. tauto. Qed.

Lemma no_bracket_pad n z : (0 < n)%nat → 0 <= z → no_bracket (pad n z).
Proof.
  intros Hn Hz. unfold no_bracket, pad, padStart. rewrite chars_app, chars_of_chars.
  replace (Z_to_string z) with (pretty (Z.to_N z)) by (rewrite <- Z_to_string_of_N; f_equal; lia).
  destruct (pretty_spec (Z.to_N z)) as [(Hd & _) _]. rewrite Forall_forall in Hd.
  rewrite elem_of_app. intros [Hin|Hin]; [|by specialize (Hd _ Hin)].
  by apply elem_of_replicate in Hin as [? _].
Qed.

Lemma no_bracket_iso t : Z.abs t <= max_time → no_bracket (toISOString t).
Proof.
  intros Ht. pose proof (fields_bounds t Ht) as Hb. cbv zeta in Hb.
  assert (Hc : ∀ s, bool_decide (bracket ∈ chars s) = false → no_bracket s).
  { intros s Hs. by apply bool_decide_eq_false in Hs. }
  unfold toISOString, iso_year. repeat first [apply no_bracket_pad; lia|by apply Hc|apply no_bracket_app].
  destruct (_ && _) eqn:Hy; [bool_to_prop; apply no_bracket_pad; lia|].
  apply no_bracket_app; [destruct (_ <? _); by apply Hc|apply no_bracket_pad; lia].
Qed.

(** ** The last bracket of a key *)

Lemma last_bracket (a b a' b' : list ascii) :
  bracket ∉ b → bracket ∉ b' → a ++ bracket :: b = a' ++ bracket :: b' → b = b'.
Proof.
  intros Hb Hb' Heq. apply app_eq_inv in Heq as [([|x k] & -> & Hk)|([|x k] & -> & Hk)];
    cbn in Hk; simplify_eq; [done| |done|].
  - destruct Hb'. rewrite elem_of_app. right. left.
  - destruct Hb. rewrite elem_of_app. right. left.
Qed.

Section keys.
Context `{JsHost} `{JsPrint}.

Lemma rowKey_brackets row pk k : rowKey row pk = Some k → ∃ a, chars k = a ++ [bracket].
Proof.
  unfold rowKey. cbn [stringify]. unfold json_wrap. destruct (foldr _ _ _) as [ps|]; [|done].
  intros [= <-]. rewrite !chars_app. by eexists (chars "[" ++ _).
Qed.

Lemma emittedKey_inv row pk c k :
  emittedKey row pk c = Some k →
  ∃ a s, stamp_of (obj_get row c) = Some s ∧ chars k = a ++ bracket :: "@"%char :: chars s.
Proof.
  unfold emittedKey. destruct (rowKey row pk) as [bare|] eqn:Hb; [|done]. cbn [mbind option_bind].
  destruct (stamp_of _) as [s|]; [|done]. cbn [mbind option_bind]. intros [= <-].
  destruct (rowKey_brackets _ _ _ Hb) as [a Ha]. exists a, s. split; [done|].
  rewrite !chars_app, Ha, <- !app_assoc. done.
Qed.

Lemma same_key_same_stamp row row' pk c k s s' :
  emittedKey row pk c = Some k → emittedKey row' pk c = Some k →
  stamp_of (obj_get row c) = Some s → stamp_of (obj_get row' c) = Some s' → no_bracket s → no_bracket s' → s = s'.
Proof.
  intros (a & s1 & H1 & Hk)%emittedKey_inv (a' & s1' & H1' & Hk')%emittedKey_inv Hs Hs' Hn Hn'.
  assert (s1 = s) as -> by congruence. assert (s1' = s') as -> by congruence. clear H1 H1' Hs Hs'.
  rewrite Hk in Hk'. apply last_bracket in Hk'; [injection Hk'; apply chars_inj| |]; by intros [?|?]%elem_of_cons.
Qed.

Lemma bare_is_not_key row row' pk c bare s :
  rowKey row pk = Some bare → emittedKey row' pk c = Some bare →
  stamp_of (obj_get row' c) = Some s → no_bracket s → False.
Proof.
  intros [a Ha]%rowKey_brackets (a' & s' & Hs' & Hk)%emittedKey_inv Hs Hn. assert (s' = s) as -> by congruence.
  rewrite Ha in Hk. apply last_bracket in Hk; [done|by intros ?%elem_of_nil|by intros [?|?]%elem_of_cons].
Qed.
End keys.
