(* ===== verification/WatchOnce.v ===== *)
(** A watch by timestamp emits every change it fetches once
    ([advanceCursor], [packages/core/src/bridges/watch.ts]): however its pages
    fall, a row is emitted when it is fetched with a timestamp it was not emitted
    with before, and only then. At the end a small table that is watched, a witness
    that the theorem speaks of something. *)
From S2P Require Import Prelude JsText JsNumber JsDate JsIso JsValue JsJson.
From S2P Require Import BridgeConfig RowCompare TableReader Watch.

Local Open Scope Z_scope.

Section once.
Context `{JsHost} `{JsPrint} (laws : JsHostLaws _) (c : string) (lookback : Z) (Hl : 0 <= lookback) (pk : list string).

(** the period the timestamps are of, the overlap before it included: the local
    clock is not put back in it, so a time of day tells one instant *)
Context (from upto : Z) (Hfrom : - max_time <= from) (Hupto : upto <= max_time)
  (clock_reads_back : ∀ t, from <= t <= upto → date_parse (wallClock t) = Some t).

Definition in_period (t : Z) : Prop := from + lookback <= t <= upto.

Ltac period := unfold in_period in *; lia.

(** a row whose timestamp is an instant, as a date or as a text *)
Record timed (r : obj) (t : Z) : Prop := {
  timed_value : is_date (obj_get r c) || is_str (obj_get r c) = true;
  timed_norm : tsNorm (obj_get r c) = Millis t;
  timed_range : in_period t
}.

Definition key_of (r : obj) (k : string) : Prop := emittedKey r pk c = Some k.

(** ** The timestamp that is kept *)

Definition dated (v : jsval) : bool := is_date v || is_str v.

Lemma dated_not_nil v : dated v = true → is_nil v = false.
Proof. by destruct v. Qed.

Lemma serialized v t :
  dated v = true → tsNorm v = Millis t → in_period t →
  ∃ s, serializeTs v = Some (VStr s) ∧ tsNorm (VStr s) = Millis t.
Proof.
  intros Hd Ht Hr. destruct v as [| | | | |s| |o| | |]; try done; [by exists s|].
  cbn in Ht. destruct o as [u|]; [|done]. injection Ht as ->. exists (toISOString t). split; [done|].
  cbn. rewrite date_parse_iso; [done|period].
Qed.

Lemma tsGreater_millis a b x y : tsNorm a = Millis x → tsNorm b = Millis y → tsGreater a b = (y <? x).
Proof. unfold tsGreater. by intros -> ->. Qed.

Lemma in_window_millis next v n t :
  dated v = true → tsNorm next = Millis n → tsNorm v = Millis t →
  t <= n → in_window lookback next v = (n - lookback <=? t).
Proof.
  intros Hv Hn Ht Hle. unfold in_window, tsEquals. rewrite (dated_not_nil v Hv), Hn, Ht.
  destruct (Z.eqb_spec t n) as [->|Hne]; [symmetry; apply Z.leb_le; period|].
  destruct (Z.leb_spec lookback 0); [symmetry; apply Z.leb_gt; period|].
  destruct (Z.leb_spec (n - t) lookback); symmetry; [apply Z.leb_le|apply Z.leb_gt]; period.
Qed.

(** ** The latest timestamp of a page *)

Definition later_ts (m : jsval) (r : obj) : jsval :=
  let v := obj_get r c in if is_nil v then m else if is_nil m || tsGreater v m then v else m.

Lemma max_ts_from rows m y :
  Forall (λ r, ∃ t, timed r t) rows → dated m = true → tsNorm m = Millis y → in_period y →
  ∃ x, let m' := foldl later_ts m rows in
    dated m' = true ∧ tsNorm m' = Millis x ∧ in_period x ∧ y <= x ∧
    (∀ r t, r ∈ rows → timed r t → t <= x).
Proof.
  intros Hrows. revert m y. induction Hrows as [|r rows [t Ht] Hrows IH]; intros m y Hn Hy Hr; cbn [foldl].
  { exists y. split_and!; [done..|period|]. intros ? ? []%not_elem_of_nil. }
  destruct Ht as [Hv Hnorm Hrange].
  assert (Hlater : later_ts m r = if y <? t then obj_get r c else m).
  { unfold later_ts. by rewrite (dated_not_nil _ Hv), (dated_not_nil _ Hn), (tsGreater_millis _ _ _ _ Hnorm Hy). }
  rewrite Hlater.
  assert (Hone : ∀ m' y', dated m' = true → tsNorm m' = Millis y' → in_period y' → y <= y' → t <= y' →
    ∃ x, let m2 := foldl later_ts m' rows in dated m2 = true ∧ tsNorm m2 = Millis x ∧ in_period x ∧ y <= x ∧
      (∀ r0 t0, r0 ∈ r :: rows → timed r0 t0 → t0 <= x)).
  { intros m' y' Hm' Hy' Hr' Hle Hlt. destruct (IH m' y' Hm' Hy' Hr') as (x & ? & ? & ? & ? & Hall).
    exists x. split_and!; [done..|period|]. intros r0 t0 [->|Hin]%elem_of_cons Ht0; [|by eapply Hall].
    destruct Ht0. assert (t0 = t) as -> by congruence. period. }
  destruct (Z.ltb_spec y t); [apply (Hone _ t)|apply (Hone _ y)]; (done || period).
Qed.

Lemma max_ts_spec rows :
  Forall (λ r, ∃ t, timed r t) rows → rows ≠ [] →
  ∃ x, dated (max_ts c rows) = true ∧ tsNorm (max_ts c rows) = Millis x ∧ in_period x ∧
    (∀ r t, r ∈ rows → timed r t → t <= x).
Proof.
  intros Hrows Hne. destruct rows as [|r rows]; [done|]. apply Forall_cons in Hrows as [[t Ht] Hrows].
  unfold max_ts. change (foldl _ VNull (r :: rows)) with (foldl later_ts (later_ts VNull r) rows).
  replace (later_ts VNull r) with (obj_get r c) by (unfold later_ts; by rewrite (dated_not_nil _ (timed_value _ _ Ht))).
  destruct (max_ts_from rows (obj_get r c) t Hrows) as (x & ? & ? & ? & ? & Hall); [apply Ht..|].
  exists x. split_and!; [done..|]. intros r0 t0 [->|Hin]%elem_of_cons Ht0; [|by eapply Hall].
  destruct Ht, Ht0. assert (t0 = t) as -> by congruence. period.
Qed.

(** it is the timestamp of one of its rows *)
Lemma max_ts_in rows : is_nil (max_ts c rows) = false → ∃ r, r ∈ rows ∧ obj_get r c = max_ts c rows.
Proof.
  unfold max_ts. change (foldl _ VNull rows) with (foldl later_ts VNull rows).
  assert (Hin : ∀ m, foldl later_ts m rows = m ∨ ∃ r, r ∈ rows ∧ obj_get r c = foldl later_ts m rows).
  { induction rows as [|r rows IH]; intros m; [by left|]. cbn [foldl].
    destruct (IH (later_ts m r)) as [->|(r' & Hr' & Hv)]; [|right; exists r'; by split; [right|]].
    unfold later_ts. destruct (is_nil (obj_get r c)); [by left|].
    destruct (_ || _); [right; exists r; by split; [left|]|by left]. }
  intros Hn. destruct (Hin VNull) as [E|?]; [by rewrite E in Hn|done].
Qed.

(** ** What is new *)

(** the rows a table ever has: every one has an instant and a key *)
Record tells_rows (table : obj → Prop) : Prop := {
  rows_timed : ∀ r, table r → ∃ t, timed r t;
  rows_keyed : ∀ r, table r → ∃ k, key_of r k;
  rows_plain : ∀ r s, table r → obj_get r c = VStr s → no_bracket s
}.

Context (table : obj → Prop) (Ht : tells_rows table).

Lemma stamp_plain r t : table r → timed r t → ∃ s, stamp_of (obj_get r c) = Some s ∧ no_bracket s ∧ date_parse s = Some t.
Proof.
  intros Hr [Hv Hn Hrange]. pose proof (rows_plain _ Ht r) as Hp.
  destruct (obj_get r c) as [| | | | |s| |[u|]| | |]; try done.
  - exists s. split_and!; [done|by apply Hp|]. cbn in Hn. destruct (date_parse s); congruence.
  - injection Hn as ->. exists (toISOString t). split_and!; [done|apply no_bracket_iso|apply date_parse_iso]; period.
Qed.

Lemma bare_apart r r' bare k : table r' → rowKey r pk = Some bare → key_of r' k → bare ≠ k.
Proof.
  intros Hr' Hb Hk ->. destruct (rows_timed _ Ht r' Hr') as [t Htr].
  destruct (stamp_plain r' t Hr' Htr) as (s & Hs & Hn & _). by eapply bare_is_not_key.
Qed.

Lemma stamps_apart r r' k t t' :
  table r → table r' → key_of r k → key_of r' k → timed r t → timed r' t' → t = t'.
Proof.
  intros Hr Hr' Hk Hk' Htr Htr'. destruct (stamp_plain r t Hr Htr) as (s & Hs & Hn & Hp).
  destruct (stamp_plain r' t' Hr' Htr') as (s' & Hs' & Hn' & Hp').
  assert (s = s') as <- by (by eapply (same_key_same_stamp r r')). congruence.
Qed.

Lemma new_rows_spec ts boundary rows :
  Forall table rows → (∀ k, k ∈ boundary → ∃ r, table r ∧ key_of r k) →
  ∃ fresh, new_rows c ts boundary pk rows = Some fresh ∧ fresh `sublist_of` rows ∧
    (∀ r k, r ∈ rows → key_of r k → (r ∈ fresh ↔ k ∉ boundary)).
Proof.
  intros Hrows Hb. induction Hrows as [|r rows Hr Hrows IH]; cbn [new_rows].
  { exists []. split_and!; [done..|]. intros ? ? []%not_elem_of_nil. }
  destruct IH as (fresh & Hf & Hsub & Hin). destruct (rows_keyed _ Ht r Hr) as [k Hkr].
  assert (Hsame : ∀ k', key_of r k' → k' = k) by (unfold key_of in *; congruence).
  assert (Hnew : is_new c ts boundary pk r = Some (negb (bool_decide (k ∈ boundary)))).
  { unfold is_new. unfold key_of in Hkr. rewrite Hkr. cbn [mbind option_bind]. case_bool_decide as Hkb; [done|].
    assert (∃ bare, rowKey r pk = Some bare) as [bare Hbare].
    { unfold emittedKey in Hkr. destruct (rowKey r pk); [by eexists|done]. }
    rewrite Hbare. cbn [mbind option_bind].
    rewrite (bool_decide_eq_false_2 (bare ∈ boundary)); [done|]. intros Hbb.
    destruct (Hb bare Hbb) as (r' & Hr' & Hk'). by apply (bare_apart r r' bare bare). }
  rewrite Hnew, Hf. cbn [mbind option_bind]. eexists. split; [reflexivity|].
  case_bool_decide as Hkb; cbn [negb]; split.
  - by apply sublist_cons.
  - intros r' k' [->|Hr']%elem_of_cons Hk'; [|by apply Hin]. rewrite (Hsame k' Hk') in *.
    split; [|tauto]. intros Hfr. apply (Hin r k); [|done|done].
    eapply elem_of_submseteq; [done|by apply sublist_submseteq].
  - by apply sublist_skip.
  - intros r' k' [->|Hr']%elem_of_cons Hk'; rewrite elem_of_cons.
    + rewrite (Hsame k' Hk') in *. tauto.
    + split; [|intros Hk2; right; by apply (Hin r' k')]. intros [->|Hf']; [|by apply (Hin r' k')].
      by rewrite (Hsame k' Hk').
Qed.

(** ** One poll *)

(** what is known of a cursor when the rows [past] were emitted *)
Definition honest (past : list obj) (cursor : WatchCursor) : Prop :=
  match cursor with
  | TimestampCursor ts boundary _ =>
      (∀ k, k ∈ boundary → ∃ r, r ∈ past ∧ key_of r k) ∧
      ((past = [] ∧ ts = VNull) ∨
       ∃ n, is_str ts = true ∧ tsNorm ts = Millis n ∧ in_period n ∧
         (∀ r t, r ∈ past → timed r t → t <= n) ∧
         (∀ r t k, r ∈ past → timed r t → key_of r k → n - lookback <= t → k ∈ boundary))
  | _ => False
  end.

(** a row of a page, which the filters of this cursor's query let through *)
Definition passes (r : obj) (f : FilterSpec) : Prop :=
  f = at_least c (fvalue f) ∧ ∀ n t, tsNorm (fvalue f) = Millis n → timed r t → n <= t.

Definition answered (cursor : WatchCursor) (r : obj) : Prop :=
  ∃ fs sort, watchQuery (Timestamp c lookback) cursor pk = Some (fs, sort) ∧ Forall (passes r) fs.

(** the bound a query asks for is the cursor's timestamp, less the window *)
Lemma query_bound ts boundary col n :
  is_str ts = true → tsNorm ts = Millis n → in_period n →
  ∃ v, watchQuery (Timestamp c lookback) (TimestampCursor ts boundary col) pk =
         Some ([at_least c v], ascending c :: (ascending <$> filter (λ k, k ≠ c) pk)) ∧
       tsNorm v = Millis (n - lookback).
Proof.
  intros Hts Hn Hr. destruct ts as [| | | | |s| | | | |]; try done.
  cbn [watchQuery is_nil]. destruct (Z.ltb_spec 0 lookback) as [Hpos|Hzero].
  - cbn [tsMinus]. rewrite Hn. unfold time_clip.
    destruct (Z.leb_spec (Z.abs (n - lookback)) max_time) as [Hin|]; [|period].
    destruct (hasZone s); cbn [mbind option_bind]; eexists; (split; [reflexivity|]); cbn.
    + by rewrite date_parse_iso.
    + rewrite clock_reads_back; [done|period].
  - exists (VStr s). split; [done|]. rewrite Hn. f_equal. lia.
Qed.

Lemma answered_reach ts boundary col n r t :
  answered (TimestampCursor ts boundary col) r → is_str ts = true → tsNorm ts = Millis n →
  in_period n → timed r t → n - lookback <= t.
Proof.
  intros (fs & sort & Hq & Hfs) Hts Hn Hr Htr. destruct (query_bound ts boundary col n) as (v & Hv & Hb); [done..|].
  rewrite Hv in Hq. injection Hq as <- <-. apply Forall_cons in Hfs as [[_ Hf] _]. by apply Hf.
Qed.

Lemma window_keys next n rows :
  tsNorm next = Millis n → Forall table rows → (∀ r t, r ∈ rows → timed r t → t <= n) →
  ∃ keys, all_some ((λ r, emittedKey r pk c) <$> filter (λ r, in_window lookback next (obj_get r c) = true) rows)
            = Some keys ∧
    (∀ k, k ∈ keys → ∃ r, r ∈ rows ∧ key_of r k) ∧
    (∀ r t k, r ∈ rows → timed r t → key_of r k → n - lookback <= t → k ∈ keys).
Proof.
  intros Hn Hrows Hmax. induction Hrows as [|r rows Hr Hrows IH].
  { exists []. split_and!; [done|by intros ? []%not_elem_of_nil|by intros ? ? ? []%not_elem_of_nil]. }
  destruct IH as (keys & Hkeys & Hof & Hall); [intros; eapply Hmax; [by right|done]|].
  destruct (rows_timed _ Ht r Hr) as [t Htr], (rows_keyed _ Ht r Hr) as [k Hkr].
  assert (Hw : in_window lookback next (obj_get r c) = (n - lookback <=? t)).
  { apply in_window_millis; [apply Htr|done|apply Htr|]. by apply (Hmax r); [left|]. }
  assert (Hsame : ∀ r' t' k', r' = r → timed r' t' → key_of r' k' → t' = t ∧ k' = k).
  { intros r' t' k' -> Ht' Hk'. destruct Htr, Ht'. unfold key_of in *. split; congruence. }
  destruct (Z.leb_spec (n - lookback) t) as [Hin|Hout].
  - rewrite filter_cons_True by (by rewrite Hw). exists (k :: keys). rewrite fmap_cons.
    split; [by apply all_some_cons|]. split.
    + intros k' [->|Hk']%elem_of_cons; [exists r; by split; [left|]|].
      destruct (Hof k' Hk') as (r' & ? & ?). exists r'. by split; [right|].
    + intros r' t' k' [Hr'|Hr']%elem_of_cons Ht' Hk' Hle; [|right; by eapply Hall].
      destruct (Hsame _ _ _ Hr' Ht' Hk') as [_ ->]. by left.
  - rewrite filter_cons_False by (by rewrite Hw). exists keys. split; [done|]. split.
    + intros k' Hk'. destruct (Hof k' Hk') as (r' & ? & ?). exists r'. by split; [right|].
    + intros r' t' k' [Hr'|Hr']%elem_of_cons Ht' Hk' Hle; [|by eapply Hall].
      destruct (Hsame _ _ _ Hr' Ht' Hk') as [-> _]. period.
Qed.

(** the keys of the rows emitted before are those the cursor has *)
Lemma known_keys past ts boundary col r k :
  Forall table past → honest past (TimestampCursor ts boundary col) → table r →
  answered (TimestampCursor ts boundary col) r → key_of r k →
  k ∈ boundary ↔ ∃ r', r' ∈ past ∧ key_of r' k.
Proof.
  intros Hpast [Hb Hts] Hr Hreach Hk. split; [apply Hb|]. intros (r' & Hr' & Hk').
  destruct Hts as [[-> _]|(n & Hs & Hn & Hrn & _ & Hall)]; [by apply not_elem_of_nil in Hr'|].
  rewrite Forall_forall in Hpast. destruct (rows_timed _ Ht r Hr) as [t Htr].
  destruct (rows_timed _ Ht r' (Hpast r' Hr')) as [t' Htr'].
  assert (t' = t) as -> by (eapply (stamps_apart r' r); eauto).
  eapply Hall; eauto using answered_reach.
Qed.

(** the cursor's timestamp after a page whose latest is [m] *)
Definition next_ts (ts m : jsval) : jsval := if negb (is_nil ts) && negb (tsGreater m ts) then ts else m.

Lemma next_ts_spec past ts boundary col m x :
  honest past (TimestampCursor ts boundary col) → dated m = true → tsNorm m = Millis x → in_period x →
  ∃ n, dated (next_ts ts m) = true ∧ tsNorm (next_ts ts m) = Millis n ∧ in_period n ∧ x <= n ∧
    (past ≠ [] → ∃ n0, is_str ts = true ∧ tsNorm ts = Millis n0 ∧ n0 <= n ∧
       (∀ r t, r ∈ past → timed r t → t <= n0) ∧
       (∀ r t k, r ∈ past → timed r t → key_of r k → n0 - lookback <= t → k ∈ boundary)).
Proof.
  intros [Hb Hts] Hm Hx Hr. unfold next_ts. destruct Hts as [[Hp ->]|(n0 & Hn & Hn0 & Hr0 & Hmax & Hall)].
  { exists x. cbn. split_and!; [done..|period|done]. }
  assert (Hd : dated ts = true) by (unfold dated; rewrite Hn; apply orb_true_r).
  rewrite (dated_not_nil ts Hd), (tsGreater_millis _ _ _ _ Hx Hn0). cbn [negb andb].
  destruct (Z.ltb_spec n0 x); cbn [negb].
  - exists x. split_and!; [done..|period|]. intros _. exists n0. split_and!; [done..|period|done|done].
  - exists n0. split_and!; [done..|period|]. intros _. exists n0. split_and!; [done..|period|done|done].
Qed.

Lemma advance_spec past cursor rows :
  Forall table past → honest past cursor → Forall table rows → Forall (answered cursor) rows →
  ∃ fresh cursor', advanceCursor (Timestamp c lookback) cursor rows pk = Some (fresh, cursor') ∧
    fresh `sublist_of` rows ∧
    (∀ r k, r ∈ rows → key_of r k → (r ∈ fresh ↔ ¬ ∃ r', r' ∈ past ∧ key_of r' k)) ∧
    honest (past ++ fresh) cursor'.
Proof.
  intros Hpast Hh Hrows Hreach. destruct cursor as [|ts boundary col|]; [done| |done].
  pose proof Hh as [Hb _]. rewrite Forall_forall in Hreach. pose proof Hrows as Htable. rewrite Forall_forall in Htable.
  destruct (new_rows_spec ts boundary rows Hrows) as (fresh & Hf & Hsub & Hfresh).
  { intros k Hk. destruct (Hb k Hk) as (r & Hr & ?). rewrite Forall_forall in Hpast. exists r. auto. }
  assert (Hin : ∀ r, r ∈ fresh → r ∈ rows).
  { intros r Hr. eapply elem_of_submseteq; [done|by apply sublist_submseteq]. }
  assert (Hnew : ∀ r k, r ∈ rows → key_of r k → (r ∈ fresh ↔ ¬ ∃ r', r' ∈ past ∧ key_of r' k)).
  { intros r k Hr Hk. rewrite (Hfresh r k Hr Hk). by rewrite (known_keys past ts boundary col r k) by auto. }
  cbn [advanceCursor]. unfold advance_timestamp. rewrite Hf. cbn [mbind option_bind].
  destruct (decide (rows = [])) as [->|Hne].
  { exists fresh, (TimestampCursor ts boundary col). split_and!; [done..|].
    apply sublist_nil_r in Hsub as ->. by rewrite app_nil_r. }
  destruct (max_ts_spec rows) as (x & Hxd & Hx & Hxr & Hmax); [|done|].
  { eapply Forall_impl; [exact Hrows|]. apply (rows_timed _ Ht). }
  rewrite (dated_not_nil _ Hxd). fold (next_ts ts (max_ts c rows)).
  destruct (next_ts_spec past ts boundary col _ x Hh Hxd Hx Hxr) as (n & Hnn & Hn & Hnr & Hle & Hold).
  destruct (window_keys (next_ts ts (max_ts c rows)) n rows) as (keys & Hkeys & Hof & Hall); [done..| |].
  { intros r t Hr Htr. transitivity x; [by eapply Hmax|done]. }
  rewrite Hkeys. cbn [mbind option_bind].
  destruct (serialized _ n Hnn Hn Hnr) as (saved & Hs & Hsnorm). rewrite Hs. cbn [mbind option_bind].
  eexists fresh, _. split; [reflexivity|]. split_and!; [done..|]. split.
  - intros k Hk. assert (Hk' : k ∈ boundary ∨ k ∈ keys).
    { destruct (negb _ && _); [|by right]. by rewrite elem_of_set_of, elem_of_app in Hk. }
    assert (Hold' : k ∈ boundary → ∃ r, r ∈ past ++ fresh ∧ key_of r k).
    { intros Hkb. destruct (Hb k Hkb) as (r & Hr & ?). exists r. rewrite elem_of_app. auto. }
    destruct Hk' as [Hkb|Hkk]; [auto|]. destruct (Hof k Hkk) as (r & Hr & Hrk).
    destruct (decide (k ∈ boundary)) as [Hkb|Hkb]; [auto|].
    exists r. split; [|done]. apply elem_of_app. right. by apply (Hfresh r k).
  - right. exists n. split_and!; [done..| |].
    + intros r t [Hr|Hr]%elem_of_app Htr; [|transitivity x; [by eapply Hmax; [apply Hin|]|done]].
      destruct Hold as (n0 & _ & _ & Hle0 & Hmax0 & _); [by intros ->; apply not_elem_of_nil in Hr|].
      transitivity n0; [by eapply Hmax0|done].
    + intros r t k [Hr|Hr]%elem_of_app Htr Hk Hw.
      * destruct Hold as (n0 & Hn0 & Hnorm0 & Hle0 & Hmax0 & Hall0); [by intros ->; apply not_elem_of_nil in Hr|].
        assert (Hd0 : dated ts = true) by (unfold dated; rewrite Hn0; apply orb_true_r).
        pose proof (Hmax0 r t Hr Htr) as Hrt. rewrite (dated_not_nil ts Hd0). cbn [negb andb].
        rewrite (in_window_millis _ _ n n0) by done. replace (n - lookback <=? n0) with true by (symmetry; apply Z.leb_le; period).
        apply elem_of_set_of, elem_of_app. left. eapply Hall0; [done..|period].
      * assert (Hkk : k ∈ keys) by (eapply Hall; eauto).
        destruct (negb _ && _); [|done]. apply elem_of_set_of, elem_of_app. by right.
Qed.

(** ** Poll after poll *)

(** these are the keys of these rows *)
Definition keys_of : list obj → list string → Prop := Forall2 key_of.

(** what a watch emits, page by page: a page is what the table answers to the
    cursor's query, at whatever moment, no row in it twice *)
Inductive watched : WatchCursor → list (list obj) → list obj → Prop :=
| watched_none cursor : watched cursor [] []
| watched_page cursor page ks fresh cursor' pages out :
    Forall table page → Forall (answered cursor) page → keys_of page ks → NoDup ks →
    advanceCursor (Timestamp c lookback) cursor page pk = Some (fresh, cursor') →
    watched cursor' pages out → watched cursor (page :: pages) (fresh ++ out).

Definition fetched (pages : list (list obj)) (k : string) : Prop := ∃ page r, page ∈ pages ∧ r ∈ page ∧ key_of r k.
Definition known (past : list obj) (k : string) : Prop := ∃ r, r ∈ past ∧ key_of r k.

Lemma keys_elem rows ks k : keys_of rows ks → k ∈ ks ↔ known rows k.
Proof.
  intros Hk. split.
  - intros [i Hi]%list_elem_of_lookup. destruct (Forall2_lookup_r _ _ _ _ _ Hk Hi) as (r & Hr & ?).
    exists r. split; [by eapply list_elem_of_lookup_2|done].
  - intros (r & [i Hi]%list_elem_of_lookup & Hrk). destruct (Forall2_lookup_l _ _ _ _ _ Hk Hi) as (k' & Hk' & Hrk').
    apply list_elem_of_lookup_2 in Hk'. unfold key_of in *. congruence.
Qed.

(** the keys of some of the rows of a page *)
Lemma sublist_keys fresh page ks :
  fresh `sublist_of` page → keys_of page ks → ∃ fs, keys_of fresh fs ∧ fs `sublist_of` ks.
Proof.
  intros Hsub. revert ks. induction Hsub as [|r fresh page Hsub IH|r fresh page Hsub IH]; intros ks Hks.
  - exists []. split; [constructor|apply sublist_nil_l].
  - apply Forall2_cons_inv_l in Hks as (k & ks' & Hk & Hks & ->). destruct (IH ks' Hks) as (fs & ? & ?).
    exists (k :: fs). split; [by constructor|by apply sublist_skip].
  - apply Forall2_cons_inv_l in Hks as (k & ks' & Hk & Hks & ->). destruct (IH ks' Hks) as (fs & ? & ?).
    exists fs. split; [done|by apply sublist_cons].
Qed.

Lemma watched_keys cursor pages out past :
  watched cursor pages out → Forall table past → honest past cursor →
  ∃ ks, keys_of out ks ∧ NoDup ks ∧ ∀ k, k ∈ ks ↔ fetched pages k ∧ ¬ known past k.
Proof.
  intros Hw. revert past.
  induction Hw as [cursor|cursor page kp fresh cursor' pages out Htab Hreach Hkp Hnd Hadv Hw IH]; intros past Hpast Hh.
  { exists []. split_and!; [constructor|constructor|]. intros k. split; [by intros []%not_elem_of_nil|].
    by intros [(? & ? & []%not_elem_of_nil & _) _]. }
  destruct (advance_spec past cursor page Hpast Hh Htab Hreach) as (fresh' & cursor2 & Hadv' & Hsub & Hfresh & Hh').
  assert (fresh' = fresh ∧ cursor2 = cursor') as [-> ->] by (split; congruence).
  assert (Hin : ∀ r, r ∈ fresh → r ∈ page). { intros r Hr. eapply elem_of_submseteq; [done|by apply sublist_submseteq]. }
  destruct (sublist_keys fresh page kp Hsub Hkp) as (kf & Hkf & Hsubk).
  assert (Hfk : ∀ k, k ∈ kf ↔ known page k ∧ ¬ known past k).
  { intros k. rewrite (keys_elem fresh kf k Hkf). split.
    - intros (r & Hr & Hk). split; [exists r; auto|]. apply (Hfresh r k); auto.
    - intros [(r & Hr & Hk) Hn]. exists r. split; [|done]. by apply (Hfresh r k). }
  destruct (IH (past ++ fresh)) as (ks & Hks & Hndk & Hall).
  { apply Forall_app. split; [done|]. rewrite Forall_forall in Htab |- *. auto. }
  { done. }
  assert (Hboth : ∀ k, known (past ++ fresh) k ↔ known past k ∨ k ∈ kf).
  { intros k. rewrite (keys_elem fresh kf k Hkf). unfold known. setoid_rewrite elem_of_app.
    split; [intros (r & [?|?] & ?); [left|right]; by exists r|intros [(r & ? & ?)|(r & ? & ?)]; exists r; auto]. }
  exists (kf ++ ks). split_and!; [by apply Forall2_app| |].
  - apply NoDup_app. split_and!; [eapply sublist_NoDup; [exact Hnd|exact Hsubk]| |done].
    intros k Hk Hk'. apply Hall in Hk' as [_ Hk']. apply Hk', Hboth. by right.
  - intros k. rewrite elem_of_app, Hall, Hboth. unfold fetched. split.
    + intros [[(r & Hr & Hk) Hn]%Hfk|[(pg & r & Hp & Hr & Hk) Hn]]; split; try tauto.
      * exists page, r. split_and!; [by left|done..].
      * exists pg, r. split_and!; [by right|done..].
    + intros [(pg & r & [->|Hp]%elem_of_cons & Hr & Hk) Hn].
      * left. apply Hfk. split; [by exists r|done].
      * destruct (decide (k ∈ kf)) as [Hkk|Hkk]; [by left|right]. split; [by exists pg, r|tauto].
Qed.

(** C26. However its pages fall, a watch by timestamp that starts from an empty cursor
    emits every change it is answered, once: a row is emitted when it is fetched with a
    timestamp it was not emitted with before, and only then. This is for rows that have a
    key and a timestamp, a date or a text without a closing bracket that is read as an
    instant of the period (rows whose timestamp is [NULL] are emitted at every poll:
    [untimed_rows_are_emitted_again]); pages that have each change once; and a period
    over which the server's wall clock is never set back, so that an instant it was
    written as is read back. *)
Theorem watch_emits_each_change_once pages out :
  watched (emptyCursor (Timestamp c lookback)) pages out →
  ∃ ks, keys_of out ks ∧ NoDup ks ∧ ∀ k, k ∈ ks ↔ fetched pages k.
Proof.
  intros Hw. destruct (watched_keys _ pages out [] Hw) as (ks & Hks & Hnd & Hall); [constructor| |].
  { split; [by intros ? []%not_elem_of_nil|by left]. }
  exists ks. split_and!; [done..|]. intros k. rewrite Hall. split; [tauto|]. intros Hf. split; [done|].
  by intros (? & []%not_elem_of_nil & _).
Qed.
End once.

(** ** A small table that is watched *)

#[local] Instance sample_print : JsPrint := {| date_text _ := "date"; bytes_text _ := "bytes" |}.

(** a host in the zone of UTC, which reads ISO texts and times of day *)
#[local] Instance clock_host : JsHost := {|
  date_parse s := match iso_parse s with Some t => Some t | None => iso_parse (s +:+ "Z") end;
  local_offset _ := 0
|}.

#[local] Instance clock_host_laws : JsHostLaws clock_host.
Proof.
  split; [intros t Ht; cbn; by rewrite iso_parse_iso|]. intros s t. cbn.
  destruct (iso_parse s) eqn:E; [intros [= ->]|]; by eapply (date_parse_range (JsHostLaws := iso_host_laws)).
Qed.

(** a row that was changed at this instant *)
Definition row_at (id : string) (t : Z) : obj := [("id", VStr id); ("at", VDate (Some t))].

Definition table_rows : list obj := [row_at "a" 6; row_at "b" 7; row_at "a" 8].

(** two pages, the second of which holds a row of the first again, and the other
    one with its next change *)
Definition sample_pages : list (list obj) := [[row_at "a" 6; row_at "b" 7]; [row_at "b" 7; row_at "a" 8]].
Definition sample_out : list obj := [row_at "a" 6; row_at "b" 7] ++ [row_at "a" 8] ++ [].

Lemma sample_clock t : 0 <= t <= 20 → date_parse (wallClock t) = Some t.
Proof.
  intros Ht. assert (Hall : forallb (λ t, bool_decide (date_parse (wallClock t) = Some t)) (seqZ 0 21) = true)
    by (vm_compute; reflexivity).
  apply (bool_decide_eq_true_1 (date_parse (wallClock t) = Some t)).
  rewrite forallb_forall in Hall. apply Hall, list_elem_of_In, elem_of_seqZ. lia.
Qed.

Ltac each_row Hr := repeat (apply elem_of_cons in Hr as [->|Hr]); [..|by apply not_elem_of_nil in Hr].

Lemma sample_tells : tells_rows "at" 5 ["id"] 0 20 (λ r, r ∈ table_rows).
Proof.
  split.
  - intros r Hr. each_row Hr; [exists 6|exists 7|exists 8]; by split.
  - intros r Hr. each_row Hr; eexists; vm_compute; reflexivity.
  - intros r s Hr Hs. each_row Hr; vm_compute in Hs; discriminate Hs.
Qed.

Lemma watch_emits_each_change_once_witness :
  ∃ ks, keys_of "at" ["id"] sample_out ks ∧ NoDup ks ∧ ∀ k, k ∈ ks ↔ fetched "at" ["id"] sample_pages k.
Proof.
  apply (watch_emits_each_change_once clock_host_laws "at" 5 ltac:(done) ["id"] 0 20 ltac:(done) ltac:(done))
    with (table := λ r, r ∈ table_rows).
  - apply sample_clock.
  - apply sample_tells.
  - eapply watched_page.
    + unfold table_rows. repeat constructor; set_solver.
    + repeat constructor; eexists _, _; (split; [reflexivity|constructor]).
    + repeat constructor; vm_compute; reflexivity.
    + apply (bool_decide_eq_true_1 (NoDup _)); vm_compute; reflexivity.
    + vm_compute; reflexivity.
    + eapply watched_page.
      * unfold table_rows. repeat constructor; set_solver.
      * repeat constructor; eexists _, _; (split; [vm_compute; reflexivity|]); repeat constructor;
          intros n t Hn [_ Ht _]; vm_compute in Hn, Ht; injection Hn as <-; injection Ht as <-; done.
      * repeat constructor; vm_compute; reflexivity.
      * apply (bool_decide_eq_true_1 (NoDup _)); vm_compute; reflexivity.
      * vm_compute; reflexivity.
      * constructor.
Defined.

(** a page of rows whose timestamp is [NULL] leaves an empty cursor empty, whatever is
    emitted of it: the next poll is answered the same page, and emits it again *)
Definition untimed_page : list obj := [[("id", VStr "a"); ("at", VNull)]; [("id", VStr "b"); ("at", VNull)]].

Example untimed_rows_are_emitted_again :
  advanceCursor (Timestamp "at" 5) (emptyCursor (Timestamp "at" 5)) untimed_page ["id"] =
    Some (untimed_page, emptyCursor (Timestamp "at" 5)).
Proof. vm_compute. reflexivity. Qed.
