(* ===== verification/WatchStill.v ===== *)
(** The cursor of a watch by timestamp over a table that holds still: the rows it
    asks for are the end of the table from its window on, a page of rows it knows
    leaves it as it is, and a page with another row moves it there. *)
From S2P Require Import Prelude JsText JsNumber JsDate JsIso JsValue JsJson.
From S2P Require Import BridgeConfig RowCompare TableReader Watch WatchOnce.

Local Open Scope Z_scope.

Lemma set_of_NoDup {A} `{EqDecision A} (l : list A) : NoDup l → set_of l = l.
Proof.
  unfold set_of. intros Hl. change l with ([] ++ l) in Hl at 1. change l with ([] ++ l) at 2. revert Hl.
  generalize (@nil A). induction l as [|x l IH]; intros acc Hl; [cbn; by rewrite app_nil_r|].
  cbn. unfold set_add. rewrite decide_False.
  - replace (acc ++ x :: l) with ((acc ++ [x]) ++ l) in * by (by rewrite <- app_assoc). by apply IH.
  - apply NoDup_app in Hl as (_ & Hd & _). intros Hx. apply (Hd x Hx). by left.
Qed.

Lemma set_of_known {A} `{EqDecision A} (l ks : list A) : NoDup l → ks ⊆ l → set_of (l ++ ks) = l.
Proof.
  intros Hl Hk. unfold set_of, set_addl. rewrite foldl_app. fold (set_addl [] l). fold (set_of l).
  rewrite set_of_NoDup by done. by apply set_addl_incl.
Qed.

Lemma all_some_inv {A B} (f : A → option B) l ys :
  all_some (f <$> l) = Some ys → Forall2 (λ x y, f x = Some y) l ys.
Proof.
  revert ys. induction l as [|x l IH]; intros ys; cbn; [intros [= <-]; constructor|].
  destruct (f x) as [y|] eqn:Hf; [|done]. cbn [mbind option_bind]. fold (fmap f l).
  destruct (all_some (f <$> l)) as [ys'|]; [|done]. cbn. intros [= <-]. constructor; auto.
Qed.

Section still.
Context `{JsHost} `{JsPrint} (laws : JsHostLaws _) (c : string) (lookback : Z) (Hl : 0 <= lookback) (pk : list string).
Context (from upto : Z) (Hfrom : - max_time <= from) (Hupto : upto <= max_time)
  (clock_reads_back : ∀ t, from <= t <= upto → date_parse (wallClock t) = Some t).
Context (table : obj → Prop) (Ht : tells_rows c lookback pk from upto table).

Abbreviation timed := (timed c lookback from upto).
Abbreviation honest := (honest c lookback pk from upto).
Abbreviation key_of := (key_of c pk).
Abbreviation keys_of := (keys_of c pk).
Abbreviation advance := (advanceCursor (Timestamp c lookback)).

Ltac period := unfold in_period in *; lia.

(** ** A page of rows that are known *)

Lemma not_later ts m n x : tsNorm ts = Millis n → tsNorm m = Millis x → x <= n → is_nil ts = false → next_ts ts m = ts.
Proof.
  intros Hn Hx Hle Hts. unfold next_ts. rewrite Hts, (tsGreater_millis _ _ _ _ Hx Hn).
  by destruct (Z.ltb_spec n x); [lia|].
Qed.

Lemma new_rows_known ts boundary rows :
  Forall (λ r, ∃ k, key_of r k ∧ k ∈ boundary) rows → new_rows c ts boundary pk rows = Some [].
Proof.
  induction 1 as [|r rows (k & Hk & Hb) _ IH]; [done|]. cbn [new_rows].
  unfold is_new. unfold WatchOnce.key_of in Hk. rewrite Hk. cbn [mbind option_bind].
  rewrite bool_decide_eq_true_2 by done. cbn [mbind option_bind]. by rewrite IH.
Qed.

Lemma keys_known boundary rows (l : list obj) keys :
  Forall (λ r, ∃ k, key_of r k ∧ k ∈ boundary) rows → l `sublist_of` rows →
  all_some ((λ r, emittedKey r pk c) <$> l) = Some keys → keys ⊆ boundary.
Proof.
  intros Hrows Hsub Hkeys%all_some_inv k Hk. apply list_elem_of_lookup in Hk as [i Hi].
  destruct (Forall2_lookup_r _ _ _ _ _ Hkeys Hi) as (r & Hr & Hrk).
  rewrite Forall_forall in Hrows. destruct (Hrows r) as (k' & Hk' & ?).
  { eapply elem_of_submseteq; [by eapply list_elem_of_lookup_2|by apply sublist_submseteq]. }
  unfold WatchOnce.key_of in Hk'. congruence.
Qed.

Lemma sublist_kept {A} (P : A → Prop) `{∀ x, Decision (P x)} l : filter P l `sublist_of` l.
Proof.
  induction l as [|x l IH]; [done|]. rewrite filter_cons. case_decide; [by apply sublist_skip|by apply sublist_cons].
Qed.

(** nothing of the page is new, and the cursor stays as it is *)
Lemma advance_still s boundary n rows :
  tsNorm (VStr s) = Millis n → in_period lookback from upto n → NoDup boundary → rows ≠ [] →
  Forall table rows → (∀ r t, r ∈ rows → timed r t → t <= n) →
  Forall (λ r, ∃ k, key_of r k ∧ k ∈ boundary) rows →
  advance (TimestampCursor (VStr s) boundary (Some c)) rows pk = Some ([], TimestampCursor (VStr s) boundary (Some c)).
Proof.
  intros Hn Hper Hnd Hne Htab Hmax Hkeys. cbn [advanceCursor]. unfold advance_timestamp.
  rewrite new_rows_known by done. cbn [mbind option_bind].
  destruct (max_ts_spec c lookback from upto rows) as (x & Hxd & Hx & Hxr & _).
  { eapply Forall_impl; [exact Htab|]. apply (rows_timed _ _ _ _ _ _ Ht). }
  { done. }
  rewrite (dated_not_nil _ Hxd). fold (next_ts (VStr s) (max_ts c rows)).
  assert (Hle : x <= n).
  { destruct (max_ts_in c rows) as (r & Hr & Hv); [by apply dated_not_nil|].
    rewrite Forall_forall in Htab. destruct (rows_timed _ _ _ _ _ _ Ht r (Htab r Hr)) as [t Htr].
    pose proof (Hmax r t Hr Htr). destruct Htr as [_ Htn _]. rewrite Hv in Htn. assert (t = x) by congruence. lia. }
  rewrite (not_later _ _ n x) by done.
  destruct (window_keys c lookback Hl pk from upto table Ht (VStr s) n rows) as (keys & Hks & _); [done..|].
  rewrite Hks. cbn [mbind option_bind serializeTs is_nil negb andb].
  unfold in_window at 1. cbn [is_nil]. unfold tsEquals at 1. rewrite Hn, Z.eqb_refl.
  rewrite set_of_known; [done|done|]. refine (keys_known _ _ _ _ Hkeys _ Hks). apply sublist_kept.
Qed.
(** ** A page with another row *)

Lemma keys_NoDup rows ks (l : list obj) keys :
  keys_of rows ks → NoDup ks → l `sublist_of` rows →
  all_some ((λ r, emittedKey r pk c) <$> l) = Some keys → NoDup keys.
Proof.
  intros Hks Hnd Hsub Hkeys%all_some_inv. destruct (sublist_keys c pk l rows ks Hsub Hks) as (ks' & Hks' & Hsub').
  assert (keys = ks') as ->; [|by eapply sublist_NoDup].
  clear -Hkeys Hks'. revert ks' Hks'. induction Hkeys as [|r k l keys Hk _ IH]; intros ks' Hks'.
  - by apply Forall2_nil_inv_l in Hks'.
  - apply Forall2_cons_inv_l in Hks' as (k' & ks2 & Hk' & Hks2 & ->). unfold WatchOnce.key_of in Hk'. f_equal; [congruence|auto].
Qed.

(** the timestamp of the cursor is that of a row of the page, or what it was *)
Lemma advance_tight past ts boundary col rows ks fresh cursor' :
  honest past (TimestampCursor ts boundary col) → NoDup boundary → rows ≠ [] → Forall table rows →
  keys_of rows ks → NoDup ks → advance (TimestampCursor ts boundary col) rows pk = Some (fresh, cursor') →
  ∃ s boundary' n, cursor' = TimestampCursor (VStr s) boundary' (Some c) ∧ NoDup boundary' ∧
    tsNorm (VStr s) = Millis n ∧ ((∃ r, r ∈ rows ∧ timed r n) ∨ is_str ts = true ∧ tsNorm ts = Millis n).
Proof.
  intros Hh Hnd Hne Htab Hks Hndk. cbn [advanceCursor]. unfold advance_timestamp.
  destruct (new_rows _ _ _ _ _) as [fresh'|]; [|done]. cbn [mbind option_bind].
  destruct (max_ts_spec c lookback from upto rows) as (x & Hxd & Hx & Hxr & _).
  { eapply Forall_impl; [exact Htab|]. apply (rows_timed _ _ _ _ _ _ Ht). }
  { done. }
  rewrite (dated_not_nil _ Hxd). fold (next_ts ts (max_ts c rows)).
  destruct (next_ts_spec c lookback pk from upto past ts boundary col _ x Hh Hxd Hx Hxr) as (n & Hd & Hn & Hr & _).
  destruct (all_some _) as [keys|] eqn:Hkeys; [|done]. cbn [mbind option_bind].
  destruct (serialized laws lookback Hl from upto Hfrom Hupto _ n Hd Hn Hr) as (s & Hs & Hsn). rewrite Hs. cbn [mbind option_bind].
  intros [= <- <-]. eexists s, _, n. split; [reflexivity|]. split_and!; [|done|].
  - destruct (_ && _); [apply NoDup_set_of|]. refine (keys_NoDup _ _ _ _ Hks Hndk _ Hkeys). apply sublist_kept.
  - unfold next_ts in Hd, Hn. destruct (negb (is_nil ts) && negb (tsGreater (max_ts c rows) ts)) eqn:E.
    + right. split; [|done]. destruct Hh as [_ [[_ ->]|(? & ? & _)]]; done.
    + left. destruct (max_ts_in c rows) as (r & Hr' & Hv); [by apply dated_not_nil|]. exists r. split; [done|].
      rewrite Forall_forall in Htab. destruct (rows_timed _ _ _ _ _ _ Ht r (Htab r Hr')) as [t Htr].
      assert (t = n) as ->; [|done]. destruct Htr as [_ Htn _]. rewrite Hv in Htn. congruence.
Qed.
End still.
