(* ===== verification/WatchPages.v ===== *)
(** A table in the order a watch by timestamp reads it: what a page of it is to
    the watch that has emitted its first rows. *)
From Stdlib Require Import Sorted.
From S2P Require Import Prelude JsText JsNumber JsDate JsIso JsValue JsJson.
From S2P Require Import BridgeConfig RowCompare TableReader Watch WatchOnce WatchStill.

Local Open Scope Z_scope.

(** ** Lists *)

(** a filter that lets through everything behind what it lets through cuts off a front *)
Lemma filter_end {A} (P : A → Prop) `{∀ x, Decision (P x)} (l : list A) :
  StronglySorted (λ x y, P x → P y) l →
  ∃ w, (w <= List.length l)%nat ∧ filter P l = drop w l ∧ ∀ x, l !! w = Some x → P x.
Proof.
  induction 1 as [|x l Hs (w & Hw & Heq & Hat) Hx]; [by exists 0%nat|]. destruct (decide (P x)) as [HP|HP].
  - exists 0%nat. split_and!; [lia| |by intros ? [= <-]]. rewrite filter_cons_True by done. change (drop 0 (x :: l)) with (x :: l). f_equal.
    clear Hs Hw Heq Hat. induction Hx as [|y l Hy _ IH]; [done|].
    by rewrite filter_cons_True, IH by auto.
  - exists (S w). split_and!; [cbn; lia| |done]. by rewrite filter_cons_False.
Qed.

(** parts of one list with the same elements are the same *)
Lemma sublist_same {A} (l a b : list A) :
  NoDup l → a `sublist_of` l → b `sublist_of` l → (∀ x, x ∈ a ↔ x ∈ b) → a = b.
Proof.
  intros Hl. revert a b. induction Hl as [|x l Hx Hl IH]; intros a b Ha Hb Hab.
  { apply sublist_nil_r in Ha as ->. by apply sublist_nil_r in Hb as ->. }
  assert (Hin : ∀ l' : list A, l' `sublist_of` l → x ∉ l').
  { intros l' Hs Hx'. apply Hx. eapply elem_of_submseteq; [done|by apply sublist_submseteq]. }
  apply sublist_cons_r in Ha as [Ha|(a' & -> & Ha)], Hb as [Hb|(b' & -> & Hb)].
  - by apply IH.
  - destruct (Hin a Ha). apply Hab. by left.
  - destruct (Hin b Hb). apply Hab. by left.
  - f_equal. apply IH; [done..|]. intros y. specialize (Hab y). rewrite !elem_of_cons in Hab.
    pose proof (Hin a' Ha). pose proof (Hin b' Hb). naive_solver.
Qed.

Lemma drop_sublist {A} n (l : list A) : drop n l `sublist_of` l.
Proof. rewrite <- (take_drop n l) at 2. by apply sublist_inserts_l. Qed.

(** what a page from [a] on adds to the first [k] *)
Lemma take_page {A} (l : list A) k a L :
  (a <= k)%nat → take k l ++ drop (k - a) (take L (drop a l)) = take (Nat.max k (a + L)) l.
Proof.
  intros Ha. rewrite skipn_firstn_comm, drop_drop. replace (a + (k - a))%nat with k by lia.
  rewrite take_take_drop. f_equal. lia.
Qed.

Lemma take_at_most {A} (l : list A) k : take (Nat.min (List.length l) k) l = take k l.
Proof. rewrite <- take_take. by rewrite (take_ge (take k l)) by (rewrite length_take; lia). Qed.

Section pages.
Context `{JsHost} `{JsPrint} (laws : JsHostLaws _) (c : string) (lookback : Z) (Hl : 0 <= lookback) (pk : list string).
Context (from upto : Z) (Hfrom : - max_time <= from) (Hupto : upto <= max_time)
  (clock_reads_back : ∀ t, from <= t <= upto → date_parse (wallClock t) = Some t).
Context (rows : list obj) (Ht : tells_rows c lookback pk from upto (λ r, r ∈ rows)).

Abbreviation timed := (timed c lookback from upto).
Abbreviation honest := (honest c lookback pk from upto).
Abbreviation key_of := (key_of c pk).
Abbreviation keys_of := (keys_of c pk).
Abbreviation advance := (advanceCursor (Timestamp c lookback)).

Definition not_after (r r' : obj) : Prop := ∀ t t', timed r t → timed r' t' → t <= t'.

(** in the order of the timestamps, no row twice *)
Context (Hsorted : StronglySorted not_after rows) (ks : list string) (Hks : keys_of rows ks) (Hnd : NoDup ks).

Lemma rows_at i r : rows !! i = Some r → ∃ t k, timed r t ∧ key_of r k ∧ ks !! i = Some k.
Proof.
  intros Hi. pose proof (list_elem_of_lookup_2 _ _ _ Hi) as Hr.
  destruct (rows_timed _ _ _ _ _ _ Ht r Hr) as [t Htr].
  destruct (Forall2_lookup_l _ _ _ _ _ Hks Hi) as (k & Hk & Hrk). by exists t, k.
Qed.

Lemma key_at i j r r' k : rows !! i = Some r → rows !! j = Some r' → key_of r k → key_of r' k → i = j.
Proof.
  intros Hi Hj Hk Hk'. destruct (rows_at i r Hi) as (_ & k1 & _ & H1 & E1), (rows_at j r' Hj) as (_ & k2 & _ & H2 & E2).
  unfold WatchOnce.key_of in *. assert (k1 = k) as -> by congruence. assert (k2 = k) as -> by congruence.
  by eapply NoDup_lookup.
Qed.

Lemma rows_NoDup : NoDup rows.
Proof.
  apply NoDup_alt. intros i j r Hi Hj. destruct (rows_at i r Hi) as (_ & k & _ & Hk & _). by eapply key_at.
Qed.

Lemma order_at i j r r' t t' :
  (i <= j)%nat → rows !! i = Some r → rows !! j = Some r' → timed r t → timed r' t' → t <= t'.
Proof.
  intros Hij Hi Hj Hr Hr'. destruct (decide (i = j)) as [->|Hne].
  { assert (r' = r) as -> by congruence. destruct Hr, Hr'. assert (t' = t) as -> by congruence. lia. }
  clear Hks Hnd Ht. revert i j Hij Hne Hi Hj. induction Hsorted as [|x l Hs IH Hx]; intros i j Hij Hne Hi Hj; [done|].
  destruct j as [|j]; [lia|]. destruct i as [|i]; cbn in *.
  - injection Hi as ->. rewrite Forall_forall in Hx. by apply (Hx r'); [eapply list_elem_of_lookup_2|..].
  - apply (IH Hs i j); [lia|lia|done..].
Qed.

(** ** What the table answers *)

Definition time_of (r : obj) : option Z := match tsNorm (obj_get r c) with Millis t => Some t | _ => None end.

(** is the row's timestamp at or after the filter's? *)
Definition admits (f : FilterSpec) (r : obj) : bool :=
  match tsNorm (fvalue f), time_of r with Millis n, Some t => n <=? t | _, _ => false end.

Definition answer (fs : list FilterSpec) : list obj := filter (λ r, forallb (λ f, admits f r) fs = true) rows.

Lemma admits_timed f r n t : tsNorm (fvalue f) = Millis n → timed r t → admits f r = (n <=? t).
Proof. intros Hn [_ Htr _]. unfold admits, time_of. by rewrite Hn, Htr. Qed.

(** ** A watch that has emitted the first [k] rows *)

Definition good (k : nat) (cursor : WatchCursor) : Prop :=
  ∃ ts boundary, cursor = TimestampCursor ts boundary (Some c) ∧ honest (take k rows) cursor ∧ NoDup boundary ∧
    (k <= List.length rows)%nat ∧
    ((k = 0%nat ∧ ts = VNull ∧ boundary = []) ∨
     ∃ s n r, ts = VStr s ∧ tsNorm ts = Millis n ∧ r ∈ take k rows ∧ timed r n).

Definition watch_sort : list SortSpec := ascending c :: (ascending <$> filter (λ k, k ≠ c) pk).

Lemma good_empty : good 0 (emptyCursor (Timestamp c lookback)).
Proof.
  exists VNull, []. split_and!; [done| |constructor|lia|by left].
  split; [by intros ? []%not_elem_of_nil|by left].
Qed.

(** the cursor's timestamp is that of the last row it has emitted *)
Lemma good_last k ts boundary col n r t :
  honest (take k rows) (TimestampCursor ts boundary col) → tsNorm ts = Millis n → (∃ r, r ∈ take k rows ∧ timed r n) →
  rows !! (k - 1)%nat = Some r → timed r t → n = t.
Proof.
  intros [_ Hh] Hn (r0 & Hr0 & Ht0) Hr Htr. destruct Hh as [[Hp _]|(n' & _ & Hn' & _ & Hmax & _)].
  { rewrite Hp in Hr0. by apply not_elem_of_nil in Hr0. }
  assert (n' = n) as -> by congruence. apply list_elem_of_lookup in Hr0 as [i Hi]. apply lookup_take_Some in Hi as [Hi Hik].
  assert (n <= t) by (eapply (order_at i (k - 1)%nat); eauto; lia).
  assert (t <= n); [|lia]. apply (Hmax r); [|done]. apply list_elem_of_lookup. exists (k - 1)%nat.
  apply lookup_take_Some. split; [done|lia].
Qed.

Definition within (w k : nat) : Prop :=
  ∀ r r' t t', rows !! w = Some r → rows !! (k - 1)%nat = Some r' → timed r t → timed r' t' → t' - lookback <= t.

Lemma good_answer k cursor :
  good k cursor →
  ∃ fs w, watchQuery (Timestamp c lookback) cursor pk = Some (fs, watch_sort) ∧
    answer fs = drop w rows ∧ (w <= k)%nat ∧ ((w < k)%nat → within w k) ∧
    Forall (answered c lookback pk from upto cursor) (drop w rows).
Proof.
  intros (ts & boundary & -> & Hh & _ & Hk & [(-> & -> & ->)|(s & n & r & -> & Hn & Hr & Htr)]).
  { exists [], 0%nat. split_and!; [done| |lia|lia|].
    - unfold answer. cbn. clear. induction rows as [|r l IH]; [done|]. by rewrite filter_cons_True, IH.
    - apply Forall_forall. intros r _. exists [], watch_sort. by split. }
  destruct (query_bound laws c lookback Hl pk from upto Hfrom Hupto clock_reads_back (VStr s) boundary (Some c) n)
    as (v & Hv & Hb); [done..|apply Htr|].
  set (f := at_least c v) in *.
  assert (Hat : ∀ i r t, rows !! i = Some r → timed r t → forallb (λ f, admits f r) [f] = (n - lookback <=? t)).
  { intros i r' t' _ Ht'. cbn. rewrite andb_true_r. by apply admits_timed. }
  destruct (filter_end (λ r, forallb (λ f, admits f r) [f] = true) rows) as (w & Hw & Heq & Hin).
  { clear -Hsorted Ht Hb. assert (Hall : ∀ r, r ∈ rows → ∃ t, timed r t) by apply (rows_timed _ _ _ _ _ _ Ht). clear Ht.
    induction Hsorted as [|x l Hs IH Hx]; constructor; [by apply IH; [|intros; apply Hall; right]|].
    rewrite Forall_forall in Hx |- *. intros y Hy. destruct (Hall x) as [tx Htx]; [by left|].
    destruct (Hall y) as [ty Hty]; [by right|]. cbn. rewrite !andb_true_r.
    rewrite (admits_timed f x _ _ Hb Htx), (admits_timed f y _ _ Hb Hty). specialize (Hx y Hy tx ty Htx Hty). lia. }
  exists [f], w. split; [exact Hv|]. split; [exact Heq|].
  assert (Hlast : ∀ r' t', rows !! (k - 1)%nat = Some r' → timed r' t' → n = t') by (intros; eapply good_last; eauto).
  assert (Hwk : (w <= k)%nat).
  { destruct (decide (w <= k)%nat) as [|Hn']; [done|exfalso]. apply list_elem_of_lookup in Hr as [i Hi].
    apply lookup_take_Some in Hi as [Hi Hik].
    assert (Hin' : r ∈ answer [f]).
    { apply list_elem_of_filter. split; [|by eapply list_elem_of_lookup_2]. rewrite (Hat i r n) by done. lia. }
    unfold answer in Hin'. rewrite Heq in Hin'. apply list_elem_of_lookup in Hin' as [j Hj]. rewrite lookup_drop in Hj.
    pose proof (NoDup_lookup _ _ _ _ rows_NoDup Hi Hj). lia. }
  split; [done|]. split.
  - intros Hlt r1 r2 t1 t2 H1 H2 Ht1 Ht2. specialize (Hin r1 H1). rewrite (Hat w r1 t1) in Hin by done.
    rewrite <- (Hlast r2 t2 H2 Ht2). lia.
  - rewrite <- Heq. apply Forall_forall. intros r1 [Hf Hr1]%list_elem_of_filter. exists [f], watch_sort. split; [done|].
    repeat constructor. intros n1 t1 Hn1 Ht1. cbn in Hf. rewrite andb_true_r, (admits_timed f r1 _ _ Hb Ht1) in Hf.
    cbn in Hn1. assert (n1 = n - lookback) by congruence. lia.
Qed.

(** ** A page of it *)

Definition answered_from (cursor : WatchCursor) (a : nat) : Prop :=
  Forall (answered c lookback pk from upto cursor) (drop a rows).

Lemma known_at k i r key : rows !! i = Some r → key_of r key → (∃ r', r' ∈ take k rows ∧ key_of r' key) ↔ (i < k)%nat.
Proof.
  intros Hi Hk. split.
  - intros (r' & Hr' & Hk'). apply list_elem_of_lookup in Hr' as [j Hj]. apply lookup_take_Some in Hj as [Hj Hjk].
    by rewrite (key_at i j r r' key).
  - intros Hik. exists r. split; [|done]. apply list_elem_of_lookup. exists i. by apply lookup_take_Some.
Qed.

Definition page (L a : nat) : list obj := take L (drop a rows).

Lemma page_at L a i r : page L a !! i = Some r ↔ rows !! (a + i)%nat = Some r ∧ (i < L)%nat.
Proof. unfold page. rewrite lookup_take_Some, lookup_drop. done. Qed.

Lemma page_elem L a r : r ∈ page L a → ∃ i, rows !! i = Some r ∧ (a <= i < a + L)%nat.
Proof. intros [i [Hi Hl']%page_at]%list_elem_of_lookup. exists (a + i)%nat. split; [done|lia]. Qed.

Lemma page_of_rows L a : Forall (λ r, r ∈ rows) (page L a).
Proof. apply Forall_forall. intros r (i & Hi & _)%page_elem. by eapply list_elem_of_lookup_2. Qed.

Lemma page_keys L a : ∃ ks', keys_of (page L a) ks' ∧ NoDup ks'.
Proof.
  destruct (sublist_keys c pk (page L a) rows ks) as (ks' & ? & ?); [|done|].
  - unfold page. etrans; [apply sublist_take|apply drop_sublist].
  - exists ks'. split; [done|by eapply sublist_NoDup].
Qed.

(** a page of rows that have been emitted *)
Lemma page_known k cursor L a :
  good k cursor → answered_from cursor a → (a + L <= k)%nat → page L a ≠ [] →
  advance cursor (page L a) pk = Some ([], cursor).
Proof.
  intros (ts & boundary & -> & Hh & Hb & Hk & Hts) Hans Hle Hne.
  destruct Hts as [(-> & _ & _)|(s & n & r & -> & Hn & Hr & Htr)].
  { unfold page in Hne. replace L with 0%nat in Hne by lia. done. }
  apply (advance_still c lookback Hl pk from upto _ Ht s boundary n); try done.
  - apply Htr.
  - apply page_of_rows.
  - intros r' t' (i & Hi & Hil)%page_elem Htr'. destruct Hh as [_ [[Hp _]|(n' & _ & Hn' & _ & Hmax & _)]].
    { rewrite Hp in Hr. by apply not_elem_of_nil in Hr. }
    assert (n' = n) as -> by congruence. apply (Hmax r'); [|done]. apply list_elem_of_lookup. exists i.
    apply lookup_take_Some. split; [done|lia].
  - apply Forall_forall. intros r' (i & Hi & Hil)%page_elem. destruct (rows_at i r' Hi) as (t' & key & Htr' & Hkr & _).
    exists key. split; [done|].
    apply (known_keys laws c lookback Hl pk from upto Hfrom Hupto clock_reads_back _ Ht (take k rows) (VStr s) boundary
             (Some c) r' key); [by apply Forall_take, Forall_forall|done|by eapply list_elem_of_lookup_2| |done|].
    + unfold answered_from in Hans. rewrite Forall_forall in Hans. apply Hans.
      apply list_elem_of_lookup. exists (i - a)%nat. rewrite lookup_drop. by replace (a + (i - a))%nat with i by lia.
    + apply (known_at k i r' key); [done..|lia].
Qed.

(** any page that does not leave a gap *)
Lemma page_next k cursor L a :
  good k cursor → answered_from cursor a → (a <= k)%nat → page L a ≠ [] →
  ∃ cursor', advance cursor (page L a) pk = Some (drop (k - a) (page L a), cursor') ∧
    good (Nat.min (List.length rows) (Nat.max k (a + L))) cursor'.
Proof.
  intros (ts & boundary & -> & Hh & Hb & Hk & Hts) Hans Hak Hne. destruct (page_keys L a) as (kp & Hkp & Hndp).
  destruct (advance_spec laws c lookback Hl pk from upto Hfrom Hupto clock_reads_back _ Ht (take k rows)
    (TimestampCursor ts boundary (Some c)) (page L a)) as (fresh & cursor' & Hadv & Hsub & Hmem & Hh').
  { by apply Forall_take, Forall_forall. }
  { done. }
  { apply page_of_rows. }
  { unfold page. by apply Forall_take. }
  assert (fresh = drop (k - a) (page L a)) as ->.
  { apply (sublist_same (page L a)); [| |apply drop_sublist|].
    - unfold page. eapply sublist_NoDup; [apply rows_NoDup|]. etrans; [apply sublist_take|apply drop_sublist].
    - done.
    - intros r. split.
      + intros Hr. assert (Hrp : r ∈ page L a) by (eapply elem_of_submseteq; [done|by apply sublist_submseteq]).
        apply list_elem_of_lookup in Hrp as [i Hi]. pose proof Hi as [Hri Hil]%page_at.
        destruct (rows_at _ r Hri) as (_ & key & _ & Hkey & _). apply list_elem_of_lookup. exists (a + i - k)%nat.
        rewrite lookup_drop. assert (¬ (a + i < k)%nat).
        { rewrite <- (known_at k _ r key Hri Hkey). apply (Hmem r key); [|done|done]. by eapply list_elem_of_lookup_2. }
        by replace (k - a + (a + i - k))%nat with i by lia.
      + intros Hr. apply list_elem_of_lookup in Hr as [i Hi]. rewrite lookup_drop in Hi. pose proof Hi as [Hri Hil]%page_at.
        destruct (rows_at _ r Hri) as (_ & key & _ & Hkey & _). apply (Hmem r key); [by eapply list_elem_of_lookup_2|done|].
        rewrite (known_at k _ r key Hri Hkey). lia. }
  exists cursor'. split; [done|].
  destruct (advance_tight laws c lookback Hl pk from upto Hfrom Hupto _ Ht (take k rows) ts boundary (Some c)
    (page L a) kp _ cursor' Hh Hb Hne (page_of_rows L a) Hkp Hndp Hadv) as (s & b' & n & -> & Hb' & Hn & Hfrom').
  exists (VStr s), b'. rewrite take_at_most.
  assert (Htake : take k rows ++ drop (k - a) (page L a) = take (Nat.max k (a + L)) rows) by by apply take_page.
  rewrite Htake in Hh'. split_and!; [done..|lia|]. right. exists s, n.
  assert (Hin : ∃ r, r ∈ take (Nat.max k (a + L)) rows ∧ timed r n); [|destruct Hin as (r & ? & ?); by exists r].
  destruct Hfrom' as [(r & (i & Hi & Hil)%page_elem & Htr)|[Hs Hts']].
  - exists r. split; [|done]. apply list_elem_of_lookup. exists i. apply lookup_take_Some. split; [done|lia].
  - destruct Hts as [(_ & -> & _)|(s0 & n0 & r & -> & Hn0 & Hr & Htr)]; [done|].
    assert (n0 = n) as -> by congruence. exists r. split; [|done]. rewrite <- Htake. apply elem_of_app. by left.
Qed.
End pages.
