(* ===== verification/WatchPoll.v ===== *)
(** The poller around the change detection
    ([apps/api/src/bridges/bridge-watch.service.ts]): one poll reads the pages its
    cursor asks for, delivers the rows that are new, one at a time, and saves the
    cursor behind every page. *)
From stdpp Require Import sorting.
From S2P Require Import Prelude JsText JsNumber JsDate JsValue JsJson.
From S2P Require Import BridgeConfig TypeMap Bridge RowCompare Async CdcState TableReader Watch.

Local Open Scope async_scope.

(** ** The cursor, as the job keeps it *)

Definition opt_field (k : string) (v : option string) : obj :=
  match v with Some s => [(k, VStr s)] | None => [] end.

Definition cursor_value (c : WatchCursor) : jsval :=
  VObj match c with
       | IncrementCursor v col => ("strategy", VStr "increment") :: ("value", v) :: opt_field "column" col
       | TimestampCursor ts keys col =>
           ("strategy", VStr "timestamp") :: ("ts", ts) :: ("boundaryKeys", VArr (VStr <$> keys))
           :: opt_field "column" col
       | SnapshotCursor seen => [("strategy", VStr "snapshot"); ("seen", VArr (VStr <$> seen))]
       end.

Definition texts_of (v : jsval) : option (list string) :=
  match v with VArr l => all_some (text_of <$> l) | _ => None end.

(** a cursor that was saved; anything else was never written by the program *)
Definition value_cursor (v : jsval) : option WatchCursor :=
  match property v "strategy" with
  | VStr s =>
      let col := text_of (property v "column") in
      if bool_decide (s = "increment") then Some (IncrementCursor (property v "value") col)
      else if bool_decide (s = "timestamp") then
        (λ keys, TimestampCursor (property v "ts") keys col) <$> texts_of (property v "boundaryKeys")
      else if bool_decide (s = "snapshot") then SnapshotCursor <$> texts_of (property v "seen")
      else None
  | _ => None
  end.

Definition strategy_name (s : WatchStrategy) : string :=
  match s with Increment _ => "increment" | Timestamp _ _ => "timestamp" | Snapshot _ => "snapshot" end.

(** does a saved cursor belong to the strategy the bridge has now? *)
Definition cursorMatches (s : WatchStrategy) (cursorJson : string) : bool :=
  match json_parse cursorJson with
  | None | Some VNull => false
  | Some v =>
      let column := property v "column" in
      let same c := is_nil column || strict_eq column (VStr c) in
      strict_eq (property v "strategy") (VStr (strategy_name s)) &&
      match s with Increment c => same c | Timestamp c _ => same c | Snapshot _ => true end
  end.

(** ** What is outside *)

Record WatchJob := { wjob : string; wcursorJson : string; woffset : nat }.

Inductive ending := end_canceled | end_failed | end_paused.

(** one row, to the dead-letter queue *)
Record Parked := { psequence : nat; prow : Row; perror : string; psucceeded : list string }.

Class Watched (W : Type) := {
  running_job : W → (string + option WatchJob) * W;
  (* is there a job that is queued, running or being canceled; the latest job *)
  active_job : W → (string + bool) * W;
  latest_job : W → (string + option (string * option string)) * W;
  resume_job : string → option (string * string) → W → (string + unit) * W;
  create_job : string → string → W → (string + string) * W;
  config_snapshot : W → (string + string) * W;
  (* aborts what is in flight *)
  abort_job : string → W → W;
  stoppable_job : W → (string + option string) * W;
  forget_echoes : W → W;
  resolve : W → (string + BridgeInput) * W;
  finalize : string → ending → option string → W → (string + unit) * W;
  browse : TableSource → BrowseParams → W → (string + (Page * list string)) * W;
  cursor_paging : TableSource → W → (string + bool) * W;
  recognise : BridgeInput → obj → list string → W → (string + EchoVerdict) * W;
  route_drops : BridgeInput → EchoVerdict → W → (string + bool) * W;
  drift_check : BridgeInput → W → (string + option string) * W;
  deliver : BridgeInput → Row → string → nat → option string → W → (string + DeliveryOutcome) * W;
  recordDelivery : string → nat → option (list jsval) → DeliveryOutcome → W → (string + unit) * W;
  pendingRows : W → (string + nat) * W;
  park : string → Parked → W → (string + unit) * W;
  save_offset : string → nat → W → (string + unit) * W;
  save_cursor : string → string → nat → W → (string + unit) * W;
  register : string → W → W;
  release : string → W → W;
  aborted : W → bool;
  pause : Z → W → W;
  upsert_scheduler : Z → W → (string + unit) * W;
  queue_ready : W → (string + unit) * W;
  (* [SET NX]: won, or another process has it; [None]: Redis is away *)
  take_lock : string → W → option bool * W;
  drop_lock : string → W → W;
  (* its refusal is ignored *)
  remove_scheduler : W → W;
  clock : W → Z;
  sha256 : string → string
}.

Definition SCAN_PAGES_PER_POLL : nat := 50.
Definition FAST_MS : Z := 1000.
Definition COOLDOWN_POLLS : nat := 4.

Section poll.
Context `{JsHost} `{JsPrint} {W : Type} `{!Watched W} (config : RuntimeConfig).

(** what the service keeps of one bridge *)
Record PollState := {
  world : W;
  polling : bool;
  emptyStreak : option nat;
  scheduledEvery : option Z;
  pkCache : option (string * list string);
  signature : option string
}.

Abbreviation P A := (@async PollState A).

Definition in_world (s : PollState) (w : W) : PollState :=
  {| world := w; polling := polling s; emptyStreak := emptyStreak s; scheduledEvery := scheduledEvery s;
     pkCache := pkCache s; signature := signature s |}.
Definition with_polling (b : bool) (s : PollState) : PollState :=
  {| world := world s; polling := b; emptyStreak := emptyStreak s; scheduledEvery := scheduledEvery s;
     pkCache := pkCache s; signature := signature s |}.
Definition with_cadence (streak : option nat) (every : option Z) (s : PollState) : PollState :=
  {| world := world s; polling := polling s; emptyStreak := streak; scheduledEvery := every;
     pkCache := pkCache s; signature := signature s |}.
Definition with_pk (pk : option (string * list string)) (s : PollState) : PollState :=
  {| world := world s; polling := polling s; emptyStreak := emptyStreak s; scheduledEvery := scheduledEvery s;
     pkCache := pk; signature := signature s |}.
Definition with_signature (sig : option string) (s : PollState) : PollState :=
  {| world := world s; polling := polling s; emptyStreak := emptyStreak s; scheduledEvery := scheduledEvery s;
     pkCache := pkCache s; signature := sig |}.

Definition outside {R} (f : W → (string + R) * W) : P R :=
  call (λ s, let (r, w) := f (world s) in (r, in_world s w)).
Definition told (f : W → W) : P unit := modify (λ s, in_world s (f (world s))).

Definition UNPRINTABLE : string := "Do not know how to serialize a value".
Definition or_throw {A} (x : option A) : P A :=
  match x with Some x => Ret x | None => Throw UNPRINTABLE end.
Definition printed (v : jsval) : option string := match stringify v with JText s => Some s | _ => None end.

(** ** The scheduler *)

Definition schedule (every : Z) : P unit := outside (upsert_scheduler every).

Definition unschedule : P unit :=
  modify (λ s, with_pk None (with_cadence None None s)) ;; told remove_scheduler.

Definition adapt (idleMs : Z) (hadRows : bool) : P unit :=
  let* every := read scheduledEvery in
  match every with
  | None => Ret tt
  | Some every =>
      let fast := Z.min FAST_MS idleMs in
      let* streak := read (λ s, if hadRows then 0 else S (default 0 (emptyStreak s))) in
      let desired := if streak <? COOLDOWN_POLLS then fast else idleMs in
      modify (with_cadence (Some streak) (Some desired)) ;;
      if (every =? desired)%Z then Ret tt else schedule desired
  end.

(** ** The primary key, asked for once per table *)

Definition table_signature (src : TableSource) : string :=
  connectionId src +:+ ":" +:+ default EmptyString (database src) +:+ ":" +:+
  default EmptyString (schema src) +:+ ":" +:+ table src.

Definition probe_params : BrowseParams :=
  {| bfilters := []; bsort := []; blimit := 1; boffset := 0; bcursor := None; bafter := None |}.

Definition resolvePk (src : TableSource) : P (list string) :=
  let sig := table_signature src in
  let* hit := read pkCache in
  match hit with
  | Some (sig', pk) =>
      if bool_decide (sig' = sig) then Ret pk else
      let* answer := outside (browse src probe_params) in
      let pk := answer.2 in
      modify (with_pk (Some (sig, pk))) ;; Ret pk
  | None =>
      let* answer := outside (browse src probe_params) in
      let pk := answer.2 in
      modify (with_pk (Some (sig, pk))) ;; Ret pk
  end.

(** ** The rows of a page *)

Definition nul : string := String "000" EmptyString.

Definition column_signature (row : obj) : string := join nul (merge_sort str_le (obj_keys row)).

Definition tracked (s : WatchStrategy) (row : obj) : jsval :=
  match s with Timestamp c _ => obj_get row c | _ => VNull end.

(** [None] where it throws *)
Definition idempotencyKey (job : string) (s : WatchStrategy) (row : obj) (pk : list string) : option string :=
  salt ← stamp_of (tracked s row);
  key ← rowKey row pk;
  Some (job +:+ ":" +:+ slice 0 32 (sha256 (key +:+ nul +:+ salt))).

Definition wants_idempotency (b : BridgeInput) : bool :=
  match destination b with Http h => idempotency h | _ => false end.

Definition plain (r : obj) : Row := {| cols := r; origins := [] |}.

Definition row_keys (pk : list string) (row : obj) : option (list jsval) :=
  match pk with [] => None | _ => Some (obj_get row <$> pk) end.

Context (b : BridgeInput) (src : TableSource) (job : string) (s : WatchStrategy).

(** stop listening, and say why *)
Definition stop_listening (message : string) : P unit :=
  unschedule ;; outside (finalize job end_paused (Some message)).

(** have the columns changed in a way the bridge must not follow? [false]: it has ended *)
Definition columns_allow (sig : string) : P bool :=
  let* before := read signature in
  if bool_decide (before ≠ None ∧ before ≠ Some sig) then
    let* verdict := outside (drift_check b) in
    match verdict with
    | Some why =>
        outside (finalize job end_failed (Some why)) ;; unschedule ;;
        modify (with_signature None) ;; Ret false
    | None => modify (with_signature (Some sig)) ;; Ret true
    end
  else modify (with_signature (Some sig)) ;; Ret true.

Definition DEAD_DESTINATION (n : nat) (reason : string) : string :=
  "Stopped without advancing: " +:+ pretty n +:+
  " rows in a row failed, which points at the destination rather than the rows. Last error: " +:+ reason.
Definition QUEUE_FULL (held : nat) (reason : string) : string :=
  "Stopped without advancing: the dead-letter queue is full (" +:+ pretty held +:+ " rows waiting, limit " +:+
  pretty (deadLetterMaxRows config) +:+
  "). Retry or discard them, then start the bridge again. Last error: " +:+ reason.
Definition NOT_SET_ASIDE (e reason : string) : string :=
  "Stopped without advancing: a failed row could not be set aside (" +:+ e +:+ "). Last error: " +:+ reason.

(** a failed row is set aside, or the poll ends; the failures in a row so far *)
Definition set_aside (seq failures : nat) (row : Row) (o : DeliveryOutcome) : P (option nat) :=
  let reason := default "delivery failed" (oerror o) in
  let stop message := stop_listening message ;; Ret None in
  if bool_decide (onError (delivery b) = abort_on_error) then
    stop ("Paused after a failed delivery (onError=abort): " +:+ reason)
  else
    let failures := S failures in
    if maxConsecutiveFailures config <=? failures then stop (DEAD_DESTINATION failures reason) else
    let* held := outside pendingRows in
    if deadLetterMaxRows config <? held + 1 then stop (QUEUE_FULL held reason) else
    catch (outside (park job {| psequence := seq; prow := row; perror := reason;
                                psucceeded := default [] (osucceededTargets o) |}) ;; Ret (Some failures))
          (λ e, stop (NOT_SET_ASIDE e reason)).

(** the sequence and the failures in a row behind the rows; [None]: the poll has ended *)
Fixpoint deliver_rows (pk : list string) (rows : list obj) (seq failures : nat) : P (option (nat * nat)) :=
  match rows with
  | [] => Ret (Some (seq, failures))
  | found :: rows =>
      let* stopped := read (λ st, aborted (world st)) in
      if stopped : bool then Ret None else
      let* verdict := outside (recognise b found pk) in
      let* dropped := (if echo verdict then outside (route_drops b verdict) else Ret false) in
      if dropped : bool then deliver_rows pk rows seq failures else
      let row := if echo verdict then withOrigins (plain found) (eorigins verdict) else plain found in
      let* allowed := columns_allow (column_signature (cols row)) in
      if negb allowed then Ret None else
      let* now := read (λ st, toISOString (clock (world st))) in
      let* idem := (if wants_idempotency b then let* k := or_throw (idempotencyKey job s (cols row) pk) in Ret (Some k)
                    else Ret None) in
      let* o := outside (deliver b row now seq idem) in
      outside (recordDelivery job seq (row_keys pk (cols row)) o) ;;
      let* went := (if success o then Ret (Some 0) else set_aside seq failures row o) in
      match went with
      | None => Ret None
      | Some failures =>
          outside (save_offset job (S seq)) ;;
          (if (minDelayMs (delivery b) =? 0)%Z then Ret tt else told (pause (minDelayMs (delivery b)))) ;;
          deliver_rows pk rows (S seq) failures
      end
  end.

(** ** The pages of a poll *)

Definition page_params (filters : list FilterSpec) (sorts : list SortSpec) (limit : nat) (offset : nat)
    (scan : option string) : BrowseParams :=
  {| bfilters := filters; bsort := sorts; blimit := limit; boffset := offset; bcursor := scan; bafter := None |}.

(** [n]: the pages that are left of the scan budget. [scan]: where the engine's
    own cursor is, of a walk by it. The rows delivered; [None]: the poll has ended. *)
Fixpoint scan_pages (n : nat) (byCursor : bool) (pk : list string) (limit pageLimit : nat) (cursor : WatchCursor)
    (seq delivered offset failures : nat) (scan : string) : P (option nat) :=
  match n with
  | 0 => Ret (Some delivered)
  | S n =>
      if limit <=? delivered then Ret (Some delivered) else
      let* stopped := read (λ st, aborted (world st)) in
      if stopped : bool then Ret None else
      let* q := or_throw (watchQuery s cursor pk) in
      let* answer := outside (browse src
        (page_params (default [] (filters src) ++ q.1) q.2 pageLimit (if byCursor then 0 else offset)
           (if byCursor then Some scan else None))) in
      let page := answer.1 in
      let effPk := match pk with [] => answer.2 | _ => pk end in
      let* advance := or_throw (advanceCursor s cursor (prows page) effPk) in
      let newRows := advance.1 in
      let next := advance.2 in
      let* went := deliver_rows effPk newRows seq failures in
      match went with
      | None => Ret None
      | Some (seq, failures) =>
          let* stopped := read (λ st, aborted (world st)) in
          if stopped : bool then Ret None else
          let* saved := or_throw (printed (cursor_value next)) in
          let* old := or_throw (printed (cursor_value cursor)) in
          let delivered := delivered + List.length newRows in
          outside (save_cursor job saved seq) ;;
          if byCursor then
            match pnextCursor page with
            | Some scan =>
                if phasMore page && nonempty scan
                then scan_pages n byCursor pk limit pageLimit next seq delivered offset failures scan
                else Ret (Some delivered)
            | None => Ret (Some delivered)
            end
          else if List.length (prows page) <? pageLimit then Ret (Some delivered)
          else if bool_decide (newRows = []) && bool_decide (saved = old)
          then scan_pages n byCursor pk limit pageLimit next seq delivered
                 (offset + List.length (prows page)) failures scan
          else scan_pages n byCursor pk limit pageLimit next seq delivered 0 failures scan
      end
  end.

(** ** One poll *)

(** [try { m } finally { f }] *)
Definition finally {A} (m : P A) (f : P unit) : P A :=
  let* r := catch (let* x := m in Ret (inr x)) (λ e, Ret (inl e)) in
  f ;; match r with inl e => Throw e | inr x => Ret x end.

Definition poll_limit (strategy : WatchStrategy) (maxPerPoll : Z) : nat :=
  match strategy with Snapshot m => Z.to_nat (Z.min m 1000) | _ => Z.to_nat maxPerPoll end.
End poll.

Section service.
Context `{JsHost} `{JsPrint} {W : Type} `{!Watched W} (config : RuntimeConfig).

Abbreviation P A := (@async (PollState (W:=W)) A).

Definition walks_by_cursor (strategy : WatchStrategy) (src : TableSource) : P bool :=
  match strategy with Snapshot _ => outside (cursor_paging src) | _ => Ret false end.

Definition listen (b : BridgeInput) (src : TableSource) (strategy : WatchStrategy) (idleMs maxPerPoll : Z)
    (j : WatchJob) (cursor : WatchCursor) : P unit :=
  let* pk := resolvePk src in
  let limit := poll_limit strategy maxPerPoll in
  told (register (wjob j)) ;;
  finally (
    let* byCursor := walks_by_cursor strategy src in
    let* delivered := scan_pages config b src (wjob j) strategy SCAN_PAGES_PER_POLL byCursor pk limit
                        (Nat.min limit 1000) cursor (woffset j) 0 0 0 "0" in
    match delivered with
    | None => Ret tt
    | Some n => adapt idleMs (0 <? n)
    end) (told (release (wjob j))).

Definition UNPARSEABLE (job : string) : string :=
  "Watch job " +:+ job +:+ " has an unparseable cursor — marking it failed so the user can restart cleanly.".

Definition runPoll : P unit :=
  let* found := outside running_job in
  match found with
  | None => unschedule
  | Some j =>
      let* b := outside resolve in
      match benabled b, trigger b, source b with
      | true, Watch strategy idleMs _ maxPerPoll, FromTable src =>
          match json_parse (wcursorJson j) with
          | None =>
              outside (finalize (wjob j) end_failed (Some (UNPARSEABLE (wjob j)))) ;; unschedule
          | Some v =>
              let* cursor := or_throw (value_cursor v) in
              listen b src strategy idleMs maxPerPoll j cursor
          end
      | _, _, _ => outside (finalize (wjob j) end_canceled None) ;; unschedule
      end
  end.

(** one process at a time; where the lock's store is away, every process *)
Definition withLock {A} (name : string) (work : P A) : P (option A) :=
  let* won := atomically (λ s, let (r, w) := take_lock name (world s) in (r, in_world s w)) in
  match won with
  | Some false => Ret None
  | Some true => finally (let* x := work in Ret (Some x)) (told (drop_lock name))
  | None => let* x := work in Ret (Some x)
  end.

Definition poll (bridgeId : string) : P unit :=
  let* busy := read polling in
  if busy : bool then Ret tt else
  modify (with_polling true) ;;
  finally (catch (withLock ("watch:" +:+ bridgeId) runPoll ;; Ret tt) (λ _, Ret tt))
          (modify (with_polling false)).

(** ** Where a new watch begins *)

Definition descending (c : string) : SortSpec := {| scolumn := c; sdirection := desc |}.

Definition top_row (src : TableSource) (c : string) : P (option obj) :=
  let* answer := outside (browse src (page_params (default [] (filters src)) [descending c] 1 0 None)) in
  Ret (head (prows answer.1)).

Definition or_pk (pk pagePk : list string) : list string := match pk with [] => pagePk | _ => pk end.

(** the rows that are at the latest timestamp already, in at most [n] pages *)
Fixpoint boundary_pages (n : nat) (src : TableSource) (c : string) (maxTs : jsval) (pk : list string) (offset : nat)
  : P (list string) :=
  match n with
  | 0 => Ret []
  | S n =>
      let* answer := outside (browse src (page_params (default [] (filters src) ++ [at_least c maxTs])
        (ascending c :: (ascending <$> filter (λ k, k ≠ c) pk)) 1000 offset None)) in
      let rows := prows answer.1 in
      let* keys := or_throw (all_some ((λ r, emittedKey r (or_pk pk answer.2) c) <$> rows)) in
      if List.length rows <? 1000 then Ret keys else
      let* rest := boundary_pages n src c maxTs pk (offset + 1000) in
      Ret (keys ++ rest)
  end.

(** the keys that are there already, page by page. [n]: enough pages *)
Fixpoint seen_pages (n : nat) (src : TableSource) (maxTracked : nat) (pk : list string) (offset : nat)
  : P (list string) :=
  match n with
  | 0 => Ret []
  | S n =>
      if maxTracked <=? offset then Ret [] else
      let* answer := outside (browse src (page_params (default [] (filters src)) (ascending <$> pk)
        (Nat.min (maxTracked - offset) 1000) offset None)) in
      let rows := prows answer.1 in
      let* keys := or_throw (all_some ((λ r, rowKey r (or_pk pk answer.2)) <$> rows)) in
      if List.length rows <? 1000 then Ret keys else
      let* rest := seen_pages n src maxTracked pk (offset + 1000) in
      Ret (keys ++ rest)
  end.

(** … by the engine's own cursor. The loop ends when the engine says so, or when
    enough has been seen; [fuel] stands for the pages it may take *)
Fixpoint seen_scan (fuel : nat) (src : TableSource) (maxTracked : nat) (pk : list string) (scan : string)
    (seen : list string) : P (list string) :=
  match fuel with
  | 0 => Act (λ _, false) (λ s, (tt, s)) (λ _, Throw EmptyString)
  | S fuel =>
      if maxTracked <=? List.length seen then Ret seen else
      let* answer := outside (browse src (page_params (default [] (filters src)) []
        (Nat.min (maxTracked - List.length seen) 1000) 0 (Some scan))) in
      let page := answer.1 in
      let* keys := or_throw (all_some ((λ r, rowKey r (or_pk pk answer.2)) <$> prows page)) in
      let seen := seen ++ keys in
      match (if phasMore page then pnextCursor page else None) with
      | Some scan => seen_scan fuel src maxTracked pk scan seen
      | None => Ret seen
      end
  end.

Context (fuel : nat).

Definition initialCursor (strategy : WatchStrategy) (from : start_from) (src : TableSource) : P WatchCursor :=
  if bool_decide (from = from_beginning) then Ret (emptyCursor strategy) else
  match strategy with
  | Increment c =>
      let* top := top_row src c in
      Ret (IncrementCursor (match top with Some r => null_if_nil (obj_get r c) | None => VNull end) (Some c))
  | Timestamp c _ =>
      let* top := top_row src c in
      let maxTs := match top with Some r => obj_get r c | None => VUndef end in
      if is_nil maxTs then Ret (emptyCursor strategy) else
      let* pk := resolvePk src in
      let* keys := boundary_pages 20 src c maxTs pk 0 in
      let* ts := or_throw (serializeTs maxTs) in
      Ret (TimestampCursor ts keys (Some c))
  | Snapshot maxTracked =>
      let most := Z.to_nat maxTracked in
      let* pk := resolvePk src in
      let* byCursor := outside (cursor_paging src) in
      if byCursor : bool then
        let* seen := seen_scan fuel src most pk "0" [] in Ret (SnapshotCursor (take most seen))
      else
        let* seen := seen_pages most src most pk 0 in Ret (SnapshotCursor seen)
  end.

(** ** Start and stop *)

Definition NOT_A_WATCH : string := "This bridge is not configured to listen.".
Definition NOT_A_TABLE : string := "Watch bridges must read from a table.".
Definition ALREADY_RUNNING : string := "This bridge is already running. Stop it first.".

Definition new_cursor (strategy : WatchStrategy) (from : start_from) (src : TableSource) : P string :=
  let* c := initialCursor strategy from src in or_throw (printed (cursor_value c)).

(** the job that is there goes on from its cursor, unless that was saved for another strategy *)
Definition start_job (strategy : WatchStrategy) (from : start_from) (src : TableSource) : P string :=
  let* latest := outside latest_job in
  match latest with
  | Some (id, Some saved) =>
      if nonempty saved then
        if cursorMatches strategy saved then outside (resume_job id None) ;; Ret id
        else
          let* c := new_cursor strategy from src in
          let* snapshot := outside config_snapshot in
          outside (resume_job id (Some (c, snapshot))) ;; Ret id
      else
        let* snapshot := outside config_snapshot in
        let* c := new_cursor strategy from src in
        outside (create_job c snapshot)
  | _ =>
      let* snapshot := outside config_snapshot in
      let* c := new_cursor strategy from src in
      outside (create_job c snapshot)
  end.

Definition start : P string :=
  let* b := outside resolve in
  match trigger b, source b with
  | Watch strategy idleMs from _, FromTable src =>
      let* active := outside active_job in
      if active : bool then Throw ALREADY_RUNNING else
      let* verdict := outside (drift_check b) in
      match verdict with
      | Some why => Throw why
      | None =>
          modify (with_signature None) ;;
          outside queue_ready ;;
          let* id := start_job strategy from src in
          let fast := Z.min FAST_MS idleMs in
          modify (with_cadence (Some 0) (Some fast)) ;;
          schedule fast ;;
          told forget_echoes ;;
          Ret id
      end
  | Watch _ _ _ _, _ => Throw NOT_A_TABLE
  | _, _ => Throw NOT_A_WATCH
  end.

Definition stop : P (option string) :=
  unschedule ;;
  let* job := outside stoppable_job in
  match job with
  | None => Ret None
  | Some id =>
      told (abort_job id) ;;
      outside (finalize id end_paused None) ;;
      Ret (Some id)
  end.
End service.
