(* ===== verification/WatchLive.v ===== *)
(** A watch delivers: over a table that holds still, poll after poll, every row is
    delivered, once and in order, provided no window of the watch holds more rows
    than a poll can scan ([BridgeWatchService.runPoll]). *)
From Stdlib Require Import Sorted.
From S2P Require Import Prelude JsText JsNumber JsDate JsIso JsValue JsJson JsonText.
From S2P Require Import BridgeConfig TypeMap Bridge RowCompare Async CdcState TableReader.
From S2P Require Import Watch WatchOnce WatchStill WatchPages WatchPoll.

Local Open Scope async_scope.

(** ** A cursor that is saved reads back *)

Definition plain_cursor (c : WatchCursor) : bool :=
  match c with
  | IncrementCursor v _ => json_plain v
  | TimestampCursor ts _ _ => json_plain ts
  | SnapshotCursor _ => true
  end.

Lemma plain_texts keys : forallb json_plain (VStr <$> keys) = true.
Proof. by induction keys. Qed.

Lemma texts_of_texts keys : texts_of (VArr (VStr <$> keys)) = Some keys.
Proof.
  unfold texts_of. induction keys as [|k keys IH]; [done|]. rewrite !fmap_cons. by apply all_some_cons.
Qed.

Lemma value_cursor_value c : value_cursor (cursor_value c) = Some c.
Proof.
  destruct c as [v [col|]|ts keys [col|]|seen]; [done..| | |].
  - change ((λ keys, TimestampCursor ts keys (Some col)) <$> texts_of (VArr (VStr <$> keys)) = Some (TimestampCursor ts keys (Some col))).
    by rewrite texts_of_texts.
  - change ((λ keys, TimestampCursor ts keys None) <$> texts_of (VArr (VStr <$> keys)) = Some (TimestampCursor ts keys None)).
    by rewrite texts_of_texts.
  - change (SnapshotCursor <$> texts_of (VArr (VStr <$> seen)) = Some (SnapshotCursor seen)).
    by rewrite texts_of_texts.
Qed.

Lemma cursor_reads_back c :
  plain_cursor c = true →
  ∃ t, printed (cursor_value c) = Some t ∧ json_parse t = Some (cursor_value c) ∧ value_cursor (cursor_value c) = Some c.
Proof.
  intros Hc. destruct (json_round_trip (cursor_value c)) as (t & Ht & Hp).
  { destruct c as [v [col|]|ts keys [col|]|seen]; cbn in Hc |- *; rewrite ?Hc, ?plain_texts; done. }
  exists t. unfold printed. rewrite Ht. split_and!; [done..|apply value_cursor_value].
Qed.

Section live.
Context `{JsHost} `{JsPrint} {W : Type} `{!Watched W} (config : RuntimeConfig).

(** ** A calm world *)

(** what has been delivered, and the cursor the job has *)
Record Seen := { delivered : list obj; saved : string }.

Context (obs : W → Seen).

Definition answers {R} (f : W → (string + R) * W) (w : W) (x : R) (o : Seen) : Prop :=
  ∃ w', f w = (inr x, w') ∧ obs w' = o.

Definition quiet {R} (f : W → (string + R) * W) (P : R → Prop) : Prop :=
  ∀ w, ∃ x, P x ∧ answers f w x (obs w).

Definition untouched (f : W → W) : Prop := ∀ w, obs (f w) = obs w.

Context (laws : JsHostLaws _) (c : string) (lookback : Z) (Hl : (0 <= lookback)%Z) (pk : list string).
Context (from upto : Z) (Hfrom : (- max_time <= from)%Z) (Hupto : (upto <= max_time)%Z)
  (clock_reads_back : ∀ t, (from <= t <= upto)%Z → date_parse (wallClock t) = Some t).
Context (rows : list obj) (Ht : tells_rows c lookback pk from upto (λ r, r ∈ rows)).
Context (Hsorted : StronglySorted (not_after c lookback from upto) rows)
  (ks : list string) (Hks : keys_of c pk rows ks) (Hnd : NoDup ks).

Abbreviation s := (Timestamp c lookback).
Abbreviation good := (good c lookback pk from upto rows).

(** nothing fails, nothing else writes, nobody stops the watch, and the table
    answers what it holds: the rows a filter admits, in order, page by page *)
Record Calm (b : BridgeInput) (src : TableSource) (job : string) : Prop := {
  calm_enabled : benabled b = true;
  calm_source : source b = FromTable src;
  calm_job w : ∃ j, wjob j = job ∧ wcursorJson j = saved (obs w) ∧ answers running_job w (Some j) (obs w);
  calm_resolve w : answers resolve w b (obs w);
  calm_probe : quiet (browse src probe_params) (λ a, a.2 = pk);
  calm_browse fs limit offset :
    quiet (browse src (page_params (default [] (filters src) ++ fs) (watch_sort c pk) limit offset None))
      (λ a, a.2 = pk ∧ prows a.1 = take limit (drop offset (answer c rows fs)));
  calm_recognise r : quiet (recognise b r pk) (λ v, echo v = false);
  calm_drift : quiet (drift_check b) (λ v, v = None);
  calm_deliver r now seq idem w :
    ∃ o, success o = true ∧
      answers (deliver b (plain r) now seq idem) w o {| delivered := delivered (obs w) ++ [r]; saved := saved (obs w) |};
  calm_record seq keys o : quiet (recordDelivery job seq keys o) (λ _, True);
  calm_offset n : quiet (save_offset job n) (λ _, True);
  calm_cursor t n w : answers (save_cursor job t n) w tt {| delivered := delivered (obs w); saved := t |};
  calm_schedule z : quiet (upsert_scheduler z) (λ _, True);
  calm_pause z : untouched (pause z);
  calm_register : untouched (register job);
  calm_release : untouched (release job);
  calm_running w : aborted w = false;
  calm_lock name w : ∃ won w', take_lock name w = (won, w') ∧ won ≠ Some false ∧ obs w' = obs w;
  calm_unlock name : untouched (drop_lock name)
}.

Context (b : BridgeInput) (src : TableSource) (job : string) (calm : Calm b src job).

Abbreviation State := (PollState (W:=W)).

(** the state, as far as the polls are concerned *)
Definition at_ (o : Seen) (busy : bool) (st : State) : Prop :=
  obs (world st) = o ∧ (pkCache st = None ∨ pkCache st = Some (table_signature src, pk)) ∧ polling st = busy.

Lemma yields_answered {A R} (f : W → (string + R) * W) (h : R → @async State A) x o o' busy st Q :
  at_ o busy st → answers f (world st) x o' → (∀ st', at_ o' busy st' → yields (h x) st' Q) →
  yields (bind (outside f) h) st Q.
Proof.
  intros (Ho & Hp & Hb) (w' & Hf & Hw) Hh. unfold outside. unfold yields. cbn [bind call exec]. rewrite Hf.
  apply Hh. split_and!; cbn; done.
Qed.

Lemma yields_quiet {A R} (f : W → (string + R) * W) (P : R → Prop) (h : R → @async State A) o busy st Q :
  at_ o busy st → quiet f P → (∀ x st', P x → at_ o busy st' → yields (h x) st' Q) →
  yields (bind (outside f) h) st Q.
Proof.
  intros Hat Hf Hh. destruct (Hf (world st)) as (x & Hx & Ha). pose proof Hat as (Ho & _). rewrite Ho in Ha.
  eapply yields_answered; [done..|]. intros st' Hat'. by apply Hh.
Qed.

Lemma yields_quiet_alone {R} (f : W → (string + R) * W) (P : R → Prop) o busy st :
  at_ o busy st → quiet f P → yields (outside f) st (λ _ st', at_ o busy st').
Proof.
  intros (Ho & Hp & Hb) Hf. destruct (Hf (world st)) as (x & _ & w' & Hw & Hobs). unfold yields, outside, call. cbn [exec].
  rewrite Hw. eexists _, _. split; [reflexivity|]. split_and!; cbn; [congruence|done..].
Qed.

Lemma yields_told {A} (f : W → W) (h : unit → @async State A) o busy st Q :
  at_ o busy st → untouched f → (∀ st', at_ o busy st' → yields (h tt) st' Q) → yields (bind (told f) h) st Q.
Proof.
  intros (Ho & Hp & Hb) Hf Hh. apply yields_modify, Hh. split_and!; [|done..]. cbn. by rewrite Hf.
Qed.

Lemma yields_told_alone (f : W → W) o busy st :
  at_ o busy st → untouched f → yields (told f) st (λ _ st', at_ o busy st').
Proof.
  intros (Ho & Hp & Hb) Hf. unfold yields, told, modify. cbn [exec atomically]. eexists _, _. split; [reflexivity|].
  split_and!; [|done..]. cbn. by rewrite Hf.
Qed.

Lemma yields_some {A B} (m : option A) (x : A) (h : A → @async State B) st Q :
  m = Some x → yields (h x) st Q → yields (bind (or_throw m) h) st Q.
Proof. by intros ->. Qed.

(** ** The rows of a page *)

Lemma columns_allow_calm {A} sig o busy st (h : bool → @async State A) Q :
  at_ o busy st → (∀ st', at_ o busy st' → yields (h true) st' Q) →
  yields (bind (columns_allow b job sig) h) st Q.
Proof.
  intros Hat Hh. unfold columns_allow. eapply yields_bind with (P := λ x st', x = true ∧ at_ o busy st').
  2: { intros x st' [-> ?]. by apply Hh. }
  apply yields_read. case_bool_decide; [|apply yields_modify, yields_ret; by split].
  eapply yields_quiet; [done|apply calm|]. intros x st' -> Hat'.
  apply yields_modify, yields_ret. by split.
Qed.

Lemma idempotency_keyed r : r ∈ rows → is_Some (idempotencyKey job s r pk).
Proof.
  intros Hr. destruct (rows_timed _ _ _ _ _ _ Ht r Hr) as [t Htr], (rows_keyed _ _ _ _ _ _ Ht r Hr) as [k Hk].
  destruct (stamp_plain laws c lookback Hl pk from upto Hfrom Hupto _ Ht r t Hr Htr) as (st & Hst & _).
  unfold idempotencyKey, tracked. rewrite Hst. cbn [mbind option_bind]. unfold key_of, emittedKey in Hk.
  destruct (rowKey r pk); [by eexists|done].
Qed.

Lemma deliver_rows_calm l seq failures o busy st :
  (∀ r, r ∈ l → r ∈ rows) → at_ o busy st →
  yields (deliver_rows config b job s pk l seq failures) st
    (λ x st', ∃ seq' failures', x = Some (seq', failures') ∧
       at_ {| delivered := delivered o ++ l; saved := saved o |} busy st').
Proof.
  revert seq failures o st. induction l as [|r l IH]; intros seq failures o st Hin Hat; cbn [deliver_rows].
  { apply yields_ret. exists seq, failures. rewrite app_nil_r. by destruct o. }
  apply yields_read. rewrite (calm_running _ _ _ calm).
  eapply yields_quiet; [done|apply calm|]. intros v st1 Hv Hat1. rewrite Hv. cbn [bind].
  eapply columns_allow_calm; [done|]. intros st2 Hat2. cbn [negb]. apply yields_read.
  eapply yields_bind with (P := λ _ st', at_ o busy st').
  { destruct (wants_idempotency b); [|by apply yields_ret].
    destruct (idempotency_keyed r) as [k Hk]; [by apply Hin; left|].
    eapply yields_some; [exact Hk|]. by apply yields_ret. }
  intros idem st3 Hat3.
  destruct (calm_deliver _ _ _ calm r (toISOString (clock (world st2))) seq idem (world st3)) as (out & Hout & Hans).
  pose proof Hat3 as (Ho & _). rewrite Ho in Hans. eapply yields_answered; [done..|]. intros st4 Hat4.
  eapply yields_quiet; [done|apply calm|]. intros _ st5 _ Hat5. rewrite Hout. cbn [bind].
  eapply yields_quiet; [done|apply calm|]. intros _ st6 _ Hat6.
  eapply yields_bind with (P := λ _ st', at_ {| delivered := delivered o ++ [r]; saved := saved o |} busy st').
  { destruct (_ =? 0)%Z; [by apply yields_ret|]. apply yields_told_alone; [done|apply calm]. }
  intros _ st7 Hat7. eapply yields_mono; [apply (IH _ _ _ _ ltac:(intros; apply Hin; by right) Hat7)|].
  intros x st' (seq' & f' & -> & Hat'). exists seq', f'. split; [done|]. cbn in Hat'. by rewrite <- app_assoc in Hat'.
Qed.

(** ** The pages of a poll *)

Abbreviation N := (List.length rows).

(** the rows up to [k] are delivered, and the job has this cursor *)
Definition reached (k : nat) (cursor : WatchCursor) (busy : bool) (st : State) : Prop :=
  good k cursor ∧ ∃ t, printed (cursor_value cursor) = Some t ∧ at_ {| delivered := take k rows; saved := t |} busy st.

(** what the cursor asks for begins at row [w] *)
Definition starts (cursor : WatchCursor) (w : nat) : Prop :=
  ∃ fs, watchQuery s cursor pk = Some (fs, watch_sort c pk) ∧ answer c rows fs = drop w rows ∧
    answered_from c lookback pk from upto rows cursor w.

Lemma good_reads_back k cursor :
  good k cursor → ∃ t, printed (cursor_value cursor) = Some t ∧ json_parse t = Some (cursor_value cursor) ∧
    value_cursor (cursor_value cursor) = Some cursor.
Proof.
  intros (ts & boundary & -> & _ & _ & _ & Hts). apply cursor_reads_back.
  by destruct Hts as [(_ & -> & _)|(? & ? & ? & -> & _)].
Qed.

Lemma good_starts k cursor :
  good k cursor → ∃ w, starts cursor w ∧ w <= k ∧ k <= N ∧ (w < k → within c lookback from upto rows w k).
Proof.
  intros Hg. destruct (good_answer laws c lookback Hl pk from upto Hfrom Hupto clock_reads_back rows Ht Hsorted ks Hks Hnd
    k cursor Hg) as (fs & w & Hq & Ha & Hw & Hin & Hans).
  exists w. split; [by exists fs|]. split_and!; [done| |done]. by destruct Hg as (? & ? & _ & _ & _ & ? & _).
Qed.

(** what a poll comes to, that is to go [need] rows further to find another *)
Definition progress (k : nat) (busy : bool) (may : Prop) (x : option nat) (st : State) : Prop :=
  ∃ d k' cursor, x = Some d ∧ k <= k' ∧ reached k' cursor busy st ∧ (may → k < N → k < k').

Context (L : nat) (HL : 1 <= L).

Lemma length_page a : List.length (page rows L a) = Nat.min L (N - a).
Proof. unfold page. by rewrite length_take, length_drop. Qed.

(** one page: what is new of it, and how far the watch is behind it *)
Lemma page_step k cursor a :
  good k cursor → answered_from c lookback pk from upto rows cursor a → a <= k →
  let fresh := drop (k - a) (page rows L a) in
  ∃ cursor' k', advanceCursor s cursor (page rows L a) pk = Some (fresh, cursor') ∧ good k' cursor' ∧
    take k rows ++ fresh = take k' rows ∧ k <= k' ∧ (N - a < L → k < N → k < k') ∧
    (a + L <= N → fresh = [] → cursor' = cursor ∧ k' = k ∧ a + L <= k) ∧ (a + L <= N → fresh ≠ [] → k < k').
Proof.
  intros Hg Hans Hak fresh. assert (HkN : k <= N) by by destruct Hg as (? & ? & _ & _ & _ & ? & _).
  pose proof (length_page a) as Hlen.
  assert (Hfresh : List.length fresh = Nat.min L (N - a) - (k - a)) by (subst fresh; rewrite length_drop, Hlen; lia).
  destruct (decide (page rows L a = [])) as [He|Hne].
  { exists cursor, k. subst fresh. rewrite He in *. cbn in Hlen. rewrite drop_nil, app_nil_r. destruct Hg as (ts & bd & -> & Hg).
    split_and!; [done|by exists ts, bd|done|lia|lia|lia|done]. }
  destruct (page_next laws c lookback Hl pk from upto Hfrom Hupto clock_reads_back rows Ht ks Hks Hnd k cursor L a
    Hg Hans Hak Hne) as (cursor' & Hadv & Hg').
  assert (Hnil : fresh = [] ↔ List.length fresh = 0) by (split; [by intros ->|apply nil_length_inv]).
  exists cursor', (Nat.min N (Nat.max k (a + L))). split_and!; [done..| |lia|lia| |].
  - rewrite take_at_most. by apply take_page.
  - intros HaL Hf. assert (a + L <= k) by (rewrite Hnil in Hf; lia). split_and!; [|lia|done].
    rewrite (page_known laws c lookback Hl pk from upto Hfrom Hupto clock_reads_back rows Ht ks Hks Hnd k cursor L a) in Hadv
      by done. by injection Hadv.
  - intros HaL Hf. rewrite Hnil in Hf. lia.
Qed.

Lemma scan_pages_calm n cursor k w limit seq d offset failures scan busy st :
  reached k cursor busy st → starts cursor w → w + offset <= k →
  yields (scan_pages config b src job s n false pk limit L cursor seq d offset failures scan) st
    (progress k busy (d < limit ∧ k - (w + offset) < n * L)).
Proof.
  revert cursor k w seq d offset failures st. induction n as [|n IH]; intros cursor k w seq d offset failures st Hre Hst Hk;
    cbn [scan_pages].
  { apply yields_ret. exists d, k, cursor. split_and!; [done..|lia]. }
  destruct (Nat.leb_spec limit d) as [Hd|Hd].
  { apply yields_ret. exists d, k, cursor. split_and!; [done..|lia]. }
  apply yields_read. rewrite (calm_running _ _ _ calm).
  pose proof Hre as (Hg & t & Hpt & Hat). pose proof Hst as (fs & Hq & Ha & Hans).
  eapply yields_some; [exact Hq|]. cbn [fst snd].
  eapply yields_quiet; [done|apply calm|]. intros [pg pk'] st1 [Hpk Hrows] Hat1. cbn [fst snd] in *. subst pk'.
  assert (Heff : match pk with [] => pk | _ => pk end = pk) by by destruct pk. rewrite Heff. clear Heff.
  rewrite Ha, drop_drop in Hrows. fold (page rows L (w + offset)) in Hrows.
  destruct (page_step k cursor (w + offset)) as (cursor' & k' & Hadv & Hg' & Htake & Hkk & Hpart & Hsame & Hmore).
  { done. }
  { unfold answered_from in *. rewrite <- drop_drop. by apply Forall_drop. }
  { done. }
  set (fresh := drop (k - (w + offset)) (page rows L (w + offset))) in *.
  rewrite Hrows. eapply yields_some; [exact Hadv|]. cbn [fst snd].
  eapply yields_bind; [eapply deliver_rows_calm; [|exact Hat1]|].
  { intros r Hr. assert (Hr' : r ∈ page rows L (w + offset)) by (eapply elem_of_submseteq; [exact Hr|apply sublist_submseteq, drop_sublist]).
    pose proof (page_of_rows rows L (w + offset)) as Hall. rewrite Forall_forall in Hall. by apply Hall. }
  cbn [delivered saved]. rewrite Htake. intros x st2 (seq' & failures' & -> & Hat2).
  apply yields_read. rewrite (calm_running _ _ _ calm).
  destruct (good_reads_back k' cursor' Hg') as (t' & Ht' & _).
  eapply yields_some; [exact Ht'|]. eapply yields_some; [exact Hpt|].
  pose proof Hat2 as (Ho2 & _). pose proof (calm_cursor _ _ _ calm t' seq' (world st2)) as Hsave.
  eapply yields_answered; [done..|]. intros st3 Hat3. rewrite Ho2 in Hat3. cbn [delivered] in Hat3.
  assert (Hre' : reached k' cursor' busy st3) by (split; [done|by exists t']).
  rewrite length_page.
  destruct (Nat.ltb_spec (Nat.min L (N - (w + offset))) L) as [Hlast|Hfull].
  { apply yields_ret. eexists _, k', cursor'. split_and!; [done..|]. intros _ HkN. apply Hpart; [lia|done]. }
  destruct (decide (fresh = [])) as [Hf|Hf].
  - destruct Hsame as (-> & -> & Hle); [lia|done|]. assert (t' = t) as -> by congruence.
    rewrite !bool_decide_eq_true_2 by done. cbn [andb]. rewrite Hf. cbn [List.length]. rewrite Nat.add_0_r.
    replace (Nat.min L (N - (w + offset))) with L by lia.
    eapply yields_mono; [apply (IH cursor k w); [done|done|lia]|].
    intros x st' (d' & k2 & c2 & -> & Hk2 & Hre2 & Hp). exists d', k2, c2. split_and!; [done..|].
    intros [_ Hneed]. apply Hp. split; [lia|]. cbn [Nat.mul] in Hneed. lia.
  - rewrite bool_decide_eq_false_2 by done. cbn [andb].
    destruct (good_starts k' cursor' Hg') as (w' & Hst' & Hw' & _).
    eapply yields_mono; [apply (IH cursor' k' w'); [done|done|lia]|].
    intros x st' (d' & k2 & c2 & -> & Hk2 & Hre2 & _). exists d', k2, c2. split_and!; [done|lia|done|].
    intros _ _. pose proof (Hmore ltac:(lia) Hf). lia.
Qed.

(** the pages of a poll that all lie before the next row find nothing *)
Lemma scan_pages_stuck n cursor k w limit seq d offset failures scan busy st :
  reached k cursor busy st → starts cursor w → w + offset + n * L <= k →
  yields (scan_pages config b src job s n false pk limit L cursor seq d offset failures scan) st
    (λ x st', x = Some d ∧ reached k cursor busy st').
Proof.
  revert offset failures seq st. induction n as [|n IH]; intros offset failures seq st Hre Hst Hk; cbn [scan_pages].
  { apply yields_ret. by split. }
  destruct (Nat.leb_spec limit d) as [Hd|Hd]; [apply yields_ret; by split|].
  apply yields_read. rewrite (calm_running _ _ _ calm).
  pose proof Hre as (Hg & t & Hpt & Hat). pose proof Hst as (fs & Hq & Ha & Hans).
  eapply yields_some; [exact Hq|]. cbn [fst snd].
  eapply yields_quiet; [done|apply calm|]. intros [pg pk'] st1 [Hpk Hrows] Hat1. cbn [fst snd] in *. subst pk'.
  assert (Heff : match pk with [] => pk | _ => pk end = pk) by by destruct pk. rewrite Heff. clear Heff.
  rewrite Ha, drop_drop in Hrows. fold (page rows L (w + offset)) in Hrows.
  assert (HkN : k <= N) by by destruct Hg as (? & ? & _ & _ & _ & ? & _).
  assert (Hne : page rows L (w + offset) ≠ []).
  { intros He. pose proof (length_page (w + offset)) as Hlen. rewrite He in Hlen. cbn in Hlen, Hk. lia. }
  rewrite Hrows. eapply yields_some.
  { eapply (page_known laws c lookback Hl pk from upto Hfrom Hupto clock_reads_back rows Ht ks Hks Hnd k cursor L); [done| |cbn in Hk; lia|done].
    unfold answered_from in *. rewrite <- drop_drop. by apply Forall_drop. }
  cbn [fst snd deliver_rows bind]. apply yields_read. rewrite (calm_running _ _ _ calm).
  eapply yields_some; [exact Hpt|]. eapply yields_some; [exact Hpt|].
  pose proof Hat1 as (Ho1 & _). pose proof (calm_cursor _ _ _ calm t seq (world st1)) as Hsave.
  eapply yields_answered; [done..|]. intros st2 Hat2. rewrite Ho1 in Hat2. cbn [delivered] in Hat2.
  rewrite length_page. replace (Nat.min L (N - (w + offset))) with L by (cbn in Hk; lia). rewrite Nat.ltb_irrefl.
  rewrite !bool_decide_eq_true_2 by done. cbn [andb List.length]. rewrite Nat.add_0_r.
  apply IH; [split; [done|by exists t]|done|cbn in Hk; lia].
Qed.

(** ** A poll *)

Lemma yields_finally {A} (m : @async State A) (f : @async State unit) st (P Q : A → State → Prop) :
  yields m st P → (∀ x st', P x st' → yields f st' (λ _ st2, Q x st2)) → yields (finally m f) st Q.
Proof.
  intros Hm Hf. unfold finally. eapply yields_bind with (P := λ r st', ∃ x, r = inr x ∧ P x st').
  - apply yields_not_caught. eapply yields_bind; [exact Hm|]. intros x st' Hx. apply yields_ret. by exists x.
  - intros r st' (x & -> & Hx). eapply yields_bind; [by apply (Hf x)|]. intros u st2 HQ. by apply yields_ret.
Qed.

Lemma resolvePk_calm o busy st : at_ o busy st → yields (resolvePk src) st (λ x st', x = pk ∧ at_ o busy st').
Proof.
  intros Hat. pose proof Hat as (Ho & Hpk & Hb). unfold resolvePk. apply yields_read.
  assert (Hask : yields (let* answer := outside (browse src probe_params) in let pk := answer.2 in
      modify (with_pk (Some (table_signature src, pk))) ;; Ret pk) st (λ x st', x = pk ∧ at_ o busy st')).
  { eapply yields_quiet; [done|apply calm|]. intros a st' Ha (Ho' & _ & Hb'). apply yields_modify, yields_ret.
    split; [done|]. split_and!; [done| |done]. right. cbn. by rewrite Ha. }
  destruct Hpk as [->| ->]; [done|]. rewrite bool_decide_eq_true_2 by done. by apply yields_ret.
Qed.

Lemma adapt_calm idleMs had o busy st : at_ o busy st → yields (adapt idleMs had) st (λ _ st', at_ o busy st').
Proof.
  intros Hat. unfold adapt. apply yields_read. destruct (scheduledEvery st) as [every|]; [|by apply yields_ret].
  apply yields_read, yields_modify. destruct (_ =? _)%Z; [by apply yields_ret|]. unfold schedule.
  eapply yields_quiet_alone; [done|apply calm].
Qed.

Context (idleMs maxPerPoll : Z) (startFrom : start_from) (Htrigger : trigger b = Watch s idleMs startFrom maxPerPoll)
  (Hmax : (1 <= maxPerPoll)%Z) (HLmax : L = Nat.min (Z.to_nat maxPerPoll) 1000).

(** a poll comes to what its pages come to *)
Definition came (Q : nat → WatchCursor → Prop) (busy : bool) (st : State) : Prop :=
  ∃ k cursor, Q k cursor ∧ reached k cursor busy st.

Definition scan_comes (k : nat) (cursor : WatchCursor) (Q : nat → WatchCursor → Prop) : Prop :=
  ∀ seq st, reached k cursor true st →
    yields (scan_pages config b src job s SCAN_PAGES_PER_POLL false pk (Z.to_nat maxPerPoll) L cursor seq 0 0 0 "0") st
      (λ x st', ∃ d, x = Some d ∧ came Q true st').

Lemma came_at Q busy o st : (∃ k cursor t, Q k cursor ∧ good k cursor ∧ printed (cursor_value cursor) = Some t ∧
  o = {| delivered := take k rows; saved := t |}) → at_ o busy st → came Q busy st.
Proof. intros (k & cursor & t & HQ & Hg & Hp & ->) Hat. exists k, cursor. split; [done|]. split; [done|]. by exists t. Qed.

Lemma came_inv Q busy st : came Q busy st → ∃ o, at_ o busy st ∧ ∃ k cursor t, Q k cursor ∧ good k cursor ∧
  printed (cursor_value cursor) = Some t ∧ o = {| delivered := take k rows; saved := t |}.
Proof.
  intros (k & cursor & HQ & Hg & t & Hp & Hat). eexists. split; [exact Hat|]. by exists k, cursor, t.
Qed.

Lemma listen_calm j cursor k Q st :
  wjob j = job → scan_comes k cursor Q → reached k cursor true st →
  yields (listen config b src s idleMs maxPerPoll j cursor) st (λ _ st', came Q true st').
Proof.
  intros Hj Hscan (Hg & t & Hpt & Hat). unfold listen. rewrite Hj.
  eapply yields_bind; [by apply resolvePk_calm|]. intros x st1 [-> Hat1].
  eapply yields_told; [done|apply calm|]. intros st2 Hat2.
  apply yields_finally with (P := λ _ st', came Q true st').
  2: { intros _ st' (o & Hat' & Ho)%came_inv. eapply yields_mono; [eapply yields_told_alone; [done|apply calm]|].
       intros u st3 Hat3. by eapply came_at. }
  cbn [bind walks_by_cursor poll_limit]. rewrite <- HLmax.
  eapply yields_bind; [apply Hscan; split; [done|by exists t]|].
  intros x st3 (d & -> & (o & Hat' & Ho)%came_inv).
  eapply yields_mono; [by apply adapt_calm|]. intros u st4 Hat4. by eapply came_at.
Qed.

Lemma runPoll_calm cursor k Q st :
  scan_comes k cursor Q → reached k cursor true st → yields (runPoll config) st (λ _ st', came Q true st').
Proof.
  intros Hscan Hre. pose proof Hre as (Hg & t & Hpt & Hat). unfold runPoll. pose proof Hat as (Ho & _).
  destruct (calm_job _ _ _ calm (world st)) as (j & Hj & Hsaved & Hans). rewrite Ho in Hans, Hsaved.
  eapply yields_answered; [done..|]. intros st1 Hat1. pose proof Hat1 as (Ho1 & _).
  pose proof (calm_resolve _ _ _ calm (world st1)) as Hb. rewrite Ho1 in Hb.
  eapply yields_answered; [done..|]. intros st2 Hat2.
  rewrite (calm_enabled _ _ _ calm), Htrigger, (calm_source _ _ _ calm), Hsaved. cbn [saved].
  destruct (good_reads_back k cursor Hg) as (t' & Hp' & Hparse & Hval). assert (t' = t) as -> by congruence.
  rewrite Hparse. eapply yields_some; [exact Hval|]. eapply listen_calm; [done|exact Hscan|]. split; [done|]. by exists t.
Qed.

Lemma withLock_calm {A} name (m : @async State A) st (P : State → Prop) o :
  at_ o true st → (∀ st', at_ o true st' → yields m st' (λ _, P)) →
  (∀ st' w', obs w' = obs (world st') → P st' → P (in_world st' w')) →
  yields (withLock name m) st (λ _, P).
Proof.
  intros Hat Hm HP. unfold withLock. destruct (calm_lock _ _ _ calm name (world st)) as (won & w' & Hl' & Hwon & Hobs).
  unfold atomically. unfold yields. cbn [bind exec]. rewrite Hl'. 
  assert (Hat' : at_ o true (in_world st w')) by (destruct Hat as (Ho & ? & ?); split_and!; [cbn; by rewrite Hobs|done..]).
  destruct won as [[]|]; [| |].
  - apply yields_finally with (P := λ _ st', P st').
    + eapply yields_bind; [by apply Hm|]. intros x st' Hx. by apply yields_ret.
    + intros x st' Hx. unfold yields, told, modify. cbn [exec atomically]. eexists _, _. split; [reflexivity|].
      apply HP; [apply calm|done].
  - done.
  - eapply yields_bind; [by apply Hm|]. intros x st' Hx. by apply yields_ret.
Qed.

Lemma poll_calm bridgeId cursor k Q st :
  scan_comes k cursor Q → reached k cursor false st → yields (poll config bridgeId) st (λ _ st', came Q false st').
Proof.
  intros Hscan (Hg & t & Hpt & Hat). pose proof Hat as (Ho & Hpk & Hb). unfold poll. apply yields_read. rewrite Hb.
  apply yields_modify. assert (Hat1 : at_ {| delivered := take k rows; saved := t |} true (with_polling true st)) by done.
  apply yields_finally with (P := λ _ st', came Q true st').
  - apply yields_not_caught. eapply yields_bind with (P := λ _ st', came Q true st').
    + apply (withLock_calm _ _ _ _ _ Hat1).
      * intros st' Hat'. apply (runPoll_calm cursor k); [done|]. split; [done|]. by exists t.
      * intros st' w' Hw (o & (Ho' & ? & ?) & HQ)%came_inv. eapply came_at; [exact HQ|]. split_and!; [cbn; congruence|done..].
    + intros x st' Hx. by apply yields_ret.
  - intros x st' (o & (Ho' & Hpk' & _) & HQ)%came_inv.
    unfold yields, modify. cbn [exec atomically]. eexists _, _. split; [reflexivity|]. by eapply came_at.
Qed.

(** ** Poll after poll *)

Fixpoint polls (bridgeId : string) (n : nat) : @async State unit :=
  match n with
  | 0 => Ret tt
  | S n => poll config bridgeId ;; polls bridgeId n
  end.

Lemma polls_add bridgeId m n st st' :
  exec (polls bridgeId m) st = Some (inr tt, st') → exec (polls bridgeId (m + n)) st = exec (polls bridgeId n) st'.
Proof.
  revert st. induction m as [|m IH]; intros st; [by intros [= ->]|]. cbn [polls Nat.add]. rewrite !exec_bind.
  destruct (exec (poll config bridgeId) st) as [[[e|x] s1]|]; [done| |done]. apply IH.
Qed.

(** ** A window that does not fit: nothing behind it is ever delivered *)

Lemma watch_stuck bridgeId n cursor k w st :
  reached k cursor false st → starts cursor w → w + SCAN_PAGES_PER_POLL * L <= k →
  yields (polls bridgeId n) st (λ _ st', delivered (obs (world st')) = take k rows).
Proof.
  intros Hre Hst Hk. revert st Hre. induction n as [|n IH]; intros st Hre; cbn [polls].
  - apply yields_ret. destruct Hre as (_ & t & _ & (Ho & _)). by rewrite Ho.
  - eapply yields_bind; [apply (poll_calm bridgeId cursor k (λ k' c', k' = k ∧ c' = cursor)); [|done]|].
    + intros seq st' Hre'. eapply yields_mono; [apply (scan_pages_stuck _ cursor k w); [done|done|lia]|].
      intros x st2 [-> Hre2]. exists 0. split; [done|]. by exists k, cursor.
    + intros x st' (k' & c' & [-> ->] & Hre'). by apply IH.
Qed.

(** no window holds more rows than a poll can read *)
Context (windows_fit : ∀ w k, w < k → k <= N → within c lookback from upto rows w k → k - w < SCAN_PAGES_PER_POLL * L).

Lemma scan_moves k cursor : good k cursor → scan_comes k cursor (λ k' _, k <= k' ∧ (k < N → k < k')).
Proof.
  intros Hg seq st Hre. destruct (good_starts k cursor Hg) as (w & Hst & Hwk & HkN & Hin).
  eapply yields_mono; [apply (scan_pages_calm _ cursor k w); [done|done|lia]|].
  intros x st' (d & k' & cursor' & -> & Hkk & Hre' & Hmay). exists d. split; [done|]. exists k', cursor'.
  split; [|done]. split; [done|]. intros HkN'. apply Hmay; [|done]. split; [lia|]. rewrite Nat.add_0_r.
  destruct (decide (w < k)) as [Hlt|Hge]; [by apply windows_fit; auto|]. unfold SCAN_PAGES_PER_POLL. lia.
Qed.

Lemma polls_calm bridgeId n cursor k st :
  reached k cursor false st → N <= k + n →
  yields (polls bridgeId n) st (λ _ st', delivered (obs (world st')) = rows).
Proof.
  revert cursor k st. induction n as [|n IH]; intros cursor k st Hre Hn; cbn [polls].
  - apply yields_ret. destruct Hre as (_ & t & _ & (Ho & _)). rewrite Ho. cbn. rewrite take_ge; [done|lia].
  - eapply yields_bind; [apply (poll_calm bridgeId cursor k); [apply scan_moves; by destruct Hre|done]|].
    intros x st' (k' & cursor' & [Hk Hm] & Hre'). destruct (decide (k < N)) as [HkN|HkN].
    + apply (IH cursor' k'); [done|]. pose proof (Hm HkN). lia.
    + apply (IH cursor' k'); [done|lia].
Qed.

(** C27. A watch by timestamp delivers. It starts from an empty cursor, over a table
    that holds still, whose rows are all different and have each a key and a timestamp
    that tells its instant; no read, delivery or store is refused, and the wall clock is
    not set back; and from any row on, fewer rows fall into the watch's window than a poll
    can read, which is 50 full pages (at exactly that many it can stall for ever:
    [watch_stuck]). Then every row is delivered after at most as many polls as there are
    rows, once and in the order of their timestamps, and nothing more however long the
    watch goes on. *)
Theorem watch_delivers_every_row bridgeId n st :
  N <= n → at_ {| delivered := []; saved := saved (obs (world st)) |} false st →
  printed (cursor_value (emptyCursor s)) = Some (saved (obs (world st))) →
  ∃ st', exec (polls bridgeId n) st = Some (inr tt, st') ∧ delivered (obs (world st')) = rows.
Proof.
  intros Hn Hat Hp. destruct (polls_calm bridgeId n (emptyCursor s) 0 st) as ([] & st' & Hx & Hd); [|lia|by exists st'].
  split; [apply good_empty|]. by eexists.
Qed.
End live.
