(* ===== verification/WatchStall.v ===== *)
(** Two tables that are watched and hold still: one whose rows are all delivered,
    a witness of the theorem of [WatchLive], and one with more rows in the window of
    the watch than a poll can read, which is never read to its end. *)
From Stdlib Require Import Sorted.
From S2P Require Import Prelude JsText JsNumber JsDate JsIso JsValue JsJson.
From S2P Require Import BridgeConfig TypeMap Bridge RowCompare Async CdcState TableReader.
From S2P Require Import Watch WatchOnce WatchStill WatchPages WatchPoll WatchLive.

#[local] Existing Instance WatchOnce.sample_print.
#[local] Existing Instance WatchOnce.clock_host.

Definition users : TableSource :=
  {| connectionId := "pg"; database := None; schema := Some "public"; table := "users"; filters := None; sort := None |}.

(** a watch of a table by its column [at], [maxPerPoll] rows at a time *)
Definition watch_bridge (lookback maxPerPoll : Z) : BridgeInput :=
  {| bname := "users"; source := FromTable users;
     destination := Http {| url := "https://example.org/in"; method := POST; headers := None;
                            auth := NoAuth; idempotency := false |};
     transform := {| payload := {| Template.template := "{{$row}}"; Template.fields := None; Template.rename := None;
                                   Template.wrapKey := None |};
                     columns := None |};
     delivery := {| batchSize := 1; BridgeConfig.maxAttempts := 3; backoffMs := 500; backoffMaxMs := 30000; minDelayMs := 0;
                    timeoutMs := 15000; pageSize := 200; onError := abort_on_error; onSchemaChange := schema_stop |};
     trigger := BridgeConfig.Watch (Timestamp "at" lookback) 5000 from_beginning maxPerPoll;
     benabled := true |}.

Definition watch_config : RuntimeConfig :=
  {| cdcBatchSize := 100000; cdcBatchBytes := 67108864; cdcSpool := false; cdcSpoolMax := 1000;
     maxConsecutiveFailures := 5; deadLetterMaxRows := 100 |}.

(** everything answers, and the table holds these rows *)
#[local] Instance still_world (b : BridgeInput) (rows : list obj) : Watched Seen := {|
  running_job w := (inr (Some {| wjob := "job"; wcursorJson := saved w; woffset := 0 |}), w);
  active_job w := (inr false, w);
  latest_job w := (inr None, w);
  resume_job _ _ w := (inr tt, w);
  create_job _ _ w := (inr "job", w);
  config_snapshot w := (inr "{}", w);
  abort_job _ w := w;
  stoppable_job w := (inr None, w);
  forget_echoes w := w;
  resolve w := (inr b, w);
  finalize _ _ _ w := (inr tt, w);
  browse _ p w := (inr ({| prows := take (blimit p) (drop (boffset p) (WatchPages.answer "at" rows (bfilters p)));
                           phasMore := false; pnextCursor := None |}, ["id"]), w);
  cursor_paging _ w := (inr false, w);
  recognise _ _ _ w := (inr {| echo := false; eorigins := [] |}, w);
  route_drops _ _ w := (inr false, w);
  drift_check _ w := (inr None, w);
  deliver _ r _ _ _ w :=
    (inr {| success := true; oattempts := 1; oerror := None; osucceededTargets := None |},
     {| delivered := delivered w ++ [cols r]; saved := saved w |});
  recordDelivery _ _ _ _ w := (inr tt, w);
  pendingRows w := (inr 0, w);
  park _ _ w := (inr tt, w);
  save_offset _ _ w := (inr tt, w);
  save_cursor _ t _ w := (inr tt, {| delivered := delivered w; saved := t |});
  register _ w := w;
  release _ w := w;
  aborted _ := false;
  pause _ w := w;
  upsert_scheduler _ w := (inr tt, w);
  queue_ready w := (inr tt, w);
  take_lock _ w := (Some true, w);
  drop_lock _ w := w;
  remove_scheduler w := w;
  clock _ := 0%Z;
  sha256 t := t
|}.

Definition new_state (rows : list obj) (lookback : Z) : PollState (W := Seen) :=
  {| world := {| delivered := [];
                 saved := default EmptyString (printed (cursor_value (emptyCursor (Timestamp "at" lookback)))) |};
     polling := false; emptyStreak := None; scheduledEvery := None; pkCache := None; signature := None |}.

(** ** One that is read to its end *)

Definition few : list obj := [row_at "a" 6; row_at "b" 7; row_at "c" 8].
Definition few_bridge : BridgeInput := watch_bridge 5 1.

Lemma few_tells : tells_rows "at" 5 ["id"] 0 20 (λ r, r ∈ few).
Proof.
  split.
  - intros r Hr. each_row Hr; [exists 6%Z|exists 7%Z|exists 8%Z]; by split.
  - intros r Hr. each_row Hr; eexists; vm_compute; reflexivity.
  - intros r s Hr Hs. each_row Hr; vm_compute in Hs; discriminate Hs.
Qed.

Lemma quiet_id {R} (f : Seen → (string + R) * Seen) x (P : R → Prop) : (∀ w, f w = (inr x, w)) → P x → quiet id f P.
Proof. intros Hf Hx w. exists x. split; [done|]. exists w. by rewrite Hf. Qed.

Lemma calm_still b rows src :
  benabled b = true → source b = FromTable src → filters src = None →
  Calm (Watched0 := still_world b rows) id "at" ["id"] rows b src "job".
Proof.
  intros Hb Hs Hf. split; try done; try (intros; eapply quiet_id; done).
  - intros w. eexists. split_and!; [| |by eexists]; done.
  - intros w. by eexists.
  - intros fs limit offset w. eexists. split; [|by eexists]. cbn. by rewrite Hf.
  - intros r now seq idem w. eexists. split; [|by eexists]. done.
  - intros t n w. by eexists.
  - intros name w. by eexists _, _.
Qed.

Lemma few_sorted : StronglySorted (not_after "at" 5 0 20) few.
Proof.
  unfold few. repeat constructor; intros t t' [_ Ht _] [_ Ht' _]; vm_compute in Ht, Ht';
    injection Ht as <-; injection Ht' as <-; done.
Qed.

Definition few_keys : list string := default [] (all_some ((λ r, emittedKey r ["id"] "at") <$> few)).

Lemma few_keyed : keys_of "at" ["id"] few few_keys.
Proof. repeat constructor; vm_compute; reflexivity. Qed.

Lemma few_apart : NoDup few_keys.
Proof. apply (bool_decide_eq_true_1 (NoDup _)). vm_compute. reflexivity. Qed.

Lemma few_fits w k : w < k → k <= 3 → within "at" 5 0 20 few w k → k - w < SCAN_PAGES_PER_POLL * 1.
Proof. unfold SCAN_PAGES_PER_POLL. lia. Qed.

Lemma watch_delivers_every_row_witness :
  ∃ st, exec (polls (Watched0 := still_world few_bridge few) watch_config "b" 3) (new_state few 5) = Some (inr tt, st) ∧
    delivered (id (world st)) = few.
Proof.
  refine (watch_delivers_every_row (Watched0 := still_world few_bridge few) watch_config id clock_host_laws "at" 5 _
    ["id"] 0 20 _ _ sample_clock few few_tells few_sorted few_keys few_keyed few_apart
    few_bridge users "job" (calm_still few_bridge few users eq_refl eq_refl eq_refl) 1 _ 5000 1 from_beginning eq_refl
    _ eq_refl few_fits "b" 3 (new_state few 5) _ _ _); [done..|lia|done|cbn; lia| |].
  - split_and!; [done|by left|done].
  - vm_compute. reflexivity.
Defined.

(** ** One that never is *)

Definition digits_of (n : nat) : string :=
  String (ascii_of_nat (48 + n / 10)) (String (ascii_of_nat (48 + n mod 10)) EmptyString).

(** rows that were changed at one instant, as a bulk load leaves them *)
Definition many : list obj := (λ i, row_at (digits_of i) 6) <$> List.seq 0 51.

Definition many_keys : list string := default [] (all_some ((λ r, emittedKey r ["id"] "at") <$> many)).

(** one row at a time *)
Definition many_bridge : BridgeInput := watch_bridge 0 1.

Lemma many_timed r : r ∈ many → timed "at" 0 0 20 r 6.
Proof.
  intros [i [-> _]]%list_elem_of_fmap_1. by split.
Qed.

Lemma many_tells : tells_rows "at" 0 ["id"] 0 20 (λ r, r ∈ many).
Proof.
  split.
  - intros r Hr. exists 6%Z. by apply many_timed.
  - intros r [i [-> _]]%list_elem_of_fmap_1. by eexists.
  - intros r t [i [-> _]]%list_elem_of_fmap_1. done.
Qed.

Lemma many_keyed : keys_of "at" ["id"] many many_keys.
Proof. apply all_some_inv. vm_compute. reflexivity. Qed.

Lemma many_apart : NoDup many_keys.
Proof. apply (bool_decide_eq_true_1 (NoDup _)). vm_compute. reflexivity. Qed.

Lemma many_sorted : StronglySorted (not_after "at" 0 0 20) many.
Proof.
  assert (Hall : ∀ l, l ⊆ many → StronglySorted (not_after "at" 0 0 20) l); [|by apply Hall].
  assert (Hone : ∀ r t, r ∈ many → timed "at" 0 0 20 r t → t = 6%Z).
  { intros r t Hr [_ Htr _]. destruct (many_timed r Hr) as [_ H6 _]. congruence. }
  induction l as [|r l IH]; intros Hl; constructor; [apply IH; set_solver|].
  apply Forall_forall. intros r' Hr' t t' Ht Ht'. rewrite (Hone r t), (Hone r' t'); [done|set_solver|done|set_solver|done].
Qed.

(** the cursor when the first fifty of them have been delivered *)
Definition many_cursor : WatchCursor := TimestampCursor (VStr (toISOString 6)) (take 50 many_keys) (Some "at").

Definition stalled : PollState (W := Seen) :=
  {| world := {| delivered := take 50 many; saved := default EmptyString (printed (cursor_value many_cursor)) |};
     polling := false; emptyStreak := None; scheduledEvery := None; pkCache := None; signature := None |}.

Lemma many_good : good "at" 0 ["id"] 0 20 many 50 many_cursor.
Proof.
  assert (Hk : keys_of "at" ["id"] (take 50 many) (take 50 many_keys)) by apply Forall2_take, many_keyed.
  assert (Hin : ∀ r, r ∈ take 50 many → r ∈ many).
  { intros r Hr. eapply elem_of_submseteq; [exact Hr|apply sublist_submseteq, sublist_take]. }
  eexists _, _. split; [reflexivity|]. split_and!.
  - split; [intros k; by apply (keys_elem _ _ _ _ k Hk)|]. right. exists 6%Z. split_and!; [done|done|unfold in_period; lia| |].
    + intros r t Hr [_ Htr _]. destruct (many_timed r (Hin r Hr)) as [_ H6 _]. assert (t = 6%Z) as -> by congruence. done.
    + intros r t k Hr _ Hkr _. apply (keys_elem _ _ _ _ k Hk). by exists r.
  - eapply sublist_NoDup; [apply many_apart|apply sublist_take].
  - cbn. lia.
  - right. exists (toISOString 6), 6%Z, (row_at "00" 6). split_and!; [done|done|by left|by split].
Qed.

(** A bulk load of more rows than the pages of one poll hold stalls a watch: the row
    behind them is never delivered, however long the watch goes on, though every
    poll says that it will continue in the next *)
Theorem bulk_load_stalls n :
  ∃ st, exec (polls (Watched0 := still_world many_bridge many) watch_config "b" n) stalled = Some (inr tt, st) ∧
    delivered (world st) = take 50 many ∧ List.length many = 51.
Proof.
  assert (Hst : starts "at" 0 ["id"] 0 20 many many_cursor 0).
  { eexists. split; [reflexivity|]. split; [vm_compute; reflexivity|]. apply Forall_forall. intros r Hr.
    eexists _, _. split; [reflexivity|]. repeat constructor. intros m t Hm [_ Htr _].
    destruct (many_timed r Hr) as [_ H6 _]. change (tsNorm (VStr (toISOString 6)) = Millis m) in Hm.
    assert (tsNorm (VStr (toISOString 6)) = Millis 6) by (vm_compute; reflexivity). assert (m = 6%Z) by congruence. assert (t = 6%Z) by congruence. lia. }
  destruct (watch_stuck (Watched0 := still_world many_bridge many) watch_config id clock_host_laws "at" 0 ltac:(lia) ["id"] 0 20
    ltac:(done) ltac:(done) sample_clock many many_tells many_keys many_keyed many_apart many_bridge users "job"
    (calm_still many_bridge many users eq_refl eq_refl eq_refl) 1 ltac:(lia) 5000 1 from_beginning eq_refl eq_refl
    "b" n many_cursor 50 0 stalled) as ([] & st & Hx & Hd).
  - split; [apply many_good|]. eexists. split; [vm_compute; reflexivity|]. split_and!; [|by left|done]. vm_compute. reflexivity.
  - done.
  - cbn. lia.
  - exists st. split; [exact Hx|]. by split.
Qed.
