(* ===== verification/Replay.v ===== *)
(** Replays: a job reads its source from a checkpoint, delivers it in batches and
    records each ([apps/api/src/bridges/bridge-job.processor.ts], and what it calls of
    [bridge-job.service.ts]). One job, its row and its cells; what the calls outside
    answer is given by the number of the call ([Answers]). *)
From stdpp Require Import sorting.
From S2P Require Import Prelude JsText JsNumber JsDate JsValue JsJson.
From S2P Require Import BridgeConfig TypeMap Bridge Async CdcState TableReader Ledger.
From S2P Require WatchPoll.

Local Open Scope async_scope.

(** ** The job *)

Inductive run_status :=
| run_draft | run_queued | run_running | run_canceling | run_paused
| run_completed | run_failed | run_canceled | run_interrupted.

#[export] Instance run_status_eq_dec : EqDecision run_status.
Proof. solve_decision. Defined.

Definition ACTIVE : list run_status := [run_queued; run_running; run_canceling].
Definition TERMINAL : list run_status := [run_completed; run_failed; run_canceled; run_interrupted].

(** a cell with what a retry reads of it: the targets that took the batch, and what
    was captured of its body *)
Record ReplayCell := {
  rcell : DeliveryRow;
  rtargets : option (list string);
  rbody : option string;
  rtruncated : bool;
  rhad : nat  (* [rowIndex] *)
}.

(** what a sink answers, with what it captured; [None]: it does not say *)
Record Sent := {
  soutcome : DeliveryOutcome;
  sbody : option string;
  struncated : option bool
}.

(** what the destination is asked: a batch of the source, or what was captured of one *)
Inductive Sending :=
| Streamed (q start : nat) (rows : list obj) (skip : list string) (key : string)
| Resent (q : nat) (body : option jsval) (skip : list string) (key : option string).

Definition sequence_of (x : Sending) : nat :=
  match x with Streamed q _ _ _ _ => q | Resent q _ _ _ => q end.

Inductive mode := stream_mode | resend_mode.

Record ReplayJob := {
  jstatus : run_status;
  jfailure : option string;
  cursorOffset : nat;
  cursorJson : option string;
  snapshot : BridgeInput;
  totalCount : option nat;
  jcounters : Counters;
  cells : gmap nat ReplayCell;
  notice : option string;  (* the cell before any row *)
  parked : gset nat;  (* the sequences the dead-letter queue holds rows of *)
  aborted : bool;
  sendings : list (Sending * bool);  (* and whether the destination took it *)
  rtick : nat
}.

(** ** What is outside *)

Record QueryResult := { qrows : list obj; qtruncated : bool }.

Class Answers := {
  db_refuses : nat → option string;
  sink_answers : nat → BridgeInput → Sending → string + Sent;
  drift_answers : nat → BridgeInput → string + option string;
  drift_watches : nat → BridgeInput → string + bool;
  probe_answers : nat → TableSource → string + list string;
  order_answers : nat → BridgeInput → string + TableOrder;
  (* what a reading hands over; pages are read as they are asked for *)
  reader_answers : nat → BridgeInput → TableOrder → nat → option KeysetCheckpoint → reading;
  query_answers : nat → QuerySource → string + QueryResult;
  current_bridge : nat → string + BridgeInput;  (* [store.resolve], [store.snapshotJson] *)
  clock_at : nat → Z
}.

Section replay.
Context `{JsHost} `{JsPrint} `{!Answers} (jobId : string).

Abbreviation M A := (@async ReplayJob A).

Definition ticked (s : ReplayJob) : ReplayJob :=
  {| jstatus := jstatus s; jfailure := jfailure s; cursorOffset := cursorOffset s; cursorJson := cursorJson s;
     snapshot := snapshot s; totalCount := totalCount s; jcounters := jcounters s; cells := cells s;
     notice := notice s; parked := parked s; aborted := aborted s; sendings := sendings s; rtick := S (rtick s) |}.

Definition with_status (st : run_status) (e : option string) (s : ReplayJob) : ReplayJob :=
  {| jstatus := st; jfailure := e; cursorOffset := cursorOffset s; cursorJson := cursorJson s;
     snapshot := snapshot s; totalCount := totalCount s; jcounters := jcounters s; cells := cells s;
     notice := notice s; parked := parked s; aborted := aborted s; sendings := sendings s; rtick := rtick s |}.

Definition with_cursor (o : nat) (c : option string) (s : ReplayJob) : ReplayJob :=
  {| jstatus := jstatus s; jfailure := jfailure s; cursorOffset := o; cursorJson := c;
     snapshot := snapshot s; totalCount := totalCount s; jcounters := jcounters s; cells := cells s;
     notice := notice s; parked := parked s; aborted := aborted s; sendings := sendings s; rtick := rtick s |}.

Definition with_snapshot (b : BridgeInput) (s : ReplayJob) : ReplayJob :=
  {| jstatus := jstatus s; jfailure := jfailure s; cursorOffset := cursorOffset s; cursorJson := cursorJson s;
     snapshot := b; totalCount := totalCount s; jcounters := jcounters s; cells := cells s;
     notice := notice s; parked := parked s; aborted := aborted s; sendings := sendings s; rtick := rtick s |}.

Definition with_plan (total : option nat) (n : option string) (s : ReplayJob) : ReplayJob :=
  {| jstatus := jstatus s; jfailure := jfailure s; cursorOffset := cursorOffset s; cursorJson := cursorJson s;
     snapshot := snapshot s; totalCount := total; jcounters := jcounters s; cells := cells s;
     notice := n; parked := parked s; aborted := aborted s; sendings := sendings s; rtick := rtick s |}.

Definition with_cells (c : Counters) (m : gmap nat ReplayCell) (s : ReplayJob) : ReplayJob :=
  {| jstatus := jstatus s; jfailure := jfailure s; cursorOffset := cursorOffset s; cursorJson := cursorJson s;
     snapshot := snapshot s; totalCount := totalCount s; jcounters := c; cells := m;
     notice := notice s; parked := parked s; aborted := aborted s; sendings := sendings s; rtick := rtick s |}.

Definition with_signal (a : bool) (s : ReplayJob) : ReplayJob :=
  {| jstatus := jstatus s; jfailure := jfailure s; cursorOffset := cursorOffset s; cursorJson := cursorJson s;
     snapshot := snapshot s; totalCount := totalCount s; jcounters := jcounters s; cells := cells s;
     notice := notice s; parked := parked s; aborted := a; sendings := sendings s; rtick := rtick s |}.

Definition with_sending (x : Sending) (taken : bool) (s : ReplayJob) : ReplayJob :=
  {| jstatus := jstatus s; jfailure := jfailure s; cursorOffset := cursorOffset s; cursorJson := cursorJson s;
     snapshot := snapshot s; totalCount := totalCount s; jcounters := jcounters s; cells := cells s;
     notice := notice s; parked := parked s; aborted := aborted s; sendings := sendings s ++ [(x, taken)];
     rtick := rtick s |}.

(** a call of the metadata store: refused, or carried out *)
Definition store {R} (f : ReplayJob → R * ReplayJob) : M R :=
  call (λ s, match db_refuses (rtick s) with
             | Some e => (inl e, ticked s)
             | None => let (r, s') := f (ticked s) in (inr r, s')
             end).

(** a call of something that keeps nothing of the job *)
Definition ask {R} (f : nat → string + R) : M R := call (λ s, (f (rtick s), ticked s)).

Definition look {R} (f : ReplayJob → R) : M R := store (λ s, (f s, s)).
Definition write (f : ReplayJob → ReplayJob) : M unit := store (λ s, (tt, f s)).

(** ** The calls of the job's service *)

Definition getJobRow : M ReplayJob := look id.

Definition cancel_asked (s : ReplayJob) : bool := bool_decide (jstatus s ∈ [run_canceling; run_canceled]).
Definition cancelRequested : M bool := look cancel_asked.
Definition markRunning : M unit := write (λ s, with_status run_running (jfailure s) s).
Definition setTotal (total : option nat) : M unit := write (λ s, with_plan total (notice s) s).
Definition recordNotice (message : string) : M unit := write (λ s, with_plan (totalCount s) (Some message) s).
Definition finalize (st : run_status) (e : option string) : M unit := write (with_status st e).

Definition in_status (sts : list delivery_status) (s : ReplayJob) : gset nat :=
  dom (filter (λ '(_, c), dstatus (rcell c) ∈ sts) (cells s)).

Definition settledSequences : M (gset nat) := look (in_status [delivered_ok; delivered_skipped]).
Definition skippedSequences : M (gset nat) := look (in_status [delivered_skipped]).

(** [succeededTargetsJson] of a failed cell, where it names any *)
Definition failed_targets (c : ReplayCell) : option (list string) :=
  if decide (dstatus (rcell c) = delivered_failed)
  then match rtargets c with Some ((_ :: _) as ts) => Some ts | _ => None end
  else None.

Definition succeededTargetsBySequence : M (gmap nat (list string)) :=
  look (R:=gmap nat (list string)) (λ s, omap failed_targets (cells s)).

(** [undefined] keeps what is stored of the targets and the capture; no target is
    stored as none *)
Definition recorded_cell (old : option ReplayCell) (start rowCount : nat) (keys : option (list jsval)) (x : Sent)
    : ReplayCell :=
  {| rcell := delivery_row (rcell <$> old) rowCount keys (soutcome x);
     rtargets := match osucceededTargets (soutcome x) with
                 | Some [] => None
                 | Some ts => Some ts
                 | None => c ← old; rtargets c
                 end;
     rbody := sbody x;
     rtruncated := default (default false (rtruncated <$> old)) (struncated x);
     rhad := match old with Some c => rhad c | None => start end |}.

Definition recordDelivery (q start rowCount : nat) (keys : option (list jsval)) (x : Sent) : M unit :=
  let* existing := look (λ s, cells s !! q) in
  write (λ s, with_cells (counted (rcell <$> existing) rowCount (soutcome x) (jcounters s))
                (<[q := recorded_cell (cells s !! q) start rowCount keys x]> (cells s)) s).

(** ** The checkpoint *)

Definition keyset_value (k : KeysetCheckpoint) : jsval :=
  VObj [("keyset", VObj [("column", VStr (kcolumn k)); ("value", kvalue k)])].

Definition parseKeysetCheckpoint (json : option string) : option KeysetCheckpoint :=
  match json with
  | None => None
  | Some text =>
      if bool_decide (text = "") then None else
      match json_parse text with
      | None | Some VNull => None
      | Some v =>
          let k := property v "keyset" in
          if truthy k then
            match property k "column" with
            | VStr c => Some {| kcolumn := c; kvalue := property k "value" |}
            | _ => None
            end
          else None
      end
  end.

(** without a key the stored one is left as it is; one that JSON cannot hold throws *)
Definition setCursor (o : nat) (k : option KeysetCheckpoint) : M unit :=
  match k with
  | None => write (λ s, with_cursor o (cursorJson s) s)
  | Some k =>
      match stringify (keyset_value k) with
      | JText t => write (with_cursor o (Some t))
      | _ => Throw "Do not know how to serialize a BigInt"
      end
  end.

Definition cursor_state (json : option string) : obj :=
  match json with
  | None => []
  | Some text => match json_parse text with Some (VObj o) => o | _ => [] end
  end.

Definition streamed_value (json : option string) : jsval := VObj (obj_define (cursor_state json) "streamed" (VBool true)).

Definition streamed (json : option string) : bool :=
  match json with
  | None => false
  | Some text => match json_parse text with Some v => strict_eq (property v "streamed") (VBool true) | None => false end
  end.

Definition streamedToEnd : M bool := look (λ s, streamed (cursorJson s)).

(** the read, and the write *)
Definition markStreamed : M unit :=
  let* json := look cursorJson in
  match stringify (streamed_value json) with
  | JText t => write (λ s, with_cursor (cursorOffset s) (Some t) s)
  | _ => Throw "Do not know how to serialize a BigInt"
  end.

(** ** One attempt ([BridgeJobProcessor]) *)

(** the variables of the loop *)
Record Progress := {
  done_ : gset nat;
  lastControlCheck : Z;
  buffer : list obj;
  bufferStart : nat;
  lastKeyset : option KeysetCheckpoint;
  columnSignature : option string
}.

Definition checked (d : gset nat) (t : Z) (l : Progress) : Progress :=
  {| done_ := d; lastControlCheck := t; buffer := buffer l; bufferStart := bufferStart l;
     lastKeyset := lastKeyset l; columnSignature := columnSignature l |}.
Definition signed (sig : string) (l : Progress) : Progress :=
  {| done_ := done_ l; lastControlCheck := lastControlCheck l; buffer := buffer l; bufferStart := bufferStart l;
     lastKeyset := lastKeyset l; columnSignature := Some sig |}.
Definition pushed (it : TableRow) (l : Progress) : Progress :=
  {| done_ := done_ l; lastControlCheck := lastControlCheck l; buffer := buffer l ++ [trow it];
     bufferStart := bufferStart l; lastKeyset := match tkeyset it with Some k => Some k | None => lastKeyset l end;
     columnSignature := columnSignature l |}.
Definition emptied (start : nat) (l : Progress) : Progress :=
  {| done_ := done_ l; lastControlCheck := lastControlCheck l; buffer := []; bufferStart := start;
     lastKeyset := lastKeyset l; columnSignature := columnSignature l |}.

(** the abort signal at once, the store every 750 ms *)
Definition stopRequested (l : Progress) : M (bool * Progress) :=
  let* a := read aborted in
  if a : bool then Ret (true, l) else
  let* now := atomically (λ s, (clock_at (rtick s), ticked s)) in
  if (now - lastControlCheck l <? 750)%Z then Ret (false, l) else
  let* cancel := cancelRequested in
  let* skips := skippedSequences in
  Ret (cancel, checked (done_ l ∪ skips) now l).

Definition STOPPED : string := "Stopped after a failed delivery (onError=abort).".

Section attempt.
Context (bridge : BridgeInput).

Definition batch_size : nat := Z.to_nat (batchSize (delivery bridge)).
Definition idempotency_key (q : nat) : string := jobId +:+ ":" +:+ pretty q.

(** [sink.deliver], and what becomes of what was sent *)
Definition deliver (x : Sending) : M Sent :=
  call (λ s, let r := sink_answers (rtick s) bridge x in
             (r, with_sending x (match r with inr o => success (soutcome o) | inl _ => false end) (ticked s))).

(** one batch: [true] if the job is to stop *)
Definition flush (rows : list obj) (start : nat) (done : gset nat) (prior : gmap nat (list string)) (pk : option string)
    : M bool :=
  let q := start / batch_size in
  if decide (q ∈ done) then Ret false else
  let* x := deliver (Streamed q start rows (default [] (prior !! q)) (idempotency_key q)) in
  let* _ := recordDelivery q start (List.length rows) ((λ c, (λ r, obj_get r c) <$> rows) <$> pk) x in
  Ret (negb (success (soutcome x)) && bool_decide (onError (delivery bridge) = abort_on_error)).

(** a page with other columns than the page before is looked into *)
Definition columns_checked (watches : bool) (it : TableRow) (l : Progress) : M (option string * Progress) :=
  if watches then
    let sig := WatchPoll.column_signature (trow it) in
    if bool_decide (columnSignature l = None) || bool_decide (columnSignature l = Some sig)
    then Ret (None, signed sig l)
    else
      let* stop := ask (λ t, drift_answers t bridge) in
      Ret (stop, signed sig l)
  else Ret (None, l).

Context (watches : bool) (prior : gmap nat (list string)) (pk : option string).

(** the rows of the source, one by one; [None]: the run has ended *)
Fixpoint each_row (items : list TableRow) (l : Progress) : M (option Progress) :=
  match items with
  | [] => Ret (Some l)
  | it :: items =>
      let* c := stopRequested l in
      if c.1 then finalize run_canceled None;; Ret None else
      let* d := columns_checked watches it c.2 in
      match d.1 with
      | Some why => finalize run_failed (Some why);; Ret None
      | None =>
          let l := pushed it d.2 in
          if List.length (buffer l) =? batch_size then
            let* stop := flush (buffer l) (bufferStart l) (done_ l) prior pk in
            setCursor (S (tindex it)) (lastKeyset l);;
            (if stop : bool then finalize run_failed (Some STOPPED);; Ret None
             else each_row items (emptied (S (tindex it)) l))
          else each_row items l
      end
  end.

(** the end of the source, or the error that ended the reading *)
Definition after_rows (problem : option string) (l : Progress) : M unit :=
  match problem with
  | Some e => Throw e
  | None =>
      let finish (l : Progress) : M unit :=
        let* c := stopRequested l in
        if c.1 then finalize run_canceled None else markStreamed;; finalize run_completed None in
      match buffer l with
      | [] => finish l
      | rows =>
          let* c := stopRequested l in
          if c.1 then finalize run_canceled None else
          let* stop := flush rows (bufferStart l) (done_ c.2) prior pk in
          if stop : bool then finalize run_failed (Some STOPPED) else finish c.2
      end
  end.

Definition CAPPED : string := "Query result was capped".

(** [streamRows]: a table as the reader reads it, or the whole of a query *)
Definition streamRows (startOffset : nat) (resumeKey : option KeysetCheckpoint) : M reading :=
  match source bridge with
  | FromTable _ =>
      let* order := ask (λ t, order_answers t bridge) in
      setTotal (ototal order);;
      match owarning order with Some w => recordNotice w | None => Ret tt end;;
      read (λ s, reader_answers (rtick s) bridge order startOffset resumeKey)
  | FromQuery q =>
      let* result := ask (λ t, query_answers t q) in
      if qtruncated result then Throw CAPPED else
      setTotal (Some (List.length (qrows result)));;
      Ret (numbered startOffset (λ _, None) (drop startOffset (qrows result)), None)
  end.

(** what is inside of the [try] *)
Definition stream_all (startOffset : nat) (resumeKey : option KeysetCheckpoint) (done : gset nat) : M unit :=
  let* r := streamRows startOffset resumeKey in
  let* l := each_row r.1 {| done_ := done; lastControlCheck := 0; buffer := []; bufferStart := startOffset;
                            lastKeyset := None; columnSignature := None |} in
  match l with None => Ret tt | Some l => after_rows r.2 l end.
End attempt.

Definition resolvePk (bridge : BridgeInput) : M (option string) :=
  match source bridge with
  | FromTable t =>
      let* pk := ask (λ n, probe_answers n t) in
      Ret match pk with [c] => Some c | _ => None end
  | FromQuery _ => Ret None
  end.

Definition execute (startOffset : nat) (resumeKey : option KeysetCheckpoint) (bridge : BridgeInput) : M unit :=
  markRunning;;
  let* stop := ask (λ t, drift_answers t bridge) in
  match stop with
  | Some why => finalize run_failed (Some why)
  | None =>
      let* pk := resolvePk bridge in
      let* done := settledSequences in
      let* prior := succeededTargetsBySequence in
      let* watches := ask (λ t, drift_watches t bridge) in
      catch (stream_all bridge watches prior pk startOffset resumeKey done)
        (λ e, let* a := read aborted in
              let* c := (if a : bool then Ret true else cancelRequested) in
              if c : bool then finalize run_canceled None else finalize run_failed (Some e))
  end.

(** ** Sending again what was captured ([BridgeJobService.executeResend]) *)

Definition refused_truncated : string := "The captured payload was truncated at the storage cap".
Definition refused_empty : string := "No rows could be recovered from the captured payload".

(** the delivery keeps its status and what was captured; only the reason changes *)
Definition refuse (c : ReplayCell) (why : string) : Sent :=
  {| soutcome := {| success := false; oattempts := dattempts (rcell c); oerror := Some why; osucceededTargets := None |};
     sbody := rbody c; struncated := None |}.

Definition captured (c : ReplayCell) : option jsval :=
  (λ t, default (VStr t) (json_parse t)) <$> (match rbody c with Some "" | None => None | t => t end).

(** what of a captured body are rows *)
Definition captured_rows (body : option jsval) : list jsval :=
  filter (λ v, match v with VObj _ | VArr _ => true | _ => false end = true)
    match body with Some (VArr l) => l | Some v => [v] | None => [] end.

Definition resendDelivery (bridge : BridgeInput) (q : nat) (c : ReplayCell) : M Sent :=
  let* x :=
    (if rtruncated c then Ret (refuse c refused_truncated) else
     match destination bridge with
     | Database _ =>
         let rows := captured_rows (captured c) in
         if bool_decide (rows = []) && (0 <? drowCount (rcell c)) then Ret (refuse c refused_empty)
         else deliver bridge (Resent q (Some (VArr rows)) (default [] (rtargets c)) None)
     | Http h =>
         deliver bridge (Resent q (captured c) [] (if idempotency h then Some (idempotency_key q) else None))
     end) in
  recordDelivery q (rhad c) (drowCount (rcell c)) (drowKeys (rcell c)) x;;
  Ret x.

Inductive control := go_on | canceled_ | detached.

Definition resend_control (last : Z) : M (control * Z) :=
  let* a := read aborted in
  if a : bool then Ret (canceled_, last) else
  let* now := atomically (λ s, (clock_at (rtick s), ticked s)) in
  if (now - last <? 750)%Z then Ret (go_on, last) else
  let* st := look jstatus in
  Ret (if decide (st ∈ [run_canceling; run_canceled]) then canceled_
       else if decide (st = run_running) then go_on else detached, now).

Definition is_failed (c : ReplayCell) : bool := bool_decide (dstatus (rcell c) = delivered_failed).

(** the failed deliveries whose rows no dead letter holds, in their order *)
Definition resendable (s : ReplayJob) : list (nat * ReplayCell) :=
  take 2000 (omap (λ q, match cells s !! q with
                        | Some c => if is_failed c && bool_decide (q ∉ parked s) then Some (q, c) else None
                        | None => None
                        end)
               (merge_sort Nat.le (elements (dom (cells s))))).

Definition failed_left (s : ReplayJob) : nat := size (filter (λ '(_, c), is_failed c = true) (cells s)).

(** [true]: it was stopped on the way *)
Fixpoint resend_each (bridge : BridgeInput) (ds : list (nat * ReplayCell)) (last : Z) : M bool :=
  match ds with
  | [] => Ret false
  | (q, c) :: ds =>
      let* r := resend_control last in
      match r.1 with
      | go_on => resendDelivery bridge q c;; resend_each bridge ds r.2
      | canceled_ => finalize run_canceled None;; Ret true
      | detached => Ret true
      end
  end.

Definition is_replay (b : BridgeInput) : bool := match trigger b with Replay _ => true | _ => false end.

Inductive after_resend := done_with | read_on.

Definition finish_resend (bridge : BridgeInput) : M after_resend :=
  let* remaining := look failed_left in
  let* r := resend_control 0 in
  match r.1 with
  | canceled_ => finalize run_canceled None;; Ret done_with
  | detached => Ret done_with
  | go_on =>
      let* ended := (if bool_decide (remaining = 0) && is_replay bridge then streamedToEnd else Ret true) in
      if ended : bool then
        finalize (if bool_decide (remaining = 0) then run_completed else run_failed)
          (if bool_decide (remaining = 0) then None else Some "deliveries are still failing after the retry.");;
        Ret done_with
      else
        let* b := ask current_bridge in
        write (with_snapshot b);; Ret read_on
  end.

Definition executeResend : M after_resend :=
  getJobRow;;
  markRunning;;
  let* bridge := ask current_bridge in
  let* ds := look resendable in
  catch (let* stopped := resend_each bridge ds 0 in
         if stopped : bool then Ret done_with else finish_resend bridge)
    (λ e, let* a := read aborted in
          let* c := (if a : bool then Ret true else cancelRequested) in
          (if c : bool then finalize run_canceled None else finalize run_failed (Some e));; Ret done_with).

(** ** One entry of the queue *)

Definition SETTLED : list run_status := [run_completed; run_failed; run_canceled; run_interrupted].

Definition read_from (row : ReplayJob) : M unit :=
  execute (cursorOffset row) (parseKeysetCheckpoint (cursorJson row)) (snapshot row).

Definition process (m : mode) : M unit :=
  let* row := getJobRow in
  if decide (jstatus row ∈ SETTLED) then Ret tt
  else if decide (jstatus row = run_canceling) then finalize run_canceled None
  else
    modify (with_signal false);;  (* [registry.register] *)
    match m with
    | stream_mode => read_from row
    | resend_mode =>
        let* next := executeResend in
        match next with
        | done_with => Ret tt
        | read_on => let* resumed := getJobRow in read_from resumed
        end
    end.

(** ** What is asked of a job from outside *)

(** [cancel]: the in-flight fetch is aborted at once *)
Definition cancel (s : ReplayJob) : ReplayJob :=
  if decide (jstatus s ∈ TERMINAL) then s else with_signal true (with_status run_canceling (jfailure s) s).

Definition skip_cell (start rowCount : nat) : ReplayCell :=
  {| rcell := {| dstatus := delivered_skipped; drowCount := rowCount; drowKeys := None; dattempts := 0; derror := None |};
     rtargets := None; rbody := None; rtruncated := false; rhad := start |}.

(** the last batch may be smaller than the others *)
Definition rowCountFor (b : nat) (total : option nat) (q : nat) : nat :=
  match total with
  | Some n => let last := (n + (b - 1)) / b in if S q =? last then n - q * b else b
  | None => b
  end.

Definition skip_one (b : nat) (s : ReplayJob) (q : nat) : ReplayJob :=
  match cells s !! q with
  | Some _ => s
  | None =>
      let n := rowCountFor b (totalCount s) q in
      with_cells {| sentCount := sentCount (jcounters s); failedCount := failedCount (jcounters s);
                    skippedCount := skippedCount (jcounters s) + Z.of_nat n |}
        (<[q := skip_cell (q * b) n]> (cells s)) s
  end.

Definition snapshotBatchSize (s : ReplayJob) : nat := Z.to_nat (Z.max 1 (batchSize (delivery (snapshot s)))).

Definition skipDeliveries (qs : list nat) (s : ReplayJob) : ReplayJob := foldl (skip_one (snapshotBatchSize s)) s qs.

(** with the bridge as it is now *)
Definition requeued (b : BridgeInput) (s : ReplayJob) : ReplayJob := with_snapshot b (with_status run_queued None s).

Definition resume (b : BridgeInput) (s : ReplayJob) : option ReplayJob :=
  if decide (jstatus s ∈ [run_failed; run_canceled; run_paused; run_interrupted]) then Some (requeued b s) else None.

Definition retryFailed (b : BridgeInput) (s : ReplayJob) : option ReplayJob :=
  if decide (jstatus s ∈ TERMINAL) then
    if failed_left s =? 0 then None else Some (with_cursor 0 None (requeued b s))
  else None.

Definition resendFailed (s : ReplayJob) : option ReplayJob :=
  if decide (jstatus s ∈ ACTIVE) then None
  else if failed_left s =? 0 then None else Some (with_status run_queued None s).

(** a draft that is started *)
Definition start_draft (s : ReplayJob) : option ReplayJob :=
  if decide (jstatus s = run_draft) then Some (with_status run_queued (jfailure s) s) else None.
End replay.
