(* ===== verification/ReplaySafety.v ===== *)
(** What every attempt of a replay keeps, wherever it is killed: the store's
    invariant, what others may do meanwhile and what an attempt does to the job, and
    the triples of its methods ([bridge-job.processor.ts], [bridge-job.service.ts]). *)
From stdpp Require Import sorting.
From S2P Require Import Prelude JsText JsNumber JsDate JsValue JsJson JsonText.
From S2P Require Import BridgeConfig TypeMap Bridge Async CdcState TableReader Ledger Replay.

Local Open Scope async_scope.

(** ** The checkpoint reads back *)

Definition state_value (k : option KeysetCheckpoint) (st : bool) : jsval :=
  VObj (match k with
        | Some k => [("keyset", VObj [("column", VStr (kcolumn k)); ("value", kvalue k)])]
        | None => []
        end ++ if st then [("streamed", VBool true)] else []).

(** [json] is what the program saved of checkpoint [k] and of the end of the source *)
Definition saved_as (json : option string) (k : option KeysetCheckpoint) (st : bool) : Prop :=
  match json with
  | None => k = None ∧ st = false
  | Some t => t ≠ "" ∧ json_parse t = Some (state_value k st)
  end.

Definition plain_key (k : option KeysetCheckpoint) : bool := match k with Some k => json_plain (kvalue k) | None => true end.

Lemma saved_checkpoint json k st : saved_as json k st → parseKeysetCheckpoint json = k.
Proof.
  destruct json as [t|]; cbn [saved_as parseKeysetCheckpoint]; [|by intros [-> ->]].
  intros [Ht Hp]. rewrite bool_decide_eq_false_2, Hp by done. by destruct k as [[c v]|], st.
Qed.

Lemma saved_end json k st : saved_as json k st → streamed json = st.
Proof.
  destruct json as [t|]; cbn [saved_as streamed]; [|by intros [-> ->]].
  intros [Ht Hp]. rewrite Hp. by destruct k as [[c v]|], st.
Qed.

Lemma state_plain k st : plain_key k = true → json_plain (state_value k st) = true.
Proof. destruct k as [[c v]|], st; cbn; intros Hp; rewrite ?Hp; done. Qed.

Lemma printed_not_empty v t : stringify v = JText t → json_parse t = Some v → t ≠ "".
Proof. intros _ Hp ->. by vm_compute in Hp. Qed.

Lemma state_prints k st :
  plain_key k = true → ∃ t, stringify (state_value k st) = JText t ∧ saved_as (Some t) k st.
Proof.
  intros Hp. destruct (json_round_trip _ (state_plain k st Hp)) as (t & Ht & Hr). exists t. split; [done|].
  split; [by eapply printed_not_empty|done].
Qed.

Lemma streamed_state json k st : saved_as json k st → streamed_value json = state_value k true.
Proof.
  unfold streamed_value, cursor_state. destruct json as [t|]; cbn [saved_as]; [|by intros [-> ->]].
  intros [_ ->]. by destruct k as [[c v]|], st.
Qed.

(** ** A table that holds still *)

Section safety.
Context `{JsHost} `{JsPrint} `{!Answers} (jobId : string) (b : BridgeInput).
Context (T : list obj) (key_at : nat → option KeysetCheckpoint).

Abbreviation bs := (batch_size b).

(** what a reading from offset [off] hands over, when it is not cut short *)
Definition items_from (off : nat) : list TableRow :=
  imap (λ i row, {| trow := row; tindex := off + i; tkeyset := key_at (S (off + i)) |}) (drop off T).

(** A source that holds still: a reading from the checkpoint behind [off] rows hands
    over the rows behind them, until it fails or to the end. Checkpoints are values
    JSON keeps. Every row has one, or none has. *)
Class StillSource : Prop := {
  keys_or_none : (∀ n, key_at n = None) ∨ (∀ n, 0 < n ≤ List.length T → is_Some (key_at n));
  keys_plain n : plain_key (key_at n) = true;
  source_holds :
    match source b with
    | FromTable _ =>
        ∀ t t' o off, order_answers t b = inr o → off ≤ List.length T →
          let r := reader_answers t' b o off (if off =? 0 then None else key_at off) in
          ∃ n, r.1 = take n (items_from off) ∧ (r.2 = None → r.1 = items_from off)
    | FromQuery q => (∀ n, key_at n = None) ∧ ∀ t r, query_answers t q = inr r → qrows r = T
    end;
  batches : 0 < bs;
  bridge_is_replay : is_replay b = true;
  bridge_stays t b' : current_bridge t = inr b' → b' = b
}.

Definition batch (q : nat) : list obj := take bs (drop (q * bs) T).

Definition in_source (q : nat) : Prop := q * bs < List.length T.

(** ** The invariant of the store *)

Definition delivered_cell (m : gmap nat ReplayCell) (q : nat) : Prop :=
  ∃ c, m !! q = Some c ∧ dstatus (rcell c) = delivered_ok.

(** what is sent again of a batch: the rows its cell captured, without the targets that
    took them; or the body it captured, under the batch's own key *)
Definition resent (q : nat) (c : ReplayCell) : Sending :=
  match destination b with
  | Database _ => Resent q (Some (VArr (captured_rows (captured c)))) (default [] (rtargets c)) None
  | Http h => Resent q (captured c) [] (if idempotency h then Some (idempotency_key jobId q) else None)
  end.

Definition exact_send (x : Sending) : Prop :=
  match x with
  | Streamed q start rows _ key => start = q * bs ∧ in_source q ∧ rows = batch q ∧ key = idempotency_key jobId q
  | Resent q _ _ _ => ∃ c, x = resent q c
  end.

Definition all_cells (s : ReplayJob) : Prop := ∀ q, in_source q → is_Some (cells s !! q).

Record Inv (s : ReplayJob) : Prop := {
  inv_bridge : snapshot s = b;
  inv_aligned : ∃ k, cursorOffset s = k * bs ∧ k * bs ≤ List.length T;
  inv_saved : ∃ st, saved_as (cursorJson s) (if cursorOffset s =? 0 then None else key_at (cursorOffset s)) st ∧
                (st = true → all_cells s);
  inv_behind : ∀ q, q * bs < cursorOffset s → is_Some (cells s !! q);
  inv_completed : jstatus s = run_completed → all_cells s;
  inv_taken : ∀ q, delivered_cell (cells s) q → ∃ x, (x, true) ∈ sendings s ∧ sequence_of x = q;
  inv_exact : Forall (λ p, exact_send p.1) (sendings s)
}.

(** ** Others, and the attempt *)

Definition kept_cell (old new : option ReplayCell) : Prop :=
  new = old ∨ (old = None ∧ ∃ c, new = Some c ∧ dstatus (rcell c) = delivered_skipped ∧ rtargets c = None).

(** while an attempt runs, others skip what has no cell yet and ask for a cancel *)
Record others (s s' : ReplayJob) : Prop := {
  o_offset : cursorOffset s' = cursorOffset s;
  o_json : cursorJson s' = cursorJson s;
  o_snapshot : snapshot s' = snapshot s;
  o_sendings : sendings s' = sendings s;
  o_status : jstatus s' = jstatus s ∨ jstatus s' = run_canceling;
  o_cells : ∀ q, kept_cell (cells s !! q) (cells s' !! q)
}.

#[export] Instance others_preorder : PreOrder others.
Proof.
  split.
  - intros s. split; try done; [by left|]. intros q. by left.
  - intros s1 s2 s3 [Ho Hj Hn Hl Hst Hc1] [Ho' Hj' Hn' Hl' Hst' Hc2]. split; try congruence.
    + destruct Hst' as [->| ->]; [done|by right].
    + intros q. destruct (Hc1 q) as [He|(He & c & Hc & Hs)], (Hc2 q) as [He'|(He' & c' & Hc' & Hs')].
      * left. congruence.
      * right. rewrite <- He. eauto.
      * right. split; [done|]. exists c. rewrite He'. eauto.
      * congruence.
Qed.

(** what an attempt does: a batch that is recorded delivered stays so, and is not
    sent; what a batch is sent with leaves out the targets that took it *)
Definition fresh_send (s : ReplayJob) (x : Sending) : Prop :=
  exact_send x ∧ ¬ delivered_cell (cells s) (sequence_of x) ∧
  match x with
  | Streamed q _ _ skip _ => skip = default [] (cells s !! q ≫= failed_targets)
  | Resent q _ _ _ => ∃ c, cells s !! q = Some c ∧ dstatus (rcell c) = delivered_failed ∧
                           rtruncated c = false ∧ x = resent q c
  end.

Record attempts (s s' : ReplayJob) : Prop := {
  a_sends : sendings s' = sendings s ∨ ∃ x taken, sendings s' = sendings s ++ [(x, taken)] ∧ fresh_send s x;
  a_kept : ∀ q, delivered_cell (cells s) q → delivered_cell (cells s') q
}.

#[export] Instance attempts_refl : Reflexive attempts.
Proof. intros s. split; [by left|done]. Qed.

Abbreviation keeps P := (stable Inv others P).
Abbreviation tri P m Q := (triple Inv others attempts P m Q (λ _ _, True)).

(** ** The calls *)

Lemma both_stable {S : Type} (inv : S → Prop) (rely : S → S → Prop) P Q :
  stable inv rely P → stable inv rely Q → stable inv rely (λ s, P s ∧ Q s).
Proof. intros HP HQ s s1 Hr Hi [? ?]. split; [by eapply HP|by eapply HQ]. Qed.

Lemma inv_ticked s : Inv s → Inv (ticked s).
Proof. intros [? ? ? ? ? ? ?]. by split. Qed.

Lemma attempts_ticked s : attempts s (ticked s).
Proof. split; [by left|done]. Qed.

Lemma job_store {R} P (f : ReplayJob → R * ReplayJob) Q :
  keeps P → (∀ r, keeps (Q r)) →
  (∀ s, Inv s → P s → Inv (f (ticked s)).2 ∧ attempts s (f (ticked s)).2 ∧ Q (f (ticked s)).1 (f (ticked s)).2) →
  tri P (store f) Q.
Proof.
  intros HP HQ Hf. apply triple_call; [done..|]. intros s Hi Hs. cbn. destruct (db_refuses (rtick s)); cbn.
  - split_and!; [by apply inv_ticked|apply attempts_ticked|done].
  - specialize (Hf s Hi Hs). by destruct (f (ticked s)).
Qed.

Lemma job_look {R} P (f : ReplayJob → R) Q :
  keeps P → (∀ r, keeps (Q r)) → (∀ s, Inv s → P s → Q (f (ticked s)) (ticked s)) → tri P (look f) Q.
Proof.
  intros HP HQ Hf. apply job_store; [done..|]. intros s Hi Hs. cbn.
  split_and!; [by apply inv_ticked|apply attempts_ticked|auto].
Qed.

Lemma job_write P f Q :
  keeps P → keeps (Q tt) →
  (∀ s, Inv s → P s → Inv (f (ticked s)) ∧ attempts s (f (ticked s)) ∧ Q tt (f (ticked s))) →
  tri P (write f) Q.
Proof. intros HP HQ Hf. apply job_store; [done|by intros []|done]. Qed.

Lemma job_ask {R} P (f : nat → string + R) Q :
  keeps P → (∀ r, keeps (Q r)) → (∀ s n r, Inv s → P s → f n = inr r → Q r (ticked s)) → tri P (ask f) Q.
Proof.
  intros HP HQ Hf. apply triple_call; [done..|]. intros s Hi Hs. cbn.
  split_and!; [by apply inv_ticked|apply attempts_ticked|]. destruct (f (rtick s)) eqn:Hr; [done|]. by eapply Hf.
Qed.
End safety.
