(* ===== verification/ReplayAttempt.v ===== *)
(** An attempt of a replay keeps the store's invariant and does only what it may,
    wherever it is killed ([bridge-job.processor.ts]). *)
From stdpp Require Import sorting.
From S2P Require Import Prelude JsText JsNumber JsDate JsValue JsJson JsonText.
From S2P Require Import BridgeConfig TypeMap Bridge Async CdcState TableReader Ledger Replay ReplaySafety.

Local Open Scope async_scope.

Section attempt.
Context `{JsHost} `{JsPrint} `{!Answers} (jobId : string) (b : BridgeInput).
Context (T : list obj) (key_at : nat → option KeysetCheckpoint) `{HS : !StillSource b T key_at}.

Abbreviation bs := (batch_size b).
Abbreviation Inv := (Inv jobId b T key_at).
Abbreviation attempts := (attempts jobId b T).
Abbreviation keeps P := (stable Inv others P).
Abbreviation tri P m Q := (triple Inv others attempts P m Q (λ _ _, True)).

(** ** What an attempt knows of the job *)

Record Facts (done : gset nat) (prior : gmap nat (list string)) (start : nat) (s : ReplayJob) : Prop := {
  f_behind : ∀ q, q * bs < start → is_Some (cells s !! q);
  f_done : ∀ q, q ∈ done → is_Some (cells s !! q);
  f_fresh : ∀ q, delivered_cell (cells s) q → q ∈ done ∨ q * bs < start;
  f_prior : ∀ q, start ≤ q * bs → cells s !! q ≫= failed_targets = prior !! q
}.

Lemma kept_some old new : kept_cell old new → is_Some old → is_Some new.
Proof. intros [->|(-> & _)]; [done|by intros []]. Qed.

Lemma others_delivered s s1 q : others s s1 → delivered_cell (cells s1) q → delivered_cell (cells s) q.
Proof.
  intros Ho (c & Hc & Hd). destruct (o_cells _ _ Ho q) as [He|(_ & c' & Hc' & Hd' & _)].
  - exists c. by rewrite <- He.
  - rewrite Hc in Hc'. injection Hc' as <-. congruence.
Qed.

Lemma kept_targets old new : kept_cell old new → new ≫= failed_targets = old ≫= failed_targets.
Proof.
  intros [->|(-> & c & -> & Hd & Ht)]; [done|]. cbn. unfold failed_targets. rewrite Hd. by case_decide.
Qed.

Lemma facts_stable done prior start : keeps (Facts done prior start).
Proof.
  intros s s1 Ho _ [Hb Hd Hf Hp]. split.
  - intros q Hq. eapply kept_some; [apply Ho|auto].
  - intros q Hq. eapply kept_some; [apply Ho|auto].
  - intros q Hq. apply Hf. by eapply others_delivered.
  - intros q Hq. rewrite <- Hp by done. apply kept_targets, Ho.
Qed.

Lemma facts_cells done prior start s s' : cells s' = cells s → Facts done prior start s → Facts done prior start s'.
Proof. intros He [? ? ? ?]. by split; rewrite He. Qed.

Lemma facts_ticked done prior start s : Facts done prior start s → Facts done prior start (ticked s).
Proof. by apply facts_cells. Qed.

(** ** Recording a delivery *)

Definition taken (s : ReplayJob) (q : nat) : Prop := ∃ x, (x, true) ∈ sendings s ∧ sequence_of x = q.

Lemma insert_some q c q' (m : gmap nat ReplayCell) : is_Some (m !! q') → is_Some (<[q := c]> m !! q').
Proof. destruct (decide (q = q')) as [->|Hq]; [by rewrite lookup_insert_eq|by rewrite lookup_insert_ne]. Qed.

Lemma insert_delivered q c q' (m : gmap nat ReplayCell) :
  delivered_cell (<[q := c]> m) q' ↔ (q = q' ∧ dstatus (rcell c) = delivered_ok) ∨ (q ≠ q' ∧ delivered_cell m q').
Proof.
  unfold delivered_cell. destruct (decide (q = q')) as [->|Hq].
  - rewrite lookup_insert_eq. naive_solver.
  - rewrite lookup_insert_ne by done. naive_solver.
Qed.

Definition recorded (q start n : nat) keys (x : Sent) (ex : option ReplayCell) (s : ReplayJob) : ReplayJob :=
  with_cells (counted (rcell <$> ex) n (soutcome x) (jcounters s))
    (<[q := recorded_cell (cells s !! q) start n keys x]> (cells s)) s.

Lemma inv_recorded q start n keys x ex s :
  Inv s → (success (soutcome x) = true → taken s q) → Inv (recorded q start n keys x ex (ticked s)).
Proof.
  intros [Hn Ha (st & Hs & Hst) Hb Hc Ht He] Hx. split; cbn; [done|done| | | | |done].
  - exists st. split; [done|]. intros Hst'. intros q' Hq. apply insert_some. by apply Hst.
  - intros q' Hq. by apply insert_some, Hb.
  - intros Hs' q' Hq. apply insert_some. by apply Hc.
  - intros q' [[<- Hd]|[_ Hd]]%insert_delivered; [|by apply Ht]. apply Hx. cbn in Hd. unfold outcome_status in Hd.
    by destruct (success _).
Qed.

Lemma attempts_recorded q start n keys x ex s :
  ¬ delivered_cell (cells s) q → attempts s (recorded q start n keys x ex (ticked s)).
Proof.
  intros Hq. split; [by left|]. intros q' Hd. cbn. apply insert_delivered. right. split; [|done]. by intros <-.
Qed.

Lemma job_record q start n keys x P Q :
  keeps P → keeps (Q tt) →
  (∀ s, Inv s → P s → ¬ delivered_cell (cells s) q ∧ (success (soutcome x) = true → taken s q) ∧ P (ticked s)) →
  (∀ s ex, Inv s → P s → Q tt (recorded q start n keys x ex (ticked s))) →
  tri P (recordDelivery q start n keys x) Q.
Proof.
  intros HP HQ HPf Hf. unfold recordDelivery. eapply (triple_bind _ _ _ _ _ _ (λ _, P)).
  - apply job_look; [done|done|]. intros s Hi Hs. by apply HPf.
  - intros ex. apply job_write; [done|done|]. intros s Hi Hs. destruct (HPf s Hi Hs) as (Hq & Ht & _).
    split_and!; [by apply inv_recorded|by apply attempts_recorded|by apply Hf].
Qed.

(** ** One batch *)

Lemma inv_sending x tk s : Inv s → exact_send jobId b T x → Inv (with_sending x tk (ticked s)).
Proof.
  intros [Hn Ha Hs Hb Hc Ht He] Hx. split; cbn; [done..| |].
  - intros q Hq. destruct (Ht q Hq) as (y & Hy & Hq'). exists y. rewrite elem_of_app. naive_solver.
  - apply Forall_app. split; [done|]. by constructor.
Qed.

Lemma attempts_sending x tk s : fresh_send jobId b T s x → attempts s (with_sending x tk (ticked s)).
Proof. intros Hx. split; [right; by exists x, tk|done]. Qed.

Lemma job_deliver P x Q :
  keeps P → (∀ r, keeps (Q r)) →
  (∀ s, Inv s → P s → fresh_send jobId b T s x) →
  (∀ s r tk, Inv s → P s → (success (soutcome r) = true → tk = true) → Q r (with_sending x tk (ticked s))) →
  tri P (deliver b x) Q.
Proof.
  intros HP HQ Hx Hf. apply triple_call; [done..|]. intros s Hi Hs. specialize (Hx s Hi Hs) as Hfr. cbn.
  split_and!; [apply inv_sending; [done|apply Hfr]|by apply attempts_sending|].
  destruct (sink_answers _ _ _) as [e|r]; [done|]. apply Hf; [done..|]. done.
Qed.

Lemma facts_past done prior k s :
  0 < bs → Facts done prior (k * bs) s → is_Some (cells s !! k) → Facts done prior (S k * bs) s.
Proof.
  intros Hbs [Hb Hd Hf Hp] Hk. split; [|done| |].
  - intros q Hq. destruct (decide (q = k)) as [->|Hne]; [done|]. apply Hb.
    apply Nat.mul_lt_mono_pos_r in Hq; [|done]. apply Nat.mul_lt_mono_pos_r; lia.
  - intros q Hq. destruct (Hf q Hq) as [?|Hl]; [by left|right]. cbn. lia.
  - intros q Hq. apply Hp. cbn in Hq. lia.
Qed.

Lemma facts_recorded done prior k n keys x ex s :
  0 < bs → Facts done prior (k * bs) s →
  Facts done prior (S k * bs) (recorded k (k * bs) n keys x ex (ticked s)).
Proof.
  intros Hbs [Hb Hd Hf Hp]. split; cbn [recorded with_cells cells ticked].
  - intros q Hq. destruct (decide (k = q)) as [->|Hne]; [by rewrite lookup_insert_eq|]. apply insert_some, Hb.
    apply Nat.mul_lt_mono_pos_r in Hq; [|done]. apply Nat.mul_lt_mono_pos_r; lia.
  - intros q Hq. by apply insert_some, Hd.
  - intros q [[<- _]|[_ Hq]]%insert_delivered; [right; cbn; lia|].
    destruct (Hf q Hq) as [?|Hl]; [by left|right; cbn; lia].
  - intros q Hq. rewrite lookup_insert_ne; [apply Hp; cbn in Hq; lia|]. intros <-. cbn in Hq. lia.
Qed.

Lemma taken_stable q : keeps (λ s, taken s q).
Proof. intros s s1 Ho _ (x & Hx & Hq). exists x. by rewrite (o_sendings _ _ Ho). Qed.

Lemma job_flush k done prior pk :
  in_source b T k →
  tri (Facts done prior (k * bs)) (flush jobId b (batch b T k) (k * bs) done prior pk)
    (λ _, Facts done prior (S k * bs)).
Proof.
  intros Hk. assert (0 < bs) as Hbs by apply HS. unfold flush. rewrite Nat.div_mul by lia. case_decide as Hd.
  - apply triple_ret; [apply facts_stable|]. intros s _ Hf. apply facts_past; [done|done|]. by apply (f_done _ _ _ _ Hf).
  - set (x := Streamed _ _ _ _ _).
    eapply (triple_bind _ _ _ _ _ _ (λ r s, Facts done prior (k * bs) s ∧ (success (soutcome r) = true → taken s k))).
    { apply job_deliver; [apply facts_stable| | |].
      - intros r. apply both_stable; [apply facts_stable|]. intros s s1 Ho Hi Ht Hr. by eapply taken_stable, Ht.
      - intros s _ [_ _ Hf Hp]. split; [done|]. split; [|unfold x; by rewrite Hp].
        intros [Hx|Hx]%Hf; [done|]. unfold x in Hx. cbn in Hx. lia.
      - intros s r tk _ Hf Htk. split; [by apply (facts_cells _ _ _ s)|]. intros Hr. exists x. cbn.
        rewrite (Htk Hr), elem_of_app. split; [right; by left|done]. }
    intros r. eapply (triple_bind _ _ _ _ _ _ (λ _, Facts done prior (S k * bs))).
    + apply job_record; [|apply facts_stable| |].
      * apply both_stable; [apply facts_stable|]. intros s s1 Ho Hi Ht Hr. by eapply taken_stable, Ht.
      * intros s _ [Hf Ht]. split; [|split; [exact Ht|split; [by apply facts_ticked|exact Ht]]].
        intros [Hx|Hx]%(f_fresh _ _ _ _ Hf); [done|]. lia.
      * intros s ex _ [Hf _]. by apply facts_recorded.
    + intros _. apply triple_ret; [apply facts_stable|done].
Qed.
(** ** The loop *)

(** [l] is where the loop is behind [idx] rows *)
Record At (l : Progress) (idx : nat) : Prop := {
  at_aligned : ∃ k, bufferStart l = k * bs;
  at_le : bufferStart l ≤ idx ≤ List.length T;
  at_small : idx - bufferStart l < bs;
  at_buffer : buffer l = take (idx - bufferStart l) (drop (bufferStart l) T);
  at_key : lastKeyset l = key_at idx ∨ (lastKeyset l = None ∧ idx = bufferStart l)
}.

Definition Loop prior (idx : nat) (l : Progress) (s : ReplayJob) : Prop :=
  At l idx ∧ Facts (done_ l) prior (bufferStart l) s.

Lemma loop_stable prior idx l : keeps (Loop prior idx l).
Proof. apply both_stable; [by intros ? ? ? ? ?|apply facts_stable]. Qed.

Lemma facts_checked prior st l d t s :
  Facts (done_ l) prior st s → (∀ q, q ∈ d → is_Some (cells s !! q)) → Facts (done_ (checked (done_ l ∪ d) t l)) prior st s.
Proof.
  intros [Hb Hd Hf Hp] Hsk. split; [done| | |done]; cbn.
  - intros q [?|?]%elem_of_union; auto.
  - intros q Hq. destruct (Hf q Hq) as [?|?]; [left; set_solver|by right].
Qed.

Lemma in_status_some sts s q : q ∈ in_status sts s → ∃ c, cells s !! q = Some c ∧ dstatus (rcell c) ∈ sts.
Proof.
  unfold in_status. rewrite elem_of_dom. intros [c Hc]. apply map_lookup_filter_Some in Hc as [Hc Hs]. by exists c.
Qed.

Lemma job_atomically_ticked {R} P (f : nat → R) Q :
  keeps P → (∀ r, keeps (Q r)) → (∀ s n, Inv s → P s → Q (f n) (ticked s)) →
  tri P (atomically (λ s, (f (rtick s), ticked s))) Q.
Proof.
  intros HP HQ Hf. apply triple_atomically; [done..|]. intros s Hi Hs. cbn.
  split_and!; [by apply inv_ticked|apply attempts_ticked|auto].
Qed.

Lemma loop_ticked prior idx l s : Loop prior idx l s → Loop prior idx l (ticked s).
Proof. intros [? ?]. split; [done|by apply facts_ticked]. Qed.

Definition same_place (l l' : Progress) : Prop :=
  bufferStart l' = bufferStart l ∧ buffer l' = buffer l ∧ lastKeyset l' = lastKeyset l.

Definition checked_facts prior st l (r : bool * Progress) (s : ReplayJob) : Prop :=
  same_place l r.2 ∧ Facts (done_ r.2) prior st s.

Lemma checked_facts_stable prior st l r : keeps (checked_facts prior st l r).
Proof. apply both_stable; [by intros ? ? ? ? ?|apply facts_stable]. Qed.

Lemma job_stop_facts prior st l :
  tri (Facts (done_ l) prior st) (stopRequested l) (checked_facts prior st l).
Proof.
  unfold stopRequested. eapply (triple_bind _ _ _ _ _ _ (λ _, Facts (done_ l) prior st)).
  { apply triple_read; [apply facts_stable|intros; apply facts_stable|apply attempts_refl|done]. }
  intros a. destruct a; [by apply triple_ret; [apply facts_stable|]|].
  eapply (triple_bind _ _ _ _ _ _ (λ _, Facts (done_ l) prior st)).
  { apply job_atomically_ticked; [apply facts_stable|intros; apply facts_stable|]. intros s n _. apply facts_ticked. }
  intros now. case_match; [by apply triple_ret; [apply facts_stable|]|].
  eapply (triple_bind _ _ _ _ _ _ (λ _, Facts (done_ l) prior st)).
  { apply job_look; [apply facts_stable|intros; apply facts_stable|]. intros s _. apply facts_ticked. }
  intros c. set (some_cells := λ (d : gset nat) (s : ReplayJob), ∀ q, q ∈ d → is_Some (cells s !! q)).
  assert (∀ d, keeps (some_cells d)) as Hst.
  { intros d s s1 Ho _ Hd q Hq. eapply kept_some; [apply Ho|by apply Hd]. }
  eapply (triple_bind _ _ _ _ _ _ (λ d s, Facts (done_ l) prior st s ∧ some_cells d s)).
  - apply job_look; [apply facts_stable|intros d; by apply both_stable; [apply facts_stable|]|].
    intros s _ Hl. split; [by apply facts_ticked|]. intros q (c' & Hc & _)%in_status_some. by exists c'.
  - intros d. apply triple_ret; [by apply both_stable; [apply facts_stable|]|].
    intros s _ [Hl Hd]. split; [done|by apply facts_checked].
Qed.

Lemma at_same l l' idx : same_place l l' → At l idx → At l' idx.
Proof. intros (Hs & Hb & Hk) [? ? ? ? ?]. by split; rewrite ?Hs, ?Hb, ?Hk. Qed.

Lemma job_stop prior idx l : tri (Loop prior idx l) (stopRequested l) (λ r, Loop prior idx r.2).
Proof.
  apply (triple_pure _ _ _ (At l idx)); [by intros s [? _]|]. intros Ha.
  eapply triple_weaken; [apply (job_stop_facts prior (bufferStart l) l)|by intros s _ [_ ?]| |done].
  intros r s [Hp Hf]. split; [by eapply at_same|]. by rewrite (proj1 Hp).
Qed.

Lemma job_finalize P st e : st ≠ run_completed → keeps P → tri P (finalize st e) (λ _ _, True).
Proof.
  intros Hst HP. apply job_write; [done|done|]. intros s [? ? ? ? ? ? ?] _. split_and!; [by split|by split; [left|]|done].
Qed.

Lemma job_ended {A} P st e (x : A) (Q : A → ReplayJob → Prop) :
  st ≠ run_completed → keeps P → (∀ s, Q x s) → tri P (finalize st e;; Ret x) Q.
Proof.
  intros Hst HP HQ. eapply (triple_bind _ _ _ _ _ _ (λ _ _, True)); [by apply job_finalize|].
  intros _. by apply triple_ret.
Qed.

Lemma loop_signed prior idx l sig s : Loop prior idx l s → Loop prior idx (signed sig l) s.
Proof. intros [[? ? ? ? ?] Hf]. split; [by split|exact Hf]. Qed.

Lemma job_columns watches it prior idx l :
  tri (Loop prior idx l) (columns_checked b watches it l) (λ r, Loop prior idx r.2).
Proof.
  unfold columns_checked. destruct watches; [|by apply triple_ret; [apply loop_stable|]].
  case_match; [apply triple_ret; [apply loop_stable|]; intros s _; apply loop_signed|].
  eapply (triple_bind _ _ _ _ _ _ (λ _, Loop prior idx l)).
  - apply job_ask; [apply loop_stable|intros; apply loop_stable|]. intros s n r _ Hl _. by apply loop_ticked.
  - intros stop. apply triple_ret; [apply loop_stable|]. intros s _. apply loop_signed.
Qed.

(** ** The rows of the source *)

(** the rows of [T] from [idx] on, under their positions and checkpoints *)
Definition rows_at (idx : nat) (items : list TableRow) : Prop :=
  ∀ i it, items !! i = Some it → T !! (idx + i) = Some (trow it) ∧ tindex it = idx + i ∧ tkeyset it = key_at (S (idx + i)).

Lemma rows_at_tail idx it items : rows_at idx (it :: items) → rows_at (S idx) items.
Proof. intros Hr i it' Hi. specialize (Hr (S i) it' Hi). by rewrite Nat.add_succ_r in Hr. Qed.

Lemma at_pushed l idx it :
  At l idx → T !! idx = Some (trow it) → tkeyset it = key_at (S idx) →
  (∃ k, bufferStart l = k * bs) ∧ buffer (pushed it l) = take (S idx - bufferStart l) (drop (bufferStart l) T) ∧
  lastKeyset (pushed it l) = key_at (S idx) ∧ S idx ≤ List.length T.
Proof.
  intros [Hal Hle Hs Hb Hk] Ht Hkey. split_and!; [done| | |by apply lookup_lt_Some in Ht].
  - cbn. rewrite Hb, Nat.sub_succ_l by lia. symmetry. apply take_S_r. rewrite lookup_drop. rewrite <- Ht. f_equal. lia.
  - cbn. rewrite Hkey. destruct (key_at (S idx)) as [k|] eqn:He; [done|].
    destruct (keys_or_none b T key_at) as [Hn|Hsome].
    + destruct Hk as [->|[-> _]]; [by rewrite Hn|done].
    + destruct (Hsome (S idx)) as [k Hk']; [apply lookup_lt_Some in Ht; lia|]. congruence.
Qed.

(** the buffer is full: it is the batch *)
Lemma full_batch l idx it k :
  At l idx → T !! idx = Some (trow it) → tkeyset it = key_at (S idx) → bufferStart l = k * bs →
  List.length (buffer (pushed it l)) = bs →
  buffer (pushed it l) = batch b T k ∧ in_source b T k ∧ S idx = S k * bs.
Proof.
  intros Ha Ht Hkey Hst Hlen. destruct (at_pushed l idx it Ha Ht Hkey) as (_ & Hb & _ & Hle).
  destruct Ha as [_ Hle' Hs _ _]. rewrite Hst in *.
  rewrite Hb, length_take, length_drop in Hlen. assert (S idx - k * bs = bs) as Heq by lia.
  split_and!; [by rewrite Hb, Heq|unfold in_source; lia|cbn; lia].
Qed.

Lemma inv_cursor k key t st' s :
  Inv s → k * bs ≤ List.length T → (∀ q, q * bs < k * bs → is_Some (cells s !! q)) →
  saved_as t key st' → key = (if k * bs =? 0 then None else key_at (k * bs)) → (st' = true → all_cells b T s) →
  Inv (with_cursor (k * bs) t (ticked s)).
Proof.
  intros [Hn Ha Hs Hb Hc Ht He] Hk Hq Hsv -> Hst. split; cbn; [done|by exists k|exists st'; split; [exact Hsv|exact Hst]|done..].
Qed.

Lemma job_cursor k key done prior :
  0 < k → k * bs ≤ List.length T → key = key_at (k * bs) →
  tri (Facts done prior (k * bs)) (setCursor (k * bs) key) (λ _, Facts done prior (k * bs)).
Proof.
  intros Hk Hle Hkey. assert (0 < bs) as Hbs by apply HS. assert (k * bs =? 0 = false) as Hz by (apply Nat.eqb_neq; nia).
  unfold setCursor. destruct key as [key|].
  - pose proof (keys_plain b T key_at (k * bs)) as Hp. rewrite <- Hkey in Hp.
    destruct (state_prints (Some key) false Hp) as (t & Ht & Hs). change (stringify (keyset_value key)) with (stringify (state_value (Some key) false)).
    rewrite Ht. apply job_write; [apply facts_stable..|]. intros s Hi Hf. split_and!.
    + eapply inv_cursor; [done|done|apply Hf|exact Hs|by rewrite Hz|done].
    + by split; [left|].
    + by apply (facts_cells _ _ _ s).
  - destruct (keys_or_none b T key_at) as [Hn|Hsome]; [|destruct (Hsome (k * bs)); [split; [nia|done]|congruence]].
    apply job_write; [apply facts_stable..|]. intros s Hi Hf. split_and!.
    + destruct (inv_saved _ _ _ _ _ Hi) as (st & Hs & Hst). eapply inv_cursor; [done|done|apply Hf|exact Hs| |done].
      rewrite Hz, !Hn. by destruct (cursorOffset s =? 0).
    + by split; [left|].
    + by apply (facts_cells _ _ _ s).
Qed.

Section rows.
Context (watches : bool) (prior : gmap nat (list string)) (pk : option string).

Definition reached (idx : nat) (r : option Progress) (s : ReplayJob) : Prop :=
  match r with Some l => Loop prior idx l s | None => True end.

Lemma reached_stable idx r : keeps (reached idx r).
Proof. destruct r; [apply loop_stable|done]. Qed.

Lemma job_each_row items idx l :
  rows_at idx items →
  tri (Loop prior idx l) (each_row jobId b watches prior pk items l) (reached (idx + List.length items)).
Proof.
  revert idx l. induction items as [|it items IH]; intros idx l Hr; cbn [each_row].
  { apply triple_ret; [apply loop_stable|]. intros s _. cbn [List.length]. by rewrite Nat.add_0_r. }
  eapply (triple_bind _ _ _ _ _ _ (λ r, Loop prior idx r.2)); [apply job_stop|]. intros [c l1]. cbn [fst snd].
  destruct c; [by apply job_ended; [|apply loop_stable|]|].
  eapply (triple_bind _ _ _ _ _ _ (λ r, Loop prior idx r.2)); [apply job_columns|]. intros [[why|] l2]; cbn [fst snd].
  { by apply job_ended; [|apply loop_stable|]. }
  destruct (Hr 0 it eq_refl) as (Ht & Hidx & Hkey). rewrite Nat.add_0_r in Ht, Hidx, Hkey. rewrite Hidx.
  apply (triple_pure _ _ _ (At l2 idx)); [by intros s [? _]|]. intros Ha.
  destruct (at_pushed l2 idx it Ha Ht Hkey) as ((k & Hal) & Hb & Hlk & Hle).
  cbn [List.length]. rewrite Nat.add_succ_r. change (S (idx + List.length items)) with (S idx + List.length items).
  destruct (List.length (buffer (pushed it l2)) =? bs) eqn:Hfull; bool_to_prop.
  - destruct (full_batch l2 idx it k Ha Ht Hkey Hal Hfull) as (Hbatch & Hin & Hnext).
    rewrite Hbatch, Hnext. cbn [bufferStart pushed done_]. rewrite Hal.
    eapply (triple_bind _ _ _ _ _ _ (λ _, Facts (done_ l2) prior (S k * bs))).
    { eapply triple_pre; [by apply job_flush|]. intros s _ [_ Hf]. by rewrite Hal in Hf. }
    intros stop. eapply (triple_bind _ _ _ _ _ _ (λ _, Facts (done_ l2) prior (S k * bs))).
    { apply job_cursor; [lia|lia|]. cbn [lastKeyset pushed] in Hlk |- *. rewrite Hlk. by f_equal. }
    intros _. destruct stop; [by apply job_ended; [|apply facts_stable|]|].
    rewrite <- Hnext. eapply triple_pre; [apply (IH (S idx)); by eapply rows_at_tail|].
    intros s _ Hf. split; [|done]. assert (0 < bs) by apply HS.
    split; cbn [bufferStart buffer lastKeyset emptied]; [by exists (S k)|lia|lia|by rewrite Nat.sub_diag|by left].
  - eapply triple_pre; [apply (IH (S idx)); by eapply rows_at_tail|]. intros s _ [_ Hf]. split; [|done].
    destruct Ha as [_ Hle' Hs Hb' _]. split; cbn [bufferStart pushed]; [by exists k|lia| |done|by left].
    rewrite Hb, length_take, length_drop in Hfull. lia.
Qed.

Lemma all_cells_past k s : List.length T <= k * bs → (∀ q, q * bs < k * bs → is_Some (cells s !! q)) → all_cells b T s.
Proof. intros Hk Hb q Hq. apply Hb. unfold in_source in Hq. lia. Qed.

Lemma all_cells_stable : keeps (all_cells b T).
Proof. intros s s1 Ho _ Ha q Hq. eapply kept_some; [apply Ho|by apply Ha]. Qed.

(** what the end is recorded from *)
Definition saved_from (json : option string) (key : option KeysetCheckpoint) (st : bool) (s : ReplayJob) : Prop :=
  cursorJson s = json ∧ key = (if cursorOffset s =? 0 then None else key_at (cursorOffset s)) ∧
  saved_as json key st ∧ plain_key key = true.

Lemma saved_from_stable json key st : keeps (saved_from json key st).
Proof. intros s s1 Ho _ (? & ? & ? & ?). unfold saved_from. by rewrite (o_json _ _ Ho), (o_offset _ _ Ho). Qed.

Lemma job_marked : tri (all_cells b T) (markStreamed) (λ _, all_cells b T).
Proof.
  unfold markStreamed.
  eapply (triple_bind _ _ _ _ _ _ (λ j s, all_cells b T s ∧ ∃ key st, saved_from j key st s)).
  - apply job_look; [apply all_cells_stable| |].
    + intros j. apply both_stable; [apply all_cells_stable|]. intros s s1 Ho Hi (key & st & Hs).
      exists key, st. by eapply saved_from_stable.
    + intros s Hi Ha. split; [done|]. destruct (inv_saved _ _ _ _ _ Hi) as (st & Hs & _).
      exists (if cursorOffset s =? 0 then None else key_at (cursorOffset s)), st. split; [done|]. split; [done|].
      split; [exact Hs|]. destruct (_ =? 0); [done|apply HS].
  - intros j s Hi [Ha (key & st & Hs)].
    assert (tri (λ s, all_cells b T s ∧ saved_from j key st s)
              (match stringify (streamed_value j) with
               | JText t => write (λ s, with_cursor (cursorOffset s) (Some t) s)
               | _ => Throw "Do not know how to serialize a BigInt"
               end) (λ _, all_cells b T)) as Hm; [|by apply Hm].
    clear s Hi Ha Hs. apply (triple_pure _ _ _ (saved_as j key st ∧ plain_key key = true)); [by intros s (_ & _ & _ & ?)|].
    intros [Hs Hp]. rewrite (streamed_state _ _ _ Hs). destruct (state_prints key true Hp) as (t & -> & Ht).
    apply job_write; [apply both_stable; [apply all_cells_stable|apply saved_from_stable]|apply all_cells_stable|].
    intros s Hi [Ha (_ & -> & _)]. split_and!; [|by split; [left|]|done].
    destruct Hi as [Hn (k & Hk & Hkl) _ Hb Hc Htk He]. cbn. split; cbn; [done|by exists k| |done..]. by exists true.
Qed.

Lemma job_completed : tri (all_cells b T) (finalize run_completed None) (λ _ _, True).
Proof.
  apply job_write; [apply all_cells_stable|done|]. intros s [? ? ? ? ? ? ?] Ha.
  split_and!; [by split|by split; [left|]|done].
Qed.

Lemma job_finish st l :
  (∀ s, (∀ q, q * bs < st → is_Some (cells s !! q)) → all_cells b T s) →
  tri (Facts (done_ l) prior st)
    (let* c := stopRequested l in if c.1 then finalize run_canceled None else markStreamed;; finalize run_completed None)
    (λ _ _, True).
Proof.
  intros Hall. eapply (triple_bind _ _ _ _ _ _ (checked_facts prior st l)); [apply job_stop_facts|]. intros [c l']. cbn [fst].
  destruct c; [by apply job_finalize; [|apply checked_facts_stable]|].
  eapply (triple_bind _ _ _ _ _ _ (λ _, all_cells b T)); [|intros _; apply job_completed].
  eapply triple_pre; [apply job_marked|]. intros s _ [_ Hf]. apply Hall. apply Hf.
Qed.

Lemma job_after problem idx l :
  (problem = None → idx = List.length T) →
  tri (Loop prior idx l) (after_rows jobId b prior pk problem l) (λ _ _, True).
Proof.
  intros Hend. unfold after_rows. destruct problem as [e|]; [by apply triple_throw; [apply loop_stable|]|].
  specialize (Hend eq_refl) as ->. apply (triple_pure _ _ _ (At l (List.length T))); [by intros s [? _]|].
  intros [(k & Hal) Hle Hs Hb Hk]. destruct (buffer l) as [|row rows] eqn:Hbuf.
  - eapply triple_pre; [apply (job_finish (bufferStart l))|by intros s _ [_ ?]]. intros s Hq. rewrite Hal in *.
    apply (all_cells_past k); [|done]. symmetry in Hb. apply (f_equal List.length) in Hb.
    rewrite length_take, length_drop in Hb. cbn in Hb. lia.
  - assert (row :: rows = batch b T k ∧ in_source b T k) as [-> Hin].
    { unfold batch, in_source. rewrite Hb, <- Hal. rewrite !take_ge by (rewrite length_drop; lia). split; [done|].
      apply (f_equal List.length) in Hb. rewrite length_take, length_drop in Hb. cbn in Hb. lia. }
    eapply (triple_bind _ _ _ _ _ _ (checked_facts prior (k * bs) l)).
    { eapply triple_pre; [apply job_stop_facts|]. intros s _ [_ Hf]. by rewrite Hal in Hf. }
    intros [c l']. cbn [fst snd]. destruct c; [by apply job_finalize; [|apply checked_facts_stable]|].
    eapply (triple_bind _ _ _ _ _ _ (λ _, Facts (done_ l') prior (S k * bs))).
    { rewrite Hal. eapply triple_pre; [by apply job_flush|]. by intros s _ [_ Hf]. }
    intros stop. destruct stop; [by apply job_finalize; [|apply facts_stable]|].
    apply job_finish. intros s Hq. apply (all_cells_past (S k)); [cbn; lia|done].
Qed.
End rows.
End attempt.
