(* ===== verification/ReplayWorker.v ===== *)
(** An entry of the queue, from its first call to its last, streaming or sending
    again what was captured, keeps the invariant ([bridge-job.processor.ts], [process];
    [bridge-job.service.ts], [executeResend]). *)
From stdpp Require Import sorting.
From S2P Require Import Prelude JsText JsNumber JsDate JsValue JsJson JsonText.
From S2P Require Import BridgeConfig TypeMap Bridge Async CdcState TableReader Ledger.
From S2P Require Import Replay ReplaySafety ReplayAttempt.

Local Open Scope async_scope.

Section worker.
Context `{JsHost} `{JsPrint} `{!Answers} (jobId : string) (b : BridgeInput).
Context (T : list obj) (key_at : nat → option KeysetCheckpoint) `{HS : !StillSource b T key_at}.

Abbreviation bs := (batch_size b).
Abbreviation Inv := (Inv jobId b T key_at).
Abbreviation attempts := (attempts jobId b T).
Abbreviation Facts := (Facts b).
Abbreviation keeps P := (stable Inv others P).
Abbreviation tri P m Q := (triple Inv others attempts P m Q (λ _ _, True)).

(** ** Reading *)

Definition whole_or_failed (off : nat) (r : reading) : Prop :=
  rows_at T key_at off r.1 ∧ (r.2 = None → off + List.length r.1 = List.length T).

Lemma items_at off : rows_at T key_at off (items_from T key_at off).
Proof.
  intros i it Hi. unfold items_from in Hi. rewrite list_lookup_imap, lookup_drop in Hi.
  destruct (T !! (off + i)) as [row|]; [|done]. injection Hi as <-. done.
Qed.

Lemma items_length off : off ≤ List.length T → off + List.length (items_from T key_at off) = List.length T.
Proof. intros Hle. unfold items_from. rewrite length_imap, length_drop. lia. Qed.

Lemma rows_at_take off n items : rows_at T key_at off items → rows_at T key_at off (take n items).
Proof. intros Hr i it [Hi _]%lookup_take_Some. by apply Hr. Qed.

(** the key a reading from [off] is asked with *)
Definition key_of (off : nat) : option KeysetCheckpoint := if off =? 0 then None else key_at off.

Lemma facts_write done prior st P s : (∀ s, cells (P s) = cells s) → Facts done prior st s → Facts done prior st (P (ticked s)).
Proof. intros HP. apply facts_cells. by rewrite HP. Qed.

Lemma job_plan f Q :
  (∀ s, Inv s → Inv (f (ticked s))) → (∀ s, sendings (f s) = sendings s) → (∀ s, cells (f s) = cells s) →
  (∀ s s', cells s' = cells s → Q s → Q s') → keeps Q → tri Q (write f) (λ _, Q).
Proof.
  intros Hi Hs Hc HQ HQs. apply job_write; [done..|]. intros s Hs' Hq. split_and!; [by apply Hi| |].
  - split; [left; by rewrite Hs|]. intros q. by rewrite Hc.
  - eapply HQ; [|exact Hq]. by rewrite Hc.
Qed.

Lemma job_streamRows done prior off :
  off ≤ List.length T →
  tri (Facts done prior off) (streamRows b off (key_of off))
    (λ r s, whole_or_failed off r ∧ Facts done prior off s).
Proof.
  intros Hoff. assert (∀ r, keeps (λ s, whole_or_failed off r ∧ Facts done prior off s)) as Hst.
  { intros r. apply both_stable; [by intros ? ? ? ? ?|apply facts_stable]. }
  assert (∀ f, (∀ s, Inv s → Inv (f (ticked s))) → (∀ s, sendings (f s) = sendings s) → (∀ s, cells (f s) = cells s) →
    tri (Facts done prior off) (write f) (λ _, Facts done prior off)) as Hw.
  { intros f Hf Hs Hc. apply job_plan; [done..| |apply facts_stable]. intros s s'. apply facts_cells. }
  pose proof (source_holds b T key_at) as Hsrc. unfold streamRows. destruct (source b) as [t|q].
  - eapply (triple_bind _ _ _ _ _ _ (λ o s, (∃ n, order_answers n b = inr o) ∧ Facts done prior off s)).
    { apply job_ask; [apply facts_stable|intros o; apply both_stable; [by intros ? ? ? ? ?|apply facts_stable]|].
      intros s n o _ Hf Ho. split; [by exists n|by apply facts_ticked]. }
    intros o. apply (triple_pure _ _ _ (∃ n, order_answers n b = inr o)); [by intros s [? _]|]. intros [n0 Ho].
    apply (triple_pre _ _ _ _ (Facts done prior off)); [|by intros s _ [_ ?]]. eapply (triple_bind _ _ _ _ _ _ (λ _, Facts done prior off)).
    { apply Hw; [|done|done]. intros s [? ? ? ? ? ? ?]. by split. }
    intros _. eapply (triple_bind _ _ _ _ _ _ (λ _, Facts done prior off)).
    { destruct (owarning o) as [w|]; [|by apply triple_ret; [apply facts_stable|]].
      apply Hw; [|done|done]. intros s [? ? ? ? ? ? ?]. by split. }
    intros _. apply triple_read; [apply facts_stable|done|apply attempts_refl|]. intros s _ Hf. split; [|done].
    destruct (Hsrc n0 (rtick s) o off Ho Hoff) as (n & Hr & He). unfold whole_or_failed, key_of. split; [rewrite Hr; apply rows_at_take, items_at|].
    intros Hn. rewrite (He Hn). by apply items_length.
  - destruct Hsrc as [Hnone Hq]. eapply (triple_bind _ _ _ _ _ _ (λ r s, qrows r = T ∧ Facts done prior off s)).
    { apply job_ask; [apply facts_stable| |].
      - intros r. apply both_stable; [by intros ? ? ? ? ?|apply facts_stable].
      - intros s n r _ Hf Hr. split; [by eapply Hq|by apply facts_ticked]. }
    intros r. apply (triple_pure _ _ _ (qrows r = T)); [by intros s [? _]|]. intros Hr.
    destruct (qtruncated r).
    { apply triple_throw; [apply both_stable; [by intros ? ? ? ? ?|apply facts_stable]|done]. }
    eapply (triple_bind _ _ _ _ _ _ (λ _, Facts done prior off)).
    { eapply triple_pre; [apply Hw; [|done|done]|by intros s _ [_ ?]]. intros s [? ? ? ? ? ? ?]. by split. }
    intros _. apply triple_ret; [apply facts_stable|]. intros s _ Hf. split; [|done]. rewrite Hr.
    assert (numbered off (λ _, None) (drop off T) = items_from T key_at off) as ->.
    { unfold numbered, items_from. apply imap_ext. intros i x _. by rewrite Hnone. }
    split; [apply items_at|intros _; by apply items_length].
Qed.

Lemma job_stream_all watches prior pk off done :
  off ≤ List.length T → (∃ k, off = k * bs) →
  tri (Facts done prior off) (stream_all jobId b watches prior pk off (key_of off) done) (λ _ _, True).
Proof.
  intros Hoff Hk. unfold stream_all.
  eapply (triple_bind _ _ _ _ _ _ (λ r s, whole_or_failed off r ∧ Facts done prior off s)); [by apply job_streamRows|].
  intros r. apply (triple_pure _ _ _ (whole_or_failed off r)); [by intros s [? _]|]. intros [Hr He].
  eapply (triple_bind _ _ _ _ _ _ (reached b T key_at prior (off + List.length r.1))).
  - eapply triple_pre; [by apply job_each_row|]. intros s _ [_ Hf]. split; [|done].
    assert (0 < bs) by apply HS. split; cbn; [done|lia|lia|by rewrite Nat.sub_diag|by right].
  - intros [l|]; [by apply job_after|by apply triple_ret; [apply reached_stable|]].
Qed.

(** ** [execute] *)

Definition offset_is (off : nat) (s : ReplayJob) : Prop := cursorOffset s = off.

Lemma offset_stable off : keeps (offset_is off).
Proof. intros s s1 Ho _ Hs. unfold offset_is. by rewrite (o_offset _ _ Ho). Qed.

Lemma job_resolvePk off : tri (offset_is off) (resolvePk b) (λ _, offset_is off).
Proof.
  unfold resolvePk. destruct (source b); [|by apply triple_ret; [apply offset_stable|]].
  eapply (triple_bind _ _ _ _ _ _ (λ _, offset_is off)).
  - apply job_ask; [apply offset_stable|intros; apply offset_stable|done].
  - intros pk'. by apply triple_ret; [apply offset_stable|].
Qed.

(** what [settledSequences] answers *)
Definition settled (off : nat) (done : gset nat) (s : ReplayJob) : Prop :=
  (∀ q, q * bs < off → is_Some (cells s !! q)) ∧ (∀ q, q ∈ done → is_Some (cells s !! q)) ∧
  (∀ q, delivered_cell (cells s) q → q ∈ done).

Lemma settled_stable off done : keeps (settled off done).
Proof.
  intros s s1 Ho _ (Hb & Hd & Hf). split_and!.
  - intros q Hq. eapply kept_some; [apply Ho|by apply Hb].
  - intros q Hq. eapply kept_some; [apply Ho|by apply Hd].
  - intros q Hq. apply Hf. by eapply others_delivered.
Qed.

Lemma job_settled off : tri (offset_is off) settledSequences (settled off).
Proof.
  apply job_look; [apply offset_stable|apply settled_stable|]. intros s Hi Ho. split_and!.
  - intros q Hq. apply (inv_behind _ _ _ _ _ Hi). by rewrite Ho.
  - intros q (c & Hc & _)%in_status_some. by exists c.
  - intros q (c & Hc & Hs). apply elem_of_dom. exists c. apply map_lookup_filter_Some. split; [done|]. rewrite Hs. by left.
Qed.

Lemma job_prior off done : tri (settled off done) succeededTargetsBySequence (λ prior, Facts done prior off).
Proof.
  apply job_look; [apply settled_stable|intros; apply facts_stable|]. intros s _ (Hb & Hd & Hf). split; [done|done|auto|].
  intros q _. by rewrite lookup_omap.
Qed.

Lemma job_ask_stable {R} P (f : nat → string + R) :
  keeps P → (∀ s, P s → P (ticked s)) → tri P (ask f) (λ _, P).
Proof. intros HP Ht. apply job_ask; [done..|]. auto. Qed.

Lemma settled_ticked off done s : settled off done s → settled off done (ticked s).
Proof. done. Qed.

Lemma job_handler (e : string) :
  tri (λ _, True) (let* a := read aborted in
                   let* c := (if a : bool then Ret true else cancelRequested) in
                   if c : bool then finalize run_canceled None else finalize run_failed (Some e)) (λ _ _, True).
Proof.
  eapply (triple_bind _ _ _ _ _ _ (λ _ _, True)); [by apply triple_read; [..|apply attempts_refl|]|].
  intros a. eapply (triple_bind _ _ _ _ _ _ (λ _ _, True)).
  - destruct a; [by apply triple_ret|by apply job_look].
  - intros c. destruct c; by apply job_finalize.
Qed.

Lemma job_execute off :
  off ≤ List.length T → (∃ k, off = k * bs) →
  tri (offset_is off) (execute jobId off (key_of off) b) (λ _ _, True).
Proof.
  intros Hoff Hk. unfold execute. eapply (triple_bind _ _ _ _ _ _ (λ _, offset_is off)).
  { apply job_write; [apply offset_stable..|]. intros s [? ? ? ? ? ? ?] Ho. split_and!; [by split|by split; [left|]|done]. }
  intros _. eapply (triple_bind _ _ _ _ _ _ (λ _, offset_is off)); [apply job_ask_stable; [apply offset_stable|done]|].
  intros [why|]; [by apply job_finalize; [|apply offset_stable]|].
  eapply (triple_bind _ _ _ _ _ _ (λ _, offset_is off)); [apply job_resolvePk|].
  intros pk. eapply (triple_bind _ _ _ _ _ _ (settled off)); [apply job_settled|].
  intros done. eapply (triple_bind _ _ _ _ _ _ (λ prior, Facts done prior off)); [apply job_prior|].
  intros prior. eapply (triple_bind _ _ _ _ _ _ (λ _, Facts done prior off)).
  { apply job_ask_stable; [apply facts_stable|intros s; apply facts_ticked]. }
  intros watches. eapply triple_catch; [apply _|by apply job_stream_all|]. intros e. apply job_handler.
Qed.

(** ** Sending again *)

(** the cells [ds] are as they were read, and failed *)
Definition unsent (ds : list (nat * ReplayCell)) (s : ReplayJob) : Prop :=
  ∀ q c, (q, c) ∈ ds → cells s !! q = Some c ∧ dstatus (rcell c) = delivered_failed.

Lemma unsent_stable ds : keeps (unsent ds).
Proof.
  intros s s1 Ho _ Hu q c Hin. destruct (Hu q c Hin) as [Hc Hd]. split; [|done].
  destruct (o_cells _ _ Ho q) as [->|[Hn _]]; [done|congruence].
Qed.

Lemma unsent_cells ds s s' : cells s' = cells s → unsent ds s → unsent ds s'.
Proof. intros He Hu q c Hin. rewrite He. by apply Hu. Qed.

Lemma unsent_fresh ds q c s : unsent ds s → (q, c) ∈ ds → ¬ delivered_cell (cells s) q.
Proof. intros Hu Hin (c' & Hc' & Hd). destruct (Hu q c Hin) as [Hc Hf]. congruence. Qed.

Lemma unsent_recorded q c ds start n keys x ex s :
  unsent ((q, c) :: ds) s → q ∉ ds.*1 → unsent ds (recorded q start n keys x ex (ticked s)).
Proof.
  intros Hu Hq q' c' Hin. cbn. rewrite lookup_insert_ne; [apply Hu; by right|].
  intros <-. apply Hq, list_elem_of_fmap. by exists (q, c').
Qed.

Lemma job_resent ds q c x :
  (q, c) ∈ ds → rtruncated c = false → x = resent jobId b q c →
  tri (unsent ds) (deliver b x) (λ r s, unsent ds s ∧ (success (soutcome r) = true → taken s q)).
Proof.
  intros Hin Htr ->. assert (Hq : sequence_of (resent jobId b q c) = q) by (unfold resent; by destruct (destination b)).
  assert (Hx : ∀ s, unsent ds s → fresh_send jobId b T s (resent jobId b q c)).
  { intros s Hu. destruct (Hu q c Hin) as [Hc Hd].
    assert (Hx : ∃ body skip key, resent jobId b q c = Resent q body skip key)
      by (unfold resent; destruct (destination b); by eexists _, _, _).
    destruct Hx as (body & skip & key & Hx).
    split; [|split; [rewrite Hq; by eapply unsent_fresh|]]; rewrite Hx; exists c; by rewrite ?Hx. }
  apply job_deliver; [exact HS|apply unsent_stable| | |].
  - intros r. apply both_stable; [apply unsent_stable|]. intros s s1 Ho Hi Ht Hr. by eapply taken_stable, Ht.
  - intros s _ Hu. by apply Hx.
  - intros s r tk _ Hu Htk. split; [by apply (unsent_cells _ s)|]. intros Hr. exists (resent jobId b q c). cbn.
    rewrite (Htk Hr), elem_of_app. split; [right; by left|done].
Qed.

Lemma job_resendDelivery q c ds :
  q ∉ ds.*1 → tri (unsent ((q, c) :: ds)) (resendDelivery jobId b q c) (λ _, unsent ds).
Proof.
  intros Hq. unfold resendDelivery. set (P := unsent ((q, c) :: ds)).
  eapply (triple_bind _ _ _ _ _ _ (λ r s, P s ∧ (success (soutcome r) = true → taken s q))).
  - assert (∀ why, tri P (Ret (refuse c why)) (λ r s, P s ∧ (success (soutcome r) = true → taken s q))) as Hrefuse.
    { intros why. by apply triple_ret; [apply unsent_stable|]. }
    destruct (rtruncated c) eqn:Htr; [apply Hrefuse|]. destruct (destination b) as [h|ts] eqn:Hdest.
    + apply job_resent with (c := c); [by left|done|]. unfold resent. by rewrite Hdest.
    + case_match; [apply Hrefuse|]. apply job_resent with (c := c); [by left|done|]. unfold resent. by rewrite Hdest.
  - intros x. eapply (triple_bind _ _ _ _ _ _ (λ _, unsent ds)); [|intros _; by apply triple_ret; [apply unsent_stable|]].
    apply job_record; [|apply unsent_stable| |].
    + apply both_stable; [apply unsent_stable|]. intros s s1 Ho Hi Ht Hr. by eapply taken_stable, Ht.
    + intros s _ [Hu Ht]. split; [eapply unsent_fresh; [exact Hu|by left]|]. split; [exact Ht|].
      split; [by apply (unsent_cells _ s)|exact Ht].
    + intros s ex _ [Hu _]. by eapply unsent_recorded.
Qed.

Lemma job_control P last : keeps P → (∀ s, P s → P (ticked s)) → tri P (resend_control last) (λ _, P).
Proof.
  intros HP Ht. unfold resend_control. eapply (triple_bind _ _ _ _ _ _ (λ _, P)).
  { apply triple_read; [done|done|apply attempts_refl|done]. }
  intros a. destruct a; [by apply triple_ret|]. eapply (triple_bind _ _ _ _ _ _ (λ _, P)).
  { apply job_atomically_ticked; [done|done|]. auto. }
  intros now. case_match; [by apply triple_ret|]. eapply (triple_bind _ _ _ _ _ _ (λ _, P)).
  { apply job_look; [done|done|]. auto. }
  intros st. by apply triple_ret.
Qed.

Lemma job_resend_each ds last :
  NoDup ds.*1 → tri (unsent ds) (resend_each jobId b ds last) (λ _ _, True).
Proof.
  revert last. induction ds as [|[q c] ds IH]; intros last Hnd; cbn [resend_each].
  { by apply triple_ret; [apply unsent_stable|]. }
  inversion_clear Hnd as [|? ? Hq Hnd'].
  eapply (triple_bind _ _ _ _ _ _ (λ _, unsent ((q, c) :: ds))).
  { apply job_control; [apply unsent_stable|]. intros s. by apply unsent_cells. }
  intros [[| |] last']; cbn [fst snd].
  - eapply (triple_bind _ _ _ _ _ _ (λ _, unsent ds)); [by apply job_resendDelivery|]. intros _. by apply IH.
  - by apply job_ended; [|apply unsent_stable|].
  - by apply triple_ret; [apply unsent_stable|].
Qed.

Lemma resendable_unsent s : unsent (resendable s) s ∧ NoDup (resendable s).*1.
Proof.
  unfold resendable. set (f := λ q, match cells s !! q with Some c => _ | None => _ end).
  assert (∀ q p, f q = Some p → p.1 = q ∧ cells s !! q = Some p.2 ∧ dstatus (rcell p.2) = delivered_failed) as Hf.
  { intros q p Hp. unfold f in Hp. destruct (cells s !! q) as [c|] eqn:Hc; [|done].
    destruct (is_failed c && _) eqn:Hb; [|done]. injection Hp as <-. apply andb_true_iff in Hb as [Hb%bool_decide_eq_true _]. done. }
  split.
  - intros q c Hin. assert ((q, c) ∈ omap f (merge_sort Nat.le (elements (dom (cells s))))) as Hin'.
    { eapply elem_of_submseteq; [exact Hin|]. apply sublist_submseteq, sublist_take. }
    apply list_elem_of_omap in Hin' as (q' & _ & Hq'). destruct (Hf q' _ Hq') as (<- & Hc & Hd). done.
  - rewrite fmap_take. eapply sublist_NoDup; [|apply sublist_take].
    assert (NoDup (merge_sort Nat.le (elements (dom (cells s))))) as Hnd.
    { rewrite merge_sort_Permutation. apply NoDup_elements. }
    induction Hnd as [|q l Hq _ IH]; [constructor|]. cbn. destruct (f q) as [p|] eqn:Hp; [|exact IH]. rewrite fmap_cons.
    constructor; [|exact IH]. intros ([q' c'] & He & (q2 & Hq2 & Hf2)%list_elem_of_omap)%list_elem_of_fmap.
    destruct (Hf q p Hp) as [H1' _], (Hf q2 _ Hf2) as [H2' _]. cbn in *. congruence.
Qed.

Definition known_end (remaining : nat) (e : bool) (s : ReplayJob) : Prop := e = true → remaining = 0 → all_cells b T s.

Lemma known_end_stable remaining e : keeps (known_end remaining e).
Proof. intros s s1 Ho Hi Hk He Hr. by eapply all_cells_stable, Hk. Qed.

Lemma job_ended_of remaining :
  tri (λ _, True) (if bool_decide (remaining = 0) && is_replay b then streamedToEnd else Ret true) (known_end remaining).
Proof.
  rewrite (bridge_is_replay b T key_at), andb_true_r. case_bool_decide as Hr.
  - apply job_look; [done|apply known_end_stable|]. intros s Hi _ He _.
    destruct (inv_saved _ _ _ _ _ Hi) as (st & Hs & Hst). apply Hst. rewrite <- (saved_end _ _ _ Hs). exact He.
  - apply triple_ret; [done|]. by intros s _ _ _ ?.
Qed.

Lemma job_finish_resend : tri (λ _, True) (finish_resend b) (λ _ _, True).
Proof.
  unfold finish_resend. eapply (triple_bind _ _ _ _ _ _ (λ _ _, True)); [by apply job_look|]. intros remaining.
  eapply (triple_bind _ _ _ _ _ _ (λ _ _, True)); [by apply job_control|]. intros [[| |] last]; cbn [fst].
  - eapply (triple_bind _ _ _ _ _ _ (known_end remaining)); [apply job_ended_of|]. intros [].
    + eapply (triple_bind _ _ _ _ _ _ (λ _ _, True)); [|intros _; by apply triple_ret].
      case_bool_decide as Hr; [|by apply job_finalize; [|apply known_end_stable]].
      eapply triple_pre; [apply job_completed|]. intros s _ Hk. by apply Hk.
    + eapply (triple_bind _ _ _ _ _ _ (λ b' _, b' = b)).
      { apply job_ask; [apply known_end_stable|by intros ? ? ? ? ?|]. intros s n b' _ _. apply (bridge_stays b T key_at). }
      intros b'. apply (triple_pure _ _ _ (b' = b)); [by intros|]. intros ->.
      eapply (triple_bind _ _ _ _ _ _ (λ _ _, True)); [|intros _; by apply triple_ret].
      apply job_write; [by intros ? ? ? ? ?|done|]. intros s [? ? ? ? ? ? ?] _. split_and!; [by split|by split; [left|]|done].
  - by apply job_ended.
  - by apply triple_ret.
Qed.

Lemma job_executeResend : tri (λ _, True) (executeResend jobId) (λ _ _, True).
Proof.
  unfold executeResend. eapply (triple_bind _ _ _ _ _ _ (λ _ _, True)); [by apply job_look|]. intros _.
  eapply (triple_bind _ _ _ _ _ _ (λ _ _, True)).
  { apply job_write; [done|done|]. intros s [? ? ? ? ? ? ?] _. split_and!; [by split|by split; [left|]|done]. }
  intros _. eapply (triple_bind _ _ _ _ _ _ (λ b' _, b' = b)).
  { apply job_ask; [done|by intros ? ? ? ? ?|]. intros s n b' _ _. apply (bridge_stays b T key_at). }
  intros b'. apply (triple_pure _ _ _ (b' = b)); [by intros|]. intros ->.
  eapply (triple_bind _ _ _ _ _ _ (λ ds s, NoDup ds.*1 ∧ unsent ds s)).
  { apply job_look; [by intros ? ? ? ? ?| |].
    - intros ds. apply both_stable; [by intros ? ? ? ? ?|apply unsent_stable].
    - intros s _ _. destruct (resendable_unsent (ticked s)). done. }
  intros ds. apply (triple_pure _ _ _ (NoDup ds.*1)); [by intros s [? _]|]. intros Hnd.
  eapply triple_catch; [apply _| |].
  - eapply (triple_bind _ _ _ _ _ _ (λ _ _, True)).
    + eapply triple_pre; [by apply job_resend_each|]. by intros s _ [_ ?].
    + intros stopped. destruct stopped; [by apply triple_ret|apply job_finish_resend].
  - intros e. cbn beta.
    eapply (triple_bind _ _ _ _ _ _ (λ _ _, True)); [by apply triple_read; [..|apply attempts_refl|]|].
    intros a. eapply (triple_bind _ _ _ _ _ _ (λ _ _, True)).
    + destruct a; [by apply triple_ret|by apply job_look].
    + intros c. eapply (triple_bind _ _ _ _ _ _ (λ _ _, True)); [|intros _; by apply triple_ret].
      destruct c; by apply job_finalize.
Qed.

(** ** One entry *)

(** the row that was read is the job's, up to what others do *)
Definition row_of (row s : ReplayJob) : Prop := Inv row ∧ cursorOffset s = cursorOffset row.

Lemma row_stable row : keeps (row_of row).
Proof. intros s s1 Ho _ [Hi Hs]. split; [done|]. by rewrite (o_offset _ _ Ho). Qed.

Lemma job_read_from row : tri (row_of row) (read_from jobId row) (λ _ _, True).
Proof.
  apply (triple_pure _ _ _ (Inv row)); [by intros s [? _]|]. intros Hi. unfold read_from.
  destruct (inv_saved _ _ _ _ _ Hi) as (st & Hs & _). destruct (inv_aligned _ _ _ _ _ Hi) as (k & Hk & Hle).
  rewrite (saved_checkpoint _ _ _ Hs), (inv_bridge _ _ _ _ _ Hi).
  eapply triple_pre; [apply job_execute; [by rewrite Hk|by exists k]|]. by intros s _ [_ ?].
Qed.

Lemma job_getJobRow : tri (λ _, True) getJobRow row_of.
Proof. apply job_look; [done|apply row_stable|]. intros s Hi _. split; [by apply inv_ticked|done]. Qed.

(** whatever an entry does, it keeps the invariant and does only what it may *)
Lemma job_process m : tri (λ _, True) (process jobId m) (λ _ _, True).
Proof.
  unfold process. eapply (triple_bind _ _ _ _ _ _ row_of); [apply job_getJobRow|]. intros row.
  case_decide; [by apply triple_ret; [apply row_stable|]|].
  case_decide; [by apply job_finalize; [|apply row_stable]|].
  eapply (triple_bind _ _ _ _ _ _ (λ _, row_of row)).
  { apply triple_modify; [apply row_stable|apply row_stable|].
    intros s [? ? ? ? ? ? ?] Hr. split_and!; [by split|by split; [left|]|done]. }
  intros _. destruct m; [apply job_read_from|].
  eapply (triple_bind _ _ _ _ _ _ (λ _ _, True)).
  - eapply triple_pre; [apply job_executeResend|done].
  - intros [|]; [by apply triple_ret|]. eapply (triple_bind _ _ _ _ _ _ row_of); [apply job_getJobRow|apply job_read_from].
Qed.
End worker.
