(* ===== verification/ReplaySystem.v ===== *)
(** A replay as a system: the worker that runs an entry of the queue and may be killed
    between any two calls, and what is asked of the job meanwhile and afterwards. What
    every run of it keeps ([bridge-job.processor.ts], [bridge-job.service.ts]). *)
From stdpp Require Import sorting.
From S2P Require Import Prelude JsText JsNumber JsDate JsValue JsJson JsonText.
From S2P Require Import BridgeConfig TypeMap Bridge Async CdcState TableReader Ledger.
From S2P Require Import Replay ReplaySafety ReplayAttempt ReplayWorker.

Section system.
Context `{JsHost} `{JsPrint} `{!Answers} (jobId : string) (b : BridgeInput).

(** the job, what the worker has left to do, and the entry that waits in the queue *)
Record Worker := {
  wjob : ReplayJob;
  running : option (@async ReplayJob unit);
  entry : option mode
}.

Inductive step (w : Worker) : Worker → Prop :=
| step_take m :
    running w = None → entry w = Some m →
    step w {| wjob := wjob w; running := Some (process jobId m); entry := None |}
| step_act g R (f : ReplayJob → R * ReplayJob) k :
    running w = Some (Act g f k) → g (wjob w) = true →
    step w {| wjob := (f (wjob w)).2; running := Some (k (f (wjob w)).1); entry := entry w |}
| step_returned m :
    running w = Some m → (∃ x, m = Ret x) ∨ (∃ e, m = Throw e) →
    step w {| wjob := wjob w; running := None; entry := entry w |}
(* the process dies; the queue, or the next start of the server, finds the job active *)
| step_killed : step w {| wjob := wjob w; running := None; entry := entry w |}
| step_recovered m :
    running w = None → jstatus (wjob w) ∈ ACTIVE →
    step w {| wjob := wjob w; running := None; entry := Some m |}
(* the entry may be gone from the queue, or not *)
| step_cancel e :
    e = entry w ∨ e = None →
    step w {| wjob := cancel (wjob w); running := running w; entry := e |}
| step_skip qs :
    step w {| wjob := skipDeliveries qs (wjob w); running := running w; entry := entry w |}
(* what is asked of a job that no worker has *)
| step_resume s' :
    running w = None → resume b (wjob w) = Some s' →
    step w {| wjob := s'; running := None; entry := Some stream_mode |}
| step_retry s' :
    running w = None → retryFailed b (wjob w) = Some s' →
    step w {| wjob := s'; running := None; entry := Some stream_mode |}
| step_resend s' :
    running w = None → resendFailed (wjob w) = Some s' →
    step w {| wjob := s'; running := None; entry := Some resend_mode |}
| step_start s' :
    running w = None → start_draft (wjob w) = Some s' →
    step w {| wjob := s'; running := None; entry := Some stream_mode |}.

(** a draft, or a job that was just made *)
Record new_job (s : ReplayJob) : Prop := {
  new_status : jstatus s = run_draft ∨ jstatus s = run_queued;
  new_cursor : cursorOffset s = 0 ∧ cursorJson s = None;
  new_snapshot : snapshot s = b;
  new_cells : cells s = ∅;
  new_sendings : sendings s = []
}.

Inductive reachable : Worker → Prop :=
| reach_new s e : new_job s → reachable {| wjob := s; running := None; entry := e |}
| reach_step w w' : reachable w → step w w' → reachable w'.

(** ** What every run keeps *)

Context (T : list obj) (key_at : nat → option KeysetCheckpoint) `{HS : !StillSource b T key_at}.

Abbreviation bs := (batch_size b).
Abbreviation Inv := (Inv jobId b T key_at).
Abbreviation attempts := (attempts jobId b T).
Abbreviation safe m s := (wp Inv others attempts m (λ _ _, True) (λ _ _, True) s).

Record Good (w : Worker) : Prop := {
  good_job : Inv (wjob w);
  good_worker : match running w with Some m => safe m (wjob w) | None => True end
}.

Lemma inv_new s : new_job s → Inv s.
Proof.
  intros [Hst [Ho Hj] Hn Hc Hl]. split; [done|exists 0; rewrite Ho; split; lia| | | | |].
  - exists false. rewrite Ho, Hj. done.
  - intros q Hq. lia.
  - intros Hd. by destruct Hst; congruence.
  - intros q (c & Hq & _). by rewrite Hc, lookup_empty in Hq.
  - by rewrite Hl.
Qed.

Lemma skip_one_others n s q : others s (skip_one n s q).
Proof.
  unfold skip_one. destruct (cells s !! q) as [c|] eqn:Hq; [reflexivity|]. split; try done; [by left|]. cbn.
  intros q'. destruct (decide (q = q')) as [<-|Hne]; [rewrite lookup_insert_eq; right; by eauto|].
  rewrite lookup_insert_ne by done. by left.
Qed.

Lemma skip_others qs s : others s (skipDeliveries qs s).
Proof.
  unfold skipDeliveries. generalize (snapshotBatchSize s). intros n. revert s. induction qs as [|q qs IH]; intros s; [reflexivity|].
  cbn [foldl]. etransitivity; [apply skip_one_others|apply IH].
Qed.

Lemma cancel_others s : others s (cancel s).
Proof. unfold cancel. case_decide; [reflexivity|]. split; try done; [by right|]. intros q. by left. Qed.

(** what others do keeps the invariant *)
Lemma inv_others s s' : others s s' → Inv s → Inv s'.
Proof.
  intros Ho [Hn Ha Hs Hb Hc Ht He].
  assert (∀ q, is_Some (cells s !! q) → is_Some (cells s' !! q)) as Hk by (intros q; eapply kept_some, Ho).
  split; rewrite ?(o_snapshot _ _ Ho), ?(o_offset _ _ Ho), ?(o_json _ _ Ho), ?(o_sendings _ _ Ho); try done.
  - destruct Hs as (st & Hs & Hall). exists st. split; [done|]. intros Hst' q Hq. by apply Hk, Hall.
  - intros q Hq. by apply Hk, Hb.
  - intros Hd q Hq. apply Hk, Hc; [|done]. destruct (o_status _ _ Ho); congruence.
  - intros q Hq. destruct (Ht q) as (x & Hx & Hq'); [by eapply others_delivered|]. exists x. done.
Qed.

Lemma good_others w s' e : others (wjob w) s' → Good w → Good {| wjob := s'; running := running w; entry := e |}.
Proof.
  intros Ho [Hi Hw]. split; cbn; [by eapply inv_others|]. destruct (running w); [|done]. eapply wp_stable; [apply _|exact Ho|done].
Qed.

Lemma inv_requeued s o j :
  Inv s → (o = cursorOffset s ∧ j = cursorJson s) ∨ (o = 0 ∧ j = None) → Inv (with_cursor o j (requeued b s)).
Proof.
  intros [Hn Ha Hs Hb Hc Ht He] [[-> ->]|[-> ->]]; split; cbn; try done.
  - exists 0. split; lia.
  - exists false. done.
  - intros q Hq. lia.
Qed.

Lemma good_worker_step w w' : Good w → step w w' → Good w'.
Proof.
  intros Hg Hstep. pose proof Hg as [Hi Hw]. destruct Hstep as [m Hr Hen|g R f k Hr Hgd|m Hr _| |m Hr _|e _|qs|s' Hr Hs|s' Hr Hs|s' Hr Hs|s' Hr Hs].
  - split; [done|]. cbn. by apply job_process.
  - rewrite Hr in Hw. destruct (Hw (wjob w) ltac:(reflexivity) Hi Hgd) as (Hi' & _ & Hk). by split.
  - by split.
  - by split.
  - by split.
  - by apply good_others; [apply cancel_others|].
  - by apply good_others; [apply skip_others|].
  - split; [|done]. cbn. unfold resume in Hs. case_decide; [|done]. injection Hs as <-.
    apply (inv_requeued _ (cursorOffset (wjob w)) (cursorJson (wjob w))); [done|by left].
  - split; [|done]. cbn. unfold retryFailed in Hs. case_decide; [|done]. destruct (failed_left (wjob w) =? 0); [done|]. injection Hs as <-.
    by apply inv_requeued; [|right].
  - split; [|done]. cbn. unfold resendFailed in Hs. case_decide; [done|]. destruct (failed_left (wjob w) =? 0); [done|]. injection Hs as <-.
    destruct Hi. by split.
  - split; [|done]. cbn. unfold start_draft in Hs. case_decide; [|done]. injection Hs as <-. destruct Hi. by split.
Qed.

Lemma reachable_worker_good w : reachable w → Good w.
Proof. induction 1 as [s e Hn|w w' _ IH Hstep]; [split; [by apply inv_new|done]|by eapply good_worker_step]. Qed.

(** ** What a step does to the ledger *)

Lemma skip_attempts qs s : attempts s (skipDeliveries qs s).
Proof.
  split; [left; apply (o_sendings _ _ (skip_others qs s))|]. intros q (c & Hc & Hd).
  destruct (o_cells _ _ (skip_others qs s) q) as [He|[Hn _]]; [exists c; by rewrite He|congruence].
Qed.

Lemma step_attempts w w' : Good w → step w w' → attempts (wjob w) (wjob w').
Proof.
  intros [Hi Hw] Hstep. destruct Hstep as [m Hr Hen|g R f k Hr Hgd|m Hr _| |m Hr _|e _|qs|s' Hr Hs|s' Hr Hs|s' Hr Hs|s' Hr Hs];
    try apply attempts_refl; cbn.
  - rewrite Hr in Hw. by destruct (Hw (wjob w) ltac:(reflexivity) Hi Hgd) as (_ & Ha & _).
  - unfold cancel. case_decide; [apply attempts_refl|]. by split; [left|].
  - apply skip_attempts.
  - unfold resume in Hs. case_decide; [|done]. injection Hs as <-. by split; [left|].
  - unfold retryFailed in Hs. case_decide; [|done]. destruct (failed_left (wjob w) =? 0); [done|]. injection Hs as <-. by split; [left|].
  - unfold resendFailed in Hs. case_decide; [done|]. destruct (failed_left (wjob w) =? 0); [done|]. injection Hs as <-. by split; [left|].
  - unfold start_draft in Hs. case_decide; [|done]. injection Hs as <-. by split; [left|].
Qed.

(** C18. A replay of a source that holds still, of a bridge whose settings stay (its
    batch size is part of every number and key), however often it is killed, canceled,
    resumed, retried and sent again. Every sending of it is exact: what was streamed is
    a batch of the source, whole and in order, under the number and the key that are
    that batch's own; what was sent again is, for some cell, what [resent] makes of it:
    the captured rows less the targets that took them, or the captured body under the
    batch's own key ([delivered_is_not_sent_again] says of which cell). A batch that is
    recorded delivered was taken by the destination. A job that completed has a record
    for every batch of the source. *)
Theorem replay_is_exact w :
  reachable w →
  Forall (λ p, exact_send jobId b T p.1) (sendings (wjob w)) ∧
  (∀ q, delivered_cell (cells (wjob w)) q → taken (wjob w) q) ∧
  (jstatus (wjob w) = run_completed → ∀ q, in_source b T q → is_Some (cells (wjob w) !! q)).
Proof. intros Hr. destruct (reachable_worker_good w Hr) as [[_ _ _ _ Hc Ht He] _]. done. Qed.

(** C19. Of the same replays, step by step: a batch that is recorded delivered stays
    so, and a step sends at most one thing, never of a batch that is recorded delivered.
    A batch that is streamed is sent without the targets its own failed record says
    took it. What is sent again is the batch of a record that failed and whose capture
    is whole: the rows that very record captured, without the targets it says took
    them, or the body it captured. *)
Theorem delivered_is_not_sent_again w w' :
  reachable w → step w w' →
  (∀ q, delivered_cell (cells (wjob w)) q → delivered_cell (cells (wjob w')) q) ∧
  (sendings (wjob w') = sendings (wjob w) ∨
   ∃ x taken, sendings (wjob w') = sendings (wjob w) ++ [(x, taken)] ∧
     ¬ delivered_cell (cells (wjob w)) (sequence_of x) ∧
     match x with
     | Streamed q _ _ skip _ => skip = default [] (cells (wjob w) !! q ≫= failed_targets)
     | Resent q _ _ _ =>
         ∃ c, cells (wjob w) !! q = Some c ∧ dstatus (rcell c) = delivered_failed ∧
              rtruncated c = false ∧ x = resent jobId b q c
     end).
Proof.
  intros Hr Hstep. destruct (step_attempts w w' (reachable_worker_good w Hr) Hstep) as [Hs Hk]. split; [done|].
  destruct Hs as [Hs|(x & tk & Hs & _ & Hd & Hskip)]; [by left|right]. by exists x, tk.
Qed.
End system.
