(* ===== verification/ReplaySource.v ===== *)
(** The reader of tables, as a replay relies on it: over a table that holds still, a
    reading by key from the checkpoint behind some rows hands over the rows behind
    them ([table-reader.service.ts], against the interface of [ReplaySafety]). *)
From Stdlib Require Import Sorted.
From S2P Require Import Prelude JsText JsNumber JsDate JsValue JsJson JsonText.
From S2P Require Import BridgeConfig TypeMap Bridge Async CdcState TableReader Ledger Replay ReplaySafety.

Section source.
Context (lt : jsval → jsval → bool) (key : obj → jsval) (T : list obj).
Context (browse : nat → BrowseParams → string + Page) (ask : jsval → BrowseParams) (n : nat).
Context (HT : KeysetTable lt key (λ _, T) browse ask n) (name : string).

(** the checkpoint behind [off] rows *)
Definition checkpoint (off : nat) : option KeysetCheckpoint :=
  match off with
  | 0 => None
  | S i => (λ row, {| kcolumn := name; kvalue := key row |}) <$> T !! i
  end.

Abbreviation items := (items_from T checkpoint).
Abbreviation behind := (after lt key (λ _, T) 0).

(** the key a reading goes on after, behind [off] rows *)
Definition last_key (off : nat) : jsval :=
  match off with 0 => VNull | S i => match T !! i with Some row => key row | None => VNull end end.

Lemma above_row row k : row ∈ T → above lt (key row) k = lt (key row) k.
Proof. intros Hr. unfold above. by rewrite (table_keys (KeysetTable := HT) 0 row Hr). Qed.

Lemma sorted_split (l : list obj) i row :
  StronglySorted (key_lt lt key) l → l !! i = Some row →
  Forall (λ x, lt (key x) (key row) = true) (take i l) ∧ Forall (λ x, lt (key row) (key x) = true) (drop (S i) l).
Proof.
  intros Hs. revert i. induction Hs as [|x l Hs IH Hx]; intros i Hi; [done|]. destruct i as [|i].
  - injection Hi as ->. split; [constructor|exact Hx].
  - destruct (IH i Hi) as [H1 H2]. split; [|done]. constructor; [|done].
    rewrite Forall_forall in Hx. apply Hx. by eapply list_elem_of_lookup_2.
Qed.

Lemma filter_none {A} (P : A → Prop) `{!∀ x, Decision (P x)} (l : list A) : Forall (λ x, ¬ P x) l → filter P l = [].
Proof. induction 1 as [|x l Hx _ IH]; [done|]. by rewrite filter_cons_False. Qed.

Lemma filter_whole {A} (P : A → Prop) `{!∀ x, Decision (P x)} (l : list A) : Forall P l → filter P l = l.
Proof. induction 1 as [|x l Hx _ IH]; [done|]. by rewrite filter_cons_True, IH. Qed.

(** the rows after a row's key are the rows behind it *)
Lemma after_row i row : T !! i = Some row → behind (key row) = drop (S i) T.
Proof.
  intros Hi. destruct (sorted_split T i row (table_sorted (KeysetTable := HT) 0) Hi) as [Hb Ha].
  pose proof (list_elem_of_lookup_2 _ _ _ Hi) as Hin. unfold after.
  assert (T = take i T ++ row :: drop (S i) T) as HTs by (symmetry; by apply take_drop_middle).
  rewrite HTs at 1. rewrite filter_app, filter_cons_False.
  2:{ rewrite (above_row row _ Hin), (order_irrefl (KeysetTable := HT)). done. }
  rewrite filter_none, filter_whole; [done| |].
  - eapply Forall_impl; [exact Ha|]. intros x Hx. by rewrite (above_row row _ Hin).
  - eapply Forall_impl; [exact Hb|]. intros x Hx Hc. cbn beta in *. rewrite (above_row row _ Hin) in Hc.
    pose proof (order_trans (KeysetTable := HT) _ _ _ Hx Hc) as Hbad. by rewrite (order_irrefl (KeysetTable := HT)) in Hbad.
Qed.

Lemma behind_last off : off ≤ List.length T → behind (last_key off) = drop off T.
Proof.
  intros Hoff. destruct off as [|i]; cbn [last_key].
  - unfold after. apply filter_whole, Forall_forall. done.
  - destruct (lookup_lt_is_Some_2 T i) as [row Hi]; [lia|]. rewrite Hi. by apply after_row.
Qed.

Lemma numbered_items off rows rest :
  drop off T = rows ++ rest →
  numbered off (λ row, Some {| kcolumn := name; kvalue := key row |}) rows = take (List.length rows) (items off).
Proof.
  intros Hd. unfold items_from. rewrite Hd, imap_app, take_app_length' by (by rewrite length_imap).
  apply imap_ext. intros i row Hi. f_equal. cbn [checkpoint].
  assert (T !! (off + i) = Some row) as ->; [|done]. rewrite <- lookup_drop, Hd. by apply lookup_app_l_Some.
Qed.

Lemma items_split off m : off + m ≤ List.length T → items off = take m (items off) ++ items (off + m).
Proof.
  intros Hm. unfold items_from. rewrite <- (take_drop m (drop off T)) at 1. rewrite drop_drop, imap_app.
  assert (List.length (take m (drop off T)) = m) as Hl by (rewrite length_take, length_drop; lia).
  f_equal.
  - rewrite <- (take_drop m (drop off T)) at 2. rewrite imap_app, take_app_length'; [done|]. by rewrite length_imap.
  - rewrite Hl. apply imap_ext. intros i row _. cbn. by rewrite !Nat.add_assoc.
Qed.

Definition cut_items (off : nat) (r : reading) : Prop :=
  ∃ m, r.1 = take m (items off) ∧ (r.2 = None → r.1 = items off).

(** a reading by key, page after page *)
Lemma still_pages fuel t off r :
  off ≤ List.length T → keyset_pages browse fuel t ask name key (last_key off) off = Some r → cut_items off r.
Proof.
  revert t off r. induction fuel as [|fuel IH]; intros t off r Hoff; cbn [keyset_pages]; [done|].
  destruct (browse t (ask (last_key off))) as [e|page] eqn:Hb; [intros [= <-]; by exists 0|].
  destruct (browse_answers (KeysetTable := HT) t _ _ Hb) as [Hrows Hmore].
  change (after lt key (λ _, T) t (last_key off)) with (behind (last_key off)) in *. rewrite behind_last in Hrows, Hmore by done.
  pose proof (some_rows (KeysetTable := HT)) as Hn.
  assert (numbered off (λ row, Some {| kcolumn := name; kvalue := key row |}) (prows page) =
    take (List.length (prows page)) (items off)) as Hnum.
  { apply (numbered_items off _ (drop n (drop off T))). by rewrite Hrows, take_drop. }
  rewrite Hnum. assert (List.length (items off) = List.length T - off) as Hli.
  { unfold items_from. by rewrite length_imap, length_drop. }
  assert (List.length (prows page) = n `min` (List.length T - off)) as Hlp by (by rewrite Hrows, length_take, length_drop).
  rewrite length_drop in Hmore. unfold last_page. rewrite Hmore.
  destruct (decide (n < List.length T - off)) as [Hlt|Hge].
  - rewrite (proj2 (Nat.ltb_lt _ _) Hlt), bool_decide_eq_false_2 by lia. cbn [negb orb].
    intros Hgo. apply fmap_Some in Hgo as (r' & Hgo & ->).
    destruct (lookup_lt_is_Some_2 T (off + n - 1)) as [row Hrow]; [lia|].
    assert (list.last (prows page) = Some row) as Hlast.
    { rewrite last_lookup, Hlp, Nat.min_l by lia. rewrite Hrows, lookup_take_lt by lia. rewrite lookup_drop, <- Hrow. f_equal. lia. }
    rewrite Hlast, Hlp, Nat.min_l in * by lia.
    assert (key row = last_key (off + n)) as Hk.
    { replace (off + n) with (S (off + n - 1)) by lia. cbn [last_key]. by rewrite Hrow. }
    rewrite Hk in Hgo. destruct (IH _ (off + n) r' ltac:(lia) Hgo) as (m & Hm & He). exists (n + m). cbn [with_rows fst snd].
    pose proof (items_split off n ltac:(lia)) as Hsp. set (page_items := take n (items off)) in *.
    assert (List.length page_items = n) as Hl by (apply length_take_le; lia). split.
    + rewrite Hsp, Hm, <- Hl. by rewrite take_app_add.
    + intros Hnone. by rewrite Hsp, (He Hnone).
  - rewrite (proj2 (Nat.ltb_ge _ _)) by lia. cbn [negb orb]. intros [= <-]. cbn [fst snd].
    exists (List.length (prows page)). split; [done|]. intros _. apply take_ge. lia.
Qed.

(** ** The reader discharges the interface *)

Context (src : TableSource) (order : TableOrder).
Hypothesis by_key : keyset_of src n order = Some (name, key, ask).

Lemma resumes_behind off : 0 < off ≤ List.length T → resume_from order off (checkpoint off) = Some (last_key off).
Proof.
  intros Hoff. destruct off as [|i]; [lia|]. destruct (lookup_lt_is_Some_2 T i) as [row Hi]; [lia|].
  unfold resume_from. cbn [checkpoint last_key Nat.eqb]. rewrite Hi. cbn [fmap option_fmap option_map].
  unfold keyset_of in by_key. destruct (ocursorPaging order); [done|].
  destruct (okeysetColumns order) as [|c cs]; [destruct (okeysetColumn order) as [c|]; [|done]|];
    injection by_key as <- <- _; cbn [kcolumn kvalue].
  - by rewrite bool_decide_eq_true_2.
  - unfold resume_tuple, tuple_of. cbn [kcolumn kvalue]. rewrite bool_decide_eq_true_2 by done.
    by rewrite length_fmap, Nat.eqb_refl.
Qed.

(** a reading that runs out of fuel counts as one that fails *)
Definition reading_of (fuel off : nat) (k : option KeysetCheckpoint) : reading :=
  default ([], Some "the reading goes on") (rows browse src n order fuel off k).

Theorem reader_holds fuel off :
  off ≤ List.length T → cut_items off (reading_of fuel off (if off =? 0 then None else checkpoint off)).
Proof.
  intros Hoff. unfold reading_of.
  destruct (rows browse src n order fuel off _) as [r|] eqn:Hr; [|by exists 0; split]. cbn.
  rewrite (rows_keyset src n order browse name key ask _ _ _ (last_key off) by_key) in Hr.
  - by eapply still_pages.
  - destruct off as [|i]; [done|]. apply resumes_behind. lia.
Qed.
End source.
