(* ===== verification/ReplaySample.v ===== *)
(** Small replays: one that is killed on its way and recovered, and three that go
    wrong when something is not as the theorems of [ReplaySystem] assume. *)
From S2P Require Import Prelude JsText JsNumber JsDate JsValue JsJson JsonText.
From S2P Require Import BridgeConfig TypeMap Bridge Async CdcState TableReader Ledger.
From S2P Require Import Replay ReplaySafety ReplayAttempt ReplayWorker ReplaySystem ReplaySource.

(** rows with these ids *)
Definition ids (ts : list string) : list obj := (λ t, [("id", VStr t)]) <$> ts.

Definition text_key_lt (a b : jsval) : bool :=
  match a, b with VStr x, VStr y => str_lt x y | _, _ => false end.

Lemma str_lt_trans a b c : str_lt a b = true → str_lt b c = true → str_lt a c = true.
Proof.
  unfold str_lt, str_compare. intros Hab Hbc.
  destruct (chars_compare (chars a) (chars b)) eqn:H1; try done. destruct (chars_compare (chars b) (chars c)) eqn:H2; try done.
  by rewrite (chars_compare_trans _ _ _ H1 H2).
Qed.

Lemma str_lt_irrefl a : str_lt a a = false.
Proof. unfold str_lt. by rewrite (proj2 (str_compare_eq a a) eq_refl). Qed.

(** an engine that answers from a table *)
Definition engine_of (rows : list obj) (t : nat) (p : BrowseParams) : string + Page :=
  let last := match bfilters p with [f] => fvalue f | _ => VNull end in
  let all := after text_key_lt id_of (λ _, rows) t last in
  inr {| prows := take (blimit p) all; phasMore := blimit p <? List.length all; pnextCursor := None |}.

Definition users : TableSource := reader_source.

Definition copy_bridge (size : Z) : BridgeInput :=
  {| bname := "users"; source := FromTable users;
     destination := Http {| url := "https://example.org/in"; method := POST; headers := None;
                            auth := NoAuth; idempotency := true |};
     transform := {| payload := {| Template.template := "{{$row}}"; Template.fields := None; Template.rename := None;
                                   Template.wrapKey := None |};
                     columns := None |};
     delivery := {| batchSize := size; BridgeConfig.maxAttempts := 3; backoffMs := 500; backoffMaxMs := 30000; minDelayMs := 0;
                    timeoutMs := 15000; pageSize := 2; onError := abort_on_error; onSchemaChange := schema_stop |};
     trigger := BridgeConfig.Replay None;
     benabled := true |}.

Definition answered (ok : bool) : Sent :=
  {| soutcome := {| success := ok; oattempts := 1; oerror := None; osucceededTargets := None |};
     sbody := Some "{}"; struncated := None |}.

(** a store that never refuses, a table that holds still, read two rows at a time, and
    a destination that refuses some batches *)
#[local] Instance sample_answers (rows : list obj) (size : Z) (refused : nat → bool) (probe : string + list string) : Answers := {|
  db_refuses _ := None;
  sink_answers _ _ x := inr (answered (negb (refused (sequence_of x))));
  drift_answers _ _ := inr None;
  drift_watches _ _ := inr false;
  probe_answers _ _ := probe;
  order_answers _ _ := inr by_id;
  reader_answers _ _ _ off k := reading_of (engine_of rows) 2 users by_id 9 off k;
  query_answers _ _ := inl "not a query";
  current_bridge _ := inr (copy_bridge size);
  clock_at n := Z.of_nat n
|}.

(** ** A table that holds still *)

Definition five : list obj := ids ["1"; "2"; "3"; "4"; "5"].

Lemma five_keyset :
  KeysetTable text_key_lt id_of (λ _, five) (engine_of five) (ask_key users 2 (osort by_id) "id") 2.
Proof.
  split.
  - intros [] [] []; try done. apply str_lt_trans.
  - intros []; try done. apply str_lt_irrefl.
  - intros _. repeat constructor; vm_compute; reflexivity.
  - intros _ r. cbn. rewrite !elem_of_cons. intros H; destruct_or!; subst; try done. by apply elem_of_nil in H.
  - lia.
  - intros t last page. unfold engine_of, ask_key. intros [= <-].
    destruct (is_nil last) eqn:Hl; [|done]. unfold after. cbn [bfilters base_params]. by destruct last.
Qed.

#[local] Existing Instance sample_answers.

Definition key_at : nat → option KeysetCheckpoint := checkpoint id_of five "id".

Abbreviation five_answers := (sample_answers five 2 (λ _, false) (inr ["id"])).

Lemma five_source : @StillSource five_answers (copy_bridge 2) five key_at.
Proof.
  split.
  - right. intros [|n] Hn; [lia|]. destruct (lookup_lt_is_Some_2 five n) as [row Hr]; [lia|].
    unfold key_at, checkpoint. rewrite Hr. by eexists.
  - intros n. do 7 (destruct n as [|n]; [vm_compute; reflexivity|]). done.
  - cbn [source copy_bridge]. intros t t' o off [= <-] Hoff.
    apply (reader_holds text_key_lt id_of five (engine_of five) (ask_key users 2 (osort by_id) "id") 2 five_keyset
             "id" users by_id eq_refl 9 off Hoff).
  - vm_compute. lia.
  - done.
  - by intros t b' [= <-].
Qed.

(** ** Running it *)

Definition fresh_job (size : Z) : ReplayJob :=
  {| jstatus := run_queued; jfailure := None; cursorOffset := 0; cursorJson := None; snapshot := copy_bridge size;
     totalCount := None; jcounters := {| sentCount := 0; failedCount := 0; skippedCount := 0 |}; cells := ∅;
     notice := None; parked := ∅; aborted := false; sendings := []; rtick := 0 |}.

(** so many calls of a program *)
Fixpoint calls (n : nat) (m : @async ReplayJob unit) (s : ReplayJob) : @async ReplayJob unit * ReplayJob :=
  match n, m with
  | S n, Act g f k => if g s then calls n (k (f s).1) (f s).2 else (m, s)
  | _, _ => (m, s)
  end.

Lemma reachable_calls `{!Answers} b n m s e :
  reachable "job" b {| wjob := s; running := Some m; entry := e |} →
  reachable "job" b {| wjob := (calls n m s).2; running := Some (calls n m s).1; entry := e |}.
Proof.
  revert m s. induction n as [|n IH]; intros m s Hr; [done|].
  destruct m as [x|x|g R f k]; [done..|]. cbn [calls]. destruct (g s) eqn:Hg; [|done].
  apply IH. eapply reach_step; [exact Hr|]. 
  exact (step_act "job" b {| wjob := s; running := Some (Act g f k); entry := e |} g R f k eq_refl Hg).
Qed.

(** killed after so many calls, found again and run to its end *)
Definition killed_after (n : nat) : ReplayJob := (calls n (process (H1 := five_answers) "job" stream_mode) (fresh_job 2)).2.
Definition recovered_run (n : nat) : ReplayJob := (calls 200 (process (H1 := five_answers) "job" stream_mode) (killed_after n)).2.

Definition sent_batches (s : ReplayJob) : list (nat * list jsval) :=
  omap (λ p, match p.1 with Streamed q _ rows _ _ => Some (q, id_of <$> rows) | Resent _ _ _ _ => None end) (sendings s).

Definition texts (ts : list string) : list jsval := VStr <$> ts.

(** killed between the delivery of its first batch and its record: it is sent again,
    whole and under the same key *)
Example killed_run_completes :
  jstatus (recovered_run 17) = run_completed ∧
  sent_batches (killed_after 17) = [(0, texts ["1"; "2"])] ∧
  sent_batches (recovered_run 17) =
    [(0, texts ["1"; "2"]); (0, texts ["1"; "2"]); (1, texts ["3"; "4"]); (2, texts ["5"])].
Proof. vm_compute. done. Qed.

Definition killed_worker : Worker := {| wjob := killed_after 17; running := None; entry := None |}.

(** what the worker has left after so many calls of the attempt that found it again *)
Definition resumed_worker (n : nat) : Worker :=
  let m := process (H1 := five_answers) "job" stream_mode in
  {| wjob := (calls n m (killed_after 17)).2; running := Some (calls n m (killed_after 17)).1; entry := None |}.

Lemma reachable_killed `{!Answers} b w :
  reachable "job" b w → reachable "job" b {| wjob := wjob w; running := None; entry := entry w |}.
Proof. intros Hr. eapply reach_step; [exact Hr|apply step_killed]. Qed.

Lemma reachable_taken `{!Answers} b s m :
  reachable "job" b {| wjob := s; running := None; entry := Some m |} →
  reachable "job" b {| wjob := s; running := Some (process "job" m); entry := None |}.
Proof.
  intros Hr. eapply reach_step; [exact Hr|].
  exact (step_take "job" b {| wjob := s; running := None; entry := Some m |} m eq_refl eq_refl).
Qed.

Lemma reachable_recovered `{!Answers} b s m :
  jstatus s ∈ ACTIVE → reachable "job" b {| wjob := s; running := None; entry := None |} →
  reachable "job" b {| wjob := s; running := None; entry := Some m |}.
Proof.
  intros Hs Hr. eapply reach_step; [exact Hr|].
  exact (step_recovered "job" b {| wjob := s; running := None; entry := None |} m eq_refl Hs).
Qed.

Lemma fresh_reachable : reachable (H1 := five_answers) "job" (copy_bridge 2)
  {| wjob := fresh_job 2; running := None; entry := Some stream_mode |}.
Proof. apply reach_new. split; try done. by right. Qed.

Lemma reachable_killed_calls `{!Answers} b n m s :
  reachable "job" b {| wjob := s; running := Some m; entry := None |} →
  reachable "job" b {| wjob := (calls n m s).2; running := None; entry := None |}.
Proof. intros Hr. exact (reachable_killed b _ (reachable_calls b n m s None Hr)). Qed.

Lemma killed_reachable : reachable (H1 := five_answers) "job" (copy_bridge 2) killed_worker.
Proof.
  unfold killed_worker, killed_after.
  refine (reachable_killed_calls (copy_bridge 2) 17 (process (H1 := five_answers) "job" stream_mode) (fresh_job 2) _).
  exact (reachable_taken (copy_bridge 2) (fresh_job 2) stream_mode fresh_reachable).
Qed.

Lemma found_again : reachable (H1 := five_answers) "job" (copy_bridge 2)
  {| wjob := killed_after 17; running := None; entry := Some stream_mode |}.
Proof.
  apply reachable_recovered; [|exact killed_reachable].
  apply (bool_decide_eq_true_1 _). vm_compute. reflexivity.
Qed.

Lemma resumed_reachable n : reachable (H1 := five_answers) "job" (copy_bridge 2) (resumed_worker n).
Proof.
  unfold resumed_worker. cbv zeta.
  refine (reachable_calls (copy_bridge 2) n (process (H1 := five_answers) "job" stream_mode) (killed_after 17) None _).
  exact (reachable_taken (copy_bridge 2) (killed_after 17) stream_mode found_again).
Qed.

Lemma resumed_completes : jstatus (wjob (resumed_worker 200)) = run_completed.
Proof. vm_compute. reflexivity. Qed.

Lemma replay_is_exact_witness :
  Forall (λ p, exact_send "job" (copy_bridge 2) five p.1) (sendings (wjob (resumed_worker 200))) ∧
  ∀ q, in_source (copy_bridge 2) five q → is_Some (cells (wjob (resumed_worker 200)) !! q).
Proof.
  destruct (replay_is_exact (H1 := five_answers) "job" (copy_bridge 2) five key_at (HS := five_source)
              (resumed_worker 200) (resumed_reachable 200)) as (Hs & _ & Hc).
  split; [exact Hs|exact (Hc resumed_completes)].
Defined.

Definition found_worker : Worker := {| wjob := killed_after 17; running := None; entry := Some stream_mode |}.
Definition taken_worker : Worker :=
  {| wjob := wjob found_worker; running := Some (process (H1 := five_answers) "job" stream_mode); entry := None |}.

Lemma delivered_is_not_sent_again_witness :
  entry found_worker = Some stream_mode ∧
  ∀ q, delivered_cell (cells (wjob found_worker)) q → delivered_cell (cells (wjob taken_worker)) q.
Proof.
  split; [exact eq_refl|].
  refine (proj1 (delivered_is_not_sent_again (H1 := five_answers) "job" (copy_bridge 2) five key_at (HS := five_source)
           found_worker taken_worker found_again _)).
  exact (step_take (H1 := five_answers) "job" (copy_bridge 2) found_worker stream_mode eq_refl eq_refl).
Defined.

(** ** What the theorems assume, and the code does not check *)

Definition ran (s : option ((string + unit) * ReplayJob)) : ReplayJob :=
  match s with Some (_, s) => s | None => fresh_job 0 end.

Definition attempt (a : Answers) (s : ReplayJob) : ReplayJob := ran (exec (process (H1 := a) "job" stream_mode) s).

Definition edited (size : Z) (s : ReplayJob) : ReplayJob := default s (resume (copy_bridge size) s).
Definition retried (size : Z) (s : ReplayJob) : ReplayJob := default s (retryFailed (copy_bridge size) s).

Definition eight : list obj := ids ["1"; "2"; "3"; "4"; "5"; "6"; "7"; "8"].

(** row by row, the fourth is refused and the job stops. The batches are then made
    larger, and the job is resumed: its next batch, rows 5 to 8, bears a number that is
    already delivered. It completes without having sent them *)
Definition stopped_at_four : ReplayJob := attempt (sample_answers eight 1 (λ q, q =? 3) (inr ["id"])) (fresh_job 1).

Definition larger_batches : ReplayJob := attempt (sample_answers eight 4 (λ _, false) (inr ["id"])) (edited 4 stopped_at_four).

Example larger_batches_are_skipped :
  jstatus larger_batches = run_completed ∧
  sent_batches larger_batches =
    [(0, texts ["1"]); (1, texts ["2"]); (2, texts ["3"]); (3, texts ["4"])].
Proof. vm_compute. done. Qed.

(** the second batch of two is refused; a row of the first is then deleted, and what
    failed is retried: row 3 has moved into the batch that is delivered. The job
    completes, nothing has failed, and row 3 was never taken *)
Definition second_refused : ReplayJob :=
  attempt (sample_answers (ids ["1"; "2"; "3"; "4"]) 2 (λ q, q =? 1) (inr ["id"])) (fresh_job 2).

Definition retried_without_one : ReplayJob :=
  attempt (sample_answers (ids ["2"; "3"; "4"]) 2 (λ _, false) (inr ["id"])) (retried 2 second_refused).

Example retry_passes_a_failed_row :
  jstatus retried_without_one = run_completed ∧ failed_left retried_without_one = 0 ∧
  (λ p, (sequence_of p.1, p.2)) <$> sendings retried_without_one = [(0, true); (1, false); (1, true)] ∧
  sent_batches retried_without_one = [(0, texts ["1"; "2"]); (1, texts ["3"; "4"]); (1, texts ["4"])].
Proof. vm_compute. done. Qed.

(** the table cannot be asked for its key, before the [try]: the entry fails, and the
    job stays running with nobody at work on it *)
Example unasked_key_leaves_it_running :
  let r := exec (process (H1 := sample_answers five 2 (λ _, false) (inl "connection refused")) "job" stream_mode) (fresh_job 2) in
  fst <$> r = Some (inl "connection refused") ∧ (jstatus ∘ snd <$> r) = Some run_running.
Proof. vm_compute. done. Qed.
