(* ===== verification/CdcProgress.v ===== *)
(** Nothing waits for ever: the delivery waits for nothing, and the chain only for
    the delivery in flight. *)
From S2P Require Import Prelude JsText JsNumber JsDate JsValue JsJson.
From S2P Require Import BridgeConfig ColumnTransforms FilterMatch TypeMap SchemaDrift.
From S2P Require Import Isolate Async Bridge CdcState Ledger Cdc CdcSystem CdcSafety CdcWorker.
From S2P Require Import CdcChain CdcTheorems CdcRun.

Local Open Scope async_scope.

(** one step towards the program's next action; a [match] is taken apart *)
Ltac waits_step :=
  match goal with
  | |- waits_for _ (bind _ _) => apply waits_bind; [|intros ?]
  | |- waits_for _ (catch _ _) => apply waits_catch; [|intros ?]
  | |- waits_for _ (atomically _) => apply waits_atomically
  | |- waits_for _ (read _) => apply waits_atomically
  | |- waits_for _ (modify _) => apply waits_atomically
  | |- waits_for _ (call _) => apply waits_call
  | |- waits_for _ (store_call _) => apply waits_call
  | |- waits_for _ (store_query _) => apply waits_call
  | |- waits_for _ (Ret _) => exact I
  | |- waits_for _ (match ?x with _ => _ end) => destruct x
  | |- waits_for _ (let '(_, _) := ?x in _) => destruct x
  end.
Ltac waits := repeat first [solve [auto with waits nocore] | waits_step].

Section progress.
Context `{JsHost} `{JsPrint} `{Outside}.
Context (bridge : BridgeInput) (config : RuntimeConfig) (provider : CdcProvider) (jobId : string).
Context (g0 : Sys → bool).

Lemma waits_halt status m : waits_for g0 (halt status m).
Proof. unfold halt, ignore. waits. Qed.

Lemma waits_record q rows o : waits_for g0 (record q rows o).
Proof. unfold record, recordDelivery. waits. Qed.

Lemma waits_checkpoint n c : waits_for g0 (checkpoint n c).
Proof. unfold checkpoint. waits. Qed.
#[local] Hint Resolve waits_halt waits_record waits_checkpoint : waits.

Lemma waits_settle (work : @async Sys unit) : waits_for g0 work → waits_for g0 (settle work).
Proof.
  intros Hw. unfold settle. generalize EmptyString. induction SETTLE_ATTEMPTS as [|n IH];
    intros e; cbn [settle_attempts]; [auto with waits|]. waits.
Qed.

Lemma waits_handleFailedBatch rows o q c outcome :
  waits_for g0 (handleFailedBatch bridge config rows o q c outcome).
Proof. unfold handleFailedBatch, stop_batch, tell_apart, set_aside, park. waits. Qed.

(** the delivery waits for nothing *)
Lemma waits_deliverBatch b :
  cdcSpool config = false → waits_for g0 (deliverBatch bridge config jobId b).
Proof.
  intros Hd. unfold deliverBatch, spooled. rewrite Hd. unfold settle_delivery, attempt.
  repeat first [apply waits_settle | apply waits_handleFailedBatch | solve [auto with waits nocore]
               | waits_step].
Qed.
End progress.

Section chain.
Context `{JsHost} `{JsPrint} `{Outside}.
Context (bridge : BridgeInput) (config : RuntimeConfig) (provider : CdcProvider) (jobId : string).

Abbreviation waits_chain := (waits_for nothing_in_flight).

Lemma waits_flush : waits_chain flush.
Proof. unfold flush. apply waits_bind; [by waits|]. intros [|]; [|done]. by split. Qed.

Lemma waits_idle : waits_chain (wait_for nothing_in_flight).
Proof. by split. Qed.
#[local] Hint Resolve waits_halt waits_record waits_checkpoint waits_flush waits_idle : waits.

Lemma waits_whole_value_search ts found : waits_chain (whole_value_search ts found).
Proof. revert found. induction ts as [|t ts IH]; intros found; cbn [whole_value_search]; waits. Qed.

Lemma waits_read_back n row key missing : waits_chain (read_back bridge n row key missing).
Proof. induction n as [|n IH]; cbn [read_back]; waits. Qed.
#[local] Hint Resolve waits_whole_value_search waits_read_back : waits.

Lemma waits_completeRow src c : waits_chain (completeRow bridge src c).
Proof. unfold completeRow, hasWholeValueTarget. waits. Qed.

Lemma waits_check_columns c : waits_chain (check_columns provider c).
Proof. unfold check_columns. waits. Qed.

Lemma waits_join_batch c : waits_chain (join_batch bridge config c).
Proof. unfold join_batch. waits. Qed.

Lemma waits_notePosition c : waits_chain (notePosition provider c).
Proof. unfold notePosition. waits. Qed.
#[local] Hint Resolve waits_completeRow waits_check_columns waits_join_batch waits_notePosition : waits.

Lemma waits_accept c : waits_chain (accept bridge config provider c).
Proof. unfold accept, accept_row, accept_truncate. waits. Qed.

Lemma waits_handleNotice m c :
  cdcSpool config = false → waits_chain (handleNotice config provider m c).
Proof.
  intros Hd. unfold handleNotice, spooled. rewrite Hd.
  repeat first [apply waits_settle | solve [auto with waits nocore] | waits_step].
  unfold recordNotice. waits.
Qed.

Lemma waits_handle e : cdcSpool config = false → waits_chain (handle bridge config provider e).
Proof.
  intros Hd. destruct e; [apply waits_accept|apply waits_notePosition|by apply waits_handleNotice].
Qed.

Lemma waits_handleFatal m : waits_chain (handleFatal m).
Proof. unfold handleFatal. waits. Qed.

Lemma waits_handlePositionLost m : waits_chain (handlePositionLost m).
Proof. unfold handlePositionLost, ignore. waits. Qed.
End chain.

Section system.
Context `{JsHost} `{JsPrint} `{Outside}.
Context (bridge : BridgeInput) (config : RuntimeConfig) (provider : CdcProvider) (jobId : string).
Context (log : list LogEvent).

(** one action of the chain or of the delivery, or the end of either *)
Definition turn (p p' : Process) : Prop :=
  chain_turn bridge config jobId p = Some p' ∨ delivery_turn p = Some p'.

Definition at_rest (p : Process) : Prop := handler p = None ∧ writer p = None.

(** ** Every schedule of turns ends *)

Lemma turn_delivery h w :
  (∀ p, handler p = h → writer p = None → Acc (λ a b, turn b a) p) →
  (∀ p q, handler p = h → chain_turn bridge config jobId p = Some q → Acc (λ a b, turn b a) q) →
  ∀ p, handler p = h → writer p = Some w → Acc (λ a b, turn b a) p.
Proof.
  intros Hnone Hchain. induction w as [x|e|g R f k IH]; intros p Hh Hw; constructor; intros q [Ht|Ht];
    try (by eapply Hchain); unfold delivery_turn in Ht; rewrite Hw in Ht.
  - injection Ht as <-. by apply Hnone.
  - injection Ht as <-. by apply Hnone.
  - destruct (g (sys p)); [|done]. injection Ht as <-. by eapply IH.
Qed.

Lemma turn_chain_ends h :
  (∀ p q, handler p = h → chain_turn bridge config jobId p = Some q → Acc (λ a b, turn b a) q) →
  ∀ p, handler p = h → Acc (λ a b, turn b a) p.
Proof.
  intros Hchain. assert (Hnone : ∀ p, handler p = h → writer p = None → Acc (λ a b, turn b a) p).
  { intros p Hh Hw. constructor. intros q [Ht|Ht]; [by eapply Hchain|].
    unfold delivery_turn in Ht. by rewrite Hw in Ht. }
  intros p Hh. destruct (writer p) as [w|] eqn:Hw; [by eapply turn_delivery|by apply Hnone].
Qed.

Lemma turns_end p : Acc (λ a b, turn b a) p.
Proof.
  assert (Hidle : ∀ p, handler p = None → Acc (λ a b, turn b a) p).
  { apply turn_chain_ends. intros q q' Hh Ht. unfold chain_turn in Ht. by rewrite Hh in Ht. }
  destruct (handler p) as [[j m]|] eqn:Hp; [|by apply Hidle]. revert p Hp.
  induction m as [x|e|g R f k IH]; apply turn_chain_ends; intros q q' Hh Ht;
    unfold chain_turn in Ht; rewrite Hh in Ht.
  - injection Ht as <-. by apply Hidle.
  - injection Ht as <-. by apply Hidle.
  - destruct (g (sys q)); [|done]. injection Ht as <-. by eapply IH.
Qed.

(** ** and it ends at rest *)

Hypothesis direct : cdcSpool config = false.

Definition patient (p : Process) : Prop :=
  match handler p with Some (_, m) => waits_for nothing_in_flight m | None => True end ∧
  match writer p with
  | Some m => waits_for (λ _, true) m
  | None => inflight (stream (sys p)) = None
  end.

(** what the chain does to what is in flight: it puts a batch there *)
Lemma patient_step src p p' :
  source bridge = FromTable src → Good bridge config provider log src p' →
  patient p → step bridge config provider jobId log p p' → patient p'.
Proof.
  intros Hsrc Hg [Hh Hw] Hs. split.
  - destruct Hs; cbn; try done.
    + by apply waits_handle.
    + match goal with He : handler p = _ |- _ => rewrite He in Hh end. by apply Hh.
    + apply waits_flush.
    + apply waits_handleFatal.
    + apply waits_handlePositionLost.
  - pose proof (good_delivery _ _ _ _ _ _ Hg) as Hd. destruct (writer p') as [m|] eqn:Hm; [|done].
    destruct Hs as [|j g R f k Hh' Hgd| |g R f k Hw' Hgd| | | | | | | |];
      try (change (writer p = Some m) in Hm; by rewrite Hm in Hw); try done.
    + change (started bridge config jobId (sys p) (f (sys p)).2 (writer p) = Some m) in Hm.
      unfold started in Hm. destruct (inflight (stream (sys p))); [by rewrite Hm in Hw|].
      destruct (inflight _); [|by rewrite Hm in Hw]. injection Hm as <-. by apply waits_deliverBatch.
    + rewrite Hw' in Hw. injection Hm as <-. by apply Hw.
Qed.

Lemma patient_moves p : patient p → (∀ q, ¬ turn p q) → at_rest p.
Proof.
  intros [Hh Hw] Hno.
  assert (Hwr : writer p = None).
  { destruct (writer p) as [[x|e|g R f k]|] eqn:Hw'; [exfalso..|done].
    - eapply Hno. right. unfold delivery_turn. by rewrite Hw'.
    - eapply Hno. right. unfold delivery_turn. by rewrite Hw'.
    - eapply Hno. right. unfold delivery_turn. rewrite Hw'. destruct Hw as [-> _]; done. }
  split; [|done]. rewrite Hwr in Hw.
  destruct (handler p) as [[j [x|e|g R f k]]|] eqn:Hh'; [exfalso..|done].
  - eapply Hno. left. unfold chain_turn. by rewrite Hh'.
  - eapply Hno. left. unfold chain_turn. by rewrite Hh'.
  - eapply Hno. left. unfold chain_turn. rewrite Hh'. destruct Hh as [-> _]; [done|].
    by apply bool_decide_eq_true.
Qed.

Lemma turn_step p q : turn p q → step bridge config provider jobId log p q.
Proof. intros [?|?]; [by apply chain_turn_step|by apply delivery_turn_step]. Qed.
End system.
