(* ===== verification/CdcExec.v ===== *)
(** What one delivery does, run alone: its outcome by outcome of the sink and of
    the metadata store. *)
From S2P Require Import Prelude JsText JsNumber JsDate JsValue JsJson.
From S2P Require Import BridgeConfig ColumnTransforms FilterMatch TypeMap SchemaDrift.
From S2P Require Import Isolate Async Bridge CdcState Ledger Cdc CdcSystem CdcSafety CdcWorker.

Local Open Scope async_scope.

Section exec.
Context `{JsHost} `{JsPrint} `{Outside}.
Context (bridge : BridgeInput) (config : RuntimeConfig) (jobId : string).

(** ** The metadata store answers *)

Section store_up.
Hypothesis store_up : ∀ n, store_refuses n = None.

Lemma exec_store f s : exec (store_call f) s = Some (inr tt, f (s {{ tick ::= S }})).
Proof. cbn. by rewrite store_up. Qed.

Lemma exec_query {A} (f : Sys → A) s :
  exec (store_query f) s = Some (inr (f (s {{ tick ::= S }})), s {{ tick ::= S }}).
Proof. cbn. by rewrite store_up. Qed.

(** what recording a delivery changes *)
Definition recorded (q : nat) (rows : list Row) (o : DeliveryOutcome) (s : Sys) : Sys :=
  s {{ tick ::= (λ n, S (S n));
       deliveries ::= <[q := delivery_row (deliveries s !! q) (List.length rows)
                               (rowKeys (primaryKey (stream s)) rows) o]>;
       job -> counters ::= counted (deliveries s !! q) (List.length rows) o }}.

Lemma exec_record q rows o s : exec (record q rows o) s = Some (inr tt, recorded q rows o s).
Proof.
  unfold record. rewrite exec_bind_read. unfold recordDelivery.
  rewrite (exec_bind_ok _ _ _ _ _ (exec_query _ _)), exec_store. by destruct s as [[] []].
Qed.

(** a step to the next position, and its acknowledgement *)
Definition moved (n : nat) (c : string) (s : Sys) : Sys :=
  let s1 := moved_to n c (s {{ tick ::= S }}) in
  if ack_lost (S (tick s)) then s1 {{ tick ::= S }}
  else s1 {{ tick ::= S; acked ::= (λ l, l ++ [c]) }}.

Lemma exec_checkpoint n c s :
  halted (stream s) = false → exec (checkpoint n c) s = Some (inr tt, moved n c s).
Proof.
  intros Hh. unfold checkpoint. rewrite exec_bind_read, Hh.
  rewrite (exec_bind_ok _ _ _ _ _ (exec_store _ _)). reflexivity.
Qed.

Definition halted_with (st : job_status) (m : string) (s : Sys) : Sys :=
  s {{ stream -> halted := true; tick ::= S; job -> jstatus := st; job -> jerror := Some m }}.

Lemma exec_halt st m s :
  halted (stream s) = false → exec (halt st m) s = Some (inr tt, halted_with st m s).
Proof.
  intros Hh. unfold halt. rewrite exec_bind_atomically. cbn [fst snd]. rewrite Hh.
  unfold ignore. rewrite exec_catch, exec_store. by destruct s as [[] []].
Qed.

Lemma exec_settle (work : @async Sys unit) s s' :
  halted (stream s) = false → exec work s = Some (inr tt, s') →
  exec (settle work) s = Some (inr tt, s').
Proof.
  intros Hh Hw. unfold settle, SETTLE_ATTEMPTS. cbn [settle_attempts].
  rewrite exec_bind_read, Hh, exec_bind, exec_catch, exec_bind, Hw. reflexivity.
Qed.
End store_up.

Context (src : TableSource) (b : Batch).
Hypothesis direct : cdcSpool config = false.
Hypothesis from_table : source bridge = FromTable src.

Definition write_of (s : Sys) : SinkWrite :=
  attempt_write (brow <$> items b) (batchOp b) (seq (stream s)) []
    (idempotency_key bridge jobId (reach b)).

(** the sink has been asked *)
Definition asked (s : Sys) : Sys := (sink_deliver bridge (write_of s) s).2.
Definition answered (s : Sys) : DeliveryOutcome := (sink_deliver bridge (write_of s) s).1.

Lemma exec_delivery s :
  halted (stream s) = false → items b ≠ [] →
  exec (deliverBatch bridge config jobId b) s =
  exec (settle_delivery bridge config (brow <$> items b) (batchOp b) (seq (stream s)) (reach b)
          (answered s) (λ n, checkpoint n (reach b))) (asked s).
Proof.
  intros Hh Hn. unfold deliverBatch. rewrite exec_bind_read, Hh, from_table.
  unfold spooled. rewrite direct. destruct (items b) as [|i its] eqn:Hits; [done|].
  rewrite <- Hits. rewrite exec_bind_read. unfold attempt. by rewrite exec_bind_atomically.
Qed.

Lemma asked_halted s : halted (stream (asked s)) = halted (stream s).
Proof. done. Qed.

Lemma exec_delivered s :
  (∀ n, store_refuses n = None) →
  halted (stream s) = false → items b ≠ [] → success (answered s) = true →
  exec (deliverBatch bridge config jobId b) s =
  Some (inr tt, moved (S (seq (stream s))) (reach b)
    (recorded (seq (stream s)) (brow <$> items b) (answered s) (asked s)
       {{ stream -> consecutiveFailures := 0 }})).
Proof.
  intros Hup Hh Hn Ho. rewrite exec_delivery by done. unfold settle_delivery. rewrite Ho.
  apply exec_settle; [done|]. rewrite (exec_bind_ok _ _ _ _ _ (exec_record Hup _ _ _ _)).
  rewrite exec_bind_modify. by rewrite exec_checkpoint.
Qed.

Lemma exec_aborted s :
  (∀ n, store_refuses n = None) →
  halted (stream s) = false → items b ≠ [] → success (answered s) = false →
  onError (delivery bridge) = abort_on_error →
  exec (deliverBatch bridge config jobId b) s =
  Some (inr tt, halted_with job_paused
    ("Paused after a failed delivery (onError=abort): " +:+
     default "delivery failed" (oerror (answered s)))
    (recorded (seq (stream s)) (brow <$> items b) (answered s) (asked s))).
Proof.
  intros Hup Hh Hn Ho He. rewrite exec_delivery by done. unfold settle_delivery. rewrite Ho.
  apply exec_settle; [done|]. unfold handleFailedBatch. rewrite bool_decide_true by done.
  unfold stop_batch. rewrite !exec_bind, exec_record by done. by rewrite exec_bind, exec_halt.
Qed.

(** ** The metadata store does not answer *)

Section store_down.
Hypothesis store_down : ∀ n, is_Some (store_refuses n).

(** nothing durable has changed, and the stream is where it was *)
Record untouched (s s' : Sys) : Prop := {
  same_job : job s' = job s;
  same_acks : acked s' = acked s;
  same_letters : deadLetters s' = deadLetters s;
  same_cells : deliveries s' = deliveries s;
  same_place : seq (stream s') = seq (stream s);
  same_reached : watermark (stream s') = watermark (stream s);
  same_halted : halted (stream s') = halted (stream s)
}.

#[local] Instance untouched_preorder : PreOrder untouched.
Proof. split; [by split|]. intros s1 s2 s3 [] []. split; congruence. Qed.

(** ends in an exception, with nothing durable changed *)
Definition fails {A} (m : @async Sys A) : Prop :=
  ∀ s, halted (stream s) = false → ∃ e s', exec m s = Some (inl e, s') ∧ untouched s s'.

Lemma exec_refused f s : ∃ e, exec (store_call f) s = Some (inl e, s {{ tick ::= S }}).
Proof. cbn. destruct (store_down (tick s)) as [e ->]. by exists e. Qed.

Lemma fails_store f : fails (store_call f).
Proof. intros s _. destruct (exec_refused f s) as [e He]. by exists e, (s {{ tick ::= S }}). Qed.

Lemma fails_query {A} (f : Sys → A) : fails (store_query f).
Proof. intros s _. cbn. destruct (store_down (tick s)) as [e ->]. by exists e, (s {{ tick ::= S }}). Qed.

Lemma fails_first {A B} (m : @async Sys A) (h : A → @async Sys B) : fails m → fails (bind m h).
Proof.
  intros Hm s Hs. destruct (Hm s Hs) as (e & s' & He & Hu). exists e, s'.
  by rewrite (exec_bind_throw _ _ _ _ _ He).
Qed.

(** a first part that only asks, and then the rest fails *)
Lemma fails_then {A B} (m : @async Sys A) (h : A → @async Sys B) :
  (∀ s, ∃ x s', exec m s = Some (inr x, s') ∧ untouched s s') → (∀ x, fails (h x)) →
  fails (bind m h).
Proof.
  intros Hm Hh s Hs. destruct (Hm s) as (x & s1 & Hx & Hu1). rewrite (exec_bind_ok _ _ _ _ _ Hx).
  destruct (Hh x s1) as (e & s2 & He & Hu2).
  { by rewrite (same_halted _ _ Hu1). }
  exists e, s2. split; [done|by etrans].
Qed.

Lemma asks {R} (f : Sys → R * Sys) :
  (∀ s, untouched s (f s).2) →
  ∀ s, ∃ x s', exec (atomically f) s = Some (inr x, s') ∧ untouched s s'.
Proof. intros Hf s. exists (f s).1, (f s).2. split; [|done]. cbn. by destruct (f s). Qed.

Lemma fails_record q rows o : fails (record q rows o).
Proof. apply fails_then; [by apply asks|intros pk]. apply fails_first, fails_query. Qed.

Lemma untouched_sink w s : untouched s (sink_deliver bridge w s).2.
Proof. by split. Qed.

Lemma untouched_isolate rows o q reason already s :
  untouched s (isolate bridge rows o q reason already s).2.
Proof.
  unfold isolate.
  destruct (isolateFailures_total (isolation_attempt bridge o q) (ISOLATION reason already) s rows)
    as [[found s'] Hf]. rewrite Hf. cbn [default fst snd].
  eapply (isolateFailures_world _ _ (untouched s) (λ _ _, True)) in Hf as [Hp _];
    [done| |reflexivity].
  intros w rs sk at_ w' Hw Ha. split_and!; [|done..]. unfold isolation_attempt in Ha.
  pose proof (untouched_sink (attempt_write rs o q sk None) w) as Hs.
  destruct (sink_deliver _ _ _) as [r w'']. simplify_eq. by etrans.
Qed.

Lemma tells_apart rows o q outcome reason s :
  ∃ x s', exec (tell_apart bridge rows o q outcome reason) s = Some (inr x, s') ∧ untouched s s'.
Proof.
  unfold tell_apart. destruct (canIsolate bridge rows); [|by eexists _, _].
  rewrite exec_bind_atomically. pose proof (untouched_isolate rows o q reason
    (default [] (osucceededTargets outcome)) s) as Hu.
  destruct (isolate _ _ _ _ _ _ _) as [found s']. cbn [fst snd] in *.
  destruct (Isolate.systemic found); by eexists _, _.
Qed.

Lemma fails_stop q rows o m : fails (stop_batch q rows o m).
Proof. apply fails_first, fails_record. Qed.

Lemma fails_handleFailedBatch rows o q c outcome :
  fails (handleFailedBatch bridge config rows o q c outcome).
Proof.
  unfold handleFailedBatch. destruct (bool_decide _); [apply fails_stop|].
  apply fails_then; [apply tells_apart|]. intros [[[delivered [|f fs]] attempts]|m];
    [| |apply fails_stop].
  - apply fails_then; [by apply asks|intros []]. apply fails_first, fails_record.
  - apply fails_then; [by apply asks|intros n]. destruct (_ <=? n); [apply fails_stop|].
    apply fails_first, fails_query.
Qed.

Lemma exec_settle_fails (work : @async Sys unit) s :
  fails work → halted (stream s) = false →
  ∃ s', exec (settle work) s = Some (inr tt, s') ∧ halted (stream s') = true ∧
        job s' = job s ∧ acked s' = acked s ∧ deadLetters s' = deadLetters s ∧
        deliveries s' = deliveries s.
Proof.
  intros Hw Hh. unfold settle. generalize EmptyString.
  assert (Hgen : ∀ n s1 e, untouched s s1 →
    ∃ s', exec (settle_attempts n work e) s1 = Some (inr tt, s') ∧ halted (stream s') = true ∧
        job s' = job s ∧ acked s' = acked s ∧ deadLetters s' = deadLetters s ∧
        deliveries s' = deliveries s).
  { induction n as [|n IH]; intros s1 e Hu; pose proof Hu as []; cbn [settle_attempts].
    - unfold halt. rewrite exec_bind_atomically. cbn [fst snd]. rewrite same_halted0, Hh.
      unfold ignore. rewrite exec_catch.
      destruct (exec_refused (λ s, s {{ job -> jstatus := job_failed; job -> jerror :=
        Some ("Stopped without advancing, so nothing is skipped: progress could not be saved (" +:+
       e +:+ "). Start the bridge again once the metadata store is reachable.") }})
        (s1 {{ stream -> halted := true }})) as [m ->]. by eexists.
    - rewrite exec_bind_read, same_halted0, Hh. rewrite exec_bind, exec_catch, exec_bind.
      destruct (Hw s1) as (m & s2 & -> & Hu2); [by rewrite same_halted0|].
      apply IH. by etrans. }
  intros e. by apply Hgen.
Qed.

Lemma exec_store_down s :
  halted (stream s) = false →
  ∃ s', exec (deliverBatch bridge config jobId b) s = Some (inr tt, s') ∧
        halted (stream s') = true ∧ job s' = job s ∧ acked s' = acked s ∧
        deadLetters s' = deadLetters s ∧ deliveries s' = deliveries s.
Proof.
  intros Hh. destruct (decide (items b = [])) as [Hn|Hn].
  - unfold deliverBatch. rewrite exec_bind_read, Hh, from_table. unfold spooled. rewrite direct, Hn.
    apply exec_settle_fails; [|done]. apply fails_then; [by apply asks|intros q].
    intros s1 Hs1. unfold checkpoint. rewrite exec_bind_read, Hs1.
    by apply (fails_first _ _ (fails_store _)).
  - rewrite exec_delivery by done. unfold settle_delivery.
    apply (exec_settle_fails _ (asked s)); [|done]. destruct (success (answered s)).
    + apply fails_first, fails_record.
    + apply fails_first, fails_handleFailedBatch.
Qed.
End store_down.
End exec.
