(* ===== verification/CdcClaims.v ===== *)
(** What the change pipeline promises, as properties of every process that can
    be reached, and what a delivery does in each of its outcomes. *)
From S2P Require Import Prelude JsText JsNumber JsDate JsValue JsJson.
From S2P Require Import BridgeConfig ColumnTransforms FilterMatch TypeMap SchemaDrift.
From S2P Require Import Isolate Async Bridge CdcState Ledger Cdc CdcSystem CdcSafety CdcWorker.
From S2P Require Import CdcChain CdcTheorems CdcRun CdcProgress CdcExec.

Local Open Scope async_scope.

Section claims.
Context `{JsHost} `{JsPrint} `{Outside}.

(** A bridge that reads a table and writes straight to its destination, without the
    spool, and whose provider's positions order its log. *)
Record Setup (bridge : BridgeInput) (config : RuntimeConfig) (provider : CdcProvider)
    (log : list LogEvent) (src : TableSource) : Prop := {
  setup_direct : cdcSpool config = false;
  setup_table : source bridge = FromTable src;
  setup_rows : ∀ c, EvChange c ∈ log → NoDup (obj_keys (cols (crow c)));
  setup_order : CursorOrder provider log
}.

Context (bridge : BridgeInput) (config : RuntimeConfig) (provider : CdcProvider) (jobId : string).
Context (log : list LogEvent) (src : TableSource).

(** a process in whose history the chain's guard has caught nothing *)
Abbreviation live := (unbroken bridge config provider jobId log).

Lemma setup_good p :
  Setup bridge config provider log src → live p → Good bridge config provider log src p.
Proof. intros [] Hp. by eapply unbroken_good. Qed.

(** every event up to position [c] is delivered, set aside, recorded or exempt *)
Definition nothing_left_behind (s : Sys) (c : string) : Prop :=
  ∃ d e, log !! d = Some e ∧ event_cursor e = c ∧
    ∀ i e', i ≤ d → log !! i = Some e' → settled provider src s e'.

(** C1. For a bridge that reads a table and delivers without the spool, whose
    provider's positions order its log: as long as no handler of the chain has
    thrown, the position the job has saved never passes a change that is neither at
    the destination, nor in the dead-letter queue, nor one the bridge passes over —
    whichever calls are refused, however the reader, the delivery and the timers
    interleave, and wherever the process dies. (What a handler throws is
    [what_is_thrown]; without that condition it fails, [drift_failure_loses_a_row]. A
    call of a store is refused or carried out, never carried out with its answer lost;
    a start without a saved position reads the log from its start) *)
Theorem saved_position_is_safe p c :
  Setup bridge config provider log src → live p →
  readCursor (cursorJson (job (sys p))) = Some c → nothing_left_behind (sys p) c.
Proof.
  intros Hs Hp Hc. pose proof (good_inv _ _ _ _ _ _ (setup_good p Hs Hp)) as Hi.
  apply (inv_saved _ _ _ _ _ _ _ Hi). by rewrite (inv_mark _ _ _ _ _ _ _ Hi).
Qed.

(** C2. For a bridge that reads a table and delivers without the spool (one with a spool
    acknowledges what the spool holds), whose provider's positions order its log: as long
    as no handler of its chain has thrown, no position is acknowledged to the source,
    which may then forget what comes before it, while a change up to it is neither
    delivered, nor set aside, nor passed over. *)
Theorem acked_position_is_safe p c :
  Setup bridge config provider log src → live p →
  c ∈ acked (sys p) → nothing_left_behind (sys p) c.
Proof.
  intros Hs Hp. apply (inv_acked _ _ _ _ _ _ _ (good_inv _ _ _ _ _ _ (setup_good p Hs Hp))).
Qed.

(** C3. For a bridge that reads a table and delivers without the spool, and as long as no
    handler of its chain has thrown: a change the chain has handled is not forgotten while
    the bridge lives, it is settled, in the batch being written, or in the pending one. *)
Theorem handled_change_is_kept p i e :
  Setup bridge config provider log src → live p →
  alive (sys p) = true → i < taken p → log !! i = Some e →
  settled provider src (sys p) e ∨ held (flying (sys p)) e ∨ held (buffer (stream (sys p))) e.
Proof.
  intros Hs Hp Ha Hi He.
  by apply (inv_taken _ _ _ _ _ _ _ (good_inv _ _ _ _ _ _ (setup_good p Hs Hp)) i e).
Qed.

(** C9. While no handler of the chain has thrown, a batch that is being written has one
    operation, no key twice, and no more rows than the bridge's limit *)
Theorem batch_is_one_delivery p b :
  Setup bridge config provider log src → live p → inflight (stream (sys p)) = Some b →
  uniform (items b) (batchOp b) ∧ NoDup (omap keySig (items b)) ∧
  (Z.of_nat (List.length (items b)) ≤ maxBatch bridge config)%Z.
Proof.
  intros Hs Hp. apply (inv_flying _ _ _ _ _ _ _ (good_inv _ _ _ _ _ _ (setup_good p Hs Hp))).
Qed.

(** C10. While no handler of the chain has thrown, the dead-letter queue never holds
    more pending rows than its limit *)
Theorem dead_letters_bounded p :
  Setup bridge config provider log src → live p →
  pendingRows (deadLetters (sys p)) ≤ deadLetterMaxRows config.
Proof.
  intros Hs Hp. apply (inv_letters _ _ _ _ _ _ _ (good_inv _ _ _ _ _ _ (setup_good p Hs Hp))).
Qed.

(** C6. Of what a store, the sink or the source answers, one failure is not handled
    where it happens: a handler of the chain ends in an exception only where the look
    at a table's changed columns failed, with that failure; a delivery never does *)
Theorem what_is_thrown p p' :
  Setup bridge config provider log src → live p → step bridge config provider jobId log p p' →
  (∀ j e, handler p' = Some (j, Throw e) → ∃ n, drift_answer n = inl e) ∧
  (∀ e, writer p' ≠ Some (Throw e)).
Proof.
  intros Hs Hp Ht. assert (Hg : Good bridge config provider log src p').
  { destruct Hs. eapply good_step; [done..|by eapply unbroken_good|by eapply unbroken_intact|done]. }
  split; [intros j e; by apply (good_throws _ _ _ _ _ _ j e Hg)|].
  intros e Hw. destruct Hg as [Hi _ Hd]. rewrite Hw in Hd. destruct Hd as (b & _ & Hd).
  by destruct (Hd (sys p') ltac:(reflexivity) Hi).
Qed.

(** every look at a table's columns is answered: then no chain breaks *)
Definition looks_answer : Prop := ∀ n, ∃ v, drift_answer n = inr v.

Abbreviation any := (reachable bridge config provider jobId log).

Lemma answered_live p : Setup bridge config provider log src → looks_answer → any p → live p.
Proof. intros [] Ha Hp. by eapply answering_unbroken. Qed.

Lemma live_patient p :
  Setup bridge config provider log src → looks_answer → any p → patient p.
Proof.
  intros Hs Ha Hp. induction Hp as [p Hi|p p' Hp IH Ht].
  - destruct Hi as (pk & s & _ & _ & _ & ->). by split.
  - eapply patient_step; [by apply Hs|by apply Hs| |by apply IH|done].
    apply setup_good, answered_live; [done..|]. by eapply reach_step.
Qed.

(** C5. Nothing waits for ever, for a bridge that delivers without the spool and whose
    looks at the table's columns are answered: the chain and the delivery take finitely
    many turns, in whatever order, and when neither has a turn left both are done *)
Theorem work_comes_to_rest p :
  Setup bridge config provider log src → looks_answer → any p →
  Acc (λ q' q, turn bridge config jobId q q') p ∧
  ∀ q, rtc (turn bridge config jobId) p q → (∀ q', ¬ turn bridge config jobId q q') → at_rest q.
Proof.
  intros Hs Ha Hp. split; [apply turns_end|]. intros q Hq Hno.
  apply (patient_moves bridge config jobId); [|done]. apply live_patient; [done..|].
  clear Hno. induction Hq as [|p q r Ht _ IH]; [done|]. apply IH.
  eapply reach_step; [done|by apply turn_step].
Qed.

(** ** One delivery, run alone *)

Context (b : Batch).

(** a batch of a bridge that reads a table and writes straight to its
    destination, about to be written by a stream that has not been stopped *)
Record about_to_write (s : Sys) : Prop := {
  writes_directly : cdcSpool config = false;
  reads_a_table : source bridge = FromTable src;
  still_going : halted (stream s) = false
}.



(** A batch that fails on a bridge set to abort pauses it where it is: the
    failure is recorded in the batch's cell, no position moves, nothing is set
    aside, and the batch will be read again *)
Theorem aborted_batch_stays s :
  about_to_write s → (∀ n, store_refuses n = None) → items b ≠ [] →
  success (answered bridge jobId b s) = false → onError (delivery bridge) = abort_on_error →
  ∃ s', exec (deliverBatch bridge config jobId b) s = Some (inr tt, s') ∧
    cursorJson (job s') = cursorJson (job s) ∧ cursorOffset (job s') = cursorOffset (job s) ∧
    acked s' = acked s ∧ deadLetters s' = deadLetters s ∧
    dstatus <$> deliveries s' !! seq (stream s) = Some delivered_failed ∧
    jstatus (job s') = job_paused ∧ halted (stream s') = true.
Proof.
  intros [Hd Hf Hh] Hup Hn Ho He. eexists. split; [by eapply exec_aborted|].
  cbn -[answered delivery_row counted]. rewrite lookup_insert_eq. cbn -[answered counted].
  unfold outcome_status. by rewrite Ho.
Qed.

(** C8. While the metadata store refuses every call, a delivery ends with the
    bridge stopped and nothing durable changed, whatever the sink answered *)
Theorem store_down_stops s :
  about_to_write s → (∀ n, is_Some (store_refuses n)) →
  ∃ s', exec (deliverBatch bridge config jobId b) s = Some (inr tt, s') ∧ halted (stream s') = true ∧
    job s' = job s ∧ acked s' = acked s ∧ deadLetters s' = deadLetters s ∧
    deliveries s' = deliveries s.
Proof. intros [Hd Hf Hh] Hdown. by eapply exec_store_down. Qed.
End claims.

(** ** Concrete runs *)

Definition calm : Outside := sample_outside (λ _, true) (λ _, false) (λ _, false).
Definition refusing : Outside := sample_outside (λ _, false) (λ _, false) (λ _, false).
Definition dark : Outside := sample_outside (λ _, true) (λ _, true) (λ _, false).

Lemma sample_setup (e : on_failure) :
  Setup (sample_bridge e) (sample_config false) sample_provider sample_log sample_source.
Proof. split; [done|done|apply sample_rows|apply _]. Qed.

Abbreviation sample_run out e cs :=
  (@run sample_host sample_print out (sample_bridge e) (sample_config false) sample_provider "job"
     sample_log cs first_start).

Lemma sample_live (out : Outside) e cs :
  (∀ n, drift_answer n = inr None) →
  unbroken (sample_bridge e) (sample_config false) sample_provider "job" sample_log (sample_run out e cs).
Proof.
  intros Ha. apply (answered_live (H1 := out) (sample_bridge e) (sample_config false) sample_provider "job"
                      sample_log sample_source); [apply sample_setup|intros n; exists None; apply Ha|].
  apply sample_reachable.
Qed.

(** two rows delivered together, then a notice *)
Definition after_notice : Process :=
  sample_run calm continue_on_error (handed 0 ++ handed 1 ++ deliver ++ handed 2).

(** two rows the destination refuses *)
Definition after_refusal : Process :=
  sample_run refusing continue_on_error (handed 0 ++ handed 1 ++ deliver).

(** two rows about to be written *)
Definition in_writing : Process := sample_run calm continue_on_error (handed 0 ++ handed 1).

Definition written_batch : Batch :=
  default {| items := []; batchOp := None; reach := EmptyString |} (inflight (stream (sys in_writing))).

Lemma saved_position_is_safe_witness :
  nothing_left_behind (H1 := calm) sample_provider sample_log sample_source (sys after_notice) "3".
Proof.
  apply (saved_position_is_safe (H1 := calm) (sample_bridge continue_on_error) (sample_config false)
           sample_provider "job" sample_log sample_source after_notice "3").
  - apply sample_setup.
  - by apply sample_live.
  - vm_compute. reflexivity.
Defined.

Lemma acked_position_is_safe_witness :
  nothing_left_behind (H1 := refusing) sample_provider sample_log sample_source
    (sys after_refusal) "2".
Proof.
  apply (acked_position_is_safe (H1 := refusing) (sample_bridge continue_on_error)
           (sample_config false) sample_provider "job" sample_log sample_source after_refusal "2").
  - apply sample_setup.
  - by apply sample_live.
  - vm_compute. constructor.
Defined.

Lemma handled_change_is_kept_witness :
  settled (H1 := calm) sample_provider sample_source (sys in_writing)
    (EvChange (insert_of "2" (user "2" "alan"))) ∨
  held (flying (sys in_writing)) (EvChange (insert_of "2" (user "2" "alan"))) ∨
  held (buffer (stream (sys in_writing))) (EvChange (insert_of "2" (user "2" "alan"))).
Proof.
  apply (handled_change_is_kept (H1 := calm) (sample_bridge continue_on_error) (sample_config false)
           sample_provider "job" sample_log sample_source in_writing 1).
  - apply sample_setup.
  - by apply sample_live.
  - vm_compute. reflexivity.
  - vm_compute. lia.
  - reflexivity.
Defined.

Lemma batch_is_one_delivery_witness :
  List.length (items written_batch) = 2 ∧ NoDup (omap keySig (items written_batch)).
Proof.
  split; [vm_compute; reflexivity|].
  apply (batch_is_one_delivery (H1 := calm) (sample_bridge continue_on_error) (sample_config false)
           sample_provider "job" sample_log sample_source in_writing written_batch).
  - apply sample_setup.
  - by apply sample_live.
  - vm_compute. reflexivity.
Defined.

Lemma dead_letters_bounded_witness :
  pendingRows (deadLetters (sys after_refusal)) = 2 ∧
  pendingRows (deadLetters (sys after_refusal)) ≤ 100.
Proof.
  split; [vm_compute; reflexivity|].
  apply (dead_letters_bounded (H1 := refusing) (sample_bridge continue_on_error)
           (sample_config false) sample_provider "job" sample_log sample_source after_refusal).
  - apply sample_setup.
  - by apply sample_live.
Defined.

Definition in_hand (p : Process) : @async Sys unit := default (Ret tt) (writer p).

Lemma in_hand_writer p :
  match writer p with Some _ => true | None => false end = true → writer p = Some (in_hand p).
Proof. unfold in_hand. by destruct (writer p). Qed.

Lemma work_comes_to_rest_witness :
  Acc (λ q' q, turn (H1 := calm) (sample_bridge continue_on_error) (sample_config false) "job" q q')
      in_writing.
Proof.
  apply (work_comes_to_rest (H1 := calm) (sample_bridge continue_on_error) (sample_config false)
           sample_provider "job" sample_log sample_source in_writing).
  - apply sample_setup.
  - intros n. by exists None.
  - apply sample_reachable.
Defined.

Lemma writing_running e :
  about_to_write (sample_bridge e) (sample_config false) sample_source (sys in_writing).
Proof. split; [done|done|]. vm_compute. reflexivity. Defined.

Lemma writing_rows : items written_batch ≠ [].
Proof. vm_compute. intros [=]. Defined.


Lemma aborted_batch_stays_witness :
  ∃ s', exec (deliverBatch (H1 := refusing) (sample_bridge abort_on_error) (sample_config false) "job"
                written_batch) (sys in_writing) = Some (inr tt, s') ∧
        cursorJson (job s') = cursorJson (job (sys in_writing)) ∧ jstatus (job s') = job_paused.
Proof.
  assert (Hok : success (answered (H1 := refusing) (sample_bridge abort_on_error) "job" written_batch
                           (sys in_writing)) = false) by (vm_compute; reflexivity).
  destruct (aborted_batch_stays (H1 := refusing) (sample_bridge abort_on_error)
              (sample_config false) "job" sample_source written_batch (sys in_writing)
              (writing_running _) (λ n, eq_refl) writing_rows Hok eq_refl)
    as (s' & He & Hc & _ & _ & _ & _ & Hj & _).
  exists s'. split; [exact He|split; [exact Hc|exact Hj]].
Defined.

Lemma store_down_stops_witness :
  ∃ s', exec (deliverBatch (H1 := dark) (sample_bridge abort_on_error) (sample_config false) "job"
                written_batch) (sys in_writing) = Some (inr tt, s') ∧
        halted (stream s') = true ∧ job s' = job (sys in_writing).
Proof.
  destruct (store_down_stops (H1 := dark) (sample_bridge abort_on_error) (sample_config false) "job"
              sample_source written_batch (sys in_writing) (writing_running _)
              (λ n, ex_intro _ "store down" eq_refl)) as (s' & He & Hh & Hj & _).
  exists s'. split; [exact He|split; [exact Hh|exact Hj]].
Defined.

(** ** A drift check that fails *)

Definition aged (id name age : string) : Row :=
  {| cols := [("id", VStr id); ("name", VStr name); ("age", VStr age)]; origins := [] |}.

(** the table gets a column between its first row and its second *)
Definition drift_log : list LogEvent :=
  [EvChange (insert_of "1" (user "1" "ada")); EvChange (insert_of "2" (aged "2" "alan" "41"));
   EvChange (insert_of "3" (aged "3" "grace" "85"))].

(** the store is down for one call: the one in the drift check *)
Definition drifting : Outside := sample_outside (λ _, true) (λ _, false) (λ n, n =? 1).

Definition after_drift : Process :=
  @run sample_host sample_print drifting (sample_bridge continue_on_error) (sample_config false)
    sample_provider "job" drift_log (handed 0 ++ handed 1 ++ handed 2 ++ deliver) first_start.

(** Without the assumption that the drift check always answers, a row is lost: the
    check that looks at the second row's new column throws, the chain's guard
    drops the row, and the next delivery saves a position behind it *)
Example drift_failure_loses_a_row :
  reachable (H1 := drifting) (sample_bridge continue_on_error) (sample_config false) sample_provider
    "job" drift_log after_drift ∧
  readCursor (cursorJson (job (sys after_drift))) = Some "3" ∧ acked (sys after_drift) = ["3"] ∧
  (wrows <$> sinkLog (sys after_drift)) = [[user "1" "ada"; aged "3" "grace" "85"]] ∧
  deadLetters (sys after_drift) = [].
Proof. split; [apply sample_reachable|]. vm_compute. split_and!; reflexivity. Qed.

(** the look at the second row's new column is about to be made, and fails *)
Definition before_drift : Process :=
  @run sample_host sample_print drifting (sample_bridge continue_on_error) (sample_config false)
    sample_provider "job" drift_log (handed 0 ++ hand_over 1 :: replicate 2 run_chain) first_start.

Definition at_drift : Process :=
  default before_drift
    (chain_turn (H1 := drifting) (sample_bridge continue_on_error) (sample_config false) "job" before_drift).

Lemma drift_setup : Setup (sample_bridge continue_on_error) (sample_config false) sample_provider drift_log sample_source.
Proof.
  split; [done|done| |split; [done|]].
  - intros c. unfold drift_log. rewrite !elem_of_cons, elem_of_nil.
    intros [[= ->]|[[= ->]|[[= ->]|[]]]]; apply (bool_decide_unpack _); vm_compute; done.
  - intros [|[|[|i]]] [|[|[|j]]] ei ej; cbn; intros [= <-] [= <-]; cbn; intros Hc; try lia; vm_compute in Hc; done.
Qed.

Lemma before_drift_live :
  unbroken (H1 := drifting) (sample_bridge continue_on_error) (sample_config false) sample_provider "job"
    drift_log before_drift.
Proof.
  apply run_unbroken; [vm_compute; reflexivity|]. apply unbroken_initial.
  exists (Some ["id"]), fresh. split_and!; try done. cbn. lia.
Qed.

Lemma at_drift_step :
  step (H1 := drifting) (sample_bridge continue_on_error) (sample_config false) sample_provider "job"
    drift_log before_drift at_drift.
Proof.
  apply chain_turn_step. unfold at_drift. destruct (chain_turn _ _ _ _) as [p|] eqn:Hc; [done|].
  exfalso. revert Hc. vm_compute. discriminate.
Qed.

Lemma what_is_thrown_witness :
  (λ h, match h with (j, Throw e) => Some (j, e) | _ => None end) <$> handler at_drift =
    Some (Some (Some 1, "store down")) ∧
  (∀ j e, handler at_drift = Some (j, Throw e) → ∃ n, drift_answer (Outside := drifting) n = inl e) ∧
  (∀ e, writer at_drift ≠ Some (Throw e)).
Proof.
  split; [vm_compute; reflexivity|].
  apply (what_is_thrown (H1 := drifting) (sample_bridge continue_on_error) (sample_config false) sample_provider
           "job" drift_log sample_source before_drift at_drift).
  - exact drift_setup.
  - exact before_drift_live.
  - exact at_drift_step.
Defined.
