(* ===== verification/CdcSpool.v ===== *)
(** The spooled path of a bridge: the queue in Redis, how what was read from it is
    split into deliveries, and when an entry leaves it
    ([apps/api/src/bridges/cdc/cdc-spool.service.ts] and the spool part of
    [bridge-cdc.service.ts]). *)
From stdpp Require Import sorting.
From S2P Require Import Prelude JsText JsNumber JsDate JsValue JsJson.
From S2P Require Import BridgeConfig ColumnTransforms FilterMatch TypeMap SchemaDrift.
From S2P Require Import Isolate Async Bridge CdcState Ledger Cdc CdcSystem CdcSafety CdcWorker CdcRun.

Local Open Scope async_scope.

(** ** Runs: what can go out as one delivery *)

Section runs.
Context `{JsHost} `{JsPrint} (pk : option (list string)).

Definition op_of (i : SpooledItem) : SpoolOp := sop (entry i).
Definition sig_of (i : SpooledItem) : option string :=
  default None (run_signature pk (srow (entry i))).

(** one operation, no key twice, and a truncate or a notice on its own *)
Record one_run (run : list SpooledItem) : Prop := {
  run_op : ∀ i j, i ∈ run → j ∈ run → op_of i = op_of j;
  run_keys : NoDup (omap sig_of run);
  run_alone : ∀ i, i ∈ run → alone (op_of i) = true → run = [i]
}.

Lemma one_run_nil : one_run [].
Proof. split; [by intros ? ? ?%elem_of_nil|constructor|by intros ? ?%elem_of_nil]. Qed.

Lemma one_run_single i : one_run [i].
Proof.
  split.
  - by intros a b ->%list_elem_of_singleton ->%list_elem_of_singleton.
  - cbn. destruct (sig_of i); repeat constructor. by intros ?%elem_of_nil.
  - by intros a ->%list_elem_of_singleton.
Qed.

(** what the loop knows about the runs so far *)
Record collected (its : list SpooledItem) (r : Runs) : Prop := {
  all_items : concat (runs r) ++ current r = its;
  good_runs : Forall (λ run, run ≠ [] ∧ one_run run) (runs r);
  good_current : one_run (current r);
  current_op : ∀ i, i ∈ current r → currentOp r = Some (op_of i);
  seen_keys : ∀ k, k ∈ omap sig_of (current r) → k ∈ seen r
}.

Lemma one_run_snoc run i :
  run ≠ [] → one_run run → (∀ j, j ∈ run → op_of j = op_of i) → alone (op_of i) = false →
  (∀ k, sig_of i = Some k → k ∉ omap sig_of run) → one_run (run ++ [i]).
Proof.
  intros Hne [Ho Hk Ha] Hop Hal Hsig. split.
  - intros a b [Ha'| ->%list_elem_of_singleton]%elem_of_app [Hb'| ->%list_elem_of_singleton]%elem_of_app;
      auto; symmetry; auto.
  - rewrite omap_app. apply NoDup_app. split; [done|]. cbn. destruct (sig_of i) as [k|] eqn:Hs.
    + split; [|apply NoDup_singleton]. intros k' Hk' ->%list_elem_of_singleton.
      by apply (Hsig k).
    + split; [by intros ? _ ?%elem_of_nil|constructor].
  - intros a [Ha'| ->%list_elem_of_singleton]%elem_of_app Hal'; [|congruence].
    rewrite (Hop a Ha') in Hal'. congruence.
Qed.

Definition seen_with (sig : option string) (l : list string) : list string :=
  match sig with Some k => set_add l k | None => l end.

Lemma seen_with_spec its i l :
  (∀ k, k ∈ omap sig_of its → k ∈ l) →
  ∀ k, k ∈ omap sig_of (its ++ [i]) → k ∈ seen_with (sig_of i) l.
Proof.
  intros Hs k. rewrite omap_app, elem_of_app. cbn. unfold seen_with.
  destruct (sig_of i) as [k'|]; cbn.
  - rewrite list_elem_of_singleton, elem_of_set_add. naive_solver.
  - rewrite elem_of_nil. naive_solver.
Qed.

Lemma run_item_collected its r i :
  collected its r → collected (its ++ [i]) (run_item (sig_of i) i r).
Proof.
  intros [Hall Hruns Hcur Hop Hseen]. unfold run_item.
  change (match sig_of i with Some k => set_add ?l k | None => ?l end)
    with (seen_with (sig_of i) l).
  fold (op_of i). destruct (negb (bool_decide (current r = [])) && _) eqn:Hb.
  - apply andb_true_iff in Hb as [Hne _]. apply negb_true_iff, bool_decide_eq_false in Hne.
    split; cbn -[seen_with]; rewrite ?app_nil_l.
    + rewrite concat_app. cbn. by rewrite app_nil_r, Hall.
    + apply Forall_app. by rewrite Forall_singleton.
    + apply one_run_single.
    + by intros j ->%list_elem_of_singleton.
    + apply (seen_with_spec [] i []). by intros k ?%elem_of_nil.
  - split; cbn -[seen_with].
    + by rewrite app_assoc, Hall.
    + done.
    + destruct (decide (current r = [])) as [->|Hne]; [apply one_run_single|].
      rewrite bool_decide_false in Hb by done. cbn [negb andb] in Hb.
      apply orb_false_iff in Hb as [[Hsame Hal]%orb_false_iff Hnew].
      apply bool_decide_eq_false, dec_stable in Hsame.
      apply one_run_snoc; try done.
      * intros j Hj. specialize (Hop j Hj). unfold op_of in *. congruence.
      * intros k Hk Hin. rewrite Hk in Hnew. apply bool_decide_eq_false in Hnew. auto.
    + intros j [Hj| ->%list_elem_of_singleton]%elem_of_app; [|done].
      destruct (decide (current r = [])) as [He|Hne]; [rewrite He in Hj; by apply elem_of_nil in Hj|].
      rewrite bool_decide_false in Hb by done. cbn [negb andb] in Hb.
      apply orb_false_iff in Hb as [[Hsame _]%orb_false_iff _].
      apply bool_decide_eq_false, dec_stable in Hsame. rewrite <- Hsame. by apply Hop.
    + by apply seen_with_spec.
Qed.

Lemma run_items_collected its l r r' :
  collected l r → run_items pk its r = Some r' → collected (l ++ its) r'.
Proof.
  revert l r. induction its as [|i its IH]; intros l r Hc; cbn; [intros [= <-]; by rewrite app_nil_r|].
  destruct (run_signature pk (srow (entry i))) as [sig|] eqn:Hs; [|done]. intros Hr.
  replace sig with (sig_of i) in Hr by (unfold sig_of; by rewrite Hs).
  apply (IH (l ++ [i])) in Hr; [by rewrite <- app_assoc in Hr|by apply run_item_collected].
Qed.

(** C12. What is read from the spool is split into deliveries without losing,
    repeating or reordering an entry, and each of them can go out as one: one
    operation, no key twice, a truncate or a notice on its own *)
Theorem deliverableRuns_correct its rs :
  deliverableRuns pk its = Some rs →
  concat rs = its ∧ Forall (λ run, run ≠ [] ∧ one_run run) rs.
Proof.
  unfold deliverableRuns. intros Hr. apply fmap_Some in Hr as (r & Hr & ->).
  apply (run_items_collected _ []) in Hr as [Hall Hruns Hcur _ _].
  - rewrite app_nil_l in Hall. destruct (current r) as [|i c] eqn:Hc.
    + by rewrite app_nil_r in Hall.
    + rewrite concat_app. cbn [concat]. rewrite app_nil_r. split; [done|].
      apply Forall_app. by rewrite Forall_singleton.
  - split; try done; cbn; [apply one_run_nil|by intros ? ?%elem_of_nil..].
Qed.
End runs.

(** ** The queue *)

(** ids in the order of the stream, and none handed out twice *)
Record Queue (s : Sys) : Prop := {
  ids_sorted : StronglySorted lt (CdcState.sid <$> spool s);
  ids_below : ∀ i, i ∈ spool s → CdcState.sid i < CdcState.nextId s
}.

Lemma sorted_app_ids (a b : list nat) :
  StronglySorted lt (a ++ b) ↔
  StronglySorted lt a ∧ StronglySorted lt b ∧ ∀ x y, x ∈ a → y ∈ b → x < y.
Proof.
  induction a as [|x a IH]; cbn.
  - split; [|naive_solver]. intros H. split_and!; [constructor|done|]. by intros x y ?%elem_of_nil.
  - split.
    + intros Hs. apply StronglySorted_inv in Hs as [Hs Hx]. apply IH in Hs as (Ha & Hb & Hab).
      rewrite Forall_app in Hx. destruct Hx as [Hxa Hxb]. split_and!; [by constructor|done|].
      intros y z [->|Hy]%elem_of_cons Hz; [|by apply Hab]. rewrite Forall_forall in Hxb. by apply Hxb.
    + intros (Ha & Hb & Hab). apply StronglySorted_inv in Ha as [Ha Hx].
      constructor; [apply IH; split_and!; [done..|]|].
      * intros y z Hy Hz. apply Hab; [by right|done].
      * apply Forall_app. split; [done|]. apply Forall_forall. intros z Hz. apply Hab; [by left|done].
Qed.

Lemma append_ids n entries k :
  CdcState.sid <$> imap (λ i e, {| CdcState.sid := n + (k + i); entry := e |}) entries
  = List.seq (n + k) (List.length entries).
Proof.
  revert k. induction entries as [|e es IH]; intros k; [done|]. cbn. f_equal; [lia|].
  rewrite <- Nat.add_succ_r, <- IH. f_equal. apply imap_ext. intros i x _. cbn. f_equal. lia.
Qed.

Lemma sorted_seq n m : StronglySorted lt (List.seq n m).
Proof.
  revert n. induction m as [|m IH]; intros n; cbn; constructor; [done|].
  apply Forall_forall. intros x Hx%elem_of_seq. lia.
Qed.

Lemma append_queue entries s : Queue s → Queue (append entries s).
Proof.
  intros [Hs Hb].
  assert (Hids : CdcState.sid <$> spool (append entries s) =
                 (CdcState.sid <$> spool s) ++ List.seq (CdcState.nextId s) (List.length entries)).
  { cbn. rewrite fmap_app. f_equal. pose proof (append_ids (CdcState.nextId s) entries 0) as He.
    by rewrite Nat.add_0_r in He. }
  assert (Hlt : ∀ x, x ∈ CdcState.sid <$> spool s → x < CdcState.nextId s).
  { intros x (i & -> & Hi)%list_elem_of_fmap. auto. }
  split.
  - rewrite Hids. apply sorted_app_ids. split_and!; [done|apply sorted_seq|].
    intros x y Hx Hy%elem_of_seq. specialize (Hlt x Hx). lia.
  - intros i Hi. assert (Hx : CdcState.sid i ∈ CdcState.sid <$> spool (append entries s))
      by by apply list_elem_of_fmap_2.
    rewrite Hids, elem_of_app in Hx.
    change (CdcState.nextId (append entries s)) with (List.length entries + CdcState.nextId s).
    destruct Hx as [Hx|Hx%elem_of_seq]; [|lia].
    specialize (Hlt _ Hx). lia.
Qed.

Lemma trim_prefix s run i rest :
  Queue s → spool s = run ++ i :: rest → spool (trimThrough (CdcState.sid i) s) = rest.
Proof.
  intros [Hs _] Hsp.
  change (spool (trimThrough (CdcState.sid i) s)) with
    (filter (λ j, CdcState.sid i < CdcState.sid j) (spool s)).
  rewrite Hsp, filter_app. rewrite Hsp, fmap_app, fmap_cons in Hs.
  apply sorted_app_ids in Hs as (_ & Hr & Hlt). apply StronglySorted_inv in Hr as [_ Hr].
  rewrite Forall_forall in Hr.
  assert (Hrest : ∀ l : list SpooledItem, (∀ j, j ∈ l → CdcState.sid i < CdcState.sid j) →
            filter (λ j, CdcState.sid i < CdcState.sid j) l = l).
  { induction l as [|j l IH]; intros Hl; [done|]. rewrite filter_cons_True by (apply Hl; by left).
    f_equal. apply IH. intros ? ?. apply Hl. by right. }
  assert (Hrun : ∀ l : list SpooledItem, (∀ j, j ∈ l → CdcState.sid j ≤ CdcState.sid i) →
            filter (λ j, CdcState.sid i < CdcState.sid j) l = []).
  { induction l as [|j l IH]; intros Hl; [done|].
    rewrite filter_cons_False; [apply IH; intros ? ?; apply Hl; by right|].
    specialize (Hl j ltac:(by left)). lia. }
  rewrite Hrun.
  2: { intros j Hj. apply Nat.lt_le_incl, Hlt; [by apply list_elem_of_fmap_2|by left]. }
  rewrite filter_cons_False by lia.
  cbn. apply Hrest. intros j Hj. apply Hr. by apply list_elem_of_fmap_2.
Qed.

Lemma trim_queue n s : Queue s → Queue (trimThrough n s).
Proof.
  intros [Hs Hb]. split.
  - change (spool (trimThrough n s)) with (filter (λ j, n < CdcState.sid j) (spool s)).
    generalize (spool s) Hs. intros l Hl. clear -Hl. induction l as [|i l IH]; [done|].
    cbn in Hl. apply StronglySorted_inv in Hl as [Hl Hi]. rewrite filter_cons. case_decide; [|auto].
    cbn. constructor; [auto|]. apply Forall_forall. intros x (j & -> & Hj)%list_elem_of_fmap.
    rewrite Forall_forall in Hi. apply Hi. apply list_elem_of_filter in Hj as [_ Hj].
    by apply list_elem_of_fmap_2.
  - intros i Hi. change (i ∈ filter (λ j, n < CdcState.sid j) (spool s)) in Hi.
    apply list_elem_of_filter in Hi as [_ Hi]. by apply Hb.
Qed.

(** The spool is a queue: what is appended goes to the end under ids of its
    own, and trimming through the last entry of a delivered run takes exactly the
    run *)
Theorem spool_is_a_queue s run i rest entries :
  Queue s → spool s = run ++ i :: rest →
  let s' := trimThrough (CdcState.sid i) (append entries s) in
  Queue s' ∧ entry <$> spool s' = (entry <$> rest) ++ entries.
Proof.
  intros Hq Hs s'. split; [by apply trim_queue, append_queue|].
  assert (Hr : ∃ new, spool (append entries s) = run ++ i :: (rest ++ new) ∧ entry <$> new = entries).
  { exists (imap (λ k e, {| CdcState.sid := CdcState.nextId s + k; entry := e |}) entries).
    split; [change (spool (append entries s)) with (spool s ++
      imap (λ k e, {| CdcState.sid := CdcState.nextId s + k; entry := e |}) entries);
      by rewrite Hs, <- app_assoc|].
    apply list_eq. intros k. rewrite list_lookup_fmap, list_lookup_imap.
    by destruct (entries !! k). }
  destruct Hr as (new & Hn & He). unfold s'.
  rewrite (trim_prefix _ run i (rest ++ new)); [|by apply append_queue|done].
  by rewrite fmap_app, He.
Qed.

(** ** Draining the queue

    While a run is delivered, the reader appends behind it and dead letters are
    cleared; nobody else takes from the queue. *)
Section consumer.
Context `{JsHost} `{JsPrint} `{Outside}.
Context (bridge : BridgeInput) (config : RuntimeConfig) (jobId : string).

(** what everything but recording, parking and trimming leaves as it is *)
Record beside (s s' : Sys) : Prop := {
  beside_cells : deliveries s' = deliveries s;
  beside_log : sinkLog s ⊆ sinkLog s';
  beside_letters : ∀ d, d ∈ deadLetters s → ∃ d', d' ∈ deadLetters s' ∧
    dlOp d' = dlOp d ∧ dlRows d' = dlRows d;
  beside_spool : ∃ more, spool s' = spool s ++ more ∧
    ∀ j, j ∈ more → CdcState.nextId s ≤ CdcState.sid j;
  beside_ids : CdcState.nextId s ≤ CdcState.nextId s'
}.

#[local] Instance beside_preorder : PreOrder beside.
Proof.
  split.
  - intros s. split; [done|done|naive_solver| |done]. exists []. rewrite app_nil_r.
    split; [done|]. by intros j ?%elem_of_nil.
  - intros s1 s2 s3 [Hq1 Hl1 Hd1 (m1 & Hs1 & Hm1) Hi1] [Hq2 Hl2 Hd2 (m2 & Hs2 & Hm2) Hi2].
    split; [congruence|by etrans| | |lia].
    + intros d Hd. destruct (Hd1 d Hd) as (d' & Hd' & ? & ?).
      destruct (Hd2 d' Hd') as (d'' & ? & ? & ?). exists d''. split_and!; [done|congruence..].
    + exists (m1 ++ m2). rewrite Hs2, Hs1, app_assoc. split; [done|].
      intros j [Hj|Hj]%elem_of_app; [auto|]. specialize (Hm2 j Hj). lia.
Qed.

(** the consumer leaves the source's position alone *)
Record apart (s s' : Sys) : Prop := {
  apart_cursor : cursorJson (job s') = cursorJson (job s);
  apart_acked : acked s' = acked s;
  apart_mark : watermark (stream s') = watermark (stream s)
}.

Abbreviation tri := (triple Queue beside apart).

(** an action that takes nothing from the queue *)
Record place (s s' : Sys) : Prop := {
  place_beside : beside s s';
  place_apart : apart s s';
  place_queue : spool s' = spool s;
  place_ids : CdcState.nextId s' = CdcState.nextId s
}.

Lemma place_keeps s s' : Queue s → place s s' → Queue s'.
Proof. intros [Hs Hb] [_ _ Hq Hi]. split; by rewrite Hq, ?Hi. Qed.

Ltac at_place :=
  split; [split; cbn; try done; [naive_solver|exists []; rewrite app_nil_r; split; [done|];
    by intros j ?%elem_of_nil]|by split|done|done].

Lemma place_tick s : place s (s {{ tick ::= S }}).
Proof. at_place. Qed.

Lemma place_halt s : place s (s {{ stream -> halted := true }}).
Proof. at_place. Qed.

Lemma place_status s st m : place s (s {{ job -> jstatus := st; job -> jerror := m }}).
Proof. at_place. Qed.

Lemma place_failures s n : place s (s {{ stream -> consecutiveFailures := n }}).
Proof. at_place. Qed.

Lemma place_moved s n : place s (s {{ job -> cursorOffset := n; stream -> seq := n }}).
Proof. at_place. Qed.

Lemma place_sink s w : place s (sink_deliver bridge w s).2.
Proof.
  split; [split; cbn; try done; [by apply list_subseteq_app_l|naive_solver|]|by split|done|done].
  exists []. rewrite app_nil_r. split; [done|]. by intros j ?%elem_of_nil.
Qed.

#[local] Instance place_preorder : PreOrder place.
Proof.
  split; [intros s; split; [reflexivity|by split|done|done]|].
  intros s1 s2 s3 [? [] ? ?] [? [] ? ?].
  split; [by etrans|split; congruence|congruence..].
Qed.

(** ** Facts that last *)

Definition lasting (φ : Sys → Prop) : Prop := ∀ s s', beside s s' → φ s → φ s'.

Lemma lasting_and φ ψ : lasting φ → lasting ψ → lasting (λ s, φ s ∧ ψ s).
Proof. intros Hφ Hψ s s' ? []. split; eauto. Qed.

Lemma lasting_const (P : Prop) : lasting (λ _, P).
Proof. by intros s s' _. Qed.

Lemma stable_lasting φ : lasting φ → stable Queue beside φ.
Proof. intros Hφ s s' ? _. by apply Hφ. Qed.

Lemma tri_at {R} φ (f : Sys → R * Sys) ψ E :
  lasting φ → (∀ r, lasting (ψ r)) → (∀ s, place s (f s).2) → (∀ s, φ s → ψ (f s).1 (f s).2) →
  tri φ (atomically f) ψ E.
Proof.
  intros Hφ Hψ Hp Hf. apply triple_atomically; [by apply stable_lasting|intros; by apply stable_lasting|].
  intros s Hq Hs. split_and!; [by eapply place_keeps|apply Hp|auto].
Qed.

Lemma tri_look {R} φ (f : Sys → R) ψ E :
  lasting φ → (∀ r, lasting (ψ r)) → (∀ s, φ s → ψ (f s) s) → tri φ (read f) ψ E.
Proof. intros. apply tri_at; [done..|intros; cbn; reflexivity|done]. Qed.

(** a store call that leaves the queue and the source's position alone *)
Lemma tri_write φ ψ (f : Sys → Sys) :
  lasting φ → lasting ψ →
  (∀ s, spool (f s) = spool s ∧ CdcState.nextId (f s) = CdcState.nextId s ∧ apart s (f s)) →
  (∀ s, φ s → ψ (f s)) → tri φ (store_call f) (λ _, ψ) (λ _, φ).
Proof.
  intros Hφ Hψ Hf Hs'. apply triple_call; [by apply stable_lasting|intros; by apply stable_lasting..|].
  intros s Hq Hs. pose proof (place_tick s) as Ht. pose proof (place_keeps _ _ Hq Ht) as Hq1.
  assert (Hs1 : φ (s {{ tick ::= S }})) by (eapply Hφ; [apply Ht|done]).
  destruct (Hf (s {{ tick ::= S }})) as (Hsp & Hid & [Hc Ha Hw]).
  destruct (store_refuses (tick s)); cbn [fst snd].
  - split_and!; [done|apply Ht|done].
  - split_and!; [|by split|auto]. destruct Hq1 as [H1' H2']. split; by rewrite Hsp, ?Hid.
Qed.

Lemma tri_write_place φ (f : Sys → Sys) :
  lasting φ → (∀ s, place s (f s)) → tri φ (store_call f) (λ _, φ) (λ _, φ).
Proof.
  intros Hφ Hf. apply tri_write; [done..| |].
  - intros s. by destruct (Hf s) as [_ ? ? ?].
  - intros s. apply Hφ, Hf.
Qed.

Lemma tri_question {A} φ (f : Sys → A) : lasting φ → tri φ (store_query f) (λ _, φ) (λ _, φ).
Proof.
  intros Hφ. apply triple_call; [by apply stable_lasting|intros; by apply stable_lasting..|].
  intros s Hq Hs. pose proof (place_tick s) as Ht.
  destruct (store_refuses (tick s)); cbn [fst snd];
    (split_and!; [by eapply place_keeps|apply Ht|eapply Hφ; [apply Ht|done]]).
Qed.

Lemma tri_done {A} φ (x : A) ψ E : lasting φ → (∀ s, φ s → ψ x s) → tri φ (Ret x) ψ E.
Proof. intros Hφ Hs. apply triple_ret; [by apply stable_lasting|auto]. Qed.

(** facts the cells have no part in *)
Definition cell_free (φ : Sys → Prop) : Prop :=
  ∀ s m f, φ s → φ (s {{ deliveries := m; job -> counters ::= f }}).

Lemma tri_recorded φ q rows o :
  lasting φ → cell_free φ → tri φ (record q rows o) (λ _, φ) (λ _, φ).
Proof.
  intros Hφ Hc. apply (triple_bind _ _ _ _ _ _ (λ _, φ)); [by apply tri_look|intros pk].
  apply (triple_bind _ _ _ _ _ _ (λ _, φ)); [by apply tri_question|intros old].
  apply tri_write; [done..|intros s; split_and!; by try split|]. intros s Hs. by apply Hc.
Qed.

Lemma tri_halted φ st m E : lasting φ → tri φ (halt st m) (λ _, φ) E.
Proof.
  intros Hφ. apply (triple_bind _ _ _ _ _ _ (λ _, φ)).
  - apply tri_at; [done|done|intros; apply place_halt|]. intros s Hs. eapply Hφ; [apply place_halt|done].
  - intros [|]; [by apply tri_done|]. unfold ignore.
    eapply (triple_catch _ _ _ _ _ _ _ _ (λ _, φ)); [|intros e; by apply tri_done].
    apply tri_write_place; [done|]. intros s. apply place_status.
Qed.

(** whatever the work does when it fails, it keeps [φ]; so does trying again *)
Lemma tri_settled φ (work : @async Sys unit) E :
  lasting φ → tri φ work (λ _, φ) (λ _, φ) → tri φ (settle work) (λ _, φ) E.
Proof.
  intros Hφ Hw. unfold settle. generalize EmptyString. induction SETTLE_ATTEMPTS as [|n IH]; intros e.
  - by apply tri_halted.
  - apply (triple_bind _ _ _ _ _ _ (λ _, φ)); [by apply tri_look|intros [|]; [by apply tri_done|]].
    apply (triple_bind _ _ _ _ _ _ (λ _, φ)).
    + eapply (triple_catch _ _ _ _ _ _ _ _ (λ _, φ)); [|intros m; by apply tri_done].
      apply (triple_bind _ _ _ _ _ _ (λ _, φ)); [done|intros []; by apply tri_done].
    + intros [m|]; [apply IH|by apply tri_done].
Qed.

(** ** What becomes of a run *)

Definition sent_all (o : option CdcOperation) (rows : list Row) (s : Sys) : Prop :=
  ∀ r, r ∈ rows → ∃ w, w ∈ sinkLog s ∧ wdone w = true ∧ wop w = o ∧ r ∈ wrows w.

(** every row is at the destination, or in the dead-letter queue *)
Definition landed_all (o : option CdcOperation) (rows : list Row) (s : Sys) : Prop :=
  ∀ r, r ∈ rows → (∃ w, w ∈ sinkLog s ∧ wdone w = true ∧ wop w = o ∧ r ∈ wrows w) ∨
                  (∃ d, d ∈ deadLetters s ∧ dlOp d = o ∧ r ∈ dlRows d).

(** the notice has its cell *)
Definition noted_at (q : nat) (m : string) (s : Sys) : Prop :=
  ∃ d, deliveries s !! q = Some d ∧ dstatus d = delivered_skipped ∧ derror d = Some m.

(** at the head of the queue *)
Definition waiting (run : list SpooledItem) (s : Sys) : Prop := run `prefix_of` spool s.

(** gone from it *)
Definition trimmed (run : list SpooledItem) (s : Sys) : Prop :=
  ∀ i, i ∈ run → CdcState.sid i < CdcState.nextId s ∧
                 ∀ j, j ∈ spool s → CdcState.sid i < CdcState.sid j.

(** a run that has left the queue has [L] *)
Definition not_lost (run : list SpooledItem) (L : Sys → Prop) (s : Sys) : Prop :=
  waiting run s ∨ (trimmed run s ∧ L s).

Lemma lasting_sent o rows : lasting (sent_all o rows).
Proof. intros s s' Hb Hs r Hr. destruct (Hs r Hr) as (w & Hw & ?). exists w.
  split; [by apply (beside_log _ _ Hb)|done]. Qed.

Lemma lasting_landed o rows : lasting (landed_all o rows).
Proof.
  intros s s' Hb Hs r Hr. destruct (Hs r Hr) as [(w & Hw & ?)|(d & Hd & Ho & Hd')].
  - left. exists w. split; [by apply (beside_log _ _ Hb)|done].
  - right. destruct (beside_letters _ _ Hb d Hd) as (d' & ? & Ho' & Hr'). exists d'.
    rewrite Ho', Hr'. done.
Qed.

Lemma lasting_noted q m : lasting (noted_at q m).
Proof. intros s s' Hb. unfold noted_at. by rewrite (beside_cells _ _ Hb). Qed.

Lemma lasting_trimmed run : lasting (trimmed run).
Proof.
  intros s s' [_ _ _ (more & Hs & Hm) Hi] Ht i Hin. destruct (Ht i Hin) as [Hid Hlt].
  split; [lia|]. rewrite Hs. intros j [Hj|Hj]%elem_of_app; [auto|]. specialize (Hm j Hj). lia.
Qed.

Lemma lasting_not_lost run L : lasting L → lasting (not_lost run L).
Proof.
  intros HL s s' Hb [Hw|[Ht Hl]]; [left|right; split; [by eapply lasting_trimmed|eauto]].
  destruct Hb as [_ _ _ (more & Hs & _) _]. unfold waiting. rewrite Hs. by apply prefix_app_r.
Qed.

(** trimming through its last entry takes the run *)
Lemma trim_trims s run i :
  Queue s → last run = Some i → waiting run s ∨ trimmed run s →
  trimmed run (trimThrough (CdcState.sid i) s).
Proof.
  intros Hq Hl Hr. apply last_Some in Hl as [front ->].
  assert (Hall : ∀ j, j ∈ front ++ [i] → CdcState.sid j < CdcState.nextId s ∧
                      CdcState.sid j ≤ CdcState.sid i ∨ trimmed (front ++ [i]) s).
  { destruct Hr as [[rest Hs]|Ht]; [|by right]. intros j Hj. left. destruct Hq as [Hsort Hb].
    split; [apply Hb; rewrite Hs; apply elem_of_app; by left|].
    rewrite Hs, fmap_app, fmap_app, <- app_assoc in Hsort. apply sorted_app_ids in Hsort as (_ & _ & Hlt).
    apply elem_of_app in Hj as [Hj| ->%list_elem_of_singleton]; [|done].
    apply Nat.lt_le_incl, Hlt; [by apply list_elem_of_fmap_2|by left]. }
  intros j Hj. change (CdcState.nextId (trimThrough (CdcState.sid i) s)) with (CdcState.nextId s).
  assert (Hk : ∀ k, k ∈ spool (trimThrough (CdcState.sid i) s) →
            CdcState.sid i < CdcState.sid k ∧ k ∈ spool s).
  { intros k Hk. change (k ∈ filter (λ k, CdcState.sid i < CdcState.sid k) (spool s)) in Hk.
    by apply list_elem_of_filter in Hk. }
  destruct (Hall j Hj) as [[Hn Hle]|Ht].
  - split; [done|]. intros k [? _]%Hk. lia.
  - destruct (Ht j Hj) as [Hn Hlt]. split; [done|]. intros k [_ ?]%Hk. auto.
Qed.

Lemma tri_trim run i L :
  last run = Some i → lasting L → (∀ s n, L s → L (trimThrough n s {{ tick ::= S }})) →
  tri (λ s, not_lost run L s ∧ L s) (spool_call (trimThrough (CdcState.sid i)))
    (λ _ s, not_lost run L s ∧ L s) (λ _ s, not_lost run L s ∧ L s).
Proof.
  intros Hl HL Htr. pose proof (lasting_not_lost run L HL) as Hnl.
  apply triple_call; [by apply stable_lasting, lasting_and|intros; by apply stable_lasting, lasting_and..|].
  intros s Hq [Hs HLs]. pose proof (place_tick s) as Ht.
  destruct (spool_refuses (tick s)); cbn [fst snd].
  - split_and!; [by eapply place_keeps|apply Ht|eapply Hnl; [apply Ht|done]|eapply HL; [apply Ht|done]].
  - assert (Hq1 : Queue (s {{ tick ::= S }})) by by eapply place_keeps.
    assert (HL1 : L (trimThrough (CdcState.sid i) (s {{ tick ::= S }}))) by by apply Htr.
    split_and!; [by apply trim_queue|by split| |done]. right. split; [|done].
    apply trim_trims; [done..|]. destruct Hs as [Hw|[Hw _]]; [by left|by right].
Qed.

Lemma tri_advance_spool run i L n :
  last run = Some i → lasting L → (∀ s n, L s → L (trimThrough n s {{ tick ::= S }})) →
  tri (λ s, not_lost run L s ∧ L s) (advance_spool (CdcState.sid i) n)
    (λ _ s, not_lost run L s ∧ L s) (λ _ s, not_lost run L s ∧ L s).
Proof.
  intros Hl HL Htr. pose proof (lasting_not_lost run L HL) as Hnl.
  eapply (triple_bind _ _ _ _ _ _ _); [by apply (tri_trim run i L)|intros []].
  apply tri_write_place; [by apply lasting_and|]. intros s. apply place_moved.
Qed.

(** ** A run that failed *)

Section failed.
Context (run : list SpooledItem) (o : option CdcOperation) (rows : list Row).

Abbreviation L := (landed_all o rows).
Abbreviation safe := (not_lost run L).

Lemma lasting_safe : lasting safe.
Proof. apply lasting_not_lost, lasting_landed. Qed.

Lemma safe_cell_free : cell_free safe.
Proof. intros s m f Hs. exact Hs. Qed.

Lemma lasting_landed_safe : lasting (λ s, safe s ∧ L s).
Proof. apply lasting_and; [apply lasting_safe|apply lasting_landed]. Qed.

Lemma tri_recorded_landed q rs oc :
  tri (λ s, safe s ∧ L s) (record q rs oc) (λ _ s, safe s ∧ L s) (λ _, safe).
Proof.
  eapply triple_weaken; [apply (tri_recorded (λ s, safe s ∧ L s)); [apply lasting_landed_safe|]
    |done|done|by intros e s [? _]].
  intros s m f [Hs Hl]. split; [exact Hs|exact Hl].
Qed.

Lemma tri_stopped q oc m : tri safe (stop_batch q rows oc m) (λ _, safe) (λ _, safe).
Proof.
  eapply (triple_bind _ _ _ _ _ _ _); [apply tri_recorded; [apply lasting_safe|apply safe_cell_free]|].
  intros []. eapply (triple_bind _ _ _ _ _ _ _); [apply tri_halted, lasting_safe|].
  intros []. by apply tri_done; [apply lasting_safe|].
Qed.

Lemma isolate_place part q reason already s :
  place s (isolate bridge part o q reason already s).2.
Proof.
  unfold isolate.
  destruct (isolateFailures_total (isolation_attempt bridge o q) (ISOLATION reason already) s part)
    as [[found s'] Hf]. rewrite Hf. cbn [default fst snd].
  eapply (isolateFailures_world _ _ (place s) (λ _ _, True)) in Hf as [Hp _]; [done| |reflexivity].
  intros w rs sk at_ w' Hw Ha. split_and!; [|done..]. unfold isolation_attempt in Ha.
  pose proof (place_sink w (attempt_write rs o q sk None)) as Hs.
  destruct (sink_deliver _ _ _) as [r w'']. simplify_eq. by etrans.
Qed.

(** the rows told apart: what is called delivered was sent *)
Definition apart_rows (r : list Row * list FailedPart * nat + string) (s : Sys) : Prop :=
  match r with
  | inl (delivered, failed, _) => sent_all o delivered s ∧ rows ⊆ delivered ++ failed_rows failed
  | inr _ => True
  end.

Lemma lasting_apart r : lasting (apart_rows r).
Proof.
  destruct r as [[[delivered failed] n]|m]; [|apply lasting_const].
  apply lasting_and; [apply lasting_sent|apply lasting_const].
Qed.

Lemma tri_told q outcome reason E :
  tri safe (tell_apart bridge rows o q outcome reason) (λ r s, safe s ∧ apart_rows r s) E.
Proof.
  assert (Hlast : ∀ r, lasting (λ s, safe s ∧ apart_rows r s))
    by (intros r; apply lasting_and; [apply lasting_safe|apply lasting_apart]).
  unfold tell_apart. destruct (canIsolate bridge rows).
  - apply (triple_bind _ _ _ _ _ _ (λ found s, safe s ∧ sent_all o (Isolate.delivered found) s ∧
      (Isolate.systemic found = false →
         rows ⊆ Isolate.delivered found ++ (prow <$> Isolate.poisoned found)))).
    + apply tri_at; [apply lasting_safe| |intros; apply isolate_place|].
      { intros r. apply lasting_and; [apply lasting_safe|].
        apply lasting_and; [apply lasting_sent|apply lasting_const]. }
      intros s Hs. split; [eapply lasting_safe; [apply isolate_place|done]|].
      apply (isolate_spec bridge config sample_provider sample_source).
    + intros found. destruct (Isolate.systemic found).
      * apply tri_done; [|intros s [? _]; by split]. apply lasting_and; [apply lasting_safe|].
        apply lasting_and; [apply lasting_sent|apply lasting_const].
      * apply tri_done; [|intros s (? & ? & Hr); split; [done|]; split; [done|];
          rewrite failed_rows_single; by apply Hr]. apply lasting_and; [apply lasting_safe|].
        apply lasting_and; [apply lasting_sent|apply lasting_const].
  - apply tri_done; [apply lasting_safe|]. intros s Hs. split; [done|]. cbn.
    split; [by intros r ?%elem_of_nil|]. by rewrite failed_rows_chunks.
Qed.

Lemma tri_parked fs q c delivered failed :
  rows ⊆ delivered ++ failed_rows failed →
  tri (λ s, safe s ∧ sent_all o delivered s) (park (dead_letter fs o c <$> failed) q)
    (λ _ s, safe s ∧ L s) (λ _, safe).
Proof.
  intros Hrows. pose proof lasting_safe as Hsafe. pose proof (lasting_landed o rows) as HL.
  assert (Hpre : lasting (λ s, safe s ∧ sent_all o delivered s))
    by (apply lasting_and; [done|apply lasting_sent]).
  unfold park. destruct (dead_letter fs o c <$> failed) as [|d ds] eqn:Hds.
  - apply fmap_nil_inv in Hds. subst failed. apply tri_done; [done|]. intros s [Hs Hd].
    split; [done|]. intros r Hr. left. apply Hd. specialize (Hrows r Hr). cbn in Hrows.
    by rewrite app_nil_r in Hrows.
  - rewrite <- Hds. eapply triple_weaken; [apply (tri_write _ (λ s, safe s ∧ L s) _ Hpre);
      [by apply lasting_and|intros s; split_and!; by try split|]|done|done|by intros e s [? _]].
    intros s [Hs Hd]. assert (HL' : L (s {{ deadLetters ::= parked (dead_letter fs o c <$> failed) q }})).
    { intros r Hr. apply Hrows, elem_of_app in Hr as [Hr|(f & Hr & Hf)%list_elem_of_bind];
        [left; by apply Hd|right]. exists (dead_letter fs o c f). split; [|done].
      assert (Hin : dead_letter fs o c f ∈ dead_letter fs o c <$> failed) by by apply list_elem_of_fmap_2.
      cbn. destruct (dead_letter fs o c <$> failed) as [|d' ds']; [by apply elem_of_nil in Hin|].
      apply elem_of_app. by right. }
    split; [|done]. destruct Hs as [Hw|[Ht _]]; [by left|by right].
Qed.

Lemma tri_set_aside_run q c oc delivered failed attempts :
  rows ⊆ delivered ++ failed_rows failed →
  tri (λ s, safe s ∧ sent_all o delivered s) (set_aside q o c oc delivered failed attempts)
    (λ _ s, safe s ∧ L s) (λ _, safe).
Proof.
  intros Hrows. unfold set_aside.
  pose proof lasting_landed_safe as Hlast.
  eapply (triple_bind _ _ _ _ _ _ _); [by apply tri_parked|intros []].
  apply (triple_bind _ _ _ _ _ _ (λ _ s, safe s ∧ L s)).
  { destruct delivered; [by apply tri_done|apply tri_recorded_landed]. }
  intros []. eapply (triple_bind _ _ _ _ _ _ _); [apply tri_recorded_landed|intros []].
  by apply tri_done.
Qed.

(** a failed run: stopped, or every row of it has landed *)
Lemma tri_failed_run q c outcome :
  tri safe (handleFailedBatch bridge config rows o q c outcome)
    (λ res s, safe s ∧ (is_Some res → L s)) (λ _, safe).
Proof.
  assert (Hstop : ∀ m, tri safe (stop_batch q rows outcome m)
            (λ res s, safe s ∧ (is_Some res → L s)) (λ _, safe)).
  { intros m. eapply (triple_bind _ _ _ _ _ _ _);
      [apply tri_recorded; [apply lasting_safe|apply safe_cell_free]|intros []].
    eapply (triple_bind _ _ _ _ _ _ _); [apply tri_halted, lasting_safe|intros []].
    apply tri_done; [apply lasting_safe|]. intros s Hs. split; [done|]. by intros []. }
  unfold handleFailedBatch. destruct (bool_decide _); [apply Hstop|].
  eapply (triple_bind _ _ _ _ _ _ _); [apply tri_told|].
  intros [[[delivered failed] attempts]|m]; cbn beta iota;
    [|eapply triple_pre; [apply Hstop|by intros s _ [? _]]].
  apply (triple_pure _ _ _ (rows ⊆ delivered ++ failed_rows failed)); [by intros s (_ & _ & ?)|].
  intros Hrows. assert (Hpre : lasting (λ s, safe s ∧ sent_all o delivered s))
    by (apply lasting_and; [apply lasting_safe|apply lasting_sent]).
  assert (Hstrip : ∀ s, safe s ∧ apart_rows (inl (delivered, failed, attempts)) s →
                        safe s ∧ sent_all o delivered s) by by intros s (? & ? & _).
  destruct failed as [|f fs].
  - apply (triple_bind _ _ _ _ _ _ (λ _ s, safe s ∧ L s)).
    + eapply triple_pre; [apply (tri_at (λ s, safe s ∧ sent_all o delivered s) _ (λ _ s, safe s ∧ L s))
        |intros s _; apply Hstrip]; [done| |intros s; apply place_failures|].
      * intros _. apply lasting_landed_safe.
      * intros s [Hs Hd]. split; [eapply lasting_safe; [apply place_failures|done]|].
        intros r Hr. left. cbn. apply Hd. specialize (Hrows r Hr). cbn in Hrows.
        by rewrite app_nil_r in Hrows.
    + intros []. eapply (triple_bind _ _ _ _ _ _ _); [apply tri_recorded_landed|intros []].
      apply tri_done; [apply lasting_landed_safe|]. by intros s [? ?].
  - apply (triple_bind _ _ _ _ _ _ (λ _ s, safe s ∧ sent_all o delivered s)).
    { eapply triple_pre; [apply (tri_at (λ s, safe s ∧ sent_all o delivered s) _
        (λ _ s, safe s ∧ sent_all o delivered s))|intros s _; apply Hstrip];
        [done|done|intros s; apply place_failures|].
      intros s Hs. eapply Hpre; [apply place_failures|done]. }
    intros n. destruct (_ <=? n); [eapply triple_pre; [apply Hstop|by intros s _ [? _]]|].
    apply (triple_bind _ _ _ _ _ _ (λ _ s, safe s ∧ sent_all o delivered s)).
    { eapply triple_weaken; [by apply (tri_question (λ s, safe s ∧ sent_all o delivered s))|done|done|
        by intros e s [? _]]. }
    intros held. destruct (_ <? _); [eapply triple_pre; [apply Hstop|by intros s _ [? _]]|].
    eapply triple_weaken; [by apply (tri_set_aside_run q c outcome delivered (f :: fs))|done|
      by intros x s [? ?]|done].
Qed.
End failed.

(** ** A whole run *)

(** what leaving the queue takes: its rows landed, or its notice recorded *)
Definition run_outcome (run : list SpooledItem) (s : Sys) : Prop :=
  match run with
  | [] => True
  | first :: _ =>
      match op_of first with
      | spool_change o => landed_all (Some o) ((λ i, srow (entry i)) <$> run) s
      | spool_notice => ∃ q, noted_at q (notice_text (srow (entry first))) s
      end
  end.

Lemma lasting_outcome run : lasting (run_outcome run).
Proof.
  destruct run as [|first run]; [apply lasting_const|]. unfold run_outcome.
  destruct (op_of first) as [o|]; [apply lasting_landed|].
  intros s s' Hb [q Hn]. exists q. by eapply lasting_noted.
Qed.

Lemma outcome_trim run s n : run_outcome run s → run_outcome run (trimThrough n s {{ tick ::= S }}).
Proof. destruct run as [|first run]; [done|]. unfold run_outcome. by destruct (op_of first). Qed.

Context (src : TableSource).
Hypothesis from_table : source bridge = FromTable src.

Section run.
Context (first : SpooledItem) (its : list SpooledItem) (end_ : SpooledItem).
Hypothesis ends : last (first :: its) = Some end_.

Abbreviation run := (first :: its).
Abbreviation safe := (not_lost run (run_outcome run)).
Abbreviation rows := ((λ i, srow (entry i)) <$> run).

Lemma lasting_run : lasting safe.
Proof. apply lasting_not_lost, lasting_outcome. Qed.

Lemma tri_advance_run n :
  tri (λ s, safe s ∧ run_outcome run s) (advance_spool (CdcState.sid end_) n) (λ _, safe) (λ _, safe).
Proof.
  eapply triple_weaken; [apply (tri_advance_spool run end_ (run_outcome run) n ends);
    [apply lasting_outcome|intros s k; apply outcome_trim]|done|by intros x s [? _]..].
Qed.

Lemma tri_notice_run q E :
  op_of first = spool_notice →
  tri safe (settle (recordNotice q (notice_text (srow (entry first))) ;;
                    advance_spool (CdcState.sid end_) (S q))) (λ _, safe) E.
Proof.
  intros Hop. apply tri_settled; [apply lasting_run|].
  assert (Hlast : lasting (λ s, safe s ∧ run_outcome run s))
    by (apply lasting_and; [apply lasting_run|apply lasting_outcome]).
  apply (triple_bind _ _ _ _ _ _ (λ _ s, safe s ∧ run_outcome run s)); [|intros []; apply tri_advance_run].
  apply tri_write; [apply lasting_run|done|intros s; split_and!; by try split|].
  intros s Hs. assert (Ho : run_outcome run (s {{ deliveries ::= <[q := notice_row (deliveries s !! q)
      (notice_text (srow (entry first)))]> }})).
  { unfold run_outcome. rewrite Hop. exists q. eexists. split; [by apply lookup_insert_eq|].
    by destruct (deliveries s !! q). }
  split; [|done]. destruct Hs as [Hw|[Ht _]]; [by left|by right].
Qed.

Lemma tri_change_run o q c outcome E :
  op_of first = spool_change o →
  tri (λ s, safe s ∧ (success outcome = true → sent_all (Some o) rows s))
    (settle_delivery bridge config rows (Some o) q c outcome (advance_spool (CdcState.sid end_)))
    (λ _, safe) E.
Proof.
  intros Hop. assert (HL : ∀ s, run_outcome run s ↔ landed_all (Some o) rows s)
    by (intros s; unfold run_outcome; by rewrite Hop).
  unfold settle_delivery. destruct (success outcome).
  - pose (φ := λ s, not_lost run (sent_all (Some o) rows) s ∧ sent_all (Some o) rows s).
    assert (Hφ : lasting φ) by (apply lasting_and; [apply lasting_not_lost|]; apply lasting_sent).
    assert (Hsafe : ∀ s, φ s → safe s).
    { intros s [[Hw|[Ht _]] Hs]; [by left|right; split; [done|]]. apply HL. intros r Hr. left. auto. }
    eapply triple_weaken; [apply (tri_settled φ _ E Hφ)| |intros x s; apply Hsafe|done].
    + apply (triple_bind _ _ _ _ _ _ (λ _, φ)); [apply tri_recorded; [done|by intros s m f [? ?]]|intros []].
      apply (triple_bind _ _ _ _ _ _ (λ _, φ)).
      { apply tri_at; [done|done|intros s; apply place_failures|].
        intros s Hs. eapply Hφ; [apply place_failures|done]. }
      intros []. by apply (tri_advance_spool run end_ (sent_all (Some o) rows) (S q) ends (lasting_sent _ _)).
    + intros s _ [[Hw|[Ht _]] Hs]; (split; [|by apply Hs]); [by left|right; split; [done|by apply Hs]].
  - assert (Hconv : ∀ s, safe s ↔ not_lost run (landed_all (Some o) rows) s)
      by (intros s; unfold not_lost; by rewrite HL).
    eapply triple_pre; [apply (tri_settled safe _ E lasting_run)|by intros s _ [? _]].
    eapply (triple_bind _ _ _ _ _ _ (λ res s, safe s ∧ (is_Some res → run_outcome run s))).
    { eapply triple_weaken; [apply (tri_failed_run run (Some o) rows q c outcome)
        |intros s _; apply Hconv| |intros e s; apply Hconv].
      intros res s [Hs Hr]. split; [by apply Hconv|]. intros Hres. by apply HL, Hr. }
    intros [n|]; cbn beta iota.
    + eapply triple_pre; [apply tri_advance_run|intros s _ [Hs Ho]; split; [done|by apply Ho]].
    + apply tri_done; [|by intros s [? _]]. apply lasting_and; [apply lasting_run|].
      intros s s' Hb Hr Hn. by destruct Hn.
Qed.
End run.

(** C4. While [deliverSpooled] delivers a run that stands at the head of the queue of a
    bridge that reads a table — the reader appending behind it, dead letters being
    cleared, any call of a store being refused — and when it has ended: the run stands
    at the head, or it is gone from the queue with each of its rows delivered or in the
    dead-letter queue, a notice with its cell written. It acknowledges no position to
    the source and saves none, and it throws nothing. (Not of the loop around it: the
    reading of the queue deletes an entry that cannot be read back, and a key that is
    a [bigint] makes its grouping throw, [consumer_round]; and a later start may use
    the run's sequence again, [trimmed_before_saved]) *)
Theorem spooled_run_is_not_lost run :
  tri (waiting run) (deliverSpooled bridge config jobId run)
    (λ _, not_lost run (run_outcome run)) (λ _ _, False).
Proof.
  assert (Hlast : lasting (not_lost run (run_outcome run))) by apply lasting_not_lost, lasting_outcome.
  apply (triple_pre _ _ _ _ (not_lost run (run_outcome run))); [|by intros s _ Hw; left].
  unfold deliverSpooled. rewrite from_table.
  destruct run as [|first its]; [by apply tri_done|].
  destruct (last (first :: its)) as [end_|] eqn:Hend; [|by apply tri_done].
  apply (triple_bind _ _ _ _ _ _ (λ _, not_lost (first :: its) (run_outcome (first :: its))));
    [by apply tri_look|intros q].
  apply (triple_bind _ _ _ _ _ _ (λ _, not_lost (first :: its) (run_outcome (first :: its))));
    [|intros []; by apply tri_look].
  destruct (sop (entry first)) as [o|] eqn:Hop; [|by apply tri_notice_run].
  eapply (triple_bind _ _ _ _ _ _ _); [|intros outcome; by apply tri_change_run].
  apply tri_at; [done| |intros s; apply place_sink|].
  - intros r. apply lasting_and; [done|]. intros s s' Hb Hs Hok. eapply lasting_sent; [done|auto].
  - intros s Hs. split; [eapply Hlast; [apply place_sink|done]|].
    intros Hok r Hr. eexists. split; [cbn; apply elem_of_app; right; apply list_elem_of_here|by split_and!].
Qed.
End consumer.

(** ** A queue of two, and a destination that refuses both *)

Definition spooled_rows : list SpooledItem :=
  [{| CdcState.sid := 1; entry := {| sop := spool_change op_insert; srow := user "1" "ada"; scursor := "1" |} |};
   {| CdcState.sid := 2; entry := {| sop := spool_change op_delete; srow := user "2" "alan"; scursor := "2" |} |}].

Definition with_spool : Sys :=
  beginStream (Some ["id"]) (fresh {{ spool := spooled_rows; CdcState.nextId := 3 }}).

(** the store refuses to save the sequence behind the first run, three times *)
Definition unsaved : Outside :=
  sample_outside (λ _, false) (λ n, bool_decide (n ∈ [7; 13; 19])) (λ _, false).

Definition one_round (s : Sys) : Sys :=
  match exec (consumer_round (H1 := unsaved) (sample_bridge continue_on_error) (sample_config true) "job") s with
  | Some (_, s') => s'
  | None => s
  end.

Definition after_stop : Sys := one_round with_spool.
Definition after_restart : Sys := one_round (beginStream (Some ["id"]) after_stop).

(** The spool is trimmed before the sequence is saved. When saving fails, the next
    start uses the sequence again, and setting its first failed run aside replaces
    the dead letter of a run that is no longer in the spool: its row is in none of
    the spool, the queue and the destination *)
Example trimmed_before_saved :
  (spool after_stop = drop 1 spooled_rows ∧ cursorOffset (job after_stop) = 0 ∧
   (dlRows <$> deadLetters after_stop) = [[user "1" "ada"]]) ∧
  spool after_restart = [] ∧ (dlRows <$> deadLetters after_restart) = [[user "2" "alan"]] ∧
  (wdone <$> sinkLog after_restart) = [false; false].
Proof. vm_compute. split_and!; reflexivity. Qed.

Lemma queue_of_two : Queue with_spool.
Proof.
  split.
  - change (CdcState.sid <$> spool with_spool) with [1; 2]. repeat constructor.
  - intros i Hi. change (i ∈ spooled_rows) in Hi. change (CdcState.nextId with_spool) with 3.
    unfold spooled_rows in Hi. rewrite !elem_of_cons, elem_of_nil in Hi.
    destruct Hi as [->|[->|[]]]; cbn; lia.
Qed.

Lemma deliverableRuns_correct_witness :
  concat ((λ i, [i]) <$> spooled_rows) = spooled_rows ∧
  Forall (λ run, run ≠ [] ∧ one_run (Some ["id"]) run) ((λ i, [i]) <$> spooled_rows).
Proof. apply (deliverableRuns_correct (Some ["id"]) spooled_rows). vm_compute. reflexivity. Defined.

Lemma spool_is_a_queue_witness :
  entry <$> spool (trimThrough 1 (append (entry <$> spooled_rows) with_spool)) =
  (entry <$> drop 1 spooled_rows) ++ (entry <$> spooled_rows).
Proof.
  apply (spool_is_a_queue with_spool [] (default {| CdcState.sid := 0; entry :=
           {| sop := spool_notice; srow := user "0" "nobody"; scursor := "0" |} |} (head spooled_rows))
           (drop 1 spooled_rows) (entry <$> spooled_rows)); [apply queue_of_two|reflexivity].
Defined.

Lemma spooled_run_is_not_lost_witness :
  wp Queue beside apart
    (deliverSpooled (H1 := unsaved) (sample_bridge continue_on_error) (sample_config true) "job"
       (take 1 spooled_rows))
    (λ _, not_lost (take 1 spooled_rows) (run_outcome (take 1 spooled_rows))) (λ _ _, False) with_spool.
Proof.
  apply (spooled_run_is_not_lost (H1 := unsaved) (sample_bridge continue_on_error)
           (sample_config true) "job" sample_source eq_refl (take 1 spooled_rows)).
  - apply queue_of_two.
  - exists (drop 1 spooled_rows). reflexivity.
Defined.
