(* ===== verification/PgCdc.v ===== *)
(** The positions of a PostgreSQL stream, for the change pipeline: a log whose
    events carry the cursors the reader makes, in the order of the stream, is
    ordered as [CursorOrder] asks ([cdc/providers/postgres-cdc.provider.ts]). *)
From S2P Require Import Prelude JsText JsNumber JsDate JsValue JsJson.
From S2P Require Import BridgeConfig ColumnTransforms FilterMatch TypeMap SchemaDrift PgLsn.
From S2P Require Import Isolate Async Bridge CdcState Ledger Cdc CdcSystem CdcSafety.

(** [PostgresCdcProvider], to the orchestrator *)
Definition PostgresCdcProvider : CdcProvider :=
  {| engine := postgres; handlesSourceFilters := false; cursorAfter := lsnAfter |}.

(** each event carries the cursor of its mark, and marks come in stream order: the
    next one is never before *)
Definition in_stream_order (marks : list mark) (log : list LogEvent) : Prop :=
  Forall mark_ok marks ∧ event_cursor <$> log = mark_cursor <$> marks ∧
  ∀ i j a b, marks !! i = Some a → marks !! j = Some b → i < j →
    lex_lt (mark_key a) (mark_key b) = true.

(** C11. The positions a PostgreSQL reader hands out fit what the pipeline asks of
    a provider: in a log in stream order, an event whose cursor is not after
    another's comes no later *)
Theorem postgres_orders_its_log marks log :
  in_stream_order marks log → CursorOrder PostgresCdcProvider log.
Proof.
  intros (Hok & Hlog & Hord). split; [done|]. intros i j ei ej Hi Hj Hafter.
  assert (Hmark : ∀ k e, log !! k = Some e → ∃ m, marks !! k = Some m ∧ mark_ok m ∧
                    event_cursor e = mark_cursor m).
  { intros k e Hk. assert (Hk' : (event_cursor <$> log) !! k = Some (event_cursor e))
      by (by rewrite list_lookup_fmap, Hk).
    rewrite Hlog, list_lookup_fmap in Hk'. apply fmap_Some in Hk' as (m & Hm & ->).
    exists m. split_and!; [done| |done]. rewrite Forall_forall in Hok.
    apply Hok. by eapply list_elem_of_lookup_2. }
  destruct (Hmark i ei Hi) as (a & Ha & Hoka & Hca), (Hmark j ej Hj) as (b & Hb & Hokb & Hcb).
  change (lsnAfter (event_cursor ei) (Some (event_cursor ej)) = false) in Hafter.
  rewrite Hca, Hcb, lsnAfter_marks in Hafter by done.
  destruct (decide (i ≤ j)) as [|Hij]; [done|].
  rewrite (Hord j i b a Hb Ha ltac:(lia)) in Hafter. done.
Qed.

(** ** A transaction of two changes *)

Definition sample_marks : list mark :=
  [Change 0x16B374D848 0x16B3740000 0; Change 0x16B374D848 0x16B3740000 1;
   TxnEnd 0x16B374D848 0x16B374D900].

Definition pg_log : list LogEvent :=
  [EvChange {| op := op_delete; crow := {| cols := []; origins := [] |};
               ccursor := mark_cursor (Change 0x16B374D848 0x16B3740000 0); keyChanged := true |};
   EvChange {| op := op_insert; crow := {| cols := []; origins := [] |};
               ccursor := mark_cursor (Change 0x16B374D848 0x16B3740000 1); keyChanged := true |};
   EvSkip (mark_cursor (TxnEnd 0x16B374D848 0x16B374D900))].

Lemma sample_marks_order : in_stream_order sample_marks pg_log.
Proof.
  split; [|split; [reflexivity|]].
  - repeat constructor; cbn; lia.
  - intros [|[|[|i]]] [|[|[|j]]] a b; cbn; intros [= <-] [= <-] Hij; try lia; reflexivity.
Qed.

Lemma postgres_orders_its_log_witness : CursorOrder PostgresCdcProvider pg_log.
Proof. apply (postgres_orders_its_log sample_marks pg_log sample_marks_order). Defined.
